(* ===== verification/_CoqProject ===== *)
-Q . S2P
Prelude.v
Crypto.v
Text.v
Event.v
Merkle.v
Ledger.v
Validation.v
BftTypes.v
BftConfig.v
Slashing.v
ValidatorSet.v
ApplyBlock.v
Snapshot.v
Node.v
NodeFacts.v
NodeSafety.v
NodeBehaviour.v
NodeHistory.v
NodeLiveness.v
NodeExamples.v
Wire.v
Network.v
NodeMain.v
Http.v
System.v
Scoring.v
Overlay.v
TraceCheck.v
FileStorage.v
FileTool.v
Ffi.v
UnitTests.v
