(* ===== verification/Prelude.v ===== *)
(** * DVEL: a verification library for the Rust core (src/rust-core)

    DVEL is an append-only ledger of signed events with a BFT replication
    layer.  This library models the Rust core as executable definitions and
    proves what its components promise.

    ** The program and its parts

    An event ([event.rs]) is signed data with a parent hash.  The ledger
    ([ledger.rs]) stores events under their SHA-256 hash and keeps the tips;
    validation ([validation.rs]) checks version, signature and a timestamp that
    may step back by a bounded skew.  Scoring ([scoring.rs]) prefers one tip,
    optionally with per-author weights of the Sybil overlay, which quarantines
    and slashes authors that fork and can record a trace of what it saw; the
    trace checker ([trace_check.rs]) replays such a trace.  On top, [bft/]
    orders transactions, each an encoded event, into blocks: a node
    ([bft/node.rs]) proposes, prevotes and precommits, applies committed blocks
    to its ledger, slashes double signers ([bft/slashing.rs]), publishes a
    snapshot to its HTTP clients ([bft/http.rs]) and saves it
    ([bft/storage.rs]); [bin/dvel-bft-node.rs] starts the node, its peer
    network and its HTTP server from a genesis file.  Beside this, [storage.rs] splits files into hashed
    chunks with a signed manifest, [bin/dvel-file.rs] is its command line, and
    [ffi.rs] exports ledger, validation, scoring, overlay and storage to C.

    ** Files

    - [Prelude]: tactics, the hint database [dvel], bytes, machine integers,
      little-endian encodings, the byte order and sorting, results.
    - [Crypto]: the packages sha2, ed25519_dalek and hex as type classes with
      their documented laws, and concrete instances ([Module Toy]).
    - [Text]: what the source uses of Rust's text library: decimals, [lines],
      prefixes, UTF-8 with its lossy decoding, white space, CRLF.
    - [Event], [Merkle], [Ledger], [Validation]: [event.rs], the Merkle loop
      that three files repeat, [ledger.rs], [validation.rs].  [Event] also has
      [decode_event] of [bft/node.rs].
    - [BftTypes], [BftConfig], [Slashing], [ValidatorSet]: [bft/types.rs],
      [bft/config.rs], [bft/slashing.rs] and [struct ValidatorSet].
    - [ApplyBlock]: [Node::apply_block], the default and the [parallel] build.
    - [Snapshot]: [NodeSnapshot], [PersistedSnapshot], [SnapshotStore].
    - [Node]: [struct Node] as a record and one definition per method, in the
      monad [outcome] whose results are a node, a failed [expect], the end of
      the process, or exhausted fuel; [run_turn] is one turn of [Node::run].
      [NodeFacts] has its invariant, [NodeSafety] the step relation and the
      safety theorems, [NodeBehaviour] the handlers' behaviour, [NodeHistory]
      the transactions of the chain and of the pool, [NodeLiveness] the
      synchronous round, [NodeExamples] concrete runs and the witnesses.
    - [Wire]: framing, the receive loop of [spawn_peer], the handshake.
    - [Network]: [struct Network] with its threads: the accept thread, one
      connecting thread per validator and one thread per connection, each a
      program counter that [net_step] advances on what the operating system
      returns; registration, [broadcast], [shutdown] and the TLS set-up.
    - [NodeMain]: [main] of [bin/dvel-bft-node.rs].
    - [Http]: [read_request], the routes of [handle_client], [write_json].
    - [System]: the node, the network and the HTTP server over their shared
      channels and snapshot; [sys_step] interleaves the actions of [Node::run]
      with the steps of the network threads and of the HTTP threads.
    - [Scoring]: policies, chains, scores, preference, the ancestor walk.
    - [Overlay]: [SybilOverlay] and [TraceRecorder].
    - [TraceCheck]: [check_trace].
    - [FileStorage], [FileTool], [Ffi]: [storage.rs], [bin/dvel-file.rs],
      [ffi.rs].
    - [UnitTests]: the test functions inside the source files, on the model.

    ** How the code is modelled

    A struct is a record, an enum an inductive type, a method a function that
    passes its state; [Result] is [result], and a panic, an exit of the
    process or undefined behaviour is a separate outcome.  Unsigned integers
    are [Z] with saturation and wrapping written out; overflow of a plain
    operator wraps, as in the release profile.  Hash maps and sets are [gmap]
    and [gset]; where the result could depend on the iteration order of a hash
    set, the order is the class [HashIter] and the theorems hold for all
    instances.  An [f64] is a [spec_float] with the operations of IEEE 754
    binary64.  Clocks, what a read returns, whether a file-system call
    succeeds and whether there is memory for a buffer of a caller's size are
    arguments.  Packages are classes: SHA-256, ed25519, hex,
    the uses of [serde_json] ([SnapshotJson], [MessageJson],
    [TxRequestJson], [GenesisJson]), [rustls] ([Rustls]) and [rustls_pemfile]
    ([Pem]); [ln_1p] is a parameter.  Neither collision resistance
    nor unforgeability is assumed: a theorem that needs injectivity concludes
    with "or two of these hashed messages collide", for listed messages.

    ** What is proved

    - Agreement of the chain: two nodes of one genesis that commit at the same
      height and round commit the same block or [f + 1] validators signed
      conflicting precommits ([NodeSafety.accountable_agreement], from quorum
      intersection and the certificate of every committed block); the committed
      chain is linked, gapless and final; no transaction is committed twice,
      and the ledger is exactly the chain's events.
    - The main loop and the start: a turn takes every message and command,
      proposes when it is the node's turn and leaves no step overdue
      ([NodeHistory.run_turn_work]); [NodeSafety.restart_exact] says which
      snapshot files a start accepts and what state they give, and that the
      nodes of this program never leave one.
    - Progress: a synchronous round of a correct quorum with a correct proposer
      commits its block at every node of the quorum
      ([NodeLiveness.synchronous_round_commits]).
    - What the consensus code does not give: one equivocating proposer forks
      four nodes without slashing, a lock never survives a round, no snapshot
      is written, and further runs in [NodeExamples].
    - Ledger and blocks: the tips are exactly the leaves, encodings and roots
      commit to their contents, block application is atomic and the parallel
      build agrees on independent events.
    - Stakes: the original stake less the recorded amounts, down to zero, for
      any percents, and exactly conserved when these are at most 100; evidence
      for every double vote within 100 heights and for nothing else.
    - Overlay: a type invariant without panics, quarantine that nothing lifts
      early, cumulative capped penalties, transparent tracing; a preferred tip
      independent of hash order.
    - Traces: what a passed check establishes, that a final root pins down
      the events, and that traces of correct nodes pass unless an author
      equivocates inside its quarantine, where the check is too strict.
    - Network: only validators that proved their keys are peers, over TLS
      exactly if it is configured; a peer receives what was broadcast, in
      order, however the stream is split; after a shutdown the threads take
      boundedly many steps and end as soon as the remotes they wait for answer
      or fail; a lost peer is not dialled again, and a silent client blocks
      the accept thread, also during a shutdown.
    - Clients: requests are read from any segmentation, answers say exactly
      what the chain contains, answers over time are consistent, and no
      accepted submission is lost.
    - The program: it starts from a genesis file that lists its key, and the
      running system, with all its threads, keeps the chain and peer
      invariants of its genesis ([System.running_program_safe]).
    - Files: manifests, chunks and the upload and download commands round
      trip for chunk sizes up to [isize::MAX], beyond which they panic; an
      expected signer is accepted without a signature.
    - The C interface, all 31 exported functions: memory safe for callers that
      pass live handles, true buffer lengths and chunk sizes that can be
      allocated; the storage calls agree with the command line.

    ** Fuel

    Loops that are not structural take fuel that is proved sufficient:
    [handle_vote] two levels of the recursion through [broadcast_vote]
    ([NodeFacts.handle_vote_terminates]); the Merkle loop the number of
    leaves; [decode_loop] the buffer length; [chunk_loop] the file size
    ([FileStorage.chunk_file_ok], [FileStorage.chunk_file_total]); [read_head] and [read_body] the bytes of
    the connection ([Http.read_request_total]); [decimal] twenty digits, enough
    for [u64]; [trim_start_matches] and the lossy decoder the text length.

    ** Not modelled

    Sockets, the TLS protocol and the certificate checks of rustls, the JSON
    and PEM text that packages read and write (all interfaces); the sleeps of
    the threads, which only space out their steps; the forwarding methods of
    [PeerStream]; the conversions between error types;
    printed and logged text; paths beyond a directory and a name, so aliases
    of one file; the C++ simulator and the scripts, which are not Rust. *)

From Stdlib Require Import ZArith Lia Bool Strings.Byte Sorting.Permutation.
From stdpp Require Import base decidable countable gmap list sorting strings.

Declare Scope dvel_scope.
Delimit Scope dvel_scope with dvel.
Open Scope dvel_scope.
Open Scope Z_scope.

(** ** Automation shared by the library *)

Create HintDb dvel.

(** Case analysis on the scrutinee of the next [match] or [if] of the goal,
    keeping its equation. *)
Ltac split_match :=
  match goal with
  | |- context [match ?x with _ => _ end] => destruct x eqn:?
  end.

(** The same in a hypothesis. *)
Ltac split_match_in H :=
  match type of H with
  | context [match ?x with _ => _ end] => destruct x eqn:?
  end.

(** Run every branch of an executable definition that occurs in [H], closing
    the branches the result rules out. *)
Ltac run_in H := repeat (split_match_in H; simplify_eq/=).

(** ** Bytes *)

#[global] Instance byte_eq_decision : EqDecision byte := Byte.byte_eq_dec.

#[global] Program Instance byte_countable : Countable byte :=
  inj_countable Byte.to_N Byte.of_N Byte.of_to_N.

Definition byte_to_Z (b : byte) : Z := Z.of_N (Byte.to_N b).

Definition byte_of_Z (z : Z) : byte :=
  match Byte.of_N (Z.to_N z) with
  | Some b => b
  | None => x00
  end.

Lemma byte_to_Z_range b : 0 <= byte_to_Z b < 256.
Proof. unfold byte_to_Z. pose proof (Byte.to_N_bounded b). lia. Qed.

Lemma byte_of_to_Z b : byte_of_Z (byte_to_Z b) = b.
Proof.
  unfold byte_of_Z, byte_to_Z. by rewrite N2Z.id, Byte.of_to_N.
Qed.

Lemma byte_to_of_Z z : 0 <= z < 256 -> byte_to_Z (byte_of_Z z) = z.
Proof.
  intros Hz. unfold byte_of_Z, byte_to_Z.
  destruct (Byte.of_N (Z.to_N z)) as [b|] eqn:E.
  - apply Byte.to_of_N in E. lia.
  - apply Byte.of_N_None_iff in E. lia.
Qed.

Lemma byte_to_Z_inj b1 b2 : byte_to_Z b1 = byte_to_Z b2 -> b1 = b2.
Proof. intros H. rewrite <- (byte_of_to_Z b1), <- (byte_of_to_Z b2). by f_equal. Qed.

(** The UTF-8 bytes of a string literal of the source. *)
Definition str (s : String.string) : list byte := String.list_byte_of_string s.
Arguments str s%_string_scope.

(** ** Machine integers

    A [u64] or [usize] (64-bit target) is a [Z] between [0] and [u64_max].
    The operators below are the ones the source writes out; the plain [+] and
    [*] of the source wrap in the release profile ([wrap64]). *)

Definition u64_max : Z := 2 ^ 64 - 1.
Definition u128_max : Z := 2 ^ 128 - 1.

Definition is_u64 (z : Z) : Prop := 0 <= z <= u64_max.

Definition wrap64 (z : Z) : Z := z mod 2 ^ 64.
Definition saturating_add (a b : Z) : Z := Z.min (a + b) u64_max.
Definition saturating_sub (a b : Z) : Z := Z.max (a - b) 0.
Definition saturating_mul (a b : Z) : Z := Z.min (a * b) u64_max.
Definition saturating_mul_u128 (a b : Z) : Z := Z.min (a * b) u128_max.

#[global] Instance is_u64_dec z : Decision (is_u64 z).
Proof. unfold is_u64. apply _. Defined.

Lemma wrap64_small z : is_u64 z -> wrap64 z = z.
Proof. intros H. unfold wrap64, is_u64, u64_max in *. apply Z.mod_small. lia. Qed.

Lemma wrap64_range z : is_u64 (wrap64 z).
Proof. unfold wrap64, is_u64, u64_max. pose proof (Z.mod_pos_bound z (2 ^ 64)). lia. Qed.

Lemma saturating_add_range a b : is_u64 a -> is_u64 b -> is_u64 (saturating_add a b).
Proof. unfold is_u64, saturating_add, u64_max. lia. Qed.

Lemma saturating_sub_range a b : is_u64 a -> is_u64 b -> is_u64 (saturating_sub a b).
Proof. unfold is_u64, saturating_sub, u64_max. lia. Qed.

Lemma saturating_mul_range a b : is_u64 a -> is_u64 b -> is_u64 (saturating_mul a b).
Proof. unfold is_u64, saturating_mul, u64_max. nia. Qed.

#[export] Hint Resolve wrap64_range saturating_add_range saturating_sub_range
  saturating_mul_range : dvel.

(** ** Little-endian encodings ([to_le_bytes], [from_le_bytes]) *)

Fixpoint to_le_bytes (n : nat) (z : Z) : list byte :=
  match n with
  | O => []
  | S n' => byte_of_Z (z mod 256) :: to_le_bytes n' (z / 256)
  end.

Fixpoint from_le_bytes (l : list byte) : Z :=
  match l with
  | [] => 0
  | b :: l' => byte_to_Z b + 256 * from_le_bytes l'
  end.

Lemma length_to_le_bytes n z : length (to_le_bytes n z) = n.
Proof. revert z. induction n as [|n IH]; intros z; simpl; [done|]. by rewrite IH. Qed.

Lemma pow256_succ n : 256 ^ Z.of_nat (S n) = 256 * 256 ^ Z.of_nat n.
Proof. rewrite Nat2Z.inj_succ, Z.pow_succ_r by lia. lia. Qed.

Lemma from_to_le_bytes n z :
  0 <= z < 256 ^ Z.of_nat n -> from_le_bytes (to_le_bytes n z) = z.
Proof.
  revert z. induction n as [|n IH]; intros z Hz; simpl.
  - simpl in Hz. lia.
  - rewrite pow256_succ in Hz.
    pose proof (Z.mod_pos_bound z 256). pose proof (Z.div_mod z 256).
    rewrite IH, byte_to_of_Z; [lia|lia|].
    split; [apply Z.div_pos; lia|]. apply Z.div_lt_upper_bound; lia.
Qed.

Lemma from_le_bytes_range l : 0 <= from_le_bytes l < 256 ^ Z.of_nat (length l).
Proof.
  induction l as [|b l IH]; simpl length; [simpl; lia|].
  rewrite pow256_succ. pose proof (byte_to_Z_range b). simpl. lia.
Qed.

Lemma to_from_le_bytes l : to_le_bytes (length l) (from_le_bytes l) = l.
Proof.
  induction l as [|b l IH]; simpl; [done|].
  pose proof (byte_to_Z_range b) as Hb.
  rewrite (Z.mul_comm 256), Z.mod_add, Z.mod_small, byte_of_to_Z by lia.
  rewrite Z.div_add, Z.div_small, Z.add_0_l, IH by lia. done.
Qed.

Lemma to_le_bytes_inj n z1 z2 :
  0 <= z1 < 256 ^ Z.of_nat n -> 0 <= z2 < 256 ^ Z.of_nat n ->
  to_le_bytes n z1 = to_le_bytes n z2 -> z1 = z2.
Proof.
  intros H1 H2 E. rewrite <- (from_to_le_bytes n z1), <- (from_to_le_bytes n z2) by done.
  by rewrite E.
Qed.

Lemma u64_le_inj z1 z2 :
  is_u64 z1 -> is_u64 z2 -> to_le_bytes 8 z1 = to_le_bytes 8 z2 -> z1 = z2.
Proof.
  unfold is_u64, u64_max. intros. apply (to_le_bytes_inj 8); [lia|lia|done].
Qed.

(** ** Lexicographic order on byte strings ([Ord] of [[u8; N]]) *)

Fixpoint bytes_compare (a b : list byte) : comparison :=
  match a, b with
  | [], [] => Eq
  | [], _ :: _ => Lt
  | _ :: _, [] => Gt
  | x :: a', y :: b' =>
      match byte_to_Z x ?= byte_to_Z y with
      | Eq => bytes_compare a' b'
      | c => c
      end
  end.

Definition bytes_ltb (a b : list byte) : bool :=
  match bytes_compare a b with Lt => true | _ => false end.

Definition bytes_le (a b : list byte) : Prop := bytes_compare a b <> Gt.

#[global] Instance bytes_le_dec : RelDecision bytes_le.
Proof. intros a b. unfold bytes_le. destruct (bytes_compare a b); [left|left|right]; done || by intros H. Defined.

Lemma bytes_compare_refl a : bytes_compare a a = Eq.
Proof. induction a as [|x a IH]; simpl; [done|]. by rewrite Z.compare_refl. Qed.

Lemma bytes_compare_eq a b : bytes_compare a b = Eq <-> a = b.
Proof.
  split; [|intros ->; apply bytes_compare_refl].
  revert b. induction a as [|x a IH]; intros [|y b]; simpl; try done.
  destruct (Z.compare_spec (byte_to_Z x) (byte_to_Z y)) as [E|E|E]; try done.
  intros ->%IH. f_equal. by apply byte_to_Z_inj.
Qed.

Lemma bytes_compare_antisym a b : bytes_compare b a = CompOpp (bytes_compare a b).
Proof.
  revert b. induction a as [|x a IH]; intros [|y b]; simpl; try done.
  rewrite (Z.compare_antisym (byte_to_Z x)).
  destruct (byte_to_Z x ?= byte_to_Z y); simpl; [apply IH|done|done].
Qed.

Lemma bytes_compare_lt_trans a b c :
  bytes_compare a b = Lt -> bytes_compare b c = Lt -> bytes_compare a c = Lt.
Proof.
  revert b c. induction a as [|x a IH]; intros [|y b] [|z c]; simpl; try done.
  destruct (Z.compare_spec (byte_to_Z x) (byte_to_Z y)) as [E1|E1|E1]; try done;
  destruct (Z.compare_spec (byte_to_Z y) (byte_to_Z z)) as [E2|E2|E2]; try done;
  destruct (Z.compare_spec (byte_to_Z x) (byte_to_Z z)) as [E3|E3|E3]; try done; try lia.
  apply IH.
Qed.

Lemma bytes_ltb_irrefl a : bytes_ltb a a = false.
Proof. unfold bytes_ltb. by rewrite bytes_compare_refl. Qed.

Lemma bytes_ltb_trans a b c :
  bytes_ltb a b = true -> bytes_ltb b c = true -> bytes_ltb a c = true.
Proof.
  unfold bytes_ltb. destruct (bytes_compare a b) eqn:E1; try done.
  destruct (bytes_compare b c) eqn:E2; try done.
  by rewrite (bytes_compare_lt_trans _ _ _ E1 E2).
Qed.

Lemma bytes_ltb_total a b : a <> b -> bytes_ltb a b = false -> bytes_ltb b a = true.
Proof.
  intros Hne. unfold bytes_ltb. rewrite (bytes_compare_antisym a b).
  destruct (bytes_compare a b) eqn:E; try done. by apply bytes_compare_eq in E.
Qed.

Lemma bytes_le_lteq a b : bytes_le a b <-> bytes_compare a b = Lt \/ a = b.
Proof.
  unfold bytes_le. destruct (bytes_compare a b) eqn:E.
  - apply bytes_compare_eq in E. naive_solver.
  - naive_solver.
  - split; [done|]. intros [?| ->]; [done|]. by rewrite bytes_compare_refl in E.
Qed.

#[global] Instance bytes_le_trans : Transitive bytes_le.
Proof.
  intros a b c. rewrite !bytes_le_lteq. intros [H1| ->] [H2| ->]; eauto using bytes_compare_lt_trans.
Qed.

#[global] Instance bytes_le_total : Total bytes_le.
Proof.
  intros a b. unfold bytes_le. rewrite (bytes_compare_antisym a b).
  destruct (bytes_compare a b); [left|left|right]; done.
Qed.

#[global] Instance bytes_le_antisymm : AntiSymm (=) bytes_le.
Proof.
  intros a b. unfold bytes_le. rewrite (bytes_compare_antisym a b).
  destruct (bytes_compare a b) eqn:E; try done. intros _ _. by apply bytes_compare_eq.
Qed.

(** [v.sort()] on a vector of byte arrays. *)
Definition sort_bytes (l : list (list byte)) : list (list byte) := merge_sort bytes_le l.

Lemma sort_bytes_perm l : sort_bytes l ≡ₚ l.
Proof. apply merge_sort_Permutation. Qed.

(** Sorting depends only on the multiset of its input. *)
Lemma sort_bytes_canonical l1 l2 : l1 ≡ₚ l2 -> sort_bytes l1 = sort_bytes l2.
Proof.
  intros H. apply (StronglySorted_unique bytes_le).
  - apply (StronglySorted_merge_sort bytes_le).
  - apply (StronglySorted_merge_sort bytes_le).
  - by rewrite !sort_bytes_perm.
Qed.

(** ** [Result] *)

Inductive result (A E : Type) : Type :=
| Ok (a : A)
| Err (e : E).
Arguments Ok {A E} a.
Arguments Err {A E} e.

Definition result_bind {A B E} (m : result A E) (k : A -> result B E) : result B E :=
  match m with
  | Ok a => k a
  | Err e => Err e
  end.

Definition map_err {A E F} (f : E -> F) (m : result A E) : result A F :=
  match m with
  | Ok a => Ok a
  | Err e => Err (f e)
  end.

Definition ok_or {A E} (o : option A) (e : E) : result A E :=
  match o with
  | Some a => Ok a
  | None => Err e
  end.

Definition is_ok {A E} (m : result A E) : bool :=
  match m with Ok _ => true | Err _ => false end.

Notation "'let?' x ':=' m 'in' k" := (result_bind m (fun x => k))
  (at level 10, x pattern, m at level 100, k at level 200) : dvel_scope.

Lemma result_bind_ok {A B E} (m : result A E) (k : A -> result B E) b :
  result_bind m k = Ok b <-> exists a, m = Ok a /\ k a = Ok b.
Proof.
  destruct m as [a|e]; simpl; split; [by exists a|by intros (? & [= ->] & ?)|done|].
  by intros (? & ? & ?).
Qed.

(** ** Lists *)

(** Concatenations whose first parts have the same length split. *)
Lemma app_split {A} (a1 a2 b1 b2 : list A) :
  length a1 = length a2 -> a1 ++ b1 = a2 ++ b2 -> a1 = a2 /\ b1 = b2.
Proof. intros. by apply app_inj_1. Qed.

Lemma take_app_exact {A} (l k : list A) n : length l = n -> take n (l ++ k) = l.
Proof. intros <-. apply take_app_length. Qed.

Lemma drop_app_exact {A} (l k : list A) n : length l = n -> drop n (l ++ k) = k.
Proof. intros <-. apply drop_app_length. Qed.

(** Replacing one element of a sum. *)
Lemma sum_list_insert {A} (f : A -> nat) (l : list A) i x y :
  l !! i = Some x -> (sum_list_with f (<[i := y]> l) + f x = sum_list_with f l + f y)%nat.
Proof.
  revert i. induction l as [|z l IH]; intros [|i] Hi; simpl in *; try done.
  - injection Hi as ->. lia.
  - specialize (IH i Hi). lia.
Qed.
