(* ===== verification/Crypto.v ===== *)
(** * The cryptographic packages, as interfaces

    The source calls three packages it does not contain: [sha2] (SHA-256),
    [ed25519_dalek] 1.x and [hex] 0.4.  Each one is a type class: the
    operations the source calls, and the documented behaviour the proofs rely
    on as named laws.  Collision resistance and unforgeability are never
    assumed: theorems that need injectivity of SHA-256 conclude "or two of
    these messages collide", for the messages that were hashed.

    [Module Toy] holds concrete instances, so that the interfaces are known to
    be inhabited and the executable definitions can be evaluated. *)

From Stdlib Require Import ZArith Lia Strings.Byte.
From stdpp Require Import base list sets.
From S2P Require Import Prelude.

(** [type Hash = [u8; 32]] and its siblings; a Rust [String] is its UTF-8
    bytes. *)
Abbreviation Hash := (list byte).
Abbreviation PublicKey := (list byte).
Abbreviation Signature := (list byte).
Abbreviation Str := (list byte).

(** [const ZERO_HASH: Hash = [0u8; 32]]. *)
Definition ZERO_HASH : Hash := replicate 32 x00.

Class Sha256 := {
  sha256 : list byte -> Hash;
  sha256_length : forall m, length (sha256 m) = 32%nat;
}.

(** Two different messages with one digest. *)
Definition collision `{Sha256} (x y : list byte) : Prop :=
  x <> y /\ sha256 x = sha256 y.

(** Two of the listed messages collide. *)
Definition collision_among `{Sha256} (msgs : list (list byte)) : Prop :=
  exists x y, x ∈ msgs /\ y ∈ msgs /\ collision x y.

Lemma sha256_inj_or `{Sha256} x y : sha256 x = sha256 y -> x = y \/ collision x y.
Proof. intros E. destruct (decide (x = y)); [by left|by right]. Qed.

Lemma sha256_inj_among `{Sha256} msgs x y :
  x ∈ msgs -> y ∈ msgs -> sha256 x = sha256 y -> x = y \/ collision_among msgs.
Proof. intros Hx Hy [?|]%sha256_inj_or; [by left|right]. by exists x, y. Qed.

Lemma collision_among_mono `{Sha256} msgs1 msgs2 :
  msgs1 ⊆ msgs2 -> collision_among msgs1 -> collision_among msgs2.
Proof. intros Hs (x & y & Hx & Hy & Hc). exists x, y. auto. Qed.

Ltac collide := right; eapply collision_among_mono; [|eassumption]; set_solver.

(** ed25519_dalek 1.x.  [sign] and [public_of_secret] take the 32 secret
    bytes; the two [_from_bytes] functions reject malformed encodings. *)
Class Ed25519 := {
  DalekPublicKey : Type;
  DalekSignature : Type;
  public_key_from_bytes : list byte -> option DalekPublicKey;
  public_key_to_bytes : DalekPublicKey -> PublicKey;
  signature_from_bytes : list byte -> option DalekSignature;
  signature_to_bytes : DalekSignature -> Signature;
  public_of_secret : list byte -> DalekPublicKey;
  sign : list byte -> list byte -> DalekSignature;
  verify : DalekPublicKey -> list byte -> DalekSignature -> bool;
  verify_strict : DalekPublicKey -> list byte -> DalekSignature -> bool;
}.

Class Ed25519Laws `{Ed25519} := {
  derived_key_length : forall sk,
    length (public_key_to_bytes (public_of_secret sk)) = 32%nat;
  derived_key_from_bytes : forall sk,
    public_key_from_bytes (public_key_to_bytes (public_of_secret sk))
    = Some (public_of_secret sk);
  signed_length : forall sk m, length (signature_to_bytes (sign sk m)) = 64%nat;
  signed_from_bytes : forall sk m,
    signature_from_bytes (signature_to_bytes (sign sk m)) = Some (sign sk m);
  sign_verify : forall sk m, verify (public_of_secret sk) m (sign sk m) = true;
  sign_verify_strict : forall sk m,
    verify_strict (public_of_secret sk) m (sign sk m) = true;
}.

(** [struct Keypair { secret, public }]. *)
Record Keypair `{Ed25519} := mkKeypair {
  kp_secret : list byte;
  kp_public : DalekPublicKey;
}.

(** The public key of a pair is the one of its secret key. *)
Definition keypair_ok `{Ed25519} (keypair : Keypair) : Prop :=
  kp_public keypair = public_of_secret (kp_secret keypair).

(** The [hex] package: [encode] writes two lower-case digits per byte,
    [decode] reads them back and rejects odd lengths and other characters. *)
Definition is_hex_digit (b : byte) : bool :=
  ((48 <=? byte_to_Z b) && (byte_to_Z b <=? 57))
  || ((97 <=? byte_to_Z b) && (byte_to_Z b <=? 102)).

Class Hex := {
  hex_encode : list byte -> Str;
  hex_decode : Str -> option (list byte);
  hex_decode_encode : forall l, hex_decode (hex_encode l) = Some l;
  hex_encode_length : forall l, length (hex_encode l) = (2 * length l)%nat;
  hex_encode_digits : forall l, Forall (fun b => is_hex_digit b = true) (hex_encode l);
}.

(** ** Concrete instances *)

Module Toy.

(** A polynomial digest over 64 bits. *)
Definition toy_digest (m : list byte) : Z :=
  foldl (fun acc b => Z.land (acc * 257 + byte_to_Z b + 1) 18446744073709551615) 0 m.

Definition toy_sha (m : list byte) : Hash := to_le_bytes 32 (toy_digest m).

#[export] Instance toy_sha256 : Sha256 :=
  {| sha256 := toy_sha; sha256_length := fun m => length_to_le_bytes 32 _ |}.

Definition toy_public (sk : list byte) : list byte := toy_sha sk.

Definition toy_sign_with_public (pk m : list byte) : list byte :=
  let h := toy_sha (pk ++ m) in h ++ h.

Definition of_length (n : nat) (l : list byte) : option (list byte) :=
  if decide (length l = n) then Some l else None.

#[export] Instance toy_ed25519 : Ed25519 := {|
  DalekPublicKey := list byte;
  DalekSignature := list byte;
  public_key_from_bytes := of_length 32;
  public_key_to_bytes := fun pk => pk;
  signature_from_bytes := of_length 64;
  signature_to_bytes := fun s => s;
  public_of_secret := toy_public;
  sign := fun sk m => toy_sign_with_public (toy_public sk) m;
  verify := fun pk m s => bool_decide (s = toy_sign_with_public pk m);
  verify_strict := fun pk m s => bool_decide (s = toy_sign_with_public pk m);
|}.

Lemma toy_sign_length pk m : length (toy_sign_with_public pk m) = 64%nat.
Proof. unfold toy_sign_with_public, toy_sha. by rewrite length_app, !length_to_le_bytes. Qed.

#[export] Instance toy_ed25519_laws : Ed25519Laws.
Proof.
  split; simpl; intros; unfold of_length, toy_public, toy_sha;
    rewrite ?toy_sign_length, ?length_to_le_bytes; try done;
    by apply bool_decide_eq_true.
Qed.

Definition hex_digit (z : Z) : byte := byte_of_Z (if z <? 10 then 48 + z else 87 + z).

Definition hex_value (b : byte) : option Z :=
  let z := byte_to_Z b in
  if (48 <=? z) && (z <=? 57) then Some (z - 48)
  else if (97 <=? z) && (z <=? 102) then Some (z - 87)
  else if (65 <=? z) && (z <=? 70) then Some (z - 55)
  else None.

Fixpoint toy_hex_encode (l : list byte) : Str :=
  match l with
  | [] => []
  | b :: l' =>
      hex_digit (byte_to_Z b / 16) :: hex_digit (byte_to_Z b mod 16) :: toy_hex_encode l'
  end.

Fixpoint toy_hex_decode (s : Str) : option (list byte) :=
  match s with
  | [] => Some []
  | [_] => None
  | a :: b :: s' =>
      match hex_value a, hex_value b, toy_hex_decode s' with
      | Some x, Some y, Some l => Some (byte_of_Z (16 * x + y) :: l)
      | _, _, _ => None
      end
  end.

Lemma hex_digit_spec z :
  0 <= z < 16 ->
  hex_value (hex_digit z) = Some z /\ is_hex_digit (hex_digit z) = true.
Proof.
  intros Hz.
  assert (z = 0 \/ z = 1 \/ z = 2 \/ z = 3 \/ z = 4 \/ z = 5 \/ z = 6 \/ z = 7 \/ z = 8
    \/ z = 9 \/ z = 10 \/ z = 11 \/ z = 12 \/ z = 13 \/ z = 14 \/ z = 15) as Hc by lia.
  repeat destruct Hc as [-> | Hc]; [done..|]. subst. done.
Qed.

Lemma nibbles_range b :
  0 <= byte_to_Z b / 16 < 16 /\ 0 <= byte_to_Z b mod 16 < 16.
Proof.
  pose proof (byte_to_Z_range b). split; [|apply Z.mod_pos_bound; lia].
  split; [apply Z.div_pos; lia|apply Z.div_lt_upper_bound; lia].
Qed.

Lemma toy_hex_decode_encode l : toy_hex_decode (toy_hex_encode l) = Some l.
Proof.
  induction l as [|b l IH]; simpl; [done|].
  destruct (nibbles_range b) as [H1 H2].
  rewrite (proj1 (hex_digit_spec _ H1)), (proj1 (hex_digit_spec _ H2)), IH.
  rewrite <- Z.div_mod by lia. by rewrite byte_of_to_Z.
Qed.

Lemma toy_hex_length l : length (toy_hex_encode l) = (2 * length l)%nat.
Proof. induction l as [|b l IH]; simpl; [done|]. rewrite IH. lia. Qed.

Lemma toy_hex_digits l : Forall (fun b => is_hex_digit b = true) (toy_hex_encode l).
Proof.
  induction l as [|b l IH]; simpl; [done|]. destruct (nibbles_range b) as [H1 H2].
  repeat constructor; try done; by apply hex_digit_spec.
Qed.

#[export] Instance toy_hex : Hex :=
  {| hex_encode := toy_hex_encode; hex_decode := toy_hex_decode;
     hex_decode_encode := toy_hex_decode_encode;
     hex_encode_length := toy_hex_length; hex_encode_digits := toy_hex_digits |}.

End Toy.
