(* ===== verification/Text.v ===== *)
(** * Text functions of the Rust standard library

    Strings are their UTF-8 bytes.  Decimal formatting and parsing of [u64],
    [str::lines], [str::strip_prefix] and UTF-8 validation ([String] and
    [fs::read_to_string]), with the round trips the file formats rely on. *)

From Stdlib Require Import ZArith Lia Strings.Byte.
From stdpp Require Import base list sets.
From S2P Require Import Prelude Crypto.

(** ** Decimal numbers *)

Definition digit (d : Z) : byte := byte_of_Z (48 + d).

Definition digit_value (b : byte) : option Z :=
  let z := byte_to_Z b in
  if (48 <=? z) && (z <=? 57) then Some (z - 48) else None.

(** The decimal digits of [z], most significant first; [fuel] bounds their
    number. *)
Fixpoint decimal_loop (fuel : nat) (z : Z) (acc : Str) : Str :=
  match fuel with
  | O => acc
  | S fuel' =>
      if z <? 10 then digit z :: acc
      else decimal_loop fuel' (z / 10) (digit (z mod 10) :: acc)
  end.

(** [format!("{}", z)] for a [u64]: at most twenty digits. *)
Definition decimal (z : Z) : Str := decimal_loop 20 z [].

(** [format!("{:08}", z)]. *)
Definition decimal08 (z : Z) : Str :=
  let d := decimal z in replicate (8 - length d) x30 ++ d.

(** The digit loop of [str::parse::<u64>], with its overflow check. *)
Fixpoint parse_digits (acc : Z) (s : Str) : option Z :=
  match s with
  | [] => Some acc
  | b :: s' =>
      match digit_value b with
      | None => None
      | Some d =>
          let acc := acc * 10 + d in
          if u64_max <? acc then None else parse_digits acc s'
      end
  end.

(** [str::parse::<u64>]: an optional plus sign, then at least one digit. *)
Definition parse_u64 (s : Str) : option Z :=
  match s with
  | [] => None
  | b :: s' =>
      if decide (b = x2b) then
        match s' with [] => None | _ :: _ => parse_digits 0 s' end
      else parse_digits 0 s
  end.

Lemma digit_value_range b d : digit_value b = Some d -> 0 <= d < 10.
Proof.
  unfold digit_value. destruct (_ && _) eqn:E; [|done].
  apply andb_true_iff in E as [E1%Z.leb_le E2%Z.leb_le]. intros [= <-]. lia.
Qed.

Lemma parse_digits_range acc s z : is_u64 acc -> parse_digits acc s = Some z -> is_u64 z.
Proof.
  revert acc. induction s as [|b s IH]; intros acc Ha; simpl; [by intros [= <-]|].
  destruct (digit_value b) as [d|] eqn:Ed; [|done]. apply digit_value_range in Ed.
  destruct (Z.ltb_spec u64_max (acc * 10 + d)); [done|]. apply IH. unfold is_u64 in *. lia.
Qed.

Lemma parse_u64_range s z : parse_u64 s = Some z -> is_u64 z.
Proof.
  assert (is_u64 0) as H0 by (unfold is_u64, u64_max; lia). unfold parse_u64.
  destruct s as [|b s]; [done|]. case_decide; [destruct s; [done|]|]; by apply parse_digits_range.
Qed.

Lemma digit_value_digit d : 0 <= d < 10 -> digit_value (digit d) = Some d.
Proof.
  intros Hd. unfold digit_value, digit. rewrite byte_to_of_Z by lia.
  rewrite (proj2 (Z.leb_le _ _)), (proj2 (Z.leb_le _ _)) by lia. simpl. f_equal. lia.
Qed.

Lemma parse_digits_app acc s1 s2 : parse_digits acc (s1 ++ s2) = parse_digits acc s1 ≫= fun a => parse_digits a s2.
Proof.
  revert acc. induction s1 as [|b s1 IH]; intros acc; simpl; [done|].
  destruct (digit_value b); [|done]. by destruct (_ <? _).
Qed.

Lemma decimal_loop_app fuel z acc : decimal_loop fuel z acc = decimal_loop fuel z [] ++ acc.
Proof.
  revert z acc. induction fuel as [|fuel IH]; intros z acc; simpl; [done|].
  destruct (z <? 10); [done|]. rewrite IH, (IH _ [_]). by rewrite <- app_assoc.
Qed.

Lemma parse_decimal_loop fuel z :
  0 <= z <= u64_max -> z < 10 ^ Z.of_nat fuel -> parse_digits 0 (decimal_loop fuel z []) = Some z.
Proof.
  revert z. induction fuel as [|fuel IH]; intros z Hz Hf.
  - simpl in *. f_equal. lia.
  - simpl. destruct (Z.ltb_spec z 10) as [Hs|Hs].
    + simpl. rewrite digit_value_digit by lia. rewrite (proj2 (Z.ltb_ge _ _)) by (unfold u64_max; lia).
      f_equal; lia.
    + pose proof (Z.mod_pos_bound z 10 ltac:(lia)). pose proof (Z.div_mod z 10 ltac:(lia)) as Hdm.
      assert (0 <= z / 10 <= u64_max) by (split; [apply Z.div_pos; lia|lia]).
      rewrite decimal_loop_app, parse_digits_app, IH; [|done|].
      * simpl. rewrite digit_value_digit by lia. rewrite (proj2 (Z.ltb_ge _ _)) by lia.
        f_equal; lia.
      * apply Z.div_lt_upper_bound; [lia|]. by rewrite Nat2Z.inj_succ, Z.pow_succ_r in Hf by lia.
Qed.

(** A decimal string consists of digits and is not empty. *)
Definition is_digit (b : byte) : Prop := is_Some (digit_value b).

Lemma digit_is_digit d : 0 <= d < 10 -> is_digit (digit d).
Proof. intros Hd. unfold is_digit. rewrite digit_value_digit by done. by eexists. Qed.

Lemma decimal_loop_digits fuel z acc :
  0 <= z -> Forall is_digit acc -> Forall is_digit (decimal_loop fuel z acc).
Proof.
  revert z acc. induction fuel as [|fuel IH]; intros z acc Hz Ha; simpl; [done|].
  destruct (Z.ltb_spec z 10); [constructor; [apply digit_is_digit; lia|done]|].
  apply IH; [apply Z.div_pos; lia|]. constructor; [|done].
  apply digit_is_digit, Z.mod_pos_bound. lia.
Qed.

Lemma decimal_digits z : 0 <= z -> Forall is_digit (decimal z).
Proof. intros. by apply decimal_loop_digits. Qed.

Lemma decimal_loop_nonempty fuel z acc : decimal_loop (S fuel) z acc <> [].
Proof.
  revert z acc. induction fuel as [|fuel IH]; intros z acc.
  - simpl. by destruct (z <? 10).
  - change (decimal_loop (S (S fuel)) z acc) with
      (if z <? 10 then digit z :: acc
       else decimal_loop (S fuel) (z / 10) (digit (z mod 10) :: acc)).
    destruct (z <? 10); [done|]. apply IH.
Qed.

Lemma decimal_nonempty z : decimal z <> [].
Proof. apply decimal_loop_nonempty. Qed.

Lemma parse_u64_digits s : s <> [] -> Forall is_digit s -> parse_u64 s = parse_digits 0 s.
Proof.
  destruct s as [|b s]; [done|]. intros _ [[v Hb] _]%Forall_cons. unfold parse_u64.
  case_decide as E; [subst; done|done].
Qed.

Lemma parse_decimal z : is_u64 z -> parse_u64 (decimal z) = Some z.
Proof.
  intros Hz. unfold is_u64 in Hz.
  rewrite parse_u64_digits; [|apply decimal_nonempty|apply decimal_digits; lia].
  apply parse_decimal_loop; [done|]. unfold u64_max in Hz. simpl. lia.
Qed.

Lemma parse_zeros n s : parse_digits 0 (replicate n x30 ++ s) = parse_digits 0 s.
Proof. induction n as [|n IH]; simpl; [done|]. exact IH. Qed.

Lemma decimal08_inj z1 z2 : is_u64 z1 -> is_u64 z2 -> decimal08 z1 = decimal08 z2 -> z1 = z2.
Proof.
  intros H1 H2 E. apply (f_equal (parse_digits 0)) in E. unfold decimal08 in E.
  rewrite !parse_zeros in E. unfold is_u64 in *.
  unfold decimal in E.
  rewrite !parse_decimal_loop in E by (done || (unfold u64_max in *; simpl; lia)). congruence.
Qed.

(** ** Lines and prefixes *)

Definition newline : byte := x0a.
Definition carriage_return : byte := x0d.

Definition strip_cr (line : Str) : Str :=
  match last line with
  | Some b => if decide (b = carriage_return) then take (pred (length line)) line else line
  | None => line
  end.

(** [str::lines]: lines end at a newline, which is dropped with a carriage
    return before it; the last line may lack its newline. *)
Fixpoint lines_loop (cur : Str) (s : Str) : list Str :=
  match s with
  | [] => match cur with [] => [] | _ :: _ => [cur] end
  | b :: s' =>
      if decide (b = newline) then strip_cr cur :: lines_loop [] s'
      else lines_loop (cur ++ [b]) s'
  end.

Definition lines (s : Str) : list Str := lines_loop [] s.

(** [str::strip_prefix]. *)
Fixpoint strip_prefix (p s : Str) : option Str :=
  match p, s with
  | [], _ => Some s
  | a :: p', b :: s' => if decide (a = b) then strip_prefix p' s' else None
  | _ :: _, [] => None
  end.

(** A line that [lines] gives back unchanged. *)
Definition plain_line (line : Str) : Prop := newline ∉ line /\ last line <> Some carriage_return.

Lemma strip_cr_plain line : last line <> Some carriage_return -> strip_cr line = line.
Proof. unfold strip_cr. destruct (last line); [|done]. by case_decide; subst. Qed.

Lemma lines_loop_line cur line rest :
  newline ∉ line ->
  lines_loop cur (line ++ newline :: rest) = strip_cr (cur ++ line) :: lines rest.
Proof.
  revert cur. induction line as [|b line IH]; intros cur Hn; simpl.
  - by rewrite app_nil_r.
  - rewrite decide_False by set_solver. rewrite IH by set_solver. by rewrite <- app_assoc.
Qed.

Lemma lines_terminated ls :
  Forall plain_line ls -> lines (concat (map (fun l => l ++ [newline]) ls)) = ls.
Proof.
  induction 1 as [|l ls [Hn Hc] _ IH]; simpl; [done|].
  unfold lines. rewrite <- app_assoc. simpl. rewrite lines_loop_line by done.
  simpl. by rewrite strip_cr_plain, IH.
Qed.

Lemma strip_prefix_app p s : strip_prefix p (p ++ s) = Some s.
Proof. induction p as [|a p IH]; simpl; [done|]. by rewrite decide_True. Qed.

(** ** UTF-8 *)

Definition byte_in (lo hi : Z) (b : byte) : bool := (lo <=? byte_to_Z b) && (byte_to_Z b <=? hi).

(** Well-formed UTF-8, the table of the Unicode standard. *)
Fixpoint utf8_ok (s : Str) : bool :=
  match s with
  | [] => true
  | b1 :: s1 =>
      if byte_in 0 127 b1 then utf8_ok s1
      else
        match s1 with
        | [] => false
        | b2 :: s2 =>
            if byte_in 194 223 b1 then byte_in 128 191 b2 && utf8_ok s2
            else
              match s2 with
              | [] => false
              | b3 :: s3 =>
                  if byte_in 224 239 b1 then
                    byte_in (if byte_to_Z b1 =? 224 then 160 else 128)
                            (if byte_to_Z b1 =? 237 then 159 else 191) b2
                    && byte_in 128 191 b3 && utf8_ok s3
                  else
                    match s3 with
                    | [] => false
                    | b4 :: s4 =>
                        byte_in 240 244 b1
                        && byte_in (if byte_to_Z b1 =? 240 then 144 else 128)
                                   (if byte_to_Z b1 =? 244 then 143 else 191) b2
                        && byte_in 128 191 b3 && byte_in 128 191 b4 && utf8_ok s4
                    end
              end
        end
  end.

Lemma utf8_app a b : utf8_ok a = true -> utf8_ok b = true -> utf8_ok (a ++ b) = true.
Proof.
  intros Ha Hb. remember (length a) as n eqn:Hn. revert a Hn Ha.
  induction n as [n IH] using lt_wf_ind. intros a -> Ha.
  destruct a as [|b1 s1]; [done|]. simpl in *.
  destruct (byte_in 0 127 b1); [by apply (IH (length s1)); [lia|..]|].
  destruct s1 as [|b2 s2]; [done|]. simpl in *. destruct (byte_in 194 223 b1).
  { apply andb_true_iff in Ha as [-> Ha]. simpl. by apply (IH (length s2)); [lia|..]. }
  destruct s2 as [|b3 s3]; [done|]. simpl in *. destruct (byte_in 224 239 b1).
  { apply andb_true_iff in Ha as [-> Ha]. simpl. by apply (IH (length s3)); [lia|..]. }
  destruct s3 as [|b4 s4]; [done|]. simpl in *.
  apply andb_true_iff in Ha as [-> Ha]. simpl. by apply (IH (length s4)); [lia|..].
Qed.

Definition ascii (s : Str) : Prop := Forall (fun b => byte_in 0 127 b = true) s.

Lemma utf8_ascii s : ascii s -> utf8_ok s = true.
Proof. induction 1 as [|b s Hb _ IH]; simpl; [done|]. by rewrite Hb. Qed.

Lemma is_digit_ascii b : is_digit b -> byte_in 0 127 b = true /\ b <> newline /\ b <> carriage_return.
Proof.
  unfold is_digit, digit_value, byte_in. intros [v Hv].
  destruct ((48 <=? byte_to_Z b) && (byte_to_Z b <=? 57)) eqn:E; [|done].
  apply andb_true_iff in E as [E1%Z.leb_le E2%Z.leb_le].
  rewrite (proj2 (Z.leb_le _ _)), (proj2 (Z.leb_le _ _)) by lia. split; [done|].
  split; intros ->; [change (48 <= 10) in E1|change (48 <= 13) in E1]; lia.
Qed.

Lemma is_hex_digit_ascii b :
  is_hex_digit b = true -> byte_in 0 127 b = true /\ b <> newline /\ b <> carriage_return.
Proof.
  unfold is_hex_digit, byte_in. intros E. pose proof (byte_to_Z_range b) as Hr.
  assert (48 <= byte_to_Z b <= 102) as Hb.
  { apply orb_true_iff in E as [E|E]; apply andb_true_iff in E as [E1%Z.leb_le E2%Z.leb_le]; lia. }
  rewrite (proj2 (Z.leb_le _ _)), (proj2 (Z.leb_le _ _)) by lia. split; [done|].
  split; intros ->; [change (48 <= 10 <= 102) in Hb|change (48 <= 13 <= 102) in Hb]; lia.
Qed.

(** ** Characters, white space and separators *)

(** The sequence at the head of a text: whether it is a character, and its
    length; of a malformed sequence, the part that could start a character. *)
Definition utf8_head (b1 : byte) (rest : Str) : bool * nat :=
  if byte_in 0 127 b1 then (true, 1%nat)
  else
    match rest with
    | [] => (false, 1%nat)
    | b2 :: s2 =>
        if byte_in 194 223 b1 then (byte_in 128 191 b2, if byte_in 128 191 b2 then 2%nat else 1%nat)
        else if byte_in 224 244 b1 then
          let lo := if byte_to_Z b1 =? 224 then 160 else if byte_to_Z b1 =? 240 then 144 else 128 in
          let hi := if byte_to_Z b1 =? 237 then 159 else if byte_to_Z b1 =? 244 then 143 else 191 in
          if byte_in lo hi b2 then
            match s2 with
            | b3 :: s3 =>
                if byte_in 128 191 b3 then
                  if byte_in 224 239 b1 then (true, 3%nat)
                  else match s3 with
                       | b4 :: _ => if byte_in 128 191 b4 then (true, 4%nat) else (false, 3%nat)
                       | [] => (false, 3%nat)
                       end
                else (false, 2%nat)
            | [] => (false, 2%nat)
            end
          else (false, 1%nat)
        else (false, 1%nat)
    end.

Definition replacement_character : Str := [xef; xbf; xbd].

(** [String::from_utf8_lossy], as the list of characters. *)
Fixpoint lossy_chars (fuel : nat) (s : Str) : list Str :=
  match fuel, s with
  | S fuel', b :: rest =>
      let '(valid, n) := utf8_head b rest in
      (if valid then take n s else replacement_character) :: lossy_chars fuel' (drop n s)
  | _, _ => []
  end.

Definition chars (s : Str) : list Str := lossy_chars (length s) s.
Definition from_utf8_lossy (s : Str) : Str := concat (chars s).

(** [char::is_whitespace]. *)
Definition is_whitespace (c : Str) : bool :=
  bool_decide (c ∈ [[x09]; [x0a]; [x0b]; [x0c]; [x0d]; [x20]; [xc2; x85]; [xc2; xa0];
    [xe1; x9a; x80]; [xe2; x80; x80]; [xe2; x80; x81]; [xe2; x80; x82]; [xe2; x80; x83];
    [xe2; x80; x84]; [xe2; x80; x85]; [xe2; x80; x86]; [xe2; x80; x87]; [xe2; x80; x88];
    [xe2; x80; x89]; [xe2; x80; x8a]; [xe2; x80; xa8]; [xe2; x80; xa9]; [xe2; x80; xaf];
    [xe2; x81; x9f]; [xe3; x80; x80]]).

Fixpoint split_words (cur : Str) (cs : list Str) : list Str :=
  match cs with
  | [] => match cur with [] => [] | _ :: _ => [cur] end
  | c :: cs' =>
      if is_whitespace c then match cur with [] => split_words [] cs' | _ :: _ => cur :: split_words [] cs' end
      else split_words (cur ++ c) cs'
  end.

(** [str::split_whitespace]. *)
Definition split_whitespace (s : Str) : list Str := split_words [] (chars s).

Fixpoint drop_whitespace (cs : list Str) : list Str :=
  match cs with
  | c :: cs' => if is_whitespace c then drop_whitespace cs' else cs
  | [] => []
  end.

(** [str::trim]. *)
Definition trim (s : Str) : Str :=
  concat (reverse (drop_whitespace (reverse (drop_whitespace (chars s))))).

(** [str::trim_start_matches]: the prefix is dropped as often as it occurs. *)
Fixpoint trim_prefix_loop (fuel : nat) (p s : Str) : Str :=
  match fuel with
  | O => s
  | S fuel' => match strip_prefix p s with Some s' => trim_prefix_loop fuel' p s' | None => s end
  end.

Definition trim_start_matches (p s : Str) : Str := trim_prefix_loop (length s) p s.

(** [str::split("\r\n")]. *)
Fixpoint split_crlf (cur s : Str) : list Str :=
  match s with
  | [] => [cur]
  | b :: s' =>
      match s' with
      | c :: s'' =>
          if decide (b = carriage_return /\ c = newline) then cur :: split_crlf [] s''
          else split_crlf (cur ++ [b]) s'
      | [] => [cur ++ [b]]
      end
  end.

Definition crlf : Str := [carriage_return; newline].

Lemma chars_ascii s : ascii s -> chars s = map (fun b => [b]) s.
Proof.
  unfold chars. induction 1 as [|b s Hb Hs IH]; [done|]. cbn [length lossy_chars].
  unfold utf8_head. rewrite Hb. cbn [take drop map]. by rewrite drop_0, IH.
Qed.

Lemma from_utf8_lossy_ascii s : ascii s -> from_utf8_lossy s = s.
Proof.
  intros Hs. unfold from_utf8_lossy. rewrite (chars_ascii s Hs). clear Hs.
  induction s as [|b s IH]; simpl; [done|]. by rewrite IH.
Qed.

(** A printable byte: neither white space nor a control character. *)
Definition is_graphic (b : byte) : bool := byte_in 33 126 b.

Lemma is_graphic_ascii s : Forall (fun b => is_graphic b = true) s -> ascii s.
Proof.
  intros H. eapply Forall_impl; [exact H|]. intros b Hb. unfold is_graphic, byte_in in *.
  apply andb_true_iff in Hb as [H1%Z.leb_le H2%Z.leb_le].
  rewrite (proj2 (Z.leb_le _ _)), (proj2 (Z.leb_le _ _)) by lia. done.
Qed.

Lemma is_graphic_not_space b : is_graphic b = true -> is_whitespace [b] = false.
Proof.
  intros Hb. unfold is_whitespace. apply bool_decide_eq_false_2. intros Hin.
  repeat (apply elem_of_cons in Hin as [E|Hin]; [injection E; intros; subst; vm_compute in Hb; done|]).
  by apply elem_of_nil in Hin.
Qed.

Lemma is_graphic_not_cr b : is_graphic b = true -> b <> carriage_return.
Proof. intros Hb ->. vm_compute in Hb. done. Qed.

(** Printable text is not trimmed. *)
Lemma drop_whitespace_graphic s :
  Forall (fun b => is_graphic b = true) s ->
  drop_whitespace (map (fun b => [b]) s) = map (fun b => [b]) s.
Proof. intros [|b s' Hb _]; simpl; [done|]. by rewrite is_graphic_not_space. Qed.

Lemma trim_graphic s : Forall (fun b => is_graphic b = true) s -> trim s = s.
Proof.
  intros Hs. unfold trim. rewrite chars_ascii by (by apply is_graphic_ascii).
  rewrite (drop_whitespace_graphic s) by done.
  assert (forall l : Str, reverse (map (fun b => [b]) l) = map (fun b => [b]) (reverse l)) as Hr
    by (intros l; symmetry; apply fmap_reverse).
  rewrite Hr, (drop_whitespace_graphic (reverse s)), Hr, reverse_involutive by (by apply Forall_reverse).
  clear. induction s as [|b s IH]; simpl; [done|]. by rewrite IH.
Qed.

Lemma is_hex_digit_graphic s :
  Forall (fun b => is_hex_digit b = true) s -> Forall (fun b => is_graphic b = true) s.
Proof.
  intros Hs. eapply Forall_impl; [exact Hs|]. intros b. unfold is_hex_digit, is_graphic, byte_in. intros E.
  apply orb_true_iff in E as [E|E]; apply andb_true_iff in E as [E1%Z.leb_le E2%Z.leb_le];
    rewrite (proj2 (Z.leb_le _ _)), (proj2 (Z.leb_le _ _)) by lia; done.
Qed.
