(* ===== verification/Event.v ===== *)
(** * Events (src/rust-core/src/event.rs) and their block encoding

    The event record, its canonical bytes (the signed message), its identity
    material (what the ledger hashes), and the decoder of
    src/rust-core/src/bft/node.rs that reads one block transaction back into
    an event. *)

From Stdlib Require Import ZArith Lia Strings.Byte.
From stdpp Require Import base list.
From S2P Require Import Prelude Crypto.

(** [pub const PROTOCOL_VERSION: u8 = 1]. *)
Definition PROTOCOL_VERSION : byte := x01.

Record Event := mkEvent {
  ev_version : byte;
  ev_prev_hash : Hash;
  ev_author : PublicKey;
  ev_timestamp : Z;
  ev_payload_hash : Hash;
  ev_signature : Signature;
}.

#[global] Instance Event_eq_dec : EqDecision Event.
Proof. solve_decision. Defined.

(** [Event::new]: the version is the protocol's. *)
Definition Event_new (prev_hash : Hash) (author : PublicKey) (timestamp : Z)
    (payload_hash : Hash) (signature : Signature) : Event :=
  mkEvent PROTOCOL_VERSION prev_hash author timestamp payload_hash signature.

(** [Event::from_raw]. *)
Definition Event_from_raw (version : byte) (prev_hash : Hash) (author : PublicKey)
    (timestamp : Z) (payload_hash : Hash) (signature : Signature) : Event :=
  mkEvent version prev_hash author timestamp payload_hash signature.

Definition canonical_bytes (e : Event) : list byte :=
  [ev_version e] ++ ev_prev_hash e ++ ev_author e
  ++ to_le_bytes 8 (ev_timestamp e) ++ ev_payload_hash e.

Definition hash_material (e : Event) : list byte :=
  canonical_bytes e ++ ev_signature e.

(** The field types of the Rust struct: array lengths and the width of the
    timestamp. *)
Definition wf_event (e : Event) : Prop :=
  length (ev_prev_hash e) = 32%nat /\ length (ev_author e) = 32%nat /\
  is_u64 (ev_timestamp e) /\
  length (ev_payload_hash e) = 32%nat /\ length (ev_signature e) = 64%nat.

#[global] Instance wf_event_dec e : Decision (wf_event e).
Proof. unfold wf_event. apply _. Defined.

(** ** The transaction codec of bft/node.rs *)

(** [read_hash], [read_pubkey], [read_sig]: copy the next [n] bytes and move
    the offset. *)
Definition read_array (n : nat) (buf : list byte) (offset : nat) : list byte * nat :=
  (take n (drop offset buf), (offset + n)%nat).

Definition read_hash := read_array 32.
Definition read_pubkey := read_array 32.
Definition read_sig := read_array 64.

Definition read_u64 (buf : list byte) (offset : nat) : Z * nat :=
  let '(out, offset) := read_array 8 buf offset in (from_le_bytes out, offset).

Inductive DecodeError := InvalidTxLength.

Definition decode_event (tx : list byte) : result Event DecodeError :=
  if decide (length tx <> (1 + 32 + 32 + 8 + 32 + 64)%nat) then Err InvalidTxLength
  else
    let version := nth 0 tx x00 in
    let '(prev_hash, offset) := read_hash tx 1 in
    let '(author, offset) := read_pubkey tx offset in
    let '(timestamp, offset) := read_u64 tx offset in
    let '(payload_hash, offset) := read_hash tx offset in
    let '(signature, offset) := read_sig tx offset in
    Ok (Event_from_raw version prev_hash author timestamp payload_hash signature).

(** ** Properties *)

Lemma length_hash_material e : wf_event e -> length (hash_material e) = 169%nat.
Proof.
  intros (H1 & H2 & _ & H3 & H4). unfold hash_material, canonical_bytes.
  rewrite !length_app, length_to_le_bytes, H1, H2, H3, H4. done.
Qed.

Lemma length_canonical_bytes e : wf_event e -> length (canonical_bytes e) = 105%nat.
Proof.
  intros (H1 & H2 & _ & H3 & H4). unfold canonical_bytes.
  rewrite !length_app, length_to_le_bytes, H1, H2, H3. done.
Qed.

(** A byte string cut at the offsets [decode_event] uses. *)
Lemma read_array_app n (a b c : list byte) off :
  length a = off -> length b = n -> read_array n (a ++ b ++ c) off = (b, (off + n)%nat).
Proof.
  intros Ha Hb. unfold read_array. by rewrite drop_app_exact, take_app_exact.
Qed.

Lemma decode_event_layout v p a t h s :
  length p = 32%nat -> length a = 32%nat -> length t = 8%nat ->
  length h = 32%nat -> length s = 64%nat ->
  decode_event ([v] ++ p ++ a ++ t ++ h ++ s) = Ok (mkEvent v p a (from_le_bytes t) h s).
Proof.
  intros Hp Ha Ht Hh Hs. unfold decode_event.
  rewrite decide_False by (rewrite !length_app, Hp, Ha, Ht, Hh, Hs; simpl; lia).
  unfold read_hash, read_pubkey, read_u64, read_sig.
  rewrite (read_array_app 32 [v] p) by done.
  rewrite (app_assoc [v] p), (read_array_app 32) by (by rewrite ?length_app, ?Hp).
  rewrite (app_assoc _ a), (read_array_app 8) by (by rewrite ?length_app, ?Hp, ?Ha).
  rewrite (app_assoc _ t), (read_array_app 32) by (by rewrite ?length_app, ?Hp, ?Ha, ?Ht).
  unfold read_array.
  rewrite (app_assoc _ h), drop_app_exact by (by rewrite !length_app, Hp, Ha, Ht, Hh).
  rewrite take_ge by lia. done.
Qed.

(** Cutting a list of known length into consecutive pieces. *)
Lemma split_exact {A} (l : list A) n m :
  length l = (n + m)%nat -> exists a b, l = a ++ b /\ length a = n /\ length b = m.
Proof.
  intros H. exists (take n l), (drop n l). rewrite take_drop, length_take, length_drop.
  repeat split; lia.
Qed.

(** Decoding an event's identity material gives the event back. *)
Lemma decode_hash_material e : wf_event e -> decode_event (hash_material e) = Ok e.
Proof.
  intros (H1 & H2 & H3 & H4 & H5). unfold hash_material, canonical_bytes.
  rewrite <- !app_assoc, decode_event_layout by (done || apply length_to_le_bytes).
  rewrite from_to_le_bytes by (unfold is_u64, u64_max in H3; simpl; lia).
  by destruct e.
Qed.

Lemma decode_event_iff tx e :
  decode_event tx = Ok e <-> wf_event e /\ tx = hash_material e.
Proof.
  split; [|intros [? ->]; by apply decode_hash_material].
  intros H. assert (length tx = 169%nat) as Hlen.
  { unfold decode_event in H. by destruct (decide _) as [|?%dec_stable] in H. }
  destruct (split_exact tx 1 168 Hlen) as (v & r1 & -> & Hv & Hr1).
  destruct (split_exact r1 32 136 Hr1) as (p & r2 & -> & Hp & Hr2).
  destruct (split_exact r2 32 104 Hr2) as (a & r3 & -> & Ha & Hr3).
  destruct (split_exact r3 8 96 Hr3) as (t & r4 & -> & Ht & Hr4).
  destruct (split_exact r4 32 64 Hr4) as (h & s & -> & Hh & Hs).
  destruct v as [|v [|]]; try done.
  rewrite decode_event_layout in H by done. injection H as <-.
  pose proof (from_le_bytes_range t) as Hrng. rewrite Ht in Hrng. simpl in Hrng.
  split.
  - repeat split; simpl; try done; unfold u64_max; lia.
  - unfold hash_material, canonical_bytes; simpl ev_version; simpl ev_prev_hash;
      simpl ev_author; simpl ev_timestamp; simpl ev_payload_hash; simpl ev_signature.
    rewrite <- Ht at 1. rewrite to_from_le_bytes. by rewrite <- !app_assoc.
Qed.

(** C35: the decoder accepts exactly the byte strings that are the identity
    material of some well-formed event, and of one only: it is the inverse of
    the encoder on both sides, so no two transactions carry the same event. *)
Theorem decode_event_exact tx e :
  decode_event tx = Ok e <-> wf_event e /\ tx = hash_material e.
Proof. apply decode_event_iff. Qed.

(** The identity material determines the event: no field can be shifted into
    another. *)
Lemma hash_material_inj e1 e2 :
  wf_event e1 -> wf_event e2 -> hash_material e1 = hash_material e2 -> e1 = e2.
Proof.
  intros H1 H2 E. apply decode_hash_material in H1, H2. congruence.
Qed.
