(* ===== verification/Merkle.v ===== *)
(** * The Merkle fold

    [Ledger::merkle_root] (ledger.rs), [merkle_root_hashes] (bft/types.rs) and
    [merkle_root] (storage.rs) repeat one loop: hash the leaves pairwise,
    pairing a last odd leaf with itself, until one hash is left.  The loop is
    modelled here once, with the three entry points in the files of their
    components. *)

From Stdlib Require Import ZArith Lia Strings.Byte.
From stdpp Require Import base list sets.
From S2P Require Import Prelude Crypto.

Section merkle.
Context `{Sha256}.

(** The inner loop: one pass over a level, two entries at a time. *)
Fixpoint merkle_level (level : list Hash) : list Hash :=
  match level with
  | [] => []
  | [a] => [sha256 (a ++ a)]
  | a :: b :: rest => sha256 (a ++ b) :: merkle_level rest
  end.

(** The outer loop [while level.len() > 1], with fuel. *)
Fixpoint merkle_loop (fuel : nat) (level : list Hash) : option (list Hash) :=
  match level with
  | [] | [_] => Some level
  | _ =>
      match fuel with
      | O => None
      | S fuel' => merkle_loop fuel' (merkle_level level)
      end
  end.

(** The loop started on [leaves]: as much fuel as there are leaves is enough
    ([merkle_fold_total]); the result is [level.first()]. *)
Definition merkle_fold (leaves : list Hash) : option Hash :=
  match merkle_loop (length leaves) leaves with
  | Some (h :: _) => Some h
  | _ => None
  end.

(** [merkle_root_hashes] of bft/types.rs: the leaves in block order, the zero
    hash for none. *)
Definition merkle_root_hashes (hashes : list Hash) : Hash :=
  match hashes with
  | [] => ZERO_HASH
  | _ :: _ => default ZERO_HASH (merkle_fold hashes)
  end.

(** ** Termination *)

Lemma list_ind2 {A} (P : list A -> Prop) :
  P [] -> (forall a, P [a]) -> (forall a b l, P l -> P (a :: b :: l)) -> forall l, P l.
Proof.
  intros H0 H1 H2. fix IH 1. intros [|a [|b l]]; [done|done|]. apply H2, IH.
Qed.

Lemma length_merkle_level level :
  length (merkle_level level) = ((length level + 1) / 2)%nat.
Proof.
  induction level as [|a|a b l IH] using list_ind2; [done|done|].
  simpl length. rewrite IH.
  replace (S (S (length l)) + 1)%nat with ((length l + 1) + 1 * 2)%nat by lia.
  rewrite Nat.div_add by lia. lia.
Qed.

Lemma merkle_level_shrinks level :
  (2 <= length level)%nat ->
  (1 <= length (merkle_level level) < length level)%nat.
Proof.
  intros H2. rewrite length_merkle_level. split.
  - apply Nat.div_le_lower_bound; lia.
  - apply Nat.Div0.div_lt_upper_bound; lia.
Qed.

Lemma merkle_loop_total fuel level :
  (length level <= fuel)%nat -> level <> [] ->
  exists h, merkle_loop fuel level = Some [h].
Proof.
  revert level. induction fuel as [|fuel IH]; intros [|a [|b l]] Hlen Hne;
    try done; try (simpl in Hlen; lia); [by exists a..|].
  assert (1 <= length (merkle_level (a :: b :: l)) < length (a :: b :: l))%nat as Hs
    by (apply merkle_level_shrinks; simpl; lia).
  change (merkle_loop (S fuel) (a :: b :: l)) with
    (merkle_loop fuel (merkle_level (a :: b :: l))).
  apply IH; [lia|]. intros E. rewrite E in Hs. simpl in Hs. lia.
Qed.

(** More fuel than needed does not change the result. *)
Lemma merkle_loop_mono fuel fuel' level r :
  merkle_loop fuel level = Some r -> (fuel <= fuel')%nat -> merkle_loop fuel' level = Some r.
Proof.
  revert fuel' level. induction fuel as [|fuel IH]; intros [|fuel'] [|a [|b l]] E Hle;
    simpl in *; try done; try lia.
  apply IH; [done|lia].
Qed.

Lemma merkle_fold_total leaves : leaves <> [] -> exists h, merkle_fold leaves = Some h.
Proof.
  intros Hne. destruct (merkle_loop_total (length leaves) leaves) as [h E]; [done..|].
  exists h. unfold merkle_fold. by rewrite E.
Qed.

Lemma merkle_fold_none leaves : merkle_fold leaves = None <-> leaves = [].
Proof.
  split; [|by intros ->]. intros E. destruct (decide (leaves = [])) as [|Hne]; [done|].
  destruct (merkle_fold_total _ Hne). congruence.
Qed.

(** One turn of the outer loop. *)
Lemma merkle_fold_step level :
  (2 <= length level)%nat -> merkle_fold level = merkle_fold (merkle_level level).
Proof.
  intros H2. pose proof (merkle_level_shrinks _ H2) as Hs.
  assert (merkle_level level <> []) as Hne by (intros E; rewrite E in Hs; simpl in Hs; lia).
  destruct (merkle_loop_total (length (merkle_level level)) (merkle_level level))
    as [h E]; [done..|].
  unfold merkle_fold. rewrite E.
  destruct level as [|a [|b l]]; try (simpl in H2; lia).
  change (merkle_loop (length (a :: b :: l)) (a :: b :: l)) with
    (merkle_loop (S (length l)) (merkle_level (a :: b :: l))).
  rewrite (merkle_loop_mono _ (S (length l)) _ _ E); [done|].
  change (length (a :: b :: l)) with (S (S (length l))) in Hs. lia.
Qed.

Lemma merkle_fold_singleton a : merkle_fold [a] = Some a.
Proof. done. Qed.

Lemma merkle_root_hashes_fold hashes :
  hashes <> [] -> merkle_fold hashes = Some (merkle_root_hashes hashes).
Proof.
  intros Hne. destruct (merkle_fold_total _ Hne) as [h E].
  destruct hashes; [done|]. unfold merkle_root_hashes. by rewrite E.
Qed.

(** ** Binding *)

Definition all_hashes (l : list Hash) : Prop := Forall (fun h => length h = 32%nat) l.

Lemma merkle_level_hashes level : all_hashes (merkle_level level).
Proof.
  induction level as [|a|a b l IH] using list_ind2; simpl; repeat constructor;
    auto using sha256_length.
Qed.

(** The messages the loop hashes. *)
Fixpoint level_messages (level : list Hash) : list (list byte) :=
  match level with
  | [] => []
  | [a] => [a ++ a]
  | a :: b :: rest => (a ++ b) :: level_messages rest
  end.

Fixpoint loop_messages (fuel : nat) (level : list Hash) : list (list byte) :=
  match level with
  | [] | [_] => []
  | _ =>
      match fuel with
      | O => []
      | S fuel' => level_messages level ++ loop_messages fuel' (merkle_level level)
      end
  end.

Definition merkle_messages (leaves : list Hash) : list (list byte) :=
  loop_messages (length leaves) leaves.

Lemma loop_messages_fuel f1 f2 level :
  (length level <= f1)%nat -> (length level <= f2)%nat ->
  loop_messages f1 level = loop_messages f2 level.
Proof.
  revert f2 level. induction f1 as [|f1 IH]; intros [|f2] [|a [|b l]] H1 H2;
    try done; try (simpl in *; lia).
  change (level_messages (a :: b :: l) ++ loop_messages f1 (merkle_level (a :: b :: l))
    = level_messages (a :: b :: l) ++ loop_messages f2 (merkle_level (a :: b :: l))).
  f_equal. pose proof (merkle_level_shrinks (a :: b :: l) ltac:(simpl; lia)). apply IH; lia.
Qed.

Lemma merkle_messages_step level :
  (2 <= length level)%nat ->
  merkle_messages level = level_messages level ++ merkle_messages (merkle_level level).
Proof.
  intros H2. pose proof (merkle_level_shrinks _ H2). unfold merkle_messages.
  rewrite (loop_messages_fuel (length (merkle_level level)) (pred (length level))) by lia.
  by destruct level as [|a [|b l]]; simpl in H2; try lia.
Qed.

Lemma merkle_level_inj l1 l2 :
  all_hashes l1 -> all_hashes l2 -> length l1 = length l2 ->
  merkle_level l1 = merkle_level l2 ->
  l1 = l2 \/ collision_among (level_messages l1 ++ level_messages l2).
Proof.
  revert l2. induction l1 as [|a|a b l1 IH] using list_ind2;
    intros [|c [|d l2]] Hl1 Hl2 Hlen E; simpl in *; try done; try lia; [by left|..].
  - apply Forall_cons in Hl1 as [Ha _]. apply Forall_cons in Hl2 as [Hc _].
    injection E as E. apply (sha256_inj_among [a ++ a; c ++ c]) in E as [E|]; [left|by right|set_solver..].
    apply app_split in E as [-> _]; [done|]. by rewrite Ha, Hc.
  - apply Forall_cons in Hl1 as [Ha [Hb Hl1]%Forall_cons].
    apply Forall_cons in Hl2 as [Hc [Hd Hl2]%Forall_cons].
    injection E as E E'.
    apply (sha256_inj_among [a ++ b; c ++ d]) in E as [E|]; [|collide|set_solver..].
    apply app_split in E as [-> ->]; [|by rewrite Ha, Hc].
    destruct (IH l2) as [->|]; auto with lia. collide.
Qed.

Lemma merkle_fold_binding l1 l2 :
  all_hashes l1 -> all_hashes l2 -> length l1 = length l2 ->
  merkle_fold l1 = merkle_fold l2 ->
  l1 = l2 \/ collision_among (merkle_messages l1 ++ merkle_messages l2).
Proof.
  remember (length l1) as n eqn:En. revert l1 l2 En.
  induction n as [n IH] using lt_wf_ind; intros l1 l2 En Hl1 Hl2 Hlen E.
  destruct (decide (2 <= n)%nat) as [H2|H2].
  - rewrite (merkle_fold_step l1), (merkle_fold_step l2) in E by lia.
    rewrite (merkle_messages_step l1), (merkle_messages_step l2) by lia.
    pose proof (merkle_level_shrinks l1). pose proof (length_merkle_level l1).
    pose proof (length_merkle_level l2).
    destruct (IH (length (merkle_level l1)) ltac:(lia) (merkle_level l1) (merkle_level l2))
      as [E'|]; auto using merkle_level_hashes; [congruence| |collide].
    apply merkle_level_inj in E' as [->|]; auto; [collide|congruence].
  - destruct l1 as [|a [|? ?]], l2 as [|b [|? ?]]; simpl in *; try lia; [by left|].
    left. by injection E as ->.
Qed.

(** Merkle roots over the same number of leaves coincide only for equal
    leaves, or two of the messages hashed on the way collide. *)
Lemma merkle_root_hashes_binding l1 l2 :
  all_hashes l1 -> all_hashes l2 -> length l1 = length l2 ->
  merkle_root_hashes l1 = merkle_root_hashes l2 ->
  l1 = l2 \/ collision_among (merkle_messages l1 ++ merkle_messages l2).
Proof.
  intros H1 H2 Hlen E. destruct (decide (l1 = [])) as [->|Hne].
  - left. by destruct l2.
  - apply merkle_fold_binding; auto. assert (l2 <> []) by (by destruct l1, l2).
    rewrite !merkle_root_hashes_fold by done. by rewrite E.
Qed.

(** ** Repeating the last of an odd number of leaves *)

Lemma merkle_level_app_even l1 l2 :
  Nat.Even (length l1) -> merkle_level (l1 ++ l2) = merkle_level l1 ++ merkle_level l2.
Proof.
  induction l1 as [|a|a b l IH] using list_ind2; intros [k Hk]; simpl in *; [done|lia|].
  rewrite IH; [done|]. exists (k - 1)%nat. lia.
Qed.

Lemma merkle_root_repeat_last l x :
  l <> [] -> Nat.Even (length l) ->
  merkle_root_hashes (l ++ [x]) = merkle_root_hashes (l ++ [x; x]).
Proof.
  intros Hne Hev. apply (inj Some).
  rewrite <- !merkle_root_hashes_fold by (by destruct l).
  assert (1 <= length l)%nat by (destruct l; simpl; [done|lia]).
  rewrite (merkle_fold_step (l ++ [x])), (merkle_fold_step (l ++ [x; x]))
    by (rewrite length_app; simpl; lia).
  by rewrite (merkle_level_app_even l [x]), (merkle_level_app_even l [x; x]).
Qed.

End merkle.
