(* ===== verification/Ledger.v ===== *)
(** * The ledger (src/rust-core/src/ledger.rs)

    The event store of the reference system: a map from identity hash to event
    and the set of current tips.  [try_add_event] checks linkage; [add_event]
    is the unchecked legacy path.  Validity (signature, timestamp) is a
    separate component (Validation.v). *)

From Stdlib Require Import ZArith Lia Strings.Byte.
From stdpp Require Import base gmap list.
From S2P Require Import Prelude Crypto Event Merkle.

Inductive LedgerLinkError := Duplicate | MissingParent.

#[global] Instance LedgerLinkError_eq_dec : EqDecision LedgerLinkError.
Proof. solve_decision. Defined.

Record Ledger := mkLedger {
  events : gmap Hash Event;
  tips : gset Hash;
}.

Definition Ledger_new : Ledger := mkLedger ∅ ∅.

Section ledger.
Context `{Sha256}.

Definition hash_event (event : Event) : Hash := sha256 (hash_material event).

(** The tip update both insertion paths end with. *)
Definition update_tips (ts : gset Hash) (event : Event) (hash : Hash) : gset Hash :=
  {[hash]} ∪ (if decide (ev_prev_hash event <> ZERO_HASH)
              then ts ∖ {[ev_prev_hash event]} else ts).

(** [Ledger::add_event]: unchecked. *)
Definition add_event (l : Ledger) (event : Event) : Ledger * Hash :=
  let hash := hash_event event in
  (mkLedger (<[hash := event]> (events l)) (update_tips (tips l) event hash), hash).

(** [Ledger::try_add_event]. *)
Definition try_add_event (l : Ledger) (event : Event) : result (Ledger * Hash) LedgerLinkError :=
  let hash := hash_event event in
  if decide (is_Some (events l !! hash)) then Err Duplicate
  else if decide (ev_prev_hash event <> ZERO_HASH /\ ~ is_Some (events l !! ev_prev_hash event))
  then Err MissingParent
  else Ok (mkLedger (<[hash := event]> (events l)) (update_tips (tips l) event hash), hash).

Definition get_event (l : Ledger) (hash : Hash) : option Event := events l !! hash.

Definition hashes_set (l : Ledger) : gset Hash := dom (events l).

Definition get_tips (l : Ledger) : gset Hash := tips l.

(** [Ledger::merkle_root]: the [BTreeSet] of the keys is their sorted list. *)
Definition merkle_root (l : Ledger) : option Hash :=
  if decide (events l = ∅) then None
  else merkle_fold (sort_bytes (elements (dom (events l)))).

(** ** The well-formedness invariant *)

(** Every event is stored under its own hash; every parent is stored or the
    event is a genesis event; the tips are exactly the stored events that no
    stored event extends (an event stored under the zero hash, should SHA-256
    ever produce it, cannot be extended: children of the zero hash are
    genesis events). *)
Record LedgerInv (l : Ledger) : Prop := {
  inv_keys : forall h e, events l !! h = Some e -> h = hash_event e;
  inv_linked : forall h e, events l !! h = Some e ->
    ev_prev_hash e = ZERO_HASH \/ is_Some (events l !! ev_prev_hash e);
  inv_tips : forall h, h ∈ tips l <->
    is_Some (events l !! h) /\
    (h = ZERO_HASH \/ forall h' e', events l !! h' = Some e' -> ev_prev_hash e' <> h);
}.

Lemma LedgerInv_new : LedgerInv Ledger_new.
Proof.
  split; simpl.
  - intros h e. by rewrite lookup_empty.
  - intros h e. by rewrite lookup_empty.
  - intros h. rewrite lookup_empty. split; [set_solver|]. by intros [[] ?].
Qed.

(** The result of [try_add_event], branch by branch. *)
Lemma try_add_event_cases l e :
  (is_Some (events l !! hash_event e) /\ try_add_event l e = Err Duplicate) \/
  (events l !! hash_event e = None /\ ev_prev_hash e <> ZERO_HASH /\
   events l !! ev_prev_hash e = None /\ try_add_event l e = Err MissingParent) \/
  (events l !! hash_event e = None /\
   (ev_prev_hash e = ZERO_HASH \/ is_Some (events l !! ev_prev_hash e)) /\
   try_add_event l e = Ok (fst (add_event l e), hash_event e)).
Proof.
  unfold try_add_event, add_event. case_decide as H1; [by left|right].
  rewrite <- eq_None_not_Some in H1. case_decide as H2.
  - left. rewrite <- eq_None_not_Some in H2. naive_solver.
  - right. split; [done|]. split; [|done].
    destruct (decide (ev_prev_hash e = ZERO_HASH)); [by left|right].
    destruct (decide (is_Some (events l !! ev_prev_hash e))); naive_solver.
Qed.

Lemma try_add_event_ok l e l' h :
  try_add_event l e = Ok (l', h) ->
  h = hash_event e /\ l' = fst (add_event l e) /\ events l !! h = None /\
  (ev_prev_hash e = ZERO_HASH \/ is_Some (events l !! ev_prev_hash e)).
Proof.
  intros E. destruct (try_add_event_cases l e) as [[? E']|[(?&?&?&E')|(?&?&E')]];
    rewrite E in E'; try done. by simplify_eq.
Qed.

(** A fresh event with a stored parent is accepted. *)
Lemma try_add_event_accepts l e :
  events l !! hash_event e = None ->
  (ev_prev_hash e = ZERO_HASH \/ is_Some (events l !! ev_prev_hash e)) ->
  try_add_event l e = Ok (fst (add_event l e), hash_event e).
Proof.
  intros Hf Hlink. destruct (try_add_event_cases l e) as [[[? ?] ?]|[(?&?&Hn&?)|(?&?&?)]];
    [congruence| |done].
  destruct Hlink as [|[? ?]]; congruence.
Qed.

Lemma elem_of_update_tips ts e h x :
  x ∈ update_tips ts e h <->
  x = h \/ (x ∈ ts /\ (ev_prev_hash e = ZERO_HASH \/ x <> ev_prev_hash e)).
Proof. unfold update_tips. case_decide; set_solver. Qed.

(** Inserting a fresh linked event keeps the tips exact. *)
Lemma update_tips_exact l e :
  LedgerInv l -> events l !! hash_event e = None ->
  (ev_prev_hash e = ZERO_HASH \/ is_Some (events l !! ev_prev_hash e)) ->
  forall h, h ∈ update_tips (tips l) e (hash_event e) <->
    is_Some (<[hash_event e := e]> (events l) !! h) /\
    (h = ZERO_HASH \/ forall h' e', <[hash_event e := e]> (events l) !! h' = Some e' ->
       ev_prev_hash e' <> h).
Proof.
  intros [Hk Hl Ht] Hfresh Hlink h. rewrite elem_of_update_tips, Ht, lookup_insert_is_Some'.
  split.
  - intros [->|[[Hin Hleaf] Hne]].
    + split; [by left|]. destruct (decide (hash_event e = ZERO_HASH)); [by left|right].
      intros h' e' [[<- <-]|[_ Hl']]%lookup_insert_Some E.
      * destruct Hlink as [|Hs]; [congruence|]. rewrite E, Hfresh in Hs. by destruct Hs.
      * destruct (Hl _ _ Hl') as [|Hs]; [congruence|]. rewrite E, Hfresh in Hs. by destruct Hs.
    + split; [by right|]. destruct Hleaf as [|Hleaf]; [by left|].
      destruct (decide (h = ZERO_HASH)); [by left|right].
      intros h' e' [[<- <-]|[_ Hl']]%lookup_insert_Some; [|by eapply Hleaf].
      destruct Hne; congruence.
  - intros [[->|Hin] Hleaf]; [by left|]. right. split.
    + split; [done|]. destruct Hleaf as [|Hleaf]; [by left|right].
      intros h' e' Hl'. apply (Hleaf h'). rewrite lookup_insert_ne; [done|congruence].
    + destruct Hleaf as [->|Hleaf].
      * destruct (decide (ev_prev_hash e = ZERO_HASH)); [by left|by right].
      * right. apply not_eq_sym, (Hleaf (hash_event e)). apply lookup_insert_eq.
Qed.

Lemma LedgerInv_insert l e :
  LedgerInv l -> events l !! hash_event e = None ->
  (ev_prev_hash e = ZERO_HASH \/ is_Some (events l !! ev_prev_hash e)) ->
  LedgerInv (fst (add_event l e)).
Proof.
  intros Hinv Hfresh Hlink. pose proof (update_tips_exact _ _ Hinv Hfresh Hlink) as Htips.
  destruct Hinv as [Hk Hl Ht]. split; simpl; [..|exact Htips].
  - intros h e' [[<- <-]|[_ ?]]%lookup_insert_Some; eauto.
  - intros h e' [[<- <-]|[_ ?%Hl]]%lookup_insert_Some; rewrite lookup_insert_is_Some'; naive_solver.
Qed.

Lemma LedgerInv_try_add l e l' h :
  LedgerInv l -> try_add_event l e = Ok (l', h) -> LedgerInv l'.
Proof.
  intros Hinv (-> & -> & ? & ?)%try_add_event_ok. by apply LedgerInv_insert.
Qed.

(** ** Reachable ledgers *)

(** The ledgers a sequence of [try_add_event] calls produces; a rejected call
    leaves the ledger as it is. *)
Inductive reachable : Ledger -> Prop :=
| reachable_new : reachable Ledger_new
| reachable_add l e l' h : reachable l -> try_add_event l e = Ok (l', h) -> reachable l'.

Lemma reachable_inv l : reachable l -> LedgerInv l.
Proof. induction 1; eauto using LedgerInv_new, LedgerInv_try_add. Qed.

(** ** Properties *)

(** C12: on every ledger built through the linkage-aware insert, the tracked
    tips are exactly the stored events without a stored child. *)
Theorem tips_are_leaves l :
  reachable l ->
  forall h, h ∈ get_tips l <->
    is_Some (get_event l h) /\
    (h = ZERO_HASH \/ forall h' e', get_event l h' = Some e' -> ev_prev_hash e' <> h).
Proof. intros Hr. apply (inv_tips _ (reachable_inv _ Hr)). Qed.

(** The three outcomes of the linkage-aware insert, with the exact
    condition of each; a success returns the event's hash, stores exactly that
    one new event and leaves every stored event as it was (append-only). *)
Theorem try_add_event_spec l e :
  match try_add_event l e with
  | Err Duplicate => is_Some (get_event l (hash_event e))
  | Err MissingParent =>
      get_event l (hash_event e) = None /\ ev_prev_hash e <> ZERO_HASH /\
      get_event l (ev_prev_hash e) = None
  | Ok (l', h) =>
      h = hash_event e /\ get_event l h = None /\
      (ev_prev_hash e = ZERO_HASH \/ is_Some (get_event l (ev_prev_hash e))) /\
      get_event l' h = Some e /\
      (forall h', h' <> h -> get_event l' h' = get_event l h') /\
      hashes_set l' = {[h]} ∪ hashes_set l /\
      h ∈ get_tips l'
  end.
Proof.
  unfold get_event, hashes_set, get_tips.
  destruct (try_add_event_cases l e) as [[? ->]|[(?&?&?& ->)|(?&?& ->)]]; simpl; [done..|].
  repeat split; auto.
  - apply lookup_insert_eq.
  - intros h' Hne. by apply lookup_insert_ne.
  - apply dom_insert_L.
  - apply elem_of_update_tips. by left.
Qed.

Lemma hash_event_binding e1 e2 :
  wf_event e1 -> wf_event e2 -> hash_event e1 = hash_event e2 ->
  e1 = e2 \/ collision (hash_material e1) (hash_material e2).
Proof.
  intros H1 H2 [E|]%sha256_inj_or; [left|by right]. by apply hash_material_inj.
Qed.

(** *** Parents precede children *)

(** Every reachable ledger has an insertion rank that strictly decreases along
    parent links. *)
Lemma reachable_ranked l :
  reachable l -> exists rank : Hash -> nat,
    (forall h e, events l !! h = Some e -> (rank h < size (events l))%nat) /\
    (forall h e, events l !! h = Some e -> ev_prev_hash e <> ZERO_HASH ->
       (rank (ev_prev_hash e) < rank h)%nat).
Proof.
  induction 1 as [|l e l' h Hr [rank [Hlt Hdec]] Hadd].
  { exists (fun _ => O). split; intros h e; simpl; by rewrite lookup_empty. }
  pose proof (reachable_inv _ Hr) as Hinv.
  apply try_add_event_ok in Hadd as (-> & -> & Hfresh & Hlink).
  exists (fun x => if decide (x = hash_event e) then size (events l) else rank x). simpl.
  rewrite map_size_insert_None by done. split.
  - intros h e' [[<- <-]|[? ?%Hlt]]%lookup_insert_Some; case_decide; congruence || lia.
  - intros h e' [[<- <-]|[Hne Hl']]%lookup_insert_Some Hnz.
    + destruct Hlink as [|[p Hp]]; [done|]. repeat case_decide; congruence || eauto.
    + destruct (inv_linked _ Hinv _ _ Hl') as [|[p Hp]]; [done|].
      repeat case_decide; congruence || eauto.
Qed.

(** *** The Merkle commitment *)

Definition merkle_leaves (l : Ledger) : list Hash := sort_bytes (elements (hashes_set l)).

Lemma merkle_leaves_hashes l : LedgerInv l -> all_hashes (merkle_leaves l).
Proof.
  intros Hinv. apply Forall_forall. intros h Hh. unfold merkle_leaves, hashes_set in Hh.
  rewrite sort_bytes_perm, elem_of_elements in Hh. apply elem_of_dom in Hh as [e He].
  rewrite (inv_keys _ Hinv _ _ He). apply sha256_length.
Qed.

Lemma merkle_leaves_inj l1 l2 :
  merkle_leaves l1 = merkle_leaves l2 -> hashes_set l1 = hashes_set l2.
Proof.
  intros E. apply set_eq. intros h. unfold merkle_leaves in E.
  by rewrite <- !elem_of_elements, <- (sort_bytes_perm (elements (hashes_set l1))), E,
    sort_bytes_perm.
Qed.

Lemma merkle_root_fold l : merkle_root l = merkle_fold (merkle_leaves l).
Proof.
  unfold merkle_root, merkle_leaves, hashes_set. case_decide as E; [|done].
  by rewrite E, dom_empty_L, elements_empty.
Qed.

Lemma merkle_leaves_nil l : merkle_leaves l = [] <-> hashes_set l = ∅.
Proof.
  unfold merkle_leaves. split.
  - intros E. apply leibniz_equiv, elements_empty_iff, Permutation_nil_r.
    by rewrite <- (sort_bytes_perm (elements _)), E.
  - intros ->. by rewrite elements_empty.
Qed.

Lemma merkle_root_same_hashes l1 l2 :
  LedgerInv l1 -> LedgerInv l2 -> merkle_root l1 = merkle_root l2 ->
  size (hashes_set l1) = size (hashes_set l2) ->
  hashes_set l1 = hashes_set l2 \/
  collision_among (merkle_messages (merkle_leaves l1) ++ merkle_messages (merkle_leaves l2)).
Proof.
  intros H1 H2 E Hsz. rewrite !merkle_root_fold in E.
  destruct (merkle_fold_binding (merkle_leaves l1) (merkle_leaves l2))
    as [?%merkle_leaves_inj|]; auto using merkle_leaves_hashes.
  unfold merkle_leaves. by rewrite !sort_bytes_perm.
Qed.

(** The Merkle root is a function of the set of stored hashes (leaves are
    sorted), it is absent exactly for an empty ledger, and two ledgers of the
    same size with the same root hold the same hashes, unless two of the
    messages hashed for the roots collide. *)
Theorem merkle_root_commits l1 l2 :
  LedgerInv l1 -> LedgerInv l2 ->
  (merkle_root l1 = None <-> hashes_set l1 = ∅) /\
  (hashes_set l1 = hashes_set l2 -> merkle_root l1 = merkle_root l2) /\
  (merkle_root l1 = merkle_root l2 -> size (hashes_set l1) = size (hashes_set l2) ->
   hashes_set l1 = hashes_set l2 \/
   collision_among (merkle_messages (merkle_leaves l1) ++ merkle_messages (merkle_leaves l2))).
Proof.
  intros H1 H2. split; [|split].
  - by rewrite merkle_root_fold, merkle_fold_none, merkle_leaves_nil.
  - rewrite !merkle_root_fold. unfold merkle_leaves. by intros ->.
  - by apply merkle_root_same_hashes.
Qed.

End ledger.

(** ** The unchecked path and concrete ledgers *)

Section examples.
Import Toy.

Definition demo_author : PublicKey := replicate 32 x07.

Definition demo_genesis : Event :=
  Event_new ZERO_HASH demo_author 1 (replicate 32 x01) (replicate 64 x00).

Definition demo_child : Event :=
  Event_new (hash_event demo_genesis) demo_author 2 (replicate 32 x02) (replicate 64 x00).

Definition demo_ledger : Ledger := fst (add_event Ledger_new demo_genesis).
Definition demo_ledger2 : Ledger := fst (add_event demo_ledger demo_child).

Lemma demo_ledger_reachable : reachable demo_ledger.
Proof.
  eapply reachable_add; [constructor|].
  apply try_add_event_accepts; [vm_compute; reflexivity|left; reflexivity].
Qed.

Lemma demo_ledger2_reachable : reachable demo_ledger2.
Proof.
  eapply reachable_add; [apply demo_ledger_reachable|].
  apply try_add_event_accepts; [vm_compute; reflexivity|].
  right. exists demo_genesis. vm_compute. reflexivity.
Qed.

Lemma tips_are_leaves_witness :
  hash_event demo_child ∈ get_tips demo_ledger2 <->
  is_Some (get_event demo_ledger2 (hash_event demo_child)) /\
  (hash_event demo_child = ZERO_HASH \/ forall h' e',
     get_event demo_ledger2 h' = Some e' -> ev_prev_hash e' <> hash_event demo_child).
Proof. exact (tips_are_leaves demo_ledger2 demo_ledger2_reachable (hash_event demo_child)). Defined.

Lemma merkle_root_commits_witness :
  merkle_root demo_ledger = None <-> hashes_set demo_ledger = ∅.
Proof.
  exact (proj1 (merkle_root_commits demo_ledger demo_ledger2
    (reachable_inv _ demo_ledger_reachable) (reachable_inv _ demo_ledger2_reachable))).
Defined.

(** The unchecked [add_event] does not keep the tips exact: re-adding an
    event that has a child makes it a tip again, although it is not a leaf. *)
Theorem add_event_duplicate_restores_tip :
  let l := fst (add_event demo_ledger2 demo_genesis) in
  get_event l (hash_event demo_child) = Some demo_child /\
  ev_prev_hash demo_child = hash_event demo_genesis /\
  hash_event demo_genesis ∈ get_tips l.
Proof.
  intros l. split; [vm_compute; reflexivity|]. split; [reflexivity|].
  apply elem_of_update_tips. by left.
Qed.

End examples.
