(* ===== verification/Validation.v ===== *)
(** * Event validation (src/rust-core/src/validation.rs)

    Version, ed25519 signature over the canonical bytes, and a timestamp that
    may step back by at most a configurable skew from the largest timestamp
    the context has seen.  The skew is the process-wide [MAX_BACKWARD_SKEW];
    it is an argument here. *)

From Stdlib Require Import ZArith Lia Strings.Byte.
From stdpp Require Import base list.
From S2P Require Import Prelude Crypto Event.

Inductive ValidationError := InvalidVersion | InvalidSignature | TimestampNonMonotonic.

#[global] Instance ValidationError_eq_dec : EqDecision ValidationError.
Proof. solve_decision. Defined.

Record ValidationContext := mkValidationContext { last_timestamp : Z }.

Definition ValidationContext_new : ValidationContext := mkValidationContext 0.

(** Initial value of [MAX_BACKWARD_SKEW], and the value a call stores. *)
Definition default_max_backward_skew : Z := 4.
Definition set_max_backward_skew (skew : Z) : Z := Z.max skew 1.

Section validation.
Context `{Ed25519}.

Definition compute_signature_with_secret (event : Event) (secret : list byte) : Signature :=
  signature_to_bytes (sign secret (canonical_bytes event)).

Definition to_verifying_key (pk : PublicKey) : option DalekPublicKey :=
  public_key_from_bytes pk.

Definition to_signature (sig : Signature) : option DalekSignature :=
  signature_from_bytes sig.

(** [validate_event]: the new context on success; a failure leaves the
    caller's context as it was. *)
Definition validate_event (skew : Z) (event : Event) (ctx : ValidationContext)
    : result ValidationContext ValidationError :=
  if decide (ev_version event <> PROTOCOL_VERSION) then Err InvalidVersion
  else
    let? vk := ok_or (to_verifying_key (ev_author event)) InvalidSignature in
    let? sig := ok_or (to_signature (ev_signature event)) InvalidSignature in
    if verify vk (canonical_bytes event) sig then
      if saturating_add (ev_timestamp event) skew <? last_timestamp ctx
      then Err TimestampNonMonotonic
      else if last_timestamp ctx <? ev_timestamp event
      then Ok (mkValidationContext (ev_timestamp event))
      else Ok ctx
    else Err InvalidSignature.

(** ** Properties *)

(** The signature test alone. *)
Definition signature_ok (event : Event) : bool :=
  match to_verifying_key (ev_author event), to_signature (ev_signature event) with
  | Some vk, Some sig => verify vk (canonical_bytes event) sig
  | _, _ => false
  end.

(** The verdict as one decision: which check fails first, and the context a
    success leaves. *)
Lemma validate_event_unfold skew e ctx :
  validate_event skew e ctx =
  if decide (ev_version e <> PROTOCOL_VERSION) then Err InvalidVersion
  else if signature_ok e then
    if saturating_add (ev_timestamp e) skew <? last_timestamp ctx
    then Err TimestampNonMonotonic
    else Ok (mkValidationContext (Z.max (last_timestamp ctx) (ev_timestamp e)))
  else Err InvalidSignature.
Proof.
  unfold validate_event, signature_ok. case_decide; [done|].
  destruct (to_verifying_key _); simpl; [|done]. destruct (to_signature _); simpl; [|done].
  destruct (verify _ _ _); [|done]. destruct (_ <? _) eqn:E1; [done|].
  destruct (last_timestamp ctx <? ev_timestamp e) eqn:E2.
  - do 2 f_equal. lia.
  - destruct ctx; simpl in *. do 2 f_equal. lia.
Qed.

Lemma validate_event_ok skew e ctx ctx' :
  validate_event skew e ctx = Ok ctx' <->
  ev_version e = PROTOCOL_VERSION /\ signature_ok e = true /\
  last_timestamp ctx <= saturating_add (ev_timestamp e) skew /\
  ctx' = mkValidationContext (Z.max (last_timestamp ctx) (ev_timestamp e)).
Proof.
  rewrite validate_event_unfold. case_decide as Hv.
  - split; [done|]. naive_solver.
  - destruct (signature_ok e); [|naive_solver].
    destruct (Z.ltb_spec (saturating_add (ev_timestamp e) skew) (last_timestamp ctx)).
    + split; [done|]. intros (_ & _ & ? & _). lia.
    + split; [by intros [= <-]|by intros (_ & _ & _ & ->)].
Qed.

(** An event signed with the author's secret validates, whatever its
    signature slot held when it was signed, as long as its version is the
    protocol's and its timestamp is not behind the context by more than the
    skew. *)
Theorem signed_event_validates `{!Ed25519Laws} skew secret ctx e :
  ev_version e = PROTOCOL_VERSION ->
  ev_author e = public_key_to_bytes (public_of_secret secret) ->
  last_timestamp ctx <= saturating_add (ev_timestamp e) skew ->
  let signed := mkEvent (ev_version e) (ev_prev_hash e) (ev_author e) (ev_timestamp e)
                  (ev_payload_hash e) (compute_signature_with_secret e secret) in
  validate_event skew signed ctx
  = Ok (mkValidationContext (Z.max (last_timestamp ctx) (ev_timestamp e))).
Proof.
  intros Hv Ha Ht signed. apply validate_event_ok. repeat split; simpl; try done.
  unfold signature_ok, to_verifying_key, to_signature. simpl.
  rewrite Ha, derived_key_from_bytes. unfold compute_signature_with_secret.
  rewrite signed_from_bytes. apply sign_verify.
Qed.

(** A caller presenting events one by one to one context; the first rejected
    event stops the run. *)
Fixpoint validate_run (skew : Z) (evs : list Event) (ctx : ValidationContext)
    : result ValidationContext ValidationError :=
  match evs with
  | [] => Ok ctx
  | e :: evs' => let? ctx' := validate_event skew e ctx in validate_run skew evs' ctx'
  end.

Definition max_timestamp (t0 : Z) (evs : list Event) : Z :=
  foldl (fun m e => Z.max m (ev_timestamp e)) t0 evs.

Lemma max_timestamp_ge t0 evs : t0 <= max_timestamp t0 evs.
Proof.
  revert t0. induction evs as [|e evs IH]; intros t0; simpl; [lia|].
  specialize (IH (Z.max t0 (ev_timestamp e))). lia.
Qed.

Lemma max_timestamp_in t0 evs e : e ∈ evs -> ev_timestamp e <= max_timestamp t0 evs.
Proof.
  revert t0. induction evs as [|e' evs IH]; intros t0 Hin; [by apply elem_of_nil in Hin|].
  apply elem_of_cons in Hin as [->|Hin]; simpl.
  - pose proof (max_timestamp_ge (Z.max t0 (ev_timestamp e')) evs). lia.
  - by apply IH.
Qed.

Lemma validate_run_app skew evs1 evs2 ctx ctx' :
  validate_run skew (evs1 ++ evs2) ctx = Ok ctx' ->
  exists ctx1, validate_run skew evs1 ctx = Ok ctx1 /\ validate_run skew evs2 ctx1 = Ok ctx'.
Proof.
  revert ctx. induction evs1 as [|e evs1 IH]; intros ctx; simpl; [by eauto|].
  intros (ctx1 & E1 & E2)%result_bind_ok. rewrite E1. simpl. by apply IH.
Qed.

Lemma validate_run_max skew evs ctx ctx' :
  validate_run skew evs ctx = Ok ctx' ->
  last_timestamp ctx' = max_timestamp (last_timestamp ctx) evs.
Proof.
  revert ctx. induction evs as [|e evs IH]; intros ctx; simpl; [congruence|].
  intros (ctx1 & (_ & _ & _ & ->)%validate_event_ok & E2)%result_bind_ok. by apply IH in E2.
Qed.

(** Along an accepted run every event carries the protocol version and a
    valid signature, the context ends at the largest timestamp seen, and no
    event is older than an earlier one by more than the skew. *)
Theorem validate_run_bounded_rewind skew evs ctx ctx' :
  validate_run skew evs ctx = Ok ctx' ->
  Forall (fun e => ev_version e = PROTOCOL_VERSION /\ signature_ok e = true) evs /\
  last_timestamp ctx' = max_timestamp (last_timestamp ctx) evs /\
  (forall evs1 e evs2, evs = evs1 ++ e :: evs2 ->
     last_timestamp ctx <= saturating_add (ev_timestamp e) skew /\
     forall e', e' ∈ evs1 -> ev_timestamp e' <= saturating_add (ev_timestamp e) skew).
Proof.
  intros Hrun. split; [|split].
  - revert ctx Hrun. induction evs as [|e evs IH]; intros ctx; simpl; [done|].
    intros (ctx1 & (? & ? & _)%validate_event_ok & E2)%result_bind_ok.
    constructor; eauto.
  - by apply validate_run_max in Hrun.
  - intros evs1 e evs2 ->. apply validate_run_app in Hrun as (ctx1 & E1 & E2).
    apply validate_run_max in E1. simpl in E2.
    apply result_bind_ok in E2 as (ctx2 & (_ & _ & Hle & _)%validate_event_ok & _).
    rewrite E1 in Hle. pose proof (max_timestamp_ge (last_timestamp ctx) evs1).
    split; [lia|]. intros e' Hin%(max_timestamp_in (last_timestamp ctx)). lia.
Qed.

End validation.

(** ** Witnesses *)

Section witnesses.
Import Toy.

Definition demo_secret : list byte := replicate 32 x42.

Definition demo_event (ts : Z) : Event :=
  Event_new ZERO_HASH (toy_public demo_secret) ts (replicate 32 x01) (replicate 64 x00).

Definition demo_signed (ts : Z) : Event :=
  Event_new ZERO_HASH (toy_public demo_secret) ts (replicate 32 x01)
    (compute_signature_with_secret (demo_event ts) demo_secret).

Lemma signed_event_validates_witness :
  validate_event 4 (demo_signed 7) (mkValidationContext 9) = Ok (mkValidationContext 9).
Proof.
  exact (signed_event_validates 4 demo_secret (mkValidationContext 9) (demo_event 7)
    eq_refl eq_refl ltac:(vm_compute; discriminate)).
Defined.

Lemma validate_run_bounded_rewind_witness :
  last_timestamp (mkValidationContext 9)
  = max_timestamp 0 [demo_signed 9; demo_signed 7].
Proof.
  exact (proj1 (proj2 (validate_run_bounded_rewind (H := toy_ed25519) 4 [demo_signed 9; demo_signed 7]
    ValidationContext_new (mkValidationContext 9) ltac:(vm_compute; reflexivity)))).
Defined.

End witnesses.
