(* ===== verification/BftTypes.v ===== *)
(** * Consensus data (src/rust-core/src/bft/types.rs)

    Validators, votes, blocks, proposals, peer messages and slashing evidence,
    with the byte encodings that are hashed or signed. *)

From Stdlib Require Import ZArith Lia Strings.Byte.
From stdpp Require Import base gmap list.
From S2P Require Import Prelude Crypto Merkle.

(** [type NodeId = [u8; 32]]. *)
Abbreviation NodeId := (list byte).
Abbreviation Tx := (list byte).

Record ValidatorInfo := mkValidatorInfo {
  vi_pubkey : PublicKey;
  vi_node_id : NodeId;
  vi_address : Str;
  vi_power : Z;
  vi_stake : Z;
  vi_tls_cert : option (list byte);
}.

Inductive VoteType := Prevote | Precommit.

#[global] Instance VoteType_eq_dec : EqDecision VoteType.
Proof. solve_decision. Defined.

#[global] Program Instance VoteType_countable : Countable VoteType :=
  inj_countable (fun t => match t with Prevote => true | Precommit => false end)
    (fun b => Some (if b then Prevote else Precommit)) _.
Next Obligation. by intros []. Qed.

Record Vote := mkVote {
  v_height : Z;
  v_round : Z;
  v_vote_type : VoteType;
  v_block_hash : Hash;
  v_validator_id : NodeId;
}.

Record SignedVote := mkSignedVote {
  sv_vote : Vote;
  sv_signature : Str;
}.

Record BlockHeader := mkBlockHeader {
  hd_height : Z;
  hd_round : Z;
  hd_prev_block_hash : Hash;
  hd_tx_root : Hash;
  hd_proposer_id : NodeId;
  hd_timestamp_ms : Z;
}.

Record Block := mkBlock {
  bl_header : BlockHeader;
  bl_txs : list Tx;
}.

Record Proposal := mkProposal {
  p_height : Z;
  p_round : Z;
  p_block : Block;
  p_proposer_id : NodeId;
  p_signature : Str;
}.

Inductive Message :=
| MsgHello (node_id : NodeId) (pubkey : PublicKey) (signature : Str)
| MsgTx (tx : Tx)
| MsgProposal (p : Proposal)
| MsgVote (v : SignedVote).

Inductive SlashingEvidence :=
| DoubleSign (validator_id : NodeId) (height round : Z) (vote1 vote2 : SignedVote)
| InvalidProposal (validator_id : NodeId) (height : Z) (proposal : Proposal) (reason : Str).

Record SlashingRecord := mkSlashingRecord {
  sr_evidence : SlashingEvidence;
  sr_slashed_amount : Z;
  sr_jail_until_height : Z;
  sr_timestamp_ms : Z;
}.

#[global] Instance Vote_eq_dec : EqDecision Vote.
Proof. solve_decision. Defined.
#[global] Instance SignedVote_eq_dec : EqDecision SignedVote.
Proof. solve_decision. Defined.
#[global] Instance BlockHeader_eq_dec : EqDecision BlockHeader.
Proof. solve_decision. Defined.
#[global] Instance Block_eq_dec : EqDecision Block.
Proof. solve_decision. Defined.
#[global] Instance Proposal_eq_dec : EqDecision Proposal.
Proof. solve_decision. Defined.
#[global] Instance Message_eq_dec : EqDecision Message.
Proof. solve_decision. Defined.

Section types.
Context `{Sha256}.

Definition node_id_from_pubkey (pubkey : PublicKey) : NodeId := sha256 pubkey.

Definition tx_hash (tx : Tx) : Hash := sha256 tx.

Definition header_bytes (h : BlockHeader) : list byte :=
  to_le_bytes 8 (hd_height h) ++ to_le_bytes 8 (hd_round h) ++ hd_prev_block_hash h
  ++ hd_tx_root h ++ hd_proposer_id h ++ to_le_bytes 8 (hd_timestamp_ms h).

Definition block_hash (header : BlockHeader) : Hash := sha256 (header_bytes header).

Definition vote_bytes (v : Vote) : list byte :=
  to_le_bytes 8 (v_height v) ++ to_le_bytes 8 (v_round v)
  ++ [match v_vote_type v with Prevote => x01 | Precommit => x02 end]
  ++ v_block_hash v ++ v_validator_id v.

Definition proposal_bytes (p : Proposal) : list byte :=
  to_le_bytes 8 (p_height p) ++ to_le_bytes 8 (p_round p)
  ++ block_hash (bl_header (p_block p)) ++ p_proposer_id p.

(** The root a block's header must carry. *)
Definition txs_root (txs : list Tx) : Hash := merkle_root_hashes (map tx_hash txs).

(** ** Field types *)

Definition wf_header (h : BlockHeader) : Prop :=
  is_u64 (hd_height h) /\ is_u64 (hd_round h) /\ is_u64 (hd_timestamp_ms h) /\
  length (hd_prev_block_hash h) = 32%nat /\ length (hd_tx_root h) = 32%nat /\
  length (hd_proposer_id h) = 32%nat.

Definition wf_vote (v : Vote) : Prop :=
  is_u64 (v_height v) /\ is_u64 (v_round v) /\
  length (v_block_hash v) = 32%nat /\ length (v_validator_id v) = 32%nat.

#[global] Instance wf_header_dec h : Decision (wf_header h).
Proof. unfold wf_header. apply _. Defined.
#[global] Instance wf_vote_dec v : Decision (wf_vote v).
Proof. unfold wf_vote. apply _. Defined.

(** ** Encodings are injective *)

Lemma header_bytes_inj h1 h2 :
  wf_header h1 -> wf_header h2 -> header_bytes h1 = header_bytes h2 -> h1 = h2.
Proof.
  intros (? & ? & ? & Hp1 & Ht1 & Hi1) (? & ? & ? & Hp2 & Ht2 & Hi2) E.
  unfold header_bytes in E.
  apply app_split in E as [E1 E]; [|by rewrite !length_to_le_bytes].
  apply app_split in E as [E2 E]; [|by rewrite !length_to_le_bytes].
  apply app_split in E as [E3 E]; [|congruence].
  apply app_split in E as [E4 E]; [|congruence].
  apply app_split in E as [E5 E]; [|congruence].
  apply u64_le_inj in E1, E2, E; [|done..].
  destruct h1, h2; simpl in *; congruence.
Qed.

Lemma block_hash_binding h1 h2 :
  wf_header h1 -> wf_header h2 -> block_hash h1 = block_hash h2 ->
  h1 = h2 \/ collision (header_bytes h1) (header_bytes h2).
Proof. intros H1 H2 [E|]%sha256_inj_or; [left|by right]. by apply header_bytes_inj. Qed.

Lemma vote_bytes_inj v1 v2 :
  wf_vote v1 -> wf_vote v2 -> vote_bytes v1 = vote_bytes v2 -> v1 = v2.
Proof.
  intros (? & ? & Hb1 & Hi1) (? & ? & Hb2 & Hi2) E. unfold vote_bytes in E.
  apply app_split in E as [E1 E]; [|by rewrite !length_to_le_bytes].
  apply app_split in E as [E2 E]; [|by rewrite !length_to_le_bytes].
  apply app_split in E as [E3 E]; [|done].
  apply app_split in E as [E4 E5]; [|congruence].
  apply u64_le_inj in E1, E2; [|done..].
  destruct v1 as [?? [] ??], v2 as [?? [] ??]; simpl in *; congruence.
Qed.

Lemma length_header_bytes h : wf_header h -> length (header_bytes h) = 120%nat.
Proof.
  intros (_ & _ & _ & H1 & H2 & H3). unfold header_bytes.
  by rewrite !length_app, !length_to_le_bytes, H1, H2, H3.
Qed.

Lemma length_vote_bytes v : wf_vote v -> length (vote_bytes v) = 81%nat.
Proof.
  intros (_ & _ & H1 & H2). unfold vote_bytes.
  by rewrite !length_app, !length_to_le_bytes, H1, H2.
Qed.

Lemma length_proposal_bytes p :
  length (p_proposer_id p) = 32%nat -> length (proposal_bytes p) = 80%nat.
Proof.
  intros H1. unfold proposal_bytes, block_hash.
  by rewrite !length_app, !length_to_le_bytes, sha256_length, H1.
Qed.

Lemma map_tx_hash_hashes txs : all_hashes (map tx_hash txs).
Proof. induction txs; constructor; [apply sha256_length|done]. Qed.

Lemma map_tx_hash_inj txs1 txs2 :
  map tx_hash txs1 = map tx_hash txs2 -> txs1 = txs2 \/ collision_among (txs1 ++ txs2).
Proof.
  revert txs2. induction txs1 as [|t1 txs1 IH]; intros [|t2 txs2]; simpl; try done; [by left|].
  intros [= E E'].
  apply (sha256_inj_among [t1; t2]) in E as [->|]; [|collide|set_solver..].
  destruct (IH _ E') as [->|]; [by left|collide].
Qed.

(** What is hashed for a block: its header, its transactions, its Merkle tree. *)
Definition block_messages (b : Block) : list (list byte) :=
  header_bytes (bl_header b) :: bl_txs b ++ merkle_messages (map tx_hash (bl_txs b)).

(** C36: a block hash commits to the whole block: two blocks whose headers
    carry the right transaction roots, with equal block hashes and equally
    many transactions, are the same block, unless two of the messages hashed
    for them collide. *)
Theorem block_hash_commits b1 b2 :
  wf_header (bl_header b1) -> wf_header (bl_header b2) ->
  hd_tx_root (bl_header b1) = txs_root (bl_txs b1) ->
  hd_tx_root (bl_header b2) = txs_root (bl_txs b2) ->
  length (bl_txs b1) = length (bl_txs b2) ->
  block_hash (bl_header b1) = block_hash (bl_header b2) ->
  b1 = b2 \/ collision_among (block_messages b1 ++ block_messages b2).
Proof.
  intros W1 W2 R1 R2 Hlen E. unfold block_messages.
  apply block_hash_binding in E as [Eh|Hc]; [|right|done..].
  2:{ exists (header_bytes (bl_header b1)), (header_bytes (bl_header b2)). set_solver. }
  destruct (merkle_root_hashes_binding (map tx_hash (bl_txs b1)) (map tx_hash (bl_txs b2)))
    as [[Et|]%map_tx_hash_inj|]; try collide; auto using map_tx_hash_hashes.
  - by rewrite !length_map.
  - unfold txs_root in *. congruence.
  - left. destruct b1, b2; simpl in *; congruence.
Qed.

(** The count matters: a block with an odd number of transactions, at
    least three, can have its last transaction repeated without changing its
    transaction root, hence without changing its header or its block hash. *)
Theorem tx_root_repeat_last txs tx :
  txs <> [] -> Nat.Even (length txs) ->
  txs_root (txs ++ [tx]) = txs_root (txs ++ [tx; tx]).
Proof.
  intros Hne Hev. unfold txs_root. rewrite !map_app. simpl.
  apply merkle_root_repeat_last; [by destruct txs|by rewrite length_map].
Qed.

End types.

(** ** Witnesses *)

Section witnesses.
Import Toy.

Definition demo_txs : list Tx := [[x01]; [x02]; [x03]].

Definition demo_header : BlockHeader :=
  mkBlockHeader 1 0 ZERO_HASH (txs_root demo_txs) (replicate 32 x05) 77.

Lemma block_hash_commits_witness :
  let b := mkBlock demo_header demo_txs in
  b = b \/ collision_among (block_messages b ++ block_messages b).
Proof.
  intros b. apply (block_hash_commits (H := toy_sha256)); try reflexivity;
    apply (bool_decide_unpack _); vm_compute; exact I.
Defined.

Lemma tx_root_repeat_last_witness :
  txs_root [[x01]; [x02]; [x03]] = txs_root [[x01]; [x02]; [x03]; [x03]].
Proof.
  apply (tx_root_repeat_last (H := toy_sha256) [[x01]; [x02]]); [discriminate|].
  exists 1%nat. reflexivity.
Defined.

End witnesses.
