(* ===== verification/BftConfig.v ===== *)
(** * Genesis configuration (src/rust-core/src/bft/config.rs)

    The configuration records with their defaults, what [serde] makes of a
    genesis document under the attributes of the records, and the translation
    of the configured validators into [ValidatorInfo]s. *)

From Stdlib Require Import ZArith Lia Strings.Byte.
From stdpp Require Import base list strings.
From S2P Require Import Prelude Crypto BftTypes.

Record SlashingConfig := mkSlashingConfig {
  sc_enabled : bool;
  sc_double_sign_percent : Z;
  sc_invalid_proposal_percent : Z;
  sc_jail_duration_blocks : Z;
}.

Record ConsensusConfig := mkConsensusConfig {
  cc_max_block_bytes : Z;
  cc_max_events : Z;
  cc_target_block_ms : Z;
  cc_propose_timeout_ms : Z;
  cc_prevote_timeout_ms : Z;
  cc_precommit_timeout_ms : Z;
  cc_timeout_backoff_num : Z;
  cc_timeout_backoff_den : Z;
  cc_timeout_cap_ms : Z;
  cc_slashing : SlashingConfig;
}.

Record ValidatorConfig := mkValidatorConfig {
  vc_pubkey_hex : Str;
  vc_address : Str;
  vc_power : Z;
  vc_tls_cert_hex : option Str;
  vc_stake : Z;
}.

Record TransportConfig := mkTransportConfig { tls_enabled : bool }.
Record ClientConfig := mkClientConfig { listen_addr : Str }.

Record GenesisConfig := mkGenesisConfig {
  g_chain_id : Str;
  g_validators : list ValidatorConfig;
  g_consensus : ConsensusConfig;
  g_client : ClientConfig;
  g_transport : TransportConfig;
}.

Definition default_stake : Z := 1000000.
Definition default_slash_enabled : bool := true.
Definition default_double_sign_slash : Z := 5.
Definition default_invalid_proposal_slash : Z := 1.
Definition default_jail_duration : Z := 1000.

Definition SlashingConfig_default : SlashingConfig :=
  mkSlashingConfig default_slash_enabled default_double_sign_slash
    default_invalid_proposal_slash default_jail_duration.

Definition ConsensusConfig_default : ConsensusConfig :=
  mkConsensusConfig 1048576 5000 2000 800 600 600 3 2 10000 SlashingConfig_default.

Definition ClientConfig_default : ClientConfig := mkClientConfig (str "127.0.0.1:7000").
Definition TransportConfig_default : TransportConfig := mkTransportConfig false.

(** ** The genesis document

    A document is the fields its JSON objects have; a field of another type is
    the parser's error, as is JSON that is none ([GenesisJson]).  A field
    without a [serde(default)] attribute must be present. *)

Module Doc.

Record SlashingDoc := mkSlashingDoc {
  enabled : option bool;
  double_sign_percent : option Z;
  invalid_proposal_percent : option Z;
  jail_duration_blocks : option Z;
}.

Record ConsensusDoc := mkConsensusDoc {
  max_block_bytes : option Z;
  max_events : option Z;
  target_block_ms : option Z;
  propose_timeout_ms : option Z;
  prevote_timeout_ms : option Z;
  precommit_timeout_ms : option Z;
  timeout_backoff_num : option Z;
  timeout_backoff_den : option Z;
  timeout_cap_ms : option Z;
  slashing : option SlashingDoc;
}.

Record ValidatorDoc := mkValidatorDoc {
  pubkey_hex : option Str;
  address : option Str;
  power : option Z;
  tls_cert_hex : option Str;
  stake : option Z;
}.

Record ClientDoc := mkClientDoc { listen_addr : option Str }.
Record TransportDoc := mkTransportDoc { tls_enabled : option bool }.

Record GenesisDoc := mkGenesisDoc {
  chain_id : option Str;
  validators : option (list ValidatorDoc);
  consensus : option ConsensusDoc;
  client : option ClientDoc;
  transport : option TransportDoc;
}.

(** The derived [Deserialize] of each record. *)
Definition slashing_config (d : SlashingDoc) : SlashingConfig :=
  mkSlashingConfig (default default_slash_enabled (enabled d))
    (default default_double_sign_slash (double_sign_percent d))
    (default default_invalid_proposal_slash (invalid_proposal_percent d))
    (default default_jail_duration (jail_duration_blocks d)).

Definition consensus_config (d : ConsensusDoc) : option ConsensusConfig :=
  a ← max_block_bytes d; b ← max_events d; c ← target_block_ms d;
  e ← propose_timeout_ms d; f ← prevote_timeout_ms d; g ← precommit_timeout_ms d;
  num ← timeout_backoff_num d; den ← timeout_backoff_den d; cap ← timeout_cap_ms d;
  Some (mkConsensusConfig a b c e f g num den cap
          (from_option slashing_config SlashingConfig_default (slashing d))).

Definition validator_config (d : ValidatorDoc) : option ValidatorConfig :=
  key ← pubkey_hex d; addr ← address d;
  Some (mkValidatorConfig key addr (default 0 (power d)) (tls_cert_hex d)
          (default default_stake (stake d))).

Definition client_config (d : ClientDoc) : ClientConfig :=
  mkClientConfig (default [] (listen_addr d)).

Definition transport_config (d : TransportDoc) : TransportConfig :=
  mkTransportConfig (default false (tls_enabled d)).

Definition genesis_config (d : GenesisDoc) : option GenesisConfig :=
  id ← chain_id d; vs ← validators d ≫= mapM validator_config;
  cons ← match consensus d with
         | Some c => consensus_config c
         | None => Some ConsensusConfig_default
         end;
  Some (mkGenesisConfig id vs cons
          (from_option client_config ClientConfig_default (client d))
          (from_option transport_config TransportConfig_default (transport d))).

End Doc.

(** The text of a genesis file, read into its fields. *)
Class GenesisJson := { genesis_document : Str -> option Doc.GenesisDoc }.

Definition parse_genesis `{GenesisJson} (text : Str) : option GenesisConfig :=
  genesis_document text ≫= Doc.genesis_config.

(** A document that gives only what must be given has the documented defaults;
    a [consensus] object must be complete up to its slashing part; and a
    [client] object without an address means the empty address, not the
    default one. *)
Theorem genesis_defaults id key addr cl :
  let v := Doc.mkValidatorDoc (Some key) (Some addr) None None None in
  Doc.genesis_config (Doc.mkGenesisDoc (Some id) (Some [v]) None None None)
  = Some (mkGenesisConfig id [mkValidatorConfig key addr 0 None 1000000] ConsensusConfig_default
            ClientConfig_default TransportConfig_default) /\
  (forall d c, Doc.consensus d = Some c -> Doc.timeout_cap_ms c = None -> Doc.genesis_config d = None) /\
  (g_client <$> Doc.genesis_config (Doc.mkGenesisDoc (Some id) (Some [v]) None (Some cl) None)
   = Some (mkClientConfig (default [] (Doc.listen_addr cl)))).
Proof.
  intros v. split; [done|]. split; [|done].
  intros d c Hc Hcap.
  assert (Doc.consensus_config c = None) as Hn.
  { unfold Doc.consensus_config. rewrite Hcap.
    do 8 (match goal with |- (?x ≫= _) = None => destruct x; simpl; [|done] end). done. }
  unfold Doc.genesis_config. rewrite Hc, Hn.
  destruct (Doc.chain_id d); [|done]. by destruct (Doc.validators d ≫= mapM Doc.validator_config).
Qed.

Inductive ConfigError :=
| InvalidPubkeyHex
| InvalidTlsCertHex
| MissingTlsCert.

Section config.
Context `{Sha256} `{Hex}.

(** [<[u8; 32]>::from_hex]. *)
Definition parse_pubkey (hex_str : Str) : result PublicKey ConfigError :=
  match hex_decode hex_str with
  | Some bytes => if decide (length bytes = 32%nat) then Ok bytes else Err InvalidPubkeyHex
  | None => Err InvalidPubkeyHex
  end.

Definition parse_tls_cert (hex_str : Str) : result (list byte) ConfigError :=
  ok_or (hex_decode hex_str) InvalidTlsCertHex.

(** The body of the loop of [validator_infos]. *)
Definition validator_info (transport : TransportConfig) (v : ValidatorConfig)
    : result ValidatorInfo ConfigError :=
  let? pubkey := parse_pubkey (vc_pubkey_hex v) in
  let node_id := node_id_from_pubkey pubkey in
  let power := if vc_power v =? 0 then 1 else vc_power v in
  let stake := if vc_stake v =? 0 then default_stake else vc_stake v in
  let? tls_cert :=
    match vc_tls_cert_hex v with
    | Some hex => let? cert := parse_tls_cert hex in Ok (Some cert)
    | None => Ok None
    end in
  if tls_enabled transport && bool_decide (tls_cert = None) then Err MissingTlsCert
  else Ok (mkValidatorInfo pubkey node_id (vc_address v) power stake tls_cert).

Fixpoint validator_infos_loop (transport : TransportConfig) (vs : list ValidatorConfig)
    : result (list ValidatorInfo) ConfigError :=
  match vs with
  | [] => Ok []
  | v :: vs' =>
      let? info := validator_info transport v in
      let? rest := validator_infos_loop transport vs' in
      Ok (info :: rest)
  end.

Definition validator_infos (g : GenesisConfig) : result (list ValidatorInfo) ConfigError :=
  validator_infos_loop (g_transport g) (g_validators g).

(** What an accepted entry looks like. *)
Definition info_of_config (transport : TransportConfig) (v : ValidatorConfig)
    (i : ValidatorInfo) : Prop :=
  hex_decode (vc_pubkey_hex v) = Some (vi_pubkey i) /\
  length (vi_pubkey i) = 32%nat /\ vi_node_id i = sha256 (vi_pubkey i) /\
  vi_address i = vc_address v /\
  vi_power i = (if vc_power v =? 0 then 1 else vc_power v) /\
  vi_stake i = (if vc_stake v =? 0 then default_stake else vc_stake v) /\
  (tls_enabled transport = true -> is_Some (vi_tls_cert i)).

Lemma validator_info_ok transport v i :
  validator_info transport v = Ok i -> info_of_config transport v i.
Proof.
  unfold validator_info, parse_pubkey. intros H1.
  destruct (hex_decode (vc_pubkey_hex v)) as [pk|] eqn:Epk; [|done].
  destruct (decide (length pk = 32%nat)) as [Hlen|]; [|done]. simpl in H1.
  apply result_bind_ok in H1 as (cert & _ & H1).
  destruct (tls_enabled transport && bool_decide (cert = None)) eqn:Et; [done|].
  injection H1 as <-. unfold info_of_config. simpl. repeat split; try done.
  intros Htls. rewrite Htls in Et. simpl in Et. apply bool_decide_eq_false in Et.
  by apply not_eq_None_Some.
Qed.

Lemma validator_infos_loop_ok transport vs infos :
  validator_infos_loop transport vs = Ok infos ->
  Forall2 (info_of_config transport) vs infos.
Proof.
  revert infos. induction vs as [|v vs IH]; intros infos; simpl; [by intros [= <-]|].
  intros (i & Hi & (rest & Hrest & [= <-])%result_bind_ok)%result_bind_ok.
  constructor; [by apply validator_info_ok|by apply IH].
Qed.

(** An accepted genesis lists one validator per configured entry, in
    order: its key is the decoded 32 bytes, its identity their SHA-256, a zero
    power counts as one and a zero stake as the default, and with TLS enabled
    every validator has a certificate. *)
Theorem validator_infos_spec g infos :
  validator_infos g = Ok infos ->
  Forall2 (info_of_config (g_transport g)) (g_validators g) infos /\
  Forall (fun i => vi_power i <> 0 /\ vi_stake i <> 0) infos.
Proof.
  intros Hinfos%validator_infos_loop_ok. split; [done|].
  induction Hinfos as [|v i vs infos (_ & _ & _ & _ & Hp & Hs & _) _ IH]; constructor; auto.
  rewrite Hp, Hs. unfold default_stake.
  destruct (Z.eqb_spec (vc_power v) 0), (Z.eqb_spec (vc_stake v) 0); lia.
Qed.

End config.

Section witness.
Import Toy.

Definition demo_genesis_config : GenesisConfig :=
  mkGenesisConfig (str "demo")
    [mkValidatorConfig (hex_encode (replicate 32 x42)) (str "127.0.0.1:9001") 0
       None 0]
    ConsensusConfig_default (mkClientConfig []) (mkTransportConfig false).

Definition demo_infos : list ValidatorInfo :=
  [mkValidatorInfo (replicate 32 x42) (sha256 (replicate 32 x42))
     (str "127.0.0.1:9001") 1 1000000 None].

Lemma validator_infos_spec_witness :
  Forall (fun i => vi_power i <> 0 /\ vi_stake i <> 0) demo_infos.
Proof.
  exact (proj2 (validator_infos_spec (H := toy_sha256) (H0 := toy_hex)
    demo_genesis_config demo_infos ltac:(vm_compute; reflexivity))).
Defined.

End witness.
