(* ===== verification/Slashing.v ===== *)
(** * Stakes, jail and double-sign detection (src/rust-core/src/bft/slashing.rs)

    [SlashingState] with all its operations.  The wall clock read by [slash]
    is an argument.  The accounting of the stakes holds over the step relation
    of the operations; detection is stated over histories of calls. *)

From Stdlib Require Import ZArith Lia Strings.Byte.
From stdpp Require Import base gmap list strings.
From S2P Require Import Prelude Crypto BftTypes BftConfig.

Abbreviation VoteKey := (Z * Z * VoteType)%type.

Record SlashingState := mkSlashingState {
  stakes : gmap NodeId Z;
  original_stakes : gmap NodeId Z;
  slashed : list SlashingRecord;
  jailed : gmap NodeId Z;
  votes_by_validator : gmap VoteKey (gmap NodeId SignedVote);
}.

Definition SlashingState_new (initial_stakes : gmap NodeId Z) : SlashingState :=
  mkSlashingState initial_stakes initial_stakes [] ∅ ∅.

Definition is_jailed (st : SlashingState) (validator_id : NodeId) (current_height : Z) : bool :=
  match jailed st !! validator_id with
  | Some jail_until => current_height <? jail_until
  | None => false
  end.

Definition effective_stake (st : SlashingState) (validator_id : NodeId) (current_height : Z) : Z :=
  if is_jailed st validator_id current_height then 0
  else default 0 (stakes st !! validator_id).

Definition vote_key (v : Vote) : VoteKey := (v_height v, v_round v, v_vote_type v).

Definition set_votes (st : SlashingState) (m : gmap VoteKey (gmap NodeId SignedVote))
    : SlashingState :=
  mkSlashingState (stakes st) (original_stakes st) (slashed st) (jailed st) m.

(** The pruning at the end of [record_vote]: keep the last 100 heights. *)
Definition prune_votes (height : Z) (m : gmap VoteKey (gmap NodeId SignedVote))
    : gmap VoteKey (gmap NodeId SignedVote) :=
  if 100 <? height
  then filter (fun kv : VoteKey * gmap NodeId SignedVote => height - 100 < kv.1.1.1) m
  else m.

Definition record_vote (st : SlashingState) (vote : SignedVote) (config : SlashingConfig)
    : SlashingState * option SlashingEvidence :=
  if negb (sc_enabled config) then (st, None)
  else
    let v := sv_vote vote in
    let key := vote_key v in
    let votes := default ∅ (votes_by_validator st !! key) in
    match votes !! v_validator_id v with
    | Some existing =>
        if decide (v_block_hash (sv_vote existing) <> v_block_hash v) then
          let votes' := <[v_validator_id v := vote]> votes in
          (set_votes st (<[key := votes']> (votes_by_validator st)),
           Some (DoubleSign (v_validator_id v) (v_height v) (v_round v) existing vote))
        else
          (set_votes st (prune_votes (v_height v) (<[key := votes]> (votes_by_validator st))),
           None)
    | None =>
        let votes' := <[v_validator_id v := vote]> votes in
        (set_votes st (prune_votes (v_height v) (<[key := votes']> (votes_by_validator st))),
         None)
    end.

Inductive SlashError := SlashingDisabled | ZeroStake.

Definition evidence_target (evidence : SlashingEvidence) : NodeId :=
  match evidence with
  | DoubleSign validator_id _ _ _ _ => validator_id
  | InvalidProposal validator_id _ _ _ => validator_id
  end.

Definition evidence_percent (config : SlashingConfig) (evidence : SlashingEvidence) : Z :=
  match evidence with
  | DoubleSign _ _ _ _ _ => sc_double_sign_percent config
  | InvalidProposal _ _ _ _ => sc_invalid_proposal_percent config
  end.

Definition slash (now_ms : Z) (st : SlashingState) (evidence : SlashingEvidence)
    (config : SlashingConfig) (current_height : Z)
    : result (SlashingState * SlashingRecord) SlashError :=
  if negb (sc_enabled config) then Err SlashingDisabled
  else
    let validator_id := evidence_target evidence in
    let slash_percent := evidence_percent config evidence in
    let current_stake := default 0 (stakes st !! validator_id) in
    if current_stake =? 0 then Err ZeroStake
    else
      let slash_amount := saturating_mul current_stake slash_percent / 100 in
      let new_stake := saturating_sub current_stake slash_amount in
      let jail_until := saturating_add current_height (sc_jail_duration_blocks config) in
      let record := mkSlashingRecord evidence slash_amount jail_until now_ms in
      Ok (mkSlashingState (<[validator_id := new_stake]> (stakes st)) (original_stakes st)
            (slashed st ++ [record]) (<[validator_id := jail_until]> (jailed st))
            (votes_by_validator st), record).

Definition total_slashed (st : SlashingState) (validator_id : NodeId) : Z :=
  saturating_sub (default 0 (original_stakes st !! validator_id))
    (default 0 (stakes st !! validator_id)).

Definition slashing_history (st : SlashingState) (validator_id : NodeId) : list SlashingRecord :=
  filter (fun r => evidence_target (sr_evidence r) = validator_id) (slashed st).

Inductive UnjailError := StillJailed (until : Z) | NotJailed.

Definition unjail (st : SlashingState) (validator_id : NodeId) (current_height : Z)
    : result SlashingState UnjailError :=
  match jailed st !! validator_id with
  | Some jail_until =>
      if jail_until <=? current_height
      then Ok (mkSlashingState (stakes st) (original_stakes st) (slashed st)
                 (delete validator_id (jailed st)) (votes_by_validator st))
      else Err (StillJailed jail_until)
  | None => Err NotJailed
  end.

(** ** The states the operations reach *)

(** One call of an operation that changes the state. *)
Inductive slashing_step (config : SlashingConfig) : SlashingState -> SlashingState -> Prop :=
| step_record st vote : slashing_step config st (fst (record_vote st vote config))
| step_slash now st evidence height st' record :
    slash now st evidence config height = Ok (st', record) -> slashing_step config st st'
| step_unjail st validator height st' :
    unjail st validator height = Ok st' -> slashing_step config st st'.

Definition reachable_slashing (config : SlashingConfig) (initial : gmap NodeId Z)
    : SlashingState -> Prop :=
  rtc (slashing_step config) (SlashingState_new initial).

Definition percents_ok (config : SlashingConfig) : Prop :=
  0 <= sc_double_sign_percent config <= 100 /\
  0 <= sc_invalid_proposal_percent config <= 100.

#[global] Instance percents_ok_dec config : Decision (percents_ok config).
Proof. unfold percents_ok. apply _. Defined.

(** The percents are [u64] numbers; the code never checks that they are at
    most 100. *)
Definition percents_u64 (config : SlashingConfig) : Prop :=
  is_u64 (sc_double_sign_percent config) /\ is_u64 (sc_invalid_proposal_percent config).

#[global] Instance percents_u64_dec config : Decision (percents_u64 config).
Proof. unfold percents_u64, is_u64. apply _. Defined.

(** Sum of the amounts recorded against one validator. *)
Definition slashed_sum (l : list SlashingRecord) : Z :=
  foldr (fun r s => sr_slashed_amount r + s) 0 l.

Lemma slashed_sum_app l1 l2 : slashed_sum (l1 ++ l2) = slashed_sum l1 + slashed_sum l2.
Proof. induction l1 as [|r l1 IH]; simpl; [done|]. rewrite IH. lia. Qed.

(** *** Facts about the single operations *)

Lemma record_vote_frame st vote config :
  let st' := fst (record_vote st vote config) in
  stakes st' = stakes st /\ original_stakes st' = original_stakes st /\
  slashed st' = slashed st /\ jailed st' = jailed st.
Proof. unfold record_vote. repeat split_match; done. Qed.

Lemma unjail_frame st validator height st' :
  unjail st validator height = Ok st' ->
  stakes st' = stakes st /\ original_stakes st' = original_stakes st /\
  slashed st' = slashed st /\ votes_by_validator st' = votes_by_validator st.
Proof. unfold unjail. intros H. run_in H. done. Qed.

Lemma slash_ok_inv now st evidence config height st' record :
  slash now st evidence config height = Ok (st', record) ->
  let v := evidence_target evidence in
  let stake := default 0 (stakes st !! v) in
  let amount := saturating_mul stake (evidence_percent config evidence) / 100 in
  sc_enabled config = true /\ stake <> 0 /\
  record = mkSlashingRecord evidence amount
             (saturating_add height (sc_jail_duration_blocks config)) now /\
  stakes st' = <[v := saturating_sub stake amount]> (stakes st) /\
  original_stakes st' = original_stakes st /\ slashed st' = slashed st ++ [record] /\
  jailed st' = <[v := sr_jail_until_height record]> (jailed st) /\
  votes_by_validator st' = votes_by_validator st.
Proof.
  unfold slash. destruct (sc_enabled config); [|done]. simpl.
  destruct (Z.eqb_spec (default 0 (stakes st !! evidence_target evidence)) 0); [done|].
  intros [= <- <-]. done.
Qed.

(** The amount taken is at most the percentage and at most the stake. *)
Lemma slash_amount_bounds stake percent :
  is_u64 stake -> 0 <= percent <= 100 ->
  0 <= saturating_mul stake percent / 100 <= stake /\
  saturating_mul stake percent / 100 <= stake * percent / 100.
Proof.
  intros Hs Hp. unfold is_u64, saturating_mul in *.
  assert (0 <= Z.min (stake * percent) u64_max <= stake * percent) by (unfold u64_max in *; nia).
  split; [split|].
  - apply Z.div_pos; lia.
  - apply Z.div_le_upper_bound; nia.
  - apply Z.div_le_mono; lia.
Qed.

Lemma evidence_percent_ok config evidence :
  percents_ok config -> 0 <= evidence_percent config evidence <= 100.
Proof. intros [? ?]. by destruct evidence. Qed.

Lemma slash_amount_nonneg config evidence stake :
  percents_u64 config -> is_u64 stake ->
  0 <= saturating_mul stake (evidence_percent config evidence) / 100.
Proof.
  intros Hp Hs. apply Z.div_pos; [|lia]. unfold saturating_mul, percents_u64, is_u64, u64_max in *.
  destruct evidence; simpl; nia.
Qed.

(** *** The accounting invariant *)

Record SlashingInv (config : SlashingConfig) (initial : gmap NodeId Z) (st : SlashingState)
    : Prop := {
  sinv_original : original_stakes st = initial;
  sinv_dom : dom (stakes st) = dom initial;
  sinv_range : forall v s, stakes st !! v = Some s -> is_u64 s;
  sinv_balance : forall v,
    default 0 (stakes st !! v)
    = saturating_sub (default 0 (initial !! v)) (slashed_sum (slashing_history st v));
  sinv_exact : percents_ok config -> forall v,
    slashed_sum (slashing_history st v) <= default 0 (initial !! v);
  sinv_amounts : Forall (fun r => 0 <= sr_slashed_amount r) (slashed st);
}.

Lemma default_u64 (m : gmap NodeId Z) v :
  (forall u s, m !! u = Some s -> is_u64 s) -> is_u64 (default 0 (m !! v)).
Proof.
  intros Hr. destruct (m !! v) eqn:E; simpl; [by eapply Hr|]. unfold is_u64, u64_max. lia.
Qed.

Lemma SlashingInv_new config initial :
  (forall v s, initial !! v = Some s -> is_u64 s) ->
  SlashingInv config initial (SlashingState_new initial).
Proof.
  intros Hr. split; simpl; try done; intros; unfold slashed_sum, slashing_history; simpl;
    pose proof (default_u64 initial v Hr) as [? ?]; unfold saturating_sub; lia.
Qed.

(** The invariant only reads the stake fields. *)
Lemma SlashingInv_frame config initial st st' :
  stakes st' = stakes st -> original_stakes st' = original_stakes st ->
  slashed st' = slashed st -> SlashingInv config initial st -> SlashingInv config initial st'.
Proof.
  intros E1 E2 E3 [H1 H2 H3 H4 H5 H6]. split; try congruence; unfold slashing_history in *.
  - intros v s. rewrite E1. apply H3.
  - intros v. rewrite E1, E3. apply H4.
  - intros Hp v. rewrite E3. by apply H5.
Qed.

Lemma slashing_history_snoc st st' record v :
  slashed st' = slashed st ++ [record] ->
  slashed_sum (slashing_history st' v)
  = slashed_sum (slashing_history st v)
    + (if decide (evidence_target (sr_evidence record) = v) then sr_slashed_amount record else 0).
Proof.
  intros E. unfold slashing_history. rewrite E, filter_app, slashed_sum_app.
  rewrite filter_cons, filter_nil. case_decide; simpl; lia.
Qed.

Lemma slashed_sum_nonneg l :
  Forall (fun r => 0 <= sr_slashed_amount r) l -> 0 <= slashed_sum l.
Proof. induction 1; simpl; lia. Qed.

Lemma history_nonneg st v :
  Forall (fun r => 0 <= sr_slashed_amount r) (slashed st) -> 0 <= slashed_sum (slashing_history st v).
Proof.
  intros Ha. apply slashed_sum_nonneg, Forall_forall. intros r [_ Hr]%list_elem_of_filter.
  by eapply Forall_forall in Ha.
Qed.

Lemma SlashingInv_slash initial now st evidence config height st' record :
  percents_u64 config -> SlashingInv config initial st ->
  slash now st evidence config height = Ok (st', record) -> SlashingInv config initial st'.
Proof.
  intros Hp [H1 H2 H3 H4 H5 H6] E. apply slash_ok_inv in E as (_ & Hnz & Hrec & E1 & E2 & E3 & _).
  set (v := evidence_target evidence) in *.
  destruct (stakes st !! v) as [s|] eqn:Es; simpl in *; [|done].
  pose proof (H3 _ _ Es) as Hs. pose proof (slash_amount_nonneg config evidence s Hp Hs) as Hnn.
  pose proof (H4 v) as H4v. rewrite Es in H4v. simpl in H4v.
  assert (forall w, slashed_sum (slashing_history st' w) = slashed_sum (slashing_history st w)
    + (if decide (v = w) then saturating_mul s (evidence_percent config evidence) / 100 else 0)) as Hsum.
  { intros w. rewrite (slashing_history_snoc _ _ _ w E3), Hrec. done. }
  split.
  - congruence.
  - rewrite E1, dom_insert_L, <- H2.
    assert (v ∈ dom (stakes st)) by (apply elem_of_dom; eauto). set_solver.
  - intros v' s'. rewrite E1. intros [[<- <-]|[_ ?]]%lookup_insert_Some; [|eauto].
    unfold is_u64, saturating_sub in *. lia.
  - intros w. rewrite Hsum, E1, lookup_insert. specialize (H4 w).
    case_decide; simplify_eq/=; unfold saturating_sub in *; rewrite ?Es in *; lia.
  - intros Hok w. rewrite Hsum. specialize (H5 Hok w). destruct (decide (v = w)) as [<-|Hne]; [|lia].
    destruct (slash_amount_bounds s (evidence_percent config evidence) Hs
                (evidence_percent_ok _ _ Hok)) as [Hb _]. unfold saturating_sub in *. lia.
  - rewrite E3. apply Forall_app. split; [done|]. rewrite Hrec. by constructor.
Qed.

Lemma SlashingInv_step initial config st st' :
  percents_u64 config -> slashing_step config st st' ->
  SlashingInv config initial st -> SlashingInv config initial st'.
Proof.
  intros Hp [st0 vote|now st0 ev h st1 r E|st0 v h st1 E] Hinv.
  - destruct (record_vote_frame st0 vote config) as (? & ? & ? & _).
    by eapply SlashingInv_frame.
  - by eapply SlashingInv_slash.
  - apply unjail_frame in E as (? & ? & ? & _). by eapply SlashingInv_frame.
Qed.

Lemma reachable_slashing_inv config initial st :
  percents_u64 config -> (forall v s, initial !! v = Some s -> is_u64 s) ->
  reachable_slashing config initial st -> SlashingInv config initial st.
Proof.
  intros Hp Hr Hreach. unfold reachable_slashing in Hreach.
  remember (SlashingState_new initial) as st0 eqn:E0.
  assert (SlashingInv config initial st0) as Hinv by (subst; by apply SlashingInv_new). clear E0.
  induction Hreach; eauto using SlashingInv_step.
Qed.

(** C21: stakes are accounted for, whatever percents are configured: after any
    sequence of recorded votes, slashes and unjailings no validator is added
    or dropped, each validator's stake is its original stake less the amounts
    recorded against it, down to zero, and [total_slashed] is the sum of its
    slashing history up to the original stake.  The two agree exactly, stake
    plus history being the original stake, when both percents are at most 100,
    which the code does not check (see [percent_above_100_overstates]). *)
Theorem stakes_conserved config initial st :
  percents_u64 config -> (forall v s, initial !! v = Some s -> is_u64 s) ->
  reachable_slashing config initial st ->
  dom (stakes st) = dom initial /\
  forall v,
    let recorded := slashed_sum (slashing_history st v) in
    let original := default 0 (initial !! v) in
    0 <= recorded /\
    default 0 (stakes st !! v) = saturating_sub original recorded /\
    total_slashed st v = Z.min original recorded /\
    (percents_ok config ->
      default 0 (stakes st !! v) + recorded = original /\ total_slashed st v = recorded).
Proof.
  intros Hp Hr Hreach. destruct (reachable_slashing_inv _ _ _ Hp Hr Hreach)
    as [H1 H2 H3 H4 H5 H6]. split; [done|]. intros v recorded original.
  pose proof (history_nonneg st v H6) as Hnn. pose proof (default_u64 initial v Hr) as [Ho _].
  unfold total_slashed. rewrite H1, H4. fold recorded original in Hnn, Ho |- *.
  unfold saturating_sub in *. split_and!; try lia. intros Hok. specialize (H5 Hok v).
  fold recorded original in H5. lia.
Qed.

(** ** Double-sign detection *)

(** The vote stored for a slot and a validator. *)
Definition stored_vote (st : SlashingState) (key : VoteKey) (v : NodeId) : option SignedVote :=
  default ∅ (votes_by_validator st !! key) !! v.

Lemma prune_votes_lookup height m key votes :
  prune_votes height m !! key = Some votes -> m !! key = Some votes.
Proof.
  unfold prune_votes. destruct (100 <? height); [|done].
  by intros [? _]%map_lookup_filter_Some.
Qed.

(** What one call stores: the vote under its key, the rest as before or
    pruned. *)
Lemma record_vote_lookup st vote config key votes v signed :
  votes_by_validator (fst (record_vote st vote config)) !! key = Some votes ->
  votes !! v = Some signed ->
  stored_vote st key v = Some signed \/
  (key = vote_key (sv_vote vote) /\ v = v_validator_id (sv_vote vote) /\ signed = vote).
Proof.
  assert (forall votes0, <[vote_key (sv_vote vote) := votes0]> (votes_by_validator st) !! key
    = Some votes -> votes0 = default ∅ (votes_by_validator st !! vote_key (sv_vote vote)) \/
      votes0 = <[v_validator_id (sv_vote vote) := vote]>
                 (default ∅ (votes_by_validator st !! vote_key (sv_vote vote))) ->
    votes !! v = Some signed ->
    stored_vote st key v = Some signed \/
    (key = vote_key (sv_vote vote) /\ v = v_validator_id (sv_vote vote) /\ signed = vote))
    as Hins.
  { intros votes0 [[<- ->]|[_ E]]%lookup_insert_Some Hv Hs; unfold stored_vote.
    - destruct Hv as [-> | ->]; [by left|].
      apply lookup_insert_Some in Hs as [[<- <-]|[_ ?]]; auto.
    - left. by rewrite E. }
  unfold record_vote. repeat split_match; simpl; intros E Hs.
  - left. unfold stored_vote. by rewrite E.
  - eapply Hins; eauto.
  - apply prune_votes_lookup in E. eapply Hins; eauto.
  - apply prune_votes_lookup in E. eapply Hins; eauto.
Qed.

(** *** Retention *)

Lemma stored_vote_insert st k u w key v :
  stored_vote (set_votes st (<[k := <[u := w]> (default ∅ (votes_by_validator st !! k))]>
    (votes_by_validator st))) key v
  = if decide (key = k /\ v = u) then Some w else stored_vote st key v.
Proof.
  unfold stored_vote. simpl. rewrite lookup_insert. case_decide as Ek.
  - subst. simpl. rewrite lookup_insert. repeat case_decide; naive_solver.
  - case_decide; naive_solver.
Qed.

Lemma stored_vote_touch st k key v :
  stored_vote (set_votes st (<[k := default ∅ (votes_by_validator st !! k)]>
    (votes_by_validator st))) key v
  = stored_vote st key v.
Proof. unfold stored_vote. simpl. rewrite lookup_insert. case_decide; by subst. Qed.

Lemma stored_vote_prune st height m key v :
  height < key.1.1 + 100 ->
  stored_vote (set_votes st (prune_votes height m)) key v = stored_vote (set_votes st m) key v.
Proof.
  intros Hh. unfold stored_vote, prune_votes. simpl. destruct (100 <? height); [|done].
  rewrite map_lookup_filter. destruct (m !! key); simpl; [|done].
  rewrite option_guard_True; [done|]. simpl. lia.
Qed.

Lemma record_vote_stores st w config key v :
  sc_enabled config = true -> v_height (sv_vote w) < key.1.1 + 100 ->
  (key = vote_key (sv_vote w) /\ v = v_validator_id (sv_vote w)) \/
    is_Some (stored_vote st key v) ->
  is_Some (stored_vote (fst (record_vote st w config)) key v).
Proof.
  intros Hen Hh Hw. unfold record_vote. rewrite Hen. simpl.
  destruct (default ∅ (votes_by_validator st !! vote_key (sv_vote w))
              !! v_validator_id (sv_vote w)) eqn:E; simpl; [case_decide|]; simpl;
    rewrite ?stored_vote_prune, ?stored_vote_insert, ?stored_vote_touch by done.
  - case_decide; naive_solver.
  - destruct Hw as [[-> ->]|]; [|done]. unfold stored_vote. by rewrite E.
  - case_decide; naive_solver.
Qed.

(** A recorded vote stays available for detection: with slashing enabled,
    the validator has a stored vote for the recorded height, round and type,
    and keeps one for as long as only votes less than 100 heights above it are
    recorded. *)
Theorem recorded_votes_retained config st vote later :
  sc_enabled config = true ->
  Forall (fun w => v_height (sv_vote w) < v_height (sv_vote vote) + 100) later ->
  let st1 := fst (record_vote st vote config) in
  let st2 := foldl (fun s w => fst (record_vote s w config)) st1 later in
  is_Some (stored_vote st2 (vote_key (sv_vote vote)) (v_validator_id (sv_vote vote))).
Proof.
  intros Hen Hl st1 st2.
  assert (is_Some (stored_vote st1 (vote_key (sv_vote vote)) (v_validator_id (sv_vote vote))))
    as H1 by (apply record_vote_stores; [done|simpl; lia|by left]).
  subst st2. clearbody st1. revert st1 H1.
  induction Hl as [|w later Hw _ IH]; intros st1 H1; simpl; [done|].
  apply IH, record_vote_stores; auto.
Qed.

(** *** The votes of a history *)

(** A call on the slashing state. *)
Inductive SlashingOp :=
| OpRecord (vote : SignedVote)
| OpSlash (now_ms : Z) (evidence : SlashingEvidence) (height : Z)
| OpUnjail (validator : NodeId) (height : Z).

Definition run_op (config : SlashingConfig) (st : SlashingState) (op : SlashingOp) : SlashingState :=
  match op with
  | OpRecord vote => fst (record_vote st vote config)
  | OpSlash now evidence height =>
      match slash now st evidence config height with Ok (st', _) => st' | Err _ => st end
  | OpUnjail validator height =>
      match unjail st validator height with Ok st' => st' | Err _ => st end
  end.

Definition run_ops (config : SlashingConfig) (initial : gmap NodeId Z) (ops : list SlashingOp)
    : SlashingState :=
  foldl (run_op config) (SlashingState_new initial) ops.

(** The votes a history recorded, in order. *)
Definition recorded_votes (ops : list SlashingOp) : list SignedVote :=
  omap (fun op => match op with OpRecord vote => Some vote | _ => None end) ops.

(** The votes of one validator at one height, round and type. *)
Definition slot_votes (key : VoteKey) (v : NodeId) (votes : list SignedVote) : list SignedVote :=
  filter (fun w => vote_key (sv_vote w) = key /\ v_validator_id (sv_vote w) = v) votes.

Lemma slot_votes_snoc key v votes w :
  slot_votes key v (votes ++ [w])
  = slot_votes key v votes
    ++ (if decide (vote_key (sv_vote w) = key /\ v_validator_id (sv_vote w) = v) then [w] else []).
Proof. unfold slot_votes. by rewrite filter_app, filter_cons, filter_nil. Qed.

(** What a call leaves stored in a slot that is not pruned. *)
Lemma record_vote_slot st w config key v :
  sc_enabled config = true -> v_height (sv_vote w) < key.1.1 + 100 ->
  stored_vote (fst (record_vote st w config)) key v
  = if decide (key = vote_key (sv_vote w) /\ v = v_validator_id (sv_vote w))
    then match stored_vote st key v with
         | Some e => if decide (v_block_hash (sv_vote e) = v_block_hash (sv_vote w)) then Some e else Some w
         | None => Some w
         end
    else stored_vote st key v.
Proof.
  intros Hen Hh. unfold record_vote. rewrite Hen. simpl.
  destruct (default ∅ (votes_by_validator st !! vote_key (sv_vote w))
              !! v_validator_id (sv_vote w)) as [e|] eqn:E; simpl; [case_decide|]; simpl;
    rewrite ?stored_vote_prune, ?stored_vote_insert, ?stored_vote_touch by done;
    destruct (decide (key = _ /\ _)) as [[-> ->]|Hne]; try done; unfold stored_vote; rewrite E;
    rewrite ?decide_False, ?decide_True by naive_solver; done.
Qed.

(** The slots hold recorded votes, and a slot that cannot have been pruned
    holds the block hash of the last vote recorded for it. *)
Lemma run_ops_stored config initial ops key v :
  sc_enabled config = true ->
  Forall (fun w => v_height (sv_vote w) < key.1.1 + 100) (recorded_votes ops) ->
  (fun w => v_block_hash (sv_vote w)) <$> stored_vote (run_ops config initial ops) key v
  = (fun w => v_block_hash (sv_vote w)) <$> last (slot_votes key v (recorded_votes ops)).
Proof.
  intros Hen. unfold run_ops, recorded_votes. induction ops as [|op ops IH] using rev_ind; [done|].
  rewrite foldl_app, omap_app. simpl. intros [Hw Hop]%Forall_app. specialize (IH Hw).
  set (st := foldl _ _ ops) in *. destruct op as [w|now ev h|u h]; simpl in *.
  - rewrite slot_votes_snoc, record_vote_slot by (by inversion Hop). rewrite last_app.
    destruct (decide (key = _ /\ _)) as [[-> ->]|Hne].
    + rewrite decide_True by done. simpl. destruct (stored_vote st _ _); [|done].
      case_decide; simpl; congruence.
    + rewrite decide_False by naive_solver. done.
  - rewrite app_nil_r. destruct (slash _ _ _ _ _) as [[st' r]|] eqn:E; [|done].
    apply slash_ok_inv in E as (_ & _ & _ & _ & _ & _ & _ & E). unfold stored_vote. by rewrite E.
  - rewrite app_nil_r. destruct (unjail _ _ _) as [st'|] eqn:E; [|done].
    apply unjail_frame in E as (_ & _ & _ & E). unfold stored_vote. by rewrite E.
Qed.

(** Whatever is pruned, a slot holds a vote that was recorded for it. *)
Lemma run_ops_recorded config initial ops key v w :
  stored_vote (run_ops config initial ops) key v = Some w -> w ∈ slot_votes key v (recorded_votes ops).
Proof.
  unfold run_ops, recorded_votes. revert w. induction ops as [|op ops IH] using rev_ind; intros w.
  { unfold stored_vote. simpl. by rewrite lookup_empty. }
  rewrite foldl_app, omap_app. simpl. set (st := foldl _ _ ops) in *.
  destruct op as [w'|now ev h|u h]; simpl; rewrite ?app_nil_r.
  - rewrite slot_votes_snoc, elem_of_app. unfold stored_vote.
    destruct (votes_by_validator _ !! key) as [votes|] eqn:Ek; simpl; [|by rewrite lookup_empty].
    intros Ew. destruct (record_vote_lookup _ _ _ _ _ _ _ Ek Ew) as [E|(-> & -> & ->)]; [by left; apply IH|].
    right. rewrite decide_True by done. by left.
  - destruct (slash _ _ _ _ _) as [[st' r]|] eqn:E; [|apply IH].
    apply slash_ok_inv in E as (_ & _ & _ & _ & _ & _ & _ & E). unfold stored_vote. rewrite E. apply IH.
  - destruct (unjail _ _ _) as [st'|] eqn:E; [|apply IH].
    apply unjail_frame in E as (_ & _ & _ & E). unfold stored_vote. rewrite E. apply IH.
Qed.

(** A call reports a double sign when the slot holds another block's vote. *)
Lemma record_vote_reports st vote config evidence :
  snd (record_vote st vote config) = Some evidence <->
  sc_enabled config = true /\
  exists existing,
    stored_vote st (vote_key (sv_vote vote)) (v_validator_id (sv_vote vote)) = Some existing /\
    v_block_hash (sv_vote existing) <> v_block_hash (sv_vote vote) /\
    evidence = DoubleSign (v_validator_id (sv_vote vote)) (v_height (sv_vote vote))
                 (v_round (sv_vote vote)) existing vote.
Proof.
  unfold record_vote, stored_vote. destruct (sc_enabled config); simpl; [|naive_solver].
  destruct (default ∅ _ !! _) as [existing|] eqn:E; simpl; [|naive_solver].
  case_decide; simpl; naive_solver.
Qed.

(** The evidence reported along a history. *)
Definition op_evidence (config : SlashingConfig) (st : SlashingState) (op : SlashingOp)
    : list SlashingEvidence :=
  match op with OpRecord vote => option_list (snd (record_vote st vote config)) | _ => [] end.

Fixpoint evidence_from (config : SlashingConfig) (st : SlashingState) (ops : list SlashingOp)
    : list SlashingEvidence :=
  match ops with
  | [] => []
  | op :: rest => op_evidence config st op ++ evidence_from config (run_op config st op) rest
  end.

Lemma evidence_from_snoc config st ops op :
  evidence_from config st (ops ++ [op])
  = evidence_from config st ops ++ op_evidence config (foldl (run_op config) st ops) op.
Proof.
  revert st. induction ops as [|op' ops IH]; intros st; simpl; [by rewrite app_nil_r|].
  by rewrite IH, app_assoc.
Qed.

(** Two votes for different blocks in one slot. *)
Definition conflicting (key : VoteKey) (v : NodeId) (votes : list SignedVote) (w1 w2 : SignedVote) : Prop :=
  w1 ∈ slot_votes key v votes /\ w2 ∈ slot_votes key v votes /\
  v_block_hash (sv_vote w1) <> v_block_hash (sv_vote w2).

Lemma conflicting_snoc key v votes w w1 w2 :
  conflicting key v votes w1 w2 -> conflicting key v (votes ++ [w]) w1 w2.
Proof. unfold conflicting. rewrite slot_votes_snoc. set_solver. Qed.

(** A conflict that the last vote completes is one with the vote before it in
    the slot, or was there before. *)
Lemma conflict_with_last key v votes w w1 w2 :
  vote_key (sv_vote w) = key -> v_validator_id (sv_vote w) = v ->
  conflicting key v (votes ++ [w]) w1 w2 ->
  (exists e, last (slot_votes key v votes) = Some e /\
     v_block_hash (sv_vote e) <> v_block_hash (sv_vote w)) \/
  exists u1 u2, conflicting key v votes u1 u2.
Proof.
  intros Hk Hv (H1 & H2 & Hne). rewrite slot_votes_snoc, decide_True in H1, H2 by done.
  destruct (last (slot_votes key v votes)) as [e|] eqn:El.
  2: { apply last_None in El. rewrite El in H1, H2. set_solver. }
  assert (e ∈ slot_votes key v votes) as He.
  { apply last_Some in El as [l ->]. set_solver. }
  destruct (decide (v_block_hash (sv_vote e) = v_block_hash (sv_vote w))) as [Ee|]; [|by left; exists e].
  right. apply elem_of_app in H1, H2. rewrite !list_elem_of_singleton in *. unfold conflicting.
  destruct H1 as [H1 | ->], H2 as [H2 | ->]; [by exists w1, w2|exists w1, e|exists e, w2|done];
    (split_and!; congruence).
Qed.

Definition double_sign (key : VoteKey) (v : NodeId) (w1 w2 : SignedVote) : SlashingEvidence :=
  DoubleSign v key.1.1 key.1.2 w1 w2.

Lemma elem_of_option_list {A} (o : option A) x : x ∈ option_list o <-> o = Some x.
Proof. destruct o as [y|]; simpl; [rewrite list_elem_of_singleton|rewrite elem_of_nil]; naive_solver. Qed.

Lemma evidence_sound config initial ops evidence :
  evidence ∈ evidence_from config (SlashingState_new initial) ops ->
  exists key v w1 w2, evidence = double_sign key v w1 w2 /\ conflicting key v (recorded_votes ops) w1 w2.
Proof.
  induction ops as [|op ops IH] using rev_ind; [by intros ?%not_elem_of_nil|].
  rewrite evidence_from_snoc, elem_of_app. fold (run_ops config initial ops).
  unfold recorded_votes. rewrite omap_app. fold (recorded_votes ops).
  destruct op as [w|now ev h|u h]; simpl; rewrite ?app_nil_r, ?elem_of_nil; try naive_solver.
  intros [(key & v & w1 & w2 & -> & Hc)%IH|E].
  - exists key, v, w1, w2. split; [done|by apply conflicting_snoc].
  - apply elem_of_option_list, record_vote_reports in E as (_ & e & Ee%run_ops_recorded & Hne & ->).
    eexists (vote_key (sv_vote w)), (v_validator_id (sv_vote w)), e, w. split; [done|].
    unfold conflicting. rewrite slot_votes_snoc, decide_True by done. set_solver.
Qed.

Lemma evidence_complete config initial ops key v :
  sc_enabled config = true ->
  Forall (fun w => v_height (sv_vote w) < key.1.1 + 100) (recorded_votes ops) ->
  (exists w1 w2, conflicting key v (recorded_votes ops) w1 w2) ->
  exists w1 w2, conflicting key v (recorded_votes ops) w1 w2 /\
    double_sign key v w1 w2 ∈ evidence_from config (SlashingState_new initial) ops.
Proof.
  intros Hen. induction ops as [|op ops IH] using rev_ind.
  { intros _ (w1 & w2 & H1 & _). by apply not_elem_of_nil in H1. }
  rewrite evidence_from_snoc. fold (run_ops config initial ops).
  unfold recorded_votes. rewrite omap_app. fold (recorded_votes ops).
  destruct op as [w|now ev h|u h]; simpl; rewrite ?app_nil_r; try done.
  intros [Hw _]%Forall_app (w1 & w2 & Hc). specialize (IH Hw).
  assert ((exists w1 w2, conflicting key v (recorded_votes ops) w1 w2) ->
    exists w1 w2, conflicting key v (recorded_votes ops ++ [w]) w1 w2 /\
      double_sign key v w1 w2 ∈ evidence_from config (SlashingState_new initial) ops
        ++ option_list (snd (record_vote (run_ops config initial ops) w config))) as Hold.
  { intros (u1 & u2 & Hu & Hin)%IH. exists u1, u2. split; [by apply conflicting_snoc|set_solver]. }
  destruct (decide (vote_key (sv_vote w) = key /\ v_validator_id (sv_vote w) = v)) as [[Hk Hv]|Hne].
  2: { apply Hold. exists w1, w2. unfold conflicting in *.
       rewrite slot_votes_snoc, decide_False, app_nil_r in Hc by done. done. }
  destruct (conflict_with_last _ _ _ _ _ _ Hk Hv Hc) as [(e & El & Hd)|]; [|by apply Hold].
  pose proof (run_ops_stored config initial ops key v Hen Hw) as Hs. rewrite El in Hs.
  destruct (stored_vote (run_ops config initial ops) key v) as [e'|] eqn:Ee; [|done].
  injection Hs as Hs. exists e', w. split.
  - pose proof (run_ops_recorded _ _ _ _ _ _ Ee). unfold conflicting.
    rewrite slot_votes_snoc, decide_True by done. split_and!; [set_solver..|congruence].
  - apply elem_of_app. right. apply elem_of_option_list, record_vote_reports.
    split; [done|]. exists e'. subst. split_and!; [done|congruence|done].
Qed.

(** C22: double signing is detected, no more and no less: along any history of
    recorded votes, slashes and unjailings, every evidence [record_vote]
    reports names two votes of the history by one validator, for the same
    height, round and type and different blocks; and, with slashing enabled
    and as long as only votes less than 100 heights above the slot are
    recorded (older votes are pruned), a validator that voted for two blocks
    in one slot has such evidence reported against it.  The call that records
    a vote is the one that reports it, exactly when the last vote of that slot
    was for another block. *)
Theorem double_sign_evidence config initial ops key v :
  (forall evidence, evidence ∈ evidence_from config (SlashingState_new initial) ops ->
     exists key' v' w1 w2, evidence = double_sign key' v' w1 w2 /\
       conflicting key' v' (recorded_votes ops) w1 w2) /\
  (sc_enabled config = true ->
   Forall (fun w => v_height (sv_vote w) < key.1.1 + 100) (recorded_votes ops) ->
   ((exists w1 w2, conflicting key v (recorded_votes ops) w1 w2) ->
    exists w1 w2, conflicting key v (recorded_votes ops) w1 w2 /\
      double_sign key v w1 w2 ∈ evidence_from config (SlashingState_new initial) ops) /\
   forall vote, vote_key (sv_vote vote) = key -> v_validator_id (sv_vote vote) = v ->
     (is_Some (snd (record_vote (run_ops config initial ops) vote config)) <->
      exists w, last (slot_votes key v (recorded_votes ops)) = Some w /\
        v_block_hash (sv_vote w) <> v_block_hash (sv_vote vote))).
Proof.
  split; [apply evidence_sound|]. intros Hen Hw. split; [by apply evidence_complete|].
  intros vote Hk Hv. pose proof (run_ops_stored config initial ops key v Hen Hw) as Hs.
  subst key v. split.
  - intros [ev (_ & e & Ee & Hne & _)%record_vote_reports]. rewrite Ee in Hs.
    destruct (last _) as [w|]; [|done]. injection Hs as Hs. exists w. split; [done|congruence].
  - intros (w & El & Hne). rewrite El in Hs. destruct (stored_vote _ _ _) as [e|] eqn:Ee; [|done].
    injection Hs as Hs. eexists. apply record_vote_reports. split; [done|]. exists e.
    split_and!; [done|congruence|reflexivity].
Qed.

(** ** Jail *)

(** A successful slash takes at most the configured share (and never more
    than the stake), appends its record, jails the validator until exactly the
    recorded height (zero effective stake before it, the reduced stake from
    then on), and touches no other validator. *)
Theorem slash_jails now st evidence config height st' record :
  percents_ok config -> (forall v s, stakes st !! v = Some s -> is_u64 s) ->
  slash now st evidence config height = Ok (st', record) ->
  let v := evidence_target evidence in
  let stake := default 0 (stakes st !! v) in
  let until := saturating_add height (sc_jail_duration_blocks config) in
  slashed st' = slashed st ++ [record] /\
  sr_slashed_amount record <= stake * evidence_percent config evidence / 100 /\
  default 0 (stakes st' !! v) = stake - sr_slashed_amount record /\
  (forall h, is_jailed st' v h = (h <? until)) /\
  (forall h, effective_stake st' v h
     = if h <? until then 0 else stake - sr_slashed_amount record) /\
  (forall u h, u <> v -> is_jailed st' u h = is_jailed st u h /\
     effective_stake st' u h = effective_stake st u h).
Proof.
  intros Hp Hr E v stake until.
  apply slash_ok_inv in E as (_ & Hnz & Hrec & E1 & _ & E3 & E4 & _). fold v stake in Hnz, Hrec, E1, E4.
  assert (is_u64 stake) as Hs.
  { subst stake. destruct (stakes st !! v) eqn:Ev; simpl in *; [by eapply Hr|done]. }
  destruct (slash_amount_bounds stake (evidence_percent config evidence) Hs
    (evidence_percent_ok _ _ Hp)) as [Hb1 Hb2].
  assert (sr_slashed_amount record
    = saturating_mul stake (evidence_percent config evidence) / 100) as Ha by (by subst record).
  assert (sr_jail_until_height record = until) as Hu by (by subst record).
  rewrite Hu in E4. rewrite <- Ha in *.
  assert (forall h, is_jailed st' v h = (h <? until)) as Hj.
  { intros h. unfold is_jailed. by rewrite E4, lookup_insert_eq. }
  assert (default 0 (stakes st' !! v) = stake - sr_slashed_amount record) as Hst.
  { rewrite E1, lookup_insert_eq. simpl. unfold saturating_sub. lia. }
  repeat split; auto.
  - intros h. unfold effective_stake. by rewrite Hj, Hst.
  - unfold is_jailed. by rewrite E4, lookup_insert_ne.
  - unfold effective_stake, is_jailed. by rewrite E1, E4, !lookup_insert_ne.
Qed.

(** [unjail] succeeds exactly when the jail period is over; it then frees
    the validator at every height and changes nothing else, and otherwise says
    why it failed. *)
Theorem unjail_spec st v height :
  match unjail st v height with
  | Ok st' =>
      (exists until, jailed st !! v = Some until /\ until <= height) /\
      (forall h, is_jailed st' v h = false) /\
      (forall u h, u <> v -> is_jailed st' u h = is_jailed st u h) /\
      stakes st' = stakes st /\ slashed st' = slashed st
  | Err (StillJailed until) => jailed st !! v = Some until /\ is_jailed st v height = true
  | Err NotJailed => jailed st !! v = None
  end.
Proof.
  unfold unjail, is_jailed. destruct (jailed st !! v) as [until|] eqn:E; [|done].
  destruct (Z.leb_spec until height); simpl; rewrite ?E; [|split; [done|lia]].
  repeat split; eauto.
  - intros h. by rewrite lookup_delete_eq.
  - intros u h Hne. by rewrite lookup_delete_ne.
Qed.

(** ** Witnesses *)

Section witnesses.

Definition demo_validator : NodeId := replicate 32 x01.

Definition demo_vote (h : byte) : SignedVote :=
  mkSignedVote (mkVote 10 0 Prevote (replicate 32 h) demo_validator) (str "test").

Definition demo_stakes : gmap NodeId Z := {[ demo_validator := 1000000 ]}.

Definition demo_slashing0 : SlashingState := SlashingState_new demo_stakes.

Definition demo_slashing1 : SlashingState :=
  fst (record_vote demo_slashing0 (demo_vote xaa) SlashingConfig_default).

Definition demo_evidence : SlashingEvidence :=
  DoubleSign demo_validator 10 0 (demo_vote xaa) (demo_vote xbb).

Definition demo_record : SlashingRecord := mkSlashingRecord demo_evidence 50000 1010 7.

Definition demo_slashing2 : SlashingState :=
  mkSlashingState (<[demo_validator := 950000]> demo_stakes) demo_stakes [demo_record]
    (<[demo_validator := 1010]> ∅) (votes_by_validator demo_slashing1).

Lemma demo_stakes_range v s : demo_stakes !! v = Some s -> is_u64 s.
Proof.
  unfold demo_stakes. intros [_ <-]%lookup_singleton_Some. apply (bool_decide_unpack _). vm_compute. exact I.
Qed.

Lemma demo_slash :
  slash 7 demo_slashing1 demo_evidence SlashingConfig_default 10
  = Ok (demo_slashing2, demo_record).
Proof. vm_compute. reflexivity. Qed.

Lemma demo_reachable1 : reachable_slashing SlashingConfig_default demo_stakes demo_slashing1.
Proof. apply rtc_once, step_record. Qed.

Lemma demo_reachable2 : reachable_slashing SlashingConfig_default demo_stakes demo_slashing2.
Proof.
  eapply rtc_r; [apply demo_reachable1|]. eapply step_slash, demo_slash.
Qed.

Lemma stakes_conserved_witness :
  default 0 (stakes demo_slashing2 !! demo_validator) + 50000 = 1000000 /\
  total_slashed demo_slashing2 demo_validator = 50000.
Proof.
  refine (proj2 (proj2 (proj2 (proj2 (stakes_conserved SlashingConfig_default demo_stakes
    demo_slashing2 _ demo_stakes_range demo_reachable2) demo_validator))) _);
    apply (bool_decide_unpack _); vm_compute; exact I.
Defined.

(** With 200 percent, which the code accepts, the record takes twice the stake
    there was: the history says 2000000 while 1000000 were slashed. *)
Theorem percent_above_100_overstates :
  match slash 7 demo_slashing1 demo_evidence (mkSlashingConfig true 200 1 1000) 10 with
  | Ok (st, _) =>
      Some (slashed_sum (slashing_history st demo_validator), total_slashed st demo_validator)
  | Err _ => None
  end = Some (2000000, 1000000).
Proof. vm_compute. reflexivity. Qed.

Definition demo_ops : list SlashingOp :=
  [OpRecord (demo_vote xaa); OpUnjail demo_validator 3; OpRecord (demo_vote xaa); OpRecord (demo_vote xbb)].

Lemma double_sign_evidence_witness :
  exists w1 w2, conflicting (10, 0, Prevote) demo_validator (recorded_votes demo_ops) w1 w2 /\
    double_sign (10, 0, Prevote) demo_validator w1 w2
      ∈ evidence_from SlashingConfig_default (SlashingState_new demo_stakes) demo_ops.
Proof.
  apply (proj2 (double_sign_evidence SlashingConfig_default demo_stakes demo_ops (10, 0, Prevote)
    demo_validator)); [reflexivity|repeat constructor|].
  exists (demo_vote xaa), (demo_vote xbb). apply (bool_decide_unpack _). vm_compute. exact I.
Defined.

Lemma recorded_votes_retained_witness :
  is_Some (stored_vote (foldl (fun s w => fst (record_vote s w SlashingConfig_default))
    demo_slashing1 [demo_vote xbb]) (10, 0, Prevote) demo_validator).
Proof.
  apply (recorded_votes_retained SlashingConfig_default demo_slashing0 (demo_vote xaa)
    [demo_vote xbb]); [reflexivity|]. repeat constructor.
Defined.

Lemma slash_jails_witness :
  forall h, is_jailed demo_slashing2 demo_validator h = (h <? 1010).
Proof.
  refine (proj1 (proj2 (proj2 (proj2 (slash_jails 7 demo_slashing1 demo_evidence
    SlashingConfig_default 10 demo_slashing2 demo_record _ demo_stakes_range demo_slash))))).
  apply (bool_decide_unpack _). vm_compute. exact I.
Defined.

End witnesses.
