(* ===== verification/ValidatorSet.v ===== *)
(** * The validator set (struct [ValidatorSet] of src/rust-core/src/bft/node.rs)

    Proposer rotation and quorums.  A Rust panic (division by the length of an
    empty validator list) is the result [None]. *)

From Stdlib Require Import ZArith Lia Strings.Byte.
From stdpp Require Import base gmap list fin_sets.
From S2P Require Import Prelude Crypto BftTypes.

Record ValidatorSet := mkValidatorSet {
  vs_validators : list ValidatorInfo;
  vs_by_id : gmap NodeId ValidatorInfo;
  vs_quorum_power : Z;
}.

Definition index_validator (m : gmap NodeId ValidatorInfo) (v : ValidatorInfo)
    : gmap NodeId ValidatorInfo :=
  <[vi_node_id v := v]> m.

Definition by_id_of (validators : list ValidatorInfo) : gmap NodeId ValidatorInfo :=
  foldl index_validator ∅ validators.

(** [f] of [ValidatorSet::new]. *)
Definition max_faulty (n : nat) : nat := ((n - 1) / 3)%nat.

Definition ValidatorSet_new (validators : list ValidatorInfo) : ValidatorSet :=
  let f := max_faulty (length validators) in
  let quorum := Z.of_nat (2 * f + 1) in
  mkValidatorSet validators (by_id_of validators) quorum.

Definition proposer_for (vs : ValidatorSet) (height round : Z) : option ValidatorInfo :=
  let n := Z.of_nat (length (vs_validators vs)) in
  if n =? 0 then None
  else vs_validators vs !! Z.to_nat (wrap64 (height + round) mod n).

Definition has_validator (vs : ValidatorSet) (node_id : NodeId) : bool :=
  bool_decide (is_Some (vs_by_id vs !! node_id)).

Definition pubkey_for (vs : ValidatorSet) (node_id : NodeId) : option PublicKey :=
  vi_pubkey <$> vs_by_id vs !! node_id.

(** The loop of [quorum_met], over the votes in a given iteration order. *)
Definition votes_power (vs : ValidatorSet) (order : list NodeId) : Z :=
  foldl (fun power id =>
    match vs_by_id vs !! id with
    | Some v => saturating_add power (vi_power v)
    | None => power
    end) 0 order.

Definition quorum_met (vs : ValidatorSet) (votes : gset NodeId) : bool :=
  vs_quorum_power vs <=? votes_power vs (elements votes).

(** ** The by-id index *)

Lemma by_id_of_lookup_gen (validators : list ValidatorInfo) (m : gmap NodeId ValidatorInfo) id v :
  foldl index_validator m validators !! id = Some v ->
  (v ∈ validators /\ vi_node_id v = id) \/ m !! id = Some v.
Proof.
  revert m. induction validators as [|w ws IH]; intros m; simpl; [by right|].
  intros [[? ?]|Hw]%IH; [left; split; [set_solver|done]|].
  unfold index_validator in Hw.
  apply lookup_insert_Some in Hw as [[<- <-]|[_ ?]]; [left|by right]. split; [set_solver|done].
Qed.

Lemma by_id_of_dom_gen (validators : list ValidatorInfo) (m : gmap NodeId ValidatorInfo) :
  dom (foldl index_validator m validators)
  = list_to_set (map vi_node_id validators) ∪ dom m.
Proof.
  revert m. induction validators as [|w ws IH]; intros m; simpl; [set_solver|].
  unfold index_validator. rewrite IH, dom_insert_L. set_solver.
Qed.

Lemma by_id_of_lookup validators id v :
  by_id_of validators !! id = Some v -> v ∈ validators /\ vi_node_id v = id.
Proof. intros [?|?]%by_id_of_lookup_gen; [done|]. by rewrite lookup_empty in *. Qed.

Lemma by_id_of_dom validators :
  dom (by_id_of validators) = list_to_set (map vi_node_id validators).
Proof. unfold by_id_of. rewrite by_id_of_dom_gen. set_solver. Qed.

(** ** Vote counting *)

(** The power of one vote. *)
Definition vote_power (vs : ValidatorSet) (id : NodeId) : Z :=
  match vs_by_id vs !! id with
  | Some v => vi_power v
  | None => 0
  end.

Definition powers_ok (vs : ValidatorSet) : Prop :=
  forall id v, vs_by_id vs !! id = Some v -> 0 <= vi_power v.

Definition sum_power (vs : ValidatorSet) (order : list NodeId) : Z :=
  foldr (fun id s => vote_power vs id + s) 0 order.

Lemma vote_power_nonneg vs id : powers_ok vs -> 0 <= vote_power vs id.
Proof. intros Hp. unfold vote_power. destruct (vs_by_id vs !! id) eqn:E; [|lia]. by eapply Hp. Qed.

Lemma sum_power_nonneg vs order : powers_ok vs -> 0 <= sum_power vs order.
Proof.
  intros Hp. induction order as [|id order IH]; simpl; [lia|].
  pose proof (vote_power_nonneg vs id Hp). lia.
Qed.

(** The saturating loop computes the capped sum. *)
Lemma votes_power_sum vs order :
  powers_ok vs -> votes_power vs order = Z.min (sum_power vs order) u64_max.
Proof.
  intros Hp. unfold votes_power.
  assert (forall acc, 0 <= acc <= u64_max ->
    foldl (fun power id => match vs_by_id vs !! id with
      | Some v => saturating_add power (vi_power v) | None => power end) acc order
    = Z.min (acc + sum_power vs order) u64_max) as Hgen.
  { induction order as [|id order IH]; intros acc Hacc; simpl; [lia|].
    pose proof (sum_power_nonneg vs order Hp). pose proof (vote_power_nonneg vs id Hp) as Hv.
    unfold vote_power in *. destruct (vs_by_id vs !! id) as [v|].
    - unfold saturating_add. rewrite IH by (unfold u64_max in *; lia). lia.
    - rewrite IH by done. f_equal. }
  apply Hgen. unfold u64_max. lia.
Qed.

Lemma sum_power_perm vs o1 o2 : o1 ≡ₚ o2 -> sum_power vs o1 = sum_power vs o2.
Proof. induction 1; simpl; lia. Qed.

(** With unit powers the power of a set of votes is the number of validators
    in it. *)
Lemma sum_power_unit vs order :
  (forall id v, vs_by_id vs !! id = Some v -> vi_power v = 1) ->
  sum_power vs order = Z.of_nat (length (filter (fun id => id ∈ dom (vs_by_id vs)) order)).
Proof.
  intros Hu. induction order as [|id order IH]; simpl; [done|].
  rewrite filter_cons, IH. unfold vote_power. destruct (vs_by_id vs !! id) as [v|] eqn:E.
  - rewrite (Hu _ _ E), decide_True by (apply elem_of_dom; eauto). simpl. lia.
  - rewrite decide_False by (by apply not_elem_of_dom). lia.
Qed.

Lemma filter_elements_size (X Y : gset NodeId) :
  length (filter (fun id => id ∈ Y) (elements X)) = size (X ∩ Y).
Proof.
  transitivity (size (list_to_set (C := gset NodeId) (filter (fun id => id ∈ Y) (elements X)))).
  - rewrite size_list_to_set; [done|]. apply NoDup_filter, NoDup_elements.
  - f_equal. apply set_eq. intros x.
    rewrite elem_of_list_to_set, list_elem_of_filter, elem_of_elements. set_solver.
Qed.

Lemma size_list_to_set_le (l : list NodeId) :
  (size (list_to_set (C := gset NodeId) l) <= length l)%nat.
Proof.
  induction l as [|x l IH]; simpl; [done|].
  rewrite size_union_alt, size_singleton.
  assert (size (list_to_set l ∖ {[x]} : gset NodeId) <= size (list_to_set l : gset NodeId))%nat
    by (apply subseteq_size; set_solver). lia.
Qed.

Definition unit_powers (validators : list ValidatorInfo) : Prop :=
  Forall (fun v => vi_power v = 1) validators.

Lemma unit_powers_by_id validators :
  unit_powers validators ->
  forall id v, by_id_of validators !! id = Some v -> vi_power v = 1.
Proof.
  intros Hu id v [Hin _]%by_id_of_lookup. by eapply Forall_forall in Hu.
Qed.

Lemma quorum_met_unit validators votes :
  unit_powers validators ->
  quorum_met (ValidatorSet_new validators) votes = true ->
  (2 * max_faulty (length validators) + 1
    <= size (votes ∩ list_to_set (map vi_node_id validators)))%nat.
Proof.
  intros Hu. unfold quorum_met. intros Hq%Z.leb_le.
  rewrite votes_power_sum in Hq.
  2:{ intros id v E. simpl in E. rewrite (unit_powers_by_id _ Hu _ _ E). lia. }
  rewrite sum_power_unit in Hq by (apply unit_powers_by_id, Hu).
  rewrite filter_elements_size in Hq. simpl in Hq. rewrite by_id_of_dom in Hq. lia.
Qed.

(** Quorums are counted from the set of voters alone: the verdict is the
    same whatever order the votes are iterated in, it is monotone in the set,
    and votes of strangers never count. *)
Theorem quorum_met_set vs votes1 votes2 order :
  powers_ok vs ->
  (order ≡ₚ elements votes1 ->
   quorum_met vs votes1 = (vs_quorum_power vs <=? votes_power vs order)) /\
  (votes1 ⊆ votes2 -> quorum_met vs votes1 = true -> quorum_met vs votes2 = true) /\
  (quorum_met vs votes1 = quorum_met vs (votes1 ∩ dom (vs_by_id vs))).
Proof.
  intros Hp. unfold quorum_met. split; [|split].
  - intros E. by rewrite !votes_power_sum, (sum_power_perm _ _ _ E).
  - intros Hsub. rewrite !votes_power_sum, !Z.leb_le by done.
    assert (elements votes2 ≡ₚ elements votes1 ++ elements (votes2 ∖ votes1)) as E.
    { rewrite <- elements_disj_union by set_solver. apply elements_proper.
      apply set_equiv. intros x. destruct (decide (x ∈ votes1)); set_solver. }
    rewrite (sum_power_perm _ _ _ E).
    assert (forall o1 o2, sum_power vs o1 <= sum_power vs (o1 ++ o2)) as Happ.
    { intros o1 o2. induction o1 as [|x o1 IH]; simpl; [by apply sum_power_nonneg|lia]. }
    specialize (Happ (elements votes1) (elements (votes2 ∖ votes1))). lia.
  - rewrite !votes_power_sum by done. do 2 f_equal.
    assert (forall o, sum_power vs o = sum_power vs (filter (fun id => id ∈ dom (vs_by_id vs)) o))
      as Hf.
    { induction o as [|x o IH]; [done|]. rewrite filter_cons. simpl. rewrite IH.
      case_decide as Hd; simpl; [done|]. unfold vote_power.
      apply not_elem_of_dom in Hd. by rewrite Hd. }
    rewrite Hf. apply sum_power_perm. apply NoDup_Permutation.
    + apply NoDup_filter, NoDup_elements.
    + apply NoDup_elements.
    + intros x. rewrite list_elem_of_filter, !elem_of_elements. set_solver.
Qed.

(** Two quorums of [3f + 1] unit-power validators overlap in [f + 1] of them. *)
Lemma quorum_overlap validators f votes1 votes2 :
  length validators = (3 * f + 1)%nat -> unit_powers validators ->
  quorum_met (ValidatorSet_new validators) votes1 = true ->
  quorum_met (ValidatorSet_new validators) votes2 = true ->
  (f + 1 <= size (votes1 ∩ votes2 ∩ list_to_set (map vi_node_id validators)))%nat.
Proof.
  intros Hn Hu Q1%quorum_met_unit Q2%quorum_met_unit; [|done..].
  set (V := list_to_set (map vi_node_id validators) : gset NodeId) in *.
  assert (max_faulty (length validators) = f) as Hf.
  { rewrite Hn. unfold max_faulty. replace (3 * f + 1 - 1)%nat with (f * 3)%nat by lia.
    by apply Nat.div_mul. }
  rewrite Hf in *.
  assert (size V <= 3 * f + 1)%nat as HV.
  { rewrite <- Hn. transitivity (length (map vi_node_id validators)).
    - apply size_list_to_set_le.
    - by rewrite length_map. }
  assert (size (votes1 ∩ V ∪ votes2 ∩ V) <= size V)%nat as Hun
    by (apply subseteq_size; set_solver).
  pose proof (size_union_alt (votes1 ∩ V) (votes2 ∩ V)) as Hsum.
  assert (size (votes2 ∩ V)
    = size ((votes2 ∩ V) ∖ (votes1 ∩ V)) + size (votes1 ∩ votes2 ∩ V))%nat as Hsplit.
  { rewrite <- size_union by set_solver. f_equal. apply set_eq. intros x.
    destruct (decide (x ∈ votes1)); set_solver. }
  lia.
Qed.

(** C13: quorum intersection: with unit powers and [n = 3f + 1] distinct
    validators, two sets of voters that both reach the quorum share at least
    [f + 1] validators, so at least one that is not among [f] faulty ones. *)
Theorem quorum_intersection validators f votes1 votes2 :
  length validators = (3 * f + 1)%nat -> unit_powers validators ->
  quorum_met (ValidatorSet_new validators) votes1 = true ->
  quorum_met (ValidatorSet_new validators) votes2 = true ->
  (f + 1 <= size (votes1 ∩ votes2 ∩ list_to_set (map vi_node_id validators)))%nat.
Proof. apply quorum_overlap. Qed.

(** Proposer rotation is fair: over any [n] consecutive rounds of a height
    each of the [n] validators is the proposer of exactly one of them. *)
Theorem proposer_rotation vs height round i v :
  vs_validators vs !! i = Some v ->
  0 <= height -> 0 <= round ->
  height + round + Z.of_nat (length (vs_validators vs)) <= u64_max ->
  exists k, (k < length (vs_validators vs))%nat /\
    proposer_for vs height (round + Z.of_nat k) = Some v /\
    forall k', (k' < length (vs_validators vs))%nat ->
      wrap64 (height + (round + Z.of_nat k')) mod Z.of_nat (length (vs_validators vs))
      = Z.of_nat i -> k' = k.
Proof.
  intros Hi Hh Hr Hov. pose proof (lookup_lt_Some _ _ _ Hi) as Hlt.
  set (n := Z.of_nat (length (vs_validators vs))) in *.
  assert (0 < n) as Hn by lia.
  exists (Z.to_nat ((Z.of_nat i - (height + round)) mod n)).
  pose proof (Z.mod_pos_bound (Z.of_nat i - (height + round)) n Hn) as Hb.
  assert ((height + (round + (Z.of_nat i - (height + round)) mod n)) mod n = Z.of_nat i) as Hm.
  { rewrite Z.add_assoc, Z.add_mod_idemp_r by lia.
    replace (height + round + (Z.of_nat i - (height + round))) with (Z.of_nat i) by lia.
    apply Z.mod_small. lia. }
  split; [lia|]. split.
  - unfold proposer_for. fold n. rewrite (proj2 (Z.eqb_neq n 0)) by lia.
    rewrite wrap64_small, Z2Nat.id, Hm, Nat2Z.id by (unfold is_u64; lia). done.
  - intros k' Hk' E. rewrite wrap64_small in E by (unfold is_u64; lia).
    apply Nat2Z.inj. rewrite Z2Nat.id by lia.
    rewrite <- E, Zminus_mod_idemp_l.
    replace (height + (round + Z.of_nat k') - (height + round)) with (Z.of_nat k') by lia.
    symmetry. apply Z.mod_small. lia.
Qed.

(** ** Concrete sets *)

Section examples.

Definition demo_id (b : byte) : NodeId := replicate 32 b.

Definition demo_info (power : Z) (b : byte) : ValidatorInfo :=
  mkValidatorInfo (demo_id b) (demo_id b) [] power 1000000 None.

Definition demo_four : list ValidatorInfo := map (demo_info 1) [x01; x02; x03; x04].
Definition demo_six : list ValidatorInfo := map (demo_info 1) [x01; x02; x03; x04; x05; x06].

Definition ids (l : list byte) : gset NodeId := list_to_set (map demo_id l).

Lemma quorum_met_set_witness :
  quorum_met (ValidatorSet_new demo_four) (ids [x01; x02; x03])
  = quorum_met (ValidatorSet_new demo_four)
      (ids [x01; x02; x03] ∩ dom (vs_by_id (ValidatorSet_new demo_four))).
Proof.
  refine (proj2 (proj2 (quorum_met_set (ValidatorSet_new demo_four) (ids [x01; x02; x03])
    (ids [x01; x02; x03]) [] _))).
  intros id v E. rewrite (unit_powers_by_id demo_four ltac:(repeat constructor) id v E). lia.
Defined.

Lemma quorum_intersection_witness :
  (2 <= size (ids [x01; x02; x03] ∩ ids [x02; x03; x04]
              ∩ list_to_set (map vi_node_id demo_four)))%nat.
Proof.
  apply (quorum_intersection demo_four 1); [reflexivity|repeat constructor|..];
    vm_compute; reflexivity.
Defined.

Lemma proposer_rotation_witness :
  exists k, (k < 4)%nat /\
    proposer_for (ValidatorSet_new demo_four) 5 (2 + Z.of_nat k) = Some (demo_info 1 x03) /\
    forall k', (k' < 4)%nat ->
      wrap64 (5 + (2 + Z.of_nat k')) mod 4 = 2 -> k' = k.
Proof.
  apply (proposer_rotation (ValidatorSet_new demo_four) 5 2 2 (demo_info 1 x03));
    [reflexivity|lia|lia|vm_compute; discriminate].
Defined.

(** The quorum is [2f + 1] with [f = (n - 1) / 3] whatever [n] is, which
    gives no intersection when [n] is not of the form [3f + 1]: among six
    validators of power one, two disjoint sets of three both reach the
    quorum. *)
Theorem six_validators_disjoint_quorums :
  quorum_met (ValidatorSet_new demo_six) (ids [x01; x02; x03]) = true /\
  quorum_met (ValidatorSet_new demo_six) (ids [x04; x05; x06]) = true /\
  ids [x01; x02; x03] ∩ ids [x04; x05; x06] = ∅.
Proof. split; [|split]; vm_compute; reflexivity. Qed.

(** The threshold counts validators while votes are weighted by power: a
    validator of power three among four is a quorum on its own. *)
Theorem heavy_validator_is_quorum :
  quorum_met
    (ValidatorSet_new [demo_info 3 x01; demo_info 1 x02; demo_info 1 x03; demo_info 1 x04])
    (ids [x01]) = true.
Proof. vm_compute. reflexivity. Qed.

End examples.
