(* ===== verification/ApplyBlock.v ===== *)
(** * Applying a block to the ledger ([Node::apply_block] of bft/node.rs)

    Both builds of the function: the sequential one (a dry run over copies,
    then the real run) and the one behind the [parallel] feature (independent
    validation against the state before the block, then sequential
    application).  The state they mutate is the node's ledger and its
    per-author validation contexts; a failing call returns the state it leaves
    behind together with the error. *)

From Stdlib Require Import ZArith Lia Strings.Byte.
From stdpp Require Import base gmap list.
From S2P Require Import Prelude Crypto Event Ledger Validation BftTypes.

(** The two fields of [Node] that [apply_block] uses. *)
Record ChainState := mkChainState {
  cs_ledger : Ledger;
  cs_vctx : gmap PublicKey ValidationContext;
}.

Inductive ApplyError :=
| DecodeFailed (e : DecodeError)
| ValidateFailed (e : ValidationError)
| DuplicateInBlock
| MissingParentInBlock
| LinkFailed (e : LedgerLinkError).

Section apply.
Context `{Sha256} `{Ed25519} (skew : Z).

(** [vctx.entry(author).or_insert_with(ValidationContext::new)]. *)
Definition ctx_of (vctx : gmap PublicKey ValidationContext) (author : PublicKey)
    : ValidationContext :=
  default ValidationContext_new (vctx !! author).

(** ** Sequential build *)

(** First loop: validate on copies of the contexts and of the known hashes. *)
Fixpoint check_txs (txs : list Tx) (vctx : gmap PublicKey ValidationContext)
    (known : gset Hash) : result unit ApplyError :=
  match txs with
  | [] => Ok tt
  | tx :: rest =>
      let? ev := map_err DecodeFailed (decode_event tx) in
      let? ctx := map_err ValidateFailed (validate_event skew ev (ctx_of vctx (ev_author ev))) in
      let h := hash_event ev in
      if decide (h ∈ known) then Err DuplicateInBlock
      else if decide (ev_prev_hash ev <> ZERO_HASH /\ ev_prev_hash ev ∉ known)
      then Err MissingParentInBlock
      else check_txs rest (<[ev_author ev := ctx]> vctx) ({[h]} ∪ known)
  end.

(** Second loop: the same on the real state. *)
Fixpoint apply_txs (txs : list Tx) (st : ChainState) : ChainState * result unit ApplyError :=
  match txs with
  | [] => (st, Ok tt)
  | tx :: rest =>
      match decode_event tx with
      | Err e => (st, Err (DecodeFailed e))
      | Ok ev =>
          let ctx := ctx_of (cs_vctx st) (ev_author ev) in
          match validate_event skew ev ctx with
          | Err e =>
              (mkChainState (cs_ledger st) (<[ev_author ev := ctx]> (cs_vctx st)),
               Err (ValidateFailed e))
          | Ok ctx' =>
              let vctx' := <[ev_author ev := ctx']> (cs_vctx st) in
              match try_add_event (cs_ledger st) ev with
              | Err e => (mkChainState (cs_ledger st) vctx', Err (LinkFailed e))
              | Ok (l', _) => apply_txs rest (mkChainState l' vctx')
              end
          end
      end
  end.

Definition apply_block (block : Block) (st : ChainState) : ChainState * result unit ApplyError :=
  match check_txs (bl_txs block) (cs_vctx st) (hashes_set (cs_ledger st)) with
  | Err e => (st, Err e)
  | Ok _ => apply_txs (bl_txs block) st
  end.

(** ** Parallel build *)

(** The closure run on every transaction: contexts and known hashes are those
    before the block. *)
Definition par_check (vctx : gmap PublicKey ValidationContext) (known : gset Hash) (tx : Tx)
    : result (Event * Hash) ApplyError :=
  let? ev := map_err DecodeFailed (decode_event tx) in
  let? _ := map_err ValidateFailed (validate_event skew ev (ctx_of vctx (ev_author ev))) in
  let h := hash_event ev in
  if decide (h ∈ known) then Err DuplicateInBlock
  else if decide (ev_prev_hash ev <> ZERO_HASH /\ ev_prev_hash ev ∉ known)
  then Err MissingParentInBlock
  else Ok (ev, h).

(** [collect] into a [Result]: all values in order, or an error. *)
Fixpoint par_collect (vctx : gmap PublicKey ValidationContext) (known : gset Hash)
    (txs : list Tx) : result (list (Event * Hash)) ApplyError :=
  match txs with
  | [] => Ok []
  | tx :: rest =>
      let? x := par_check vctx known tx in
      let? xs := par_collect vctx known rest in
      Ok (x :: xs)
  end.

(** The application loop: the timestamp context is raised without validating
    again. *)
Fixpoint par_apply (validated : list (Event * Hash)) (st : ChainState)
    : ChainState * result unit ApplyError :=
  match validated with
  | [] => (st, Ok tt)
  | (ev, _) :: rest =>
      let ctx := ctx_of (cs_vctx st) (ev_author ev) in
      let ctx' := if last_timestamp ctx <? ev_timestamp ev
                  then mkValidationContext (ev_timestamp ev) else ctx in
      let vctx' := <[ev_author ev := ctx']> (cs_vctx st) in
      match try_add_event (cs_ledger st) ev with
      | Err e => (mkChainState (cs_ledger st) vctx', Err (LinkFailed e))
      | Ok (l', _) => par_apply rest (mkChainState l' vctx')
      end
  end.

Definition apply_block_parallel (block : Block) (st : ChainState)
    : ChainState * result unit ApplyError :=
  match par_collect (cs_vctx st) (hashes_set (cs_ledger st)) (bl_txs block) with
  | Err e => (st, Err e)
  | Ok validated => par_apply validated st
  end.

(** ** The reference effect of an accepted block *)

(** One accepted event: stored in the ledger, the author's context raised to
    its timestamp. *)
Definition accept_event (st : ChainState) (ev : Event) : ChainState :=
  mkChainState (fst (add_event (cs_ledger st) ev))
    (<[ev_author ev := mkValidationContext
        (Z.max (last_timestamp (ctx_of (cs_vctx st) (ev_author ev))) (ev_timestamp ev))]>
      (cs_vctx st)).

(** One event is acceptable in a state. *)
Definition acceptable (st : ChainState) (ev : Event) : Prop :=
  ev_version ev = PROTOCOL_VERSION /\ signature_ok ev = true /\
  last_timestamp (ctx_of (cs_vctx st) (ev_author ev))
    <= saturating_add (ev_timestamp ev) skew /\
  hash_event ev ∉ hashes_set (cs_ledger st) /\
  (ev_prev_hash ev = ZERO_HASH \/ ev_prev_hash ev ∈ hashes_set (cs_ledger st)).

(** A block's events are acceptable one after the other. *)
Fixpoint acceptable_run (st : ChainState) (evs : list Event) : Prop :=
  match evs with
  | [] => True
  | ev :: rest => acceptable st ev /\ acceptable_run (accept_event st ev) rest
  end.

Definition decodes (txs : list Tx) (evs : list Event) : Prop :=
  Forall2 (fun tx ev => decode_event tx = Ok ev) txs evs.

Lemma hashes_accept st ev :
  hashes_set (cs_ledger (accept_event st ev)) = {[hash_event ev]} ∪ hashes_set (cs_ledger st).
Proof. unfold hashes_set, accept_event. simpl. apply dom_insert_L. Qed.

Lemma not_in_hashes l h : h ∉ hashes_set l <-> events l !! h = None.
Proof. unfold hashes_set. apply not_elem_of_dom. Qed.

Lemma in_hashes l h : h ∈ hashes_set l <-> is_Some (events l !! h).
Proof. unfold hashes_set. apply elem_of_dom. Qed.

Lemma linked_dec ev known :
  ~ (ev_prev_hash ev <> ZERO_HASH /\ ev_prev_hash ev ∉ known) <->
  ev_prev_hash ev = ZERO_HASH \/ ev_prev_hash ev ∈ (known : gset Hash).
Proof.
  destruct (decide (ev_prev_hash ev = ZERO_HASH)), (decide (ev_prev_hash ev ∈ known)); naive_solver.
Qed.

(** The dry run decides exactly the acceptability of the decoded block. *)
Lemma check_txs_spec txs st :
  check_txs txs (cs_vctx st) (hashes_set (cs_ledger st)) = Ok tt <->
  exists evs, decodes txs evs /\ acceptable_run st evs.
Proof.
  revert st. induction txs as [|tx txs IH]; intros st; simpl.
  { split; [intros _; exists []; by split; [constructor|]|done]. }
  split.
  - destruct (decode_event tx) as [ev|] eqn:Ed; simpl; [|done].
    destruct (validate_event skew ev _) as [ctx|] eqn:Ev; simpl; [|done].
    apply validate_event_ok in Ev as (Hv & Hs & Ht & ->).
    case_decide as Hh; [done|]. case_decide as Hl; [done|].
    apply linked_dec in Hl. intros E.
    change (<[ev_author ev := _]> (cs_vctx st)) with (cs_vctx (accept_event st ev)) in E.
    rewrite <- hashes_accept in E. apply IH in E as (evs & Hd & Hr).
    exists (ev :: evs). split; [by constructor|]. by repeat split.
  - intros (evs & Hd & Hr). inversion Hd as [|? ev ? evs' Ed Hd']; subst.
    destruct Hr as [(Hv & Hs & Ht & Hh & Hl) Hr]. rewrite Ed. simpl.
    rewrite (proj2 (validate_event_ok skew ev _ _)) by (repeat split; eauto). simpl.
    rewrite decide_False by done. rewrite decide_False by (by apply linked_dec).
    rewrite <- hashes_accept.
    change (<[ev_author ev := _]> (cs_vctx st)) with (cs_vctx (accept_event st ev)).
    apply IH. eauto.
Qed.

(** The real run on an acceptable block succeeds with the reference effect. *)
Lemma apply_txs_accepts txs evs st :
  decodes txs evs -> acceptable_run st evs ->
  apply_txs txs st = (foldl accept_event st evs, Ok tt).
Proof.
  intros Hd. revert st. induction Hd as [|tx ev txs evs Ed _ IH]; intros st; simpl; [done|].
  intros [(Hv & Hs & Ht & Hh & Hl) Hr]. rewrite Ed.
  rewrite (proj2 (validate_event_ok skew ev _ _)) by (repeat split; eauto).
  rewrite try_add_event_accepts.
  - by apply IH.
  - by apply not_in_hashes.
  - destruct Hl as [|Hl%in_hashes]; auto.
Qed.

Lemma apply_block_accepts block evs st :
  decodes (bl_txs block) evs -> acceptable_run st evs ->
  apply_block block st = (foldl accept_event st evs, Ok tt).
Proof.
  intros Hd Hr. unfold apply_block.
  rewrite (proj2 (check_txs_spec (bl_txs block) st)) by eauto. by apply apply_txs_accepts.
Qed.

Lemma apply_block_cases block st :
  (exists evs, decodes (bl_txs block) evs /\ acceptable_run st evs /\
     apply_block block st = (foldl accept_event st evs, Ok tt)) \/
  (exists e, apply_block block st = (st, Err e)).
Proof.
  destruct (check_txs (bl_txs block) (cs_vctx st) (hashes_set (cs_ledger st))) as [[]|e] eqn:E.
  - left. pose proof E as (evs & Hd & Hr)%check_txs_spec.
    exists evs. eauto using apply_block_accepts.
  - right. exists e. unfold apply_block. by rewrite E.
Qed.

(** C7: the sequential [apply_block] is atomic and exact: it succeeds exactly
    when every transaction decodes to an event that is acceptable after the
    ones before it, and then its effect is to accept those events in order;
    when it fails the ledger and the contexts are untouched (the second loop
    never fails half-way). *)
Theorem apply_block_atomic block st :
  match apply_block block st with
  | (st', Ok _) =>
      exists evs, decodes (bl_txs block) evs /\ acceptable_run st evs /\
        st' = foldl accept_event st evs
  | (st', Err _) =>
      st' = st /\ ~ exists evs, decodes (bl_txs block) evs /\ acceptable_run st evs
  end.
Proof.
  destruct (apply_block_cases block st) as [(evs & Hd & Hr & ->)|(e & E)]; [by eauto|].
  rewrite E. split; [done|]. intros (evs & Hd & Hr).
  rewrite (apply_block_accepts _ _ _ Hd Hr) in E. done.
Qed.

(** *** The ledger after a block *)

Lemma LedgerInv_accept st ev :
  LedgerInv (cs_ledger st) -> acceptable st ev -> LedgerInv (cs_ledger (accept_event st ev)).
Proof.
  intros Hinv (_ & _ & _ & Hh & Hl). apply LedgerInv_insert; [done|by apply not_in_hashes|].
  destruct Hl as [|Hl%in_hashes]; auto.
Qed.

Lemma LedgerInv_apply_block block st st' :
  LedgerInv (cs_ledger st) -> apply_block block st = (st', Ok tt) -> LedgerInv (cs_ledger st').
Proof.
  intros Hinv E. destruct (apply_block_cases block st) as [(evs & _ & Hr & E')|(e & E')];
    rewrite E in E'; [|done].
  injection E' as ->. clear E. revert st Hinv Hr.
  induction evs as [|ev evs IH]; intros st Hinv; simpl; [done|]. intros [Ha Hr].
  apply IH; eauto using LedgerInv_accept.
Qed.

Lemma hashes_accept_run st evs :
  hashes_set (cs_ledger (foldl accept_event st evs))
  = list_to_set (map hash_event evs) ∪ hashes_set (cs_ledger st).
Proof.
  revert st. induction evs as [|ev evs IH]; intros st; simpl; [set_solver|].
  rewrite IH, hashes_accept. set_solver.
Qed.

(** ** Sequential against parallel *)

Lemma par_collect_spec vctx known txs validated :
  par_collect vctx known txs = Ok validated <->
  Forall2 (fun tx x => par_check vctx known tx = Ok x) txs validated.
Proof.
  revert validated. induction txs as [|tx txs IH]; intros validated; simpl.
  { split; [by intros [= <-]|]. by inversion 1. }
  rewrite result_bind_ok. split.
  - intros (x & Ex & (xs & Exs & [= <-])%result_bind_ok). constructor; [done|by apply IH].
  - inversion 1 as [|? x ? xs Ex Hxs]; subst. exists x. split; [done|].
    apply result_bind_ok. exists xs. split; [by apply IH|done].
Qed.

Lemma par_check_spec st tx ev h :
  par_check (cs_vctx st) (hashes_set (cs_ledger st)) tx = Ok (ev, h) <->
  decode_event tx = Ok ev /\ h = hash_event ev /\ acceptable st ev.
Proof.
  unfold par_check, acceptable. split.
  - destruct (decode_event tx) as [ev'|] eqn:Ed; simpl; [|done].
    destruct (validate_event skew ev' _) as [ctx|] eqn:Ev; simpl; [|done].
    apply validate_event_ok in Ev as (Hv & Hs & Ht & _).
    case_decide as Hh; [done|]. case_decide as Hl; [done|]. apply linked_dec in Hl.
    by intros [= <- <-].
  - intros (-> & -> & (Hv & Hs & Ht & Hh & Hl)). simpl.
    rewrite (proj2 (validate_event_ok skew ev _ _)) by (repeat split; eauto). simpl.
    rewrite decide_False by done. rewrite decide_False by (by apply linked_dec). done.
Qed.

(** Events of one block that do not depend on one another: different authors,
    and no parent inside the block. *)
Definition independent (evs : list Event) : Prop :=
  NoDup (map ev_author evs) /\
  forall e1 e2, e1 ∈ evs -> e2 ∈ evs -> ev_prev_hash e1 <> hash_event e2.

Lemma ctx_of_accept st ev author :
  author <> ev_author ev ->
  ctx_of (cs_vctx (accept_event st ev)) author = ctx_of (cs_vctx st) author.
Proof. intros Hne. unfold ctx_of, accept_event. simpl. by rewrite lookup_insert_ne. Qed.

(** Acceptability of an event does not change when an independent event with
    another hash is accepted first. *)
Lemma acceptable_frame st ev ev' :
  ev_author ev' <> ev_author ev -> ev_prev_hash ev' <> hash_event ev ->
  acceptable (accept_event st ev) ev' <->
  acceptable st ev' /\ hash_event ev' <> hash_event ev.
Proof.
  intros Ha Hp. unfold acceptable. rewrite ctx_of_accept, hashes_accept by done. set_solver.
Qed.

(** Events that the ledger links one after the other. *)
Fixpoint link_run (st : ChainState) (evs : list Event) : Prop :=
  match evs with
  | [] => True
  | ev :: rest =>
      hash_event ev ∉ hashes_set (cs_ledger st) /\
      (ev_prev_hash ev = ZERO_HASH \/ ev_prev_hash ev ∈ hashes_set (cs_ledger st)) /\
      link_run (accept_event st ev) rest
  end.

Lemma link_run_fresh st evs e :
  link_run st evs -> e ∈ evs -> hash_event e ∉ hashes_set (cs_ledger st).
Proof.
  revert st. induction evs as [|ev evs IH]; intros st; simpl; [set_solver|].
  intros (Hf & _ & Hr) [->|He]%elem_of_cons; [done|].
  apply (IH _ Hr) in He. rewrite hashes_accept in He. set_solver.
Qed.

Lemma acceptable_run_links st evs : acceptable_run st evs -> link_run st evs.
Proof.
  revert st. induction evs as [|ev evs IH]; intros st; simpl; [done|].
  intros [(_ & _ & _ & Hh & Hl) Hr]. auto.
Qed.

Lemma acceptable_run_authors st evs :
  independent evs -> acceptable_run st evs -> Forall (acceptable st) evs.
Proof.
  revert st. induction evs as [|ev evs IH]; intros st [Hnd Hpar]; simpl; [done|].
  apply NoDup_cons in Hnd as [Hni Hnd]. intros [Ha Hr].
  constructor; [done|]. apply IH in Hr; [|split; [done|set_solver]].
  rewrite !Forall_forall in *. intros e He. specialize (Hr e He).
  apply acceptable_frame in Hr as [? _]; [done| |apply Hpar; set_solver].
  intros E. apply Hni. rewrite <- E. by apply list_elem_of_fmap_2.
Qed.

Lemma link_run_acceptable st evs :
  independent evs -> Forall (acceptable st) evs -> link_run st evs -> acceptable_run st evs.
Proof.
  revert st. induction evs as [|ev evs IH]; intros st [Hnd Hpar]; simpl; [done|].
  apply NoDup_cons in Hnd as [Hni Hnd]. intros [Ha Hall]%Forall_cons (_ & _ & Hr).
  split; [done|]. apply IH; [split; [done|set_solver]| |done].
  rewrite !Forall_forall in *. intros e He.
  apply acceptable_frame; [|apply Hpar; set_solver|].
  - intros E. apply Hni. rewrite <- E. by apply list_elem_of_fmap_2.
  - split; [auto|]. apply (link_run_fresh _ _ _ Hr) in He. rewrite hashes_accept in He. set_solver.
Qed.

(** The timestamp update of the parallel loop is the maximum. *)
Lemma raise_ctx (ctx : ValidationContext) t :
  (if last_timestamp ctx <? t then mkValidationContext t else ctx)
  = mkValidationContext (Z.max (last_timestamp ctx) t).
Proof.
  destruct ctx as [t0]. simpl. destruct (Z.ltb_spec t0 t); f_equal; lia.
Qed.

Lemma par_apply_spec validated st st' :
  par_apply validated st = (st', Ok tt) <->
  link_run st (map fst validated) /\ st' = foldl accept_event st (map fst validated).
Proof.
  revert st. induction validated as [|[ev h] xs IH]; intros st; simpl; [naive_solver|].
  rewrite raise_ctx.
  destruct (try_add_event_cases (cs_ledger st) ev)
    as [[Hdup ->]|[(Hf & Hz & Hm & ->)|(Hf & Hl & ->)]].
  - split; [done|]. intros [(Hn & _) _]. by apply in_hashes in Hdup.
  - split; [done|]. intros [(_ & [?|Hin%in_hashes] & _) _]; [done|].
    rewrite Hm in Hin. by destruct Hin.
  - change (mkChainState (fst (add_event (cs_ledger st) ev)) _) with (accept_event st ev).
    rewrite IH. rewrite not_in_hashes, in_hashes. tauto.
Qed.

Lemma par_collect_decodes st txs evs :
  decodes txs evs ->
  par_collect (cs_vctx st) (hashes_set (cs_ledger st)) txs
    = Ok (map (fun ev => (ev, hash_event ev)) evs) <-> Forall (acceptable st) evs.
Proof.
  intros Hd. rewrite par_collect_spec. induction Hd as [|tx ev txs evs Ed _ IH]; simpl.
  - split; constructor.
  - rewrite Forall_cons, <- IH, Forall2_cons, par_check_spec. naive_solver.
Qed.

Lemma par_collect_inv st txs validated :
  par_collect (cs_vctx st) (hashes_set (cs_ledger st)) txs = Ok validated ->
  exists evs, decodes txs evs /\ validated = map (fun ev => (ev, hash_event ev)) evs.
Proof.
  rewrite par_collect_spec. induction 1 as [|tx [ev h] txs xs Ex _ (evs & Hd & ->)].
  - exists []. by split; [constructor|].
  - apply par_check_spec in Ex as (Ed & -> & _). exists (ev :: evs). by split; [constructor|].
Qed.

Lemma map_fst_pairs (evs : list Event) :
  map fst (map (fun ev => (ev, hash_event ev)) evs) = evs.
Proof. rewrite map_map. apply map_id. Qed.

Lemma decodes_unique txs evs1 evs2 : decodes txs evs1 -> decodes txs evs2 -> evs1 = evs2.
Proof.
  intros H1. revert evs2. induction H1 as [|tx ev txs evs Ed _ IH]; intros evs2;
    inversion 1; subst; [done|]. f_equal; [congruence|auto].
Qed.

(** C33: the two builds agree on independent blocks: when the events of a block
    have pairwise different authors and no parent inside the block, the
    parallel build accepts exactly the blocks the sequential build accepts,
    with the same resulting state. *)
Theorem parallel_agrees_on_independent block evs st st' :
  decodes (bl_txs block) evs -> independent evs ->
  apply_block_parallel block st = (st', Ok tt) <-> apply_block block st = (st', Ok tt).
Proof.
  intros Hd Hind. unfold apply_block_parallel. split.
  - destruct (par_collect _ _ _) as [validated|] eqn:Ec; [|done].
    pose proof Ec as (evs' & Hd' & ->)%par_collect_inv.
    pose proof (decodes_unique _ _ _ Hd Hd'). subst evs'.
    apply par_collect_decodes in Ec; [|done].
    rewrite par_apply_spec, map_fst_pairs. intros [Hr ->].
    apply apply_block_accepts; [done|]. by apply link_run_acceptable.
  - intros E. destruct (apply_block_cases block st) as [(evs' & Hd' & Hr & E')|(e & E')];
      rewrite E in E'; [|done].
    injection E' as ->. pose proof (decodes_unique _ _ _ Hd Hd'). subst evs'.
    rewrite (proj2 (par_collect_decodes st _ _ Hd)) by (by apply acceptable_run_authors).
    apply par_apply_spec. rewrite map_fst_pairs. split; [by apply acceptable_run_links|done].
Qed.

End apply.

(** ** Concrete blocks *)

Section examples.
Import Toy.

Definition signed_by (sk : list byte) (prev : Hash) (ts : Z) (payload : byte) : Event :=
  let e := Event_new prev (toy_public sk) ts (replicate 32 payload) (replicate 64 x00) in
  Event_new prev (toy_public sk) ts (replicate 32 payload) (compute_signature_with_secret e sk).

Definition sk1 : list byte := replicate 32 x11.
Definition sk2 : list byte := replicate 32 x22.

Definition ev_root : Event := signed_by sk1 ZERO_HASH 100 x01.
Definition ev_child : Event := signed_by sk2 (hash_event ev_root) 101 x02.
Definition ev_old : Event := signed_by sk1 ZERO_HASH 1 x03.
Definition ev_other : Event := signed_by sk2 ZERO_HASH 7 x04.

Definition block_of (evs : list Event) : Block :=
  mkBlock (mkBlockHeader 1 0 ZERO_HASH ZERO_HASH ZERO_HASH 0) (map hash_material evs).

Definition empty_state : ChainState := mkChainState Ledger_new ∅.

Lemma demo_decodes evs : Forall wf_event evs -> decodes (bl_txs (block_of evs)) evs.
Proof.
  induction 1 as [|e evs He _ IH]; simpl; constructor; [by apply decode_hash_material|done].
Qed.

Lemma demo_independent : independent [ev_root; ev_other].
Proof.
  split; [apply (bool_decide_unpack _); vm_compute; exact I|].
  intros e1 e2 H1 H2. apply elem_of_cons in H1 as [->|H1%list_elem_of_singleton];
    apply elem_of_cons in H2 as [->|H2%list_elem_of_singleton]; subst; vm_compute; discriminate.
Qed.

Lemma parallel_agrees_on_independent_witness :
  apply_block_parallel 4 (block_of [ev_root; ev_other]) empty_state
    = (foldl accept_event empty_state [ev_root; ev_other], Ok tt) <->
  apply_block 4 (block_of [ev_root; ev_other]) empty_state
    = (foldl accept_event empty_state [ev_root; ev_other], Ok tt).
Proof.
  refine (parallel_agrees_on_independent 4 (block_of [ev_root; ev_other]) [ev_root; ev_other]
    empty_state _ (demo_decodes _ _) demo_independent).
  repeat constructor; vm_compute; try reflexivity; discriminate.
Defined.

(** The two builds are not interchangeable: a block holding an event and
    its child is committed by the sequential build and refused by the parallel
    one, and a block whose author steps back in time by more than the skew is
    committed by the parallel build and refused by the sequential one. *)
Theorem parallel_and_sequential_diverge :
  snd (apply_block 4 (block_of [ev_root; ev_child]) empty_state) = Ok tt /\
  snd (apply_block_parallel 4 (block_of [ev_root; ev_child]) empty_state)
    = Err MissingParentInBlock /\
  snd (apply_block 4 (block_of [ev_root; ev_old]) empty_state)
    = Err (ValidateFailed TimestampNonMonotonic) /\
  snd (apply_block_parallel 4 (block_of [ev_root; ev_old]) empty_state) = Ok tt.
Proof. repeat split; vm_compute; reflexivity. Qed.

End examples.
