(* ===== verification/Snapshot.v ===== *)
(** * Snapshots (struct [NodeSnapshot] of bft/node.rs, and bft/storage.rs)

    The view of the committed chain that the node shares with its HTTP server
    and writes to disk.  JSON (package [serde_json]) is an interface; a file is
    its bytes; whether a file-system call succeeds is an argument. *)

From Stdlib Require Import ZArith Lia Strings.Byte.
From stdpp Require Import base gmap list sorting.
From S2P Require Import Prelude Crypto BftTypes Slashing.

Record NodeSnapshot := mkNodeSnapshot {
  sn_height : Z;
  sn_tip_hash : Hash;
  sn_blocks_by_height : gmap Z Block;
  sn_blocks_by_hash : gmap Hash Block;
  sn_tx_index : gmap Hash (Hash * Z);
  sn_slashing_state : option SlashingState;
}.

Definition NodeSnapshot_new : NodeSnapshot := mkNodeSnapshot 0 ZERO_HASH ∅ ∅ ∅ None.

Record PersistedSnapshot := mkPersistedSnapshot {
  ps_height : Z;
  ps_tip_hash : Hash;
  ps_blocks : list Block;
  ps_slashing_state : option SlashingState;
}.

(** [sort_unstable] on heights. *)
Definition sort_heights (l : list Z) : list Z := merge_sort Z.le l.

(** The committed blocks by increasing height. *)
Definition chain_blocks (snapshot : NodeSnapshot) : list Block :=
  let heights := sort_heights (elements (dom (sn_blocks_by_height snapshot))) in
  omap (fun h => sn_blocks_by_height snapshot !! h) heights.

Definition snapshot_to_persisted (snapshot : NodeSnapshot) : PersistedSnapshot :=
  mkPersistedSnapshot (sn_height snapshot) (sn_tip_hash snapshot) (chain_blocks snapshot)
    (sn_slashing_state snapshot).

(** ** The snapshot file *)

(** A map with a key that JSON cannot write as a string.  The keys of the maps
    of [SlashingState] are byte arrays and a tuple, so every non-empty one of
    them is such a map. *)
Definition has_nonstring_keys (st : SlashingState) : bool :=
  bool_decide (stakes st <> ∅) || bool_decide (original_stakes st <> ∅)
  || bool_decide (jailed st <> ∅) || bool_decide (votes_by_validator st <> ∅).

(** [serde_json] on [PersistedSnapshot]: what is written is read back, and
    serialisation fails if the value contains a map with non-string keys. *)
Class SnapshotJson := {
  snapshot_to_vec : PersistedSnapshot -> option (list byte);
  snapshot_from_slice : list byte -> option PersistedSnapshot;
  snapshot_json_roundtrip : forall s data,
    snapshot_to_vec s = Some data -> snapshot_from_slice data = Some s;
  snapshot_json_string_keys : forall s st,
    ps_slashing_state s = Some st -> has_nonstring_keys st = true ->
    snapshot_to_vec s = None;
}.

(** [SnapshotStore]: the bytes at [path], if the file exists. *)
Record SnapshotStore := mkSnapshotStore { store_file : option (list byte) }.

Inductive StoreError := StoreIo | StoreJson.

(** [SnapshotStore::new]: [created] tells whether the directory exists or can
    be created, [file] is the snapshot file in it. *)
Definition SnapshotStore_new (created : bool) (file : option (list byte))
    : result SnapshotStore StoreError :=
  if created then Ok (mkSnapshotStore file) else Err StoreIo.

Section store.
Context `{SnapshotJson}.

(** [SnapshotStore::save]: serialise, write a temporary file, rename it over
    the old one. *)
Definition save (fs_ok : bool) (store : SnapshotStore) (snapshot : PersistedSnapshot)
    : SnapshotStore * result unit StoreError :=
  match snapshot_to_vec snapshot with
  | None => (store, Err StoreJson)
  | Some data =>
      if fs_ok then (mkSnapshotStore (Some data), Ok tt) else (store, Err StoreIo)
  end.

(** [SnapshotStore::load]. *)
Definition load (fs_ok : bool) (store : SnapshotStore)
    : result (option PersistedSnapshot) StoreError :=
  match store_file store with
  | None => Ok None
  | Some data =>
      if fs_ok then
        match snapshot_from_slice data with
        | Some snap => Ok (Some snap)
        | None => Err StoreJson
        end
      else Err StoreIo
  end.

Lemma save_load store snapshot store' :
  save true store snapshot = (store', Ok tt) -> load true store' = Ok (Some snapshot).
Proof.
  unfold save, load. destruct (snapshot_to_vec snapshot) as [data|] eqn:E; [|done].
  intros [= <-]. simpl. by rewrite (snapshot_json_roundtrip _ _ E).
Qed.

(** A failed save leaves the file as it was. *)
Lemma save_error fs_ok store snapshot store' e :
  save fs_ok store snapshot = (store', Err e) -> store' = store.
Proof. unfold save. intros E. run_in E; done. Qed.

End store.

(** ** Indexing a committed block *)

Section index.
Context `{Sha256}.

Definition index_txs (bh : Hash) (height : Z) (txs : list Tx) (m : gmap Hash (Hash * Z))
    : gmap Hash (Hash * Z) :=
  foldl (fun m tx => <[tx_hash tx := (bh, height)]> m) m txs.

(** The index updates that [commit_block] and [restore_from_store] share. *)
Definition index_block (snap : NodeSnapshot) (block : Block) : NodeSnapshot :=
  let bh := block_hash (bl_header block) in
  let h := hd_height (bl_header block) in
  mkNodeSnapshot (sn_height snap) (sn_tip_hash snap)
    (<[h := block]> (sn_blocks_by_height snap))
    (<[bh := block]> (sn_blocks_by_hash snap))
    (index_txs bh h (bl_txs block) (sn_tx_index snap))
    (sn_slashing_state snap).

(** The updates [commit_block] makes to the shared snapshot. *)
Definition snapshot_commit (snap : NodeSnapshot) (block : Block) : NodeSnapshot :=
  let snap := index_block snap block in
  mkNodeSnapshot (hd_height (bl_header block)) (block_hash (bl_header block))
    (sn_blocks_by_height snap) (sn_blocks_by_hash snap) (sn_tx_index snap)
    (sn_slashing_state snap).

(** The indexes are those of the chain's blocks, inserted in order. *)
Definition index_maps (snap : NodeSnapshot)
    : gmap Z Block * gmap Hash Block * gmap Hash (Hash * Z) :=
  (sn_blocks_by_height snap, sn_blocks_by_hash snap, sn_tx_index snap).

Lemma index_maps_block s1 s2 block :
  index_maps s1 = index_maps s2 -> index_maps (index_block s1 block) = index_maps (index_block s2 block).
Proof. unfold index_maps, index_block. simpl. by intros [= -> -> ->]. Qed.

Definition set_snapshot_slashing (snap : NodeSnapshot) (st : SlashingState) : NodeSnapshot :=
  mkNodeSnapshot (sn_height snap) (sn_tip_hash snap) (sn_blocks_by_height snap)
    (sn_blocks_by_hash snap) (sn_tx_index snap) (Some st).

(** The committed chain: heights [1 .. height], each block linked to the one
    below, the tip hash that of the last. *)
Definition hash_at (snap : NodeSnapshot) (h : Z) : Hash :=
  match sn_blocks_by_height snap !! h with
  | Some b => block_hash (bl_header b)
  | None => ZERO_HASH
  end.

Record ChainInv (snap : NodeSnapshot) : Prop := {
  chain_height : 0 <= sn_height snap;
  chain_domain : forall h, is_Some (sn_blocks_by_height snap !! h) <-> 1 <= h <= sn_height snap;
  chain_links : forall h b, sn_blocks_by_height snap !! h = Some b ->
    hd_height (bl_header b) = h /\
    hd_prev_block_hash (bl_header b) = hash_at snap (h - 1) /\
    hd_tx_root (bl_header b) = txs_root (bl_txs b);
  chain_tip : sn_tip_hash snap = hash_at snap (sn_height snap);
}.

Lemma hash_at_out snap h : ChainInv snap -> ~ 1 <= h <= sn_height snap -> hash_at snap h = ZERO_HASH.
Proof.
  intros Hc Hh. unfold hash_at. destruct (sn_blocks_by_height snap !! h) eqn:E; [|done].
  exfalso. apply Hh, (chain_domain _ Hc). by eexists.
Qed.

Lemma ChainInv_new : ChainInv NodeSnapshot_new.
Proof.
  split; simpl; [done| |done|done].
  intros h. rewrite lookup_empty. split; [by intros []|lia].
Qed.

Lemma ChainInv_commit snap block :
  ChainInv snap -> hd_height (bl_header block) = sn_height snap + 1 ->
  hd_prev_block_hash (bl_header block) = sn_tip_hash snap ->
  hd_tx_root (bl_header block) = txs_root (bl_txs block) ->
  ChainInv (snapshot_commit snap block).
Proof.
  intros Hc Hh Hp Ht. pose proof (chain_height _ Hc). split; simpl; rewrite ?Hh.
  - lia.
  - intros h. rewrite lookup_insert_is_Some', (chain_domain _ Hc). lia.
  - intros h b Hb.
    assert (hash_at (snapshot_commit snap block) (h - 1) = hash_at snap (h - 1)) as ->.
    { unfold hash_at. simpl. rewrite Hh, lookup_insert_ne; [done|]. intros E.
      apply lookup_insert_Some in Hb as [[? _]|[_ Hb]]; [lia|].
      assert (1 <= h <= sn_height snap) by (apply (chain_domain _ Hc); eauto). lia. }
    apply lookup_insert_Some in Hb as [[<- <-]|[_ Hb]].
    + split; [done|]. split; [|done]. rewrite Hp, (chain_tip _ Hc). f_equal. lia.
    + by apply (chain_links _ Hc).
  - unfold hash_at. simpl. by rewrite Hh, lookup_insert_eq.
Qed.

Lemma ChainInv_slashing snap st : ChainInv snap -> ChainInv (set_snapshot_slashing snap st).
Proof. by intros [? ? ? ?]. Qed.

(** The heights of the chain, in order. *)
Lemma sort_heights_chain snap :
  ChainInv snap ->
  sort_heights (elements (dom (sn_blocks_by_height snap))) = seqZ 1 (sn_height snap).
Proof.
  intros Hc. apply (StronglySorted_unique Z.le).
  - apply StronglySorted_merge_sort; apply _.
  - assert (forall k m, StronglySorted Z.le (seqZ m (Z.of_nat k))) as Hs.
    { induction k as [|k IH]; intros m; [constructor|].
      rewrite seqZ_cons by lia. replace (Z.pred (Z.of_nat (S k))) with (Z.of_nat k) by lia.
      constructor; [apply IH|]. apply Forall_forall. intros x Hx%elem_of_seqZ. lia. }
    rewrite <- (Z2Nat.id (sn_height snap)) by apply Hc. apply Hs.
  - unfold sort_heights. rewrite merge_sort_Permutation. apply NoDup_Permutation.
    + apply NoDup_elements.
    + apply NoDup_seqZ.
    + intros h. rewrite elem_of_elements, elem_of_dom, (chain_domain _ Hc), elem_of_seqZ. lia.
Qed.

Lemma chain_blocks_commit snap block :
  ChainInv snap -> hd_height (bl_header block) = sn_height snap + 1 ->
  hd_prev_block_hash (bl_header block) = sn_tip_hash snap ->
  hd_tx_root (bl_header block) = txs_root (bl_txs block) ->
  chain_blocks (snapshot_commit snap block) = chain_blocks snap ++ [block].
Proof.
  intros Hc Hh Hp Ht. unfold chain_blocks.
  rewrite (sort_heights_chain _ Hc), (sort_heights_chain _ (ChainInv_commit _ _ Hc Hh Hp Ht)).
  pose proof (chain_height _ Hc). simpl. rewrite Hh.
  rewrite seqZ_app, omap_app by lia. simpl. f_equal.
  - apply list_omap_ext, Forall_Forall2_diag, Forall_forall. intros h Hin%elem_of_seqZ.
    rewrite lookup_insert_ne by lia. done.
  - replace (Z.of_nat 0 + (1 + sn_height snap)) with (sn_height snap + 1) by lia.
    by rewrite lookup_insert_eq.
Qed.

Lemma chain_blocks_lookup snap k b :
  ChainInv snap ->
  chain_blocks snap !! k = Some b -> sn_blocks_by_height snap !! (Z.of_nat k + 1) = Some b.
Proof.
  intros Hc. unfold chain_blocks. rewrite (sort_heights_chain _ Hc).
  pose proof (chain_height _ Hc) as H0.
  assert (forall m l, 0 <= l -> (forall h, m <= h < m + l -> is_Some (sn_blocks_by_height snap !! h)) ->
    omap (fun h => sn_blocks_by_height snap !! h) (seqZ m l) !! k = Some b ->
    sn_blocks_by_height snap !! (m + Z.of_nat k) = Some b) as Hgen.
  { induction k as [|k IH]; intros m l Hl Hsome.
    all: destruct (decide (l = 0)) as [->|]; [done|].
    all: rewrite (seqZ_cons _ l) by lia; simpl.
    all: destruct (Hsome m ltac:(lia)) as [b' Hb']; rewrite Hb'; simpl.
    - intros [= ->]. by rewrite Z.add_0_r.
    - intros E. replace (m + Z.of_nat (S k)) with (Z.succ m + Z.of_nat k) by lia.
      apply (IH (Z.succ m) (Z.pred l)); [lia| |done]. intros h Hh. apply Hsome. lia. }
  intros E. rewrite Z.add_comm. apply (Hgen 1 (sn_height snap)); [done| |done].
  intros h Hh. apply (chain_domain _ Hc). lia.
Qed.

Lemma length_chain_blocks snap :
  ChainInv snap -> Z.of_nat (length (chain_blocks snap)) = sn_height snap.
Proof.
  intros Hc. unfold chain_blocks. rewrite (sort_heights_chain _ Hc).
  pose proof (chain_height _ Hc) as H0.
  assert (forall k m, (forall h, m <= h < m + Z.of_nat k -> is_Some (sn_blocks_by_height snap !! h)) ->
    length (omap (fun h => sn_blocks_by_height snap !! h) (seqZ m (Z.of_nat k))) = k) as Hgen.
  { induction k as [|k IH]; intros m Hsome; [done|].
    rewrite seqZ_cons by lia. simpl. destruct (Hsome m ltac:(lia)) as [b' Hb']. rewrite Hb'. simpl.
    f_equal. replace (Z.pred (Z.of_nat (S k))) with (Z.of_nat k) by lia. apply IH.
    intros h Hh. apply Hsome. lia. }
  rewrite <- (Z2Nat.id (sn_height snap)) by done. f_equal. apply Hgen.
  intros h Hh. apply (chain_domain _ Hc). lia.
Qed.

End index.
