(* ===== verification/Node.v ===== *)
(** * The consensus node (struct [Node] of src/rust-core/src/bft/node.rs)

    The node's state and every handler that changes it.  Conventions:
    - [net] is the list of messages the node has broadcast, oldest first;
    - the clocks ([Instant::now], in nanoseconds, and [now_ms]) and the success
      of a file-system write are read from an [Env] that is fixed during one
      handler call;
    - the [RwLock] around the snapshot is never poisoned: only the node writes
      it, and no code path panics while holding the write guard;
    - a handler returns [Done] with the new state, [Exited] when the source
      calls [process::exit(1)] and [Panicked] when it panics;
    - [handle_vote] and [broadcast_vote] call each other; the model of the
      recursion takes fuel, and NodeFacts.v shows the fuel never runs out. *)

From Stdlib Require Import ZArith Lia Strings.Byte.
From stdpp Require Import base gmap list sorting.
From S2P Require Import Prelude Crypto Event Ledger Merkle Validation BftTypes BftConfig Slashing.
From S2P Require Import ValidatorSet ApplyBlock Snapshot.

Inductive Step := SPropose | SPrevote | SPrecommit.

#[global] Instance Step_eq_dec : EqDecision Step.
Proof. solve_decision. Defined.

Record RoundState := mkRoundState {
  rs_proposal : option Proposal;
  rs_prevotes : gmap Hash (gset NodeId);
  rs_precommits : gmap Hash (gset NodeId);
  rs_proposed : bool;
}.

Definition RoundState_new : RoundState := mkRoundState None ∅ ∅ false.

(** What a handler reads from the outside: the monotonic clock, the wall
    clock, and whether writing the snapshot file succeeds. *)
Record Env := mkEnv {
  env_now : Z;
  env_now_ms : Z;
  env_fs_ok : bool;
}.

Inductive outcome (A : Type) :=
| Done (a : A)
| Exited
| Panicked
| OutOfFuel.
Arguments Done {A} a.
Arguments Exited {A}.
Arguments Panicked {A}.
Arguments OutOfFuel {A}.

Definition outcome_bind {A B} (m : outcome A) (k : A -> outcome B) : outcome B :=
  match m with
  | Done a => k a
  | Exited => Exited
  | Panicked => Panicked
  | OutOfFuel => OutOfFuel
  end.

Notation "'let!' x ':=' m 'in' k" := (outcome_bind m (fun x => k))
  (at level 10, x pattern, m at level 100, k at level 200) : dvel_scope.

Lemma outcome_bind_done {A B} (m : outcome A) (k : A -> outcome B) b :
  outcome_bind m k = Done b <-> exists a, m = Done a /\ k a = Done b.
Proof.
  destruct m as [a| | |]; simpl; split; try done; try (by intros (? & ? & ?)).
  - by exists a.
  - by intros (? & [= ->] & ?).
Qed.

Section node.
Context `{Sha256} `{Ed25519} `{Hex} `{SnapshotJson}.

Record Node := mkNode {
  n_genesis : GenesisConfig;
  n_validators : ValidatorSet;
  n_keypair : Keypair;
  n_node_id : NodeId;
  n_ledger : Ledger;
  n_vctx_by_author : gmap PublicKey ValidationContext;
  n_mempool : list Tx;
  n_mempool_bytes : Z;
  n_height : Z;
  n_round : Z;
  n_step : Step;
  n_round_start : Z;
  n_locked : option Hash;
  n_round_state : RoundState;
  n_snapshot : NodeSnapshot;
  n_net : list Message;
  n_store : option SnapshotStore;
  n_slashing_state : SlashingState;
}.

(** ** Field updates *)

Definition set_ledger (x : Ledger) (n : Node) : Node :=
  mkNode (n_genesis n) (n_validators n) (n_keypair n) (n_node_id n) x
    (n_vctx_by_author n) (n_mempool n) (n_mempool_bytes n) (n_height n) (n_round n)
    (n_step n) (n_round_start n) (n_locked n) (n_round_state n) (n_snapshot n)
    (n_net n) (n_store n) (n_slashing_state n).

Definition set_vctx_by_author (x : gmap PublicKey ValidationContext) (n : Node) : Node :=
  mkNode (n_genesis n) (n_validators n) (n_keypair n) (n_node_id n) (n_ledger n) x
    (n_mempool n) (n_mempool_bytes n) (n_height n) (n_round n) (n_step n)
    (n_round_start n) (n_locked n) (n_round_state n) (n_snapshot n) (n_net n)
    (n_store n) (n_slashing_state n).

Definition set_mempool (x : list Tx) (n : Node) : Node :=
  mkNode (n_genesis n) (n_validators n) (n_keypair n) (n_node_id n) (n_ledger n)
    (n_vctx_by_author n) x (n_mempool_bytes n) (n_height n) (n_round n) (n_step n)
    (n_round_start n) (n_locked n) (n_round_state n) (n_snapshot n) (n_net n)
    (n_store n) (n_slashing_state n).

Definition set_mempool_bytes (x : Z) (n : Node) : Node :=
  mkNode (n_genesis n) (n_validators n) (n_keypair n) (n_node_id n) (n_ledger n)
    (n_vctx_by_author n) (n_mempool n) x (n_height n) (n_round n) (n_step n)
    (n_round_start n) (n_locked n) (n_round_state n) (n_snapshot n) (n_net n)
    (n_store n) (n_slashing_state n).

Definition set_height (x : Z) (n : Node) : Node :=
  mkNode (n_genesis n) (n_validators n) (n_keypair n) (n_node_id n) (n_ledger n)
    (n_vctx_by_author n) (n_mempool n) (n_mempool_bytes n) x (n_round n) (n_step n)
    (n_round_start n) (n_locked n) (n_round_state n) (n_snapshot n) (n_net n)
    (n_store n) (n_slashing_state n).

Definition set_round (x : Z) (n : Node) : Node :=
  mkNode (n_genesis n) (n_validators n) (n_keypair n) (n_node_id n) (n_ledger n)
    (n_vctx_by_author n) (n_mempool n) (n_mempool_bytes n) (n_height n) x (n_step n)
    (n_round_start n) (n_locked n) (n_round_state n) (n_snapshot n) (n_net n)
    (n_store n) (n_slashing_state n).

Definition set_step (x : Step) (n : Node) : Node :=
  mkNode (n_genesis n) (n_validators n) (n_keypair n) (n_node_id n) (n_ledger n)
    (n_vctx_by_author n) (n_mempool n) (n_mempool_bytes n) (n_height n) (n_round n)
    x (n_round_start n) (n_locked n) (n_round_state n) (n_snapshot n) (n_net n)
    (n_store n) (n_slashing_state n).

Definition set_round_start (x : Z) (n : Node) : Node :=
  mkNode (n_genesis n) (n_validators n) (n_keypair n) (n_node_id n) (n_ledger n)
    (n_vctx_by_author n) (n_mempool n) (n_mempool_bytes n) (n_height n) (n_round n)
    (n_step n) x (n_locked n) (n_round_state n) (n_snapshot n) (n_net n) (n_store n)
    (n_slashing_state n).

Definition set_locked (x : option Hash) (n : Node) : Node :=
  mkNode (n_genesis n) (n_validators n) (n_keypair n) (n_node_id n) (n_ledger n)
    (n_vctx_by_author n) (n_mempool n) (n_mempool_bytes n) (n_height n) (n_round n)
    (n_step n) (n_round_start n) x (n_round_state n) (n_snapshot n) (n_net n)
    (n_store n) (n_slashing_state n).

Definition set_round_state (x : RoundState) (n : Node) : Node :=
  mkNode (n_genesis n) (n_validators n) (n_keypair n) (n_node_id n) (n_ledger n)
    (n_vctx_by_author n) (n_mempool n) (n_mempool_bytes n) (n_height n) (n_round n)
    (n_step n) (n_round_start n) (n_locked n) x (n_snapshot n) (n_net n) (n_store n)
    (n_slashing_state n).

Definition set_snapshot (x : NodeSnapshot) (n : Node) : Node :=
  mkNode (n_genesis n) (n_validators n) (n_keypair n) (n_node_id n) (n_ledger n)
    (n_vctx_by_author n) (n_mempool n) (n_mempool_bytes n) (n_height n) (n_round n)
    (n_step n) (n_round_start n) (n_locked n) (n_round_state n) x (n_net n)
    (n_store n) (n_slashing_state n).

Definition set_net (x : list Message) (n : Node) : Node :=
  mkNode (n_genesis n) (n_validators n) (n_keypair n) (n_node_id n) (n_ledger n)
    (n_vctx_by_author n) (n_mempool n) (n_mempool_bytes n) (n_height n) (n_round n)
    (n_step n) (n_round_start n) (n_locked n) (n_round_state n) (n_snapshot n) x
    (n_store n) (n_slashing_state n).

Definition set_store (x : option SnapshotStore) (n : Node) : Node :=
  mkNode (n_genesis n) (n_validators n) (n_keypair n) (n_node_id n) (n_ledger n)
    (n_vctx_by_author n) (n_mempool n) (n_mempool_bytes n) (n_height n) (n_round n)
    (n_step n) (n_round_start n) (n_locked n) (n_round_state n) (n_snapshot n)
    (n_net n) x (n_slashing_state n).

Definition set_slashing_state (x : SlashingState) (n : Node) : Node :=
  mkNode (n_genesis n) (n_validators n) (n_keypair n) (n_node_id n) (n_ledger n)
    (n_vctx_by_author n) (n_mempool n) (n_mempool_bytes n) (n_height n) (n_round n)
    (n_step n) (n_round_start n) (n_locked n) (n_round_state n) (n_snapshot n)
    (n_net n) (n_store n) x.

Definition broadcast (msg : Message) (n : Node) : Node := set_net (n_net n ++ [msg]) n.

Definition with_proposal (p : option Proposal) (rs : RoundState) : RoundState :=
  mkRoundState p (rs_prevotes rs) (rs_precommits rs) (rs_proposed rs).

Definition with_votes (t : VoteType) (m : gmap Hash (gset NodeId)) (rs : RoundState) : RoundState :=
  match t with
  | Prevote => mkRoundState (rs_proposal rs) m (rs_precommits rs) (rs_proposed rs)
  | Precommit => mkRoundState (rs_proposal rs) (rs_prevotes rs) m (rs_proposed rs)
  end.

Definition votes_of (t : VoteType) (rs : RoundState) : gmap Hash (gset NodeId) :=
  match t with
  | Prevote => rs_prevotes rs
  | Precommit => rs_precommits rs
  end.

Definition consensus_of (n : Node) : ConsensusConfig := g_consensus (n_genesis n).

(** ** Signatures *)

Definition sig_to_hex (sig : DalekSignature) : Str := hex_encode (signature_to_bytes sig).

Definition sig_from_hex (sig_hex : Str) : option DalekSignature :=
  match hex_decode sig_hex with
  | None => None
  | Some bytes =>
      if decide (length bytes <> 64%nat) then None else signature_from_bytes bytes
  end.

(** [verify_proposal]; [None] is the panic of [proposer_for]. *)
Definition verify_proposal (n : Node) (proposal : Proposal) : option bool :=
  match proposer_for (n_validators n) (p_height proposal) (p_round proposal) with
  | None => None
  | Some proposer =>
      if decide (vi_node_id proposer <> p_proposer_id proposal) then Some false
      else
        match public_key_from_bytes (vi_pubkey proposer) with
        | None => Some false
        | Some pk =>
            match sig_from_hex (p_signature proposal) with
            | None => Some false
            | Some sig => Some (verify pk (proposal_bytes proposal) sig)
            end
        end
  end.

(** [verify_vote] reads only the validator set. *)
Definition verify_vote_in (vs : ValidatorSet) (signed : SignedVote) : bool :=
  match pubkey_for vs (v_validator_id (sv_vote signed)) with
  | None => false
  | Some pk_bytes =>
      match public_key_from_bytes pk_bytes with
      | None => false
      | Some pk =>
          match sig_from_hex (sv_signature signed) with
          | None => false
          | Some sig => verify pk (vote_bytes (sv_vote signed)) sig
          end
      end
  end.

Definition verify_vote (n : Node) (signed : SignedVote) : bool :=
  verify_vote_in (n_validators n) signed.

(** ** Blocks *)

(** The selection loop of [build_block]: the longest mempool prefix within the
    event and byte limits. *)
Fixpoint select_txs (max_events max_bytes count total : Z) (pool : list Tx) : list Tx :=
  match pool with
  | [] => []
  | tx :: rest =>
      if max_events <=? count then []
      else if max_bytes <? wrap64 (total + Z.of_nat (length tx)) then []
      else tx :: select_txs max_events max_bytes (count + 1)
                   (wrap64 (total + Z.of_nat (length tx))) rest
  end.

Definition build_block (env : Env) (n : Node) : Block :=
  let max_bytes := cc_max_block_bytes (consensus_of n) in
  let max_events := cc_max_events (consensus_of n) in
  let prev_hash := sn_tip_hash (n_snapshot n) in
  let txs := select_txs max_events max_bytes 0 0 (n_mempool n) in
  let tx_root := merkle_root_hashes (map tx_hash txs) in
  mkBlock (mkBlockHeader (n_height n) (n_round n) prev_hash tx_root (n_node_id n)
             (env_now_ms env)) txs.

Definition sign_proposal (n : Node) (block : Block) : Proposal :=
  let unsigned := mkProposal (n_height n) (n_round n) block (n_node_id n) [] in
  mkProposal (n_height n) (n_round n) block (n_node_id n)
    (sig_to_hex (sign (kp_secret (n_keypair n)) (proposal_bytes unsigned))).

Definition txs_bytes (txs : list Tx) : Z := foldl (fun s tx => wrap64 (s + Z.of_nat (length tx))) 0 txs.

Definition validate_block (n : Node) (block : Block) : bool :=
  let hd := bl_header block in
  if negb ((hd_height hd =? n_height n) && (hd_round hd =? n_round n)) then false
  else if decide (hd_prev_block_hash hd <> sn_tip_hash (n_snapshot n)) then false
  else if decide (merkle_root_hashes (map tx_hash (bl_txs block)) <> hd_tx_root hd) then false
  else
    let max_bytes := cc_max_block_bytes (consensus_of n) in
    let max_events := cc_max_events (consensus_of n) in
    negb ((max_bytes <? txs_bytes (bl_txs block))
          || (max_events <? Z.of_nat (length (bl_txs block)))).

Definition prune_mempool (committed : list Tx) (n : Node) : Node :=
  match committed with
  | [] => n
  | _ :: _ =>
      let committed_hashes : gset Hash := list_to_set (map tx_hash committed) in
      let new_pool := filter (fun tx => tx_hash tx ∉ committed_hashes) (n_mempool n) in
      let bytes := foldl (fun s tx => saturating_add s (Z.of_nat (length tx))) 0 new_pool in
      set_mempool_bytes bytes (set_mempool new_pool n)
  end.

(** [self.apply_block]: default build (sequential), default skew. *)
Definition node_apply_block (block : Block) (n : Node) : Node * result unit ApplyError :=
  let '(st, r) := apply_block default_max_backward_skew block
                    (mkChainState (n_ledger n) (n_vctx_by_author n)) in
  (set_vctx_by_author (cs_vctx st) (set_ledger (cs_ledger st) n), r).

(** The round bookkeeping that ends [commit_block] and [restore_from_store]. *)
Definition enter_height (env : Env) (height : Z) (n : Node) : Node :=
  set_round_state RoundState_new (set_locked None (set_round_start (env_now env)
    (set_step SPropose (set_round 0 (set_height height n))))).

(** [commit_block]; a failed save is only logged. *)
Definition commit_block (env : Env) (block : Block) (n : Node) : Node * result unit ApplyError :=
  let '(n, r) := node_apply_block block n in
  match r with
  | Err e => (n, Err e)
  | Ok _ =>
      let snap := snapshot_commit (n_snapshot n) block in
      let n := set_snapshot snap n in
      let n := enter_height env (saturating_add (hd_height (bl_header block)) 1) n in
      let n := prune_mempool (bl_txs block) n in
      let n :=
        match n_store n with
        | Some store =>
            set_store (Some (fst (save (env_fs_ok env) store (snapshot_to_persisted snap)))) n
        | None => n
        end in
      (n, Ok tt)
  end.

(** ** Votes *)

Definition make_vote (n : Node) (vote_type : VoteType) (block_hash : Hash) : SignedVote :=
  let vote := mkVote (n_height n) (n_round n) vote_type block_hash (n_node_id n) in
  mkSignedVote vote (sig_to_hex (sign (kp_secret (n_keypair n)) (vote_bytes vote))).

(** [broadcast_vote], over the vote handler it calls: the node handles its own
    vote before the peers receive it. *)
Definition broadcast_vote_with (hv : SignedVote -> Node -> outcome Node)
    (vote_type : VoteType) (block_hash : Hash) (n : Node) : outcome Node :=
  let signed := make_vote n vote_type block_hash in
  let! n := hv signed n in
  Done (broadcast (MsgVote signed) n).

(** The double-sign check of [handle_vote]: record the vote, slash on
    evidence, publish the slashed state. *)
Definition detect_and_slash (env : Env) (signed : SignedVote) (n : Node) : Node :=
  let cfg := cc_slashing (consensus_of n) in
  let '(st, evidence) := record_vote (n_slashing_state n) signed cfg in
  let n := set_slashing_state st n in
  match evidence with
  | None => n
  | Some ev =>
      match slash (env_now_ms env) st ev cfg (n_height n) with
      | Ok (st', _) =>
          set_snapshot (set_snapshot_slashing (n_snapshot n) st') (set_slashing_state st' n)
      | Err _ => n
      end
  end.

(** The vote set a vote is added to. *)
Definition vote_entry (v : Vote) (n : Node) : gset NodeId :=
  {[v_validator_id v]} ∪ default ∅ (votes_of (v_vote_type v) (n_round_state n) !! v_block_hash v).

Definition count_vote (v : Vote) (n : Node) : Node :=
  set_round_state
    (with_votes (v_vote_type v)
       (<[v_block_hash v := vote_entry v n]> (votes_of (v_vote_type v) (n_round_state n)))
       (n_round_state n)) n.

(** What a quorum of precommits triggers. *)
Definition try_commit (env : Env) (v : Vote) (n : Node) : outcome Node :=
  if decide (v_block_hash v <> ZERO_HASH) then
    match rs_proposal (n_round_state n) with
    | Some p =>
        let block := p_block p in
        if decide (block_hash (bl_header block) = v_block_hash v) then
          match commit_block env block n with
          | (n', Ok _) => Done n'
          | (_, Err _) => Exited
          end
        else Done n
    | None => Done n
    end
  else Done n.

(** What a quorum triggers: for prevotes, lock and precommit; for precommits,
    commit. *)
Definition react_to_quorum (rec : SignedVote -> Node -> outcome Node) (env : Env) (v : Vote)
    (n : Node) : outcome Node :=
  match v_vote_type v with
  | Prevote =>
      if decide (v_block_hash v <> ZERO_HASH) then
        let n := set_locked (Some (v_block_hash v)) n in
        let! n := broadcast_vote_with rec Precommit (v_block_hash v) n in
        Done (set_step SPrecommit n)
      else Done n
  | Precommit => try_commit env v n
  end.

(** The body of [handle_vote], over the handler its [broadcast_vote] calls. *)
Definition handle_vote_body (rec : SignedVote -> Node -> outcome Node) (env : Env)
    (signed : SignedVote) (n : Node) : outcome Node :=
  let v := sv_vote signed in
  if negb (verify_vote n signed) then Done n
  else if negb ((v_height v =? n_height n) && (v_round v =? n_round n)) then Done n
  else if is_jailed (n_slashing_state n) (v_validator_id v) (n_height n) then Done n
  else
    let n := detect_and_slash env signed n in
    let entry := vote_entry v n in
    let n := count_vote v n in
    if quorum_met (n_validators n) entry then react_to_quorum rec env v n else Done n.

Fixpoint handle_vote_fuel (fuel : nat) (env : Env) (signed : SignedVote) (n : Node)
    : outcome Node :=
  match fuel with
  | O => OutOfFuel
  | S fuel' => handle_vote_body (handle_vote_fuel fuel' env) env signed n
  end.

(** Two levels are enough: a prevote may trigger a precommit, a precommit
    triggers no vote. *)
Definition handle_vote (env : Env) : SignedVote -> Node -> outcome Node := handle_vote_fuel 2 env.

Definition broadcast_vote (env : Env) : VoteType -> Hash -> Node -> outcome Node :=
  broadcast_vote_with (handle_vote env).

(** ** Proposals *)

Definition handle_proposal (env : Env) (proposal : Proposal) (n : Node) : outcome Node :=
  if negb ((p_height proposal =? n_height n) && (p_round proposal =? n_round n)) then Done n
  else
    match verify_proposal n proposal with
    | None => Panicked
    | Some false => Done n
    | Some true =>
        if negb (validate_block n (p_block proposal)) then
          let! n := broadcast_vote env Prevote ZERO_HASH n in
          Done (set_step SPrevote n)
        else
          let n := set_round_state (with_proposal (Some proposal) (n_round_state n)) n in
          let bh := block_hash (bl_header (p_block proposal)) in
          if match n_locked n with
             | Some locked => bool_decide (locked <> bh)
             | None => false
             end
          then
            let! n := broadcast_vote env Prevote ZERO_HASH n in
            Done (set_step SPrevote n)
          else
            let! n := broadcast_vote env Prevote bh n in
            Done (set_step SPrevote n)
    end.

Definition maybe_propose (env : Env) (n : Node) : outcome Node :=
  if bool_decide (n_step n <> SPropose) || rs_proposed (n_round_state n) then Done n
  else
    match proposer_for (n_validators n) (n_height n) (n_round n) with
    | None => Panicked
    | Some proposer =>
        if decide (vi_node_id proposer <> n_node_id n) then Done n
        else
          let block := build_block env n in
          let proposal := sign_proposal n block in
          let rs := n_round_state n in
          let n := set_round_state (mkRoundState (Some proposal) (rs_prevotes rs)
                     (rs_precommits rs) true) n in
          let n := broadcast (MsgProposal proposal) n in
          handle_proposal env proposal n
    end.

(** ** Transactions and messages *)

Definition submit_tx (tx : Tx) (bcast : bool) (n : Node) : Node :=
  match tx with
  | [] => n
  | _ :: _ =>
      let n := set_mempool_bytes (saturating_add (n_mempool_bytes n) (Z.of_nat (length tx))) n in
      let n := set_mempool (n_mempool n ++ [tx]) n in
      if bcast then broadcast (MsgTx tx) n else n
  end.

Definition handle_message (env : Env) (msg : Message) (n : Node) : outcome Node :=
  match msg with
  | MsgTx tx => Done (submit_tx tx false n)
  | MsgProposal p => handle_proposal env p n
  | MsgVote v => handle_vote env v n
  | MsgHello _ _ _ => Done n
  end.

(** ** Timeouts *)

(** [timeout_backoff], in milliseconds: [round] multiplications in [u128]. *)
Definition timeout_backoff (base_ms : Z) (cfg : ConsensusConfig) (round : Z) : Z :=
  let num := cc_timeout_backoff_num cfg in
  let den := Z.max (cc_timeout_backoff_den cfg) 1 in
  let base := Nat.iter (Z.to_nat round) (fun b => saturating_mul_u128 b num / den) base_ms in
  Z.min base (cc_timeout_cap_ms cfg).

Definition check_timeouts (env : Env) (n : Node) : outcome Node :=
  let elapsed := env_now env - n_round_start n in
  let cfg := consensus_of n in
  let base :=
    match n_step n with
    | SPropose => cc_propose_timeout_ms cfg
    | SPrevote => cc_prevote_timeout_ms cfg
    | SPrecommit => cc_precommit_timeout_ms cfg
    end in
  let backoff := timeout_backoff base cfg (n_round n) in
  if backoff * 1000000 <? elapsed then
    match n_step n with
    | SPropose =>
        let! n :=
          match rs_proposal (n_round_state n) with
          | None => broadcast_vote env Prevote ZERO_HASH n
          | Some _ => Done n
          end in
        Done (set_round_start (env_now env) (set_step SPrevote n))
    | SPrevote =>
        let! n := broadcast_vote env Precommit ZERO_HASH n in
        Done (set_round_start (env_now env) (set_step SPrecommit n))
    | SPrecommit =>
        let n := set_round (saturating_add (n_round n) 1) n in
        let n := set_step SPropose n in
        let n := set_round_state RoundState_new n in
        Done (set_round_start (env_now env) n)
    end
  else Done n.

(** ** The main loop *)

Inductive NodeCommand := SubmitTx (tx : Tx) | Shutdown.

Fixpoint handle_messages (env : Env) (msgs : list Message) (n : Node) : outcome Node :=
  match msgs with
  | [] => Done n
  | m :: msgs' => let! n := handle_message env m n in handle_messages env msgs' n
  end.

Definition handle_commands (cmds : list NodeCommand) (n : Node) : Node * bool :=
  foldl (fun '(n, shutdown) cmd =>
    match cmd with
    | SubmitTx tx => (submit_tx tx true n, shutdown)
    | Shutdown => (n, true)
    end) (n, false) cmds.

(** One turn of the loop of [run] on the queued messages and commands; the
    flag tells that the loop ends. *)
Definition run_turn (env : Env) (msgs : list Message) (cmds : list NodeCommand) (n : Node)
    : outcome (Node * bool) :=
  let! n := handle_messages env msgs n in
  let '(n, shutdown) := handle_commands cmds n in
  if shutdown then Done (n, true)
  else
    let! n := maybe_propose env n in
    let! n := check_timeouts env n in
    Done (n, false).

(** ** Start-up *)

Inductive NodeError :=
| BadGenesis (e : ConfigError)
| KeyNotInValidatorSet
| StoreFailed (e : StoreError)
| HeightWithoutBlocks
| SnapshotHeightMismatch
| SnapshotLinkMismatch
| ReplayFailed (e : ApplyError).

(** [blocks.sort_by_key(|b| b.header.height)], stable. *)
Definition block_height_le (b1 b2 : Block) : Prop :=
  hd_height (bl_header b1) <= hd_height (bl_header b2).

#[global] Instance block_height_le_dec : RelDecision block_height_le.
Proof. intros b1 b2. unfold block_height_le. apply _. Defined.

(** The replay loop of [restore_from_store]. *)
Fixpoint replay_blocks (blocks : list Block) (expected_prev : Hash) (expected_height : Z)
    (n : Node) (snap : NodeSnapshot) : result (Node * NodeSnapshot) NodeError :=
  match blocks with
  | [] => Ok (n, snap)
  | block :: rest =>
      let hd := bl_header block in
      if negb (hd_height hd =? expected_height) then Err SnapshotHeightMismatch
      else if decide (hd_prev_block_hash hd <> expected_prev) then Err SnapshotLinkMismatch
      else
        match node_apply_block block n with
        | (_, Err e) => Err (ReplayFailed e)
        | (n, Ok _) =>
            replay_blocks rest (block_hash hd) (saturating_add expected_height 1) n
              (index_block snap block)
        end
  end.

Definition restore_from_store (env : Env) (n : Node) : result Node NodeError :=
  match n_store n with
  | None => Ok n
  | Some store =>
      let? loaded := map_err StoreFailed (load (env_fs_ok env) store) in
      match loaded with
      | None => Ok n
      | Some persisted =>
          let blocks := merge_sort block_height_le (ps_blocks persisted) in
          if bool_decide (blocks = []) && (0 <? ps_height persisted)
          then Err HeightWithoutBlocks
          else
            let? (n, snap) := replay_blocks blocks ZERO_HASH 1 n NodeSnapshot_new in
            let '(height, tip) :=
              match last blocks with
              | Some b => (hd_height (bl_header b), block_hash (bl_header b))
              | None => (ps_height persisted, ps_tip_hash persisted)
              end in
            let snap := mkNodeSnapshot height tip (sn_blocks_by_height snap)
              (sn_blocks_by_hash snap) (sn_tx_index snap) (ps_slashing_state persisted) in
            let n :=
              match ps_slashing_state persisted with
              | Some restored => set_slashing_state restored n
              | None => n
              end in
            let next_height := saturating_add height 1 in
            Ok (enter_height env next_height (set_snapshot snap n))
      end
  end.

(** [Node::new]: the validator set, the stakes and a fresh state, then the
    restored one. *)
Definition initial_stakes (infos : list ValidatorInfo) : gmap NodeId Z :=
  foldl (fun m v => <[vi_node_id v := vi_stake v]> m) ∅ infos.

Definition Node_new (env : Env) (genesis : GenesisConfig) (keypair : Keypair)
    (store : option SnapshotStore) (snapshot : NodeSnapshot) : result Node NodeError :=
  let? infos := map_err BadGenesis (validator_infos genesis) in
  let validators := ValidatorSet_new infos in
  let node_id := node_id_from_pubkey (public_key_to_bytes (kp_public keypair)) in
  if negb (has_validator validators node_id) then Err KeyNotInValidatorSet
  else
    let slashing := SlashingState_new (initial_stakes infos) in
    let n := mkNode genesis validators keypair node_id Ledger_new ∅ [] 0 1 0 SPropose
               (env_now env) None RoundState_new
               (set_snapshot_slashing snapshot slashing) [] store slashing in
    restore_from_store env n.

End node.
