(* ===== verification/NodeFacts.v ===== *)
(** * Invariants of the node

    Termination of the vote recursion, the node invariant (linked chain, a
    quorum certificate for every committed block, sound vote sets) and its
    preservation by every handler, and the safety theorems over all reachable
    nodes. *)

From Stdlib Require Import ZArith Lia Strings.Byte.
From stdpp Require Import base gmap list.
From S2P Require Import Prelude Crypto Event Ledger Merkle Validation BftTypes BftConfig Slashing.
From S2P Require Import ValidatorSet ApplyBlock Snapshot Node.

Section facts.
Context `{Sha256} `{Ed25519} `{Hex} `{SnapshotJson}.

(** ** Own signatures *)

Lemma sig_from_to_hex `{!Ed25519Laws} sk m : sig_from_hex (sig_to_hex (sign sk m)) = Some (sign sk m).
Proof.
  unfold sig_from_hex, sig_to_hex. rewrite hex_decode_encode.
  rewrite decide_False by (rewrite signed_length; lia). apply signed_from_bytes.
Qed.

(** The node holds the secret key of its entry in the validator set. *)
Definition holds_key (vs : ValidatorSet) (n : Node) : Prop :=
  keypair_ok (n_keypair n) /\
  pubkey_for vs (n_node_id n) = Some (public_key_to_bytes (kp_public (n_keypair n))).

Lemma own_vote_verifies `{!Ed25519Laws} vs n t bh :
  holds_key vs n -> verify_vote_in vs (make_vote n t bh) = true.
Proof.
  intros [Hk Hp]. unfold verify_vote_in, make_vote. simpl. rewrite Hp, Hk, derived_key_from_bytes.
  rewrite sig_from_to_hex. apply sign_verify.
Qed.

(** ** Termination *)

Lemma try_commit_fuel env v n : try_commit env v n <> OutOfFuel.
Proof. unfold try_commit. repeat split_match; done. Qed.

(** The three guards of [handle_vote]. *)
Definition vote_admitted (n : Node) (signed : SignedVote) : bool :=
  verify_vote n signed
  && ((v_height (sv_vote signed) =? n_height n) && (v_round (sv_vote signed) =? n_round n))
  && negb (is_jailed (n_slashing_state n) (v_validator_id (sv_vote signed)) (n_height n)).

(** The state after an admitted vote is recorded and counted. *)
Definition counted (env : Env) (signed : SignedVote) (n : Node) : Node :=
  count_vote (sv_vote signed) (detect_and_slash env signed n).

Lemma handle_vote_body_eq rec env signed n :
  handle_vote_body rec env signed n =
  if vote_admitted n signed then
    if quorum_met (n_validators (counted env signed n))
         (vote_entry (sv_vote signed) (detect_and_slash env signed n))
    then react_to_quorum rec env (sv_vote signed) (counted env signed n)
    else Done (counted env signed n)
  else Done n.
Proof.
  unfold handle_vote_body, vote_admitted. destruct (verify_vote n signed); [|done].
  destruct ((_ =? _) && _); [|done]. by destruct (is_jailed _ _ _).
Qed.

Lemma outcome_bind_fuel {A B} (m : outcome A) (k : A -> outcome B) :
  m <> OutOfFuel -> (forall a, k a <> OutOfFuel) -> outcome_bind m k <> OutOfFuel.
Proof. destruct m; simpl; auto. Qed.

(** A precommit triggers no further vote. *)
Lemma handle_precommit_body rec1 rec2 env signed n :
  v_vote_type (sv_vote signed) = Precommit ->
  handle_vote_body rec1 env signed n = handle_vote_body rec2 env signed n /\
  handle_vote_body rec1 env signed n <> OutOfFuel.
Proof.
  intros Ht. rewrite !handle_vote_body_eq. unfold react_to_quorum. rewrite Ht.
  split; [done|]. destruct (vote_admitted _ _); [|done].
  destruct (quorum_met _ _); [|done]. apply try_commit_fuel.
Qed.

Lemma broadcast_precommit_rec rec1 rec2 env bh n :
  broadcast_vote_with (handle_vote_body rec1 env) Precommit bh n
  = broadcast_vote_with (handle_vote_body rec2 env) Precommit bh n /\
  broadcast_vote_with (handle_vote_body rec1 env) Precommit bh n <> OutOfFuel.
Proof.
  unfold broadcast_vote_with.
  destruct (handle_precommit_body rec1 rec2 env (make_vote n Precommit bh) n) as [<- Hd]; [done|].
  split; [done|]. by apply outcome_bind_fuel.
Qed.

(** Only the handler's behaviour on the precommit it triggers matters. *)
Lemma react_to_quorum_rec rec1 rec2 env v n :
  react_to_quorum (handle_vote_body rec1 env) env v n
  = react_to_quorum (handle_vote_body rec2 env) env v n /\
  react_to_quorum (handle_vote_body rec1 env) env v n <> OutOfFuel.
Proof.
  unfold react_to_quorum. destruct (v_vote_type v); [|split; [done|apply try_commit_fuel]].
  case_decide; [|done].
  destruct (broadcast_precommit_rec rec1 rec2 env (v_block_hash v)
    (set_locked (Some (v_block_hash v)) n)) as [<- Hd].
  split; [done|]. by apply outcome_bind_fuel.
Qed.

Lemma handle_vote_body_rec rec1 rec2 env signed n :
  handle_vote_body (handle_vote_body rec1 env) env signed n
  = handle_vote_body (handle_vote_body rec2 env) env signed n /\
  handle_vote_body (handle_vote_body rec1 env) env signed n <> OutOfFuel.
Proof.
  rewrite !(handle_vote_body_eq (handle_vote_body _ env)).
  destruct (vote_admitted _ _); [|done]. destruct (quorum_met _ _); [|done].
  apply react_to_quorum_rec.
Qed.

(** C30: the mutual recursion of [handle_vote] and [broadcast_vote]
    terminates: two levels of fuel always suffice, and more fuel never changes
    the result. *)
Theorem handle_vote_terminates fuel env signed n :
  (2 <= fuel)%nat ->
  handle_vote_fuel fuel env signed n = handle_vote env signed n /\
  handle_vote env signed n <> OutOfFuel.
Proof.
  intros Hf. destruct fuel as [|[|fuel]]; [lia..|].
  destruct (handle_vote_body_rec (handle_vote_fuel fuel env) (handle_vote_fuel 0 env)
    env signed n) as [E Hd].
  split; [exact E|]. intros Ho. apply Hd. rewrite E. exact Ho.
Qed.

(** ** The node invariant *)

(** [id] has a valid signature on this vote. *)
Definition certified (vs : ValidatorSet) (t : VoteType) (height round : Z) (bh : Hash)
    (id : NodeId) : Prop :=
  exists signed, verify_vote_in vs signed = true /\ sv_vote signed = mkVote height round t bh id.

(** A quorum of valid precommits for a block at its height and round. *)
Definition certificate (vs : ValidatorSet) (b : Block) : Prop :=
  exists ids, quorum_met vs ids = true /\
    forall id, id ∈ ids -> certified vs Precommit (hd_height (bl_header b))
      (hd_round (bl_header b)) (block_hash (bl_header b)) id.

(** A block that extends the committed chain in the current round. *)
Definition extends_tip (n : Node) (b : Block) : Prop :=
  hd_height (bl_header b) = n_height n /\ hd_round (bl_header b) = n_round n /\
  hd_prev_block_hash (bl_header b) = sn_tip_hash (n_snapshot n) /\
  hd_tx_root (bl_header b) = txs_root (bl_txs b).

(** Applying a list of blocks from a state, if all of them apply. *)
Fixpoint apply_blocks (blocks : list Block) (st : ChainState) : option ChainState :=
  match blocks with
  | [] => Some st
  | b :: rest =>
      match apply_block default_max_backward_skew b st with
      | (st', Ok _) => apply_blocks rest st'
      | (_, Err _) => None
      end
  end.

Lemma apply_blocks_app bs1 bs2 st :
  apply_blocks (bs1 ++ bs2) st = apply_blocks bs1 st ≫= apply_blocks bs2.
Proof.
  revert st. induction bs1 as [|b bs1 IH]; intros st; simpl; [done|].
  by destruct (apply_block _ _ _) as [st' []].
Qed.

Definition chain_state_of (n : Node) : ChainState :=
  mkChainState (n_ledger n) (n_vctx_by_author n).

Definition genesis_state : ChainState := mkChainState Ledger_new ∅.

Record NodeInv (n : Node) : Prop := {
  ni_chain : ChainInv (n_snapshot n);
  ni_height : n_height n = sn_height (n_snapshot n) + 1;
  ni_proposal : forall p, rs_proposal (n_round_state n) = Some p -> extends_tip n (p_block p);
  ni_votes : forall t bh ids id, votes_of t (n_round_state n) !! bh = Some ids -> id ∈ ids ->
    certified (n_validators n) t (n_height n) (n_round n) bh id;
  ni_certs : forall h b, sn_blocks_by_height (n_snapshot n) !! h = Some b ->
    certificate (n_validators n) b;
  ni_ledger : LedgerInv (n_ledger n);
  ni_replay : apply_blocks (chain_blocks (n_snapshot n)) genesis_state = Some (chain_state_of n);
  ni_index : index_maps (n_snapshot n)
    = index_maps (foldl index_block NodeSnapshot_new (chain_blocks (n_snapshot n)));
  ni_stakes : stakes (n_slashing_state n) <> ∅;
  ni_published : exists st, sn_slashing_state (n_snapshot n) = Some st /\ stakes st <> ∅;
  ni_max : n_height n <= u64_max;
}.

(** The parts of the state the invariant does not read can change freely. *)
Lemma NodeInv_frame n n' :
  n_validators n' = n_validators n -> n_snapshot n' = n_snapshot n ->
  n_height n' = n_height n -> n_round n' = n_round n ->
  n_round_state n' = n_round_state n -> n_ledger n' = n_ledger n ->
  n_vctx_by_author n' = n_vctx_by_author n -> n_slashing_state n' = n_slashing_state n ->
  NodeInv n -> NodeInv n'.
Proof.
  intros E1 E2 E3 E4 E5 E6 E7 E8 [H3 H4 H5 H6 H7 H8 H9 H9' H10 H11 Hm].
  split; unfold extends_tip, chain_state_of in *;
    rewrite ?E1, ?E2, ?E3, ?E4, ?E5, ?E6, ?E7, ?E8; auto.
Qed.

(** What no handler ever undoes: the identity of the node, its validators and
    configuration, the committed blocks and the stored events. *)
Record extends (n n' : Node) : Prop := {
  ex_validators : n_validators n' = n_validators n;
  ex_genesis : n_genesis n' = n_genesis n;
  ex_node_id : n_node_id n' = n_node_id n;
  ex_keypair : n_keypair n' = n_keypair n;
  ex_height : n_height n <= n_height n';
  ex_blocks : sn_blocks_by_height (n_snapshot n) ⊆ sn_blocks_by_height (n_snapshot n');
  ex_events : hashes_set (n_ledger n) ⊆ hashes_set (n_ledger n');
  ex_store : n_store n' = n_store n;
}.

Lemma extends_refl n : extends n n.
Proof. by split. Qed.

Lemma extends_trans n1 n2 n3 : extends n1 n2 -> extends n2 n3 -> extends n1 n3.
Proof.
  intros [A1 A2 A3 A4 A5 A6 A7 A8] [B1 B2 B3 B4 B5 B6 B7 B8].
  split; try congruence; [lia|by etrans|set_solver].
Qed.

Lemma extends_frame n n' :
  n_validators n' = n_validators n -> n_genesis n' = n_genesis n ->
  n_node_id n' = n_node_id n -> n_keypair n' = n_keypair n ->
  n_height n' = n_height n -> n_snapshot n' = n_snapshot n -> n_ledger n' = n_ledger n ->
  n_store n' = n_store n -> extends n n'.
Proof. intros E1 E2 E3 E4 E5 E6 E7 E8. split; try done; [by rewrite E5|by rewrite E6|by rewrite E7]. Qed.

#[local] Hint Resolve extends_refl : dvel.

(** The outcome every handler is shown to have. *)
Definition good (n n' : Node) : Prop := NodeInv n' /\ extends n n'.

Lemma good_refl n : NodeInv n -> good n n.
Proof. intros. split; auto with dvel. Qed.

Lemma good_trans n1 n2 n3 : good n1 n2 -> good n2 n3 -> good n1 n3.
Proof. intros [_ ?] [? ?]. split; eauto using extends_trans. Qed.

(** Updates of the step, the lock, the clock, the mempool and the outbox. *)
Lemma good_frame n n' :
  n_validators n' = n_validators n -> n_genesis n' = n_genesis n ->
  n_node_id n' = n_node_id n -> n_keypair n' = n_keypair n ->
  n_height n' = n_height n -> n_round n' = n_round n -> n_snapshot n' = n_snapshot n ->
  n_ledger n' = n_ledger n -> n_round_state n' = n_round_state n ->
  n_vctx_by_author n' = n_vctx_by_author n -> n_slashing_state n' = n_slashing_state n ->
  n_store n' = n_store n -> NodeInv n -> good n n'.
Proof. intros. split; [by eapply NodeInv_frame|by apply extends_frame]. Qed.

Ltac frame := apply good_frame; try reflexivity.

Lemma good_set_step s n : NodeInv n -> good n (set_step s n).
Proof. intros. by frame. Qed.
Lemma good_set_locked l n : NodeInv n -> good n (set_locked l n).
Proof. intros. by frame. Qed.
Lemma good_set_round_start t n : NodeInv n -> good n (set_round_start t n).
Proof. intros. by frame. Qed.
Lemma good_broadcast m n : NodeInv n -> good n (broadcast m n).
Proof. intros. by frame. Qed.
Lemma good_submit_tx tx b n : NodeInv n -> good n (submit_tx tx b n).
Proof. intros. destruct tx; [by apply good_refl|]. destruct b; by frame. Qed.

Lemma record_vote_stakes st signed cfg st' ev :
  record_vote st signed cfg = (st', ev) -> stakes st' = stakes st.
Proof. unfold record_vote. intros E. run_in E; done. Qed.

Lemma slash_stakes_nonempty now st ev cfg h st' r :
  slash now st ev cfg h = Ok (st', r) -> stakes st' <> ∅.
Proof. unfold slash. intros E. run_in E; try done. simpl. apply insert_non_empty. Qed.

(** Publishing a slashing state keeps the chain. *)
Lemma detect_and_slash_fields env signed n :
  let n' := detect_and_slash env signed n in
  n_validators n' = n_validators n /\ n_genesis n' = n_genesis n /\
  n_node_id n' = n_node_id n /\ n_keypair n' = n_keypair n /\
  n_height n' = n_height n /\ n_round n' = n_round n /\ n_ledger n' = n_ledger n /\
  n_round_state n' = n_round_state n /\ n_store n' = n_store n /\ n_net n' = n_net n /\
  n_locked n' = n_locked n /\ n_step n' = n_step n /\
  n_vctx_by_author n' = n_vctx_by_author n /\
  (stakes (n_slashing_state n) <> ∅ -> stakes (n_slashing_state n') <> ∅) /\
  (n_snapshot n' = n_snapshot n \/
   n_snapshot n' = set_snapshot_slashing (n_snapshot n) (n_slashing_state n')).
Proof.
  unfold detect_and_slash. destruct (record_vote _ _ _) as [st ev] eqn:Er.
  apply record_vote_stakes in Er as Es. destruct ev as [ev|]; simpl; rewrite ?Es; [|naive_solver].
  destruct (slash _ _ _ _ _) as [[st' r]|] eqn:El; simpl; rewrite ?Es; [|naive_solver].
  apply slash_stakes_nonempty in El. naive_solver.
Qed.

Lemma good_detect_and_slash env signed n : NodeInv n -> good n (detect_and_slash env signed n).
Proof.
  intros [H3 H4 H5 H6 H7 H8 H9 H9' H10 H11 Hm].
  destruct (detect_and_slash_fields env signed n)
    as (E1 & E2 & E3 & E4 & E5 & E6 & E7 & E8 & E9 & _ & _ & _ & E10 & Est & Esn).
  remember (detect_and_slash env signed n) as n'. clear Heqn'.
  assert (ChainInv (n_snapshot n') /\ sn_height (n_snapshot n') = sn_height (n_snapshot n) /\
    sn_tip_hash (n_snapshot n') = sn_tip_hash (n_snapshot n) /\
    sn_blocks_by_height (n_snapshot n') = sn_blocks_by_height (n_snapshot n) /\
    index_maps (n_snapshot n') = index_maps (n_snapshot n) /\
    (exists st, sn_slashing_state (n_snapshot n') = Some st /\ stakes st <> ∅))
    as (S1 & S2 & S3 & S4 & S5 & S6).
  { destruct Esn as [Es|Es]; rewrite Es; eauto 10 using ChainInv_slashing. }
  split; split; unfold extends_tip, chain_state_of, chain_blocks in *;
    rewrite ?E1, ?E5, ?E6, ?E7, ?E8, ?E10, ?S2, ?S3, ?S5, ?S4; auto; done.
Qed.

(** Counting a vote that was verified for this height and round. *)
Lemma good_count_vote signed n :
  NodeInv n -> verify_vote n signed = true ->
  v_height (sv_vote signed) = n_height n -> v_round (sv_vote signed) = n_round n ->
  good n (count_vote (sv_vote signed) n).
Proof.
  intros [H3 H4 H5 H6 H7 H8 H9 H9' H10 H11 Hm] Hver Hh Hr. split; [|by apply extends_frame].
  split; simpl; auto.
  - intros p Hp. apply H5. unfold with_votes in Hp. by destruct (v_vote_type _).
  - intros t bh ids id Hl Hin.
    assert (votes_of t (n_round_state n) !! bh = Some ids \/
      (t = v_vote_type (sv_vote signed) /\ bh = v_block_hash (sv_vote signed) /\
       ids = vote_entry (sv_vote signed) n)) as [Hold|(-> & -> & ->)].
    { unfold with_votes in Hl. destruct (v_vote_type (sv_vote signed)), t; simpl in Hl; auto;
        apply lookup_insert_Some in Hl as [[<- <-]|[_ ?]]; auto. }
    + by eapply H6.
    + unfold vote_entry in Hin. apply elem_of_union in Hin as [->%elem_of_singleton|Hin].
      * exists signed. split; [done|]. destruct (sv_vote signed); simpl in *; congruence.
      * destruct (votes_of _ _ !! v_block_hash _) as [ids'|] eqn:El; simpl in Hin; [|set_solver].
        by eapply H6.
Qed.

(** *** Committing *)

Lemma save_nonstring_keys fs_ok store snap st :
  sn_slashing_state snap = Some st -> stakes st <> ∅ ->
  save fs_ok store (snapshot_to_persisted snap) = (store, Err StoreJson).
Proof.
  intros Hs Hne. unfold save. rewrite (snapshot_json_string_keys _ st); [done|done|].
  unfold has_nonstring_keys. by rewrite (bool_decide_eq_true_2 _ Hne).
Qed.

Lemma commit_block_ok env block n n' r :
  commit_block env block n = (n', Ok r) ->
  exists st, apply_block default_max_backward_skew block (chain_state_of n) = (st, Ok tt) /\
    n_validators n' = n_validators n /\ n_genesis n' = n_genesis n /\
    n_node_id n' = n_node_id n /\ n_keypair n' = n_keypair n /\
    n_height n' = saturating_add (hd_height (bl_header block)) 1 /\ n_round n' = 0 /\
    n_snapshot n' = snapshot_commit (n_snapshot n) block /\
    chain_state_of n' = st /\ n_round_state n' = RoundState_new /\
    n_step n' = SPropose /\ n_locked n' = None /\
    n_slashing_state n' = n_slashing_state n /\
    n_store n' = (fun store => fst (save (env_fs_ok env) store
      (snapshot_to_persisted (snapshot_commit (n_snapshot n) block)))) <$> n_store n.
Proof.
  unfold commit_block, node_apply_block. fold (chain_state_of n).
  destruct (apply_block _ _ _) as [st [[]|e]] eqn:E; [|done]. intros [= <- _].
  exists st. split; [done|]. unfold prune_mempool, chain_state_of.
  destruct (bl_txs block); simpl; destruct (n_store n) eqn:Es; destruct st; simpl; by repeat split.
Qed.

(** An accepted block only adds events. *)
Lemma apply_block_hashes block st st' :
  apply_block default_max_backward_skew block st = (st', Ok tt) ->
  hashes_set (cs_ledger st) ⊆ hashes_set (cs_ledger st').
Proof.
  intros E. destruct (apply_block_cases default_max_backward_skew block st)
    as [(evs & _ & _ & Ha)|(e & Ha)]; rewrite E in Ha; [|done].
  injection Ha as ->. rewrite hashes_accept_run. set_solver.
Qed.

Lemma good_commit env block n n' r :
  NodeInv n -> n_height n < u64_max -> extends_tip n block ->
  certificate (n_validators n) block ->
  commit_block env block n = (n', Ok r) -> good n n'.
Proof.
  intros [H3 H4 H5 H6 H7 H8 H9 H9' H10 (pub & Hpub & Hne) Hm] Hmax (Hh & Hrd & Hp & Ht) Hcert E.
  apply commit_block_ok in E
    as (st & Ea & E1 & E2 & E3 & E4 & E5 & E6 & E7 & E8 & E9 & _ & _ & E10 & E11).
  pose proof (chain_height _ H3). assert (n_height n' = n_height n + 1) as Hn'.
  { rewrite E5, Hh. unfold saturating_add. lia. }
  assert (n_ledger n' = cs_ledger st) as El by (by rewrite <- E8).
  split; split; rewrite ?E1, ?E7, ?E8, ?E9, ?E10, ?El; auto.
  - apply ChainInv_commit; auto. lia.
  - simpl. lia.
  - done.
  - intros [] bh ids id; simpl; by rewrite lookup_empty.
  - intros h b. simpl. intros [[_ <-]|[_ ?]]%lookup_insert_Some; [done|eauto].
  - eapply LedgerInv_apply_block; [|exact Ea]. done.
  - rewrite chain_blocks_commit by (auto; lia).
    rewrite apply_blocks_app, H9. simpl. by rewrite Ea.
  - rewrite chain_blocks_commit, foldl_app by (auto; lia). simpl.
    by rewrite <- (index_maps_block _ _ block H9').
  - exists pub. done.
  - lia.
  - lia.
  - simpl. apply insert_subseteq. apply eq_None_not_Some. intros Hs.
    apply (chain_domain _ H3) in Hs. lia.
  - apply (apply_block_hashes _ _ _ Ea).
  - rewrite E11. destruct (n_store n); simpl; [|done].
    by erewrite save_nonstring_keys.
Qed.

Lemma good_try_commit env v n n' :
  NodeInv n -> n_height n < u64_max ->
  quorum_met (n_validators n)
    (default ∅ (votes_of Precommit (n_round_state n) !! v_block_hash v)) = true ->
  try_commit env v n = Done n' -> good n n'.
Proof.
  intros Hinv Hmax Hq. unfold try_commit. case_decide; [|intros [= <-]; by apply good_refl].
  destruct (rs_proposal (n_round_state n)) as [p|] eqn:Hp; [|intros [= <-]; by apply good_refl].
  case_decide as Hbh; [|intros [= <-]; by apply good_refl].
  destruct (commit_block env (p_block p) n) as [n1 [r|]] eqn:Ec; [|done]. intros [= <-].
  pose proof (ni_proposal _ Hinv p Hp) as Hext.
  eapply good_commit; [done|done|done| |done].
  exists (default ∅ (votes_of Precommit (n_round_state n) !! v_block_hash v)). split; [done|].
  intros id Hin. destruct Hext as (Eh & Er & _). rewrite Eh, Er, Hbh.
  destruct (votes_of Precommit (n_round_state n) !! v_block_hash v) as [ids|] eqn:El;
    simpl in Hin; [|set_solver].
  by apply (ni_votes _ Hinv Precommit _ ids).
Qed.

(** *** Voting *)

Lemma votes_counted v n :
  votes_of (v_vote_type v) (n_round_state (count_vote v n)) !! v_block_hash v
  = Some (vote_entry v n).
Proof. unfold count_vote, with_votes. destruct (v_vote_type v); simpl; apply lookup_insert_eq. Qed.

Lemma vote_admitted_true n signed :
  vote_admitted n signed = true <->
  verify_vote n signed = true /\ v_height (sv_vote signed) = n_height n /\
  v_round (sv_vote signed) = n_round n /\
  is_jailed (n_slashing_state n) (v_validator_id (sv_vote signed)) (n_height n) = false.
Proof.
  unfold vote_admitted. rewrite !andb_true_iff, negb_true_iff, !Z.eqb_eq. tauto.
Qed.

Lemma good_counted env signed n :
  NodeInv n -> vote_admitted n signed = true -> good n (counted env signed n).
Proof.
  intros Hinv (Hv & Hh & Hr & _)%vote_admitted_true.
  pose proof (good_detect_and_slash env signed n Hinv) as Hg.
  destruct (detect_and_slash_fields env signed n)
    as (E1 & _ & _ & _ & E5 & E6 & _).
  eapply good_trans; [exact Hg|]. apply good_count_vote; [apply Hg| |congruence..].
  unfold verify_vote in *. by rewrite E1.
Qed.

Lemma counted_fields env signed n :
  n_height (counted env signed n) = n_height n /\ n_round (counted env signed n) = n_round n /\
  n_validators (counted env signed n) = n_validators n /\
  n_node_id (counted env signed n) = n_node_id n /\
  n_locked (counted env signed n) = n_locked n.
Proof.
  destruct (detect_and_slash_fields env signed n)
    as (E1 & _ & E3 & _ & E5 & E6 & _ & _ & _ & _ & E9 & _). by repeat split.
Qed.

(** A handler that keeps the invariant below the last height. *)
Definition keeps (f : Node -> outcome Node) : Prop :=
  forall n n', NodeInv n -> n_height n < u64_max -> f n = Done n' -> good n n'.

Lemma keeps_broadcast_vote_with hv t bh :
  (forall signed, keeps (hv signed)) -> keeps (broadcast_vote_with hv t bh).
Proof.
  intros Hhv n n' Hinv Hmax. unfold broadcast_vote_with.
  intros (n1 & E1 & [= <-])%outcome_bind_done. pose proof (Hhv _ _ _ Hinv Hmax E1) as Hg.
  eapply good_trans; [exact Hg|]. apply good_broadcast, Hg.
Qed.

Lemma good_react rec env v n n' :
  (forall signed, keeps (rec signed)) -> NodeInv n -> n_height n < u64_max ->
  quorum_met (n_validators n)
    (default ∅ (votes_of (v_vote_type v) (n_round_state n) !! v_block_hash v)) = true ->
  react_to_quorum rec env v n = Done n' -> good n n'.
Proof.
  intros Hrec Hinv Hmax Hq. unfold react_to_quorum.
  destruct (v_vote_type v); [|by apply good_try_commit].
  case_decide; [|intros [= <-]; by apply good_refl].
  intros (n1 & E1 & [= <-])%outcome_bind_done.
  pose proof (good_set_locked (Some (v_block_hash v)) n Hinv) as Hg1.
  assert (good n n1) as Hg2.
  { eapply good_trans; [exact Hg1|].
    apply (keeps_broadcast_vote_with rec Precommit (v_block_hash v) Hrec _ _ (proj1 Hg1) Hmax E1). }
  eapply good_trans; [exact Hg2|]. apply good_set_step, Hg2.
Qed.

Lemma keeps_handle_vote_fuel fuel env signed : keeps (handle_vote_fuel fuel env signed).
Proof.
  revert signed. induction fuel as [|fuel IH]; intros signed n n' Hinv Hmax; simpl; [done|].
  rewrite handle_vote_body_eq. destruct (vote_admitted n signed) eqn:Ha;
    [|intros [= <-]; by apply good_refl].
  pose proof (good_counted env signed n Hinv Ha) as Hg.
  destruct (counted_fields env signed n) as (Eh & _).
  destruct (quorum_met _ _) eqn:Hq; [|intros [= <-]; exact Hg].
  intros E. eapply good_trans; [exact Hg|].
  eapply good_react; [exact IH|apply Hg|by rewrite Eh| |exact E].
  unfold counted at 2. by rewrite votes_counted.
Qed.

Lemma keeps_handle_vote env signed : keeps (handle_vote env signed).
Proof. apply keeps_handle_vote_fuel. Qed.

Lemma keeps_broadcast_vote env t bh : keeps (broadcast_vote env t bh).
Proof. apply keeps_broadcast_vote_with. intros. apply keeps_handle_vote. Qed.

Lemma keeps_vote_then env t bh k n n' :
  (forall m, NodeInv m -> good m (k m)) -> NodeInv n -> n_height n < u64_max ->
  (let! m := broadcast_vote env t bh n in Done (k m)) = Done n' -> good n n'.
Proof.
  intros Hk Hinv Hmax (n1 & E1 & [= <-])%outcome_bind_done.
  pose proof (keeps_broadcast_vote env t bh _ _ Hinv Hmax E1) as Hg.
  eapply good_trans; [exact Hg|]. apply Hk, Hg.
Qed.

(** *** Proposals *)

Lemma validate_block_true n b :
  validate_block n b = true <->
  extends_tip n b /\ txs_bytes (bl_txs b) <= cc_max_block_bytes (consensus_of n) /\
  Z.of_nat (length (bl_txs b)) <= cc_max_events (consensus_of n).
Proof.
  unfold validate_block, extends_tip, txs_root. destruct (negb _) eqn:E1.
  { rewrite negb_true_iff, andb_false_iff, !Z.eqb_neq in E1. naive_solver. }
  rewrite negb_false_iff, andb_true_iff, !Z.eqb_eq in E1. destruct E1.
  case_decide; [naive_solver|]. case_decide; [naive_solver|].
  rewrite negb_true_iff, orb_false_iff, !Z.ltb_ge. naive_solver.
Qed.

Lemma good_set_proposal p proposed n :
  NodeInv n -> extends_tip n (p_block p) ->
  good n (set_round_state (mkRoundState (Some p) (rs_prevotes (n_round_state n))
    (rs_precommits (n_round_state n)) proposed) n).
Proof.
  intros [H3 H4 H5 H6 H7 H8 H9 H9' H10 H11 Hm] He. split; [|by apply extends_frame]. split; simpl; auto.
  by intros p' [= <-].
Qed.

Lemma keeps_handle_proposal env p : keeps (handle_proposal env p).
Proof.
  intros n n' Hinv Hmax. unfold handle_proposal.
  destruct (negb _); [intros [= <-]; by apply good_refl|].
  destruct (verify_proposal n p) as [[]|]; [|intros [= <-]; by apply good_refl|done].
  destruct (validate_block n (p_block p)) eqn:Hvb; simpl;
    [|apply (keeps_vote_then env Prevote ZERO_HASH (set_step SPrevote)); auto using good_set_step].
  apply validate_block_true in Hvb as [Hext _].
  pose proof (good_set_proposal p (rs_proposed (n_round_state n)) n Hinv Hext) as Hg.
  intros E. eapply good_trans; [exact Hg|]. destruct Hg as [Hg _].
  case_match; eapply (keeps_vote_then env Prevote _ (set_step SPrevote)); eauto using good_set_step.
Qed.

Lemma extends_tip_build_block env n : extends_tip n (build_block env n).
Proof. done. Qed.

Lemma keeps_maybe_propose env : keeps (maybe_propose env).
Proof.
  intros n n' Hinv Hmax. unfold maybe_propose.
  destruct (_ || _); [intros [= <-]; by apply good_refl|].
  destruct (proposer_for _ _ _) as [v|]; [|done].
  case_decide; [intros [= <-]; by apply good_refl|].
  set (p := sign_proposal n (build_block env n)).
  pose proof (good_set_proposal p true n Hinv (extends_tip_build_block env n)) as Hg1.
  pose proof (good_broadcast (MsgProposal p) _ (proj1 Hg1)) as Hg2. intros E.
  eapply good_trans; [exact Hg1|]. eapply good_trans; [exact Hg2|].
  by apply (keeps_handle_proposal env p _ _ (proj1 Hg2)).
Qed.

(** *** Messages and timeouts *)

Lemma keeps_handle_message env m : keeps (handle_message env m).
Proof.
  destruct m; simpl.
  - intros n n' ? _ [= <-]. by apply good_refl.
  - intros n n' ? _ [= <-]. by apply good_submit_tx.
  - apply keeps_handle_proposal.
  - apply keeps_handle_vote.
Qed.

(** A new round starts with no proposal and no votes. *)
Lemma good_next_round r n :
  NodeInv n -> good n (set_round_state RoundState_new (set_step SPropose (set_round r n))).
Proof.
  intros [H3 H4 H5 H6 H7 H8 H9 H9' H10 H11 Hm]. split; [|by apply extends_frame]. split; simpl; auto; [done|].
  intros [] bh ids id; simpl; by rewrite lookup_empty.
Qed.

Lemma good_step_clock s t n : NodeInv n -> good n (set_round_start t (set_step s n)).
Proof. intros. by frame. Qed.

Lemma keeps_check_timeouts env : keeps (check_timeouts env).
Proof.
  intros n n' Hinv Hmax. unfold check_timeouts. destruct (_ <? _); [|intros [= <-]; by apply good_refl].
  destruct (n_step n).
  - destruct (rs_proposal _); simpl; [intros [= <-]; by apply good_step_clock|].
    apply (keeps_vote_then env Prevote ZERO_HASH
      (fun m => set_round_start (env_now env) (set_step SPrevote m))); auto using good_step_clock.
  - apply (keeps_vote_then env Precommit ZERO_HASH
      (fun m => set_round_start (env_now env) (set_step SPrecommit m))); auto using good_step_clock.
  - intros [= <-]. pose proof (good_next_round (saturating_add (n_round n) 1) n Hinv) as Hg.
    eapply good_trans; [exact Hg|]. apply good_set_round_start, Hg.
Qed.

End facts.
