(* ===== verification/NodeSafety.v ===== *)
(** * Safety of the consensus node

    The steps a running node takes, the nodes they reach, and what holds of
    every reachable node: a linked append-only chain, a quorum certificate for
    every committed block, accountable agreement between two nodes, replay of
    the stored chain, what a start does with each snapshot file, and that no
    such file is written. *)

From Stdlib Require Import ZArith Lia Strings.Byte.
From stdpp Require Import base gmap list sorting.
From S2P Require Import Prelude Crypto Event Ledger Merkle Validation BftTypes BftConfig Slashing.
From S2P Require Import ValidatorSet ApplyBlock Snapshot Node NodeFacts.

Section safety.
Context `{Sha256} `{Ed25519} `{Hex} `{SnapshotJson}.

(** ** Steps and reachable nodes *)

(** One action of the loop of [run].  The bound excludes the saturation of the
    height at the end of the [u64] range. *)
Inductive node_step : Node -> Node -> Prop :=
| step_message env msg n n' :
    n_height n < u64_max -> handle_message env msg n = Done n' -> node_step n n'
| step_submit tx n : node_step n (submit_tx tx true n)
| step_propose env n n' :
    n_height n < u64_max -> maybe_propose env n = Done n' -> node_step n n'
| step_timeout env n n' :
    n_height n < u64_max -> check_timeouts env n = Done n' -> node_step n n'.

(** A node started with no snapshot file, after any number of steps. *)
Definition fresh_store (store : option SnapshotStore) : Prop :=
  forall s, store = Some s -> store_file s = None.

Definition started (genesis : GenesisConfig) (n : Node) : Prop :=
  exists env keypair store, fresh_store store /\
    Node_new env genesis keypair store NodeSnapshot_new = Ok n.

Definition reachable_node (genesis : GenesisConfig) (n : Node) : Prop :=
  exists n0, started genesis n0 /\ rtc node_step n0 n.

Lemma good_node_step n n' : NodeInv n -> node_step n n' -> good n n'.
Proof.
  intros Hinv. destruct 1; [by eapply keeps_handle_message|by apply good_submit_tx| |].
  - by eapply keeps_maybe_propose.
  - by eapply keeps_check_timeouts.
Qed.

Lemma good_node_steps n n' : NodeInv n -> rtc node_step n n' -> good n n'.
Proof.
  intros Hinv. induction 1 as [|n1 n2 n3 Hs _ IH]; [by apply good_refl|].
  pose proof (good_node_step _ _ Hinv Hs) as Hg. eapply good_trans; [exact Hg|]. apply IH, Hg.
Qed.

(** *** The first state *)

Lemma initial_stakes_dom infos :
  dom (initial_stakes infos) = list_to_set (map vi_node_id infos).
Proof.
  unfold initial_stakes.
  assert (forall m : gmap NodeId Z,
    dom (foldl (fun m v => <[vi_node_id v := vi_stake v]> m) m infos)
    = list_to_set (map vi_node_id infos) ∪ dom m) as Hgen.
  { induction infos as [|v infos IH]; intros m; simpl; [set_solver|].
    rewrite IH, dom_insert_L. set_solver. }
  rewrite Hgen, dom_empty_L. set_solver.
Qed.

Lemma restore_fresh env n : fresh_store (n_store n) -> restore_from_store env n = Ok n.
Proof.
  intros Hf. unfold restore_from_store. destruct (n_store n) as [s|]; [|done].
  unfold load. by rewrite (Hf s eq_refl).
Qed.

Lemma started_inv genesis n :
  started genesis n ->
  exists infos, validator_infos genesis = Ok infos /\
    n_validators n = ValidatorSet_new infos /\ NodeInv n /\ fresh_store (n_store n).
Proof.
  intros (env & kp & store & Hf & E). unfold Node_new in E.
  destruct (validator_infos genesis) as [infos|] eqn:Ei; [|done]. simpl in E.
  destruct (has_validator _ _) eqn:Hv; simpl in E; [|done].
  rewrite restore_fresh in E by done. injection E as <-.
  exists infos. split; [done|]. split; [done|]. split; [|done].
  assert (initial_stakes infos <> ∅) as Hne.
  { apply bool_decide_eq_true in Hv as [v [Hin _]%by_id_of_lookup].
    intros E0. apply (f_equal dom) in E0. rewrite initial_stakes_dom, dom_empty_L in E0.
    apply (list_elem_of_fmap_2 vi_node_id) in Hin. set_solver. }
  split; simpl; try done.
  - apply ChainInv_slashing, ChainInv_new.
  - intros [] bh l id; simpl; by rewrite lookup_empty.
  - apply LedgerInv_new.
  - eauto.
Qed.

Lemma reachable_node_inv genesis n :
  reachable_node genesis n ->
  exists infos, validator_infos genesis = Ok infos /\
    n_validators n = ValidatorSet_new infos /\ NodeInv n /\ fresh_store (n_store n).
Proof.
  intros (n0 & (infos & Ei & Ev & Hinv & Hf)%started_inv & Hs).
  pose proof (good_node_steps _ _ Hinv Hs) as [Hinv' Hex].
  exists infos. rewrite (ex_store _ _ Hex), (ex_validators _ _ Hex). done.
Qed.

(** ** The committed chain *)

(** C4: every reachable node holds a linked chain: it has exactly the
    heights [1 .. height], each block names its own height, the hash of the
    block below (the zero hash at height one) and the Merkle root of its
    transactions, the tip hash is the hash of the last block, and the node works
    on the next height. *)
Theorem committed_chain genesis n :
  reachable_node genesis n ->
  ChainInv (n_snapshot n) /\ n_height n = sn_height (n_snapshot n) + 1.
Proof. intros (infos & _ & _ & Hinv & _)%reachable_node_inv. split; apply Hinv. Qed.

(** C5: nothing is ever undone: along any run the committed blocks and the
    stored events only grow, the height never decreases, and the validators,
    the configuration and the identity of the node stay the same. *)
Theorem committed_is_final genesis n n' :
  reachable_node genesis n -> rtc node_step n n' -> extends n n'.
Proof. intros (infos & _ & _ & Hinv & _)%reachable_node_inv Hs. by apply good_node_steps. Qed.

(** C3: every block committed by a reachable node carries a quorum
    certificate: a set of validators reaching the quorum, each with a valid
    signature on a precommit for this block's hash at its height and round. *)
Theorem commit_certificate genesis n h b :
  reachable_node genesis n ->
  sn_blocks_by_height (n_snapshot n) !! h = Some b ->
  exists votes, quorum_met (n_validators n) votes = true /\
    forall id, id ∈ votes -> exists signed,
      verify_vote n signed = true /\
      sv_vote signed = mkVote h (hd_round (bl_header b)) Precommit (block_hash (bl_header b)) id.
Proof.
  intros (infos & _ & _ & Hinv & _)%reachable_node_inv Hb.
  destruct (ni_certs _ Hinv h b Hb) as (votes & Hq & Hv). exists votes. split; [done|].
  destruct (chain_links _ (ni_chain _ Hinv) h b Hb) as [<- _]. exact Hv.
Qed.

(** C1: accountable agreement: let two nodes run from the same genesis with
    [3f + 1] validators of power one.  The blocks they commit at the same
    height and round have the same hash, or at least [f + 1] validators have
    signed two conflicting precommits for that height and round; so with at
    most [f] faulty validators the two blocks agree. *)
Theorem accountable_agreement genesis infos f n1 n2 h b1 b2 :
  validator_infos genesis = Ok infos -> length infos = (3 * f + 1)%nat -> unit_powers infos ->
  reachable_node genesis n1 -> reachable_node genesis n2 ->
  sn_blocks_by_height (n_snapshot n1) !! h = Some b1 ->
  sn_blocks_by_height (n_snapshot n2) !! h = Some b2 ->
  hd_round (bl_header b1) = hd_round (bl_header b2) ->
  block_hash (bl_header b1) = block_hash (bl_header b2) \/
  exists guilty : gset NodeId,
    block_hash (bl_header b1) <> block_hash (bl_header b2) /\
    (f + 1 <= size guilty)%nat /\ guilty ⊆ list_to_set (map vi_node_id infos) /\
    forall id, id ∈ guilty ->
      certified (ValidatorSet_new infos) Precommit h (hd_round (bl_header b1))
        (block_hash (bl_header b1)) id /\
      certified (ValidatorSet_new infos) Precommit h (hd_round (bl_header b1))
        (block_hash (bl_header b2)) id.
Proof.
  intros Ei Hlen Hu R1 R2 Hb1 Hb2 Hr.
  destruct (decide (block_hash (bl_header b1) = block_hash (bl_header b2))); [by left|right].
  apply reachable_node_inv in R1 as (i1 & Ei1 & Ev1 & I1 & _).
  apply reachable_node_inv in R2 as (i2 & Ei2 & Ev2 & I2 & _).
  assert (i1 = infos /\ i2 = infos) as [-> ->] by (split; congruence).
  destruct (ni_certs _ I1 h b1 Hb1) as (q1 & Q1 & V1).
  destruct (ni_certs _ I2 h b2 Hb2) as (q2 & Q2 & V2).
  rewrite Ev1 in *. rewrite Ev2 in *.
  destruct (chain_links _ (ni_chain _ I1) h b1 Hb1) as [E1 _].
  destruct (chain_links _ (ni_chain _ I2) h b2 Hb2) as [E2 _].
  rewrite E1 in V1. rewrite E2, <- Hr in V2.
  exists (q1 ∩ q2 ∩ list_to_set (map vi_node_id infos)). split; [done|]. split; [|split; [set_solver|]].
  - by apply quorum_overlap.
  - intros id Hid. split; [apply V1|apply V2]; set_solver.
Qed.

(** ** The snapshot file *)

(** C39: no snapshot is ever written: the shared snapshot always carries a
    slashing state with stakes, whose maps are keyed by byte arrays, and JSON
    serialisation rejects such keys; so whatever a node started without a
    snapshot file commits, there is still no file. *)
Theorem snapshot_file_never_written genesis n store :
  reachable_node genesis n -> n_store n = Some store -> store_file store = None.
Proof. intros (infos & _ & _ & _ & Hf)%reachable_node_inv. apply Hf. Qed.

(** ** The main loop *)

(** Steps from [n] to [n'], or to a node at the last height. *)
Definition steps_to (n n' : Node) : Prop :=
  exists m, rtc node_step n m /\ (m = n' \/ u64_max <= n_height m).

Lemma steps_to_refl n : steps_to n n.
Proof. exists n. split; [done|by left]. Qed.

Lemma steps_to_trans n1 n2 n3 : steps_to n1 n2 -> steps_to n2 n3 -> steps_to n1 n3.
Proof.
  intros (m & Hm & [->|Hmax]) (m' & Hm' & Hor); [|exists m; auto].
  exists m'. split; [by etrans|done].
Qed.

Lemma steps_to_one n n' :
  (n_height n < u64_max -> node_step n n') -> steps_to n n'.
Proof.
  intros Hs. destruct (decide (n_height n < u64_max)) as [Hlt|Hge].
  - exists n'. split; [by apply rtc_once, Hs|by left].
  - exists n. split; [done|right; lia].
Qed.

Lemma handle_messages_steps env msgs n n' : handle_messages env msgs n = Done n' -> steps_to n n'.
Proof.
  revert n. induction msgs as [|m msgs IH]; intros n; simpl.
  - intros [= <-]. apply steps_to_refl.
  - intros (n1 & E1 & E2)%outcome_bind_done. eapply steps_to_trans; [|by apply IH].
    apply steps_to_one. intros. by eapply step_message.
Qed.

Lemma handle_commands_steps cmds n : steps_to n (fst (handle_commands cmds n)).
Proof.
  unfold handle_commands. generalize false. revert n.
  induction cmds as [|c cmds IH]; intros n sd; simpl; [apply steps_to_refl|].
  destruct c as [tx|]; [|apply IH].
  eapply steps_to_trans; [|apply IH]. apply steps_to_one. intros _. apply step_submit.
Qed.

(** A turn of the main loop is a sequence of steps: whatever messages
    and commands are queued, the node at the end of [run_turn] is reached by
    the step relation, unless the height range is exhausted on the way; so
    everything shown of reachable nodes holds at every turn of [run]. *)
Theorem run_turn_steps env msgs cmds n n' b :
  run_turn env msgs cmds n = Done (n', b) ->
  exists m, rtc node_step n m /\ (m = n' \/ u64_max <= n_height m).
Proof.
  unfold run_turn. intros (n1 & E1%handle_messages_steps & E)%outcome_bind_done.
  pose proof (handle_commands_steps cmds n1) as E2.
  destruct (handle_commands cmds n1) as [n2 sd]. simpl in E2.
  pose proof (steps_to_trans _ _ _ E1 E2) as E12.
  destruct sd; [injection E as <- <-; exact E12|].
  apply outcome_bind_done in E as (n3 & E3 & E).
  apply outcome_bind_done in E as (n4 & E4 & [= <- <-]).
  apply (steps_to_trans _ _ _ E12). eapply steps_to_trans; apply steps_to_one; intros.
  - by eapply step_propose.
  - by eapply step_timeout.
Qed.

(** ** Replaying the stored chain *)

Fixpoint linked_from (prev : Hash) (height : Z) (blocks : list Block) : Prop :=
  match blocks with
  | [] => True
  | b :: rest =>
      hd_height (bl_header b) = height /\ hd_prev_block_hash (bl_header b) = prev /\
      linked_from (block_hash (bl_header b)) (height + 1) rest
  end.

Lemma linked_from_lookup prev h bs :
  (forall k b, bs !! k = Some b ->
    hd_height (bl_header b) = h + Z.of_nat k /\
    hd_prev_block_hash (bl_header b) =
      match k with
      | O => prev
      | S k' => from_option (fun b' => block_hash (bl_header b')) prev (bs !! k')
      end) ->
  linked_from prev h bs.
Proof.
  revert prev h. induction bs as [|b bs IH]; intros prev h Hl; simpl; [done|].
  destruct (Hl 0%nat b eq_refl) as [E1 E2]. split; [lia|]. split; [done|].
  apply IH. intros k b' Hb'. destruct (Hl (S k) b' Hb') as [E3 E4]. split; [lia|].
  rewrite E4. destruct k as [|k]; simpl; [done|].
  destruct (lookup_lt_is_Some_2 bs k) as [b'' ->]; [|done].
  apply lookup_lt_Some in Hb'. lia.
Qed.

Lemma linked_chain_blocks snap : ChainInv snap -> linked_from ZERO_HASH 1 (chain_blocks snap).
Proof.
  intros Hc. apply linked_from_lookup. intros k b Hb.
  destruct (chain_links _ Hc _ _ (chain_blocks_lookup _ _ _ Hc Hb)) as (E1 & E2 & _).
  split; [lia|]. rewrite E2. destruct k as [|k].
  - apply hash_at_out; [done|lia].
  - destruct (lookup_lt_is_Some_2 (chain_blocks snap) k) as [b' Hb'].
    { apply lookup_lt_Some in Hb. lia. }
    rewrite Hb'. simpl. apply (chain_blocks_lookup _ _ _ Hc) in Hb'. unfold hash_at.
    by replace (Z.of_nat (S k) + 1 - 1) with (Z.of_nat k + 1) by lia; rewrite Hb'.
Qed.

Definition set_chain_state (st : ChainState) (n : Node) : Node :=
  set_vctx_by_author (cs_vctx st) (set_ledger (cs_ledger st) n).

Lemma replay_blocks_ok bs prev h m snap st :
  linked_from prev h bs -> 0 <= h -> h + Z.of_nat (length bs) <= u64_max ->
  apply_blocks bs (chain_state_of m) = Some st ->
  replay_blocks bs prev h m snap = Ok (set_chain_state st m, foldl index_block snap bs).
Proof.
  revert prev h m snap. induction bs as [|b bs IH]; intros prev h m snap; simpl.
  - intros _ _ _ [= <-]. by destruct m.
  - intros (Eh & Ep & Hl) H0' Hmax Ha. rewrite Eh, Z.eqb_refl, Ep. simpl.
    rewrite decide_False by (intros Hn; by apply Hn).
    unfold node_apply_block. fold (chain_state_of m).
    destruct (apply_block _ b (chain_state_of m)) as [st1 [[]|]] eqn:E1; [|done].
    replace (saturating_add h 1) with (h + 1) by (unfold saturating_add; lia).
    rewrite IH; [done|done|lia|lia|]. by destruct st1.
Qed.

Lemma replay_blocks_inv bs prev h m snap m' snap' :
  0 <= h -> h + Z.of_nat (length bs) <= u64_max ->
  replay_blocks bs prev h m snap = Ok (m', snap') ->
  linked_from prev h bs /\
  exists st, apply_blocks bs (chain_state_of m) = Some st.
Proof.
  revert prev h m snap. induction bs as [|b bs IH]; intros prev h m snap H0' Hmax; cbn [length] in Hmax.
  { intros _. split; [done|by eexists]. }
  cbn [replay_blocks linked_from apply_blocks].
  destruct (Z.eqb_spec (hd_height (bl_header b)) h) as [Eh|]; [|done]. cbn [negb].
  case_decide as Hp; [done|]. unfold node_apply_block. fold (chain_state_of m).
  destruct (apply_block _ b (chain_state_of m)) as [st1 [[]|e]] eqn:E1; [|done].
  replace (saturating_add h 1) with (h + 1) by (unfold saturating_add; lia).
  intros [Hl [st Hst]]%IH; [|lia..]. split_and!; [done..|].
  exists st. by destruct st1.
Qed.

(** *** Sorting an ordered chain changes nothing *)

Lemma sorted_linked prev h bs :
  linked_from prev h bs ->
  StronglySorted block_height_le bs /\
  forall b, b ∈ bs -> h <= hd_height (bl_header b).
Proof.
  revert prev h. induction bs as [|b bs IH]; intros prev h; simpl.
  - intros _. split; [constructor|set_solver].
  - intros (Eh & _ & [Hs Hge]%IH). split.
    + constructor; [done|]. apply Forall_forall. intros b' Hb'. unfold block_height_le.
      apply Hge in Hb'. lia.
    + intros b' [->|Hb']%elem_of_cons; [lia|]. apply Hge in Hb'. lia.
Qed.

Lemma linked_height_inj prev h bs b1 b2 :
  linked_from prev h bs -> b1 ∈ bs -> b2 ∈ bs ->
  hd_height (bl_header b1) = hd_height (bl_header b2) -> b1 = b2.
Proof.
  revert prev h. induction bs as [|b bs IH]; intros prev h; simpl; [set_solver|].
  intros (Eh & _ & Hl). pose proof (proj2 (sorted_linked _ _ _ Hl)) as Hge.
  intros [->|H1']%elem_of_cons [->|H2']%elem_of_cons E; [done| | |by eapply IH].
  - apply Hge in H2'. lia.
  - apply Hge in H1'. lia.
Qed.

#[local] Instance block_height_le_total : Total block_height_le.
Proof. intros b1 b2. unfold block_height_le. lia. Qed.

#[local] Instance block_height_le_trans : Transitive block_height_le.
Proof. intros b1 b2 b3. unfold block_height_le. lia. Qed.

Lemma sort_linked prev h bs : linked_from prev h bs -> merge_sort block_height_le bs = bs.
Proof.
  intros Hl. apply (StronglySorted_unique_strong block_height_le).
  - intros b1 b2 Hb1 Hb2 L1 L2. unfold block_height_le in *.
    rewrite merge_sort_Permutation in Hb1. eapply linked_height_inj; [done..|lia].
  - apply StronglySorted_merge_sort; apply _.
  - by eapply sorted_linked.
  - apply merge_sort_Permutation.
Qed.

(** A stored chain is non-empty when its height is positive. *)
Lemma restore_guard snap :
  ChainInv snap -> bool_decide (chain_blocks snap = []) && (0 <? sn_height snap) = false.
Proof.
  intros Hc. rewrite <- (length_chain_blocks _ Hc). by destruct (chain_blocks snap).
Qed.

(** The last stored block is the tip. *)
Lemma restore_target snap :
  ChainInv snap ->
  match last (chain_blocks snap) with
  | Some b => (hd_height (bl_header b), block_hash (bl_header b))
  | None => (sn_height snap, sn_tip_hash snap)
  end = (sn_height snap, sn_tip_hash snap).
Proof.
  intros Hc. destruct (last _) as [b|] eqn:El; [|done].
  rewrite last_lookup in El. apply (chain_blocks_lookup _ _ _ Hc) in El.
  pose proof (length_chain_blocks _ Hc) as Hlen.
  assert (1 <= Z.of_nat (pred (length (chain_blocks snap))) + 1 <= sn_height snap) as Hr
    by (apply (chain_domain _ Hc); eauto).
  replace (Z.of_nat (pred (length (chain_blocks snap))) + 1) with (sn_height snap) in El by lia.
  destruct (chain_links _ Hc _ _ El) as (-> & _).
  rewrite (chain_tip _ Hc). unfold hash_at. by rewrite El.
Qed.

(** Had the chain been saved, a restart would lose none of it: a node that is
    started on a snapshot file holding the height, tip and blocks of a reachable node [n]
    (and any slashing state, or none) replays them successfully; it has the
    ledger, the validation contexts, the block and transaction indexes, the
    tip and the height of [n], and starts round zero of the next height. *)
Theorem restart_recovers_chain genesis n env keypair store slashing :
  reachable_node genesis n ->
  has_validator (n_validators n)
    (node_id_from_pubkey (public_key_to_bytes (kp_public keypair))) = true ->
  load (env_fs_ok env) store = Ok (Some (mkPersistedSnapshot (sn_height (n_snapshot n))
    (sn_tip_hash (n_snapshot n)) (chain_blocks (n_snapshot n)) slashing)) ->
  exists m, Node_new env genesis keypair (Some store) NodeSnapshot_new = Ok m /\
    chain_state_of m = chain_state_of n /\
    index_maps (n_snapshot m) = index_maps (n_snapshot n) /\
    sn_height (n_snapshot m) = sn_height (n_snapshot n) /\
    sn_tip_hash (n_snapshot m) = sn_tip_hash (n_snapshot n) /\
    sn_slashing_state (n_snapshot m) = slashing /\
    n_height m = n_height n /\ n_round m = 0 /\ n_step m = SPropose /\ n_locked m = None /\
    n_round_state m = RoundState_new.
Proof.
  intros (infos & Ei & Ev & Hinv & _)%reachable_node_inv Hkey Hload. pose proof (ni_chain _ Hinv) as Hc.
  pose proof (linked_chain_blocks _ Hc) as Hl. pose proof (length_chain_blocks _ Hc) as Hlen.
  pose proof (ni_max _ Hinv) as Hmax. rewrite (ni_height _ Hinv) in Hmax.
  unfold Node_new. rewrite Ei. simpl. rewrite <- Ev, Hkey. simpl.
  unfold restore_from_store. simpl. rewrite Hload. simpl. rewrite (sort_linked _ _ _ Hl).
  rewrite (restore_guard _ Hc). erewrite replay_blocks_ok; [|done|lia|lia|apply (ni_replay _ Hinv)].
  simpl. rewrite (restore_target _ Hc). eexists. split; [reflexivity|].
  unfold chain_state_of, index_maps. rewrite (ni_height _ Hinv).
  pose proof (chain_height _ Hc). pose proof (ni_index _ Hinv) as Hix. unfold index_maps in Hix.
  destruct slashing; simpl; repeat split; try done; unfold saturating_add; lia.
Qed.

(** What a restart accepts: blocks that link up from the zero hash at height
    one and whose transactions are valid one after the other; a file without
    blocks must not claim a height. *)
Definition restorable (ps : PersistedSnapshot) : Prop :=
  let bs := merge_sort block_height_le (ps_blocks ps) in
  linked_from ZERO_HASH 1 bs /\ is_Some (apply_blocks bs genesis_state) /\
  (bs = [] -> ps_height ps <= 0).

(** The node a restart on that file gives. *)
Record restored (ps : PersistedSnapshot) (m : Node) : Prop := {
  rst_replay :
    apply_blocks (merge_sort block_height_le (ps_blocks ps)) genesis_state = Some (chain_state_of m);
  rst_index : index_maps (n_snapshot m)
    = index_maps (foldl index_block NodeSnapshot_new (merge_sort block_height_le (ps_blocks ps)));
  rst_tip : (sn_height (n_snapshot m), sn_tip_hash (n_snapshot m))
    = match last (merge_sort block_height_le (ps_blocks ps)) with
      | Some b => (Z.of_nat (length (ps_blocks ps)), block_hash (bl_header b))
      | None => (ps_height ps, ps_tip_hash ps)
      end;
  rst_slashing : sn_slashing_state (n_snapshot m) = ps_slashing_state ps;
  rst_height : n_height m = saturating_add (sn_height (n_snapshot m)) 1;
  rst_round : n_round m = 0 /\ n_step m = SPropose /\ n_locked m = None /\
    n_round_state m = RoundState_new /\ n_mempool m = [];
}.

Lemma linked_last prev h bs b :
  linked_from prev h bs -> last bs = Some b ->
  hd_height (bl_header b) = h + Z.of_nat (length bs) - 1.
Proof.
  revert prev h. induction bs as [|b1 bs IH]; intros prev h; [done|]. intros (Eh & _ & Hl) E.
  destruct bs as [|b2 bs]; [injection E as <-; simpl; lia|].
  rewrite last_cons_cons in E. rewrite (IH _ _ Hl E). cbn [length]. lia.
Qed.

Lemma restore_ok env n store ps :
  n_store n = Some store -> load (env_fs_ok env) store = Ok (Some ps) ->
  chain_state_of n = genesis_state -> n_mempool n = [] ->
  Z.of_nat (length (ps_blocks ps)) < u64_max -> restorable ps ->
  exists m, restore_from_store env n = Ok m /\ restored ps m.
Proof.
  intros Hst Hload Hcs Hmp Hlen (Hl & [st Ha] & Hh).
  unfold restore_from_store. rewrite Hst, Hload. cbn [map_err result_bind mbind].
  set (bs := merge_sort block_height_le (ps_blocks ps)) in *.
  assert (length bs = length (ps_blocks ps)) as Elen by (unfold bs; by rewrite merge_sort_Permutation).
  assert (bool_decide (bs = []) && (0 <? ps_height ps) = false) as ->.
  { case_bool_decide as Hb; [|done]. simpl. apply Z.ltb_ge. auto. }
  erewrite replay_blocks_ok; [|done|lia|lia|by rewrite Hcs].
  cbn [result_bind mbind]. fold bs.
  destruct (last bs) as [b|] eqn:El; cbn [result_bind];
    (eexists; split; [reflexivity|]);
    (split; fold bs; rewrite ?El; [| | |by destruct (ps_slashing_state ps)|
       by destruct (ps_slashing_state ps)|by destruct (ps_slashing_state ps)]).
  all: try (rewrite Ha; destruct (ps_slashing_state ps), st; done).
  all: try (destruct (ps_slashing_state ps); done).
  pose proof (linked_last _ _ _ _ Hl El). simpl. f_equal. lia.
Qed.

Lemma restore_ok_inv env n store ps m :
  n_store n = Some store -> load (env_fs_ok env) store = Ok (Some ps) ->
  chain_state_of n = genesis_state -> Z.of_nat (length (ps_blocks ps)) < u64_max ->
  restore_from_store env n = Ok m -> restorable ps.
Proof.
  intros Hst Hload Hcs Hlen. unfold restore_from_store, restorable. rewrite Hst, Hload. cbn [map_err result_bind mbind].
  set (bs := merge_sort block_height_le (ps_blocks ps)) in *.
  assert (length bs = length (ps_blocks ps)) as Elen by (unfold bs; by rewrite merge_sort_Permutation).
  destruct (bool_decide (bs = []) && (0 <? ps_height ps)) eqn:Eg; [done|].
  destruct (replay_blocks bs _ _ _ _) as [[m' snap']|] eqn:Er; [|done]. intros _.
  apply replay_blocks_inv in Er as [Hl Ha]; [|lia..]. rewrite Hcs in Ha. split_and!; [done|done|].
  intros Hb. apply andb_false_iff in Eg as [Eg|Eg]; [by apply bool_decide_eq_false in Eg|].
  by apply Z.ltb_ge in Eg.
Qed.

(** C9: what a restart does, for every content of the snapshot file.  A file
    that cannot be read or parsed stops the start with that error; without a
    file the node starts an empty chain at height one; and a parsed file is
    accepted exactly when its blocks, sorted by height, link up from the zero
    hash at height one and replay without an error (a file without blocks: when
    it claims no height), and then the node has the ledger, the contexts, the
    indexes, the tip and the height those blocks give, whatever height and tip
    the file claims, and starts round zero of the next height.  The file of a
    node that ran with this program is always the missing one, so its restart
    begins an empty chain. *)
Theorem restart_exact genesis infos env keypair store :
  validator_infos genesis = Ok infos ->
  has_validator (ValidatorSet_new infos)
    (node_id_from_pubkey (public_key_to_bytes (kp_public keypair))) = true ->
  let start := Node_new env genesis keypair (Some store) NodeSnapshot_new in
  match load (env_fs_ok env) store with
  | Err e => start = Err (StoreFailed e)
  | Ok None => exists m, start = Ok m /\ chain_state_of m = genesis_state /\
      index_maps (n_snapshot m) = index_maps NodeSnapshot_new /\ n_height m = 1 /\ started genesis m
  | Ok (Some ps) => Z.of_nat (length (ps_blocks ps)) < u64_max ->
      (is_ok start = true <-> restorable ps) /\ forall m, start = Ok m -> restored ps m
  end /\
  (forall n, reachable_node genesis n -> n_store n = Some store -> load (env_fs_ok env) store = Ok None).
Proof.
  intros Ei Hkey start. split.
  2: { intros n (_ & _ & _ & _ & Hf)%reachable_node_inv Hs. unfold load. by rewrite (Hf _ Hs). }
  unfold start, Node_new. rewrite Ei. cbn [map_err result_bind mbind]. rewrite Hkey. cbn [negb].
  set (n0 := mkNode _ _ _ _ _ _ _ _ _ _ _ _ _ _ _ _ _ _).
  destruct (load (env_fs_ok env) store) as [[ps|]|e] eqn:El.
  - intros Hlen. split; [split|].
    + destruct (restore_from_store env n0) eqn:E; [|done]. intros _. by eapply (restore_ok_inv env n0 store).
    + intros Hr. by destruct (restore_ok env n0 store ps) as (m & -> & _).
    + intros m E. destruct (restore_ok env n0 store ps) as (m' & E' & Hm'); try done.
      * by eapply (restore_ok_inv env n0 store).
      * congruence.
  - assert (fresh_store (Some store)) as Hf.
    { intros s [= <-]. unfold load in El. destruct (store_file store), (env_fs_ok env); try done.
      by destruct (snapshot_from_slice _). }
    rewrite restore_fresh by done. exists n0. split_and!; try done.
    exists env, keypair, (Some store). split; [done|]. unfold Node_new. rewrite Ei. cbn [map_err result_bind mbind].
    rewrite Hkey. cbn [negb]. by rewrite restore_fresh.
  - unfold restore_from_store. simpl. by rewrite El.
Qed.

End safety.
