(* ===== verification/NodeBehaviour.v ===== *)
(** * What the node's handlers do

    The functional behaviour of the proposer (block selection), of the lock,
    of the mempool accounting and of the timeouts, and a preservation principle
    for predicates that every primitive update of the node respects. *)

From Stdlib Require Import ZArith Lia Strings.Byte.
From stdpp Require Import base gmap list.
From S2P Require Import Prelude Crypto Event Ledger Merkle Validation BftTypes BftConfig Slashing.
From S2P Require Import ValidatorSet ApplyBlock Snapshot Node NodeFacts NodeSafety.

Section behaviour.
Context `{Sha256} `{Ed25519} `{Hex} `{SnapshotJson}.

(** ** Building a block *)

Lemma txs_bytes_snoc txs tx :
  txs_bytes (txs ++ [tx]) = wrap64 (txs_bytes txs + Z.of_nat (length tx)).
Proof. unfold txs_bytes. by rewrite foldl_app. Qed.

(** The selection loop, started after [acc] was selected. *)
Lemma select_txs_gen max_events max_bytes acc pool :
  Z.of_nat (length acc) <= max_events -> txs_bytes acc <= max_bytes ->
  let sel := select_txs max_events max_bytes (Z.of_nat (length acc)) (txs_bytes acc) pool in
  exists rest, pool = sel ++ rest /\
    Z.of_nat (length (acc ++ sel)) <= max_events /\
    txs_bytes (acc ++ sel) <= max_bytes /\
    (rest = [] \/ Z.of_nat (length (acc ++ sel)) = max_events \/
     exists tx rest', rest = tx :: rest' /\ max_bytes < txs_bytes (acc ++ sel ++ [tx])).
Proof.
  revert acc. induction pool as [|tx pool IH]; intros acc Hc Hb; simpl.
  - exists []. rewrite !app_nil_r. auto.
  - destruct (Z.leb_spec max_events (Z.of_nat (length acc))).
    { exists (tx :: pool). rewrite !app_nil_r. split; [done|]. split; [done|]. split; [done|].
      right. left. lia. }
    rewrite <- txs_bytes_snoc. destruct (Z.ltb_spec max_bytes (txs_bytes (acc ++ [tx]))).
    { exists (tx :: pool). rewrite !app_nil_r. split; [done|]. split; [done|]. split; [done|].
      right. right. by exists tx, pool. }
    destruct (IH (acc ++ [tx])) as (rest & E & Hc' & Hb' & Hor);
      [rewrite length_app; simpl; lia|done|].
    replace (Z.of_nat (length (acc ++ [tx]))) with (Z.of_nat (length acc) + 1) in *
      by (rewrite length_app; simpl; lia).
    set (sel := select_txs _ _ _ _ pool) in *.
    assert (forall l : list Tx, acc ++ (tx :: sel) ++ l = (acc ++ [tx]) ++ sel ++ l) as Ea
      by (intros l; by rewrite <- !app_assoc).
    pose proof (Ea []) as Ea0. rewrite !app_nil_r in Ea0.
    exists rest. rewrite Ea0. split; [simpl; by f_equal|]. split; [done|]. split; [done|].
    destruct Hor as [?|[?|(tx' & rest' & ? & ?)]]; auto.
    right. right. exists tx', rest'. rewrite Ea. done.
Qed.

(** A proposer builds a block its own validation accepts: it extends the
    tip at the node's height and round, carries the right transaction root and
    respects both limits; its transactions are a prefix of the mempool, and the
    prefix is maximal: it is the whole pool, or it has the maximal number of
    events, or the next transaction would exceed the byte limit. *)
Theorem build_block_valid env n :
  0 <= cc_max_events (consensus_of n) -> 0 <= cc_max_block_bytes (consensus_of n) ->
  validate_block n (build_block env n) = true /\
  exists rest, n_mempool n = bl_txs (build_block env n) ++ rest /\
    (rest = [] \/
     Z.of_nat (length (bl_txs (build_block env n))) = cc_max_events (consensus_of n) \/
     exists tx rest', rest = tx :: rest' /\
       cc_max_block_bytes (consensus_of n) < txs_bytes (bl_txs (build_block env n) ++ [tx])).
Proof.
  intros He Hb.
  destruct (select_txs_gen (cc_max_events (consensus_of n)) (cc_max_block_bytes (consensus_of n))
    [] (n_mempool n) He Hb) as (rest & E & Hc' & Hb' & Hor).
  split; [|by exists rest]. apply validate_block_true. split; [apply extends_tip_build_block|done].
Qed.

(** The pool is first in, first out: a transaction larger than the block
    limit at its head is never skipped, so every block the node builds while it
    is there is empty, whatever else is queued. *)
Theorem oversized_head_blocks_pool env n tx rest :
  n_mempool n = tx :: rest ->
  cc_max_block_bytes (consensus_of n) < Z.of_nat (length tx) -> is_u64 (Z.of_nat (length tx)) ->
  bl_txs (build_block env n) = [].
Proof.
  intros E Hlt Hu. unfold build_block. rewrite E. simpl. destruct (_ <=? 0); [done|].
  rewrite Z.add_0_l, wrap64_small by done. by rewrite (proj2 (Z.ltb_lt _ _) Hlt).
Qed.

(** ** Own votes *)

(** A vote for the zero hash triggers nothing: it is counted and sent. *)
Lemma zero_vote_quiet env t n n' :
  broadcast_vote env t ZERO_HASH n = Done n' ->
  n_net n' = n_net n ++ [MsgVote (make_vote n t ZERO_HASH)] /\ n_locked n' = n_locked n /\
  n_snapshot n' = n_snapshot (detect_and_slash env (make_vote n t ZERO_HASH) n) \/
  n_net n' = n_net n ++ [MsgVote (make_vote n t ZERO_HASH)] /\ n_locked n' = n_locked n /\
  n_snapshot n' = n_snapshot n.
Proof.
  unfold broadcast_vote, broadcast_vote_with. intros (n1 & E1 & [= <-])%outcome_bind_done.
  unfold handle_vote in E1. cbn [handle_vote_fuel] in E1. rewrite handle_vote_body_eq in E1.
  destruct (vote_admitted _ _); [|injection E1 as <-; by right].
  destruct (detect_and_slash_fields env (make_vote n t ZERO_HASH) n)
    as (_ & _ & _ & _ & _ & _ & _ & _ & _ & En & El & _).
  left. assert (n1 = counted env (make_vote n t ZERO_HASH) n) as ->.
  { destruct (quorum_met _ _); [|by injection E1 as <-].
    unfold react_to_quorum, try_commit in E1. cbn [make_vote sv_vote v_vote_type v_block_hash] in E1.
    rewrite !decide_False in E1 by (intros Hn; by apply Hn).
    destruct t; by injection E1 as <-. }
  simpl. rewrite En. done.
Qed.

(** The proposals [handle_proposal] processes. *)
Definition proposal_accepted (n : Node) (p : Proposal) : Prop :=
  p_height p = n_height n /\ p_round p = n_round n /\ verify_proposal n p = Some true /\
  validate_block n (p_block p) = true.

(** A locked node votes for its lock only: on any accepted proposal of
    another block it sends exactly one message, a prevote for nil, and its lock
    and chain do not change. *)
Lemma locked_node_prevotes_nil env n p locked n' :
  n_locked n = Some locked -> proposal_accepted n p ->
  block_hash (bl_header (p_block p)) <> locked ->
  handle_proposal env p n = Done n' ->
  n_net n' = n_net n ++ [MsgVote (make_vote n Prevote ZERO_HASH)] /\
  n_locked n' = Some locked /\
  sn_blocks_by_height (n_snapshot n') = sn_blocks_by_height (n_snapshot n).
Proof.
  intros Hl (Eh & Er & Hv & Hb) Hne. unfold handle_proposal.
  rewrite Eh, Er, !Z.eqb_refl, Hv, Hb. simpl. rewrite Hl.
  rewrite (bool_decide_eq_true_2 (locked <> _)) by done.
  intros (n1 & E1 & [= <-])%outcome_bind_done. simpl.
  set (n2 := set_round_state _ n) in *.
  destruct (zero_vote_quiet _ _ _ _ E1) as [(-> & -> & ->)|(-> & -> & ->)]; [|done].
  split; [done|]. split; [done|].
  destruct (detect_and_slash_fields env (make_vote n2 Prevote ZERO_HASH) n2)
    as (_ & _ & _ & _ & _ & _ & _ & _ & _ & _ & _ & _ & _ & _ & [->| ->]); done.
Qed.

(** A lock does not survive its round: the header that is hashed contains
    the round, so a node locked on a block of another round prevotes nil on
    every proposal it accepts, and could prevote otherwise only if the headers
    collide. *)
Theorem stale_lock_prevotes_nil env n p hd n' :
  n_locked n = Some (block_hash hd) -> hd_round hd <> n_round n ->
  wf_header hd -> wf_header (bl_header (p_block p)) -> proposal_accepted n p ->
  handle_proposal env p n = Done n' ->
  n_net n' = n_net n ++ [MsgVote (make_vote n Prevote ZERO_HASH)] \/
  collision (header_bytes hd) (header_bytes (bl_header (p_block p))).
Proof.
  intros Hl Hr W1 W2 Ha E.
  destruct (decide (block_hash (bl_header (p_block p)) = block_hash hd)) as [Eq|Hne].
  - right. symmetry in Eq. apply block_hash_binding in Eq as [->|]; [|done..].
    destruct Ha as (_ & _ & _ & [(_ & Hround & _) _]%validate_block_true). congruence.
  - left. by eapply locked_node_prevotes_nil.
Qed.

(** ** Predicates kept by every primitive update *)

Record update_closed (P : Node -> Prop) : Prop := {
  uc_step s n : P n -> P (set_step s n);
  uc_locked l n : P n -> P (set_locked l n);
  uc_clock t n : P n -> P (set_round_start t n);
  uc_round r n : P n -> P (set_round r n);
  uc_round_state rs n : P n -> P (set_round_state rs n);
  uc_broadcast m n : P n -> P (broadcast m n);
  uc_submit tx b n : P n -> P (submit_tx tx b n);
  uc_slash env signed n : P n -> P (detect_and_slash env signed n);
  uc_commit env block n n' r : commit_block env block n = (n', Ok r) -> P n -> P n';
}.

Definition preserves (P : Node -> Prop) (f : Node -> outcome Node) : Prop :=
  forall n n', P n -> f n = Done n' -> P n'.

Section closed.
Context (P : Node -> Prop) (Hc : update_closed P).

Lemma closed_try_commit env v : preserves P (try_commit env v).
Proof.
  intros n n' Hp. unfold try_commit. case_decide; [|by intros [= <-]].
  destruct (rs_proposal _) as [p|]; [|by intros [= <-]]. case_decide; [|by intros [= <-]].
  destruct (commit_block _ _ _) as [n1 [r|]] eqn:E; [|done]. intros [= <-].
  by eapply uc_commit.
Qed.

Lemma closed_broadcast_vote_with hv t bh :
  (forall signed, preserves P (hv signed)) -> preserves P (broadcast_vote_with hv t bh).
Proof.
  intros Hhv n n' Hp. unfold broadcast_vote_with. intros (n1 & E1 & [= <-])%outcome_bind_done.
  apply uc_broadcast; [done|]. by eapply Hhv.
Qed.

Lemma closed_handle_vote_fuel fuel env signed : preserves P (handle_vote_fuel fuel env signed).
Proof.
  revert signed. induction fuel as [|fuel IH]; intros signed n n' Hp; simpl; [done|].
  rewrite handle_vote_body_eq. destruct (vote_admitted _ _); [|by intros [= <-]].
  assert (P (counted env signed n)) as Hp1
    by (unfold counted, count_vote; apply (uc_round_state P Hc), (uc_slash P Hc), Hp).
  destruct (quorum_met _ _); [|by intros [= <-]]. unfold react_to_quorum.
  destruct (v_vote_type _); [|by apply closed_try_commit].
  case_decide; [|by intros [= <-]]. intros (n1 & E1 & [= <-])%outcome_bind_done.
  apply uc_step; [done|]. eapply closed_broadcast_vote_with; [exact IH| |exact E1].
  by apply uc_locked.
Qed.

Lemma closed_vote_then env t bh k n n' :
  (forall m, P m -> P (k m)) -> P n ->
  (let! m := broadcast_vote env t bh n in Done (k m)) = Done n' -> P n'.
Proof.
  intros Hk Hp (n1 & E1 & [= <-])%outcome_bind_done. apply Hk.
  eapply closed_broadcast_vote_with; [|exact Hp|exact E1]. apply closed_handle_vote_fuel.
Qed.

Lemma closed_handle_proposal env p : preserves P (handle_proposal env p).
Proof.
  intros n n' Hp. unfold handle_proposal. destruct (negb _); [by intros [= <-]|].
  destruct (verify_proposal n p) as [[]|]; [|by intros [= <-]|done].
  destruct (negb _);
    [by apply (closed_vote_then env Prevote _ (set_step SPrevote)); [apply uc_step|]|].
  destruct (match n_locked _ with Some _ => _ | None => _ end);
    apply (closed_vote_then env Prevote _ (set_step SPrevote));
    (by apply uc_step) || by apply uc_round_state.
Qed.

Lemma closed_handle_message env m : preserves P (handle_message env m).
Proof.
  intros n n' Hp. destruct m; simpl; intros E.
  - by injection E as <-.
  - injection E as <-. by apply uc_submit.
  - by eapply closed_handle_proposal.
  - by eapply closed_handle_vote_fuel.
Qed.

Lemma closed_maybe_propose env : preserves P (maybe_propose env).
Proof.
  intros n n' Hp E. unfold maybe_propose in E. destruct (_ || _); [by injection E as <-|].
  destruct (proposer_for _ _ _); [|done]. case_decide; [by injection E as <-|].
  eapply closed_handle_proposal; [|exact E]. by apply uc_broadcast, uc_round_state.
Qed.

Lemma closed_check_timeouts env : preserves P (check_timeouts env).
Proof.
  intros n n' Hp E. unfold check_timeouts in E. destruct (_ <? _); [|by injection E as <-].
  assert (forall s m, P m -> P (set_round_start (env_now env) (set_step s m))) as Hk
    by (intros; by apply uc_clock, uc_step).
  destruct (n_step n).
  - destruct (rs_proposal _); simpl in E; [injection E as <-; by apply Hk|].
    by eapply (closed_vote_then env Prevote _ _ n n' (Hk SPrevote)).
  - by eapply (closed_vote_then env Precommit _ _ n n' (Hk SPrecommit)).
  - injection E as <-. by apply uc_clock, uc_round_state, uc_step, uc_round.
Qed.

Lemma closed_node_step n n' : P n -> node_step n n' -> P n'.
Proof.
  intros Hp. destruct 1 as [env m n n' _ E|tx n|env n n' _ E|env n n' _ E].
  - by eapply closed_handle_message.
  - by apply uc_submit.
  - by eapply closed_maybe_propose.
  - by eapply closed_check_timeouts.
Qed.

Lemma closed_node_steps n n' : P n -> rtc node_step n n' -> P n'.
Proof. intros Hp Hs. revert Hp. induction Hs; [done|]. eauto using closed_node_step. Qed.

End closed.

(** ** The mempool *)

Definition pool_bytes (pool : list Tx) : Z :=
  foldr (fun tx s => Z.of_nat (length tx) + s) 0 pool.

Lemma pool_bytes_nonneg pool : 0 <= pool_bytes pool.
Proof. induction pool; simpl; lia. Qed.

Lemma pool_bytes_snoc pool tx : pool_bytes (pool ++ [tx]) = pool_bytes pool + Z.of_nat (length tx).
Proof. induction pool as [|t pool IH]; simpl; lia. Qed.

Lemma saturating_fold_bytes pool :
  foldl (fun s tx => saturating_add s (Z.of_nat (length tx))) 0 pool
  = Z.min (pool_bytes pool) u64_max.
Proof.
  induction pool as [|tx pool IH] using rev_ind; [done|].
  rewrite foldl_app, pool_bytes_snoc. simpl. rewrite IH. unfold saturating_add.
  pose proof (pool_bytes_nonneg pool). unfold u64_max. lia.
Qed.

(** The byte counter is the size of the pool, and no queued transaction is
    empty. *)
Definition mempool_ok (n : Node) : Prop :=
  n_mempool_bytes n = Z.min (pool_bytes (n_mempool n)) u64_max /\
  Forall (fun tx => tx <> []) (n_mempool n).

Lemma filter_all {A} (Q : A -> Prop) `{forall x, Decision (Q x)} (l : list A) :
  (forall x, Q x) -> filter Q l = l.
Proof.
  intros HQ. induction l as [|x l IH]; [done|]. rewrite filter_cons_True by apply HQ. by f_equal.
Qed.

Lemma Forall_filter_sub {A} (Q R : A -> Prop) `{forall x, Decision (Q x)} (l : list A) :
  Forall R l -> Forall R (filter Q l).
Proof. rewrite !Forall_forall. intros HR x [_ ?]%list_elem_of_filter. by apply HR. Qed.

(** A commit removes the committed transactions and keeps the others in
    order. *)
Lemma commit_mempool env block n n' r :
  commit_block env block n = (n', Ok r) ->
  n_mempool n' = filter (fun tx => tx_hash tx ∉ map tx_hash (bl_txs block)) (n_mempool n) /\
  (mempool_ok n -> mempool_ok n').
Proof.
  unfold commit_block, node_apply_block. destruct (apply_block _ _ _) as [st [u|e]]; [|done].
  intros [= <- _]. unfold prune_mempool, mempool_ok.
  destruct (bl_txs block) as [|t txs] eqn:Et; simpl; destruct (n_store n); simpl.
  1,2: split; [|done]; symmetry; apply filter_all; intros; set_solver.
  all: assert (forall pool : list Tx, filter (fun tx => tx_hash tx ∉
      ({[tx_hash t]} ∪ list_to_set (map tx_hash txs) : gset Hash)) pool
    = filter (fun tx => tx_hash tx ∉ tx_hash t :: map tx_hash txs) pool) as Ef
    by (intros pool; apply list_filter_iff; intros x; set_solver).
  all: rewrite Ef, saturating_fold_bytes; split; [done|]; intros [_ Hne]; split; [done|];
    by apply Forall_filter_sub.
Qed.

Lemma mempool_ok_closed : update_closed mempool_ok.
Proof.
  split; try done.
  - intros [|b tx] bc n; [done|]. intros [E Hne].
    assert (mempool_ok (set_mempool (n_mempool n ++ [b :: tx]) (set_mempool_bytes
      (saturating_add (n_mempool_bytes n) (Z.of_nat (length (b :: tx)))) n))) as Hok.
    { split; cbn [n_mempool n_mempool_bytes set_mempool set_mempool_bytes].
      - rewrite E, pool_bytes_snoc. unfold saturating_add.
        pose proof (pool_bytes_nonneg (n_mempool n)). unfold u64_max. lia.
      - apply Forall_app. split; [done|by constructor]. }
    by destruct bc.
  - intros env signed n [E Hne]. unfold detect_and_slash.
    destruct (record_vote _ _ _) as [st [ev|]]; [|done]. by destruct (slash _ _ _ _ _) as [[]|].
  - intros env block n n' r E. by apply (commit_mempool _ _ _ _ _ E).
Qed.

(** Mempool accounting: in every reachable node the byte counter is the
    total size of the queued transactions (capped at the end of the [u64]
    range) and no queued transaction is empty. *)
Theorem mempool_accounting genesis n :
  reachable_node genesis n ->
  n_mempool_bytes n = Z.min (pool_bytes (n_mempool n)) u64_max /\
  Forall (fun tx => tx <> []) (n_mempool n).
Proof.
  intros (n0 & (env & kp & store & Hf & E) & Hs).
  apply (closed_node_steps mempool_ok mempool_ok_closed n0); [|done].
  unfold Node_new in E. destruct (validator_infos genesis) as [infos|]; [|done]. simpl in E.
  destruct (has_validator _ _); [|done]. simpl in E. rewrite restore_fresh in E by done.
  by injection E as <-.
Qed.

(** ** Timeouts *)

Definition backoff_step (num den b : Z) : Z := saturating_mul_u128 b num / den.

Lemma backoff_step_range num den b :
  0 <= num -> 1 <= den -> 0 <= b -> 0 <= backoff_step num den b /\ backoff_step num den b * den <= u128_max.
Proof.
  intros Hn Hd Hb. unfold backoff_step, saturating_mul_u128.
  assert (0 <= Z.min (b * num) u128_max) as Hm by (unfold u128_max; lia).
  split; [apply Z.div_pos; lia|].
  pose proof (Z.mul_div_le (Z.min (b * num) u128_max) den ltac:(lia)). lia.
Qed.

Lemma backoff_step_grows num den b :
  1 <= den -> den <= num -> 0 <= b -> b * den <= u128_max -> b <= backoff_step num den b.
Proof.
  intros Hd Hn Hb Hm. unfold backoff_step, saturating_mul_u128.
  apply Z.div_le_lower_bound; [lia|]. apply Z.min_glb; nia.
Qed.

Lemma backoff_iter_range num den b k :
  0 <= num -> 1 <= den -> 0 <= b -> b * den <= u128_max ->
  0 <= Nat.iter k (backoff_step num den) b /\
  Nat.iter k (backoff_step num den) b * den <= u128_max.
Proof.
  intros Hn Hd Hb Hm. induction k as [|k [IH1 IH2]]; [done|]. by apply backoff_step_range.
Qed.

Lemma backoff_iter_mono num den b k j :
  1 <= den -> den <= num -> 0 <= b -> b * den <= u128_max ->
  Nat.iter k (backoff_step num den) b <= Nat.iter (j + k) (backoff_step num den) b.
Proof.
  intros Hd Hn Hb Hm. induction j as [|j IH]; [done|].
  destruct (backoff_iter_range num den b (j + k)) as [H1' H2']; [lia..|].
  etrans; [exact IH|]. by apply backoff_step_grows.
Qed.

Lemma timeout_nonneg base cfg r :
  is_u64 base -> is_u64 (cc_timeout_backoff_num cfg) -> is_u64 (cc_timeout_backoff_den cfg) ->
  is_u64 (cc_timeout_cap_ms cfg) -> 0 <= timeout_backoff base cfg r.
Proof.
  unfold is_u64. intros Hb Hn Hd Hc. unfold timeout_backoff.
  set (den := Z.max (cc_timeout_backoff_den cfg) 1).
  assert (base * den <= u128_max) as Hm by (unfold den, u64_max, u128_max in *; nia).
  destruct (backoff_iter_range (cc_timeout_backoff_num cfg) den base (Z.to_nat r)) as [? _]; [lia..|].
  fold (backoff_step (cc_timeout_backoff_num cfg) den). lia.
Qed.

(** C37: timeouts are bounded and grow: for [u64] settings the timeout of a
    round lies between zero and the cap, the timeout of round zero is the base
    (capped), and if the backoff factor is at least one, no later round has a
    smaller timeout; the [u128] arithmetic never overflows on the way. *)
Theorem timeout_backoff_bounds base cfg r r' :
  is_u64 base -> is_u64 (cc_timeout_backoff_num cfg) -> is_u64 (cc_timeout_backoff_den cfg) ->
  is_u64 (cc_timeout_cap_ms cfg) -> 0 <= r <= r' ->
  0 <= timeout_backoff base cfg r <= cc_timeout_cap_ms cfg /\
  timeout_backoff base cfg 0 = Z.min base (cc_timeout_cap_ms cfg) /\
  (Z.max (cc_timeout_backoff_den cfg) 1 <= cc_timeout_backoff_num cfg ->
   timeout_backoff base cfg r <= timeout_backoff base cfg r').
Proof.
  unfold is_u64. intros Hb Hn Hd Hc Hr. unfold timeout_backoff.
  set (num := cc_timeout_backoff_num cfg) in *.
  set (den := Z.max (cc_timeout_backoff_den cfg) 1).
  assert (base * den <= u128_max) as Hm by (unfold den, u64_max, u128_max in *; nia).
  destruct (backoff_iter_range num den base (Z.to_nat r)) as [H1' _]; [lia..|].
  fold (backoff_step num den). split; [lia|]. split; [done|]. intros Hg.
  pose proof (backoff_iter_mono num den base (Z.to_nat r) (Z.to_nat (r' - r))
    ltac:(lia) Hg ltac:(lia) Hm) as Hmono.
  replace (Z.to_nat (r' - r) + Z.to_nat r)%nat with (Z.to_nat r') in Hmono by lia. lia.
Qed.

End behaviour.
