(* ===== verification/NodeHistory.v ===== *)
(** * What a node remembers

    The transactions of the committed chain against the ledger and the
    transaction index: a transaction is committed at most once, the ledger
    holds exactly the committed ones, an index entry never changes, and a
    transaction in the pool stays there until it is committed.  Then what one
    turn of the main loop does with its messages, its commands and the clock. *)

From Stdlib Require Import ZArith Lia Strings.Byte.
From stdpp Require Import base gmap list sorting.
From S2P Require Import Prelude Crypto Event Ledger Merkle Validation BftTypes BftConfig Slashing.
From S2P Require Import ValidatorSet ApplyBlock Snapshot Node NodeFacts NodeSafety NodeBehaviour.

Section history.
Context `{Sha256} `{Ed25519} `{Hex} `{SnapshotJson}.

(** The hashes of the transactions of a list of blocks, in order. *)
Definition block_hashes (b : Block) : list Hash := map tx_hash (bl_txs b).
Definition chain_hashes (bs : list Block) : list Hash := concat (map block_hashes bs).

(** ** Accepted events *)

Lemma decodes_hashes txs evs : decodes txs evs -> map tx_hash txs = map hash_event evs.
Proof.
  induction 1 as [|tx ev txs evs Hd _ IH]; simpl; [done|].
  apply decode_event_iff in Hd as [_ ->]. by rewrite IH.
Qed.

Lemma acceptable_run_fresh skew st evs :
  acceptable_run skew st evs ->
  NoDup (map hash_event evs) /\ forall h, h ∈ map hash_event evs -> h ∉ hashes_set (cs_ledger st).
Proof.
  revert st. induction evs as [|ev evs IH]; intros st; simpl.
  { intros _. split; [constructor|set_solver]. }
  intros [(_ & _ & _ & Hh & _) [Hnd Hfresh]%IH]. rewrite hashes_accept in Hfresh. split.
  - constructor; [|done]. intros Hin. apply Hfresh in Hin. set_solver.
  - intros h [->|Hin]%elem_of_cons; [done|]. apply Hfresh in Hin. set_solver.
Qed.

(** Applying blocks adds exactly their transactions, each for the first time. *)
Lemma apply_blocks_hashes bs st st' :
  apply_blocks bs st = Some st' ->
  NoDup (chain_hashes bs) /\
  (forall h, h ∈ chain_hashes bs -> h ∉ hashes_set (cs_ledger st)) /\
  hashes_set (cs_ledger st') = list_to_set (chain_hashes bs) ∪ hashes_set (cs_ledger st).
Proof.
  revert st. induction bs as [|b bs IH]; intros st; simpl.
  { intros [= <-]. split; [constructor|]. split; set_solver. }
  destruct (apply_block_cases default_max_backward_skew b st)
    as [(evs & Hd & Hr & ->)|(e & ->)]; [|done].
  intros (Hnd & Hfresh & Hs)%IH. unfold chain_hashes in *. simpl. unfold block_hashes at 1 3 5.
  rewrite (decodes_hashes _ _ Hd). apply acceptable_run_fresh in Hr as [Hnd1 Hfresh1].
  rewrite hashes_accept_run in Hfresh, Hs. split; [|split].
  - apply NoDup_app. split; [done|]. split; [|done]. intros h Hin Hin2. apply Hfresh in Hin2. set_solver.
  - intros h [Hin|Hin]%elem_of_app; [by apply Hfresh1|]. apply Hfresh in Hin. set_solver.
  - rewrite Hs, list_to_set_app_L. set_solver.
Qed.

(** A list without repetitions, cut into pieces: one position per element. *)
Lemma NoDup_concat_unique {A} (ls : list (list A)) i j l1 l2 k1 k2 x :
  NoDup (concat ls) -> ls !! i = Some l1 -> ls !! j = Some l2 ->
  l1 !! k1 = Some x -> l2 !! k2 = Some x -> i = j /\ k1 = k2.
Proof.
  revert i j. induction ls as [|l ls IH]; intros i j; simpl; [done|].
  intros (Hl & Hdisj & Hnd)%NoDup_app L1 L2 Hk1 Hk2.
  assert (forall j l', ls !! j = Some l' -> forall k, l' !! k = Some x -> x ∈ concat ls) as Hin.
  { intros j' l' Hj k Hk. apply list_elem_of_In, in_concat. exists l'.
    split; apply list_elem_of_In; by eapply list_elem_of_lookup_2. }
  destruct i as [|i], j as [|j]; simpl in *; simplify_eq.
  - split; [done|]. eapply NoDup_lookup; [exact Hl|exact Hk1|exact Hk2].
  - exfalso. eapply Hdisj; [by eapply list_elem_of_lookup_2|by eapply Hin].
  - exfalso. eapply Hdisj; [by eapply list_elem_of_lookup_2|by eapply Hin].
  - destruct (IH i j Hnd L1 L2 Hk1 Hk2) as [-> ->]. done.
Qed.

(** The block at a height is the one at that place of the chain. *)
Lemma chain_blocks_at snap h b :
  ChainInv snap -> sn_blocks_by_height snap !! h = Some b ->
  chain_blocks snap !! Z.to_nat (h - 1) = Some b.
Proof.
  intros Hc Hb. assert (1 <= h <= sn_height snap) as Hr by (apply (chain_domain _ Hc); by eexists).
  destruct (lookup_lt_is_Some_2 (chain_blocks snap) (Z.to_nat (h - 1))) as [b' Hb'].
  { pose proof (length_chain_blocks _ Hc). lia. }
  pose proof (chain_blocks_lookup _ _ _ Hc Hb') as E.
  replace (Z.of_nat (Z.to_nat (h - 1)) + 1) with h in E by lia. congruence.
Qed.

Lemma chain_tx_unique n h1 h2 b1 b2 k1 k2 x :
  NodeInv n ->
  sn_blocks_by_height (n_snapshot n) !! h1 = Some b1 ->
  sn_blocks_by_height (n_snapshot n) !! h2 = Some b2 ->
  block_hashes b1 !! k1 = Some x -> block_hashes b2 !! k2 = Some x -> h1 = h2 /\ k1 = k2.
Proof.
  intros Hinv H1' H2' Hk1 Hk2. pose proof (ni_chain _ Hinv) as Hc.
  destruct (apply_blocks_hashes _ _ _ (ni_replay _ Hinv)) as [Hnd _].
  assert (1 <= h1 <= sn_height (n_snapshot n) /\ 1 <= h2 <= sn_height (n_snapshot n)) as [? ?]
    by (split; apply (chain_domain _ Hc); by eexists).
  apply (chain_blocks_at _ _ _ Hc) in H1', H2'.
  destruct (NoDup_concat_unique (map block_hashes (chain_blocks (n_snapshot n)))
    (Z.to_nat (h1 - 1)) (Z.to_nat (h2 - 1)) (block_hashes b1) (block_hashes b2) k1 k2 x) as [? ?];
    try done; [by rewrite list_lookup_fmap, H1'|by rewrite list_lookup_fmap, H2'|lia].
Qed.

(** C8: no transaction is committed twice, and nothing else is in the ledger:
    in every reachable node, two places of the committed chain never hold
    transactions with the same hash, and the events in the ledger are exactly
    those of the committed transactions, under the transactions' own hashes. *)
Theorem transactions_committed_once genesis n h1 h2 b1 b2 k1 k2 tx1 tx2 :
  reachable_node genesis n ->
  sn_blocks_by_height (n_snapshot n) !! h1 = Some b1 ->
  sn_blocks_by_height (n_snapshot n) !! h2 = Some b2 ->
  bl_txs b1 !! k1 = Some tx1 -> bl_txs b2 !! k2 = Some tx2 ->
  (tx_hash tx1 = tx_hash tx2 -> h1 = h2 /\ k1 = k2) /\
  tx_hash tx1 ∈ hashes_set (n_ledger n) /\
  forall x, x ∈ hashes_set (n_ledger n) <->
    exists h b, sn_blocks_by_height (n_snapshot n) !! h = Some b /\ x ∈ block_hashes b.
Proof.
  intros (infos & _ & _ & Hinv & _)%reachable_node_inv Hb1 Hb2 Hk1 Hk2.
  pose proof (ni_chain _ Hinv) as Hc.
  assert (forall x, x ∈ hashes_set (n_ledger n) <->
    exists h b, sn_blocks_by_height (n_snapshot n) !! h = Some b /\ x ∈ block_hashes b) as Hled.
  { intros x. destruct (apply_blocks_hashes _ _ _ (ni_replay _ Hinv)) as (_ & _ & Hs).
    change (hashes_set (cs_ledger genesis_state)) with (∅ : gset Hash) in Hs.
    change (cs_ledger (chain_state_of n)) with (n_ledger n) in Hs.
    rewrite Hs, elem_of_union, elem_of_list_to_set, elem_of_empty.
    unfold chain_hashes. rewrite list_elem_of_In, in_concat. split.
    - intros [(l & Hl & Hx)|[]]. apply in_map_iff in Hl as (b & <- & Hb%list_elem_of_In).
      apply list_elem_of_lookup in Hb as [k Hk]. apply (chain_blocks_lookup _ _ _ Hc) in Hk.
      exists (Z.of_nat k + 1), b. split; [done|]. by apply list_elem_of_In.
    - intros (h & b & Hb & Hx). left. exists (block_hashes b). split; [|by apply list_elem_of_In].
      apply in_map, list_elem_of_In. apply (chain_blocks_at _ _ _ Hc) in Hb.
      by eapply list_elem_of_lookup_2. }
  split; [|split; [|done]].
  - intros E. eapply (chain_tx_unique n h1 h2 b1 b2 k1 k2 (tx_hash tx1)); try done;
      unfold block_hashes; rewrite list_lookup_fmap; [by rewrite Hk1|by rewrite Hk2, E].
  - apply Hled. exists h1, b1. split; [done|]. unfold block_hashes.
    apply (list_elem_of_fmap_2 tx_hash). by eapply list_elem_of_lookup_2.
Qed.

(** ** The transaction index *)

Lemma index_txs_lookup bh ht txs m h :
  index_txs bh ht txs m !! h
  = if decide (h ∈ map tx_hash txs) then Some (bh, ht) else m !! h.
Proof.
  unfold index_txs. induction txs as [|tx txs IH] using rev_ind; [done|].
  rewrite foldl_app, map_app. cbn [foldl map]. destruct (decide (tx_hash tx = h)) as [<-|Hne].
  - rewrite lookup_insert_eq, decide_True; [done|]. set_solver.
  - rewrite lookup_insert_ne by done. rewrite IH. repeat case_decide; set_solver.
Qed.

(** The index after a list of blocks. *)
Lemma index_blocks_lookup bs h :
  match sn_tx_index (foldl index_block NodeSnapshot_new bs) !! h with
  | Some (bh, ht) => exists b, b ∈ bs /\ bh = block_hash (bl_header b) /\
      ht = hd_height (bl_header b) /\ h ∈ map tx_hash (bl_txs b)
  | None => forall b, b ∈ bs -> h ∉ map tx_hash (bl_txs b)
  end.
Proof.
  induction bs as [|b bs IH] using rev_ind.
  { cbn [foldl NodeSnapshot_new sn_tx_index]. rewrite lookup_empty. by intros b ?%elem_of_nil. }
  rewrite foldl_app. cbn [foldl index_block sn_tx_index]. rewrite index_txs_lookup. case_decide as D.
  - exists b. split_and!; try done. set_solver.
  - destruct (sn_tx_index _ !! h) as [[bh ht]|].
    + destruct IH as (b' & ? & ? & ? & ?). exists b'. split_and!; try done. set_solver.
    + intros b' [?| ->%list_elem_of_singleton]%elem_of_app; auto.
Qed.

Lemma index_spec n x :
  NodeInv n ->
  match sn_tx_index (n_snapshot n) !! x with
  | Some (bh, ht) => exists b, sn_blocks_by_height (n_snapshot n) !! ht = Some b /\
      bh = block_hash (bl_header b) /\ x ∈ block_hashes b
  | None => forall h b, sn_blocks_by_height (n_snapshot n) !! h = Some b -> x ∉ block_hashes b
  end.
Proof.
  intros Hinv. pose proof (ni_chain _ Hinv) as Hc.
  pose proof (ni_index _ Hinv) as Hi. unfold index_maps in Hi. injection Hi as _ _ ->.
  pose proof (index_blocks_lookup (chain_blocks (n_snapshot n)) x) as Hb.
  destruct (sn_tx_index (foldl _ _ _) !! x) as [[bh ht]|].
  - destruct Hb as (b & Hin & -> & -> & Hx). exists b. split; [|done].
    apply list_elem_of_lookup in Hin as [k Hk]. apply (chain_blocks_lookup _ _ _ Hc) in Hk.
    by destruct (chain_links _ Hc _ _ Hk) as [-> _].
  - intros h b Hblk. apply Hb. apply (chain_blocks_at _ _ _ Hc) in Hblk.
    by eapply list_elem_of_lookup_2.
Qed.

(** An entry of the index never changes. *)
Lemma index_stable n n' x e :
  NodeInv n -> good n n' ->
  sn_tx_index (n_snapshot n) !! x = Some e -> sn_tx_index (n_snapshot n') !! x = Some e.
Proof.
  intros Hinv [Hinv' Hex] He. pose proof (index_spec n x Hinv) as Hi. rewrite He in Hi.
  destruct e as [bh ht]. destruct Hi as (b & Hb & -> & Hx).
  assert (sn_blocks_by_height (n_snapshot n') !! ht = Some b) as Hb'
    by (by eapply lookup_weaken; [|apply Hex]).
  pose proof (index_spec n' x Hinv') as Hi'.
  destruct (sn_tx_index (n_snapshot n') !! x) as [[bh' ht']|]; [|by eapply Hi' in Hb'].
  destruct Hi' as (b' & Hb'' & -> & Hx').
  apply list_elem_of_lookup in Hx as [k Hk], Hx' as [k' Hk'].
  destruct (chain_tx_unique n' ht ht' b b' k k' x Hinv' Hb' Hb'' Hk Hk') as [<- _]. congruence.
Qed.

(** ** The pool *)

(** A transaction that waits in the pool, or is committed. *)
Definition known_tx (tx : Tx) (n : Node) : Prop :=
  tx ∈ n_mempool n \/ is_Some (sn_tx_index (n_snapshot n) !! tx_hash tx).

Lemma known_tx_closed tx : update_closed (known_tx tx).
Proof.
  split; try done.
  - intros [|c t] b n Hk; [done|]. destruct Hk as [Hk|Hk]; [left|right; by destruct b].
    destruct b; simpl; set_solver.
  - intros env signed n [Hk|Hk]; unfold known_tx, detect_and_slash;
      destruct (record_vote _ _ _) as [st [ev|]]; try destruct (slash _ _ _ _ _) as [[]|]; auto.
  - intros env block n n' r E Hk. pose proof (commit_mempool _ _ _ _ _ E) as [Ep _].
    apply commit_block_ok in E as (_ & _ & _ & _ & _ & _ & _ & _ & Es & _).
    unfold known_tx. rewrite Ep, Es. cbn [snapshot_commit index_block sn_tx_index].
    rewrite index_txs_lookup. case_decide as Hd; [right; by eexists|].
    destruct Hk as [Hk|Hk]; [left|by right]. by apply list_elem_of_filter.
Qed.

(** A submitted transaction is in the pool. *)
Lemma submit_known tx b n : tx <> [] -> known_tx tx (submit_tx tx b n).
Proof. intros Hne. left. destruct tx; [done|]. destruct b; simpl; set_solver. Qed.

(** ** A turn of the loop *)

Definition step_timeout_ms (n : Node) : Z :=
  let cfg := consensus_of n in
  let base :=
    match n_step n with
    | SPropose => cc_propose_timeout_ms cfg
    | SPrevote => cc_prevote_timeout_ms cfg
    | SPrecommit => cc_precommit_timeout_ms cfg
    end in
  timeout_backoff base cfg (n_round n).

(** The node has been in its step for longer than the step may last. *)
Definition overdue (env : Env) (n : Node) : bool :=
  step_timeout_ms n * 1000000 <? env_now env - n_round_start n.

(** It is the node's turn to propose and it has not done so. *)
Definition proposal_due (n : Node) : Prop :=
  n_step n = SPropose /\ rs_proposed (n_round_state n) = false /\
  exists p, proposer_for (n_validators n) (n_height n) (n_round n) = Some p /\
    vi_node_id p = n_node_id n.

Definition next_step (s : Step) : Step :=
  match s with SPropose => SPrevote | SPrevote => SPrecommit | SPrecommit => SPropose end.

Definition timeouts_u64 (cfg : ConsensusConfig) : Prop :=
  is_u64 (cc_propose_timeout_ms cfg) /\ is_u64 (cc_prevote_timeout_ms cfg) /\
  is_u64 (cc_precommit_timeout_ms cfg) /\ is_u64 (cc_timeout_backoff_num cfg) /\
  is_u64 (cc_timeout_backoff_den cfg) /\ is_u64 (cc_timeout_cap_ms cfg).

#[global] Instance timeouts_u64_dec cfg : Decision (timeouts_u64 cfg).
Proof. unfold timeouts_u64, is_u64. apply _. Defined.

(** What was sent stays sent, and in order. *)
Lemma sent_closed ms : update_closed (fun n => ms `prefix_of` n_net n).
Proof.
  split; try done.
  - intros m n Hp. simpl. by apply prefix_app_r.
  - intros [|c t] b n Hp; [done|]. destruct b; [by apply prefix_app_r|exact Hp].
  - intros env signed n. unfold detect_and_slash.
    destruct (record_vote _ _ _) as [st [ev|]]; [|done]. by destruct (slash _ _ _ _ _) as [[]|].
  - intros env block n n' r E. unfold commit_block, node_apply_block in E.
    destruct (apply_block _ _ _) as [st [u|e]]; [|done]. injection E as <- _.
    unfold prune_mempool. destruct (bl_txs block); simpl; by destruct (n_store n).
Qed.

Lemma genesis_closed g : update_closed (fun n => n_genesis n = g).
Proof.
  split; try done.
  - intros [|c t] b n Hp; [done|]. by destruct b.
  - intros env signed n. unfold detect_and_slash.
    destruct (record_vote _ _ _) as [st [ev|]]; [|done]. by destruct (slash _ _ _ _ _) as [[]|].
  - intros env block n n' r E. unfold commit_block, node_apply_block in E.
    destruct (apply_block _ _ _) as [st [u|e]]; [|done]. injection E as <- _.
    unfold prune_mempool. destruct (bl_txs block); simpl; by destruct (n_store n).
Qed.

Lemma closed_handle_messages P : update_closed P -> forall env msgs, preserves P (handle_messages env msgs).
Proof.
  intros Hc env msgs. induction msgs as [|m msgs IH]; intros n n' Hp; simpl; [by intros [= <-]|].
  intros (n1 & E1 & E2)%outcome_bind_done. eapply IH; [|exact E2]. by eapply closed_handle_message.
Qed.

#[global] Instance NodeCommand_eq_dec : EqDecision NodeCommand.
Proof. solve_decision. Defined.

(** The commands, without the accumulated flag. *)
Fixpoint submit_all (cmds : list NodeCommand) (n : Node) : Node :=
  match cmds with
  | [] => n
  | SubmitTx tx :: rest => submit_all rest (submit_tx tx true n)
  | Shutdown :: rest => submit_all rest n
  end.

Lemma handle_commands_eq cmds n :
  handle_commands cmds n = (submit_all cmds n, bool_decide (Shutdown ∈ cmds)).
Proof.
  unfold handle_commands. enough (forall sd, foldl (fun '(n, shutdown) cmd =>
    match cmd with SubmitTx tx => (submit_tx tx true n, shutdown) | Shutdown => (n, true) end) (n, sd) cmds
    = (submit_all cmds n, sd || bool_decide (Shutdown ∈ cmds))) as E by apply E.
  revert n. induction cmds as [|[tx|] cmds IH]; intros n sd; cbn [foldl submit_all].
  - by rewrite orb_false_r.
  - rewrite IH. do 2 f_equal. apply bool_decide_ext. rewrite elem_of_cons. naive_solver.
  - rewrite IH. f_equal. symmetry. apply orb_true_iff. right. apply bool_decide_eq_true. by left.
Qed.

Lemma closed_submit_all P : update_closed P -> forall cmds n, P n -> P (submit_all cmds n).
Proof.
  intros Hc cmds. induction cmds as [|[tx|] cmds IH]; intros n Hp; simpl; [done| |by apply IH].
  by apply IH, uc_submit.
Qed.

Lemma prefix_elem (m : Message) l l' : m ∈ l -> l `prefix_of` l' -> m ∈ l'.
Proof. intros Hm [k ->]. apply elem_of_app. by left. Qed.

Lemma messages_known env msgs n n' tx :
  handle_messages env msgs n = Done n' -> tx <> [] -> MsgTx tx ∈ msgs -> known_tx tx n'.
Proof.
  revert n. induction msgs as [|m msgs IH]; intros n; simpl; [by intros _ _ ?%not_elem_of_nil|].
  intros (n1 & E1 & E2)%outcome_bind_done Hne [<-|Hin]%elem_of_cons; [|by eapply IH].
  injection E1 as <-. eapply closed_handle_messages; [apply known_tx_closed| |exact E2].
  by apply submit_known.
Qed.

Lemma commands_known cmds n tx :
  tx <> [] -> SubmitTx tx ∈ cmds ->
  known_tx tx (submit_all cmds n) /\ MsgTx tx ∈ n_net (submit_all cmds n).
Proof.
  intros Hne. revert n. induction cmds as [|c cmds IH]; intros n; [by intros ?%not_elem_of_nil|].
  intros [<-|Hin]%elem_of_cons; [|destruct c; by apply IH]. simpl. split.
  - apply closed_submit_all; [apply known_tx_closed|]. by apply submit_known.
  - apply (prefix_elem _ (n_net (submit_tx tx true n))).
    + destruct tx; [done|]. simpl. apply elem_of_app. right. by left.
    + by apply (closed_submit_all _ (sent_closed _)).
Qed.

Lemma maybe_propose_sends env n n' :
  maybe_propose env n = Done n' -> proposal_due n ->
  MsgProposal (sign_proposal n (build_block env n)) ∈ n_net n'.
Proof.
  intros E (Hs & Hp & p & Hf & Hid). unfold maybe_propose in E.
  rewrite Hs, Hp, Hf, bool_decide_false, decide_False in E by naive_solver.
  eapply prefix_elem; [|eapply (closed_handle_proposal _ (sent_closed _)); [|exact E]; done].
  simpl. apply elem_of_app. right. by left.
Qed.

Lemma maybe_propose_idle env n n' : maybe_propose env n = Done n' -> ~ proposal_due n -> n' = n.
Proof.
  unfold maybe_propose, proposal_due. intros E Hn. destruct (_ || _) eqn:Eg; [by injection E as <-|].
  apply orb_false_iff in Eg as [Es Hp]. apply bool_decide_eq_false in Es.
  destruct (proposer_for _ _ _) as [p|]; [|done]. case_decide as Hd; [by injection E as <-|].
  destruct Hn. split; [by apply dec_stable|]. split; [done|]. exists p. split; [done|].
  by destruct (decide (vi_node_id p = n_node_id n)).
Qed.

(** A check moves an overdue node to its next step, the clock set to now. *)
Lemma check_timeouts_moves env n n' :
  check_timeouts env n = Done n' ->
  if overdue env n
  then n_step n' = next_step (n_step n) /\ n_round_start n' = env_now env /\
       (n_step n = SPrecommit -> n_round n' = saturating_add (n_round n) 1 /\ n_round_state n' = RoundState_new)
  else n' = n.
Proof.
  unfold check_timeouts, overdue, step_timeout_ms. destruct (_ <? _); [|by intros [= <-]].
  destruct (n_step n); intros E.
  - apply outcome_bind_done in E as (n1 & _ & [= <-]). done.
  - apply outcome_bind_done in E as (n1 & _ & [= <-]). done.
  - injection E as <-. done.
Qed.

Lemma check_timeouts_timely env n n' :
  timeouts_u64 (consensus_of n) -> check_timeouts env n = Done n' -> overdue env n' = false.
Proof.
  intros (Hp & Hv & Hc & Hn & Hd & Hm) E.
  pose proof (closed_check_timeouts _ (genesis_closed (n_genesis n)) env n n' eq_refl E) as Hg.
  apply check_timeouts_moves in E. destruct (overdue env n) eqn:Ho; [|by subst n'].
  destruct E as (_ & Et & _). unfold overdue. rewrite Et. apply Z.ltb_ge.
  enough (0 <= step_timeout_ms n') by lia. unfold step_timeout_ms, consensus_of in *. rewrite Hg.
  destruct (n_step n'); by apply timeout_nonneg.
Qed.

(** C23: a turn of the main loop does all of its work: the loop ends exactly
    when a shutdown was queued; every transaction received or submitted is in
    the pool or committed at the end of the turn, a submitted one was also
    broadcast, and what was sent before stays sent; and a turn that does not
    end the loop proposes a block over the commands just taken when the node
    is the proposer of the round and has not proposed, and leaves no step
    overdue: in particular an idle node whose step has lasted too long enters
    the next step, and the next round with an empty round state after a
    precommit. *)
Theorem run_turn_work env msgs cmds n n' b :
  timeouts_u64 (consensus_of n) -> run_turn env msgs cmds n = Done (n', b) ->
  (b = true <-> Shutdown ∈ cmds) /\
  (forall tx, tx <> [] -> MsgTx tx ∈ msgs \/ SubmitTx tx ∈ cmds -> known_tx tx n') /\
  (forall tx, tx <> [] -> SubmitTx tx ∈ cmds -> MsgTx tx ∈ n_net n') /\
  n_net n `prefix_of` n_net n' /\
  (b = false ->
    (forall n1, handle_messages env msgs n = Done n1 ->
       let n2 := fst (handle_commands cmds n1) in
       proposal_due n2 -> MsgProposal (sign_proposal n2 (build_block env n2)) ∈ n_net n') /\
    overdue env n' = false /\
    (msgs = [] -> cmds = [] -> ~ proposal_due n -> overdue env n = true ->
       n_step n' = next_step (n_step n) /\
       (n_step n = SPrecommit ->
          n_round n' = saturating_add (n_round n) 1 /\ n_round_state n' = RoundState_new))).
Proof.
  intros Hcfg. unfold run_turn. intros (n1 & E1 & E)%outcome_bind_done.
  rewrite handle_commands_eq in E. set (n2 := submit_all cmds n1) in *.
  assert (exists n3, (if bool_decide (Shutdown ∈ cmds) then n3 = n2 else
      maybe_propose env n2 = Done n3) /\
    (if bool_decide (Shutdown ∈ cmds) then n' = n3 else check_timeouts env n3 = Done n') /\
    b = bool_decide (Shutdown ∈ cmds)) as (n3 & E3 & E4 & Hb).
  { destruct (bool_decide _); [injection E as <- <-; by exists n2|].
    apply outcome_bind_done in E as (n3 & E3 & E). apply outcome_bind_done in E as (n4 & E4 & [= <- <-]).
    by exists n3. }
  clear E. assert (forall P, update_closed P -> P n2 -> P n3 /\ P n') as Hcl.
  { intros P Hc Hp. destruct (bool_decide _); [by subst|].
    assert (P n3) by (by eapply closed_maybe_propose). split; [done|by eapply closed_check_timeouts]. }
  split; [rewrite Hb; apply bool_decide_eq_true|]. split_and!.
  - intros tx Hne Hin. apply Hcl; [apply known_tx_closed|]. destruct Hin as [Hin|Hin].
    + apply closed_submit_all; [apply known_tx_closed|]. by eapply messages_known.
    + by apply commands_known.
  - intros tx Hne Hin. eapply prefix_elem; [by apply (commands_known cmds n1)|].
    by apply (Hcl _ (sent_closed _)).
  - apply (Hcl _ (sent_closed _)), (closed_submit_all _ (sent_closed _)).
    eapply (closed_handle_messages _ (sent_closed _)); [|exact E1]. done.
  - intros ->. rewrite <- Hb in E3, E4. split_and!.
    + intros n1' E1'. rewrite E1 in E1'. injection E1' as <-. rewrite handle_commands_eq. intros Hdue.
      eapply prefix_elem; [by apply (maybe_propose_sends _ _ _ E3)|].
      by eapply (closed_check_timeouts _ (sent_closed _)).
    + eapply check_timeouts_timely; [|exact E4]. unfold consensus_of.
      destruct (Hcl _ (genesis_closed (n_genesis n))) as [-> _]; [|done].
      by apply (closed_submit_all _ (genesis_closed _)), (closed_handle_messages _ (genesis_closed _) env msgs n).
    + intros -> -> Hdue Ho. injection E1 as <-. apply maybe_propose_idle in E3; [|done].
      subst n3. apply check_timeouts_moves in E4. unfold n2 in E4. simpl in E4. rewrite Ho in E4. naive_solver.
Qed.

End history.
