(* ===== verification/NodeLiveness.v ===== *)
(** * Liveness of a synchronous round

    If the proposer of a round and a quorum of validators in the same state
    exchange their messages before the timeouts, every one of them commits the
    proposed block.  The proof follows one node through the round: [pending]
    holds while it collects votes for the proposed block, [committed] once it
    has committed it. *)

From Stdlib Require Import ZArith Lia Strings.Byte.
From stdpp Require Import base gmap list.
From S2P Require Import Prelude Crypto Event Ledger Merkle Validation BftTypes BftConfig Slashing.
From S2P Require Import ValidatorSet ApplyBlock Snapshot Node NodeFacts NodeSafety NodeBehaviour.

Section liveness.
Context `{Sha256} `{Ed25519} `{Hex} `{SnapshotJson}.

(** The votes counted for a block hash. *)
Definition votes_for (t : VoteType) (bh : Hash) (n : Node) : gset NodeId :=
  default ∅ (votes_of t (n_round_state n) !! bh).

(** ** One node in a round *)

Section round.

(** The proposal of the round, and the node as the round starts. *)
Context (p : Proposal) (n0 : Node).

#[local] Abbreviation block := (p_block p).
#[local] Abbreviation bh := (block_hash (bl_header (p_block p))).
#[local] Abbreviation vs := (n_validators n0).

(** A vote of this round for the block. *)
Definition round_vote (t : VoteType) (signed : SignedVote) : Prop :=
  v_height (sv_vote signed) = n_height n0 /\ v_round (sv_vote signed) = n_round n0 /\
  v_vote_type (sv_vote signed) = t /\ v_block_hash (sv_vote signed) = bh.

(** A vote the node counts: validly signed by a validator that is not jailed. *)
Definition countable (signed : SignedVote) : Prop :=
  verify_vote_in vs signed = true /\
  is_jailed (n_slashing_state n0) (v_validator_id (sv_vote signed)) (n_height n0) = false.

(** The node is still in the round, with its chain as at the start, and has
    seen votes for this block only. *)
Record on_track (n : Node) : Prop := {
  ot_height : n_height n = n_height n0;
  ot_round : n_round n = n_round n0;
  ot_validators : n_validators n = vs;
  ot_node_id : n_node_id n = n_node_id n0;
  ot_keypair : n_keypair n = n_keypair n0;
  ot_chain : chain_state_of n = chain_state_of n0;
  ot_blocks : sn_blocks_by_height (n_snapshot n) = sn_blocks_by_height (n_snapshot n0);
  ot_jailed : jailed (n_slashing_state n) = jailed (n_slashing_state n0);
  ot_clean : forall t id signed,
    stored_vote (n_slashing_state n) (n_height n0, n_round n0, t) id = Some signed ->
    v_block_hash (sv_vote signed) = bh;
}.

Lemma on_track_frame n n' :
  n_height n' = n_height n -> n_round n' = n_round n -> n_validators n' = n_validators n ->
  n_node_id n' = n_node_id n -> n_keypair n' = n_keypair n ->
  chain_state_of n' = chain_state_of n -> n_snapshot n' = n_snapshot n ->
  n_slashing_state n' = n_slashing_state n -> on_track n -> on_track n'.
Proof.
  intros E1 E2 E3 E4 E5 E6 E7 E8 [? ? ? ? ? ? ? ? Hc].
  split; rewrite ?E1, ?E2, ?E3, ?E4, ?E5, ?E6, ?E7, ?E8; auto.
Qed.

Definition committed (n : Node) : Prop :=
  n_height n = n_height n0 + 1 /\ sn_tip_hash (n_snapshot n) = bh /\
  sn_blocks_by_height (n_snapshot n)
  = <[n_height n0 := block]> (sn_blocks_by_height (n_snapshot n0)).

(** The node's own votes of the round. *)
Definition own_vote (t : VoteType) : SignedVote := make_vote n0 t bh.

Definition has_sent (t : VoteType) (n : Node) : Prop := MsgVote (own_vote t) ∈ n_net n.

(** The node has sent its precommit and counted it. *)
Definition precommitted (n : Node) : Prop :=
  has_sent Precommit n /\
  (countable (own_vote Precommit) -> n_node_id n0 ∈ votes_for Precommit bh n).

(** The node waits: the precommits are no quorum yet, and if the prevotes are
    one, its own precommit is out. *)
Record pending (n : Node) : Prop := {
  pd_track : on_track n;
  pd_proposal : rs_proposal (n_round_state n) = Some p;
  pd_precommits : quorum_met vs (votes_for Precommit bh n) = false;
  pd_prevotes : quorum_met vs (votes_for Prevote bh n) = true -> precommitted n;
}.

(** What one step of the round may do. *)
Record grows (n n' : Node) : Prop := {
  gr_net : n_net n ⊆ n_net n';
  gr_votes : forall t, votes_for t bh n ⊆ votes_for t bh n';
}.

Lemma grows_refl n : grows n n.
Proof. by split. Qed.

Lemma grows_trans n1 n2 n3 : grows n1 n2 -> grows n2 n3 -> grows n1 n3.
Proof. intros [A1 A2] [B1 B2]. split; [set_solver|]. set_solver. Qed.

Lemma own_vote_same t n : on_track n -> make_vote n t bh = own_vote t.
Proof.
  intros Hot. unfold own_vote, make_vote.
  by rewrite (ot_height _ Hot), (ot_round _ Hot), (ot_node_id _ Hot), (ot_keypair _ Hot).
Qed.

Lemma admitted_countable n t signed :
  on_track n -> round_vote t signed -> vote_admitted n signed = true <-> countable signed.
Proof.
  intros Hot (Eh & Er & _ & _). rewrite vote_admitted_true. unfold countable, verify_vote, is_jailed.
  rewrite (ot_validators _ Hot), (ot_height _ Hot), (ot_round _ Hot), (ot_jailed _ Hot). naive_solver.
Qed.

(** *** Counting a vote *)

(** No evidence against a validator that votes for the same block again. *)
Lemma record_round_vote st t signed cfg :
  round_vote t signed ->
  (forall t id s, stored_vote st (n_height n0, n_round n0, t) id = Some s ->
    v_block_hash (sv_vote s) = bh) ->
  snd (record_vote st signed cfg) = None.
Proof.
  intros (Eh & Er & Et & Eb) Hc. unfold record_vote. destruct (negb _); [done|].
  destruct (default ∅ (votes_by_validator st !! vote_key (sv_vote signed))
    !! v_validator_id (sv_vote signed)) as [existing|] eqn:E; [|done].
  unfold vote_key in E. rewrite Eh, Er in E.
  rewrite decide_False; [done|]. rewrite Eb, (Hc _ _ _ E). auto.
Qed.

Lemma detect_on_track env t signed n :
  on_track n -> round_vote t signed ->
  on_track (detect_and_slash env signed n) /\
  n_round_state (detect_and_slash env signed n) = n_round_state n /\
  n_net (detect_and_slash env signed n) = n_net n.
Proof.
  intros Hot Hv. pose proof Hot as [T1 T2 T3 T4 T5 T6 T7 T8 Hc]. unfold detect_and_slash.
  pose proof (record_round_vote (n_slashing_state n) t signed (cc_slashing (consensus_of n)) Hv Hc) as Hn.
  pose proof (record_vote_frame (n_slashing_state n) signed (cc_slashing (consensus_of n))) as Hf.
  pose proof (record_vote_lookup (n_slashing_state n) signed (cc_slashing (consensus_of n))) as Hl.
  destruct (record_vote _ _ _) as [st ev]. simpl in Hn, Hf, Hl. subst ev. split; [|done].
  destruct Hf as (_ & _ & _ & Hj). split; simpl; try done; [congruence|].
  intros t' id s Hs. unfold stored_vote in Hs.
  destruct (votes_by_validator st !! (n_height n0, n_round n0, t')) as [votes|] eqn:Ek; simpl in Hs;
    [|by rewrite lookup_empty in Hs].
  destruct (Hl _ _ _ _ Ek Hs) as [Hold|(_ & _ & ->)]; [by eapply Hc|]. apply Hv.
Qed.

Lemma count_votes_for v n t :
  votes_for t bh n ⊆ votes_for t bh (count_vote v n).
Proof.
  unfold votes_for, count_vote, with_votes. simpl.
  assert (forall m : gmap Hash (gset NodeId), default ∅ (m !! bh) ⊆
    default ∅ (<[v_block_hash v := {[v_validator_id v]} ∪ default ∅ (m !! v_block_hash v)]> m !! bh)) as Hm.
  { intros m. destruct (decide (v_block_hash v = bh)) as [->|Hne].
    - rewrite lookup_insert_eq. set_solver.
    - by rewrite lookup_insert_ne. }
  unfold vote_entry. destruct (v_vote_type v), t; simpl; first [apply Hm|done].
Qed.

Lemma count_votes_other v n t :
  v_vote_type v <> t -> votes_for t bh (count_vote v n) = votes_for t bh n.
Proof. unfold votes_for, count_vote, with_votes. simpl. by destruct (v_vote_type v), t. Qed.

(** The state after the vote is counted. *)
Lemma counted_on_track env t signed n :
  on_track n -> round_vote t signed ->
  on_track (counted env signed n) /\ grows n (counted env signed n) /\
  rs_proposal (n_round_state (counted env signed n)) = rs_proposal (n_round_state n) /\
  votes_for t bh (counted env signed n) = vote_entry (sv_vote signed) (detect_and_slash env signed n) /\
  (forall t', t' <> t -> votes_for t' bh (counted env signed n) = votes_for t' bh n) /\
  n_net (counted env signed n) = n_net n.
Proof.
  intros Hot Hv. destruct (detect_on_track env t signed n Hot Hv) as (Ho & Er & En).
  pose proof Hv as (_ & _ & Et & Eb). unfold counted. set (n1 := detect_and_slash env signed n) in *.
  assert (forall t', votes_for t' bh n1 = votes_for t' bh n) as Ev by (unfold votes_for; by rewrite Er).
  split; [by apply (on_track_frame n1)|]. split; [|split; [|split; [|split; [|done]]]].
  - split; [simpl; by rewrite En|]. intros t'. rewrite <- Ev. apply count_votes_for.
  - rewrite <- Er. unfold count_vote, with_votes. simpl. by destruct (v_vote_type (sv_vote signed)).
  - unfold votes_for. rewrite <- Et, <- Eb. by rewrite votes_counted.
  - intros t' Hne. rewrite <- Ev. apply count_votes_other. congruence.
Qed.

(** *** Handling a vote *)

(** What makes the block of the round committable. *)
Record committable : Prop := {
  cm_extends : extends_tip n0 block;
  cm_max : n_height n0 < u64_max;
  cm_start : 0 <= n_height n0;
  cm_hash : bh <> ZERO_HASH;
  cm_applies : snd (apply_block default_max_backward_skew block (chain_state_of n0)) = Ok tt;
}.

Lemma commit_block_net env b n : n_net (fst (commit_block env b n)) = n_net n.
Proof.
  unfold commit_block, node_apply_block. destruct (apply_block _ _ _) as [st [[]|e]]; [|done].
  unfold prune_mempool. destruct (bl_txs b); simpl; destruct (n_store n); done.
Qed.

Lemma precommit_quorum_commits env v n :
  committable -> on_track n -> rs_proposal (n_round_state n) = Some p -> v_block_hash v = bh ->
  exists n', try_commit env v n = Done n' /\ committed n' /\ n_net n' = n_net n.
Proof.
  intros [(Eh & _) Hmax H0' Hz Ha] Hot Hp Hb. unfold try_commit.
  rewrite Hb, decide_True, Hp, decide_True by done.
  pose proof (commit_block_net env block n) as Hn.
  destruct (commit_block env block n) as [n' [[]|e]] eqn:Ec.
  - exists n'. split; [done|]. split; [|done].
    apply commit_block_ok in Ec as (st & _ & _ & _ & _ & _ & E5 & _ & E7 & _).
    unfold committed. rewrite E5, E7, Eh. simpl. rewrite Eh, (ot_blocks _ Hot).
    split; [unfold saturating_add; lia|done].
  - exfalso. unfold commit_block, node_apply_block in Ec. fold (chain_state_of n) in Ec.
    rewrite (ot_chain _ Hot) in Ec. destruct (apply_block _ _ _) as [st r]. simpl in Ha. by subst r.
Qed.

(** A committed node ignores the votes of the round. *)
Lemma committed_ignores env t signed n :
  committed n -> round_vote t signed -> handle_vote env signed n = Done n.
Proof.
  intros (Eh & _) (Evh & _). unfold handle_vote. cbn [handle_vote_fuel].
  rewrite handle_vote_body_eq. destruct (vote_admitted n signed) eqn:Ea; [|done].
  apply vote_admitted_true in Ea as (_ & Ea & _). lia.
Qed.

(** The result of handling votes of type [t]. *)
Definition advanced (t : VoteType) (n n' : Node) : Prop :=
  n_net n ⊆ n_net n' /\
  (pending n' /\ grows n n' \/ committed n' /\ (t = Prevote -> has_sent Precommit n')).

Lemma handle_precommit_advances rec env signed n :
  committable -> on_track n -> rs_proposal (n_round_state n) = Some p ->
  quorum_met vs (votes_for Precommit bh n) = false -> round_vote Precommit signed ->
  exists n', handle_vote_body rec env signed n = Done n' /\ n_net n' = n_net n /\
    (on_track n' /\ rs_proposal (n_round_state n') = Some p /\ grows n n' /\
     quorum_met vs (votes_for Precommit bh n') = false /\
     (countable signed -> v_validator_id (sv_vote signed) ∈ votes_for Precommit bh n') /\
     votes_for Prevote bh n' = votes_for Prevote bh n \/
     committed n').
Proof.
  intros Hcm Hot Hp Hq Hv. rewrite handle_vote_body_eq.
  destruct (vote_admitted n signed) eqn:Ea.
  2:{ exists n. split; [done|]. split; [done|]. left. split; [done|]. split; [done|].
      split; [apply grows_refl|]. split; [done|]. split; [|done].
      intros Hc. apply (admitted_countable n _ _ Hot Hv) in Hc. congruence. }
  destruct (counted_on_track env Precommit signed n Hot Hv) as (Hot' & Hg & Ep & Ee & Eo & En).
  rewrite (ot_validators _ Hot'), <- Ee.
  destruct (quorum_met vs (votes_for _ _ (counted _ _ _))) eqn:Hq'.
  - unfold react_to_quorum. pose proof Hv as (_ & _ & -> & Eb).
    destruct (precommit_quorum_commits env (sv_vote signed) (counted env signed n))
      as (n' & -> & Hc & Enet); [done|done|congruence|done|].
    exists n'. split; [done|]. split; [congruence|by right].
  - exists (counted env signed n). split; [done|]. split; [done|]. left.
    split; [done|]. split; [congruence|]. split; [done|]. split; [done|]. split; [|by apply Eo].
    intros _. rewrite Ee. unfold vote_entry. set_solver.
Qed.

Lemma pending_frame n n' :
  n_height n' = n_height n -> n_round n' = n_round n -> n_validators n' = n_validators n ->
  n_node_id n' = n_node_id n -> n_keypair n' = n_keypair n ->
  chain_state_of n' = chain_state_of n -> n_snapshot n' = n_snapshot n ->
  n_slashing_state n' = n_slashing_state n -> n_round_state n' = n_round_state n ->
  n_net n ⊆ n_net n' -> pending n -> pending n'.
Proof.
  intros E1 E2 E3 E4 E5 E6 E7 E8 E9 En [Hot Hp Hq Hs].
  split; [by eapply on_track_frame| | |]; unfold precommitted, votes_for; rewrite E9; [done|done|].
  intros Hq'. destruct (Hs Hq') as [Hsent Hin]. split; [by apply En|done].
Qed.

Lemma handle_prevote_advances env signed n :
  committable -> pending n -> round_vote Prevote signed ->
  exists n', handle_vote env signed n = Done n' /\ advanced Prevote n n' /\
    (countable signed -> pending n' -> v_validator_id (sv_vote signed) ∈ votes_for Prevote bh n').
Proof.
  intros Hcm [Hot Hp Hq Hs] Hv.
  change (handle_vote env signed n)
    with (handle_vote_body (handle_vote_body (handle_vote_fuel 0 env) env) env signed n).
  rewrite handle_vote_body_eq. destruct (vote_admitted n signed) eqn:Ea.
  2:{ exists n. split; [done|]. split; [split; [done|left; split; [by split|apply grows_refl]]|].
      intros Hc. apply (admitted_countable n _ _ Hot Hv) in Hc. congruence. }
  destruct (counted_on_track env Prevote signed n Hot Hv) as (Hot' & Hg & Ep & Ee & Eo & En).
  assert (v_validator_id (sv_vote signed) ∈ votes_for Prevote bh (counted env signed n)) as Hin
    by (rewrite Ee; unfold vote_entry; set_solver).
  rewrite (ot_validators _ Hot'), <- Ee.
  destruct (quorum_met vs (votes_for _ _ (counted _ _ _))) eqn:Hq'.
  2:{ exists (counted env signed n). split; [done|]. split; [|done].
      split; [apply Hg|]. left. split; [|done]. split; [done|congruence| |congruence].
      by rewrite (Eo Precommit). }
  unfold react_to_quorum. pose proof Hv as (_ & _ & -> & Eb). rewrite Eb, decide_True by apply Hcm.
  set (n1 := set_locked _ _).
  assert (on_track n1) as Hot1 by (by apply (on_track_frame (counted env signed n))).
  unfold broadcast_vote_with. rewrite (own_vote_same Precommit n1 Hot1).
  destruct (handle_precommit_advances (handle_vote_fuel 0 env) env (own_vote Precommit) n1)
    as (n2 & -> & Enet & Hor); [done|done|exact (eq_trans Ep Hp)| |done|].
  { change (votes_for Precommit bh n1) with (votes_for Precommit bh (counted env signed n)).
    by rewrite (Eo Precommit). }
  simpl. eexists. split; [reflexivity|].
  assert (has_sent Precommit (set_step SPrecommit (broadcast (MsgVote (own_vote Precommit)) n2)))
    as Hsent by (unfold has_sent; simpl; set_solver).
  assert (n_net n ⊆ n_net (set_step SPrecommit (broadcast (MsgVote (own_vote Precommit)) n2))) as Hsub.
  { simpl. rewrite (eq_trans Enet En : n_net n2 = n_net n). set_solver. }
  destruct Hor as [(Hot2 & Hp2 & Hg2 & Hq2 & Hin2 & Epv)|Hc].
  - split.
    + split; [done|]. left. split; [|].
      * by split; [apply (on_track_frame n2)| | |].
      * split; [done|]. intros t'. etrans; [apply (gr_votes _ _ Hg)|]. apply (gr_votes _ _ Hg2).
    + intros _ _. change (v_validator_id (sv_vote signed) ∈ votes_for Prevote bh n2). by rewrite Epv.
  - split; [split; [done|right; by split]|]. intros _ [Hot3 _ _ _].
    destruct Hc as [Hh _]. pose proof (ot_height _ Hot3) as Hh'. simpl in Hh'. lia.
Qed.

Lemma pending_not_committed n : pending n -> ~ committed n.
Proof. intros [Hot _ _ _] [Hh _]. rewrite (ot_height _ Hot) in Hh. lia. Qed.

Lemma handle_vote_advances env t signed n :
  committable -> pending n -> round_vote t signed ->
  exists n', handle_vote env signed n = Done n' /\ advanced t n n' /\
    (countable signed -> pending n' -> v_validator_id (sv_vote signed) ∈ votes_for t bh n').
Proof.
  intros Hcm Hpd Hv. destruct t; [by apply handle_prevote_advances|].
  pose proof Hpd as [Hot Hp Hq Hs].
  change (handle_vote env signed n) with (handle_vote_body (handle_vote_fuel 1 env) env signed n).
  destruct (handle_precommit_advances (handle_vote_fuel 1 env) env signed n Hcm Hot Hp Hq Hv)
    as (n' & -> & En & Hor).
  exists n'. split; [done|]. destruct Hor as [(Hot' & Hp' & Hg & Hq' & Hin & Epv)|Hc].
  - split; [|by intros ? _; apply Hin]. split; [by rewrite En|]. left. split; [|done].
    split; [done|done|done|]. unfold precommitted, has_sent. rewrite Epv, En.
    intros Hq0. destruct (Hs Hq0) as [Hsent Hown]. split; [done|].
    intros Hc. apply (gr_votes _ _ Hg), Hown, Hc.
  - split; [split; [by rewrite En|by right]|]. intros _ Hpd'. by apply pending_not_committed in Hpd'.
Qed.

(** *** Lists of votes *)

Lemma handle_votes_advance env t svs n :
  committable -> Forall (round_vote t) svs ->
  pending n \/ committed n /\ (t = Prevote -> has_sent Precommit n) ->
  exists n', handle_messages env (map MsgVote svs) n = Done n' /\ n_net n ⊆ n_net n' /\
    (committed n' /\ (t = Prevote -> has_sent Precommit n') \/
     pending n' /\ pending n /\ grows n n' /\
     forall signed, signed ∈ svs -> countable signed ->
       v_validator_id (sv_vote signed) ∈ votes_for t bh n').
Proof.
  intros Hcm Hf. revert n. induction Hf as [|signed svs Hv Hf IH]; intros n Hn; simpl.
  { exists n. split; [done|]. split; [done|]. destruct Hn as [Hpd|Hc]; [right|by left].
    split; [done|]. split; [done|]. split; [apply grows_refl|set_solver]. }
  destruct Hn as [Hpd|Hc].
  - destruct (handle_vote_advances env t signed n Hcm Hpd Hv) as (n1 & -> & [Hsub Hor] & Hin). simpl.
    destruct (IH n1) as (n2 & E & Hsub2 & Hor2); [naive_solver|].
    exists n2. split; [done|]. split; [set_solver|].
    destruct Hor2 as [Hc2|(Hpd2 & Hpd1 & Hg2 & Hall)]; [by left|right].
    destruct Hor as [[_ Hg]|[Hc _]]; [|by apply pending_not_committed in Hpd1].
    split; [done|]. split; [done|]. split; [by eapply grows_trans|].
    intros s [->|Hs]%elem_of_cons Hcs; [|by apply Hall]. apply (gr_votes _ _ Hg2), Hin; done.
  - destruct Hc as [Hc Hs]. rewrite (committed_ignores env t signed n Hc Hv). simpl.
    destruct (IH n) as (n2 & E & Hsub2 & Hor2); [by right|].
    exists n2. split; [done|]. split; [done|]. destruct Hor2 as [Hc2|(_ & Hpd & _)]; [by left|].
    by apply pending_not_committed in Hpd.
Qed.

(** *** The proposal *)

(** The node as it receives the proposal: at the start of the round, unlocked,
    no votes counted. *)
Record opening (n : Node) : Prop := {
  op_track : on_track n;
  op_accepted : proposal_accepted n p;
  op_unlocked : n_locked n = None;
  op_votes : forall t, votes_for t bh n = ∅;
}.

Lemma handle_proposal_advances env n :
  committable -> quorum_met vs ∅ = false -> opening n ->
  exists n1, handle_proposal env p n = Done n1 /\ n_net n ⊆ n_net n1 /\ has_sent Prevote n1 /\
    (committed n1 /\ has_sent Precommit n1 \/
     pending n1 /\ (countable (own_vote Prevote) -> n_node_id n0 ∈ votes_for Prevote bh n1)).
Proof.
  intros Hcm Hq0 [Hot (Eh & Er & Hver & Hval) Hl Hv]. unfold handle_proposal.
  rewrite Eh, Er, !Z.eqb_refl, Hver, Hval. cbn [andb negb].
  set (n1 := set_round_state _ n). change (n_locked n1) with (n_locked n). rewrite Hl.
  assert (on_track n1) as Hot1 by (by apply (on_track_frame n)).
  assert (forall t, votes_for t bh n1 = ∅) as Hv1 by (intros t; rewrite <- (Hv t); by destruct t).
  assert (pending n1) as Hpd1 by (split; rewrite ?Hv1; congruence || done).
  unfold broadcast_vote, broadcast_vote_with. rewrite (own_vote_same Prevote n1 Hot1).
  destruct (handle_vote_advances env Prevote (own_vote Prevote) n1 Hcm Hpd1)
    as (n2 & -> & [Hsub Hor] & Hin); [done|].
  cbn [outcome_bind]. eexists. split; [reflexivity|].
  set (n3 := set_step SPrevote _). assert (n_net n2 ⊆ n_net n3) as Hs3 by (simpl; set_solver).
  split; [change (n_net n) with (n_net n1); set_solver|].
  split; [unfold has_sent; simpl; set_solver|].
  destruct Hor as [[Hpd2 _]|[Hc Hs]].
  - right. assert (pending n3) as Hpd3 by (by apply (pending_frame n2)).
    split; [done|]. intros Hc. by apply Hin.
  - left. split; [done|]. apply Hs3, Hs. done.
Qed.

End round.

(** ** A quorum of nodes *)

Section quorum.
Context `{!Ed25519Laws}.

(** A node at the start of the same round as [leader], with the same chain,
    that holds its key, has counted nothing yet and has no voter in jail. *)
Record in_step (ids : gset NodeId) (leader n : Node) : Prop := {
  is_validators : n_validators n = n_validators leader;
  is_height : n_height n = n_height leader;
  is_round : n_round n = n_round leader;
  is_chain : chain_state_of n = chain_state_of leader;
  is_tip : sn_tip_hash (n_snapshot n) = sn_tip_hash (n_snapshot leader);
  is_config : consensus_of n = consensus_of leader;
  is_key : holds_key (n_validators leader) n;
  is_voter : n_node_id n ∈ ids;
  is_unlocked : n_locked n = None;
  is_fresh : n_round_state n = RoundState_new;
  is_quiet : forall t id, stored_vote (n_slashing_state n) (n_height n, n_round n, t) id = None;
  is_free : forall id, id ∈ ids -> is_jailed (n_slashing_state n) id (n_height n) = false;
}.

(** [leader] is the proposer of its round. *)
Definition leads (leader : Node) : Prop :=
  exists v, proposer_for (n_validators leader) (n_height leader) (n_round leader) = Some v /\
    vi_node_id v = n_node_id leader /\
    vi_pubkey v = public_key_to_bytes (kp_public (n_keypair leader)).

(** The proposal [leader] makes. *)
Definition proposal_of (env : Env) (leader : Node) : Proposal :=
  sign_proposal leader (build_block env leader).

(** The proposal can be committed by the leader. *)
Definition viable (env : Env) (leader : Node) : Prop :=
  0 <= cc_max_events (consensus_of leader) /\ 0 <= cc_max_block_bytes (consensus_of leader) /\
  committable (proposal_of env leader) leader.

Lemma proposal_of_accepted env ids leader n :
  in_step ids leader leader -> in_step ids leader n -> leads leader -> viable env leader ->
  proposal_accepted n (proposal_of env leader).
Proof.
  intros HL Hn (v & Ev & Eid & Epk) (He & Hb & _). destruct Hn as [T1 T2 T3 _ T5 T6 _ _ _ _ _ _].
  split; [done|]. split; [done|]. split.
  - unfold verify_proposal. cbn [proposal_of sign_proposal p_height p_round p_proposer_id p_signature].
    rewrite T1, Ev. rewrite decide_False by (intros Hd; by apply Hd).
    rewrite Epk. destruct (is_key _ _ _ HL) as [-> _].
    rewrite derived_key_from_bytes, sig_from_to_hex. f_equal. apply sign_verify.
  - destruct (build_block_valid env leader He Hb) as [Hval _].
    apply validate_block_true in Hval as [(A1 & A2 & A3 & A4) Hlim].
    apply validate_block_true. unfold extends_tip. rewrite T2, T3, T5, T6. done.
Qed.

(** A voter's vote counts at every node of the quorum. *)
Lemma voters_countable p ids leader m n t :
  in_step ids leader m -> in_step ids leader n -> countable n (own_vote p m t).
Proof.
  intros Hm Hn. split.
  - rewrite (is_validators _ _ _ Hn). apply own_vote_verifies, Hm.
  - apply (is_free _ _ _ Hn), Hm.
Qed.

Lemma voters_round_vote p ids leader m n t :
  in_step ids leader m -> in_step ids leader n -> round_vote p n t (own_vote p m t).
Proof.
  intros Hm Hn. split; simpl; [by rewrite (is_height _ _ _ Hm), (is_height _ _ _ Hn)|].
  split; [by rewrite (is_round _ _ _ Hm), (is_round _ _ _ Hn)|done].
Qed.

(** The rest of the round for a node that has prevoted: it receives prevotes
    for the block, those of the other voters among them, then precommits for
    the block, those of the other voters among them. *)
Definition completes_round (p : Proposal) (ns : list Node) (n n1 : Node) : Prop :=
  has_sent p n Prevote n1 /\
  forall env2 pv, Forall (round_vote p n Prevote) pv ->
    (forall m, m ∈ ns -> n_node_id m <> n_node_id n -> own_vote p m Prevote ∈ pv) ->
  exists n2, handle_messages env2 (map MsgVote pv) n1 = Done n2 /\ has_sent p n Precommit n2 /\
  forall env3 pc, Forall (round_vote p n Precommit) pc ->
    (forall m, m ∈ ns -> n_node_id m <> n_node_id n -> own_vote p m Precommit ∈ pc) ->
  exists n3, handle_messages env3 (map MsgVote pc) n2 = Done n3 /\ committed p n n3.

(** All voters have voted. *)
Lemma all_voted p (ns : list Node) leader n t (votes : list SignedVote) n' :
  (forall m, m ∈ ns -> in_step (list_to_set (map n_node_id ns)) leader m) -> n ∈ ns ->
  powers_ok (n_validators n) ->
  quorum_met (n_validators n) (list_to_set (map n_node_id ns)) = true ->
  (forall m, m ∈ ns -> n_node_id m <> n_node_id n -> own_vote p m t ∈ votes) ->
  (forall signed, signed ∈ votes -> countable n signed ->
     v_validator_id (sv_vote signed) ∈ votes_for t (block_hash (bl_header (p_block p))) n') ->
  n_node_id n ∈ votes_for t (block_hash (bl_header (p_block p))) n' ->
  quorum_met (n_validators n) (votes_for t (block_hash (bl_header (p_block p))) n') = true.
Proof.
  intros Hns Hn Hp Hq Hall Hcount Hown.
  eapply (proj1 (proj2 (quorum_met_set _ _ _ [] Hp))); [|exact Hq].
  intros id (m & -> & Hm)%elem_of_list_to_set%list_elem_of_fmap.
  destruct (decide (n_node_id m = n_node_id n)) as [->|Hne]; [done|].
  apply (Hcount (own_vote p m t)); [by apply Hall|]. by eapply voters_countable; apply Hns.
Qed.

Lemma round_completes env p ns leader n n' :
  (forall m, m ∈ ns -> in_step (list_to_set (map n_node_id ns)) leader m) -> n ∈ ns ->
  powers_ok (n_validators n) -> quorum_met (n_validators n) ∅ = false ->
  quorum_met (n_validators n) (list_to_set (map n_node_id ns)) = true ->
  committable p n -> opening p n n' ->
  exists n1, handle_proposal env p n' = Done n1 /\ n_net n' ⊆ n_net n1 /\ completes_round p ns n n1.
Proof.
  intros Hns Hn Hp Hq0 Hq Hcm Hop.
  assert (forall t, countable n (own_vote p n t)) as Hown
    by (intros t; eapply voters_countable; by apply Hns).
  destruct (handle_proposal_advances p n env n' Hcm Hq0 Hop) as (n1 & E1 & Hsub & Hs1 & Hor1).
  exists n1. split; [done|]. split; [done|]. split; [done|]. intros env2 pv Hpv Hall.
  destruct (handle_votes_advance p n env2 Prevote pv n1 Hcm Hpv) as (n2 & E2 & Hsub2 & Hor2).
  { destruct Hor1 as [[? ?]|[? _]]; auto. }
  exists n2. split; [done|].
  assert (has_sent p n Precommit n2 /\ (pending p n n2 -> precommitted p n n2)) as [Hs2 Hpc2].
  { destruct Hor2 as [[Hc Hs]|(Hpd2 & Hpd1 & Hg & Hin)].
    - split; [by apply Hs|]. intros Hpd. by apply pending_not_committed in Hpd.
    - assert (precommitted p n n2) as Hpc; [|by split; [apply Hpc|]].
      apply (pd_prevotes _ _ _ Hpd2). eapply all_voted; eauto.
      destruct Hor1 as [[Hc _]|[_ Hin1]]; [by apply pending_not_committed in Hpd1|].
      apply (gr_votes _ _ _ Hg), Hin1, Hown. }
  split; [done|]. intros env3 pc Hfpc Hallpc.
  destruct (handle_votes_advance p n env3 Precommit pc n2 Hcm Hfpc) as (n3 & E3 & _ & Hor3).
  { destruct Hor2 as [[? _]|[? _]]; [right; by split|by left]. }
  exists n3. split; [done|]. destruct Hor3 as [[Hc _]|(Hpd3 & Hpd2 & Hg & Hin)]; [done|exfalso].
  apply eq_true_false_abs with (2 := pd_precommits _ _ _ Hpd3). eapply all_voted; eauto.
  apply (gr_votes _ _ _ Hg), (proj2 (Hpc2 Hpd2)), Hown.
Qed.

Lemma committable_in_step env ids leader n :
  viable env leader -> in_step ids leader n -> committable (proposal_of env leader) n.
Proof.
  intros (_ & _ & [(A1 & A2 & A3 & A4) B1 B2 B3 B4]) [_ T2 T3 T4 T5 _ _ _ _ _ _ _].
  split; [|by rewrite ?T2, ?T4..]. unfold extends_tip. by rewrite T2, T3, T5.
Qed.

(** A node in step, with whatever it has sent so far, is ready for the
    proposal. *)
Lemma opening_in_step env ids leader n rs net :
  in_step ids leader leader -> leads leader -> viable env leader -> in_step ids leader n ->
  rs_prevotes rs = ∅ -> rs_precommits rs = ∅ ->
  opening (proposal_of env leader) n (set_net net (set_round_state rs n)).
Proof.
  intros HL Hld Hvi Hn E1 E2. split; [|exact (proposal_of_accepted env ids leader n HL Hn Hld Hvi)|apply Hn|].
  - split; try done. intros t id signed Hs. simpl in Hs. by rewrite (is_quiet _ _ _ Hn) in Hs.
  - intros []; unfold votes_for; simpl; by rewrite ?E1, ?E2, lookup_empty.
Qed.

(** C2: liveness of a synchronous round: let the proposer of a round and other
    validators be at the start of the round with the same chain, the keys they
    are listed with and nobody in jail, let them form a quorum, and let the
    block the proposer builds apply to the chain.  Then the proposer proposes
    it and prevotes; every other node prevotes for it on receiving the
    proposal; a node that has received the prevotes of the others, in any order
    and among any other prevotes for the block, has sent its precommit; and a
    node that has then received the precommits of the others, again in any
    order, has committed the block.  No handler panics or exits on the way. *)
Theorem synchronous_round_commits infos env leader followers :
  let ns := leader :: followers in
  let ids := list_to_set (map n_node_id ns) in
  let p := proposal_of env leader in
  n_validators leader = ValidatorSet_new infos -> Forall (fun v => 0 <= vi_power v) infos ->
  quorum_met (n_validators leader) ids = true -> Forall (in_step ids leader) ns ->
  leads leader -> n_step leader = SPropose -> viable env leader ->
  (exists l1, maybe_propose env leader = Done l1 /\ MsgProposal p ∈ n_net l1 /\
     completes_round p ns leader l1) /\
  forall n env1, n ∈ followers ->
  exists n1, handle_message env1 (MsgProposal p) n = Done n1 /\ completes_round p ns n n1.
Proof.
  intros ns ids p Evs Hpow Hq Hf Hld Hst Hvi. rewrite Forall_forall in Hf.
  assert (in_step ids leader leader) as HL by (apply Hf; set_solver).
  assert (forall n, n ∈ ns -> n_validators n = n_validators leader) as Ev by (intros n Hn; by apply Hf in Hn as []).
  assert (powers_ok (n_validators leader)) as Hp.
  { rewrite Evs. intros id v [Hin _]%by_id_of_lookup. by eapply Forall_forall in Hpow. }
  assert (quorum_met (n_validators leader) ∅ = false) as Hq0.
  { rewrite Evs. unfold quorum_met. rewrite elements_empty. apply Z.leb_gt.
    cbn [votes_power foldl vs_quorum_power ValidatorSet_new]. lia. }
  split.
  - unfold maybe_propose. rewrite Hst, (is_fresh _ _ _ HL). simpl.
    destruct Hld as (v & Epf & Eid & Epk). rewrite Epf, decide_False by (intros Hd; by apply Hd).
    destruct (round_completes env p ns leader leader
      (set_net (n_net leader ++ [MsgProposal p]) (set_round_state (mkRoundState (Some p) ∅ ∅ true) leader)))
      as (l1 & E1 & Hsub & Hc); try done.
    + set_solver.
    + by eapply committable_in_step.
    + eapply opening_in_step; [exact HL|by exists v|done..].
    + exists l1. split; [exact E1|]. split; [|done]. apply Hsub. simpl. set_solver.
  - intros n env1 Hn. assert (n ∈ ns) as Hns by set_solver.
    destruct (round_completes env1 p ns leader n (set_net (n_net n) (set_round_state RoundState_new n)))
      as (n1 & E1 & _ & Hc); rewrite ?(Ev n Hns); try done.
    + by eapply committable_in_step; [|apply Hf].
    + eapply opening_in_step; [exact HL|done|done|by apply Hf|done..].
    + exists n1. split; [|done]. rewrite <- E1. simpl. f_equal.
      pose proof (is_fresh _ _ _ (Hf n Hns)) as Efr. destruct n; simpl in *. by subst.
Qed.

End quorum.

End liveness.
