(* ===== verification/NodeExamples.v ===== *)
(** * Concrete runs of the node

    Executions of the handlers with the toy cryptography: a chain of one
    validator, a network of four, and the runs that show where the protocol's
    code departs from its description.  The witnesses of the theorems about
    the node are here too. *)

From Stdlib Require Import ZArith Lia Strings.Byte.
From stdpp Require Import base gmap list strings.
From S2P Require Import Prelude Crypto Event Ledger Merkle Validation BftTypes BftConfig Slashing.
From S2P Require Import ValidatorSet ApplyBlock Snapshot Node NodeFacts NodeSafety NodeBehaviour NodeHistory NodeLiveness.

Import Toy.

(** A JSON package that reads one fixed document. *)
Definition fixed_json (doc : option PersistedSnapshot) : SnapshotJson := {|
  snapshot_to_vec := fun _ => None;
  snapshot_from_slice := fun _ => doc;
  snapshot_json_roundtrip := fun s data (E : None = Some data) => match E with eq_refl => I end;
  snapshot_json_string_keys := fun _ _ _ _ => eq_refl;
|}.

Definition secret (b : byte) : list byte := replicate 32 b.
Definition keypair (b : byte) : Keypair := mkKeypair _ (secret b) (toy_public (secret b)).

Definition validator (b : byte) : ValidatorConfig :=
  mkValidatorConfig (hex_encode (toy_public (secret b))) [] 1 None 1000.

Definition config (slashing : bool) : ConsensusConfig :=
  mkConsensusConfig 1048576 5000 2000 800 600 600 3 2 10000
    (mkSlashingConfig slashing 5 1 1000).

Definition genesis (slashing : bool) (keys : list byte) : GenesisConfig :=
  mkGenesisConfig (str "demo") (map validator keys) (config slashing) (mkClientConfig [])
    (mkTransportConfig false).

Definition id_of (b : byte) : NodeId := node_id_from_pubkey (toy_public (secret b)).

(** The clock at zero, and eleven seconds later. *)
Definition env0 : Env := mkEnv 0 1000 true.
Definition env1 : Env := mkEnv 11000000000 12000 true.

Definition blank (g : GenesisConfig) (b : byte) : Node :=
  mkNode g (ValidatorSet_new []) (keypair b) (id_of b) Ledger_new ∅ [] 0 1 0 SPropose 0 None
    RoundState_new NodeSnapshot_new [] None (SlashingState_new ∅).

Section runs.
Context {J : SnapshotJson}.

Definition start (g : GenesisConfig) (b : byte) : Node :=
  match Node_new env0 g (keypair b) (Some (mkSnapshotStore None)) NodeSnapshot_new with
  | Ok n => n
  | Err _ => blank g b
  end.

(** ** A chain of one validator *)

Definition solo_genesis : GenesisConfig := genesis true [x01].
Definition solo : Node := start solo_genesis x01.

Definition good_tx : Tx := hash_material ev_root.

Definition result_of (o : outcome Node) (n : Node) : Node :=
  match o with Done n' => n' | _ => n end.

Definition is_done (o : outcome Node) : bool := match o with Done _ => true | _ => false end.

Lemma result_of_done o n : is_done o = true -> o = Done (result_of o n).
Proof. by destruct o. Qed.

Definition is_exited (o : outcome Node) : bool := match o with Exited => true | _ => false end.

Lemma is_exited_true o : is_exited o = true -> o = Exited.
Proof. by destruct o. Qed.

Lemma start_started g b :
  is_ok (Node_new env0 g (keypair b) (Some (mkSnapshotStore None)) NodeSnapshot_new) = true ->
  started g (start g b).
Proof.
  intros Hok. exists env0, (keypair b), (Some (mkSnapshotStore None)). split.
  - by intros s [= <-].
  - unfold start. by destruct (Node_new _ _ _ _ _).
Qed.

Lemma start_reachable g b :
  is_ok (Node_new env0 g (keypair b) (Some (mkSnapshotStore None)) NodeSnapshot_new) = true ->
  reachable_node g (start g b).
Proof. intros Hok. exists (start g b). split; [by apply start_started|done]. Qed.

Definition solo1 : Node := submit_tx good_tx true solo.
Definition solo2 : Node := result_of (maybe_propose env0 solo1) solo.

Lemma solo_reachable : reachable_node solo_genesis solo.
Proof. apply start_reachable. vm_compute. reflexivity. Qed.

Lemma solo_steps : rtc node_step solo solo2.
Proof.
  eapply rtc_l; [apply (step_submit good_tx)|]. apply rtc_once.
  apply (step_propose env0); [vm_compute; reflexivity|].
  apply result_of_done. vm_compute. reflexivity.
Qed.

Lemma solo2_reachable : reachable_node solo_genesis solo2.
Proof. exists solo. split; [apply start_started; vm_compute; reflexivity|apply solo_steps]. Qed.

Definition solo_block : Block := build_block env0 solo1.

Lemma solo2_block : sn_blocks_by_height (n_snapshot solo2) !! 1 = Some solo_block.
Proof. vm_compute. reflexivity. Qed.

(** ** Four validators *)

Definition four (slashing : bool) : GenesisConfig := genesis slashing [x01; x02; x03; x04].

(** The proposer of height one, round zero, is the second validator. *)
Definition proposer0 (slashing : bool) : Node := start (four slashing) x02.

Definition proposal_with (slashing : bool) (txs : list Tx) : Proposal :=
  let p := foldl (fun n tx => submit_tx tx false n) (proposer0 slashing) txs in
  sign_proposal p (build_block env0 p).

Definition hash_of (p : Proposal) : Hash := block_hash (bl_header (p_block p)).

Definition deliver (env : Env) (msgs : list Message) (n : Node) : Node :=
  result_of (handle_messages env msgs n) n.

(** Every message is handled below the last height. *)
Fixpoint deliverable (env : Env) (msgs : list Message) (n : Node) : bool :=
  match msgs with
  | [] => true
  | m :: msgs' =>
      match handle_message env m n with
      | Done n' => (n_height n <? u64_max) && deliverable env msgs' n'
      | _ => false
      end
  end.

Lemma deliver_steps env msgs n :
  deliverable env msgs n = true -> rtc node_step n (deliver env msgs n).
Proof.
  intros Hd. assert (exists n', handle_messages env msgs n = Done n' /\ rtc node_step n n')
    as (n' & E & Hs); [|unfold deliver; by rewrite E].
  revert n Hd. induction msgs as [|m msgs IH]; intros n; simpl; [by exists n|].
  destruct (handle_message env m n) as [n1| | |] eqn:E1; try done.
  intros [Hlt%Z.ltb_lt (n' & E & Hs)%IH]%andb_true_iff. exists n'. split; [done|].
  eapply rtc_l; [|exact Hs]. by eapply step_message.
Qed.

Lemma deliver_reachable g env msgs n :
  reachable_node g n -> deliverable env msgs n = true -> reachable_node g (deliver env msgs n).
Proof.
  intros (n0 & Hst & Hs) Hd. exists n0. split; [done|]. etrans; [done|]. by apply deliver_steps.
Qed.

(** *** A run with an equivocating proposer *)

Section equivocation.
Context (slashing : bool).

Definition p1 : Proposal := proposal_with slashing [hash_material ev_root].
Definition p2 : Proposal := proposal_with slashing [hash_material ev_other].

(** The proposer sends both proposals to the three other validators, to the
    third one in the other order; then they exchange their prevotes, then
    their precommits. *)
Definition a1 : Node := deliver env0 [MsgProposal p1; MsgProposal p2] (start (four slashing) x01).
Definition b1 : Node := deliver env0 [MsgProposal p2; MsgProposal p1] (start (four slashing) x03).
Definition c1 : Node := deliver env0 [MsgProposal p1; MsgProposal p2] (start (four slashing) x04).

Definition a2 : Node := deliver env0 (n_net b1 ++ n_net c1) a1.
Definition b2 : Node := deliver env0 (n_net a1 ++ n_net c1) b1.
Definition c2 : Node := deliver env0 (n_net a1 ++ n_net b1) c1.

Definition sent_since (before after : Node) : list Message :=
  drop (length (n_net before)) (n_net after).

Definition a3 : Node := deliver env0 (sent_since b1 b2 ++ sent_since c1 c2) a2.
Definition b3 : Node := deliver env0 (sent_since a1 a2 ++ sent_since c1 c2) b2.

End equivocation.

(** C38: one faulty validator can fork the chain when slashing is disabled:
    among four validators the proposer signs two proposals for one round; the
    three correct nodes prevote for both (a node votes on every proposal it
    receives), lock and precommit both, and two of them commit different
    blocks at height one, although every message they receive besides the two
    proposals is one the correct nodes sent. *)
Theorem equivocation_forks_without_slashing :
  reachable_node (four false) (a3 false) /\ reachable_node (four false) (b3 false) /\
  sn_height (n_snapshot (a3 false)) = 1 /\ sn_height (n_snapshot (b3 false)) = 1 /\
  sn_tip_hash (n_snapshot (a3 false)) = hash_of (p2 false) /\
  sn_tip_hash (n_snapshot (b3 false)) = hash_of (p1 false) /\
  hash_of (p1 false) <> hash_of (p2 false).
Proof.
  split; [|split].
  - unfold a3. apply deliver_reachable; [|vm_compute; reflexivity].
    unfold a2. apply deliver_reachable; [|vm_compute; reflexivity].
    unfold a1. apply deliver_reachable; [|vm_compute; reflexivity].
    apply start_reachable. vm_compute. reflexivity.
  - unfold b3. apply deliver_reachable; [|vm_compute; reflexivity].
    unfold b2. apply deliver_reachable; [|vm_compute; reflexivity].
    unfold b1. apply deliver_reachable; [|vm_compute; reflexivity].
    apply start_reachable. vm_compute. reflexivity.
  - split_and!; vm_compute; try reflexivity. discriminate.
Qed.

(** With slashing enabled the same run ends without a commit, and it is
    the correct nodes that pay: each is recorded as having voted for two blocks
    and is jailed, while the proposer that signed two proposals is not. *)
Theorem equivocation_jails_the_correct_nodes :
  n_height (a3 true) = 1 /\ n_height (b3 true) = 1 /\
  map (fun v => is_jailed (n_slashing_state (a2 true)) (id_of v) 1) [x01; x03; x04]
    = [true; true; true] /\
  is_jailed (n_slashing_state (a2 true)) (id_of x02) 1 = false.
Proof. split_and!; vm_compute; reflexivity. Qed.

(** ** Other runs *)

(** A transaction that does not decode stops the validator: it is queued
    and proposed without being checked, and when its block reaches the quorum
    the failed commit ends the process. *)
Theorem malformed_tx_stops_the_node :
  decode_event [x01] = Err InvalidTxLength /\ maybe_propose env0 (submit_tx [x01] false solo) = Exited.
Proof. split; [reflexivity|]. apply is_exited_true. vm_compute. reflexivity. Qed.

Definition late1 : Node := result_of (check_timeouts env1 (start (four true) x01)) solo.
Definition late2 : Node := deliver env1 [MsgProposal (p1 true)] late1.

(** A late proposal makes a correct node slash itself: after the propose
    timeout it has prevoted nil; when the proposal of the same round arrives it
    prevotes again, for the block, takes its own two votes as a double sign,
    loses five percent of its stake and ignores its own votes from then on. *)
Theorem late_proposal_slashes_self :
  n_net late1 = [MsgVote (make_vote (start (four true) x01) Prevote ZERO_HASH)] /\
  n_net late2 = n_net late1 ++ [MsgVote (make_vote late1 Prevote (hash_of (p1 true)))] /\
  is_jailed (n_slashing_state late2) (n_node_id late2) (n_height late2) = true /\
  effective_stake (n_slashing_state late1) (n_node_id late1) (n_height late1) = 1000 /\
  stakes (n_slashing_state late2) !! n_node_id late2 = Some 950.
Proof. split_and!; vm_compute; reflexivity. Qed.

(** The step is overwritten after a nested commit: the proposer of a
    one-validator chain commits its block inside [handle_proposal] and then
    sets its step to prevote, so it starts height two in the wrong step and
    does not propose in round zero of it. *)
Theorem nested_commit_overwrites_step :
  n_height solo2 = 2 /\ n_round solo2 = 0 /\ n_step solo2 = SPrevote /\
  sn_height (n_snapshot solo2) = 1 /\ maybe_propose env0 solo2 = Done solo2.
Proof.
  assert (n_step solo2 = SPrevote) as Hs by (vm_compute; reflexivity).
  do 4 (split; [vm_compute; reflexivity|]). unfold maybe_propose. by rewrite Hs.
Qed.

End runs.

(** ** Witnesses *)

Section witnesses.

#[local] Instance no_json : SnapshotJson := fixed_json None.

Lemma handle_vote_terminates_witness :
  handle_vote_fuel 7 env0 (make_vote solo Prevote ZERO_HASH) solo
    = handle_vote env0 (make_vote solo Prevote ZERO_HASH) solo /\
  handle_vote env0 (make_vote solo Prevote ZERO_HASH) solo <> OutOfFuel.
Proof. apply (handle_vote_terminates 7); lia. Defined.

Lemma committed_chain_witness :
  ChainInv (n_snapshot solo2) /\ n_height solo2 = sn_height (n_snapshot solo2) + 1.
Proof. exact (committed_chain solo_genesis solo2 solo2_reachable). Defined.

Lemma committed_is_final_witness : extends solo solo2.
Proof. exact (committed_is_final solo_genesis solo solo2 solo_reachable solo_steps). Defined.

Lemma commit_certificate_witness :
  exists votes, quorum_met (n_validators solo2) votes = true /\
    forall id, id ∈ votes -> exists signed,
      verify_vote solo2 signed = true /\
      sv_vote signed = mkVote 1 (hd_round (bl_header solo_block)) Precommit
        (block_hash (bl_header solo_block)) id.
Proof. exact (commit_certificate solo_genesis solo2 1 solo_block solo2_reachable solo2_block). Defined.

Lemma transactions_committed_once_witness :
  tx_hash good_tx ∈ hashes_set (n_ledger solo2) /\
  forall x, x ∈ hashes_set (n_ledger solo2) <->
    exists h b, sn_blocks_by_height (n_snapshot solo2) !! h = Some b /\ x ∈ block_hashes b.
Proof.
  refine (proj2 (transactions_committed_once solo_genesis solo2 1 1 solo_block solo_block 0 0 good_tx good_tx
    solo2_reachable solo2_block solo2_block _ _)); vm_compute; reflexivity.
Defined.

Definition solo_infos : list ValidatorInfo :=
  [mkValidatorInfo (toy_public (secret x01)) (id_of x01) [] 1 1000 None].

Lemma accountable_agreement_witness :
  block_hash (bl_header solo_block) = block_hash (bl_header solo_block) \/
  exists guilty : gset NodeId,
    block_hash (bl_header solo_block) <> block_hash (bl_header solo_block) /\
    (0 + 1 <= size guilty)%nat /\ guilty ⊆ list_to_set (map vi_node_id solo_infos) /\
    forall id, id ∈ guilty ->
      certified (ValidatorSet_new solo_infos) Precommit 1 (hd_round (bl_header solo_block))
        (block_hash (bl_header solo_block)) id /\
      certified (ValidatorSet_new solo_infos) Precommit 1 (hd_round (bl_header solo_block))
        (block_hash (bl_header solo_block)) id.
Proof.
  apply (accountable_agreement solo_genesis solo_infos 0 solo2 solo2 1 solo_block solo_block);
    [vm_compute; reflexivity|reflexivity|repeat constructor|apply solo2_reachable..
    |apply solo2_block|apply solo2_block|reflexivity].
Defined.

Lemma snapshot_file_never_written_witness : store_file (mkSnapshotStore None) = None.
Proof.
  apply (snapshot_file_never_written solo_genesis solo2 (mkSnapshotStore None) solo2_reachable).
  vm_compute. reflexivity.
Defined.

Definition solo_turn : outcome (Node * bool) := run_turn env0 [] [SubmitTx good_tx; Shutdown] solo.

Lemma run_turn_steps_witness :
  exists m, rtc node_step solo m /\ (m = solo1 \/ u64_max <= n_height m).
Proof. apply (run_turn_steps env0 [] [SubmitTx good_tx; Shutdown] solo solo1 true). reflexivity. Defined.

Definition solo_worked : Node :=
  match run_turn env0 [] [SubmitTx good_tx] solo with Done (n, _) => n | _ => solo end.

Lemma solo_worked_turn : run_turn env0 [] [SubmitTx good_tx] solo = Done (solo_worked, false).
Proof.
  assert (match run_turn env0 [] [SubmitTx good_tx] solo with Done (_, b) => negb b | _ => false end = true)
    as Hd by (vm_compute; reflexivity).
  unfold solo_worked. destruct (run_turn _ _ _ _) as [[n []]| | |]; done.
Qed.

Lemma run_turn_work_witness :
  known_tx good_tx solo_worked /\ MsgTx good_tx ∈ n_net solo_worked /\
  MsgProposal (sign_proposal solo1 (build_block env0 solo1)) ∈ n_net solo_worked /\
  overdue env0 solo_worked = false.
Proof.
  destruct (run_turn_work env0 [] [SubmitTx good_tx] solo solo_worked false)
    as (_ & Hk & Hs & _ & Hw); [apply (bool_decide_unpack _); vm_compute; exact I|apply solo_worked_turn|].
  destruct (Hw eq_refl) as (Hp & Ho & _). split_and!; [| | |exact Ho].
  - apply Hk; [vm_compute; discriminate|right; by left].
  - apply Hs; [vm_compute; discriminate|by left].
  - apply (Hp solo eq_refl). split; [vm_compute; reflexivity|]. split; [vm_compute; reflexivity|].
    exists (mkValidatorInfo (toy_public (secret x01)) (id_of x01) [] 1 1000 None).
    split; vm_compute; reflexivity.
Defined.

Lemma build_block_valid_witness :
  validate_block solo1 (build_block env0 solo1) = true /\
  exists rest, n_mempool solo1 = bl_txs (build_block env0 solo1) ++ rest /\
    (rest = [] \/
     Z.of_nat (length (bl_txs (build_block env0 solo1))) = cc_max_events (consensus_of solo1) \/
     exists tx rest', rest = tx :: rest' /\
       cc_max_block_bytes (consensus_of solo1)
         < txs_bytes (bl_txs (build_block env0 solo1) ++ [tx])).
Proof. apply build_block_valid; vm_compute; discriminate. Defined.

Lemma mempool_accounting_witness :
  n_mempool_bytes solo2 = Z.min (pool_bytes (n_mempool solo2)) u64_max /\
  Forall (fun tx => tx <> []) (n_mempool solo2).
Proof. exact (mempool_accounting solo_genesis solo2 solo2_reachable). Defined.

Lemma timeout_backoff_bounds_witness :
  0 <= timeout_backoff 800 (config true) 2 <= 10000 /\
  timeout_backoff 800 (config true) 0 = Z.min 800 10000 /\
  (Z.max 2 1 <= 3 -> timeout_backoff 800 (config true) 2 <= timeout_backoff 800 (config true) 5).
Proof.
  apply (timeout_backoff_bounds 800 (config true) 2 5); unfold is_u64, u64_max; simpl; lia.
Defined.

(** A node locked on some other block, and on a block of another round. *)
Definition other_header : BlockHeader := mkBlockHeader 1 5 ZERO_HASH ZERO_HASH (id_of x02) 3.
Definition locked_node : Node :=
  set_locked (Some (block_hash other_header)) (start (four true) x01).
Definition locked_after : Node := result_of (handle_proposal env0 (p1 true) locked_node) locked_node.

Lemma p1_accepted : proposal_accepted locked_node (p1 true).
Proof. do 3 (split; [vm_compute; reflexivity|]). vm_compute. reflexivity. Qed.

Lemma locked_after_runs : handle_proposal env0 (p1 true) locked_node = Done locked_after.
Proof. apply result_of_done. vm_compute. reflexivity. Qed.

Lemma p1_wf : wf_header (bl_header (p_block (p1 true))).
Proof. refine (@bool_decide_unpack _ (wf_header_dec _) _). vm_compute. exact I. Qed.

Lemma stale_lock_prevotes_nil_witness :
  n_net locked_after = n_net locked_node ++ [MsgVote (make_vote locked_node Prevote ZERO_HASH)] \/
  collision (header_bytes other_header) (header_bytes (bl_header (p_block (p1 true)))).
Proof.
  refine (stale_lock_prevotes_nil env0 locked_node (p1 true) other_header locked_after
    eq_refl _ _ p1_wf p1_accepted locked_after_runs); [vm_compute; discriminate|].
  refine (@bool_decide_unpack _ (wf_header_dec _) _). vm_compute. exact I.
Defined.

Definition tight_node : Node :=
  submit_tx good_tx false (submit_tx (replicate 9 x01) false
    (blank (mkGenesisConfig [] [] (mkConsensusConfig 8 5 0 0 0 0 3 2 0
      (mkSlashingConfig true 5 1 1000)) (mkClientConfig []) (mkTransportConfig false)) x01)).

Lemma oversized_head_blocks_pool_witness : bl_txs (build_block env0 tight_node) = [].
Proof.
  apply (oversized_head_blocks_pool env0 tight_node (replicate 9 x01) [good_tx]);
    [reflexivity|reflexivity|unfold is_u64, u64_max; simpl; lia].
Defined.

(** The snapshot file of the committed block. *)
Definition solo_doc : PersistedSnapshot :=
  mkPersistedSnapshot 1 (block_hash (bl_header solo_block)) [solo_block] None.

Definition doc_json : SnapshotJson := fixed_json (Some solo_doc).

Lemma restart_recovers_chain_witness :
  exists m, Node_new (H2 := doc_json) env1 solo_genesis (keypair x01)
      (Some (mkSnapshotStore (Some []))) NodeSnapshot_new = Ok m /\
    chain_state_of m = chain_state_of (solo2 (J := doc_json)) /\
    index_maps (n_snapshot m) = index_maps (n_snapshot (solo2 (J := doc_json))) /\
    sn_height (n_snapshot m) = 1 /\
    sn_tip_hash (n_snapshot m) = block_hash (bl_header solo_block) /\
    sn_slashing_state (n_snapshot m) = None /\
    n_height m = 2 /\ n_round m = 0 /\ n_step m = SPropose /\ n_locked m = None /\
    n_round_state m = RoundState_new.
Proof.
  apply (restart_recovers_chain (H2 := doc_json) solo_genesis (solo2 (J := doc_json)) env1
    (keypair x01) (mkSnapshotStore (Some [])) None);
    [apply solo2_reachable|vm_compute; reflexivity|vm_compute; reflexivity].
Defined.

Lemma restart_exact_witness :
  exists m, Node_new (H2 := doc_json) env1 solo_genesis (keypair x01)
    (Some (mkSnapshotStore (Some []))) NodeSnapshot_new = Ok m /\ restored solo_doc m.
Proof.
  destruct (restart_exact (H2 := doc_json) solo_genesis solo_infos env1 (keypair x01)
    (mkSnapshotStore (Some []))) as [Hr _]; [vm_compute; reflexivity|vm_compute; reflexivity|].
  change (Z.of_nat 1 < u64_max ->
    (is_ok (Node_new (H2 := doc_json) env1 solo_genesis (keypair x01)
       (Some (mkSnapshotStore (Some []))) NodeSnapshot_new) = true <-> restorable solo_doc) /\
    forall m, Node_new (H2 := doc_json) env1 solo_genesis (keypair x01)
       (Some (mkSnapshotStore (Some []))) NodeSnapshot_new = Ok m -> restored solo_doc m) in Hr.
  destruct Hr as [[_ Hok] Hm]; [reflexivity|].
  assert (restorable solo_doc) as Hd.
  { split; [split_and!; vm_compute; reflexivity|]. split; [|discriminate].
    apply (bool_decide_unpack _). vm_compute. exact I. }
  apply Hok in Hd. destruct (Node_new (H2 := doc_json) _ _ _ _ _) as [m|] eqn:E; [|discriminate Hd].
  exact (ex_intro _ m (conj eq_refl (Hm m eq_refl))).
Defined.

(** A block nobody proposed or voted for, with a false transaction root. *)
Definition forged_block : Block :=
  mkBlock (mkBlockHeader 1 0 ZERO_HASH (replicate 32 xff) (replicate 32 xff) 1000) [good_tx].

Definition forged_json : SnapshotJson :=
  fixed_json (Some (mkPersistedSnapshot 1 ZERO_HASH [forged_block] None)).

(** A restart checks neither certificates nor transaction roots: it takes the
    forged block of a snapshot file as committed. *)
Theorem restart_accepts_forged_block :
  match Node_new (H2 := forged_json) env1 solo_genesis (keypair x01)
          (Some (mkSnapshotStore (Some []))) NodeSnapshot_new with
  | Ok m => sn_blocks_by_height (n_snapshot m) !! 1
  | Err _ => None
  end = Some forged_block /\
  merkle_root_hashes (map tx_hash (bl_txs forged_block)) <> hd_tx_root (bl_header forged_block).
Proof. split; [vm_compute; reflexivity|vm_compute; discriminate]. Qed.

(** Three of the four validators, one of them the proposer with a transaction
    in its pool. *)
Definition lead : Node := submit_tx good_tx true (start (four true) x02).
Definition crew : list Node := [start (four true) x01; start (four true) x03].
Definition crew_ids : gset NodeId := list_to_set (map n_node_id (lead :: crew)).

Definition four_infos : list ValidatorInfo :=
  match validator_infos (four true) with Ok infos => infos | Err _ => [] end.

Lemma crew_in_step n : n ∈ lead :: crew -> in_step crew_ids lead n.
Proof.
  intros Hn. repeat (apply elem_of_cons in Hn as [->|Hn]); [..|by apply elem_of_nil in Hn];
    (split; [vm_compute; reflexivity..|split; vm_compute; reflexivity
            |apply (bool_decide_unpack _); vm_compute; exact I
            |vm_compute; reflexivity|vm_compute; reflexivity|done|done]).
Qed.

Lemma synchronous_round_commits_witness :
  exists l1, maybe_propose env0 lead = Done l1 /\ MsgProposal (proposal_of env0 lead) ∈ n_net l1 /\
    completes_round (proposal_of env0 lead) (lead :: crew) lead l1.
Proof.
  refine (proj1 (synchronous_round_commits four_infos env0 lead crew _ _ _ _ _ _ _)).
  - vm_compute. reflexivity.
  - refine (bool_decide_unpack _ _). vm_compute. exact I.
  - vm_compute. reflexivity.
  - apply Forall_forall. exact crew_in_step.
  - eexists. split_and!; vm_compute; reflexivity.
  - reflexivity.
  - split; [vm_compute; discriminate|]. split; [vm_compute; discriminate|].
    split; [apply extends_tip_build_block|vm_compute; reflexivity|vm_compute; discriminate
          |vm_compute; discriminate|].
    vm_compute. reflexivity.
Defined.

End witnesses.
