(* ===== verification/Wire.v ===== *)
(** * The wire format and the handshake (src/rust-core/src/bft/node.rs)

    Length-prefixed JSON frames ([write_message], [try_decode_message],
    [read_message]), the receive loop of a peer thread over the chunks a socket
    delivers, and the two sides of the Hello handshake.  JSON (package
    [serde_json] on [Message]) is an interface; a socket is the bytes it still
    has to deliver and the bytes written to it. *)

From Stdlib Require Import ZArith Lia Strings.Byte.
From stdpp Require Import base gmap list strings.
From S2P Require Import Prelude Crypto Event BftTypes BftConfig Node NodeFacts.

(** [serde_json] on [Message]: what is written is read back, and no document is
    empty. *)
Class MessageJson := {
  message_to_vec : Message -> option (list byte);
  message_from_slice : list byte -> option Message;
  message_json_roundtrip : forall m data,
    message_to_vec m = Some data -> message_from_slice data = Some m;
  message_json_nonempty : forall m data, message_to_vec m = Some data -> data <> [];
}.

Inductive WireError := JsonError | InvalidMessageLength | IoError.

Definition max_message_len : Z := 8000000.

Section wire.
Context `{MessageJson}.

(** ** Frames *)

(** The bytes [write_message] writes: [data.len() as u32], then the data. *)
Definition write_message (msg : Message) : result (list byte) WireError :=
  match message_to_vec msg with
  | None => Err JsonError
  | Some data => Ok (to_le_bytes 4 (Z.of_nat (length data) mod 2 ^ 32) ++ data)
  end.

(** [try_decode_message]: the new buffer and the result. *)
Definition try_decode_message (buf : list byte) : list byte * result (option Message) WireError :=
  if decide (length buf < 4)%nat then (buf, Ok None)
  else
    let len := from_le_bytes (take 4 buf) in
    if (len =? 0) || (max_message_len <? len) then (buf, Err InvalidMessageLength)
    else
      let n := Z.to_nat len in
      if decide (length buf < 4 + n)%nat then (buf, Ok None)
      else
        let data := take n (drop 4 buf) in
        let buf := drop (4 + n) buf in
        match message_from_slice data with
        | None => (buf, Err JsonError)
        | Some msg => (buf, Ok (Some msg))
        end.

(** ** The receive loop of [spawn_peer] *)

(** The state of the peer thread: its buffer, the messages passed to the node,
    and whether the thread is still running. *)
Record Peer := mkPeer {
  pe_buf : list byte;
  pe_received : list Message;
  pe_running : bool;
}.

Definition Peer_new : Peer := mkPeer [] [] true.

(** The inner loop: decode until the buffer holds no complete frame. *)
Fixpoint decode_loop (fuel : nat) (p : Peer) : option Peer :=
  match fuel with
  | O => None
  | S fuel' =>
      match try_decode_message (pe_buf p) with
      | (buf, Ok (Some msg)) => decode_loop fuel' (mkPeer buf (pe_received p ++ [msg]) true)
      | (buf, Ok None) => Some (mkPeer buf (pe_received p) true)
      | (buf, Err _) => Some (mkPeer buf (pe_received p) false)
      end
  end.

(** What a read of the socket gives: some bytes, nothing before the timeout, or
    an error. *)
Inductive ReadOutcome := Got (bytes : list byte) | NoData | Failed.

(** [read_into_buffer]: reading zero bytes means the connection is closed. *)
Definition read_into_buffer (r : ReadOutcome) (buf : list byte) : result (list byte) WireError :=
  match r with
  | Got [] => Err IoError
  | Got bytes => Ok (buf ++ bytes)
  | NoData => Ok buf
  | Failed => Err IoError
  end.

(** One turn of the thread on what its read gives.  A frame has at least five
    bytes, so the buffer's length bounds the inner loop
    ([decode_loop_total]). *)
Definition peer_turn (r : ReadOutcome) (p : Peer) : option Peer :=
  if pe_running p then
    match read_into_buffer r (pe_buf p) with
    | Ok buf => decode_loop (S (length buf)) (mkPeer buf (pe_received p) true)
    | Err _ => Some (mkPeer (pe_buf p) (pe_received p) false)
    end
  else Some p.

Fixpoint receive (reads : list ReadOutcome) (p : Peer) : option Peer :=
  match reads with
  | [] => Some p
  | r :: rest =>
      match peer_turn r p with
      | None => None
      | Some p => receive rest p
      end
  end.

(** *** Termination *)

Lemma try_decode_shrinks buf buf' msg :
  try_decode_message buf = (buf', Ok (Some msg)) -> (length buf' < length buf)%nat.
Proof.
  unfold try_decode_message. case_decide; [done|]. destruct (_ || _) eqn:El; [done|].
  case_decide; [done|]. destruct (message_from_slice _); [|done]. intros [= <- _].
  rewrite length_drop. lia.
Qed.

Lemma decode_loop_total fuel p :
  (length (pe_buf p) < fuel)%nat -> is_Some (decode_loop fuel p).
Proof.
  revert p. induction fuel as [|fuel IH]; intros p Hf; simpl; [lia|].
  destruct (try_decode_message (pe_buf p)) as [buf [[msg|]|e]] eqn:E; [|by eexists..].
  apply try_decode_shrinks in E. apply IH. simpl. lia.
Qed.

Lemma receive_total reads p : is_Some (receive reads p).
Proof.
  revert p. induction reads as [|r reads IH]; intros p; simpl; [by eexists|].
  assert (is_Some (peer_turn r p)) as [p' ->]; [|apply IH].
  unfold peer_turn. destruct (pe_running p); [|by eexists].
  destruct (read_into_buffer _ _); [|by eexists]. apply decode_loop_total. simpl. lia.
Qed.

(** *** Frames come out as they went in *)

(** [b] is the frame of [m], within the receiver's limit. *)
Definition framed (m : Message) (b : list byte) : Prop :=
  write_message m = Ok b /\ Z.of_nat (length b) <= max_message_len + 4.

Lemma framed_inv m b :
  framed m b -> exists data, message_from_slice data = Some m /\
    b = to_le_bytes 4 (Z.of_nat (length data)) ++ data /\
    1 <= Z.of_nat (length data) <= max_message_len.
Proof.
  intros [E Hlen]. unfold write_message in E.
  destruct (message_to_vec m) as [data|] eqn:Em; [|done].
  assert (b = to_le_bytes 4 (Z.of_nat (length data) mod 2 ^ 32) ++ data) as -> by congruence.
  rewrite length_app, length_to_le_bytes in Hlen. exists data.
  pose proof (message_json_nonempty _ _ Em). unfold max_message_len in *.
  rewrite Z.mod_small by lia. split; [by apply message_json_roundtrip|]. split; [done|].
  destruct data; [done|]. simpl in *. lia.
Qed.

Lemma framed_length m b : framed m b -> (5 <= length b)%nat.
Proof.
  intros (data & _ & -> & Hl)%framed_inv. rewrite length_app, length_to_le_bytes. lia.
Qed.

(** Decoding a buffer that agrees with the stream. *)
Lemma try_decode_framed m b buf future rest :
  framed m b -> buf ++ future = b ++ rest ->
  try_decode_message buf =
    if decide (length buf < length b)%nat then (buf, Ok None)
    else (drop (length b) buf, Ok (Some m)).
Proof.
  intros (data & Hd & -> & Hl)%framed_inv E. set (hd := to_le_bytes 4 _) in *.
  assert (length hd = 4%nat) as Hhd by apply length_to_le_bytes.
  rewrite length_app, Hhd. unfold try_decode_message.
  destruct (decide (length buf < 4)%nat); [by rewrite decide_True by lia|].
  assert (take 4 buf = hd) as ->.
  { transitivity (take 4 (buf ++ future)); [by rewrite take_app_le by lia|].
    rewrite E, <- app_assoc, take_app_le, take_ge by lia. done. }
  assert (from_le_bytes hd = Z.of_nat (length data)) as ->.
  { unfold hd. apply from_to_le_bytes. unfold max_message_len in Hl. lia. }
  rewrite (proj2 (Z.eqb_neq _ _)), (proj2 (Z.ltb_ge _ _)) by lia. simpl orb.
  rewrite Nat2Z.id. destruct (decide (length buf < 4 + length data)%nat); [done|].
  assert (take (4 + length data) buf = hd ++ data) as Et.
  { transitivity (take (4 + length data) (buf ++ future)); [by rewrite take_app_le by lia|].
    rewrite E, take_app_le, take_ge; [done|rewrite length_app; lia..]. }
  assert (take (length data) (drop 4 buf) = data) as ->; [|by rewrite Hd].
  rewrite take_drop_commute, Et. by apply drop_app_exact.
Qed.

Lemma decode_loop_framed fuel buf received ms bs future :
  (length buf < fuel)%nat -> Forall2 framed ms bs -> buf ++ future = concat bs ->
  exists ms1 ms2 bs2 buf', ms = ms1 ++ ms2 /\ Forall2 framed ms2 bs2 /\
    decode_loop fuel (mkPeer buf received true) = Some (mkPeer buf' (received ++ ms1) true) /\
    buf' ++ future = concat bs2 /\ (future = [] -> ms2 = []).
Proof.
  revert buf received ms bs. induction fuel as [|fuel IH]; intros buf received ms bs Hf Hfr E; [lia|].
  destruct Hfr as [|m b ms bs Hm Hfr].
  - apply app_nil in E as [-> ->]. exists [], [], [], []. rewrite (app_nil_r received).
    by split_and!.
  - simpl in E. simpl decode_loop. rewrite (try_decode_framed _ _ _ _ _ Hm E).
    pose proof (framed_length _ _ Hm). case_decide as Hlt.
    + exists [], (m :: ms), (b :: bs), buf. rewrite (app_nil_r received). split; [done|].
      split; [by constructor|]. split; [done|]. split; [done|]. intros ->.
      rewrite app_nil_r in E. subst buf. rewrite length_app in Hlt. lia.
    + destruct (IH (drop (length b) buf) (received ++ [m]) ms bs)
        as (ms1 & ms2 & bs2 & buf' & -> & Hfr2 & Hdec & Eb & Hfin); [rewrite length_drop; lia|done| |].
      { rewrite <- drop_app_le, E by lia. by apply drop_app_exact. }
      exists (m :: ms1), ms2, bs2, buf'. rewrite <- app_assoc in Hdec. done.
Qed.

(** The reads of an open connection, and the bytes they deliver. *)
Definition open_read (r : ReadOutcome) : Prop := r <> Failed /\ r <> Got [].

Definition read_bytes (r : ReadOutcome) : list byte :=
  match r with Got bytes => bytes | _ => [] end.

Lemma peer_turn_framed r buf received ms bs future :
  open_read r -> Forall2 framed ms bs -> buf ++ read_bytes r ++ future = concat bs ->
  exists ms1 ms2 bs2 buf', ms = ms1 ++ ms2 /\ Forall2 framed ms2 bs2 /\
    peer_turn r (mkPeer buf received true) = Some (mkPeer buf' (received ++ ms1) true) /\
    buf' ++ future = concat bs2 /\ (future = [] -> ms2 = []).
Proof.
  intros [Hr1 Hr2] Hfr E.
  assert (peer_turn r (mkPeer buf received true)
    = decode_loop (S (length (buf ++ read_bytes r))) (mkPeer (buf ++ read_bytes r) received true)) as ->.
  { unfold peer_turn. simpl. destruct r as [[|x l]| |]; simpl; try done. by rewrite app_nil_r. }
  apply decode_loop_framed with (bs := bs); [lia|done|]. by rewrite <- app_assoc.
Qed.

Lemma receive_framed reads buf received ms bs :
  reads <> [] -> Forall open_read reads -> Forall2 framed ms bs ->
  buf ++ concat (map read_bytes reads) = concat bs ->
  receive reads (mkPeer buf received true) = Some (mkPeer [] (received ++ ms) true).
Proof.
  revert buf received ms bs. induction reads as [|r reads IH]; [done|].
  intros buf received ms bs _ [Hr Hrs]%Forall_cons Hfr E. simpl in E.
  destruct (peer_turn_framed r buf received ms bs _ Hr Hfr E)
    as (ms1 & ms2 & bs2 & buf' & -> & Hfr2 & Ht & Eb & Hfin).
  simpl. rewrite Ht. destruct reads as [|r' reads].
  - rewrite (Hfin eq_refl) in *. apply Forall2_nil_inv_l in Hfr2 as ->.
    simpl in *. rewrite app_nil_r in Eb. subst buf'. by rewrite app_nil_r.
  - rewrite (IH buf' (received ++ ms1) ms2 bs2) by done. by rewrite app_assoc.
Qed.

(** The framing is a reliable stream codec: messages written by
    [write_message] one after the other come out of the peer thread in the same
    order and unchanged, and nothing is left in its buffer, however the
    socket splits the bytes into reads and wherever reads time out in
    between. *)
Theorem frames_reassembled ms frames reads :
  Forall2 framed ms frames -> reads <> [] -> Forall open_read reads ->
  concat (map read_bytes reads) = concat frames ->
  receive reads Peer_new = Some (mkPeer [] ms true).
Proof. intros Hfr Hne Hop E. by apply (receive_framed reads [] [] ms frames). Qed.

(** ** Blocking reads *)

(** A socket during the handshake: the bytes still to come, whether a read that
    finds too few of them times out (or else fails), and the bytes written. *)
Record Socket := mkSocket {
  sk_in : list byte;
  sk_times_out : bool;
  sk_out : list byte;
}.

Definition sk_write (bytes : list byte) (s : Socket) : Socket :=
  mkSocket (sk_in s) (sk_times_out s) (sk_out s ++ bytes).

Definition sk_advance (n : nat) (s : Socket) : Socket :=
  mkSocket (drop n (sk_in s)) (sk_times_out s) (sk_out s).

(** [read_message]. *)
Definition read_message (s : Socket) : Socket * result (option Message) WireError :=
  if decide (length (sk_in s) < 4)%nat
  then (sk_advance 4 s, if sk_times_out s then Ok None else Err IoError)
  else
    let len := from_le_bytes (take 4 (sk_in s)) in
    let s := sk_advance 4 s in
    if (len =? 0) || (max_message_len <? len) then (s, Err InvalidMessageLength)
    else
      let n := Z.to_nat len in
      if decide (length (sk_in s) < n)%nat then (sk_advance n s, Err IoError)
      else
        match message_from_slice (take n (sk_in s)) with
        | None => (sk_advance n s, Err JsonError)
        | Some msg => (sk_advance n s, Ok (Some msg))
        end.

Lemma read_message_framed m b rest e out :
  framed m b -> read_message (mkSocket (b ++ rest) e out) = (mkSocket rest e out, Ok (Some m)).
Proof.
  intros (data & Hd & -> & Hl)%framed_inv. set (hd := to_le_bytes 4 _) in *.
  assert (length hd = 4%nat) as Hhd by apply length_to_le_bytes.
  unfold read_message, sk_advance. cbn [sk_in sk_times_out sk_out]. rewrite <- app_assoc.
  rewrite decide_False by (rewrite length_app; lia).
  rewrite (take_app_exact hd), (drop_app_exact hd) by done.
  assert (from_le_bytes hd = Z.of_nat (length data)) as ->.
  { unfold hd. apply from_to_le_bytes. unfold max_message_len in Hl. lia. }
  rewrite (proj2 (Z.eqb_neq _ _)), (proj2 (Z.ltb_ge _ _)) by lia. simpl orb.
  rewrite Nat2Z.id, decide_False by (rewrite length_app; lia).
  by rewrite (take_app_exact data), (drop_app_exact data), Hd.
Qed.

(** ** The handshake *)

Section handshake.
Context `{Sha256} `{Ed25519} `{Hex}.

Definition hello_bytes (node_id : NodeId) : list byte := str "DVEL" ++ node_id.

Definition my_hello (keypair : Keypair) : Message :=
  let my_id := node_id_from_pubkey (public_key_to_bytes (kp_public keypair)) in
  MsgHello my_id (public_key_to_bytes (kp_public keypair))
    (sig_to_hex (sign (kp_secret keypair) (hello_bytes my_id))).

(** [let _ = write_message(..)]: a message that cannot be encoded is skipped. *)
Definition send_hello (keypair : Keypair) (s : Socket) : Socket :=
  match write_message (my_hello keypair) with
  | Ok bytes => sk_write bytes s
  | Err _ => s
  end.

(** The checks both sides make on the peer's Hello. *)
Definition check_hello (allowlist : gmap NodeId PublicKey) (msg : Message) : option NodeId :=
  match msg with
  | MsgHello node_id pubkey signature =>
      match allowlist !! node_id with
      | None => None
      | Some expected =>
          if decide (expected <> pubkey) then None
          else
            match public_key_from_bytes pubkey with
            | None => None
            | Some pk =>
                match sig_from_hex signature with
                | None => None
                | Some sig => if verify pk (hello_bytes node_id) sig then Some node_id else None
                end
            end
      end
  | _ => None
  end.

Definition handshake_accept (s : Socket) (allowlist : gmap NodeId PublicKey) (keypair : Keypair)
    : Socket * option NodeId :=
  match read_message s with
  | (s, Ok (Some msg)) =>
      match check_hello allowlist msg with
      | Some node_id => (send_hello keypair s, Some node_id)
      | None => (s, None)
      end
  | (s, _) => (s, None)
  end.

Definition handshake_connect (s : Socket) (allowlist : gmap NodeId PublicKey) (keypair : Keypair)
    : Socket * option NodeId :=
  let s := send_hello keypair s in
  match read_message s with
  | (s, Ok (Some msg)) => (s, check_hello allowlist msg)
  | (s, _) => (s, None)
  end.

Definition keypair_id (keypair : Keypair) : NodeId :=
  node_id_from_pubkey (public_key_to_bytes (kp_public keypair)).

Lemma check_my_hello `{!Ed25519Laws} allowlist keypair :
  keypair_ok keypair ->
  allowlist !! keypair_id keypair = Some (public_key_to_bytes (kp_public keypair)) ->
  check_hello allowlist (my_hello keypair) = Some (keypair_id keypair).
Proof.
  intros Hk Ha. unfold check_hello, my_hello. fold (keypair_id keypair). rewrite Ha.
  rewrite decide_False by (intros Hn; by apply Hn).
  rewrite Hk, derived_key_from_bytes, sig_from_to_hex, sign_verify. done.
Qed.

(** The handshake is complete: two nodes that hold each other's keys in
    their allowlists accept each other: the accepting side reads the Hello the
    connecting side wrote, answers with its own, and each side ends with the
    identity of the other and nothing left to read. *)
Theorem handshake_mutual `{!Ed25519Laws} allow1 allow2 kp1 kp2 b1 b2 e1 e2 :
  keypair_ok kp1 -> keypair_ok kp2 ->
  framed (my_hello kp1) b1 -> framed (my_hello kp2) b2 ->
  allow1 !! keypair_id kp2 = Some (public_key_to_bytes (kp_public kp2)) ->
  allow2 !! keypair_id kp1 = Some (public_key_to_bytes (kp_public kp1)) ->
  handshake_accept (mkSocket b1 e2 []) allow2 kp2 = (mkSocket [] e2 b2, Some (keypair_id kp1)) /\
  handshake_connect (mkSocket b2 e1 []) allow1 kp1 = (mkSocket [] e1 b1, Some (keypair_id kp2)).
Proof.
  intros K1 K2 F1 F2 A1 A2. unfold handshake_accept, handshake_connect, send_hello.
  rewrite (proj1 F1), (proj1 F2). unfold sk_write. simpl.
  rewrite <- (app_nil_r b1) at 1. rewrite <- (app_nil_r b2) at 2.
  rewrite (read_message_framed _ _ _ _ _ F1), (read_message_framed _ _ _ _ _ F2).
  by rewrite (check_my_hello allow2 kp1), (check_my_hello allow1 kp2).
Qed.

(** The handshake is sound: a side that ends with an identity has read a
    Hello whose key is the allowlisted key of that identity and whose signature
    verifies under it. *)
Theorem handshake_authentic s s' allowlist keypair node_id :
  handshake_accept s allowlist keypair = (s', Some node_id) \/
  handshake_connect s allowlist keypair = (s', Some node_id) ->
  exists pubkey signature pk sig,
    snd (read_message s) = Ok (Some (MsgHello node_id pubkey signature)) /\
    allowlist !! node_id = Some pubkey /\ public_key_from_bytes pubkey = Some pk /\
    sig_from_hex signature = Some sig /\ verify pk (hello_bytes node_id) sig = true.
Proof.
  assert (snd (read_message (send_hello keypair s)) = snd (read_message s)) as Er.
  { unfold send_hello. destruct (write_message _); [|done]. unfold read_message, sk_write. simpl.
    by repeat split_match. }
  intros Hh. assert (exists msg, snd (read_message s) = Ok (Some msg) /\
    check_hello allowlist msg = Some node_id) as (msg & -> & Hc).
  { destruct Hh as [Hh|Hh]; unfold handshake_accept, handshake_connect in Hh.
    - destruct (read_message s) as [s1 [[msg|]|]]; try done. exists msg. split; [done|].
      destruct (check_hello allowlist msg); by simplify_eq.
    - rewrite <- Er. destruct (read_message _) as [s1 [[msg|]|]]; try done. exists msg.
      by simplify_eq. }
  unfold check_hello in Hc. destruct msg as [id pubkey signature| | |]; try done.
  destruct (allowlist !! id) as [expected|] eqn:Ea; [|done]. case_decide as Hd; [done|].
  subst expected. destruct (public_key_from_bytes pubkey) as [pk|] eqn:Ep; [|done].
  destruct (sig_from_hex signature) as [sig|] eqn:Es; [|done].
  destruct (verify _ _ _) eqn:Ev; simplify_eq. by exists pubkey, signature, pk, sig.
Qed.

(** The four kinds of signed messages are disjoint: an event, a vote, a
    proposal and a Hello are signed as byte strings of different lengths, so a
    signature on a message of one kind is never one on a message of another. *)
Theorem signed_messages_disjoint ev v p id :
  wf_event ev -> wf_vote v -> length (p_proposer_id p) = 32%nat -> length id = 32%nat ->
  NoDup [canonical_bytes ev; vote_bytes v; proposal_bytes p; hello_bytes id].
Proof.
  intros Hev Hv Hp Hid. apply (NoDup_fmap_1 length).
  change (NoDup [length (canonical_bytes ev); length (vote_bytes v);
    length (proposal_bytes p); length (hello_bytes id)]).
  rewrite length_canonical_bytes, length_vote_bytes, length_proposal_bytes by done.
  unfold hello_bytes. rewrite length_app, Hid.
  apply (bool_decide_unpack _). vm_compute. exact I.
Qed.

End handshake.

(** ** Peer addresses *)

Definition is_byte (c b : byte) : bool := bool_decide (b = c).

(** The bytes before the first [c]; [None] if there is none ([str::find]). *)
Fixpoint until (c : byte) (s : Str) : option Str :=
  match s with
  | [] => None
  | b :: s' => if is_byte c b then Some [] else (cons b) <$> until c s'
  end.

(** [host_from_addr]: the host of a bracketed IPv6 address, or what precedes
    the first colon. *)
Definition host_from_addr (addr : Str) : option Str :=
  match addr with
  | b :: rest =>
      if is_byte "["%byte b then until "]"%byte rest
      else Some (default addr (until ":"%byte addr))
  | [] => Some []
  end.

Lemma until_app c s rest : c ∉ s -> until c (s ++ c :: rest) = Some s.
Proof.
  unfold is_byte. induction s as [|b s IH]; intros Hn; simpl; unfold is_byte.
  - by rewrite bool_decide_eq_true_2.
  - rewrite bool_decide_eq_false_2 by set_solver. rewrite IH by set_solver. done.
Qed.

(** A host without a colon, or a bracketed one, is recovered from its
    [host:port] form. *)
Lemma host_from_addr_ok host port :
  (":"%byte ∉ host -> "["%byte ∉ host -> host_from_addr (host ++ ":"%byte :: port) = Some host) /\
  ("]"%byte ∉ host ->
   host_from_addr ("["%byte :: host ++ "]"%byte :: ":"%byte :: port) = Some host).
Proof.
  split.
  - intros Hc Hb. pose proof (until_app ":"%byte host port Hc) as Hu.
    destruct host as [|b host]; simpl in *; [done|]. unfold is_byte at 1.
    rewrite bool_decide_eq_false_2 by set_solver. by rewrite Hu.
  - intros Hb. simpl. by apply until_app.
Qed.

End wire.

(** ** Witnesses *)

Section witnesses.
Import Toy.

(** A JSON package that can write two kinds of messages. *)
Definition toy_message_to_vec (m : Message) : option (list byte) :=
  match m with
  | MsgTx tx => Some (x01 :: tx)
  | MsgHello id pk sig =>
      if decide (length id = 32%nat /\ length pk = 32%nat) then Some (x02 :: id ++ pk ++ sig)
      else None
  | _ => None
  end.

Definition toy_message_from_slice (l : list byte) : option Message :=
  match l with
  | x01 :: tx => Some (MsgTx tx)
  | x02 :: l => Some (MsgHello (take 32 l) (take 32 (drop 32 l)) (drop 64 l))
  | _ => None
  end.

Lemma toy_message_roundtrip m data :
  toy_message_to_vec m = Some data -> toy_message_from_slice data = Some m.
Proof.
  destruct m; simpl; try done; [|by intros [= <-]].
  case_decide as Hd; [|done]. destruct Hd as [H1 H2]. intros [= <-]. simpl.
  rewrite (take_app_exact node_id), (drop_app_exact node_id), (take_app_exact pubkey) by done.
  do 2 f_equal. by rewrite app_assoc, drop_app_exact by (rewrite length_app; lia).
Qed.

Lemma toy_message_nonempty m data : toy_message_to_vec m = Some data -> data <> [].
Proof. destruct m; simpl; try done; [case_decide; [|done]|]; by intros [= <-]. Qed.

Definition toy_message_json : MessageJson :=
  {| message_to_vec := toy_message_to_vec; message_from_slice := toy_message_from_slice;
     message_json_roundtrip := toy_message_roundtrip;
     message_json_nonempty := toy_message_nonempty |}.

#[local] Existing Instance toy_message_json.

Definition frame1 : list byte := [x02; x00; x00; x00; x01; x05].
Definition frame2 : list byte := [x03; x00; x00; x00; x01; x06; x07].

Lemma frames_reassembled_witness :
  receive [Got [x02; x00]; NoData; Got [x00; x00; x01; x05; x03]; Got [x00; x00; x00; x01; x06; x07]]
    Peer_new = Some (mkPeer [] [MsgTx [x05]; MsgTx [x06; x07]] true).
Proof.
  apply (frames_reassembled [MsgTx [x05]; MsgTx [x06; x07]] [frame1; frame2]).
  - repeat constructor; vm_compute; try reflexivity; discriminate.
  - discriminate.
  - repeat constructor; discriminate.
  - reflexivity.
Defined.

Definition kp (b : byte) : Keypair := mkKeypair _ (replicate 32 b) (toy_public (replicate 32 b)).

Definition hello_frame (b : byte) : list byte :=
  match write_message (my_hello (kp b)) with Ok f => f | Err _ => [] end.

Definition peers : gmap NodeId PublicKey :=
  {[ keypair_id (kp x01) := toy_public (replicate 32 x01);
     keypair_id (kp x02) := toy_public (replicate 32 x02) ]}.

Lemma hello_framed b : b = x01 \/ b = x02 -> framed (my_hello (kp b)) (hello_frame b).
Proof. intros [-> | ->]; split; vm_compute; congruence. Qed.

Lemma handshake_mutual_witness :
  handshake_accept (mkSocket (hello_frame x01) true []) peers (kp x02)
    = (mkSocket [] true (hello_frame x02), Some (keypair_id (kp x01))) /\
  handshake_connect (mkSocket (hello_frame x02) true []) peers (kp x01)
    = (mkSocket [] true (hello_frame x01), Some (keypair_id (kp x02))).
Proof.
  apply (handshake_mutual peers peers (kp x01) (kp x02));
    [reflexivity|reflexivity|apply hello_framed; by left|apply hello_framed; by right
    |vm_compute; reflexivity|vm_compute; reflexivity].
Defined.

Lemma handshake_authentic_witness :
  exists pubkey signature pk sig,
    snd (read_message (mkSocket (hello_frame x01) true []))
      = Ok (Some (MsgHello (keypair_id (kp x01)) pubkey signature)) /\
    peers !! keypair_id (kp x01) = Some pubkey /\ public_key_from_bytes pubkey = Some pk /\
    sig_from_hex signature = Some sig /\ verify pk (hello_bytes (keypair_id (kp x01))) sig = true.
Proof.
  apply (handshake_authentic _ (mkSocket [] true (hello_frame x02)) peers (kp x02)).
  left. vm_compute. reflexivity.
Defined.

Lemma signed_messages_disjoint_witness :
  NoDup [canonical_bytes (Event_new ZERO_HASH ZERO_HASH 1 ZERO_HASH (replicate 64 x00));
         vote_bytes (mkVote 1 0 Prevote ZERO_HASH ZERO_HASH);
         proposal_bytes (mkProposal 1 0 (mkBlock demo_header []) ZERO_HASH []);
         hello_bytes ZERO_HASH].
Proof.
  apply signed_messages_disjoint; try reflexivity;
    apply (bool_decide_unpack _); vm_compute; exact I.
Defined.

End witnesses.
