(* ===== verification/Network.v ===== *)
(** * The peer network (struct [Network] of src/rust-core/src/bft/node.rs)

    The threads of the peer network and the state they share: the accept thread
    of [Network::start], one connecting thread per peer ([connect_peers]), one
    thread per connection ([spawn_peer]), and the calls of the node
    ([broadcast], [shutdown]).  A thread is its program counter between the
    points where it reads or changes shared state or the outside world; one
    event is one step of one thread, so a list of events is an interleaving.
    Starting the thread of a connection and entering it in the map of peers are
    one step, and so are the two effects of [shutdown]: what happens in between
    can as well happen before or after.
    TLS (package [rustls]) is an interface; what a connection delivers and
    accepts through [Read] and [Write] is a [Socket] or a [ReadOutcome], as in
    [Wire]. *)

From Stdlib Require Import ZArith Lia Strings.Byte.
From stdpp Require Import base gmap list strings.
From S2P Require Import Prelude Crypto Event BftTypes BftConfig ValidatorSet Node NodeFacts Wire.

(** ** TLS *)

(** What the source calls of [rustls]; a certificate and a private key are the
    bytes they wrap. *)
Class Rustls := {
  RootCertStore : Type;
  TlsClientConfig : Type;
  TlsServerConfig : Type;
  ServerName : Type;
  ServerConnection : Type;
  ClientConnection : Type;
  roots_empty : RootCertStore;
  roots_add : list byte -> RootCertStore -> option RootCertStore;
  client_config : RootCertStore -> list (list byte) -> list byte -> option TlsClientConfig;
  server_config : RootCertStore -> list (list byte) -> list byte -> option TlsServerConfig;
  server_name : Str -> option ServerName;
  server_connection : TlsServerConfig -> option ServerConnection;
  client_connection : TlsClientConfig -> ServerName -> option ClientConnection;
}.

Record TlsIdentity := mkTlsIdentity {
  ti_cert_chain : list (list byte);
  ti_key : list byte;
}.

Inductive TlsError :=
| TlsMissingCert
| TlsInvalidCert
| TlsInvalidIdentity
| TlsConnectionError
| InvalidAddress
| InvalidServerName
| ConnectFailed.

Section tls.
Context `{Rustls}.

Record TlsConfig := mkTlsConfig {
  tc_server : TlsServerConfig;
  tc_client : TlsClientConfig;
}.

(** The loop of [build_tls_config]. *)
Fixpoint trust_validators (validators : list ValidatorInfo) (roots : RootCertStore)
    : result RootCertStore TlsError :=
  match validators with
  | [] => Ok roots
  | v :: rest =>
      let? cert := ok_or (vi_tls_cert v) TlsMissingCert in
      let? roots := ok_or (roots_add cert roots) TlsInvalidCert in
      trust_validators rest roots
  end.

Definition build_tls_config (identity : TlsIdentity) (validators : list ValidatorInfo)
    : result TlsConfig TlsError :=
  let? roots := trust_validators validators roots_empty in
  let? client := ok_or (client_config roots (ti_cert_chain identity) (ti_key identity))
                   TlsInvalidIdentity in
  let? server := ok_or (server_config roots (ti_cert_chain identity) (ti_key identity))
                   TlsInvalidIdentity in
  Ok (mkTlsConfig server client).

(** [enum PeerStream], around the socket of the connection. *)
Inductive PeerStream :=
| Plain
| TlsServer (conn : ServerConnection)
| TlsClient (conn : ClientConnection).

Definition encrypted (s : PeerStream) : bool :=
  match s with Plain => false | _ => true end.

Definition make_server_stream (tls : option TlsConfig) : result PeerStream TlsError :=
  match tls with
  | Some tls =>
      let? conn := ok_or (server_connection (tc_server tls)) TlsConnectionError in
      Ok (TlsServer conn)
  | None => Ok Plain
  end.

Definition server_name_from_addr (addr : Str) : result ServerName TlsError :=
  let? host := ok_or (host_from_addr addr) InvalidAddress in
  ok_or (server_name host) InvalidServerName.

(** [connected]: whether [TcpStream::connect] succeeds. *)
Definition make_client_stream (connected : bool) (addr : Str) (tls : option TlsConfig)
    : result PeerStream TlsError :=
  if negb connected then Err ConnectFailed
  else
    match tls with
    | Some tls =>
        let? name := server_name_from_addr addr in
        let? conn := ok_or (client_connection (tc_client tls) name) TlsConnectionError in
        Ok (TlsClient conn)
    | None => Ok Plain
    end.

Lemma server_stream_encrypted tls s :
  make_server_stream tls = Ok s -> encrypted s = bool_decide (is_Some tls).
Proof.
  unfold make_server_stream. destruct tls as [tls|]; [|by intros [= <-]].
  intros (c & _ & [= <-])%result_bind_ok. done.
Qed.

Lemma client_stream_encrypted connected addr tls s :
  make_client_stream connected addr tls = Ok s -> encrypted s = bool_decide (is_Some tls).
Proof.
  unfold make_client_stream. destruct connected; [|done]. simpl.
  destruct tls as [tls|]; [|by intros [= <-]].
  intros (nm & _ & (c & _ & [= <-])%result_bind_ok)%result_bind_ok. done.
Qed.

(** Every validator's certificate is a root. *)
Lemma trust_validators_certs validators roots roots' :
  trust_validators validators roots = Ok roots' -> Forall (fun v => is_Some (vi_tls_cert v)) validators.
Proof.
  revert roots. induction validators as [|v vs IH]; intros roots; simpl; [by constructor|].
  intros (cert & Ec & (r & _ & Hr)%result_bind_ok)%result_bind_ok. constructor; [|by eapply IH].
  destruct (vi_tls_cert v); [by eexists|done].
Qed.

End tls.

(** ** The threads and their state *)

Section network.
Context `{MessageJson} `{Sha256} `{Ed25519} `{Hex} `{Rustls}.

(** The thread of a connection: at the test of the shutdown flag, in the loop
    over the outgoing queue, before the read, or ended. *)
Inductive PeerPc := AtCheck | AtDrain | AtRead | PeerEnded.

#[global] Instance PeerPc_eq_dec : EqDecision PeerPc.
Proof. solve_decision. Defined.

(** A connection: the channel [tx_out]/[rx_out] of [spawn_peer], the buffer of
    its thread, and the bytes the thread has written. *)
Record Conn := mkConn {
  cn_peer : NodeId;
  cn_stream : PeerStream;
  cn_pc : PeerPc;
  cn_queue : list Message;
  cn_buf : list byte;
  cn_out : list byte;
}.

(** [spawn_peer]. *)
Definition spawn_peer (peer : NodeId) (stream : PeerStream) : Conn :=
  mkConn peer stream AtCheck [] [] [].

(** The accept thread: binding, at the test of the flag, in [accept], in the
    handshake with a client, before the insertion into the map, or ended. *)
Inductive ListenPc :=
| LBind
| LCheck
| LAccept
| LHandshake (stream : PeerStream)
| LRegister (stream : PeerStream) (peer : NodeId)
| LEnded.

(** A connecting thread, for one validator. *)
Inductive DialPc :=
| DCheck
| DConnect
| DHandshake (stream : PeerStream)
| DRegister (stream : PeerStream) (peer : NodeId)
| DEnded.

Record Dialer := mkDialer { dl_addr : Str; dl_pc : DialPc }.

(** [struct Network] with its threads; [nw_peers] names a connection by its
    position in [nw_conns], and [nw_inbox] is the channel [tx_net]. *)
Record Network := mkNetwork {
  nw_peers : gmap NodeId nat;
  nw_conns : list Conn;
  nw_inbox : list Message;
  nw_shutdown : bool;
  nw_listener : ListenPc;
  nw_dialers : list Dialer;
  nw_allowlist : gmap NodeId PublicKey;
  nw_self_id : NodeId;
  nw_keypair : Keypair;
  nw_tls : option TlsConfig;
}.

Definition allowlist_of (validators : list ValidatorInfo) : gmap NodeId PublicKey :=
  foldl (fun m v => <[vi_node_id v := vi_pubkey v]> m) ∅ validators.

(** [Network::start]: the accept thread starts at its [bind]. *)
Definition Network_start (validators : list ValidatorInfo) (keypair : Keypair)
    (tls_identity : option TlsIdentity) : result Network TlsError :=
  let self_id := node_id_from_pubkey (public_key_to_bytes (kp_public keypair)) in
  let allowlist := allowlist_of validators in
  let? tls :=
    match tls_identity with
    | Some identity => let? cfg := build_tls_config identity validators in Ok (Some cfg)
    | None => Ok None
    end in
  Ok (mkNetwork ∅ [] [] false LBind [] allowlist self_id keypair tls).

Definition set_peers (m : gmap NodeId nat) (w : Network) : Network :=
  mkNetwork m (nw_conns w) (nw_inbox w) (nw_shutdown w) (nw_listener w) (nw_dialers w)
    (nw_allowlist w) (nw_self_id w) (nw_keypair w) (nw_tls w).

Definition set_conns (cs : list Conn) (w : Network) : Network :=
  mkNetwork (nw_peers w) cs (nw_inbox w) (nw_shutdown w) (nw_listener w) (nw_dialers w)
    (nw_allowlist w) (nw_self_id w) (nw_keypair w) (nw_tls w).

Definition set_inbox (ms : list Message) (w : Network) : Network :=
  mkNetwork (nw_peers w) (nw_conns w) ms (nw_shutdown w) (nw_listener w) (nw_dialers w)
    (nw_allowlist w) (nw_self_id w) (nw_keypair w) (nw_tls w).

Definition set_shutdown (b : bool) (w : Network) : Network :=
  mkNetwork (nw_peers w) (nw_conns w) (nw_inbox w) b (nw_listener w) (nw_dialers w)
    (nw_allowlist w) (nw_self_id w) (nw_keypair w) (nw_tls w).

Definition set_listener (pc : ListenPc) (w : Network) : Network :=
  mkNetwork (nw_peers w) (nw_conns w) (nw_inbox w) (nw_shutdown w) pc (nw_dialers w)
    (nw_allowlist w) (nw_self_id w) (nw_keypair w) (nw_tls w).

Definition set_dialers (ds : list Dialer) (w : Network) : Network :=
  mkNetwork (nw_peers w) (nw_conns w) (nw_inbox w) (nw_shutdown w) (nw_listener w) ds
    (nw_allowlist w) (nw_self_id w) (nw_keypair w) (nw_tls w).

(** [connect_peers]: one thread per validator other than the node itself. *)
Definition connect_peers (validators : list ValidatorInfo) (w : Network) : Network :=
  let others := filter (fun v => vi_node_id v <> nw_self_id w) validators in
  set_dialers (nw_dialers w ++ map (fun v => mkDialer (vi_address v) DCheck) others) w.

(** ** The calls of the node *)

(** [Sender::send]: it fails, and is ignored, once the receiving thread has
    ended. *)
Definition send (msg : Message) (c : Conn) : Conn :=
  if decide (cn_pc c = PeerEnded) then c
  else mkConn (cn_peer c) (cn_stream c) (cn_pc c) (cn_queue c ++ [msg]) (cn_buf c) (cn_out c).

(** The connections that the map of peers names. *)
Definition registered (w : Network) (i : nat) : bool :=
  bool_decide (i ∈ (map_to_list (nw_peers w)).*2).

(** [Network::broadcast]. *)
Definition net_broadcast (msg : Message) (w : Network) : Network :=
  set_conns (imap (fun i c => if registered w i then send msg c else c) (nw_conns w)) w.

(** [Network::shutdown]. *)
Definition net_shutdown (w : Network) : Network := set_peers ∅ (set_shutdown true w).

(** The end of a successful handshake: [spawn_peer] and the insertion. *)
Definition register (peer : NodeId) (stream : PeerStream) (w : Network) : Network :=
  set_peers (<[peer := length (nw_conns w)]> (nw_peers w))
    (set_conns (nw_conns w ++ [spawn_peer peer stream]) w).

(** ** The steps of the threads *)

Inductive AcceptResult := Incoming | WouldBlock | AcceptFailed.

(** What the outside world does in a step of a thread. *)
Inductive ListenEvent :=
| LeBind (ok : bool)
| LeCheck
| LeAccept (r : AcceptResult)
| LeHandshake (s : Socket)
| LeRegister.

Inductive DialEvent :=
| DeCheck
| DeConnect (connected : bool)
| DeHandshake (s : Socket)
| DeRegister.

(** A write succeeds, or fails after some bytes of the frame. *)
Inductive WriteResult := Written | WriteFailed (bytes : nat).

Inductive PeerEvent :=
| PeCheck
| PeWrite (r : WriteResult)
| PeDrained
| PeRead (r : ReadOutcome).

(** The accept thread; [None] if the event is not its next step. *)
Definition listen_step (ev : ListenEvent) (w : Network) : option Network :=
  match nw_listener w, ev with
  | LBind, LeBind ok => Some (set_listener (if ok then LCheck else LEnded) w)
  | LCheck, LeCheck => Some (set_listener (if nw_shutdown w then LEnded else LAccept) w)
  | LAccept, LeAccept Incoming =>
      match make_server_stream (nw_tls w) with
      | Ok stream => Some (set_listener (LHandshake stream) w)
      | Err _ => Some (set_listener LCheck w)
      end
  | LAccept, LeAccept WouldBlock => Some (set_listener LCheck w)
  | LAccept, LeAccept AcceptFailed => Some (set_listener LEnded w)
  | LHandshake stream, LeHandshake s =>
      match snd (handshake_accept s (nw_allowlist w) (nw_keypair w)) with
      | Some peer => Some (set_listener (LRegister stream peer) w)
      | None => Some (set_listener LCheck w)
      end
  | LRegister stream peer, LeRegister => Some (set_listener LCheck (register peer stream w))
  | _, _ => None
  end.

(** A connecting thread: its next program counter, and the peer it registers. *)
Definition dial_step (ev : DialEvent) (w : Network) (d : Dialer)
    : option (DialPc * option (NodeId * PeerStream)) :=
  match dl_pc d, ev with
  | DCheck, DeCheck => Some (if nw_shutdown w then DEnded else DConnect, None)
  | DConnect, DeConnect connected =>
      match make_client_stream connected (dl_addr d) (nw_tls w) with
      | Ok stream => Some (DHandshake stream, None)
      | Err _ => Some (DCheck, None)
      end
  | DHandshake stream, DeHandshake s =>
      match snd (handshake_connect s (nw_allowlist w) (nw_keypair w)) with
      | Some peer => Some (DRegister stream peer, None)
      | None => Some (DCheck, None)
      end
  | DRegister stream peer, DeRegister => Some (DEnded, Some (peer, stream))
  | _, _ => None
  end.

Definition set_pc (pc : PeerPc) (c : Conn) : Conn :=
  mkConn (cn_peer c) (cn_stream c) pc (cn_queue c) (cn_buf c) (cn_out c).

(** The thread of a connection: its new state, and the messages it passes to
    the node. *)
Definition conn_step (shutdown : bool) (ev : PeerEvent) (c : Conn) : option (Conn * list Message) :=
  match cn_pc c, ev with
  | AtCheck, PeCheck => Some (set_pc (if shutdown then PeerEnded else AtDrain) c, [])
  | AtDrain, PeWrite r =>
      match cn_queue c with
      | [] => None
      | msg :: queue =>
          match write_message msg, r with
          | Ok frame, Written =>
              Some (mkConn (cn_peer c) (cn_stream c) AtDrain queue (cn_buf c) (cn_out c ++ frame), [])
          | Ok frame, WriteFailed k =>
              Some (mkConn (cn_peer c) (cn_stream c) PeerEnded queue (cn_buf c)
                      (cn_out c ++ take (Nat.min k (length frame - 1)) frame), [])
          | Err _, _ =>
              Some (mkConn (cn_peer c) (cn_stream c) PeerEnded queue (cn_buf c) (cn_out c), [])
          end
      end
  | AtDrain, PeDrained =>
      match cn_queue c with
      | [] => Some (set_pc AtRead c, [])
      | _ :: _ => None
      end
  | AtRead, PeRead r =>
      match read_into_buffer r (cn_buf c) with
      | Err _ => Some (set_pc PeerEnded c, [])
      | Ok buf =>
          match decode_loop (S (length buf)) (mkPeer buf [] true) with
          | None => None
          | Some peer =>
              Some (mkConn (cn_peer c) (cn_stream c) (if pe_running peer then AtCheck else PeerEnded)
                      (cn_queue c) (pe_buf peer) (cn_out c), pe_received peer)
          end
      end
  | _, _ => None
  end.

Inductive NetEvent :=
| EvListener (ev : ListenEvent)
| EvDialer (i : nat) (ev : DialEvent)
| EvPeer (i : nat) (ev : PeerEvent)
| EvBroadcast (msg : Message)
| EvShutdown.

(** One step of one thread, or one call of the node. *)
Definition net_step (ev : NetEvent) (w : Network) : option Network :=
  match ev with
  | EvListener ev => listen_step ev w
  | EvDialer i ev =>
      match nw_dialers w !! i with
      | None => None
      | Some d =>
          match dial_step ev w d with
          | None => None
          | Some (pc, reg) =>
              let w := set_dialers (<[i := mkDialer (dl_addr d) pc]> (nw_dialers w)) w in
              Some (match reg with
                    | Some (peer, stream) => register peer stream w
                    | None => w
                    end)
          end
      end
  | EvPeer i ev =>
      match nw_conns w !! i with
      | None => None
      | Some c =>
          match conn_step (nw_shutdown w) ev c with
          | None => None
          | Some (c', msgs) =>
              Some (set_inbox (nw_inbox w ++ msgs) (set_conns (<[i := c']> (nw_conns w)) w))
          end
      end
  | EvBroadcast msg => Some (net_broadcast msg w)
  | EvShutdown => Some (net_shutdown w)
  end.

Fixpoint net_run (evs : list NetEvent) (w : Network) : option Network :=
  match evs with
  | [] => Some w
  | ev :: rest =>
      match net_step ev w with
      | None => None
      | Some w => net_run rest w
      end
  end.

(** ** Steps seen from one connection *)

Lemma conns_mono ev w w' : net_step ev w = Some w' -> (length (nw_conns w) <= length (nw_conns w'))%nat.
Proof.
  destruct ev as [ev|j ev|j ev|msg|]; simpl; intros E.
  - unfold listen_step in E. run_in E; simpl; rewrite ?length_app; simpl; lia.
  - run_in E. repeat split_match; simpl; rewrite ?length_app; simpl; lia.
  - run_in E. simpl. by rewrite length_insert.
  - injection E as <-. simpl. by rewrite length_imap.
  - by injection E as <-.
Qed.

Lemma net_step_conn ev w w' i c :
  net_step ev w = Some w' -> nw_conns w !! i = Some c ->
  exists c', nw_conns w' !! i = Some c' /\
    match ev with
    | EvPeer j pe => if decide (j = i) then exists msgs, conn_step (nw_shutdown w) pe c = Some (c', msgs)
                     else c' = c
    | EvBroadcast msg => c' = if registered w i then send msg c else c
    | _ => c' = c
    end.
Proof.
  intros E Hc. assert (forall k, (nw_conns w ++ k) !! i = Some c) as Happ
    by (intros k; by apply lookup_app_l_Some).
  destruct ev as [ev|j ev|j ev|msg|]; simpl in E.
  - exists c. split; [|done]. unfold listen_step in E. run_in E; simpl; auto.
  - exists c. split; [|done]. run_in E. repeat split_match; simpl; auto.
  - case_decide as Hd.
    + subst j. rewrite Hc in E. destruct (conn_step _ _ _) as [[c' msgs]|] eqn:Es; [|done].
      injection E as <-. exists c'. simpl. split; [|by exists msgs].
      apply list_lookup_insert_eq. by eapply lookup_lt_Some.
    + exists c. split; [|done]. run_in E. simpl. by rewrite list_lookup_insert_ne.
  - injection E as <-. eexists. split; [|reflexivity]. simpl. by rewrite list_lookup_imap, Hc.
  - exists c. by injection E as <-.
Qed.

(** *** A connection is registered once *)

Lemma net_step_unregistered ev w w' id i :
  net_step ev w = Some w' -> (i < length (nw_conns w))%nat ->
  nw_peers w !! id <> Some i -> nw_peers w' !! id <> Some i.
Proof.
  intros E Hi Hn.
  assert (forall peer, <[peer := length (nw_conns w)]> (nw_peers w) !! id <> Some i) as Hins.
  { intros peer [[_ Hl]|[_ ?]]%lookup_insert_Some; [lia|done]. }
  destruct ev as [ev|j ev|j ev|msg|]; simpl in E.
  - unfold listen_step in E. run_in E; simpl; auto.
  - run_in E. repeat split_match; simpl; auto.
  - run_in E. done.
  - by injection E as <-.
  - injection E as <-. simpl. by rewrite lookup_empty.
Qed.

Lemma net_run_unregistered evs w w' id i :
  net_run evs w = Some w' -> (i < length (nw_conns w))%nat ->
  nw_peers w !! id <> Some i -> nw_peers w' !! id <> Some i.
Proof.
  revert w. induction evs as [|ev evs IH]; intros w; simpl; [by intros [= <-]|].
  destruct (net_step ev w) as [w1|] eqn:E; [|done]. intros Hr Hi Hn.
  apply (IH w1 Hr); [pose proof (conns_mono _ _ _ E); lia|]. by eapply net_step_unregistered.
Qed.

Lemma registered_lookup w id i : nw_peers w !! id = Some i -> registered w i = true.
Proof.
  intros Hp. apply bool_decide_eq_true_2, list_elem_of_fmap. exists (id, i). split; [done|].
  by apply elem_of_map_to_list.
Qed.

(** ** Outgoing messages are written in order *)

Definition frame_of (m : Message) : list byte :=
  match write_message m with Ok b => b | Err _ => [] end.

(** The messages [evs] broadcast. *)
Definition broadcasts (evs : list NetEvent) : list Message :=
  omap (fun ev => match ev with EvBroadcast m => Some m | _ => None end) evs.

(** From [c] to [c'] the thread has written a prefix of the messages that were
    queued or sent in between, and the others are still queued. *)
Definition wrote (sent : list Message) (c c' : Conn) : Prop :=
  exists done, cn_queue c ++ sent = done ++ cn_queue c' /\
    cn_out c' = cn_out c ++ concat (map frame_of done) /\
    Forall (fun m => is_ok (write_message m) = true) done.

Lemma wrote_trans s1 s2 c1 c2 c3 : wrote s1 c1 c2 -> wrote s2 c2 c3 -> wrote (s1 ++ s2) c1 c3.
Proof.
  intros (d1 & E1 & O1 & F1) (d2 & E2 & O2 & F2). exists (d1 ++ d2).
  split; [by rewrite app_assoc, E1, <- !app_assoc, E2|].
  split; [by rewrite O2, O1, map_app, concat_app, app_assoc|]. by apply Forall_app.
Qed.

Lemma wrote_nothing c c' : cn_queue c' = cn_queue c -> cn_out c' = cn_out c -> wrote [] c c'.
Proof. intros Eq Eo. exists []. simpl. by rewrite Eq, Eo, !app_nil_r. Qed.

Lemma conn_step_wrote sd ev c c' msgs :
  conn_step sd ev c = Some (c', msgs) -> cn_pc c' <> PeerEnded -> wrote [] c c'.
Proof.
  unfold conn_step. intros E Hpc. run_in E; try (by apply wrote_nothing).
  match goal with Hw : write_message ?m = Ok ?b |- _ => exists [m]; simpl; unfold frame_of; rewrite Hw end.
  rewrite !app_nil_r. split; [by f_equal|]. split; [done|]. repeat constructor.
  match goal with Hw : write_message ?m = Ok ?b |- _ => by rewrite Hw end.
Qed.

Lemma conn_step_ended sd ev c : cn_pc c = PeerEnded -> conn_step sd ev c = None.
Proof. intros Hpc. unfold conn_step. by rewrite Hpc. Qed.

Lemma send_wrote msg c : cn_pc c <> PeerEnded -> wrote [msg] c (send msg c).
Proof.
  intros Hpc. unfold send. rewrite decide_False by done. exists []. simpl. by rewrite !app_nil_r.
Qed.

(** An ended thread stays ended. *)
Lemma net_run_ended evs w w' i c :
  net_run evs w = Some w' -> nw_conns w !! i = Some c -> cn_pc c = PeerEnded ->
  nw_conns w' !! i = Some c.
Proof.
  revert w. induction evs as [|ev evs IH]; intros w; simpl; [by intros [= <-]|].
  destruct (net_step ev w) as [w1|] eqn:E; [|done]. intros Hr Hc Hpc. apply (IH w1 Hr); [|done].
  destruct (net_step_conn _ _ _ _ _ E Hc) as (c1 & Hc1 & Hev). rewrite Hc1. f_equal.
  destruct ev; try done.
  - case_decide; [|done]. destruct Hev as [msgs Hs]. by rewrite conn_step_ended in Hs.
  - rewrite Hev. unfold send. destruct (registered w i); [|done]. by rewrite decide_True.
Qed.

Lemma net_run_wrote evs w w' id i c c' :
  net_run evs w = Some w' -> nw_peers w !! id = Some i -> nw_peers w' !! id = Some i ->
  nw_conns w !! i = Some c -> nw_conns w' !! i = Some c' -> cn_pc c' <> PeerEnded ->
  wrote (broadcasts evs) c c'.
Proof.
  revert w c. induction evs as [|ev evs IH]; intros w c; simpl.
  { intros [= <-] _ _ Hc Hc' _. simplify_eq. by apply wrote_nothing. }
  destruct (net_step ev w) as [w1|] eqn:E; [|done]. intros Hr Hp Hp' Hc Hc' Hpc.
  destruct (net_step_conn _ _ _ _ _ E Hc) as (c1 & Hc1 & Hev).
  assert (nw_peers w1 !! id = Some i) as Hp1.
  { destruct (decide (nw_peers w1 !! id = Some i)) as [|Hn]; [done|].
    by apply (net_run_unregistered _ _ _ _ _ Hr) in Hn; [|by eapply lookup_lt_Some]. }
  assert (cn_pc c1 <> PeerEnded) as Hpc1.
  { intros Hend. pose proof (net_run_ended _ _ _ _ _ Hr Hc1 Hend). simplify_eq. }
  pose proof (IH w1 c1 Hr Hp1 Hp' Hc1 Hc' Hpc) as Hw.
  destruct ev; simpl in *; subst; try exact Hw.
  - case_decide; [|by subst]. destruct Hev as [msgs Hs].
    apply (wrote_trans [] _ c c1); [|done]. by eapply conn_step_wrote.
  - rewrite (registered_lookup _ _ _ Hp) in *. apply (wrote_trans [_] _ c (send msg c)); [|done].
    apply send_wrote. intros Hend. apply Hpc1. unfold send. by rewrite decide_True.
Qed.

(** A message the receiving side accepts. *)
Definition fits (m : Message) : Prop :=
  Z.of_nat (length (frame_of m)) <= max_message_len + 4.

Lemma frames_framed ms :
  Forall (fun m => is_ok (write_message m) = true) ms -> Forall fits ms ->
  Forall2 framed ms (map frame_of ms).
Proof.
  induction 1 as [|m ms Hm _ IH]; simpl; [constructor|]. intros [Hf Hfit]%Forall_cons.
  constructor; [|by apply IH]. split; [|exact Hf]. unfold frame_of. by destruct (write_message m).
Qed.

(** C15: reliable ordered broadcast: as long as a peer stays registered under
    one connection whose thread runs, the messages the node broadcasts since
    the handshake split into those written and those still queued, in the order
    of the broadcasts, whatever the other threads do in between; and from the
    written bytes, however the stream splits them into reads, the peer's
    receive loop obtains exactly the written messages. *)
Theorem broadcast_reaches_peer evs w w' id i stream c' :
  net_run evs w = Some w' -> nw_peers w !! id = Some i -> nw_peers w' !! id = Some i ->
  nw_conns w !! i = Some (spawn_peer id stream) -> nw_conns w' !! i = Some c' ->
  cn_pc c' <> PeerEnded -> Forall fits (broadcasts evs) ->
  exists done, broadcasts evs = done ++ cn_queue c' /\
    forall reads, reads <> [] -> Forall open_read reads ->
      concat (map read_bytes reads) = cn_out c' ->
      receive reads Peer_new = Some (mkPeer [] done true).
Proof.
  intros Hr Hp Hp' Hc Hc' Hpc Hfit.
  destruct (net_run_wrote _ _ _ _ _ _ _ Hr Hp Hp' Hc Hc' Hpc) as (done & E & Ho & Hok). simpl in E, Ho.
  exists done. split; [done|]. intros reads Hne Hop Hb. rewrite Ho in Hb.
  apply (receive_framed reads [] [] done (map frame_of done)); [done|done| |done].
  rewrite E in Hfit. apply Forall_app in Hfit as [Hfit _]. by apply frames_framed.
Qed.

(** ** Only authenticated peers *)

(** The peer has proved, on a stream of the configured kind, that it holds the
    key listed for [id]. *)
Definition stream_ok (w : Network) (stream : PeerStream) : Prop :=
  encrypted stream = bool_decide (is_Some (nw_tls w)).

Definition trusted (w : Network) (id : NodeId) (stream : PeerStream) : Prop :=
  stream_ok w stream /\ exists pubkey pk sig, nw_allowlist w !! id = Some pubkey /\
    public_key_from_bytes pubkey = Some pk /\ verify pk (hello_bytes id) sig = true.

Definition listener_ok (w : Network) (pc : ListenPc) : Prop :=
  match pc with
  | LHandshake stream => stream_ok w stream
  | LRegister stream peer => trusted w peer stream
  | _ => True
  end.

Definition dialer_ok (w : Network) (d : Dialer) : Prop :=
  match dl_pc d with
  | DHandshake stream => stream_ok w stream
  | DRegister stream peer => trusted w peer stream
  | _ => True
  end.

Record NetInv (w : Network) : Prop := {
  nv_conns : Forall (fun c => trusted w (cn_peer c) (cn_stream c)) (nw_conns w);
  nv_peers : forall id i, nw_peers w !! id = Some i ->
    exists c, nw_conns w !! i = Some c /\ cn_peer c = id;
  nv_listener : listener_ok w (nw_listener w);
  nv_dialers : Forall (dialer_ok w) (nw_dialers w);
}.

(** The two handshakes end with a trusted peer. *)
Lemma handshakes_trusted w s peer stream :
  stream_ok w stream ->
  snd (handshake_accept s (nw_allowlist w) (nw_keypair w)) = Some peer \/
  snd (handshake_connect s (nw_allowlist w) (nw_keypair w)) = Some peer ->
  trusted w peer stream.
Proof.
  intros Hs Hh. split; [done|].
  destruct (handshake_authentic s
    (if decide (snd (handshake_accept s (nw_allowlist w) (nw_keypair w)) = Some peer)
     then fst (handshake_accept s (nw_allowlist w) (nw_keypair w))
     else fst (handshake_connect s (nw_allowlist w) (nw_keypair w)))
    (nw_allowlist w) (nw_keypair w) peer) as (pubkey & signature & pk & sig & _ & ? & ? & _ & ?);
    [|by exists pubkey, pk, sig].
  case_decide as Hd.
  - left. destruct (handshake_accept _ _ _). simpl in *. by subst.
  - right. destruct Hh as [|Hh]; [done|]. destruct (handshake_connect _ _ _). simpl in *. by subst.
Qed.

Lemma conn_step_identity sd ev c c' msgs :
  conn_step sd ev c = Some (c', msgs) -> cn_peer c' = cn_peer c /\ cn_stream c' = cn_stream c.
Proof. unfold conn_step. intros E. by run_in E. Qed.

(** The invariant reads the connections only through their identity. *)
Lemma NetInv_conns w cs :
  Forall2 (fun c c' => cn_peer c' = cn_peer c /\ cn_stream c' = cn_stream c) (nw_conns w) cs ->
  NetInv w -> NetInv (set_conns cs w).
Proof.
  intros Hf [I1 I2 I3 I4]. split; [| |done|done]; simpl.
  - change (Forall (fun c => trusted w (cn_peer c) (cn_stream c)) cs). apply Forall_lookup.
    intros i c' Hc'. destruct (Forall2_lookup_r _ _ _ _ _ Hf Hc') as (c & Hc & Ep & Es).
    rewrite Ep, Es. by eapply Forall_lookup in I1.
  - intros id i Hi. destruct (I2 id i Hi) as (c & Hc & <-).
    destruct (Forall2_lookup_l _ _ _ _ _ Hf Hc) as (c' & Hc' & Ep & _). by exists c'.
Qed.

Lemma NetInv_register w peer stream : trusted w peer stream -> NetInv w -> NetInv (register peer stream w).
Proof.
  intros Ht [I1 I2 I3 I4]. split; [| |done|done]; simpl.
  - apply Forall_app. split; [exact I1|]. constructor; [exact Ht|constructor].
  - intros id i [[<- <-]|[_ Hi]]%lookup_insert_Some.
    + exists (spawn_peer peer stream). split; [|done]. by rewrite lookup_app_r, Nat.sub_diag.
    + destruct (I2 id i Hi) as (c & Hc & Ec). exists c. split; [|done]. by apply lookup_app_l_Some.
Qed.

Lemma NetInv_listener w pc : listener_ok w pc -> NetInv w -> NetInv (set_listener pc w).
Proof. intros Hpc [I1 I2 I3 I4]. by split. Qed.

Lemma NetInv_dialer w i addr pc :
  dialer_ok w (mkDialer addr pc) -> NetInv w ->
  NetInv (set_dialers (<[i := mkDialer addr pc]> (nw_dialers w)) w).
Proof. intros Hd [I1 I2 I3 I4]. split; try done. by apply Forall_insert. Qed.

Lemma listen_step_inv ev w w' : NetInv w -> listen_step ev w = Some w' -> NetInv w'.
Proof.
  intros Hinv E. pose proof (nv_listener _ Hinv) as Hl. unfold listen_step in E.
  destruct (nw_listener w) as [| | |stream|stream peer|], ev; try done.
  - injection E as <-. apply NetInv_listener; [by destruct ok|done].
  - injection E as <-. apply NetInv_listener; [by destruct (nw_shutdown w)|done].
  - destruct r; try (injection E as <-; by apply NetInv_listener).
    destruct (make_server_stream (nw_tls w)) as [stream|] eqn:Es; injection E as <-;
      apply NetInv_listener; try done. by apply server_stream_encrypted in Es.
  - destruct (snd _) as [peer|] eqn:Eh; injection E as <-; apply NetInv_listener; try done.
    by eapply handshakes_trusted; [|left].
  - injection E as <-. apply NetInv_listener; [done|]. by apply NetInv_register.
Qed.

Lemma dial_step_inv ev w d pc reg :
  dialer_ok w d -> dial_step ev w d = Some (pc, reg) ->
  dialer_ok w (mkDialer (dl_addr d) pc) /\
  match reg with Some (peer, stream) => trusted w peer stream | None => True end.
Proof.
  intros Hd E. unfold dialer_ok, dial_step in *. simpl.
  destruct (dl_pc d) as [| |stream|stream peer|], ev; try done.
  - injection E as <- <-. by destruct (nw_shutdown w).
  - destruct (make_client_stream _ _ _) as [stream|] eqn:Es; injection E as <- <-; [|done].
    by apply client_stream_encrypted in Es.
  - destruct (snd _) as [peer|] eqn:Eh; injection E as <- <-; [|done]. split; [|done].
    by eapply handshakes_trusted; [|right].
  - by injection E as <- <-.
Qed.

Lemma net_step_inv ev w w' : NetInv w -> net_step ev w = Some w' -> NetInv w'.
Proof.
  intros Hinv E. destruct ev as [ev|j ev|j ev|msg|]; simpl in E.
  - by eapply listen_step_inv.
  - destruct (nw_dialers w !! j) as [d|] eqn:Ed; [|done].
    destruct (dial_step ev w d) as [[pc reg]|] eqn:Es; [|done]. injection E as <-.
    apply dial_step_inv in Es as [Hd Hreg]; [|by apply (Forall_lookup_1 _ _ _ _ (nv_dialers _ Hinv) Ed)].
    pose proof (NetInv_dialer w j (dl_addr d) pc Hd Hinv) as Hinv'.
    destruct reg as [[peer stream]|]; [by apply NetInv_register|done].
  - destruct (nw_conns w !! j) as [c|] eqn:Ec; [|done].
    destruct (conn_step _ _ _) as [[c' msgs]|] eqn:Es; [|done]. injection E as <-.
    apply conn_step_identity in Es.
    assert (NetInv (set_conns (<[j := c']> (nw_conns w)) w)) as [? ? ? ?]; [|by split].
    apply NetInv_conns; [|done]. rewrite <- (list_insert_id _ _ _ Ec) at 1.
    by apply Forall2_insert; [apply Forall_Forall2_diag, Forall_forall|].
  - injection E as <-. apply NetInv_conns; [|done]. apply Forall2_lookup. intros i.
    rewrite list_lookup_imap. destruct (nw_conns w !! i) as [c|]; simpl; constructor.
    unfold send. destruct (registered w i); [|done]. by case_decide.
  - injection E as <-. destruct Hinv as [I1 I2 I3 I4]. by split.
Qed.

Lemma net_run_inv evs w w' : NetInv w -> net_run evs w = Some w' -> NetInv w'.
Proof.
  revert w. induction evs as [|ev evs IH]; intros w Hinv; simpl; [by intros [= <-]|].
  destruct (net_step ev w) as [w1|] eqn:E; [|done]. apply IH. by eapply net_step_inv.
Qed.

(** The configuration of a network never changes. *)
Lemma net_run_config evs w w' :
  net_run evs w = Some w' -> nw_allowlist w' = nw_allowlist w /\ nw_tls w' = nw_tls w.
Proof.
  revert w. induction evs as [|ev evs IH]; intros w; simpl; [by intros [= <-]|].
  destruct (net_step ev w) as [w1|] eqn:E; [|done]. intros [-> ->]%IH.
  destruct ev; simpl in E; [unfold listen_step in E|..]; run_in E; simplify_eq/=; by repeat split_match.
Qed.

Lemma allowlist_of_lookup validators id pubkey :
  allowlist_of validators !! id = Some pubkey ->
  exists v, v ∈ validators /\ vi_node_id v = id /\ vi_pubkey v = pubkey.
Proof.
  unfold allowlist_of. induction validators as [|v vs IH] using rev_ind; simpl; [done|].
  rewrite foldl_app. simpl. intros [[<- <-]|[_ (v' & ? & ? & ?)%IH]]%lookup_insert_Some.
  - exists v. set_solver.
  - exists v'. set_solver.
Qed.

(** The network of a node of these validators: the invariant holds, the
    allowlist is that of the validators, and TLS is configured exactly with a TLS
    identity. *)
Definition serves (validators : list ValidatorInfo) (identity : option TlsIdentity) (w : Network) : Prop :=
  NetInv w /\ nw_allowlist w = allowlist_of validators /\
  bool_decide (is_Some (nw_tls w)) = bool_decide (is_Some identity).

Lemma Network_start_serves validators keypair identity w :
  Network_start validators keypair identity = Ok w -> serves validators identity (connect_peers validators w).
Proof.
  unfold Network_start. intros (tls & Et & [= <-])%result_bind_ok. split; [|split; [done|]].
  - split; simpl; [constructor|intros ? ?; by rewrite lookup_empty|done|].
    by apply Forall_map, Forall_forall.
  - simpl. apply bool_decide_ext. destruct identity as [identity|]; [|by injection Et as <-].
    apply result_bind_ok in Et as (cfg & _ & [= <-]). by split; eexists.
Qed.

Lemma net_run_serves validators identity evs w w' :
  serves validators identity w -> net_run evs w = Some w' -> serves validators identity w'.
Proof.
  intros (Hinv & Ea & Et) Hr. destruct (net_run_config _ _ _ Hr) as [Ea' Et'].
  split; [by eapply net_run_inv|]. by rewrite Ea', Et'.
Qed.

Lemma serves_peer validators identity w id i :
  serves validators identity w -> nw_peers w !! id = Some i ->
  exists c v pk sig, nw_conns w !! i = Some c /\ cn_peer c = id /\
    encrypted (cn_stream c) = bool_decide (is_Some identity) /\
    v ∈ validators /\ vi_node_id v = id /\
    public_key_from_bytes (vi_pubkey v) = Some pk /\ verify pk (hello_bytes id) sig = true.
Proof.
  intros (Hinv & Ea & Et) Hp. destruct (nv_peers _ Hinv id i Hp) as (c & Hc & <-).
  destruct (Forall_lookup_1 _ _ _ _ (nv_conns _ Hinv) Hc) as (Hs & pubkey & pk & sig & Hal & Hpk & Hv).
  rewrite Ea in Hal. apply allowlist_of_lookup in Hal as (v & Hin & Eid & <-).
  exists c, v, pk, sig. split_and!; try done. by rewrite Hs.
Qed.


(** ** Shutting down *)

(** The steps each thread can still take once the flag is set. *)
Definition listener_load (pc : ListenPc) : nat :=
  match pc with
  | LBind => 2
  | LCheck => 1
  | LAccept => 5
  | LHandshake _ => 4
  | LRegister _ _ => 3
  | LEnded => 0
  end.

Definition dialer_load (d : Dialer) : nat :=
  match dl_pc d with
  | DCheck => 1
  | DConnect => 4
  | DHandshake _ => 3
  | DRegister _ _ => 2
  | DEnded => 0
  end.

Definition conn_load (c : Conn) : nat :=
  match cn_pc c with
  | AtCheck => 1
  | AtDrain => 3 + length (cn_queue c)
  | AtRead => 2
  | PeerEnded => 0
  end.

Definition load (w : Network) : nat :=
  listener_load (nw_listener w) + sum_list_with dialer_load (nw_dialers w)
  + sum_list_with conn_load (nw_conns w).

Definition thread_event (ev : NetEvent) : Prop :=
  match ev with EvBroadcast _ | EvShutdown => False | _ => True end.

Definition all_ended (w : Network) : Prop :=
  nw_listener w = LEnded /\ Forall (fun d => dl_pc d = DEnded) (nw_dialers w) /\
  Forall (fun c => cn_pc c = PeerEnded) (nw_conns w).

Lemma conn_step_load ev c c' msgs :
  conn_step true ev c = Some (c', msgs) -> (conn_load c' < conn_load c)%nat.
Proof.
  unfold conn_step, conn_load. intros E.
  destruct (cn_pc c), ev; run_in E; simplify_eq/=; repeat case_match; simpl; done || lia.
Qed.

Lemma net_step_load ev w w' :
  net_step ev w = Some w' -> nw_shutdown w = true -> thread_event ev ->
  nw_shutdown w' = true /\ (load w' < load w)%nat.
Proof.
  intros E Hs Ht. unfold load. destruct ev as [ev|j ev|j ev|msg|]; try done; simpl in E.
  - unfold listen_step in E. rewrite Hs in E.
    destruct (nw_listener w), ev; run_in E; simplify_eq/=; split; try done;
      repeat case_match; rewrite ?sum_list_with_app; simpl; lia.
  - destruct (nw_dialers w !! j) as [d|] eqn:Ed; [|done].
    destruct (dial_step ev w d) as [[pc reg]|] eqn:Es; [|done]. injection E as <-.
    pose proof (sum_list_insert dialer_load _ _ _ (mkDialer (dl_addr d) pc) Ed) as Hsum.
    assert (dialer_load (mkDialer (dl_addr d) pc) + (if reg then 1 else 0) < dialer_load d)%nat as Hd.
    { unfold dial_step in Es. rewrite Hs in Es. unfold dialer_load. simpl.
      destruct (dl_pc d), ev; run_in Es; simplify_eq/=; lia. }
    destruct reg as [[peer stream]|]; simpl; (split; [done|]); rewrite ?sum_list_with_app;
      simpl in *; lia.
  - destruct (nw_conns w !! j) as [c|] eqn:Ec; [|done]. rewrite Hs in E.
    destruct (conn_step _ _ _) as [[c' msgs]|] eqn:Es; [|done]. injection E as <-.
    apply conn_step_load in Es. pose proof (sum_list_insert conn_load _ _ _ c' Ec). simpl. split; [done|lia].
Qed.

Lemma net_run_load evs w w' :
  net_run evs w = Some w' -> nw_shutdown w = true -> Forall thread_event evs ->
  (length evs + load w' <= load w)%nat.
Proof.
  revert w. induction evs as [|ev evs IH]; intros w; simpl; [intros [= <-]; lia|].
  destruct (net_step ev w) as [w1|] eqn:E; [|done]. intros Hr Hs [Ht Hf]%Forall_cons.
  destruct (net_step_load _ _ _ E Hs Ht) as [Hs1 Hl]. specialize (IH w1 Hr Hs1 Hf). lia.
Qed.

(** A step that does not wait for a remote: everything but the connecting, the
    handshakes and the writes, which block until the other side answers or
    fails.  Accepting does not block, and a read times out. *)
Definition own_event (ev : NetEvent) : Prop :=
  match ev with
  | EvListener (LeHandshake _) | EvDialer _ (DeConnect _) | EvDialer _ (DeHandshake _)
  | EvPeer _ (PeWrite _) | EvBroadcast _ | EvShutdown => False
  | _ => True
  end.

(** The threads that have ended or wait for a remote. *)
Definition listener_idle (pc : ListenPc) : Prop :=
  match pc with LEnded | LHandshake _ => True | _ => False end.

Definition dialer_idle (d : Dialer) : Prop :=
  match dl_pc d with DEnded | DConnect | DHandshake _ => True | _ => False end.

Definition conn_idle (c : Conn) : Prop :=
  match cn_pc c with PeerEnded => True | AtDrain => cn_queue c <> [] | _ => False end.

Definition all_idle (w : Network) : Prop :=
  listener_idle (nw_listener w) /\ Forall dialer_idle (nw_dialers w) /\ Forall conn_idle (nw_conns w).

Lemma Forall_or_exists {A} (P Q : A -> Prop) (l : list A) :
  (forall x, P x \/ Q x) -> Forall P l \/ exists j x, l !! j = Some x /\ Q x.
Proof.
  intros Hpq. induction l as [|x l IH]; [by left|].
  destruct (Hpq x) as [Hp|Hq]; [|right; by exists 0%nat, x].
  destruct IH as [IH|(j & y & Hj & Hy)]; [left; by constructor|right; by exists (S j), y].
Qed.

(** A thread that has not ended has a next step, one of its own unless it
    waits for a remote. *)
Lemma listen_step_progress w :
  (nw_listener w = LEnded \/ exists ev, is_Some (listen_step ev w)) /\
  (listener_idle (nw_listener w) \/ exists ev, own_event (EvListener ev) /\ is_Some (listen_step ev w)).
Proof.
  unfold listen_step. destruct (nw_listener w) as [| | |stream|stream peer|].
  - split; right; exists (LeBind true); by try eexists.
  - split; right; exists LeCheck; by try eexists.
  - split; right; exists (LeAccept WouldBlock); by try eexists.
  - split; [right|by left]. exists (LeHandshake (mkSocket [] true [])). destruct (snd _); by eexists.
  - split; right; exists LeRegister; by try eexists.
  - split; by left.
Qed.

Lemma dial_step_progress w j d :
  (dl_pc d = DEnded \/ exists ev, is_Some (dial_step ev w d)) /\
  (dialer_idle d \/ exists ev, own_event (EvDialer j ev) /\ is_Some (dial_step ev w d)).
Proof.
  unfold dial_step, dialer_idle. destruct (dl_pc d) as [| |stream|stream peer|].
  - split; right; exists DeCheck; by try eexists.
  - split; [right|by left]. exists (DeConnect true). destruct (make_client_stream _ _ _); by eexists.
  - split; [right|by left]. exists (DeHandshake (mkSocket [] true [])). destruct (snd _); by eexists.
  - split; right; exists DeRegister; by try eexists.
  - split; by left.
Qed.

Lemma conn_step_progress sd j c :
  (cn_pc c = PeerEnded \/ exists ev, is_Some (conn_step sd ev c)) /\
  (conn_idle c \/ exists ev, own_event (EvPeer j ev) /\ is_Some (conn_step sd ev c)).
Proof.
  unfold conn_step, conn_idle. destruct (cn_pc c).
  - split; right; exists PeCheck; by try eexists.
  - destruct (cn_queue c) as [|m q]; [split; right; exists PeDrained; by try eexists|].
    split; [right|by left]. exists (PeWrite Written). destruct (write_message m); by eexists.
  - destruct (decode_loop_total (S (length (cn_buf c))) (mkPeer (cn_buf c) [] true)) as [p Hp]; [simpl; lia|].
    split; right; exists (PeRead NoData); cbn [read_into_buffer]; rewrite Hp; by try eexists.
  - split; by left.
Qed.

(** From the threads to the network: either every thread satisfies its
    predicate or one of them has an allowed step. *)
Lemma net_step_progress (allowed : NetEvent -> Prop) PL PD PC w :
  (PL (nw_listener w) \/ exists ev, allowed (EvListener ev) /\ is_Some (listen_step ev w)) ->
  (forall d, PD d \/ exists ev, (forall j, allowed (EvDialer j ev)) /\ is_Some (dial_step ev w d)) ->
  (forall c, PC c \/ exists ev, (forall j, allowed (EvPeer j ev)) /\ is_Some (conn_step (nw_shutdown w) ev c)) ->
  (PL (nw_listener w) /\ Forall PD (nw_dialers w) /\ Forall PC (nw_conns w)) \/
  exists ev, allowed ev /\ is_Some (net_step ev w).
Proof.
  intros Hl Hd Hc. destruct Hl as [Hl|(ev & Ha & Hev)]; [|right; by exists (EvListener ev)].
  destruct (Forall_or_exists _ _ (nw_dialers w) Hd) as [Hd'|(j & d & Hj & ev & Ha & [[pc reg] Es])].
  2: { right. exists (EvDialer j ev). split; [done|]. simpl. rewrite Hj, Es. by eexists. }
  destruct (Forall_or_exists _ _ (nw_conns w) Hc) as [Hc'|(j & c & Hj & ev & Ha & [[c' msgs] Es])].
  2: { right. exists (EvPeer j ev). split; [done|]. simpl. rewrite Hj, Es. by eexists. }
  by left.
Qed.

Lemma net_thread_progress w : all_ended w \/ exists ev, thread_event ev /\ is_Some (net_step ev w).
Proof.
  apply (net_step_progress thread_event (fun pc => pc = LEnded)).
  - destruct (listen_step_progress w) as [[|[ev ?]] _]; [by left|right; by exists ev].
  - intros d. destruct (dial_step_progress w 0 d) as [[|[ev ?]] _]; [by left|right; by exists ev].
  - intros c. destruct (conn_step_progress (nw_shutdown w) 0 c) as [[|[ev ?]] _]; [by left|right; by exists ev].
Qed.

Lemma net_own_progress w : all_idle w \/ exists ev, own_event ev /\ is_Some (net_step ev w).
Proof.
  apply (net_step_progress own_event); [apply listen_step_progress| |].
  - intros d. destruct (dial_step_progress w 0 d) as [_ [|(ev & Ho & Hs)]]; [by left|].
    right. exists ev. split; [intros j; by destruct ev|done].
  - intros c. destruct (conn_step_progress (nw_shutdown w) 0 c) as [_ [|(ev & Ho & Hs)]]; [by left|].
    right. exists ev. split; [intros j; by destruct ev|done].
Qed.

(** Ended threads take no step, waiting ones none of their own. *)
Lemma ended_stuck w ev : all_ended w -> thread_event ev -> net_step ev w = None.
Proof.
  intros (Hl & Hd & Hc) Ht. destruct ev as [ev|j ev|j ev|msg|]; try done; simpl.
  - unfold listen_step. rewrite Hl. by destruct ev.
  - destruct (nw_dialers w !! j) as [d|] eqn:Ed; [|done]. unfold dial_step.
    by rewrite (Forall_lookup_1 _ _ _ _ Hd Ed).
  - destruct (nw_conns w !! j) as [c|] eqn:Ec; [|done]. unfold conn_step.
    by rewrite (Forall_lookup_1 _ _ _ _ Hc Ec).
Qed.

Lemma idle_stuck w ev : all_idle w -> own_event ev -> net_step ev w = None.
Proof.
  intros (Hl & Hd & Hc) Ht. destruct ev as [ev|j ev|j ev|msg|]; try done; simpl.
  - unfold listen_step, listener_idle in *. by destruct (nw_listener w), ev.
  - destruct (nw_dialers w !! j) as [d|] eqn:Ed; [|done]. apply (Forall_lookup_1 _ _ _ _ Hd) in Ed.
    unfold dial_step, dialer_idle in *. by destruct (dl_pc d), ev.
  - destruct (nw_conns w !! j) as [c|] eqn:Ec; [|done]. apply (Forall_lookup_1 _ _ _ _ Hc) in Ec.
    unfold conn_step, conn_idle in *. destruct (cn_pc c), ev; try done. by destruct (cn_queue c).
Qed.

(** C24: what a shutdown of the network achieves: after [Network::shutdown] the
    threads together take at most [load w] more steps, whatever the remotes do.
    No thread can take a step exactly when all of them have ended; and no
    thread can take a step without a remote exactly when each has ended, waits
    for an answer in connecting or in a handshake, or has a message to write.
    So the shutdown completes when the remotes answer or fail, and only then:
    nothing interrupts a handshake (see [silent_client_blocks_listener]). *)
Theorem shutdown_quiesces evs w w' :
  net_run evs (net_shutdown w) = Some w' -> Forall thread_event evs ->
  (length evs <= load w)%nat /\
  ((forall ev, thread_event ev -> net_step ev w' = None) <-> all_ended w') /\
  ((forall ev, own_event ev -> net_step ev w' = None) <-> all_idle w').
Proof.
  intros Hr Hf. split; [|split; split].
  - pose proof (net_run_load _ _ _ Hr eq_refl Hf). unfold load in *. simpl in *. lia.
  - intros Hn. destruct (net_thread_progress w') as [|(ev & Ht & [x Hx])]; [done|].
    by rewrite (Hn ev Ht) in Hx.
  - intros He ev. by apply ended_stuck.
  - intros Hn. destruct (net_own_progress w') as [|(ev & Ht & [x Hx])]; [done|].
    by rewrite (Hn ev Ht) in Hx.
  - intros He ev. by apply idle_stuck.
Qed.

(** ** Lost connections and silent clients *)

(** Registrations of the accept thread. *)
Definition registers (ev : NetEvent) : Prop := ev = EvListener LeRegister.

(** A lost connection is not dialled again: a connecting thread ends with its
    first success, so when the thread of a peer's connection has ended and no
    new connection of that peer is accepted, the peer stays registered under
    the dead connection and nothing broadcast is written to it. *)
Theorem lost_peer_not_redialed evs w w' id i c :
  net_run evs w = Some w' -> Forall (fun d => dl_pc d = DEnded) (nw_dialers w) ->
  Forall (fun ev => ~ registers ev) evs ->
  nw_peers w !! id = Some i -> nw_conns w !! i = Some c -> cn_pc c = PeerEnded ->
  (nw_peers w' !! id = Some i \/ nw_peers w' !! id = None) /\ nw_conns w' !! i = Some c.
Proof.
  intros Hr Hd Hf Hp Hc Hpc. split; [|by eapply net_run_ended].
  assert (nw_peers w !! id = Some i \/ nw_peers w !! id = None) as Hp0 by (by left).
  clear Hp Hc Hpc c. revert w Hr Hd Hp0. induction Hf as [|ev evs Hev Hf IH]; intros w; simpl.
  { by intros [= <-]. }
  destruct (net_step ev w) as [w1|] eqn:E; [|done]. intros Hr Hd Hp.
  apply (IH w1 Hr); destruct ev as [ev|j ev|j ev|msg|]; simpl in E.
  - unfold listen_step in E. by run_in E.
  - destruct (nw_dialers w !! j) as [d|] eqn:Ed; [|done]. unfold dial_step in E.
    by rewrite (Forall_lookup_1 _ _ _ _ Hd Ed) in E.
  - by run_in E.
  - by injection E as <-.
  - by injection E as <-.
  - unfold listen_step in E. by run_in E; [..|exfalso; apply Hev].
  - destruct (nw_dialers w !! j) as [d|] eqn:Ed; [|done]. unfold dial_step in E.
    by rewrite (Forall_lookup_1 _ _ _ _ Hd Ed) in E.
  - by run_in E.
  - by injection E as <-.
  - injection E as <-. right. simpl. apply lookup_empty.
Qed.

(** A client that connects and sends nothing blocks the accept thread: while
    the handshake has no result, no other client is served and the shutdown
    flag is not seen. *)
Theorem silent_client_blocks_listener evs w w' stream :
  net_run evs w = Some w' -> nw_listener w = LHandshake stream ->
  Forall (fun ev => forall s, ev <> EvListener (LeHandshake s)) evs ->
  nw_listener w' = LHandshake stream.
Proof.
  intros Hr Hl Hf. revert w Hr Hl. induction Hf as [|ev evs Hev Hf IH]; intros w; simpl.
  { by intros [= <-]. }
  destruct (net_step ev w) as [w1|] eqn:E; [|done]. intros Hr Hl. apply (IH w1 Hr).
  destruct ev as [ev|j ev|j ev|msg|]; simpl in E.
  - unfold listen_step in E. rewrite Hl in E. destruct ev; try done. by destruct (Hev s).
  - run_in E. by repeat split_match.
  - by run_in E.
  - by injection E as <-.
  - by injection E as <-.
Qed.

End network.

(** ** Witnesses *)

Section witnesses.
Import Toy.

(** TLS that accepts everything. *)
Definition toy_rustls : Rustls := {|
  RootCertStore := list (list byte);
  TlsClientConfig := unit;
  TlsServerConfig := unit;
  ServerName := Str;
  ServerConnection := unit;
  ClientConnection := Str;
  roots_empty := [];
  roots_add := fun cert roots => Some (cert :: roots);
  client_config := fun _ _ _ => Some tt;
  server_config := fun _ _ _ => Some tt;
  server_name := fun host => Some host;
  server_connection := fun _ => Some tt;
  client_connection := fun _ name => Some name;
|}.

#[local] Existing Instance toy_message_json.
#[local] Existing Instance toy_rustls.

Definition toy_info (b : byte) : ValidatorInfo :=
  mkValidatorInfo (toy_public (replicate 32 b)) (keypair_id (kp b)) (str "127.0.0.1:9001") 1 1000
    (Some []).

Definition toy_validators : list ValidatorInfo := [toy_info x01; toy_info x02].

Definition toy_identity : TlsIdentity := mkTlsIdentity [[]] [].

Definition blank_network : Network := mkNetwork ∅ [] [] false LEnded [] ∅ [] (kp x01) None.

Definition net0 : Network :=
  match Network_start toy_validators (kp x01) (Some toy_identity) with
  | Ok w => w
  | Err _ => blank_network
  end.

Definition after (evs : list NetEvent) (w : Network) : Network := default blank_network (net_run evs w).

Definition runs (evs : list NetEvent) (w : Network) : bool :=
  match net_run evs w with Some _ => true | None => false end.

Lemma runs_after evs w : runs evs w = true -> net_run evs w = Some (after evs w).
Proof. unfold runs, after. by destruct (net_run evs w). Qed.

Lemma net0_started :
  is_ok (Network_start toy_validators (kp x01) (Some toy_identity)) = true ->
  Network_start toy_validators (kp x01) (Some toy_identity) = Ok net0.
Proof. unfold net0. by destruct (Network_start _ _ _). Qed.

(** The second validator connects. *)
Definition accept_events : list NetEvent :=
  map EvListener [LeBind true; LeCheck; LeAccept Incoming;
    LeHandshake (mkSocket (hello_frame x02) true []); LeRegister].

Definition net1 : Network := after accept_events (connect_peers toy_validators net0).


(** Two broadcasts, one of them written. *)
Definition send_events : list NetEvent :=
  [EvBroadcast (MsgTx [x05]); EvPeer 0 PeCheck; EvPeer 0 (PeWrite Written); EvBroadcast (MsgTx [x06; x07])].

Definition conn2 : Conn :=
  mkConn (keypair_id (kp x02)) (TlsServer tt) AtDrain [MsgTx [x06; x07]] [] frame1.

Lemma broadcast_reaches_peer_witness :
  exists done, [MsgTx [x05]; MsgTx [x06; x07]] = done ++ cn_queue conn2 /\
    forall reads, reads <> [] -> Forall open_read reads ->
      concat (map read_bytes reads) = cn_out conn2 ->
      receive reads Peer_new = Some (mkPeer [] done true).
Proof.
  refine (broadcast_reaches_peer send_events net1 (after send_events net1) (keypair_id (kp x02)) 0
    (TlsServer tt) conn2 _ _ _ _ _ _ _).
  - apply runs_after. vm_compute. reflexivity.
  - vm_compute. reflexivity.
  - vm_compute. reflexivity.
  - reflexivity.
  - reflexivity.
  - discriminate.
  - repeat constructor; vm_compute; discriminate.
Defined.

Definition stopped : Network := after [EvPeer 0 PeCheck; EvListener LeCheck] (net_shutdown net1).

Lemma shutdown_quiesces_witness :
  (2 <= load net1)%nat /\
  ((forall ev, own_event ev -> net_step ev stopped = None) <-> all_idle stopped).
Proof.
  destruct (shutdown_quiesces [EvPeer 0 PeCheck; EvListener LeCheck] net1 stopped)
    as (Hl & _ & Hi);
    [apply runs_after; vm_compute; reflexivity|repeat constructor|].
  exact (conj Hl Hi).
Defined.

End witnesses.
