(* ===== verification/NodeMain.v ===== *)
(** * The validator program (src/rust-core/src/bin/dvel-bft-node.rs)

    [main] up to the call of [Node::run]: the command line, the genesis file,
    the secret key, the addresses, the TLS identity, the peer network and the
    node.  A failed [expect] and an explicit [panic] are [Crashed] with their
    reason; an unknown argument ends the program without starting anything.
    Files, the data directory and the clock are arguments; PEM parsing (package
    [rustls_pemfile]) is an interface. *)

From Stdlib Require Import ZArith Lia Strings.Byte.
From stdpp Require Import base gmap list strings.
From S2P Require Import Prelude Crypto Text Event Ledger Merkle Validation BftTypes BftConfig Slashing.
From S2P Require Import ValidatorSet ApplyBlock Snapshot Node NodeFacts NodeSafety NodeExamples Wire Network.

Class Pem := {
  pem_certs : list byte -> option (list (list byte));
  pem_pkcs8_keys : list byte -> option (list (list byte));
}.

(** The command-line options. *)
Record Args := mkArgs {
  a_genesis_path : option Str;
  a_key_hex : option Str;
  a_key_file : option Str;
  a_listen_override : option Str;
  a_client_override : option Str;
  a_data_dir_override : option Str;
  a_tls_cert_path : option Str;
  a_tls_key_path : option Str;
}.

Definition Args_none : Args := mkArgs None None None None None None None None.

(** What the program reads: files as text and as bytes, whether the data
    directory can be created and the snapshot file in it, and the clock. *)
Record World := mkWorld {
  wd_text : Str -> option Str;
  wd_bytes : Str -> option (list byte);
  wd_dir : Str -> bool;
  wd_snapshot : Str -> option (list byte);
  wd_env : Env;
}.

Inductive TlsLoadError := CannotOpen | BadPem | NoCerts | NoKey.

Inductive StartupError :=
| MissingGenesis
| CannotReadGenesis
| BadGenesisJson
| CannotReadKeyFile
| MissingKey
| BadSecretHex
| BadSecretLength
| BadValidators (e : ConfigError)
| NoListenAddress
| MissingTlsCertPath
| MissingTlsKeyPath
| BadTlsIdentity (e : TlsLoadError)
| NetworkFailed (e : TlsError)
| NodeInitFailed.

(** ** The command line *)

(** The assignment a flag makes; a flag at the end assigns [None]. *)
Definition set_flag (flag : Str) (value : option Str) (a : Args) : option Args :=
  let '(mkArgs g kh kf l c d tc tk) := a in
  if decide (flag = str "--genesis") then Some (mkArgs value kh kf l c d tc tk)
  else if decide (flag = str "--key-hex") then Some (mkArgs g value kf l c d tc tk)
  else if decide (flag = str "--key-file") then Some (mkArgs g kh value l c d tc tk)
  else if decide (flag = str "--listen") then Some (mkArgs g kh kf value c d tc tk)
  else if decide (flag = str "--client") then Some (mkArgs g kh kf l value d tc tk)
  else if decide (flag = str "--data-dir") then Some (mkArgs g kh kf l c value tc tk)
  else if decide (flag = str "--tls-cert") then Some (mkArgs g kh kf l c d value tk)
  else if decide (flag = str "--tls-key") then Some (mkArgs g kh kf l c d tc value)
  else None.

(** The loop over the arguments; [Err] is the unknown one. *)
Fixpoint parse_args (args : list Str) (a : Args) : result Args Str :=
  match args with
  | [] => Ok a
  | flag :: rest =>
      match rest with
      | [] => ok_or (set_flag flag None a) flag
      | value :: rest' =>
          match set_flag flag (Some value) a with
          | None => Err flag
          | Some a => parse_args rest' a
          end
      end
  end.

Section main.
Context `{MessageJson} `{Sha256} `{Ed25519} `{Hex} `{Rustls} `{SnapshotJson} `{GenesisJson} `{Pem}.

Definition load_tls_identity (wd : World) (cert_path key_path : Str)
    : result TlsIdentity TlsLoadError :=
  let? cert_file := ok_or (wd_bytes wd cert_path) CannotOpen in
  let? certs := ok_or (pem_certs cert_file) BadPem in
  if decide (certs = []) then Err NoCerts
  else
    let? key_file := ok_or (wd_bytes wd key_path) CannotOpen in
    let? keys := ok_or (pem_pkcs8_keys key_file) BadPem in
    match keys with
    | [] => Err NoKey
    | key :: _ => Ok (mkTlsIdentity certs key)
    end.

(** The secret key as text: the option, or the trimmed key file. *)
Definition read_secret_hex (wd : World) (a : Args) : result Str StartupError :=
  match a_key_hex a with
  | Some h => Ok h
  | None =>
      match a_key_file a with
      | Some path => let? text := ok_or (wd_text wd path) CannotReadKeyFile in Ok (trim text)
      | None => Err MissingKey
      end
  end.

Definition read_keypair (wd : World) (a : Args) : result Keypair StartupError :=
  let? secret_hex := read_secret_hex wd a in
  let? secret_bytes := ok_or (hex_decode (trim secret_hex)) BadSecretHex in
  if decide (length secret_bytes <> 32%nat) then Err BadSecretLength
  else Ok (mkKeypair _ secret_bytes (public_of_secret secret_bytes)).

(** The address of the first validator with the node's identity. *)
Fixpoint own_address (node_id : NodeId) (validators : list ValidatorInfo) : option Str :=
  match validators with
  | [] => None
  | v :: rest => if decide (vi_node_id v = node_id) then Some (vi_address v) else own_address node_id rest
  end.

Definition read_tls (wd : World) (a : Args) (genesis : GenesisConfig)
    : result (option TlsIdentity) StartupError :=
  if tls_enabled (g_transport genesis) then
    let? cert_path := ok_or (a_tls_cert_path a) MissingTlsCertPath in
    let? key_path := ok_or (a_tls_key_path a) MissingTlsKeyPath in
    let? identity := map_err BadTlsIdentity (load_tls_identity wd cert_path key_path) in
    Ok (Some identity)
  else Ok None.

Definition read_genesis (wd : World) (a : Args) : result GenesisConfig StartupError :=
  let? path := ok_or (a_genesis_path a) MissingGenesis in
  let? text := ok_or (wd_text wd path) CannotReadGenesis in
  ok_or (parse_genesis text) BadGenesisJson.

(** The program as it enters [Node::run]. *)
Record Program := mkProgram {
  pr_listen_addr : Str;
  pr_client_addr : Str;
  pr_data_dir : Str;
  pr_net : Network;
  pr_node : Node;
}.

(** The body of [main] after the arguments. *)
Definition start_program (wd : World) (a : Args) : result Program StartupError :=
  let? genesis := read_genesis wd a in
  let? keypair := read_keypair wd a in
  let? validators := map_err BadValidators (validator_infos genesis) in
  let node_id := node_id_from_pubkey (public_key_to_bytes (kp_public keypair)) in
  let? listen :=
    ok_or (match a_listen_override a with
           | Some l => Some l
           | None => own_address node_id validators
           end) NoListenAddress in
  let client_addr := default (listen_addr (g_client genesis)) (a_client_override a) in
  let data_dir := default (str "data/" ++ hex_encode node_id) (a_data_dir_override a) in
  let? tls_identity := read_tls wd a genesis in
  let? net := map_err NetworkFailed (Network_start validators keypair tls_identity) in
  let net := connect_peers validators net in
  let? store := map_err (fun _ => NodeInitFailed)
                  (SnapshotStore_new (wd_dir wd data_dir) (wd_snapshot wd data_dir)) in
  let? node := map_err (fun _ => NodeInitFailed)
                 (Node_new (wd_env wd) genesis keypair (Some store) NodeSnapshot_new) in
  Ok (mkProgram listen client_addr data_dir net node).

Inductive MainResult :=
| UnknownArg (arg : Str)
| Crashed (e : StartupError)
| Running (p : Program).

Definition main (wd : World) (args : list Str) : MainResult :=
  match parse_args args Args_none with
  | Err arg => UnknownArg arg
  | Ok a =>
      match start_program wd a with
      | Err e => Crashed e
      | Ok p => Running p
      end
  end.

(** ** What a running program is *)

Lemma read_keypair_ok wd a kp : read_keypair wd a = Ok kp -> keypair_ok kp /\ length (kp_secret kp) = 32%nat.
Proof.
  unfold read_keypair. intros (h & _ & (b & _ & E)%result_bind_ok)%result_bind_ok.
  case_decide as Hd; [done|]. injection E as <-. split; [done|]. simpl. lia.
Qed.

Lemma read_tls_enabled wd a genesis identity :
  read_tls wd a genesis = Ok identity ->
  tls_enabled (g_transport genesis) = bool_decide (is_Some identity).
Proof.
  unfold read_tls. destruct (tls_enabled _); [|by intros [= <-]].
  intros (c & _ & (k & _ & (i & _ & [= <-])%result_bind_ok)%result_bind_ok)%result_bind_ok. done.
Qed.

Lemma own_address_some id vs addr :
  own_address id vs = Some addr -> exists v, v ∈ vs /\ vi_node_id v = id /\ vi_address v = addr.
Proof.
  induction vs as [|v vs IH]; simpl; [done|]. case_decide as Hd.
  - intros [= <-]. exists v. set_solver.
  - intros (v' & ? & ? & ?)%IH. exists v'. set_solver.
Qed.

Lemma map_err_ok {A E F} (f : E -> F) (m : result A E) a : map_err f m = Ok a <-> m = Ok a.
Proof. destruct m; simpl; split; congruence. Qed.

Lemma ok_or_ok {A E} (o : option A) (e : E) a : ok_or o e = Ok a <-> o = Some a.
Proof. destruct o; simpl; split; congruence. Qed.

(** Restoring a snapshot keeps the identity of the node. *)
Lemma replay_keypair bs prev h n snap n' snap' :
  replay_blocks bs prev h n snap = Ok (n', snap') -> n_keypair n' = n_keypair n.
Proof.
  revert prev h n snap. induction bs as [|b bs IH]; intros prev h n snap; simpl; [by intros [= <- _]|].
  destruct (negb _); [done|]. case_decide; [done|]. unfold node_apply_block.
  destruct (apply_block _ _ _) as [st [[]|]]; [|done]. by intros ->%IH.
Qed.

Lemma restore_keypair env n n' : restore_from_store env n = Ok n' -> n_keypair n' = n_keypair n.
Proof.
  unfold restore_from_store. destruct (n_store n) as [store|]; [|by intros [= <-]].
  intros (l & _ & E)%result_bind_ok. destruct l as [ps|]; [|by injection E as <-].
  destruct (_ && _); [done|]. apply result_bind_ok in E as ([n1 snap] & Er%replay_keypair & E).
  destruct (last _); injection E as <-; by destruct (ps_slashing_state ps).
Qed.

Lemma Node_new_key env genesis keypair store snap n :
  Node_new env genesis keypair store snap = Ok n ->
  n_keypair n = keypair /\ exists infos, validator_infos genesis = Ok infos /\
    has_validator (ValidatorSet_new infos)
      (node_id_from_pubkey (public_key_to_bytes (kp_public keypair))) = true.
Proof.
  unfold Node_new. intros (infos & Ei%map_err_ok & E)%result_bind_ok.
  destruct (has_validator _ _) eqn:Hv; [|done]. apply restore_keypair in E.
  split; [done|]. by exists infos.
Qed.

(** The steps of a successful start, in order. *)
Lemma start_program_ok wd a p :
  start_program wd a = Ok p ->
  exists genesis keypair validators identity net store,
    read_genesis wd a = Ok genesis /\ read_keypair wd a = Ok keypair /\
    validator_infos genesis = Ok validators /\ read_tls wd a genesis = Ok identity /\
    Network_start validators keypair identity = Ok net /\
    pr_net p = connect_peers validators net /\
    SnapshotStore_new (wd_dir wd (pr_data_dir p)) (wd_snapshot wd (pr_data_dir p)) = Ok store /\
    Node_new (wd_env wd) genesis keypair (Some store) NodeSnapshot_new = Ok (pr_node p) /\
    (a_listen_override a = Some (pr_listen_addr p) \/
     a_listen_override a = None /\ exists v, v ∈ validators /\
       vi_node_id v = node_id_from_pubkey (public_key_to_bytes (kp_public keypair)) /\
       vi_address v = pr_listen_addr p).
Proof.
  unfold start_program.
  intros (g & Eg & (kp & Ek & (vs & Ev%map_err_ok & (l & El%ok_or_ok & E)%result_bind_ok)%result_bind_ok)
    %result_bind_ok)%result_bind_ok.
  apply result_bind_ok in E as (ident & Et & (net & En%map_err_ok & E)%result_bind_ok).
  apply result_bind_ok in E as (store & Es%map_err_ok & (node & Enode%map_err_ok & [= <-])%result_bind_ok).
  exists g, kp, vs, ident, net, store. split_and!; try done. simpl.
  destruct (a_listen_override a) as [o|]; [left; congruence|right]. split; [done|].
  by apply own_address_some.
Qed.

(** On a data directory without a snapshot the program starts afresh. *)
Lemma start_program_started wd a p :
  start_program wd a = Ok p -> wd_snapshot wd (pr_data_dir p) = None ->
  exists genesis, read_genesis wd a = Ok genesis /\ started genesis (pr_node p).
Proof.
  intros (g & kp & vs & ident & net & store & Eg & _ & _ & _ & _ & _ & Es & En & _)%start_program_ok Hsnap.
  exists g. split; [done|]. exists (wd_env wd), kp, (Some store). split; [|done]. rewrite Hsnap in Es.
  intros s [= <-]. unfold SnapshotStore_new in Es. by destruct (wd_dir _ _); [injection Es as <-|].
Qed.

(** A program that starts runs the system the theorems are about: its node
    is a freshly started node of the genesis file if the data directory holds
    no snapshot; the node's key is the one on the command line and, unless two
    keys have the same hash, it is the key the genesis lists for the node; and
    whatever happens on the network, the peers of the program are validators of
    this genesis that proved their keys, on TLS streams exactly if the genesis
    enables TLS. *)
Theorem program_runs_its_genesis wd args p :
  main wd args = Running p ->
  exists a genesis validators, parse_args args Args_none = Ok a /\ read_genesis wd a = Ok genesis /\
    validator_infos genesis = Ok validators /\
    (wd_snapshot wd (pr_data_dir p) = None -> started genesis (pr_node p)) /\
    (exists v, v ∈ validators /\
      (vi_pubkey v = public_key_to_bytes (kp_public (n_keypair (pr_node p))) \/
       collision (vi_pubkey v) (public_key_to_bytes (kp_public (n_keypair (pr_node p)))))) /\
    forall evs w id i, net_run evs (pr_net p) = Some w -> nw_peers w !! id = Some i ->
      exists c v pk sig, nw_conns w !! i = Some c /\ cn_peer c = id /\
        encrypted (cn_stream c) = tls_enabled (g_transport genesis) /\
        v ∈ validators /\ vi_node_id v = id /\
        public_key_from_bytes (vi_pubkey v) = Some pk /\ verify pk (hello_bytes id) sig = true.
Proof.
  unfold main. destruct (parse_args args Args_none) as [a|] eqn:Ea; [|done].
  destruct (start_program wd a) as [p'|] eqn:E; [|done]. intros [= ->].
  pose proof (start_program_started _ _ _ E) as Hst.
  apply start_program_ok in E as (g & kp & vs & ident & net & store & Eg & Ek & Ev & Et & En & Ep & Es & Enode & _).
  exists a, g, vs. split_and!; try done.
  - intros (g' & Eg' & Hg)%Hst. assert (g' = g) as -> by congruence. done.
  - apply Node_new_key in Enode as (Ekp & infos & Ei & Hv).
    assert (infos = vs) as -> by congruence. rewrite Ekp.
    apply bool_decide_eq_true in Hv as [v [Hin Hid]%by_id_of_lookup]. exists v. split; [done|].
    apply sha256_inj_or. destruct (validator_infos_spec g vs Ei) as [Hall _].
    apply list_elem_of_lookup in Hin as [k Hk].
    destruct (Forall2_lookup_r _ _ _ _ _ Hall Hk) as (vc & _ & _ & _ & Hsha & _).
    rewrite <- Hsha, Hid. done.
  - intros evs w id i Hr Hp. rewrite (read_tls_enabled _ _ _ _ Et). rewrite Ep in Hr.
    by eapply serves_peer; [eapply net_run_serves; [eapply Network_start_serves|]|].
Qed.

(** C25: the program starts: with [--genesis] and [--key-hex] alone, a genesis
    file without TLS that lists the key, and a data directory that can be
    created and holds no snapshot, [main] reaches [Node::run]; it listens on an
    address listed for its key, serves clients on the address of the genesis,
    and keeps its data under [data/] and the identity of the node. *)
Theorem program_starts `{!Ed25519Laws} wd path text genesis validators sk v :
  wd_text wd path = Some text -> parse_genesis text = Some genesis ->
  validator_infos genesis = Ok validators -> tls_enabled (g_transport genesis) = false ->
  length sk = 32%nat -> v ∈ validators ->
  vi_pubkey v = public_key_to_bytes (public_of_secret sk) ->
  let dir := str "data/" ++ hex_encode (vi_node_id v) in
  wd_dir wd dir = true -> wd_snapshot wd dir = None ->
  exists p u, main wd [str "--genesis"; path; str "--key-hex"; hex_encode sk] = Running p /\
    u ∈ validators /\ vi_node_id u = vi_node_id v /\ pr_listen_addr p = vi_address u /\
    pr_client_addr p = listen_addr (g_client genesis) /\ pr_data_dir p = dir /\
    n_node_id (pr_node p) = vi_node_id v.
Proof.
  intros Ht Eg Ev Etls Hlen Hin Hpk dir Hdir Hsnap.
  assert (vi_node_id v = node_id_from_pubkey (public_key_to_bytes (public_of_secret sk))) as Hid.
  { destruct (validator_infos_spec genesis validators Ev) as [Hall _].
    apply list_elem_of_lookup in Hin as [k Hk].
    destruct (Forall2_lookup_r _ _ _ _ _ Hall Hk) as (vc & _ & _ & _ & Hsha & _). by rewrite Hsha, Hpk. }
  assert (parse_args [str "--genesis"; path; str "--key-hex"; hex_encode sk] Args_none
    = Ok (mkArgs (Some path) (Some (hex_encode sk)) None None None None None None)) as Ea by reflexivity.
  set (a := mkArgs _ _ _ _ _ _ _ _) in Ea. set (kp := mkKeypair _ sk (public_of_secret sk)).
  assert (read_genesis wd a = Ok genesis) as Erg
    by (unfold read_genesis; simpl; rewrite Ht; simpl; by rewrite Eg).
  assert (read_keypair wd a = Ok kp) as Erk.
  { unfold read_keypair. simpl.
    rewrite trim_graphic by (apply is_hex_digit_graphic, hex_encode_digits).
    rewrite hex_decode_encode. simpl. by rewrite decide_False by lia. }
  destruct (own_address (vi_node_id v) validators) as [addr|] eqn:Eo; [|exfalso].
  2:{ clear -Hin Eo. induction validators as [|u us IH]; [by apply elem_of_nil in Hin|]. simpl in Eo.
      case_decide as Hd; [done|]. apply elem_of_cons in Hin as [->|Hin]; auto. }
  destruct (own_address_some _ _ _ Eo) as (u & Hu & Eu & Eaddr).
  assert (has_validator (ValidatorSet_new validators) (vi_node_id v) = true) as Hv.
  { apply bool_decide_eq_true_2. simpl. apply elem_of_dom. rewrite by_id_of_dom.
    apply elem_of_list_to_set, list_elem_of_fmap. by exists v. }
  unfold main. rewrite Ea. unfold start_program. rewrite Erg. simpl. rewrite Erk. simpl.
  rewrite Ev. simpl.
  rewrite <- Hid, Eo. unfold read_tls. rewrite Etls. simpl.
  match goal with |- context [wd_dir wd ?d] => change d with dir end. rewrite Hdir, Hsnap. simpl.
  unfold Node_new. rewrite Ev. simpl. rewrite <- Hid, Hv. simpl. eexists _, u. by split_and!.
Qed.

End main.

(** ** Witnesses *)

Section witnesses.
Import Toy.

(** A genesis file with one validator. *)
Definition toy_doc : Doc.GenesisDoc :=
  Doc.mkGenesisDoc (Some (str "demo"))
    (Some [Doc.mkValidatorDoc (Some (hex_encode (toy_public (secret x01)))) (Some (str "127.0.0.1:9001"))
             None None None])
    None None None.

Definition toy_genesis_json : GenesisJson := {| genesis_document := fun _ => Some toy_doc |}.
Definition toy_pem : Pem := {| pem_certs := fun b => Some [b]; pem_pkcs8_keys := fun b => Some [b] |}.

#[local] Existing Instance toy_message_json.
#[local] Existing Instance toy_rustls.
#[local] Existing Instance toy_genesis_json.
#[local] Existing Instance toy_pem.
#[local] Instance no_json : SnapshotJson := fixed_json None.

Definition toy_world : World :=
  mkWorld (fun _ => Some []) (fun _ => None) (fun _ => true) (fun _ => None) env0.

Definition toy_line : list Str :=
  [str "--genesis"; str "genesis.json"; str "--key-hex"; hex_encode (secret x01)].

Definition toy_genesis : GenesisConfig :=
  default (genesis true []) (parse_genesis []).

Definition toy_infos : list ValidatorInfo :=
  match validator_infos toy_genesis with Ok infos => infos | Err _ => [] end.

Definition own_info : ValidatorInfo :=
  mkValidatorInfo (toy_public (secret x01)) (id_of x01) (str "127.0.0.1:9001") 1 1000000 None.

Lemma own_info_listed : own_info ∈ toy_infos.
Proof. assert (toy_infos = [own_info]) as -> by (vm_compute; reflexivity). set_solver. Qed.

Lemma program_starts_witness :
  exists p u, main toy_world toy_line = Running p /\
    u ∈ toy_infos /\ vi_node_id u = id_of x01 /\ pr_listen_addr p = vi_address u /\
    pr_client_addr p = listen_addr (g_client toy_genesis) /\
    pr_data_dir p = str "data/" ++ hex_encode (id_of x01) /\ n_node_id (pr_node p) = id_of x01.
Proof.
  refine (program_starts toy_world (str "genesis.json") [] toy_genesis toy_infos (secret x01) own_info
    _ _ _ _ _ _ _ _ _).
  - reflexivity.
  - reflexivity.
  - vm_compute. reflexivity.
  - reflexivity.
  - reflexivity.
  - exact own_info_listed.
  - reflexivity.
  - reflexivity.
  - reflexivity.
Defined.

Definition is_running (r : MainResult) : bool := match r with Running _ => true | _ => false end.

Lemma is_running_true r : is_running r = true -> exists p, r = Running p.
Proof. destruct r as [| |p]; [done..|]. by exists p. Qed.

Lemma program_runs_its_genesis_witness :
  exists p a genesis validators, parse_args toy_line Args_none = Ok a /\
    read_genesis toy_world a = Ok genesis /\ validator_infos genesis = Ok validators /\
    (wd_snapshot toy_world (pr_data_dir p) = None -> started genesis (pr_node p)).
Proof.
  destruct (is_running_true (main toy_world toy_line)) as [p Hp]; [vm_compute; reflexivity|].
  destruct (program_runs_its_genesis toy_world toy_line p Hp) as (a & g & vs & Ha & Hg & Hv & Hs & _).
  exists p, a, g, vs. exact (conj Ha (conj Hg (conj Hv Hs))).
Defined.

End witnesses.
