(* ===== verification/Http.v ===== *)
(** * The HTTP client interface (src/rust-core/src/bft/http.rs)

    Reading a request from a connection, the routes over the shared snapshot
    and the node's command queue, and the responses.  A connection is the bytes
    the client sends before it closes its side; how many of them one [read]
    returns, or that it fails, is the operating system's choice and an
    argument.  The JSON body of a submission is decoded by [serde_json], an
    interface. *)

From Stdlib Require Import ZArith Lia Strings.Byte.
From stdpp Require Import base gmap list sorting strings.
From S2P Require Import Prelude Crypto Text Event Merkle Ledger Validation BftTypes BftConfig Slashing ValidatorSet ApplyBlock Snapshot Node NodeFacts NodeSafety NodeHistory NodeExamples.

(** ** Requests *)

Record Request := mkRequest { rq_method : Str; rq_path : Str; rq_body : list byte }.

Inductive RequestError := ReadFailed | BadRequest | BadMethod | BadPath.

(** One [read] at [pos] into a buffer of [size] bytes: an error, or nothing at
    the end of the input, else at least one byte. *)
Definition stream_read (input : list byte) (choice : nat -> option nat) (pos size : nat)
    : result (list byte) RequestError :=
  match choice pos with
  | None => Err ReadFailed
  | Some wish => Ok (take (Nat.max 1 (Nat.min size wish)) (drop pos input))
  end.

Definition header_mark : list byte := crlf ++ crlf.

(** [windows(4).position(|w| w == b"\r\n\r\n")]. *)
Fixpoint find_mark (data : list byte) : option nat :=
  match data with
  | [] => None
  | _ :: rest => match strip_prefix header_mark data with Some _ => Some O | None => S <$> find_mark rest end
  end.

(** The first loop of [read_request]: the data read so far, and the position. *)
Fixpoint read_head (fuel : nat) (input : list byte) (choice : nat -> option nat) (pos : nat)
    (data : list byte) : option (result (list byte * nat) RequestError) :=
  match fuel with
  | O => None
  | S fuel' =>
      match stream_read input choice pos 4096 with
      | Err e => Some (Err e)
      | Ok [] => Some (Ok (data, pos))
      | Ok ((_ :: _) as chunk) =>
          let data := data ++ chunk in
          match find_mark data with
          | Some _ => Some (Ok (data, (pos + length chunk)%nat))
          | None => read_head fuel' input choice (pos + length chunk) data
          end
      end
  end.

(** The second loop: the rest of the announced body. *)
Fixpoint read_body (fuel : nat) (input : list byte) (choice : nat -> option nat) (pos : nat)
    (remaining : Z) (body : list byte) : option (result (list byte) RequestError) :=
  match fuel with
  | O => None
  | S fuel' =>
      if remaining <=? 0 then Some (Ok body)
      else
        match stream_read input choice pos (Z.to_nat (Z.min remaining 4096)) with
        | Err e => Some (Err e)
        | Ok [] => Some (Ok body)
        | Ok ((_ :: _) as chunk) =>
            read_body fuel' input choice (pos + length chunk)
              (saturating_sub remaining (Z.of_nat (length chunk))) (body ++ chunk)
        end
  end.

Fixpoint content_length (len : Z) (lines : list Str) : Z :=
  match lines with
  | [] => len
  | line :: rest =>
      if decide (line = []) then len
      else
        match strip_prefix (str "Content-Length:") line with
        | Some value => content_length (default 0 (parse_u64 (trim value))) rest
        | None => content_length len rest
        end
  end.

(** The request line and the headers. *)
Definition parse_head (header_bytes : list byte) : result (Str * Str * Z) RequestError :=
  match split_crlf [] (from_utf8_lossy header_bytes) with
  | [] => Err BadRequest
  | line :: lines =>
      match split_whitespace line with
      | [] => Err BadMethod
      | [_] => Err BadPath
      | method :: path :: _ => Ok (method, path, content_length 0 lines)
      end
  end.

(** [read_request]; the bytes of the connection bound both loops
    ([read_request_total]). *)
Definition read_request (input : list byte) (choice : nat -> option nat)
    : option (result Request RequestError) :=
  match read_head (S (length input)) input choice 0 [] with
  | None => None
  | Some (Err e) => Some (Err e)
  | Some (Ok (data, pos)) =>
      match find_mark data with
      | None => Some (Err BadRequest)
      | Some p =>
          let header_end := (p + 4)%nat in
          let body := drop header_end data in
          match parse_head (take header_end data) with
          | Err e => Some (Err e)
          | Ok (method, path, content_len) =>
              if Z.of_nat (length body) <? content_len then
                match read_body (S (length input)) input choice pos
                        (saturating_sub content_len (Z.of_nat (length body))) body with
                | None => None
                | Some (Err e) => Some (Err e)
                | Some (Ok body) => Some (Ok (mkRequest method path body))
                end
              else Some (Ok (mkRequest method path body))
          end
      end
  end.

(** ** Reading a request *)

Lemma stream_read_progress input choice pos size chunk :
  stream_read input choice pos size = Ok chunk ->
  (chunk = [] /\ (length input <= pos)%nat) \/
  (chunk <> [] /\ (pos + length chunk <= length input)%nat /\
   take (pos + length chunk) input = take pos input ++ chunk).
Proof.
  unfold stream_read. destruct (choice pos) as [wish|]; [|done]. intros [= <-].
  destruct (decide (length input <= pos)%nat) as [Hle|Hgt].
  - left. rewrite (drop_ge input pos) by done. by rewrite take_nil.
  - right. assert (pos < length input)%nat as Hlt by lia. split; [|split].
    + intros E%(f_equal length). rewrite length_take, length_drop in E. simpl in E. lia.
    + rewrite length_take, length_drop. lia.
    + rewrite <- take_take_drop. f_equal.
      by rewrite length_take, <- take_take, (firstn_all (drop pos input)).
Qed.

Lemma read_head_spec fuel input choice pos :
  (length input - pos < fuel)%nat -> (pos <= length input)%nat ->
  match read_head fuel input choice pos (take pos input) with
  | None => False
  | Some (Err e) => e = ReadFailed /\ exists q, choice q = None
  | Some (Ok (data, pos')) => (pos' <= length input)%nat /\ data = take pos' input /\
      (is_Some (find_mark data) \/ pos' = length input)
  end.
Proof.
  revert pos. induction fuel as [|fuel IH]; intros pos Hf Hp; [lia|]. cbn [read_head].
  destruct (stream_read input choice pos 4096) as [chunk|e] eqn:E.
  - apply stream_read_progress in E as [[-> Hge]|(Hne & Hle & Ht)].
    + split; [done|]. split; [done|]. right. lia.
    + destruct chunk as [|c chunk]; [done|]. set (ch := c :: chunk) in *.
      rewrite <- Ht. destruct (find_mark (take (pos + length ch) input)) eqn:Ef.
      * split; [done|]. split; [done|]. left. by rewrite Ef.
      * apply IH; [|done]. subst ch. simpl in *. lia.
  - unfold stream_read in E. destruct (choice pos) eqn:Ec; [done|]. injection E as <-. eauto.
Qed.

Lemma read_body_spec fuel input choice pos remaining body :
  (length input - pos < fuel)%nat -> (pos <= length input)%nat ->
  match read_body fuel input choice pos remaining body with
  | None => False
  | Some (Err e) => e = ReadFailed /\ exists q, choice q = None
  | Some (Ok body') => remaining = Z.of_nat (length (drop pos input)) -> body' = body ++ drop pos input
  end.
Proof.
  revert pos remaining body. induction fuel as [|fuel IH]; intros pos remaining body Hf Hp; [lia|].
  cbn [read_body]. destruct (Z.leb_spec remaining 0) as [Hz|Hpos].
  { intros ->. assert (length (drop pos input) = 0%nat) as ->%nil_length_inv by lia. by rewrite app_nil_r. }
  destruct (stream_read input choice pos _) as [chunk|e] eqn:E.
  - apply stream_read_progress in E as [[-> Hge]|(Hne & Hle & Ht)].
    + intros ->. rewrite drop_ge by done. by rewrite app_nil_r.
    + destruct chunk as [|c chunk]; [done|]. set (ch := c :: chunk) in *.
      assert (drop pos input = ch ++ drop (pos + length ch) input) as Hd.
      { apply (app_inv_head (take pos input)). rewrite take_drop, app_assoc, <- Ht. by rewrite take_drop. }
      specialize (IH (pos + length ch)%nat (saturating_sub remaining (Z.of_nat (length ch))) (body ++ ch)).
      destruct (read_body fuel input choice _ _ _) as [[body'|e]|].
      * intros ->. rewrite IH; [by rewrite <- app_assoc, <- Hd|subst ch; simpl in *; lia|done|].
        rewrite Hd, length_app. unfold saturating_sub. lia.
      * apply IH; [subst ch; simpl in *; lia|done].
      * apply IH; [subst ch; simpl in *; lia|done].
  - unfold stream_read in E. destruct (choice pos) eqn:Ec; [done|]. injection E as <-. eauto.
Qed.

(** Every connection is read to a verdict. *)
Lemma read_request_total input choice : is_Some (read_request input choice).
Proof.
  unfold read_request. pose proof (read_head_spec (S (length input)) input choice 0) as Hh.
  rewrite take_0 in Hh. destruct (read_head _ _ _ _ _) as [[[data pos]|e]|]; [|by eexists|lia].
  destruct Hh as (Hp & -> & _); [lia..|]. destruct (find_mark _); [|by eexists].
  destruct (parse_head _) as [[[method path] len]|]; [|by eexists].
  destruct (_ <? len); [|by eexists].
  match goal with |- context [read_body _ _ _ _ ?r ?b] =>
    pose proof (read_body_spec (S (length input)) input choice pos r b) as Hb end.
  destruct (read_body _ _ _ _ _ _) as [[body|e]|]; [by eexists..|lia].
Qed.

(** *** The end of the headers *)

Lemma find_mark_skip l s :
  carriage_return ∉ l -> find_mark (l ++ s) = (fun n => (length l + n)%nat) <$> find_mark s.
Proof.
  induction l as [|b l IH]; intros Hn; simpl app.
  - by destruct (find_mark s).
  - cbn [find_mark]. unfold header_mark, crlf. cbn [app strip_prefix].
    rewrite decide_False by set_solver. rewrite IH by set_solver. by destruct (find_mark s).
Qed.

Lemma find_mark_line s c rest :
  s = c :: rest -> c <> carriage_return ->
  find_mark (crlf ++ s) = (fun n => S (S n)) <$> find_mark s.
Proof.
  intros -> Hc. unfold crlf. cbn [app].
  change (find_mark (carriage_return :: newline :: c :: rest))
    with (match strip_prefix header_mark (carriage_return :: newline :: c :: rest) with
          | Some _ => Some O | None => S <$> find_mark (newline :: c :: rest) end).
  assert (strip_prefix header_mark (carriage_return :: newline :: c :: rest) = None) as ->.
  { unfold header_mark, crlf. cbn [app strip_prefix]. rewrite !decide_True by done.
    rewrite decide_False by congruence. done. }
  change (newline :: c :: rest) with ([newline] ++ c :: rest).
  rewrite find_mark_skip by (by intros ?%list_elem_of_singleton).
  by destruct (find_mark (c :: rest)).
Qed.

Lemma find_mark_bound s q : find_mark s = Some q -> (q + 4 <= length s)%nat.
Proof.
  revert q. induction s as [|y s IHs]; intros q; [done|]. cbn [find_mark].
  destruct (strip_prefix header_mark (y :: s)) eqn:Es.
  - intros [= <-]. destruct s as [|s1 [|s2 [|s3 s']]]; cbn [length]; try lia; exfalso; revert Es;
      unfold header_mark, crlf; cbn [app strip_prefix]; repeat (case_decide; [|done]); done.
  - destruct (find_mark s) as [q2|] eqn:Eq; [|done]. intros [= <-]. cbn [length].
    specialize (IHs q2 eq_refl). lia.
Qed.

Lemma find_mark_prefix a b p : find_mark a = Some p -> find_mark (a ++ b) = Some p.
Proof.
  revert p. induction a as [|x a IH]; intros p; [done|]. cbn [find_mark app].
  assert (forall m (s : list byte), is_Some (strip_prefix m s) -> is_Some (strip_prefix m (s ++ b))) as Hp.
  { induction m as [|y m IHm]; intros s; [by eexists|]. destruct s as [|z s]; simpl; [by intros []|].
    case_decide; [apply IHm|by intros []]. }
  destruct (strip_prefix header_mark (x :: a)) eqn:E.
  - intros [= <-]. destruct (Hp header_mark (x :: a)) as [? Es]; [by eexists|]. cbn [app] in Es. by rewrite Es.
  - destruct (find_mark a) as [q|] eqn:Ea; [|done]. intros [= <-]. rewrite (IH q eq_refl).
    destruct (strip_prefix header_mark (x :: a ++ b)) as [r|] eqn:E2; [|done].
    exfalso. assert (length (x :: a) < 4)%nat as Hshort.
    { destruct (decide (length (x :: a) < 4)%nat); [done|]. exfalso.
      destruct a as [|a1 [|a2 [|a3 a']]]; cbn [length] in *; try lia.
      revert E E2. unfold header_mark, crlf. cbn [app strip_prefix].
      repeat (case_decide; [|done]). done. }
    pose proof (find_mark_bound a q Ea). simpl in Hshort. lia.
Qed.

(** *** Well-formed requests *)

(** Lines as they are sent. *)
Definition join_crlf (ls : list Str) : Str := concat (map (fun l => l ++ crlf) ls).

(** A line of the head: not empty, printable. *)
Definition head_line (l : Str) : Prop := l <> [] /\ Forall (fun b => byte_in 32 126 b = true) l.

Lemma head_line_no_cr l : head_line l -> carriage_return ∉ l.
Proof. intros [_ Hl] Hin. rewrite Forall_forall in Hl. by apply Hl in Hin. Qed.

Lemma head_line_ascii l : Forall (fun b => byte_in 32 126 b = true) l -> ascii l.
Proof.
  intros Hl. eapply Forall_impl; [exact Hl|]. intros b Hb. unfold byte_in in *.
  apply andb_true_iff in Hb as [H1%Z.leb_le H2%Z.leb_le].
  rewrite (proj2 (Z.leb_le _ _)), (proj2 (Z.leb_le _ _)) by lia. done.
Qed.

Lemma find_mark_head ls l rest :
  head_line l -> Forall head_line ls ->
  find_mark (join_crlf (l :: ls) ++ crlf ++ rest) = Some (length (join_crlf (l :: ls)) - 2)%nat.
Proof.
  intros Hl Hls. revert l Hl. induction Hls as [|l' ls Hl' Hls IH]; intros l Hl.
  - unfold join_crlf. cbn [map concat]. rewrite app_nil_r, <- app_assoc, find_mark_skip by (by apply head_line_no_cr).
    change (crlf ++ crlf ++ rest) with (header_mark ++ rest).
    assert (find_mark (header_mark ++ rest) = Some 0%nat) as -> by done.
    rewrite length_app. cbn. f_equal. lia.
  - specialize (IH l' Hl'). unfold join_crlf in *. cbn [map concat] in *.
    set (tl := ((l' ++ crlf) ++ concat (map (fun l => l ++ crlf) ls)) ++ crlf ++ rest) in *.
    replace (((l ++ crlf) ++ (l' ++ crlf) ++ concat (map (fun l => l ++ crlf) ls)) ++ crlf ++ rest)
      with (l ++ crlf ++ tl) by (unfold tl; by rewrite !app_assoc).
    rewrite find_mark_skip by (by apply head_line_no_cr).
    destruct l' as [|c l'']; [by destruct Hl'|].
    rewrite (find_mark_line tl c ((l'' ++ crlf) ++ concat (map (fun l => l ++ crlf) ls) ++ crlf ++ rest)).
    + rewrite IH. simpl. f_equal. rewrite !length_app. simpl. rewrite !length_app. simpl. lia.
    + unfold tl. simpl. by rewrite !app_assoc.
    + intros ->. by apply (head_line_no_cr _ Hl'), elem_of_cons; left.
Qed.

Lemma split_crlf_line cur l s :
  carriage_return ∉ l -> split_crlf cur (l ++ crlf ++ s) = (cur ++ l) :: split_crlf [] s.
Proof.
  revert cur. induction l as [|b l IH]; intros cur Hn.
  - unfold crlf. cbn [app split_crlf]. rewrite decide_True by done. by rewrite app_nil_r.
  - cbn [app split_crlf]. destruct (l ++ crlf ++ s) as [|c s'] eqn:E; [by destruct l|].
    rewrite decide_False by set_solver. rewrite IH by set_solver. by rewrite <- app_assoc.
Qed.

Lemma split_crlf_join ls s :
  Forall head_line ls -> split_crlf [] (join_crlf ls ++ s) = ls ++ split_crlf [] s.
Proof.
  induction 1 as [|l ls Hl _ IH]; [done|]. unfold join_crlf in *. cbn [map concat].
  rewrite <- !app_assoc, split_crlf_line by (by apply head_line_no_cr). by rewrite IH.
Qed.

Lemma split_words_word cur w cs :
  Forall (fun b => is_graphic b = true) w ->
  split_words cur (map (fun b => [b]) w ++ cs) = split_words (cur ++ w) cs.
Proof.
  intros Hw. revert cur. induction Hw as [|b w Hb _ IH]; intros cur; simpl; [by rewrite app_nil_r|].
  rewrite is_graphic_not_space by done. by rewrite IH, <- app_assoc.
Qed.

(** A word of the request line. *)
Definition word (w : Str) : Prop := w <> [] /\ Forall (fun b => is_graphic b = true) w.

Definition space : Str := [x20].

Lemma split_three w1 w2 w3 :
  word w1 -> word w2 -> word w3 ->
  split_whitespace (w1 ++ space ++ w2 ++ space ++ w3) = [w1; w2; w3].
Proof.
  intros [N1 W1] [N2 W2] [N3 W3]. unfold split_whitespace. rewrite chars_ascii.
  - rewrite !map_app. rewrite split_words_word by done. simpl. destruct w1; [done|].
    rewrite split_words_word by done. simpl. destruct w2; [done|].
    rewrite <- (app_nil_r (map _ w3)), split_words_word by done. simpl. by destruct w3.
  - unfold ascii. rewrite !Forall_app. split_and!; first [by apply is_graphic_ascii|by repeat constructor].
Qed.

Lemma word_line w : word w -> Forall (fun b => byte_in 32 126 b = true) w.
Proof.
  intros [_ Hw]. eapply Forall_impl; [exact Hw|]. intros b. unfold is_graphic, byte_in.
  intros [H1%Z.leb_le H2%Z.leb_le]%andb_true_iff.
  rewrite (proj2 (Z.leb_le _ _)), (proj2 (Z.leb_le _ _)) by lia. done.
Qed.

Lemma content_length_stop len headers rest :
  Forall head_line headers -> content_length len (headers ++ [] :: rest) = content_length len headers.
Proof.
  intros Hh. revert len. induction Hh as [|h hs [Hne _] _ IH]; intros len; [done|].
  cbn [app content_length]. rewrite !decide_False by done. destruct (strip_prefix _ h); apply IH.
Qed.

Definition request_line (method path version : Str) : Str :=
  method ++ space ++ path ++ space ++ version.

Lemma request_line_head method path version :
  word method -> word path -> word version -> head_line (request_line method path version).
Proof.
  intros Wm Wp Wv. split; [destruct Wm; by destruct method|]. unfold request_line. rewrite !Forall_app.
  split_and!; first [by apply word_line|by repeat constructor].
Qed.

(** The bytes of a request. *)
Definition request_text (method path version : Str) (headers : list Str) (body : list byte) : list byte :=
  join_crlf (request_line method path version :: headers) ++ crlf ++ body.

Lemma parse_head_text method path version headers :
  word method -> word path -> word version -> Forall head_line headers ->
  parse_head (join_crlf (request_line method path version :: headers) ++ crlf)
  = Ok (method, path, content_length 0 headers).
Proof.
  intros Wm Wp Wv Hh.
  pose proof (request_line_head method path version Wm Wp Wv) as Hl.
  assert (ascii (join_crlf (request_line method path version :: headers) ++ crlf)) as Ha.
  { unfold ascii. apply Forall_app. split; [|by repeat constructor]. unfold join_crlf.
    apply Forall_concat, Forall_map, Forall_forall. intros l Hin. apply Forall_app.
    split; [|by repeat constructor]. apply head_line_ascii.
    apply elem_of_cons in Hin as [->|Hin]; [by destruct Hl|]. rewrite Forall_forall in Hh.
    by destruct (Hh l Hin). }
  unfold parse_head. rewrite from_utf8_lossy_ascii by done.
  rewrite split_crlf_join by (by constructor). cbn [app].
  unfold request_line at 1. rewrite split_three by done.
  assert (split_crlf [] crlf = [[]; []]) as -> by done. by rewrite content_length_stop.
Qed.

(** The first loop ends with a prefix of the connection that covers the head,
    whose end it finds. *)
Lemma read_head_complete input choice head rest :
  input = (head ++ crlf) ++ rest -> find_mark input = Some (length head - 2)%nat ->
  (2 <= length head)%nat -> (forall pos, is_Some (choice pos)) ->
  exists pos, read_head (S (length input)) input choice 0 [] = Some (Ok (take pos input, pos)) /\
    (length (head ++ crlf) <= pos <= length input)%nat /\
    find_mark (take pos input) = Some (length (head ++ crlf) - 4)%nat.
Proof.
  intros Hin Hmark Hhead Hio.
  assert (length (head ++ crlf) = length head + 2)%nat as Hl by (by rewrite length_app).
  pose proof (read_head_spec (S (length input)) input choice 0) as Hr.
  rewrite take_0 in Hr. destruct (read_head _ _ _ _ _) as [[[data pos]|e]|].
  2: { destruct Hr as [_ [q Hq]]; [lia..|]. destruct (Hio q). congruence. }
  2: { exfalso. apply Hr; lia. }
  destruct Hr as (Hpos & -> & Hend); [lia..|]. exists pos.
  assert (find_mark (take pos input) = Some (length head - 2)%nat) as Hm.
  { destruct Hend as [[q Hq]| ->]; [|by rewrite firstn_all].
    pose proof (find_mark_prefix _ (drop pos input) _ Hq) as Hq'. rewrite take_drop in Hq'. congruence. }
  pose proof (find_mark_bound _ _ Hm) as Hb. rewrite length_take in Hb.
  split; [done|]. split; [lia|]. rewrite Hm, Hl. f_equal. lia.
Qed.

Lemma body_split (head body input : list byte) pos :
  input = head ++ body -> (length head <= pos <= length input)%nat ->
  body = drop (length head) (take pos input) ++ drop pos input.
Proof.
  intros Hin Hle. apply (app_inv_head head). rewrite <- Hin.
  rewrite <- (take_drop pos input) at 1. rewrite app_assoc. f_equal.
  rewrite <- (take_drop (length head) (take pos input)) at 1. f_equal.
  rewrite take_take, Nat.min_l by lia. by rewrite Hin, take_app_length.
Qed.

(** A request is understood however it arrives: for any split of the
    connection's bytes into reads, [read_request] returns the method, the path
    and exactly the body of a well-formed request whose headers announce the
    length of its body. *)
Theorem request_reassembled method path version headers body choice :
  word method -> word path -> word version -> Forall head_line headers ->
  content_length 0 headers = Z.of_nat (length body) -> (forall pos, is_Some (choice pos)) ->
  read_request (request_text method path version headers body) choice
  = Some (Ok (mkRequest method path body)).
Proof.
  intros Wm Wp Wv Hh Hlen Hio. unfold request_text.
  set (head := join_crlf (request_line method path version :: headers)).
  set (input := head ++ crlf ++ body).
  assert (input = (head ++ crlf) ++ body) as Hin by (unfold input; by rewrite app_assoc).
  assert (2 <= length head)%nat as Hhead.
  { unfold head, join_crlf. cbn [map concat]. rewrite !length_app. cbn. lia. }
  destruct (read_head_complete input choice head body Hin) as (pos & Er & Hpos & Hm); try done.
  { apply find_mark_head; [by apply request_line_head|done]. }
  unfold read_request. rewrite Er, Hm.
  assert (4 <= length (head ++ crlf))%nat by (rewrite length_app; change (length crlf) with 2%nat; lia).
  replace (length (head ++ crlf) - 4 + 4)%nat with (length (head ++ crlf)) by lia.
  rewrite take_take, Nat.min_l by lia. rewrite Hin at 1. rewrite take_app_length.
  assert (parse_head (head ++ crlf) = Ok (method, path, content_length 0 headers)) as ->
    by (by apply parse_head_text).
  rewrite Hlen. pose proof (body_split _ _ _ pos Hin Hpos) as Hbody.
  set (body0 := drop (length (head ++ crlf)) (take pos input)) in *.
  pose proof (f_equal length Hbody) as Hbl. rewrite length_app in Hbl.
  destruct (Z.ltb_spec (Z.of_nat (length body0)) (Z.of_nat (length body))) as [Hlt|Hge].
  - pose proof (read_body_spec (S (length input)) input choice pos
      (saturating_sub (Z.of_nat (length body)) (Z.of_nat (length body0))) body0) as Hb.
    destruct (read_body _ _ _ _ _ _) as [[body'|e]|].
    + rewrite Hb; [by rewrite <- Hbody|lia..|unfold saturating_sub; lia].
    + destruct Hb as [_ [q Hq]]; [lia..|]. destruct (Hio q). congruence.
    + exfalso. apply Hb; lia.
  - assert (length (drop pos input) = 0%nat) as E%nil_length_inv by lia.
    rewrite E, app_nil_r in Hbody. by rewrite <- Hbody.
Qed.

(** ** Responses *)

Definition quoted (s : Str) : Str := [x22] ++ s ++ [x22].

Definition status_line (status : Z) : Str :=
  if status =? 200 then str "HTTP/1.1 200 OK"
  else if status =? 400 then str "HTTP/1.1 400 Bad Request"
  else if status =? 404 then str "HTTP/1.1 404 Not Found"
  else str "HTTP/1.1 500 Internal Server Error".

(** The bytes [write_json] sends. *)
Definition write_json (status : Z) (body : Str) : list byte :=
  status_line status ++ crlf ++ str "Content-Type: application/json" ++ crlf
  ++ str "Content-Length: " ++ decimal (Z.of_nat (length body)) ++ crlf ++ crlf ++ body.

Definition json_error (what : Str) : Str :=
  str "{" ++ quoted (str "error") ++ str ":" ++ quoted what ++ str "}".

Fixpoint json_strings (first : bool) (l : list Str) : Str :=
  match l with
  | [] => []
  | h :: rest => (if first then [] else str ",") ++ quoted h ++ json_strings false rest
  end.

(** [serde_json::from_slice::<TxRequest>]: the field [tx_hex], if the body is
    such an object; an object with just that field and a plain string is. *)
Class TxRequestJson := {
  tx_request_from_slice : list byte -> option Str;
  tx_request_plain : forall s, Forall (fun b => is_hex_digit b = true) s ->
    tx_request_from_slice (str "{" ++ quoted (str "tx_hex") ++ str ":" ++ quoted s ++ str "}") = Some s;
}.

Section http.
Context `{Sha256} `{Hex} `{TxRequestJson}.

Definition json_field (name : Str) (value : Str) : Str := quoted name ++ str ":" ++ value ++ str ",".

Definition block_json (header : BlockHeader) (tx_hashes : list Str) : Str :=
  str "{"
  ++ json_field (str "height") (decimal (hd_height header))
  ++ json_field (str "round") (decimal (hd_round header))
  ++ json_field (str "prev_block_hash") (quoted (hex_encode (hd_prev_block_hash header)))
  ++ json_field (str "tx_root") (quoted (hex_encode (hd_tx_root header)))
  ++ json_field (str "proposer_id") (quoted (hex_encode (hd_proposer_id header)))
  ++ json_field (str "timestamp_ms") (decimal (hd_timestamp_ms header))
  ++ json_field (str "block_hash") (quoted (hex_encode (block_hash header)))
  ++ quoted (str "tx_hashes") ++ str ":[" ++ json_strings true tx_hashes ++ str "]}".

Definition tip_json (height : Z) (hash : Hash) : Str :=
  str "{" ++ quoted (str "height") ++ str ":" ++ decimal height ++ str ","
  ++ quoted (str "hash") ++ str ":" ++ quoted (hex_encode hash) ++ str "}".

Definition tx_hash_json (h : Hash) : Str :=
  str "{" ++ quoted (str "tx_hash") ++ str ":" ++ quoted (hex_encode h) ++ str "}".

Definition committed_json (height : Z) (bh : Hash) : Str :=
  str "{" ++ quoted (str "status") ++ str ":" ++ quoted (str "committed") ++ str ","
  ++ quoted (str "height") ++ str ":" ++ decimal height ++ str ","
  ++ quoted (str "block_hash") ++ str ":" ++ quoted (hex_encode bh) ++ str "}".

Definition unknown_json : Str :=
  str "{" ++ quoted (str "status") ++ str ":" ++ quoted (str "unknown") ++ str "}".

(** ** Routes *)

Definition starts_with (p s : Str) : bool := bool_decide (is_Some (strip_prefix p s)).

(** The routes of [handle_client]: the commands sent to the node, and the
    status and body of the response. *)
Definition route (snap : NodeSnapshot) (req : Request) : list NodeCommand * (Z * Str) :=
  if bool_decide (rq_method req = str "POST") && bool_decide (rq_path req = str "/tx") then
    match tx_request_from_slice (rq_body req) with
    | None => ([], (400, json_error (str "bad json")))
    | Some tx_hex =>
        match hex_decode tx_hex with
        | None => ([], (400, json_error (str "bad hex")))
        | Some tx => ([SubmitTx tx], (200, tx_hash_json (tx_hash tx)))
        end
    end
  else if bool_decide (rq_method req = str "GET") && bool_decide (rq_path req = str "/tip") then
    ([], (200, tip_json (sn_height snap) (sn_tip_hash snap)))
  else if bool_decide (rq_method req = str "GET") && starts_with (str "/block/") (rq_path req) then
    match parse_u64 (trim_start_matches (str "/block/") (rq_path req)) with
    | Some h =>
        match sn_blocks_by_height snap !! h with
        | Some block =>
            ([], (200, block_json (bl_header block)
                         (map (fun t => hex_encode (tx_hash t)) (bl_txs block))))
        | None => ([], (404, json_error (str "not found")))
        end
    | None => ([], (400, json_error (str "bad height")))
    end
  else if bool_decide (rq_method req = str "GET") && starts_with (str "/tx/") (rq_path req) then
    match hex_decode (trim_start_matches (str "/tx/") (rq_path req)) with
    | None => ([], (400, json_error (str "bad hash")))
    | Some hash_bytes =>
        if decide (length hash_bytes <> 32%nat) then ([], (400, json_error (str "bad hash")))
        else
          match sn_tx_index snap !! hash_bytes with
          | Some (bh, height) => ([], (200, committed_json height bh))
          | None => ([], (404, unknown_json))
          end
    end
  else ([], (404, json_error (str "not found"))).

(** [handle_client]: an unreadable request is dropped without a response. *)
Definition handle_client (snap : NodeSnapshot) (input : list byte) (choice : nat -> option nat)
    : option (list NodeCommand * option (list byte)) :=
  match read_request input choice with
  | None => None
  | Some (Err _) => Some ([], None)
  | Some (Ok req) =>
      let '(cmds, (status, body)) := route snap req in Some (cmds, Some (write_json status body))
  end.

(** ** What clients are told *)

Lemma trim_prefix_hex p h :
  p <> [] -> Forall (fun b => is_hex_digit b = true) h -> hd_error p = Some x2f ->
  trim_start_matches p (p ++ h) = h.
Proof.
  intros Hne Hh Hp. unfold trim_start_matches. destruct p as [|x p]; [done|]. injection Hp as ->.
  cbn [length app trim_prefix_loop].
  change (x2f :: p ++ h) with ((x2f :: p) ++ h). rewrite strip_prefix_app.
  set (fuel := length (p ++ h)). destruct fuel; [done|]. cbn [trim_prefix_loop].
  destruct h as [|d h]; [done|]. cbn [strip_prefix].
  rewrite decide_False; [done|]. intros <-. apply Forall_cons in Hh as [Hd _].
  vm_compute in Hd. done.
Qed.

(** The answer to [GET path]. *)
Definition get_path (snap : NodeSnapshot) (path : Str) : Z * Str :=
  snd (route snap (mkRequest (str "GET") path [])).

(** The transaction path is not one of the others. *)
Lemma get_tx snap h :
  length h = 32%nat ->
  get_path snap (str "/tx/" ++ hex_encode h)
  = match sn_tx_index snap !! h with
    | Some (bh, height) => (200, committed_json height bh)
    | None => (404, unknown_json)
    end.
Proof.
  intros Hl. unfold get_path, route. cbn [rq_method rq_path rq_body].
  rewrite (bool_decide_false (str "GET" = str "POST")) by done.
  rewrite (bool_decide_true (str "GET" = str "GET")) by done. cbn [andb].
  rewrite bool_decide_false by discriminate.
  rewrite trim_prefix_hex by (done || apply hex_encode_digits).
  assert (starts_with (str "/block/") (str "/tx/" ++ hex_encode h) = false) as -> by done.
  assert (starts_with (str "/tx/") (str "/tx/" ++ hex_encode h) = true) as ->
    by (unfold starts_with; rewrite strip_prefix_app; by apply bool_decide_eq_true_2).
  rewrite hex_decode_encode, decide_False by lia.
  by destruct (sn_tx_index snap !! h) as [[bh ht]|].
Qed.

Context `{Ed25519} `{SnapshotJson}.

(** C18: clients of a reachable node are told the truth about the chain: for a
    transaction hash, [GET /tx/<hex>] answers "committed" with a height and a
    block hash exactly when the block committed at that height has that hash
    and contains a transaction with the queried hash, and "unknown" exactly
    when no committed block contains one; [GET /tip] answers the height and
    the hash of the last committed block. *)
Theorem clients_see_the_chain genesis n h :
  reachable_node genesis n -> length h = 32%nat ->
  let snap := n_snapshot n in
  get_path snap (str "/tip") = (200, tip_json (sn_height snap) (hash_at snap (sn_height snap))) /\
  ((exists height b, sn_blocks_by_height snap !! height = Some b /\ h ∈ map tx_hash (bl_txs b) /\
      get_path snap (str "/tx/" ++ hex_encode h)
      = (200, committed_json height (block_hash (bl_header b)))) \/
   ((forall height b, sn_blocks_by_height snap !! height = Some b -> h ∉ map tx_hash (bl_txs b)) /\
    get_path snap (str "/tx/" ++ hex_encode h) = (404, unknown_json))).
Proof.
  intros (infos & _ & _ & Hinv & _)%reachable_node_inv Hl snap.
  pose proof (ni_chain _ Hinv) as Hc. split.
  { change (get_path snap (str "/tip")) with (200, tip_json (sn_height snap) (sn_tip_hash snap)).
    unfold snap. by rewrite (chain_tip _ Hc). }
  rewrite get_tx by done. pose proof (index_spec n h Hinv) as Hi. unfold snap.
  destruct (sn_tx_index (n_snapshot n) !! h) as [[bh ht]|]; [left|by right].
  destruct Hi as (b & Hb & -> & Hin). by exists ht, b.
Qed.

(** The body a client posts for a transaction. *)
Definition submission (tx : list byte) : list byte :=
  str "{" ++ quoted (str "tx_hex") ++ str ":" ++ quoted (hex_encode tx) ++ str "}".

(** C29: a submission reaches the node: however the connection delivers it, a
    posted transaction is answered with its hash and queued as exactly one
    command, which puts a non-empty transaction at the end of the node's pool
    and in its outgoing messages. *)
Theorem submission_is_queued snap n version headers tx choice :
  word version -> Forall head_line headers ->
  content_length 0 headers = Z.of_nat (length (submission tx)) ->
  (forall pos, is_Some (choice pos)) -> tx <> [] ->
  exists cmds,
    handle_client snap (request_text (str "POST") (str "/tx") version headers (submission tx)) choice
    = Some (cmds, Some (write_json 200 (tx_hash_json (tx_hash tx)))) /\
    cmds = [SubmitTx tx] /\
    n_mempool (fst (handle_commands cmds n)) = n_mempool n ++ [tx] /\
    n_net (fst (handle_commands cmds n)) = n_net n ++ [MsgTx tx].
Proof.
  intros Wv Hh Hlen Hio Hne. exists [SubmitTx tx]. split; [|split; [done|by destruct tx]].
  unfold handle_client. rewrite request_reassembled; try done.
  - unfold route. cbn [rq_method rq_path rq_body]. rewrite !bool_decide_true by done. cbn [andb].
    unfold submission. rewrite tx_request_plain by apply hex_encode_digits. by rewrite hex_decode_encode.
  - split; [done|]. refine (bool_decide_unpack _ _). vm_compute. exact I.
  - split; [done|]. refine (bool_decide_unpack _ _). vm_compute. exact I.
Qed.

End http.

(** ** Witnesses *)

Section witness.
Import Toy.

#[local] Instance demo_json : SnapshotJson := fixed_json None.

Definition toy_tx_request (data : list byte) : option Str :=
  rest ← strip_prefix (str "{" ++ quoted (str "tx_hex") ++ str ":" ++ [x22]) data;
  Some (take (length rest - 2) rest).

Lemma toy_tx_request_plain s :
  toy_tx_request (str "{" ++ quoted (str "tx_hex") ++ str ":" ++ quoted s ++ str "}") = Some s.
Proof.
  unfold toy_tx_request.
  replace (str "{" ++ quoted (str "tx_hex") ++ str ":" ++ quoted s ++ str "}")
    with ((str "{" ++ quoted (str "tx_hex") ++ str ":" ++ [x22]) ++ s ++ [x22] ++ str "}")
    by (unfold quoted; by rewrite <- !app_assoc).
  rewrite strip_prefix_app. simpl. f_equal. apply take_app_exact. rewrite length_app. simpl. lia.
Qed.

#[local] Instance toy_tx_json : TxRequestJson :=
  {| tx_request_from_slice := toy_tx_request; tx_request_plain := fun s _ => toy_tx_request_plain s |}.

Lemma clients_see_the_chain_witness :
  get_path (n_snapshot solo2) (str "/tip")
  = (200, tip_json (sn_height (n_snapshot solo2))
            (hash_at (n_snapshot solo2) (sn_height (n_snapshot solo2)))).
Proof.
  exact (proj1 (clients_see_the_chain solo_genesis solo2 ZERO_HASH solo2_reachable eq_refl)).
Defined.

Lemma submission_is_queued_witness :
  exists cmds,
    handle_client NodeSnapshot_new
      (request_text (str "POST") (str "/tx") (str "HTTP/1.1") [str "Content-Length: 15"] (submission [x01]))
      (fun _ => Some 7%nat)
    = Some (cmds, Some (write_json 200 (tx_hash_json (tx_hash [x01])))).
Proof.
  destruct (submission_is_queued NodeSnapshot_new solo (str "HTTP/1.1") [str "Content-Length: 15"] [x01]
    (fun _ => Some 7%nat)) as (cmds & E & _).
  - split; [discriminate|]. refine (bool_decide_unpack _ _). vm_compute. exact I.
  - constructor; [|constructor]. split; [discriminate|].
    refine (bool_decide_unpack _ _). vm_compute. exact I.
  - vm_compute. reflexivity.
  - intros pos. eexists. reflexivity.
  - discriminate.
  - exact (ex_intro _ cmds E).
Defined.

End witness.
