(* ===== verification/System.v ===== *)
(** * The running system

    The node's loop ([Node::run]), the peer network and the HTTP server
    ([start_http_server], src/rust-core/src/bft/http.rs) with the state they
    share: the channel of incoming messages, the channel of commands and the
    snapshot behind its lock.  The HTTP listener accepts connections and starts
    a thread for each, which reads the request on its own and then takes the
    snapshot lock, or sends one command, once; the node changes the part of the
    snapshot that clients read under the lock, once in an action of its loop.
    So the steps of the system are the actions of the loop, the steps of the
    network threads and those of the HTTP threads, in any interleaving.  The
    order in which the loop of [run] takes its actions is one of them. *)

From Stdlib Require Import ZArith Lia Strings.Byte.
From stdpp Require Import base gmap list sorting strings.
From S2P Require Import Prelude Crypto Text Event Merkle Ledger Validation BftTypes BftConfig Slashing ValidatorSet.
From S2P Require Import ApplyBlock Snapshot Node NodeFacts NodeSafety NodeBehaviour NodeHistory NodeExamples.
From S2P Require Import Wire Network NodeMain Http.

Section system.
Context `{MessageJson} `{Sha256} `{Ed25519} `{Hex} `{Rustls} `{SnapshotJson} `{TxRequestJson}.

(** A thread of the HTTP server: it reads, it has its request, it has ended. *)
Inductive Client :=
| ClientReading (input : list byte) (choice : nat -> option nat)
| ClientReady (req : Request)
| ClientEnded.

(** The HTTP server: the threads it has started, or nothing if the listener
    could not bind its address and its thread panicked. *)
Definition HttpServer : Type := option (list Client).

Definition start_http_server (bound : bool) : HttpServer := if bound then Some [] else None.

Definition client_read (input : list byte) (choice : nat -> option nat) : option Client :=
  match read_request input choice with
  | None => None
  | Some (Err _) => Some ClientEnded
  | Some (Ok req) => Some (ClientReady req)
  end.

Record System := mkSystem {
  sy_node : Node;
  sy_net : Network;
  sy_cmds : list NodeCommand;
  sy_http : HttpServer;
  sy_answers : list (Request * (Z * Str));
}.

(** The messages an action of the node has broadcast. *)
Definition sent_by (n n' : Node) : list Message := drop (length (n_net n)) (n_net n').

Definition broadcast_all (msgs : list Message) (w : Network) : Network :=
  foldl (fun w m => net_broadcast m w) w msgs.

(** The system after an action of the node. *)
Definition after_action (n' : Node) (w : Network) (cmds : list NodeCommand) (s : System) : System :=
  mkSystem n' (broadcast_all (sent_by (sy_node s) n') w) cmds (sy_http s) (sy_answers s).

Inductive sys_step : System -> System -> Prop :=
| sys_message env m rest n' s :
    nw_inbox (sy_net s) = m :: rest -> n_height (sy_node s) < u64_max ->
    handle_message env m (sy_node s) = Done n' ->
    sys_step s (after_action n' (set_inbox rest (sy_net s)) (sy_cmds s) s)
| sys_command c rest n' s :
    sy_cmds s = c :: rest -> handle_commands [c] (sy_node s) = (n', false) ->
    sys_step s (after_action n' (sy_net s) rest s)
| sys_propose env n' s :
    n_height (sy_node s) < u64_max -> maybe_propose env (sy_node s) = Done n' ->
    sys_step s (after_action n' (sy_net s) (sy_cmds s) s)
| sys_timeout env n' s :
    n_height (sy_node s) < u64_max -> check_timeouts env (sy_node s) = Done n' ->
    sys_step s (after_action n' (sy_net s) (sy_cmds s) s)
| sys_thread ev w' s :
    thread_event ev -> net_step ev (sy_net s) = Some w' ->
    sys_step s (mkSystem (sy_node s) w' (sy_cmds s) (sy_http s) (sy_answers s))
| sys_accept input choice clients s :
    sy_http s = Some clients ->
    sys_step s (mkSystem (sy_node s) (sy_net s) (sy_cmds s)
                  (Some (clients ++ [ClientReading input choice])) (sy_answers s))
| sys_read i input choice client clients s :
    sy_http s = Some clients -> clients !! i = Some (ClientReading input choice) ->
    client_read input choice = Some client ->
    sys_step s (mkSystem (sy_node s) (sy_net s) (sy_cmds s) (Some (<[i := client]> clients)) (sy_answers s))
| sys_answer i req cmds answer clients s :
    sy_http s = Some clients -> clients !! i = Some (ClientReady req) ->
    route (n_snapshot (sy_node s)) req = (cmds, answer) ->
    sys_step s (mkSystem (sy_node s) (sy_net s) (sy_cmds s ++ cmds)
                  (Some (<[i := ClientEnded]> clients)) (sy_answers s ++ [(req, answer)])).

(** The system at the call of [run], with an empty data directory: no client
    has been served.  (A client thread that is faster than [Node::new] reads
    the same empty chain and sends to the same channel.) *)
Definition booted (genesis : GenesisConfig) (s : System) : Prop :=
  started genesis (sy_node s) /\ sy_cmds s = [] /\ sy_answers s = [].

Definition reachable_system (genesis : GenesisConfig) (s : System) : Prop :=
  exists s0, booted genesis s0 /\ rtc sys_step s0 s.

(** ** The node inside the system *)

Lemma sys_step_node s s' : sys_step s s' -> rtc node_step (sy_node s) (sy_node s').
Proof.
  destruct 1 as [env m rest n' s _ Hm E|c rest n' s _ E|env n' s Hm E|env n' s Hm E| | | |]; simpl;
    try done.
  - apply rtc_once. by eapply step_message.
  - destruct c as [tx|]; [|done]. injection E as <-. apply rtc_once, step_submit.
  - apply rtc_once. by eapply step_propose.
  - apply rtc_once. by eapply step_timeout.
Qed.

Lemma sys_steps_node s s' : rtc sys_step s s' -> rtc node_step (sy_node s) (sy_node s').
Proof. induction 1 as [|s1 s2 s3 Hs _ IH]; [done|]. etrans; [by apply sys_step_node|done]. Qed.

(** ** A client is served *)

(** The system after a new connection has been accepted, read and answered. *)
Definition served (req : Request) (clients : list Client) (s : System) : System :=
  let '(cmds, answer) := route (n_snapshot (sy_node s)) req in
  mkSystem (sy_node s) (sy_net s) (sy_cmds s ++ cmds) (Some (clients ++ [ClientEnded]))
    (sy_answers s ++ [(req, answer)]).

Lemma served_fields req clients s :
  sy_node (served req clients s) = sy_node s /\ sy_net (served req clients s) = sy_net s /\
  sy_cmds (served req clients s) = sy_cmds s ++ fst (route (n_snapshot (sy_node s)) req) /\
  sy_http (served req clients s) = Some (clients ++ [ClientEnded]) /\
  sy_answers (served req clients s) = sy_answers s ++ [(req, snd (route (n_snapshot (sy_node s)) req))].
Proof. unfold served. by destruct (route _ req). Qed.

Lemma served_steps input choice req clients s :
  sy_http s = Some clients -> client_read input choice = Some (ClientReady req) ->
  rtc sys_step s (served req clients s).
Proof.
  intros Hh Hc. unfold served. destruct (route _ req) as [cmds answer] eqn:Er.
  assert (forall c : Client, (clients ++ [c]) !! length clients = Some c) as Hat
    by (intros c; by rewrite lookup_app_r, Nat.sub_diag by done).
  assert (forall c c' : Client, <[length clients := c']> (clients ++ [c]) = clients ++ [c']) as Hins
    by (intros c c'; rewrite insert_app_r_alt, Nat.sub_diag by done; done).
  eapply rtc_l; [by eapply (sys_accept input choice)|].
  eapply rtc_l; [eapply (sys_read (length clients)); [done|apply Hat|done]|]. cbn. rewrite Hins.
  eapply rtc_l; [eapply (sys_answer (length clients)); [done|apply Hat|done]|]. cbn. by rewrite Hins.
Qed.

(** ** What clients read *)

(** A request whose answer reports committed blocks or transactions. *)
Definition is_get (req : Request) : bool := bool_decide (rq_method req = str "GET").

(** An answer with status 200 to a request for a block or a transaction does
    not change when the chain grows. *)
Lemma route_stable n n' req body :
  NodeInv n -> good n n' -> rq_path req <> str "/tip" -> is_get req = true ->
  snd (route (n_snapshot n) req) = (200, body) -> snd (route (n_snapshot n') req) = (200, body).
Proof.
  intros Hinv Hg Hne Hget. apply bool_decide_eq_true in Hget. unfold route. rewrite Hget.
  rewrite (bool_decide_false (str "GET" = str "POST")) by done.
  rewrite (bool_decide_true (str "GET" = str "GET")) by done.
  rewrite (bool_decide_false (rq_path req = str "/tip")) by done. cbn [andb].
  destruct (starts_with (str "/block/") (rq_path req)).
  - destruct (parse_u64 _) as [h|]; [|done].
    destruct (sn_blocks_by_height (n_snapshot n) !! h) as [b|] eqn:Eb; [|done].
    erewrite (lookup_weaken (sn_blocks_by_height (n_snapshot n)));
      [|exact Eb|apply (ex_blocks _ _ (proj2 Hg))]. done.
  - destruct (starts_with (str "/tx/") (rq_path req)); [|done].
    destruct (hex_decode _) as [hb|]; [|done]. case_decide; [done|].
    destruct (sn_tx_index (n_snapshot n) !! hb) as [e|] eqn:Ee; [|done].
    by rewrite (index_stable n n' hb e Hinv Hg Ee).
Qed.

(** The nodes the answers were given from: in the order of the answers, each
    reached from the one before, the current node last. *)
Definition answered_from (nodes : list Node) (s : System) : Prop :=
  Forall2 (fun n qa => snd qa = snd (route (n_snapshot n) (fst qa))) nodes (sy_answers s) /\
  StronglySorted (rtc node_step) (nodes ++ [sy_node s]).

Lemma sorted_last nodes n n' :
  StronglySorted (rtc node_step) (nodes ++ [n]) -> rtc node_step n n' ->
  StronglySorted (rtc node_step) (nodes ++ [n']) /\
  StronglySorted (rtc node_step) ((nodes ++ [n]) ++ [n']).
Proof.
  intros Hs Hn. induction nodes as [|m ms IH]; simpl in *.
  - split; repeat constructor; done.
  - apply StronglySorted_inv in Hs as [Hs Hall]. destruct (IH Hs) as [IH1 IH2].
    assert (rtc node_step m n') as Hm.
    { etrans; [|exact Hn]. rewrite Forall_forall in Hall. apply Hall. set_solver. }
    split; constructor; try done.
    + apply Forall_app in Hall as [Hall _]. apply Forall_app. split; [done|by repeat constructor].
    + apply Forall_app. split; [done|by repeat constructor].
Qed.

Lemma answered_reachable genesis s :
  reachable_system genesis s ->
  exists nodes, answered_from nodes s /\ Forall (reachable_node genesis) (nodes ++ [sy_node s]).
Proof.
  intros (s0 & (Hst & _ & Ha) & Hr).
  assert (exists nodes, answered_from nodes s0 /\ Forall (reachable_node genesis) (nodes ++ [sy_node s0]))
    as Hinit.
  { exists []. split; [split; [by rewrite Ha|repeat constructor]|]. repeat constructor. by exists (sy_node s0). }
  clear Hst Ha. induction Hr as [|s1 s2 s3 Hs _ IH]; [done|]. apply IH.
  destruct Hinit as (nodes & [Hf Hsrt] & Hall). pose proof (sys_step_node _ _ Hs) as Hn.
  destruct (sorted_last _ _ _ Hsrt Hn) as [Hs1 Hs2].
  assert (reachable_node genesis (sy_node s2)) as Hr2.
  { apply Forall_app in Hall as [_ (n0 & H0' & Hst)%Forall_singleton]. exists n0. split; [done|]. by etrans. }
  destruct Hs as [| | | | | | |i req cmds answer clients s _ _ Er];
    try (exists nodes; split; [by split|]; apply Forall_app in Hall as [? _];
         apply Forall_app; split; [done|by repeat constructor]).
  exists (nodes ++ [sy_node s]). split; [|apply Forall_app; split; [done|by repeat constructor]].
  split; [|done]. simpl. apply Forall2_app; [done|]. repeat constructor. simpl. by rewrite Er.
Qed.

Lemma answers_ordered genesis s i j q1 q2 :
  reachable_system genesis s -> (i < j)%nat ->
  sy_answers s !! i = Some q1 -> sy_answers s !! j = Some q2 ->
  exists n1 n2, NodeInv n1 /\ good n1 n2 /\ good n2 (sy_node s) /\
    snd q1 = snd (route (n_snapshot n1) (fst q1)) /\ snd q2 = snd (route (n_snapshot n2) (fst q2)).
Proof.
  intros (nodes & [Hf Hs] & Hall)%answered_reachable Hij Hi Hj.
  destruct (Forall2_lookup_r _ _ _ _ _ Hf Hi) as (n1 & Hn1 & E1).
  destruct (Forall2_lookup_r _ _ _ _ _ Hf Hj) as (n2 & Hn2 & E2).
  assert (forall k m, nodes !! k = Some m -> NodeInv m) as Hinv.
  { intros k m Hk. apply Forall_app in Hall as [Hall _].
    pose proof (Forall_lookup_1 _ _ _ _ Hall Hk) as (? & _ & _ & Hm & _)%reachable_node_inv. done. }
  assert (forall k m, nodes !! k = Some m -> rtc node_step m (sy_node s)) as Hlast.
  { intros k m Hk. eapply StronglySorted_app_1_elem_of; [exact Hs| |set_solver].
    by eapply list_elem_of_lookup_2. }
  exists n1, n2. split; [by eapply Hinv|]. split_and!; try done.
  - apply good_node_steps; [by eapply Hinv|].
    apply StronglySorted_app_1_l in Hs. clear -Hs Hij Hn1 Hn2.
    revert i j Hij Hn1 Hn2. induction Hs as [|m ms Hs IH Hm]; intros i j Hij Hn1 Hn2; [done|].
    destruct i as [|i], j as [|j]; simpl in *; simplify_eq; try lia.
    + by apply (Forall_lookup_1 _ _ _ _ Hm Hn2).
    + by apply (IH i j); [lia|..].
  - apply good_node_steps; [by eapply Hinv|by eapply Hlast].
Qed.

(** C10: clients read a consistent, growing chain: take two answers the server
    has given, in the order it gave them, to any clients.  If both answer the
    same request for a block or for a transaction and the first one found it,
    the second answer is identical.  If both answer [GET /tip], the height does
    not decrease, equal heights come with equal hashes, and the hash answered
    first is still that of the committed block at that height. *)
Theorem client_reads_consistent genesis s i j req1 req2 a1 a2 :
  reachable_system genesis s -> (i < j)%nat ->
  sy_answers s !! i = Some (req1, a1) -> sy_answers s !! j = Some (req2, a2) ->
  rq_method req1 = str "GET" -> rq_method req2 = str "GET" ->
  (forall body, req1 = req2 -> rq_path req1 <> str "/tip" -> a1 = (200, body) -> a2 = a1) /\
  (rq_path req1 = str "/tip" -> rq_path req2 = str "/tip" ->
   exists h1 x1 h2 x2, a1 = (200, tip_json h1 x1) /\ a2 = (200, tip_json h2 x2) /\
     h1 <= h2 /\ (h1 = h2 -> x1 = x2) /\ hash_at (n_snapshot (sy_node s)) h1 = x1).
Proof.
  intros Hr Hij Hi Hj Hm1 Hm2.
  destruct (answers_ordered _ _ _ _ _ _ Hr Hij Hi Hj) as (n1 & n2 & Hinv & Hg12 & Hg2 & E1 & E2).
  simpl in E1, E2. split.
  - intros body <- Hne ->. rewrite E2. apply (route_stable n1); [done|done|done|by apply bool_decide_eq_true|done].
  - intros Hp1 Hp2. destruct req1 as [m1 p1 b1], req2 as [m2 p2 b2]. simpl in *. subst.
    exists (sn_height (n_snapshot n1)), (sn_tip_hash (n_snapshot n1)),
      (sn_height (n_snapshot n2)), (sn_tip_hash (n_snapshot n2)).
    assert (forall n n', NodeInv n -> good n n' ->
      sn_height (n_snapshot n) <= sn_height (n_snapshot n') /\
      hash_at (n_snapshot n') (sn_height (n_snapshot n)) = sn_tip_hash (n_snapshot n)) as Hgrow.
    { intros n n' Hn [Hn' Hex]. pose proof (ex_height _ _ Hex) as Hh.
      rewrite (ni_height _ Hn), (ni_height _ Hn') in Hh. split; [lia|].
      rewrite (chain_tip _ (ni_chain _ Hn)). unfold hash_at.
      destruct (sn_blocks_by_height (n_snapshot n) !! sn_height (n_snapshot n)) as [b|] eqn:Eb.
      - by rewrite (lookup_weaken _ _ _ _ Eb (ex_blocks _ _ Hex)).
      - destruct (sn_blocks_by_height (n_snapshot n') !! sn_height (n_snapshot n)) as [b|] eqn:Eb'; [|done].
        exfalso. assert (1 <= sn_height (n_snapshot n) <= sn_height (n_snapshot n')) as Hd
          by (apply (chain_domain _ (ni_chain _ Hn')); by eexists).
        assert (is_Some (sn_blocks_by_height (n_snapshot n) !! sn_height (n_snapshot n))) as [? ?]
          by (apply (chain_domain _ (ni_chain _ Hn)); lia). congruence. }
    destruct (Hgrow n1 n2 Hinv Hg12) as [Hle Hat]. split; [done|]. split; [done|]. split; [done|].
    pose proof (good_trans _ _ _ Hg12 Hg2) as Hg. split; [|by apply Hgrow].
    intros Eh. rewrite Eh, <- (chain_tip _ (ni_chain _ (proj1 Hg12))) in Hat. done.
Qed.

(** ** What clients submit *)

(** The transaction of a request that [POST /tx] accepts. *)
Definition submitted (req : Request) : option Tx :=
  if bool_decide (rq_method req = str "POST") && bool_decide (rq_path req = str "/tx")
  then tx_request_from_slice (rq_body req) ≫= hex_decode
  else None.

Lemma route_submitted snap req tx :
  submitted req = Some tx -> route snap req = ([SubmitTx tx], (200, tx_hash_json (tx_hash tx))).
Proof.
  unfold submitted, route. destruct (_ && _); [|done].
  destruct (tx_request_from_slice _) as [hx|]; [|done]. simpl. by intros ->.
Qed.

(** A transaction is on its way: in the command queue, in the pool or
    committed. *)
Definition on_its_way (tx : Tx) (s : System) : Prop :=
  SubmitTx tx ∈ sy_cmds s \/ known_tx tx (sy_node s).

Lemma on_its_way_step tx s s' : tx <> [] -> on_its_way tx s -> sys_step s s' -> on_its_way tx s'.
Proof.
  intros Hne [Hq|Hk] Hst.
  2:{ right. eapply (closed_node_steps _ (known_tx_closed tx)); [exact Hk|by apply sys_step_node]. }
  destruct Hst as [|c rest n' s Ec E| | | | | |i req cmds answer clients s _ _ _]; try (by left).
  - rewrite Ec in Hq. apply elem_of_cons in Hq as [<-|Hq]; [right|by left].
    injection E as <-. by apply submit_known.
  - left. simpl. set_solver.
Qed.

(** C11: no accepted submission is lost: once [POST /tx] has answered a client
    that its non-empty transaction was accepted, the transaction is in the
    command queue, in the node's pool, or committed, and stays so whatever the
    clients, the peers and the clock do, as long as the process runs. *)
Theorem no_submission_lost genesis s req answer tx :
  reachable_system genesis s -> (req, answer) ∈ sy_answers s ->
  submitted req = Some tx -> tx <> [] ->
  answer = (200, tx_hash_json (tx_hash tx)) /\ on_its_way tx s.
Proof.
  intros (s0 & (_ & _ & Ha) & Hr) Hin Hsub Hne.
  assert ((req, answer) ∈ sy_answers s0 ->
    answer = (200, tx_hash_json (tx_hash tx)) /\ on_its_way tx s0) as Hinit by (rewrite Ha; set_solver).
  clear Ha. induction Hr as [|s1 s2 s3 Hs _ IH]; [by apply Hinit|]. apply IH; [done|]. intros Hin2.
  destruct Hs as [| | | | | | |i q cmds a clients s Hc Hi Er];
    try (destruct (Hinit Hin2) as [-> Hway]; split; [done|];
         eapply on_its_way_step; [done|exact Hway|]; by econstructor).
  simpl in Hin2. apply elem_of_app in Hin2 as [Hold|Hnew%list_elem_of_singleton].
  - destruct (Hinit Hold) as [-> Hway]. split; [done|].
    eapply on_its_way_step; [done|exact Hway|]. by econstructor.
  - simplify_eq. rewrite (route_submitted _ _ _ Hsub) in Er. simplify_eq. split; [done|]. left. simpl. set_solver.
Qed.

(** ** The program *)

Lemma broadcast_all_run msgs w : net_run (map EvBroadcast msgs) w = Some (broadcast_all msgs w).
Proof. revert w. induction msgs as [|m ms IH]; intros w; [done|]. apply IH. Qed.

Lemma serves_inbox validators identity ms w :
  serves validators identity w -> serves validators identity (set_inbox ms w).
Proof. intros ([I1 I2 I3 I4] & Ea & Et). by split; [split|]. Qed.

Lemma sys_step_serves validators identity s s' :
  sys_step s s' -> serves validators identity (sy_net s) -> serves validators identity (sy_net s').
Proof.
  intros Hs Hv. assert (forall n' w c, serves validators identity w ->
    serves validators identity (sy_net (after_action n' w c s))) as Hact.
  { intros n' w c Hw. eapply net_run_serves; [exact Hw|apply broadcast_all_run]. }
  destruct Hs as [| | | |ev w' s _ E| | |]; auto using serves_inbox.
  eapply (net_run_serves _ _ [ev]); [exact Hv|]. simpl. by rewrite E.
Qed.

Context `{GenesisJson} `{Pem}.

(** The program as [main] enters [run]. *)
Definition boot (p : Program) (bound : bool) : System :=
  mkSystem (pr_node p) (pr_net p) [] (start_http_server bound) [].

(** C6: the running program is safe: start the program on a data directory
    without a snapshot, and let its node, its network threads, its clients and
    the clock run in any order.  At every moment the committed blocks form one
    linked chain, each block is certified by precommits of a quorum of the
    validators in the genesis file the program was given, and every registered
    peer is such a validator that has proved its key, over TLS exactly if the
    genesis enables it. *)
Theorem running_program_safe wd args p bound s :
  main wd args = Running p -> wd_snapshot wd (pr_data_dir p) = None ->
  rtc sys_step (boot p bound) s ->
  exists a genesis validators, parse_args args Args_none = Ok a /\ read_genesis wd a = Ok genesis /\
    validator_infos genesis = Ok validators /\ reachable_system genesis s /\
    ChainInv (n_snapshot (sy_node s)) /\
    (forall h b, sn_blocks_by_height (n_snapshot (sy_node s)) !! h = Some b ->
      certificate (ValidatorSet_new validators) b) /\
    forall id i, nw_peers (sy_net s) !! id = Some i ->
      exists c v pk sig, nw_conns (sy_net s) !! i = Some c /\ cn_peer c = id /\
        encrypted (cn_stream c) = tls_enabled (g_transport genesis) /\
        v ∈ validators /\ vi_node_id v = id /\
        public_key_from_bytes (vi_pubkey v) = Some pk /\ verify pk (hello_bytes id) sig = true.
Proof.
  unfold main. destruct (parse_args args Args_none) as [a|] eqn:Ea; [|done].
  destruct (start_program wd a) as [p'|] eqn:E; [|done]. intros [= ->] Hsnap Hr.
  pose proof (start_program_started _ _ _ E Hsnap) as (g & Eg & Hst).
  apply start_program_ok in E as (g' & kp & vs & ident & net & store & Eg' & _ & Ev & Et & En & Ep & _).
  assert (g' = g) as -> by congruence. exists a, g, vs.
  assert (reachable_system g s) as Hrs by (by exists (boot p bound)).
  assert (reachable_node g (sy_node s)) as (infos & Ei & Evs & Hinv & _)%reachable_node_inv.
  { exists (pr_node p). split; [done|]. apply (sys_steps_node _ _ Hr). }
  assert (infos = vs) as -> by congruence.
  split_and!; try done; [apply Hinv|intros h b; rewrite <- Evs; apply Hinv|].
  intros id i Hp. rewrite (read_tls_enabled _ _ _ _ Et). eapply serves_peer, Hp.
  assert (serves vs ident (sy_net (boot p bound))) as H0' by (simpl; rewrite Ep; by eapply Network_start_serves).
  clear -Hr H0'. induction Hr as [|s1 s2 s3 Hs _ IH]; [done|]. by eapply IH, sys_step_serves.
Qed.

End system.

(** ** Witnesses *)

Section witnesses.
Import Toy.

#[local] Existing Instance toy_message_json.
#[local] Existing Instance toy_rustls.
#[local] Existing Instance toy_genesis_json.
#[local] Existing Instance toy_pem.
#[local] Instance no_snapshot : SnapshotJson := fixed_json None.
#[local] Instance toy_tx_requests : TxRequestJson :=
  {| tx_request_from_slice := toy_tx_request; tx_request_plain := fun s _ => toy_tx_request_plain s |}.

Definition tip_request : Request := mkRequest (str "GET") (str "/tip") [].
Definition post_request : Request := mkRequest (str "POST") (str "/tx") (submission good_tx).

Definition tip_text : list byte := str "GET /tip HTTP/1.1" ++ crlf ++ crlf.
Definition post_text : list byte :=
  request_text (str "POST") (str "/tx") (str "HTTP/1.1")
    [str "Content-Length: " ++ decimal (Z.of_nat (length (submission good_tx)))] (submission good_tx).

Definition whole : nat -> option nat := fun _ => Some 4096%nat.

Lemma tip_read : client_read tip_text whole = Some (ClientReady tip_request).
Proof. vm_compute. reflexivity. Qed.

Lemma post_read : client_read post_text whole = Some (ClientReady post_request).
Proof. vm_compute. reflexivity. Qed.

(** A client asks for the tip, one submits a transaction, the node commits it,
    and a client asks for the tip again. *)
Definition sys0 : System := mkSystem solo blank_network [] (start_http_server true) [].
Definition sys1 : System := served tip_request [] sys0.
Definition sys2 : System := served post_request [ClientEnded] sys1.
Definition sys3 : System := after_action solo1 (sy_net sys2) [] sys2.
Definition sys4 : System := after_action solo2 (sy_net sys3) [] sys3.
Definition sys5 : System := served tip_request [ClientEnded; ClientEnded] sys4.

Lemma sys1_http : sy_http sys1 = Some [ClientEnded].
Proof. apply served_fields. Qed.

Lemma sys2_http : sy_http sys2 = Some [ClientEnded; ClientEnded].
Proof. apply served_fields. Qed.

Lemma sys2_node : sy_node sys2 = solo.
Proof.
  exact (eq_trans (proj1 (served_fields post_request [ClientEnded] sys1))
                  (proj1 (served_fields tip_request [] sys0))).
Qed.

Lemma post_submits : submitted post_request = Some good_tx.
Proof. vm_compute. reflexivity. Qed.

Lemma sys2_cmds : sy_cmds sys2 = [SubmitTx good_tx].
Proof.
  unfold sys2. destruct (served_fields post_request [ClientEnded] sys1) as (_ & _ & -> & _).
  rewrite (route_submitted _ _ _ post_submits). unfold sys1.
  destruct (served_fields tip_request [] sys0) as (_ & _ & -> & _). reflexivity.
Qed.

Lemma sys2_steps : rtc sys_step sys0 sys2.
Proof.
  etrans.
  - apply (served_steps tip_text whole tip_request []); [reflexivity|apply tip_read].
  - apply (served_steps post_text whole post_request [ClientEnded]); [apply sys1_http|apply post_read].
Qed.

Lemma sys5_steps : rtc sys_step sys0 sys5.
Proof.
  etrans; [exact sys2_steps|]. eapply rtc_l; [|eapply rtc_l].
  - apply (sys_command (SubmitTx good_tx) [] solo1 sys2); [apply sys2_cmds|].
    rewrite sys2_node. reflexivity.
  - apply (sys_propose env0 solo2 sys3); [vm_compute; reflexivity|].
    apply result_of_done. vm_compute. reflexivity.
  - apply (served_steps tip_text whole tip_request [ClientEnded; ClientEnded] sys4);
      [apply sys2_http|apply tip_read].
Qed.

Lemma sys0_booted : booted solo_genesis sys0.
Proof. split; [apply start_started; vm_compute; reflexivity|done]. Qed.

Lemma sys5_reachable : reachable_system solo_genesis sys5.
Proof. exists sys0. split; [apply sys0_booted|apply sys5_steps]. Qed.

Definition first_tip : Z * Str := snd (route (n_snapshot solo) tip_request).
Definition second_tip : Z * Str := snd (route (n_snapshot solo2) tip_request).
Definition post_answer : Z * Str := (200, tx_hash_json (tx_hash good_tx)).

Lemma sys5_answers :
  sy_answers sys5 = [(tip_request, first_tip); (post_request, post_answer); (tip_request, second_tip)].
Proof.
  unfold sys5. destruct (served_fields tip_request [ClientEnded; ClientEnded] sys4) as (_ & _ & _ & _ & ->).
  change (sy_answers sys4) with (sy_answers sys2). unfold sys2.
  destruct (served_fields post_request [ClientEnded] sys1) as (_ & _ & _ & _ & ->).
  rewrite (route_submitted _ _ _ post_submits). unfold sys1.
  destruct (served_fields tip_request [] sys0) as (_ & _ & _ & _ & ->). reflexivity.
Qed.

Lemma client_reads_consistent_witness :
  exists h1 x1 h2 x2, first_tip = (200, tip_json h1 x1) /\ second_tip = (200, tip_json h2 x2) /\
    h1 <= h2 /\ (h1 = h2 -> x1 = x2) /\ hash_at (n_snapshot (sy_node sys5)) h1 = x1.
Proof.
  refine (proj2 (client_reads_consistent solo_genesis sys5 0 2 tip_request tip_request first_tip second_tip
    sys5_reachable _ _ _ eq_refl eq_refl) eq_refl eq_refl).
  - lia.
  - rewrite sys5_answers. reflexivity.
  - rewrite sys5_answers. reflexivity.
Defined.

Lemma no_submission_lost_witness :
  post_answer = (200, tx_hash_json (tx_hash good_tx)) /\ on_its_way good_tx sys5.
Proof.
  apply (no_submission_lost solo_genesis sys5 post_request post_answer good_tx sys5_reachable);
    [|apply post_submits|discriminate].
  rewrite sys5_answers. apply elem_of_cons. right. apply elem_of_cons. left. reflexivity.
Defined.

Lemma running_program_safe_witness :
  exists p genesis validators, main toy_world toy_line = Running p /\
    validator_infos genesis = Ok validators /\
    reachable_system genesis (boot p true) /\ ChainInv (n_snapshot (pr_node p)).
Proof.
  destruct (is_running_true (main toy_world toy_line)) as [p Hp]; [vm_compute; reflexivity|].
  destruct (running_program_safe toy_world toy_line p true (boot p true) Hp eq_refl (rtc_refl _ _))
    as (a & g & vs & _ & _ & Hv & Hr & Hc & _).
  exists p, g, vs. exact (conj Hp (conj Hv (conj Hr Hc))).
Defined.

End witnesses.
