(* ===== verification/Scoring.v ===== *)
(** * Chain scoring and tip selection (src/rust-core/src/scoring.rs)

    The local, non-consensus preference: walking a chain back from a tip,
    scoring it, choosing the best tip, and the bounded ancestor walk of the
    Sybil overlay.  The order in which a [HashSet] is iterated is not specified
    by Rust; it is the interface [HashIter], and the theorems hold for every
    order. *)

From Stdlib Require Import ZArith Lia Strings.Byte.
From stdpp Require Import base gmap list relations.
From S2P Require Import Prelude Crypto Event Merkle Ledger.

(** The iteration order of a [HashSet<Hash>]. *)
Class HashIter := {
  set_iter : gset Hash -> list Hash;
  set_iter_perm : forall X, set_iter X ≡ₚ elements X;
}.

(** ** Weight policies *)

(** [trait WeightPolicy]. *)
Class WeightPolicy (P : Type) := weight_event : P -> Event -> Z.

Inductive UnitWeight := UnitWeight_.

#[global] Instance UnitWeight_policy : WeightPolicy UnitWeight := fun _ _ => 1.

Record MaturityStubWeight := mkMaturityStubWeight {
  new_author_weight : Z;
  mature_author_weight : Z;
  mature_author : PublicKey;
}.

#[global] Instance MaturityStubWeight_policy : WeightPolicy MaturityStubWeight := fun p event =>
  if decide (ev_author event = mature_author p) then mature_author_weight p
  else new_author_weight p.

(** ** Chains *)

Record Chain := mkChain {
  ch_hashes : list Hash;
  ch_score : Z;
}.

(** The backward walk of [build_chain_from_tip], newest first. *)
Fixpoint walk_back (ledger : Ledger) (cur : Hash) (max_steps : nat) : list Hash :=
  match max_steps with
  | O => []
  | S steps =>
      match get_event ledger cur with
      | None => []
      | Some e => cur :: walk_back ledger (ev_prev_hash e) steps
      end
  end.

Definition build_chain_from_tip (ledger : Ledger) (tip : Hash) (max_steps : nat) : Chain :=
  mkChain (reverse (walk_back ledger tip max_steps)) 0.

Definition score_chain {P} `{WeightPolicy P} (ledger : Ledger) (chain : Chain) (policy : P) : Chain :=
  let s := foldl (fun s h =>
    match get_event ledger h with
    | Some e => saturating_add s (weight_event policy e)
    | None => s
    end) 0 (ch_hashes chain) in
  mkChain (ch_hashes chain) s.

(** The loop of the latest-per-author scores, over the weight of an author. *)
Definition latest_step (ledger : Ledger) (weight : PublicKey -> Z)
    (acc : gset PublicKey * Z) (h : Hash) : gset PublicKey * Z :=
  let '(seen, s) := acc in
  match get_event ledger h with
  | Some e =>
      if decide (ev_author e ∈ seen) then (seen, s)
      else ({[ev_author e]} ∪ seen, saturating_add s (weight (ev_author e)))
  | None => (seen, s)
  end.

Definition score_latest_per_author (ledger : Ledger) (weight : PublicKey -> Z) (chain : Chain)
    : Chain :=
  mkChain (ch_hashes chain)
    (snd (foldl (latest_step ledger weight) (∅, 0) (reverse (ch_hashes chain)))).

Definition score_chain_latest_per_author_unit (ledger : Ledger) (chain : Chain) : Chain :=
  score_latest_per_author ledger (fun _ => 1) chain.

(** ** Selection *)

(** The loop over the tips: keep the better score, the smaller hash on equal
    scores. *)
Definition select_step (eval : Hash -> Chain) (best : option (Hash * Chain)) (tip : Hash)
    : option (Hash * Chain) :=
  let c := eval tip in
  match best with
  | None => Some (tip, c)
  | Some (bt, bc) =>
      if (ch_score bc <? ch_score c) || ((ch_score c =? ch_score bc) && bytes_ltb tip bt)
      then Some (tip, c)
      else best
  end.

Definition select_tip `{HashIter} (ledger : Ledger) (eval : Hash -> Chain) : option (Hash * Chain) :=
  let tips := get_tips ledger in
  if decide (tips = ∅) then None else foldl (select_step eval) None (set_iter tips).

Definition select_preferred_tip `{HashIter} {P} `{WeightPolicy P} (ledger : Ledger) (policy : P)
    (max_steps : nat) : option (Hash * Chain) :=
  select_tip ledger (fun tip =>
    score_chain ledger (build_chain_from_tip ledger tip max_steps) policy).

Inductive LocalPolicyKind := Unit_ | LatestPerAuthorUnit | LatestPerAuthorSybil.

Definition policy_score (ledger : Ledger) (policy : LocalPolicyKind) (c : Chain) : Chain :=
  match policy with
  | Unit_ => score_chain ledger c UnitWeight_
  | LatestPerAuthorUnit => score_chain_latest_per_author_unit ledger c
  | LatestPerAuthorSybil => mkChain (ch_hashes c) 0
  end.

Definition select_preferred_tip_score `{HashIter} (ledger : Ledger) (policy : LocalPolicyKind)
    (max_steps : nat) : option (Hash * Z) :=
  (fun '(t, c) => (t, ch_score c)) <$>
  select_tip ledger (fun tip =>
    policy_score ledger policy (build_chain_from_tip ledger tip max_steps)).

(** ** The ancestor walk *)

Fixpoint ancestor_walk (ledger : Ledger) (ancestor descendant : Hash) (max_steps : nat) : bool :=
  match max_steps with
  | O => false
  | S steps =>
      match get_event ledger descendant with
      | None => false
      | Some e =>
          if decide (ev_prev_hash e = ancestor) then true
          else if decide (ev_prev_hash e = descendant) then false
          else if decide (ev_prev_hash e = ancestor) then true
          else ancestor_walk ledger ancestor (ev_prev_hash e) steps
      end
  end.

Definition is_ancestor_by_walk (ledger : Ledger) (ancestor descendant : Hash) (max_steps : nat)
    : bool :=
  if decide (ancestor = descendant) then true
  else ancestor_walk ledger ancestor descendant max_steps.

(** ** Properties of the selection *)

(** [t] is at least as good as [t']: a higher score, or the same score and a
    hash that is not larger. *)
Definition preferred (eval : Hash -> Chain) (t t' : Hash) : Prop :=
  ch_score (eval t') < ch_score (eval t) \/
  (ch_score (eval t') = ch_score (eval t) /\ bytes_le t t').

Lemma bytes_ltb_false_le a b : bytes_ltb a b = false -> bytes_le b a.
Proof.
  unfold bytes_ltb, bytes_le. rewrite (bytes_compare_antisym a b). by destruct (bytes_compare a b).
Qed.

Lemma bytes_ltb_le a b : bytes_ltb a b = true -> bytes_le a b.
Proof. unfold bytes_ltb, bytes_le. by destruct (bytes_compare a b). Qed.

Lemma preferred_refl eval t : preferred eval t t.
Proof. right. split; [done|]. unfold bytes_le. by rewrite bytes_compare_refl. Qed.

Lemma preferred_trans eval t1 t2 t3 :
  preferred eval t1 t2 -> preferred eval t2 t3 -> preferred eval t1 t3.
Proof.
  intros [H1|[E1 L1]] [H2|[E2 L2]]; [left; lia..|]. right. split; [lia|]. by etrans.
Qed.

Lemma preferred_antisym eval t1 t2 : preferred eval t1 t2 -> preferred eval t2 t1 -> t1 = t2.
Proof.
  intros [H1|[E1 L1]] [H2|[E2 L2]]; try lia. by apply (anti_symm bytes_le).
Qed.

Lemma select_step_spec eval best tip :
  match best with Some (bt, bc) => bc = eval bt | None => True end ->
  exists t, select_step eval best tip = Some (t, eval t) /\
    (t = tip \/ fst <$> best = Some t) /\ preferred eval t tip /\
    forall bt bc, best = Some (bt, bc) -> preferred eval t bt.
Proof.
  intros Hb. unfold select_step. destruct best as [[bt bc]|].
  - subst bc. destruct (_ || _) eqn:E.
    + exists tip. split; [done|]. split; [by left|]. split; [apply preferred_refl|].
      intros ? ? [= <- _]. apply orb_true_iff in E as [E%Z.ltb_lt|[E%Z.eqb_eq L]%andb_true_iff].
      * by left.
      * right. split; [done|]. by apply bytes_ltb_le.
    + exists bt. split; [done|]. split; [by right|].
      apply orb_false_iff in E as [E%Z.ltb_ge L]. split.
      * destruct (decide (ch_score (eval tip) = ch_score (eval bt))) as [Eq|]; [|left; lia].
        right. split; [done|]. rewrite Eq, Z.eqb_refl in L. by apply bytes_ltb_false_le.
      * intros ? ? [= <- _]. apply preferred_refl.
  - exists tip. split; [done|]. split; [by left|]. split; [apply preferred_refl|done].
Qed.

Lemma select_fold_spec eval order :
  order <> [] ->
  exists t, foldl (select_step eval) None order = Some (t, eval t) /\ t ∈ order /\
    forall t', t' ∈ order -> preferred eval t t'.
Proof.
  induction order as [|tip order IH] using rev_ind; [done|]. intros _.
  rewrite foldl_app. simpl. destruct (decide (order = [])) as [->|Hne].
  - simpl. exists tip. split; [done|]. split; [set_solver|].
    intros t' ->%list_elem_of_singleton. apply preferred_refl.
  - destruct (IH Hne) as (bt & -> & Hin & Hbest).
    destruct (select_step_spec eval (Some (bt, eval bt)) tip eq_refl) as (t & -> & Ht & Hp & Hb).
    exists t. split; [done|]. split.
    + destruct Ht as [->|[= ->]]; set_solver.
    + intros t' [Hin'| ->%list_elem_of_singleton]%elem_of_app; [|done].
      eapply preferred_trans; [by eapply Hb|]. by apply Hbest.
Qed.

(** The choice, characterised without an iteration order. *)
Definition is_best (ledger : Ledger) (eval : Hash -> Chain) (t : Hash) : Prop :=
  t ∈ get_tips ledger /\ forall t', t' ∈ get_tips ledger -> preferred eval t t'.

Lemma is_best_unique ledger eval t1 t2 : is_best ledger eval t1 -> is_best ledger eval t2 -> t1 = t2.
Proof. intros [I1 B1] [I2 B2]. by apply (preferred_antisym eval); [apply B1|apply B2]. Qed.

Lemma select_tip_spec `{HashIter} ledger eval :
  match select_tip ledger eval with
  | None => get_tips ledger = ∅
  | Some (t, c) => is_best ledger eval t /\ c = eval t
  end.
Proof.
  unfold select_tip. case_decide as Ht; [done|].
  destruct (select_fold_spec eval (set_iter (get_tips ledger))) as (t & -> & Hin & Hb).
  - intros E. pose proof (set_iter_perm (get_tips ledger)) as Hp. rewrite E in Hp.
    apply Permutation_nil_l in Hp. symmetry in Hp.
    apply elements_empty_inv in Hp. by apply leibniz_equiv in Hp.
  - split; [|done]. split.
    + by rewrite set_iter_perm, elem_of_elements in Hin.
    + intros t' Ht'. apply Hb. by rewrite set_iter_perm, elem_of_elements.
Qed.

Lemma select_tip_order (I1 I2 : HashIter) ledger eval :
  select_tip (H := I1) ledger eval = select_tip (H := I2) ledger eval.
Proof.
  pose proof (select_tip_spec (H := I1) ledger eval) as H1.
  pose proof (select_tip_spec (H := I2) ledger eval) as H2.
  destruct (select_tip (H := I1) ledger eval) as [[t1 c1]|];
    destruct (select_tip (H := I2) ledger eval) as [[t2 c2]|]; [| | |done].
  2: destruct H1 as [[Hin _] _]; rewrite H2 in Hin; set_solver.
  2: destruct H2 as [[Hin _] _]; rewrite H1 in Hin; set_solver.
  destruct H1 as [B1 ->], H2 as [B2 ->]. by rewrite (is_best_unique _ _ _ _ B1 B2).
Qed.

(** C31: the preferred tip does not depend on the iteration order of the
    tips: for any two orders the result is the same; it is absent exactly
    when there are no tips, and otherwise it is the tip of maximal score, the
    lexicographically smallest one among those, with its score. *)
Theorem preferred_tip_deterministic (I1 I2 : HashIter) ledger policy max_steps :
  let score t := ch_score (policy_score ledger policy (build_chain_from_tip ledger t max_steps)) in
  select_preferred_tip_score (H := I1) ledger policy max_steps
    = select_preferred_tip_score (H := I2) ledger policy max_steps /\
  match select_preferred_tip_score (H := I1) ledger policy max_steps with
  | None => get_tips ledger = ∅
  | Some (t, s) => t ∈ get_tips ledger /\ s = score t /\
      forall t', t' ∈ get_tips ledger -> score t' < s \/ (score t' = s /\ bytes_le t t')
  end.
Proof.
  intros score. unfold select_preferred_tip_score. rewrite (select_tip_order I1 I2).
  split; [done|]. match goal with |- context [select_tip ledger ?e] =>
    pose proof (select_tip_spec (H := I2) ledger e) as Hs; destruct (select_tip ledger e) as [[t c]|] end;
  [|done]. by destruct Hs as [[Hin Hb] ->].
Qed.

(** ** Properties of the walks *)

(** The line of ancestors of an event, newest first, up to its genesis event. *)
Inductive ancestry (ledger : Ledger) : Hash -> list Hash -> Prop :=
| ancestry_root h e :
    get_event ledger h = Some e -> ev_prev_hash e = ZERO_HASH -> ancestry ledger h [h]
| ancestry_step h e l :
    get_event ledger h = Some e -> ev_prev_hash e <> ZERO_HASH ->
    ancestry ledger (ev_prev_hash e) l -> ancestry ledger h (h :: l).

Section walks.
Context `{Sha256}.

Lemma walk_back_ancestry ledger (rank : Hash -> nat) cur n :
  LedgerInv ledger -> events ledger !! ZERO_HASH = None ->
  (forall h e, events ledger !! h = Some e -> ev_prev_hash e <> ZERO_HASH ->
    (rank (ev_prev_hash e) < rank h)%nat) ->
  is_Some (events ledger !! cur) -> (rank cur < n)%nat ->
  ancestry ledger cur (walk_back ledger cur n) /\
  NoDup (walk_back ledger cur n) /\
  forall h, h ∈ walk_back ledger cur n -> (rank h <= rank cur)%nat.
Proof.
  intros Hinv Hz Hdec. revert cur. induction n as [|n IH]; intros cur [e He] Hn; [lia|].
  assert (get_event ledger cur = Some e) as Hg by exact He. simpl. rewrite Hg.
  destruct (decide (ev_prev_hash e = ZERO_HASH)) as [Ez|Hnz].
  - assert (walk_back ledger (ev_prev_hash e) n = []) as ->
      by (destruct n; simpl; [done|]; unfold get_event; by rewrite Ez, Hz).
    split; [by eapply ancestry_root|]. split; [apply NoDup_singleton|].
    intros h ->%list_elem_of_singleton. done.
  - pose proof (Hdec _ _ He Hnz) as Hlt.
    destruct (inv_linked _ Hinv _ _ He) as [|Hs]; [done|].
    destruct (IH (ev_prev_hash e) Hs ltac:(lia)) as (Ha & Hnd & Hr).
    split; [by eapply ancestry_step|]. split.
    + constructor; [|done]. intros Hin%Hr. lia.
    + intros h [->|Hin%Hr]%elem_of_cons; lia.
Qed.

(** In a ledger built by [try_add_event] the walk terminates at genesis:
    with a step bound of at least the number of stored events, the chain of a
    stored tip is the complete line of its ancestors, in order from its
    genesis event to the tip, without repetition.  (No stored event has the
    zero hash.) *)
Theorem chain_is_complete ledger tip max_steps :
  reachable ledger -> get_event ledger ZERO_HASH = None ->
  is_Some (get_event ledger tip) -> (size (events ledger) <= max_steps)%nat ->
  ancestry ledger tip (reverse (ch_hashes (build_chain_from_tip ledger tip max_steps))) /\
  NoDup (ch_hashes (build_chain_from_tip ledger tip max_steps)).
Proof.
  intros Hr Hz [e He] Hn. destruct (reachable_ranked _ Hr) as (rank & Hlt & Hdec).
  pose proof (Hlt _ _ He). unfold build_chain_from_tip. simpl. rewrite reverse_involutive.
  destruct (walk_back_ancestry ledger rank tip max_steps) as (Ha & Hnd & _);
    [by apply reachable_inv|done|done|by exists e|lia|].
  split; [done|]. by rewrite reverse_Permutation.
Qed.

End walks.

(** [y] is the parent of the stored event [x]. *)
Definition parent_of (ledger : Ledger) (x y : Hash) : Prop :=
  exists e, get_event ledger x = Some e /\ ev_prev_hash e = y.

Lemma ancestor_walk_spec ledger a d n :
  a <> d ->
  ancestor_walk ledger a d n = true <->
  exists k, (1 <= k <= n)%nat /\ nsteps (parent_of ledger) k d a.
Proof.
  revert d. induction n as [|n IH]; intros d Hne; simpl.
  { split; [done|]. intros (k & ? & _). lia. }
  destruct (get_event ledger d) as [e|] eqn:He.
  2:{ split; [done|]. intros (k & Hk & Hs). inversion Hs as [|? ? y ? (e & He' & _)]; subst; [lia|].
      congruence. }
  case_decide as E1.
  { split; [|done]. intros _. exists 1%nat. split; [lia|]. apply nsteps_once. by exists e. }
  case_decide as E2.
  { split; [done|]. intros (k & Hk & Hs). exfalso. apply Hne.
    assert (forall j x, x = d -> nsteps (parent_of ledger) j x a -> a = d) as Hstay; [|exact (Hstay k d eq_refl Hs)].
    induction j as [|j IHj]; intros x -> Hs'; inversion Hs' as [|? ? y ? (e' & He' & <-) Hs2]; subst;
      [done|]. apply (IHj (ev_prev_hash e')); [congruence|done]. }
  rewrite IH by done. split.
  - intros (k & Hk & Hs). exists (S k). split; [lia|]. econstructor; [|exact Hs]. by exists e.
  - intros (k & Hk & Hs). inversion Hs as [|? ? y ? (e' & He' & <-) Hs2]; subst; [lia|].
    rewrite He in He'. injection He' as <-. exists n0. split; [|done].
    destruct n0; [|lia]. inversion Hs2; subst. congruence.
Qed.

(** C32: the ancestor walk is exact up to its bound: it answers yes exactly
    when the ancestor is reached from the descendant by at most [max_steps]
    parent links, whatever the ledger (also one with a self-link). *)
Theorem ancestor_walk_exact ledger ancestor descendant max_steps :
  is_ancestor_by_walk ledger ancestor descendant max_steps = true <->
  exists k, (k <= max_steps)%nat /\ nsteps (parent_of ledger) k descendant ancestor.
Proof.
  unfold is_ancestor_by_walk. case_decide as E.
  - subst. split; [|done]. intros _. exists 0%nat. split; [lia|constructor].
  - rewrite ancestor_walk_spec by done. split.
    + intros (k & Hk & Hs). exists k. split; [lia|done].
    + intros (k & Hk & Hs). exists k. split; [|done].
      destruct k; [|lia]. by inversion Hs.
Qed.

(** ** Properties of the scores *)

(** The authors of a chain. *)
Definition authors (ledger : Ledger) (hashes : list Hash) : gset PublicKey :=
  list_to_set (omap (fun h => ev_author <$> get_event ledger h) hashes).

Lemma walk_back_stored ledger cur n h :
  h ∈ walk_back ledger cur n -> is_Some (get_event ledger h).
Proof.
  revert cur. induction n as [|n IH]; intros cur; simpl; [set_solver|].
  destruct (get_event ledger cur) eqn:E; [|set_solver].
  intros [->|Hin]%elem_of_cons; [by eexists|]. by eapply IH.
Qed.

Lemma unit_score_fold ledger hs :
  Forall (fun h => is_Some (get_event ledger h)) hs ->
  foldl (fun s h => match get_event ledger h with
    | Some e => saturating_add s (weight_event UnitWeight_ e) | None => s end) 0 hs
  = Z.min (Z.of_nat (length hs)) u64_max.
Proof.
  induction hs as [|h hs IH] using rev_ind; [done|].
  intros [Hhs [[e He] _]%Forall_cons]%Forall_app. rewrite foldl_app, length_app. simpl.
  rewrite IH, He by done. unfold saturating_add, weight_event, UnitWeight_policy, u64_max. lia.
Qed.

Lemma latest_fold ledger hs :
  foldl (latest_step ledger (fun _ => 1)) (∅, 0) hs
  = (authors ledger hs, Z.min (Z.of_nat (size (authors ledger hs))) u64_max).
Proof.
  induction hs as [|h hs IH] using rev_ind; [done|].
  rewrite foldl_app. simpl. rewrite IH. unfold authors, latest_step.
  rewrite omap_app, list_to_set_app_L. simpl.
  destruct (get_event ledger h) as [e|]; simpl; [|by rewrite union_empty_r_L].
  set (X := list_to_set _ : gset PublicKey). rewrite union_empty_r_L. case_decide as Hin.
  - by replace (X ∪ {[ev_author e]}) with X by set_solver.
  - rewrite (union_comm_L X), size_union, size_singleton by set_solver.
    f_equal. unfold saturating_add, u64_max. lia.
Qed.

Lemma authors_reverse ledger hs : authors ledger (reverse hs) = authors ledger hs.
Proof.
  apply set_eq. intros x. unfold authors. rewrite !elem_of_list_to_set, !list_elem_of_omap.
  by setoid_rewrite elem_of_reverse.
Qed.

(** What the stateless scores count: on the chain of any tip the unit
    score is the number of its events and the latest-per-author score the
    number of its distinct authors (both capped at the end of the [u64]
    range), so more events of one author do not raise the latter. *)
Theorem stateless_scores ledger tip max_steps :
  let c := build_chain_from_tip ledger tip max_steps in
  ch_score (score_chain ledger c UnitWeight_) = Z.min (Z.of_nat (length (ch_hashes c))) u64_max /\
  ch_score (score_chain_latest_per_author_unit ledger c)
    = Z.min (Z.of_nat (size (authors ledger (ch_hashes c)))) u64_max.
Proof.
  intros c. split.
  - apply unit_score_fold. apply Forall_forall. intros h.
    unfold c. simpl. rewrite elem_of_reverse. apply walk_back_stored.
  - unfold score_chain_latest_per_author_unit, score_latest_per_author. simpl.
    rewrite latest_fold. simpl. by rewrite authors_reverse.
Qed.

(** ** Witness *)

Section witness.
Import Toy.

Lemma chain_is_complete_witness :
  ancestry demo_ledger2 (hash_event demo_child)
    (reverse (ch_hashes (build_chain_from_tip demo_ledger2 (hash_event demo_child) 5))) /\
  NoDup (ch_hashes (build_chain_from_tip demo_ledger2 (hash_event demo_child) 5)).
Proof.
  apply chain_is_complete;
    [apply demo_ledger2_reachable|vm_compute; reflexivity
    |exists demo_child; vm_compute; reflexivity|apply Nat.leb_le; vm_compute; reflexivity].
Defined.

End witness.
