(* ===== verification/Overlay.v ===== *)
(** * The Sybil overlay (src/rust-core/src/scoring.rs)

    Per-author warm-up, equivocation quarantine and economic penalty, the
    fixed-point weights, the tip preference built on them, and the optional
    trace recorder.  An [f64] is a [spec_float] with the IEEE 754 binary64
    operations of the Standard Library; [ln_1p], whose result Rust does not
    specify to the last bit, is a parameter.  A Rust panic is [None]. *)

From Stdlib Require Import ZArith Lia Strings.Byte SpecFloat.
From stdpp Require Import base gmap list.
From S2P Require Import Prelude Crypto Event Merkle Ledger Scoring.

(** ** [f64] *)

Abbreviation f64 := spec_float.

Definition f64_mul : f64 -> f64 -> f64 := SFmul 53 1024.
Definition f64_add : f64 -> f64 -> f64 := SFadd 53 1024.
Definition f64_sub : f64 -> f64 -> f64 := SFsub 53 1024.
Definition f64_div : f64 -> f64 -> f64 := SFdiv 53 1024.

(** [z as f64], rounded to nearest even. *)
Definition f64_of (z : Z) : f64 := binary_normalize 53 1024 z 0 false.

Definition f64_zero : f64 := S754_zero false.
Definition f64_one : f64 := f64_of 1.

(** A decimal literal [n / d] is the nearest [f64]. *)
Definition f64_lit (n d : Z) : f64 := f64_div (f64_of n) (f64_of d).

(** [f64::clamp(0.0, 1.0)]; NaN stays NaN. *)
Definition clamp01 (x : f64) : f64 :=
  if SFltb x f64_zero then f64_zero else if SFltb f64_one x then f64_one else x.

Definition i64_min : Z := - 2 ^ 63.
Definition i64_max : Z := 2 ^ 63 - 1.

(** [x.round() as i64]: half away from zero, then the saturating cast, which
    sends NaN to zero. *)
Definition round_to_i64 (x : f64) : Z :=
  match x with
  | S754_zero _ | S754_nan => 0
  | S754_infinity s => if s then i64_min else i64_max
  | S754_finite s m e =>
      let a := if 0 <=? e then Z.pos m * 2 ^ e
               else (Z.pos m + 2 ^ (- e - 1)) / 2 ^ (- e) in
      Z.max i64_min (Z.min i64_max (if s then - a else a))
  end.

(** [u64 as i64] wraps. *)
Definition u64_as_i64 (z : Z) : Z := if z <=? i64_max then z else z - 2 ^ 64.

(** [Ord::clamp] on [i64] panics when the bounds are out of order. *)
Definition i64_clamp (x lo hi : Z) : option Z :=
  if hi <? lo then None else Some (Z.max lo (Z.min x hi)).

(** ** Configuration and state *)

Inductive EquivocationPolicy := Quarantine | Slash.

#[global] Instance EquivocationPolicy_eq_dec : EqDecision EquivocationPolicy.
Proof. solve_decision. Defined.

Record SybilConfig := mkSybilConfig {
  warmup_ticks : Z;
  quarantine_ticks : Z;
  policy : EquivocationPolicy;
  fixed_point_scale : Z;
  max_link_walk : nat;
  slash_percent : Z;
}.

Definition SybilConfig_default : SybilConfig := mkSybilConfig 8 16 Quarantine 1000 4096 5.

Record AuthorState := mkAuthorState {
  first_seen_tick : Z;
  seen_by : gset Z;
  last_tip : option Hash;
  quarantined_until : Z;
  slashed_weight : Z;
}.

Definition AuthorState_new (first_seen : Z) : AuthorState := mkAuthorState first_seen ∅ None 0 0.

Record TraceRow := mkTraceRow {
  tr_prev_hash : Hash;
  tr_author : PublicKey;
  tr_timestamp : Z;
  tr_payload_hash : Hash;
  tr_signature : Signature;
  tr_parent_present : bool;
  tr_ancestor_check : bool;
  tr_quarantined_until_before : Z;
  tr_quarantined_until_after : Z;
  tr_merkle_root : option Hash;
  tr_preferred_tip : option Hash;
  tr_author_weight_fp : Z;
}.

Record TraceRecorder := mkTraceRecorder { rows : list TraceRow }.

Definition TraceRecorder_new : TraceRecorder := mkTraceRecorder [].
Definition trace_push (r : TraceRecorder) (row : TraceRow) : TraceRecorder :=
  mkTraceRecorder (rows r ++ [row]).
Definition trace_clear (r : TraceRecorder) : TraceRecorder := mkTraceRecorder [].
Definition trace_len (r : TraceRecorder) : nat := length (rows r).

(** The recorder an overlay points to, if one is attached, is part of its
    state. *)
Record SybilOverlay := mkSybilOverlay {
  cfg : SybilConfig;
  authors_map : gmap PublicKey AuthorState;
  trace_recorder : option TraceRecorder;
}.

Definition SybilOverlay_new (c : SybilConfig) : SybilOverlay := mkSybilOverlay c ∅ None.

Definition attach_trace_recorder (o : SybilOverlay) (r : option TraceRecorder) : SybilOverlay :=
  mkSybilOverlay (cfg o) (authors_map o) r.

Definition apply_quarantine_and_slash (st : AuthorState) (tick quarantine : Z) (c : SybilConfig)
    : AuthorState :=
  let until := saturating_add tick quarantine in
  let st := mkAuthorState (first_seen_tick st) (seen_by st) (last_tip st)
              (Z.max (quarantined_until st) until) (slashed_weight st) in
  if decide (policy c = Slash) then
    let slash_amount := wrap64 (fixed_point_scale c * slash_percent c) / 100 in
    mkAuthorState (first_seen_tick st) (seen_by st) (last_tip st) (quarantined_until st)
      (Z.min (saturating_add (slashed_weight st) slash_amount) (fixed_point_scale c))
  else st.

Section overlay.
Context `{Sha256} `{HashIter} (ln_1p : f64 -> f64).

(** ** Weights *)

Definition author_warmup (o : SybilOverlay) (tick : Z) (st : AuthorState) : f64 :=
  let age := saturating_sub tick (first_seen_tick st) in
  let t := f64_of (Z.max (warmup_ticks (cfg o)) 1) in
  let age_term := clamp01 (f64_div (f64_of age) t) in
  let seen := f64_of (Z.of_nat (size (seen_by st))) in
  let seen_term :=
    if SFleb seen f64_zero then f64_zero
    else clamp01 (f64_div (ln_1p seen) (ln_1p (f64_of 8))) in
  clamp01 (f64_add (f64_mul (f64_lit 65 100) age_term) (f64_mul (f64_lit 35 100) seen_term)).

Definition author_weight (o : SybilOverlay) (tick : Z) (author : PublicKey) : f64 :=
  match authors_map o !! author with
  | None => f64_zero
  | Some st =>
      if tick <? quarantined_until st then f64_zero
      else
        let base_weight := clamp01 (author_warmup o tick st) in
        let penalty := clamp01 (f64_div (f64_of (slashed_weight st))
                                        (f64_of (fixed_point_scale (cfg o)))) in
        clamp01 (f64_mul base_weight (f64_sub f64_one penalty))
  end.

(** [author_weight_fp]; [None] is the panic of [clamp] on a scale that does not
    fit [i64]. *)
Definition author_weight_fp (o : SybilOverlay) (tick : Z) (author : PublicKey) : option Z :=
  let scale := fixed_point_scale (cfg o) in
  i64_clamp (round_to_i64 (f64_mul (author_weight o tick author) (f64_of scale)))
    0 (u64_as_i64 scale).

(** ** Preference *)

(** One turn of the loop of [score_chain_latest_per_author_sybil_fp]. *)
Definition sybil_step (o : SybilOverlay) (tick : Z) (ledger : Ledger)
    (acc : option (gset PublicKey * Z)) (h : Hash) : option (gset PublicKey * Z) :=
  match acc with
  | None => None
  | Some (seen, s) =>
      match get_event ledger h with
      | Some e =>
          if decide (ev_author e ∈ seen) then Some (seen, s)
          else
            match author_weight_fp o tick (ev_author e) with
            | None => None
            | Some w => Some ({[ev_author e]} ∪ seen, saturating_add s w)
            end
      | None => Some (seen, s)
      end
  end.

Definition score_chain_latest_per_author_sybil_fp (ledger : Ledger) (chain : Chain)
    (o : SybilOverlay) (tick : Z) : option Chain :=
  match foldl (sybil_step o tick ledger) (Some (∅, 0)) (reverse (ch_hashes chain)) with
  | None => None
  | Some (_, s_fp) => Some (mkChain (ch_hashes chain) s_fp)
  end.

(** The loop over the tips of [select_preferred_tip_score_sybil]. *)
Fixpoint sybil_select (o : SybilOverlay) (tick : Z) (ledger : Ledger) (max_steps : nat)
    (best : option (Hash * Chain)) (tips : list Hash) : option (option (Hash * Chain)) :=
  match tips with
  | [] => Some best
  | tip :: rest =>
      match score_chain_latest_per_author_sybil_fp ledger
              (build_chain_from_tip ledger tip max_steps) o tick with
      | None => None
      | Some c => sybil_select o tick ledger max_steps (select_step (fun _ => c) best tip) rest
      end
  end.

Definition select_preferred_tip_score_sybil (ledger : Ledger) (o : SybilOverlay) (tick : Z)
    (max_steps : nat) : option (option (Hash * Z)) :=
  let tips := get_tips ledger in
  if decide (tips = ∅) then Some None
  else
    match sybil_select o tick ledger max_steps None (set_iter tips) with
    | None => None
    | Some best => Some ((fun '(t, c) => (t, ch_score c)) <$> best)
    end.

(** ** Observing an event *)

(** Whether the author's new event is linked to its last one. *)
Definition linked_to_last (ledger : Ledger) (max_walk : nat) (last : option Hash) (tip : Hash) : bool :=
  match last with
  | Some prev =>
      if decide (prev <> tip) then
        is_ancestor_by_walk ledger prev tip max_walk || is_ancestor_by_walk ledger tip prev max_walk
      else true
  | None => true
  end.

(** The part of [observe_event] that updates the author. *)
Definition observe_author (o : SybilOverlay) (ledger : Ledger) (tick observer_node : Z)
    (tip : Hash) (st : AuthorState) : AuthorState :=
  let linked := linked_to_last ledger (max_link_walk (cfg o)) (last_tip st) tip in
  let st := mkAuthorState (first_seen_tick st) ({[observer_node]} ∪ seen_by st) (last_tip st)
              (quarantined_until st) (slashed_weight st) in
  let st := if linked then st
            else apply_quarantine_and_slash st tick (quarantine_ticks (cfg o)) (cfg o) in
  mkAuthorState (first_seen_tick st) (seen_by st) (Some tip) (quarantined_until st)
    (slashed_weight st).

Definition observe_event (o : SybilOverlay) (ledger : Ledger) (tick observer_node : Z)
    (ev : Event) (event_hash : Hash) : option SybilOverlay :=
  let author := ev_author ev in
  let st0 := default (AuthorState_new tick) (authors_map o !! author) in
  let st := observe_author o ledger tick observer_node event_hash st0 in
  let o' := mkSybilOverlay (cfg o) (<[author := st]> (authors_map o)) (trace_recorder o) in
  match trace_recorder o with
  | None => Some o'
  | Some rec =>
      let parent_present := bool_decide (ev_prev_hash ev = ZERO_HASH)
                            || bool_decide (is_Some (get_event ledger (ev_prev_hash ev))) in
      match author_weight_fp o' tick author,
            select_preferred_tip_score_sybil ledger o' tick (max_link_walk (cfg o)) with
      | Some weight, Some pref =>
          let row := mkTraceRow (ev_prev_hash ev) author (ev_timestamp ev) (ev_payload_hash ev)
            (ev_signature ev) parent_present
            (linked_to_last ledger (max_link_walk (cfg o)) (last_tip st0) event_hash)
            (quarantined_until st0) (quarantined_until st) (merkle_root ledger)
            (fst <$> pref) weight in
          Some (attach_trace_recorder o' (Some (trace_push rec row)))
      | _, _ => None
      end
  end.

(** A sequence of observations; each has the ledger as it was at its time. *)
Record Observation := mkObservation {
  ob_ledger : Ledger;
  ob_tick : Z;
  ob_node : Z;
  ob_event : Event;
  ob_hash : Hash;
}.

Definition observe (o : SybilOverlay) (b : Observation) : option SybilOverlay :=
  observe_event o (ob_ledger b) (ob_tick b) (ob_node b) (ob_event b) (ob_hash b).

Fixpoint observe_all (o : SybilOverlay) (bs : list Observation) : option SybilOverlay :=
  match bs with
  | [] => Some o
  | b :: rest => match observe o b with Some o' => observe_all o' rest | None => None end
  end.

(** ** Weights never panic on a scale that fits [i64] *)

Definition scale_ok (o : SybilOverlay) : Prop := 0 <= fixed_point_scale (cfg o) <= i64_max.

(** The weight a score uses. *)
Definition weight_of (o : SybilOverlay) (tick : Z) (a : PublicKey) : Z :=
  default 0 (author_weight_fp o tick a).

Lemma author_weight_fp_clamp o tick a :
  scale_ok o ->
  author_weight_fp o tick a
  = Some (Z.max 0 (Z.min (round_to_i64 (f64_mul (author_weight o tick a)
                                         (f64_of (fixed_point_scale (cfg o)))))
                         (fixed_point_scale (cfg o)))).
Proof.
  intros [H1 H2]. unfold author_weight_fp, u64_as_i64, i64_clamp.
  rewrite (proj2 (Z.leb_le _ _) H2), (proj2 (Z.ltb_ge _ _)) by lia. done.
Qed.

Lemma author_weight_fp_some o tick a :
  scale_ok o -> author_weight_fp o tick a = Some (weight_of o tick a).
Proof. intros H1. unfold weight_of. by rewrite author_weight_fp_clamp. Qed.

Lemma weight_of_range o tick a :
  scale_ok o -> 0 <= weight_of o tick a <= fixed_point_scale (cfg o).
Proof. intros Hs. unfold weight_of. rewrite author_weight_fp_clamp by done. simpl. destruct Hs. lia. Qed.

Lemma sybil_score_latest o tick ledger chain :
  scale_ok o ->
  score_chain_latest_per_author_sybil_fp ledger chain o tick
  = Some (score_latest_per_author ledger (weight_of o tick) chain).
Proof.
  intros Hs. unfold score_chain_latest_per_author_sybil_fp, score_latest_per_author.
  generalize (∅ : gset PublicKey, 0) as acc. induction (reverse (ch_hashes chain)) as [|h l IH];
    intros [seen s]; cbn [foldl]; [done|].
  unfold sybil_step at 2, latest_step at 2. destruct (get_event ledger h) as [e|]; [|apply IH].
  case_decide; [apply IH|]. rewrite author_weight_fp_some by done. apply IH.
Qed.

Lemma sybil_select_fold o tick ledger n best tips :
  scale_ok o ->
  sybil_select o tick ledger n best tips
  = Some (foldl (select_step (fun tip =>
      score_latest_per_author ledger (weight_of o tick) (build_chain_from_tip ledger tip n))) best tips).
Proof.
  intros Hs. revert best. induction tips as [|t tips IH]; intros best; [done|].
  cbn [sybil_select foldl]. rewrite sybil_score_latest by done. apply IH.
Qed.

(** The selection is the one of the other policies, with the overlay's
    weights. *)
Lemma select_sybil_tip o tick ledger n :
  scale_ok o ->
  select_preferred_tip_score_sybil ledger o tick n
  = Some ((fun '(t, c) => (t, ch_score c)) <$> select_tip ledger (fun tip =>
      score_latest_per_author ledger (weight_of o tick) (build_chain_from_tip ledger tip n))).
Proof.
  intros Hs. unfold select_preferred_tip_score_sybil, select_tip.
  case_decide; [done|]. by rewrite sybil_select_fold.
Qed.

(** ** The effect of one observation *)

Definition author_before (o : SybilOverlay) (b : Observation) : AuthorState :=
  default (AuthorState_new (ob_tick b)) (authors_map o !! ev_author (ob_event b)).

Definition author_after (o : SybilOverlay) (b : Observation) : AuthorState :=
  observe_author o (ob_ledger b) (ob_tick b) (ob_node b) (ob_hash b) (author_before o b).

(** The observation is of an event the author's last one is not linked to. *)
Definition equivocates (o : SybilOverlay) (b : Observation) : bool :=
  negb (linked_to_last (ob_ledger b) (max_link_walk (cfg o)) (last_tip (author_before o b)) (ob_hash b)).

(** What the row recorded for [b] says, when [b] takes [o] to [o']. *)
Record row_of (o o' : SybilOverlay) (b : Observation) (row : TraceRow) : Prop := {
  row_event : Event_from_raw (ev_version (ob_event b)) (tr_prev_hash row) (tr_author row)
                (tr_timestamp row) (tr_payload_hash row) (tr_signature row) = ob_event b;
  row_root : tr_merkle_root row = merkle_root (ob_ledger b);
  row_tip : Some (tr_preferred_tip row)
            = option_map (fmap fst) (select_preferred_tip_score_sybil (ob_ledger b) o' (ob_tick b)
                                 (max_link_walk (cfg o)));
  row_weight : tr_author_weight_fp row = weight_of o' (ob_tick b) (ev_author (ob_event b));
  row_check : tr_ancestor_check row = negb (equivocates o b);
  row_before : tr_quarantined_until_before row = quarantined_until (author_before o b);
  row_after : tr_quarantined_until_after row = quarantined_until (author_after o b);
  row_parent : tr_parent_present row = bool_decide (ev_prev_hash (ob_event b) = ZERO_HASH)
    || bool_decide (is_Some (get_event (ob_ledger b) (ev_prev_hash (ob_event b))));
}.

Lemma observe_total o b :
  scale_ok o ->
  exists o', observe o b = Some o' /\ cfg o' = cfg o /\
    authors_map o' = <[ev_author (ob_event b) := author_after o b]> (authors_map o) /\
    match trace_recorder o, trace_recorder o' with
    | None, None => True
    | Some r, Some r' => exists row, rows r' = rows r ++ [row] /\ row_of o o' b row
    | _, _ => False
    end.
Proof.
  intros Hs. unfold observe, observe_event. fold (author_before o b). fold (author_after o b).
  set (o1 := mkSybilOverlay (cfg o) _ _). destruct (trace_recorder o) as [r|] eqn:Er.
  - assert (scale_ok o1) as Hs1 by exact Hs.
    rewrite author_weight_fp_some, select_sybil_tip by done. eexists. split; [done|].
    simpl. split; [done|]. split; [done|]. eexists. split; [done|].
    constructor; try done.
    + by destruct b as [? ? ? [] ?].
    + rewrite select_sybil_tip by done. done.
    + unfold equivocates. rewrite negb_involutive. done.
  - eexists. split; [done|]. by simpl.
Qed.

Lemma observe_inv o b o' :
  scale_ok o -> observe o b = Some o' ->
  cfg o' = cfg o /\
  authors_map o' = <[ev_author (ob_event b) := author_after o b]> (authors_map o).
Proof. intros Hs E. destruct (observe_total o b Hs) as (? & E' & ? & ? & _). by simplify_eq. Qed.

Lemma author_after_quarantine o b :
  quarantined_until (author_after o b)
  = if equivocates o b
    then Z.max (quarantined_until (author_before o b))
           (saturating_add (ob_tick b) (quarantine_ticks (cfg o)))
    else quarantined_until (author_before o b).
Proof.
  unfold author_after, observe_author, equivocates. destruct (linked_to_last _ _ _ _); simpl; [done|].
  unfold apply_quarantine_and_slash. by case_decide.
Qed.

Lemma observe_all_ind (P : SybilOverlay -> Prop) o bs o' :
  (forall o b o', b ∈ bs -> scale_ok o -> P o -> observe o b = Some o' -> P o') ->
  scale_ok o -> P o -> observe_all o bs = Some o' -> P o'.
Proof.
  revert o. induction bs as [|b bs IH]; intros o Hstep Hs HP; cbn [observe_all].
  - by intros [= <-].
  - destruct (observe_total o b Hs) as (o1 & E & Hc & _). rewrite E. apply IH.
    + intros ????. apply Hstep. set_solver.
    + unfold scale_ok. by rewrite Hc.
    + by apply (Hstep o b); [set_solver| | |].
Qed.

Lemma observe_all_total o bs :
  scale_ok o -> exists o', observe_all o bs = Some o' /\ cfg o' = cfg o.
Proof.
  revert o. induction bs as [|b bs IH]; intros o Hs; [by exists o|]. cbn [observe_all].
  destruct (observe_total o b Hs) as (o1 & -> & Hc & _).
  destruct (IH o1) as (o2 & -> & Hc2); [unfold scale_ok; by rewrite Hc|].
  exists o2. split; [done|]. by rewrite Hc2.
Qed.

(** ** The type invariant *)

Definition u64_config (c : SybilConfig) : Prop :=
  is_u64 (warmup_ticks c) /\ is_u64 (quarantine_ticks c) /\ is_u64 (fixed_point_scale c) /\
  is_u64 (slash_percent c).

Record AuthorInv (c : SybilConfig) (st : AuthorState) : Prop := {
  author_first : is_u64 (first_seen_tick st);
  author_quarantine : is_u64 (quarantined_until st);
  author_slashed : 0 <= slashed_weight st <= fixed_point_scale c;
  author_tip : is_Some (last_tip st);
  author_seen : seen_by st <> ∅;
}.

Definition OverlayInv (o : SybilOverlay) : Prop :=
  map_Forall (fun _ => AuthorInv (cfg o)) (authors_map o).

Definition slash_amount (c : SybilConfig) : Z :=
  if decide (policy c = Slash) then wrap64 (fixed_point_scale c * slash_percent c) / 100 else 0.

Lemma slash_amount_range c : is_u64 (slash_amount c).
Proof.
  unfold slash_amount. case_decide; [|by unfold is_u64, u64_max].
  pose proof (wrap64_range (fixed_point_scale c * slash_percent c)) as R. unfold is_u64 in *.
  split; [apply Z.div_pos; lia|]. transitivity (wrap64 (fixed_point_scale c * slash_percent c)); [|lia].
  apply Z.div_le_upper_bound; lia.
Qed.

Lemma author_after_slashed o b :
  scale_ok o -> 0 <= slashed_weight (author_before o b) <= fixed_point_scale (cfg o) ->
  slashed_weight (author_after o b)
  = if equivocates o b
    then Z.min (fixed_point_scale (cfg o)) (slashed_weight (author_before o b) + slash_amount (cfg o))
    else slashed_weight (author_before o b).
Proof.
  intros [S1 S2] Hw. unfold author_after, observe_author, equivocates.
  destruct (linked_to_last _ _ _ _); simpl; [done|].
  unfold apply_quarantine_and_slash, slash_amount. case_decide; simpl; [|lia].
  unfold saturating_add, i64_max, u64_max in *. lia.
Qed.

Lemma author_before_inv o b :
  scale_ok o -> OverlayInv o -> is_u64 (ob_tick b) ->
  is_u64 (first_seen_tick (author_before o b)) /\ is_u64 (quarantined_until (author_before o b)) /\
  0 <= slashed_weight (author_before o b) <= fixed_point_scale (cfg o).
Proof.
  intros [S1 S2] Hinv Ht. unfold author_before.
  destruct (authors_map o !! _) as [st|] eqn:E; simpl.
  - by destruct (Hinv _ _ E).
  - split_and!; try done; unfold is_u64, u64_max; lia.
Qed.

Lemma author_after_inv o b :
  scale_ok o -> u64_config (cfg o) -> OverlayInv o -> is_u64 (ob_tick b) ->
  AuthorInv (cfg o) (author_after o b).
Proof.
  intros Hs (_ & Hq & _ & _) Hinv Ht. destruct (author_before_inv o b Hs Hinv Ht) as (H1 & H2 & H3).
  constructor.
  - unfold author_after, observe_author, apply_quarantine_and_slash.
    destruct (linked_to_last _ _ _ _); [done|]. by case_decide.
  - rewrite author_after_quarantine. destruct (equivocates o b); [|done].
    pose proof (saturating_add_range _ _ Ht Hq). unfold is_u64 in *. lia.
  - rewrite author_after_slashed by done.
    pose proof (slash_amount_range (cfg o)). unfold is_u64 in *. destruct (equivocates o b); lia.
  - by eexists.
  - unfold author_after, observe_author, apply_quarantine_and_slash.
    destruct (linked_to_last _ _ _ _); simpl; [set_solver|]. case_decide; simpl; set_solver.
Qed.

(** C26: whatever is observed, the overlay stays well typed.  From the empty
    overlay, any sequence of observations with [u64] ticks runs to its end
    without a panic when the scale fits [i64]; every author that was
    observed, and no other, has a state, whose counters fit [u64], whose
    penalty does not exceed the scale and whose last tip is set; and every
    weight is between 0 and the scale. *)
Theorem overlay_well_typed c bs :
  u64_config c -> fixed_point_scale c <= i64_max ->
  Forall (fun b => is_u64 (ob_tick b)) bs ->
  exists o, observe_all (SybilOverlay_new c) bs = Some o /\ cfg o = c /\ OverlayInv o /\
    (forall a, is_Some (authors_map o !! a) <-> a ∈ map (fun b => ev_author (ob_event b)) bs) /\
    forall tick a, exists w, author_weight_fp o tick a = Some w /\ 0 <= w <= fixed_point_scale c.
Proof.
  intros Hc Hsc Ht. assert (scale_ok (SybilOverlay_new c)) as Hs.
  { destruct Hc as (_ & _ & [? _] & _). by split. }
  cut (forall o0 done, scale_ok o0 -> cfg o0 = c -> OverlayInv o0 ->
    (forall a, is_Some (authors_map o0 !! a) <-> a ∈ done) ->
    exists o, observe_all o0 bs = Some o /\ cfg o = c /\ OverlayInv o /\
      forall a, is_Some (authors_map o !! a) <->
        a ∈ done ++ map (fun b => ev_author (ob_event b)) bs).
  { intros Hgen. destruct (Hgen (SybilOverlay_new c) [] Hs eq_refl) as (o & E & Hco & Hi & Hd).
    - apply map_Forall_empty.
    - intros a. cbn [SybilOverlay_new authors_map]. rewrite lookup_empty, elem_of_nil.
      split; [by intros [? ?]|done].
    - exists o. split_and!; try done. intros tick a. exists (weight_of o tick a).
      assert (scale_ok o) as Hso by (unfold scale_ok; by rewrite Hco).
      rewrite author_weight_fp_some by done. split; [done|]. rewrite <- Hco. by apply weight_of_range. }
  clear Hs. induction Ht as [|b bs Hb Ht IH]; intros o0 l Hs Hco Hi Hd.
  - exists o0. rewrite app_nil_r. by split_and!.
  - destruct (observe_total o0 b Hs) as (o1 & E & Hc1 & Hm & _). cbn [observe_all]. rewrite E.
    destruct (IH o1 (l ++ [ev_author (ob_event b)])) as (o & Eo & Hcf & Hio & Hdo).
    + unfold scale_ok. by rewrite Hc1.
    + congruence.
    + unfold OverlayInv. rewrite Hc1, Hm. apply map_Forall_insert_2; [|done].
      apply author_after_inv; try done. by rewrite Hco.
    + intros a. rewrite Hm, elem_of_app, list_elem_of_singleton, <- Hd, lookup_insert_is_Some'.
      naive_solver.
    + exists o. split_and!; try done. intros a. rewrite Hdo, <- app_assoc. done.
Qed.

(** ** Quarantine and penalty *)

Lemma round_mul_zero_l x s : round_to_i64 (f64_mul (S754_zero s) x) = 0.
Proof. by destruct x. Qed.

Lemma round_mul_nan_l x : round_to_i64 (f64_mul S754_nan x) = 0.
Proof. by destruct x. Qed.

Lemma weight_fp_of_zero o tick a :
  scale_ok o -> author_weight o tick a = f64_zero -> author_weight_fp o tick a = Some 0.
Proof.
  intros Hs E. rewrite author_weight_fp_clamp, E by done. unfold f64_zero. rewrite round_mul_zero_l.
  destruct Hs. f_equal. lia.
Qed.

(** [a] carries no weight before the tick [until]. *)
Definition quarantined_to (until : Z) (a : PublicKey) (o : SybilOverlay) : Prop :=
  exists st, authors_map o !! a = Some st /\ until <= quarantined_until st.

Lemma quarantined_to_weight until a o tick :
  scale_ok o -> quarantined_to until a o -> tick < until -> author_weight_fp o tick a = Some 0.
Proof.
  intros Hs (st & E & Hu) Ht. apply weight_fp_of_zero; [done|]. unfold author_weight. rewrite E.
  by rewrite (proj2 (Z.ltb_lt _ _)) by lia.
Qed.

Lemma quarantined_to_observe until a o b o' :
  scale_ok o -> quarantined_to until a o -> observe o b = Some o' -> quarantined_to until a o'.
Proof.
  intros Hs (st & E & Hu) Ho. destruct (observe_inv _ _ _ Hs Ho) as [_ Hm]. unfold quarantined_to.
  rewrite Hm. destruct (decide (ev_author (ob_event b) = a)) as [<-|Hne].
  - rewrite lookup_insert_eq. eexists. split; [done|]. rewrite author_after_quarantine.
    unfold author_before. rewrite E. simpl. destruct (equivocates o b); lia.
  - rewrite lookup_insert_ne by done. by exists st.
Qed.

(** C16: an equivocation is punished at once and the punishment is never
    lifted early: after an author is seen on an event that neither descends
    from nor is an ancestor of its last one, its fixed-point weight is zero
    at every tick before the observation's tick plus the quarantine, whatever
    else is observed in between, of this author or of others. *)
Theorem equivocation_quarantines o b bs :
  scale_ok o -> equivocates o b = true ->
  exists o', observe_all o (b :: bs) = Some o' /\
    forall tick, tick < saturating_add (ob_tick b) (quarantine_ticks (cfg o)) ->
      author_weight_fp o' tick (ev_author (ob_event b)) = Some 0.
Proof.
  intros Hs Hq. destruct (observe_all_total o (b :: bs) Hs) as (o' & E & Hc).
  exists o'. split; [done|]. intros tick Ht.
  destruct (observe_total o b Hs) as (o1 & E1 & Hc1 & Hm1 & _). cbn [observe_all] in E. rewrite E1 in E.
  assert (scale_ok o1) as Hs1 by (unfold scale_ok; by rewrite Hc1).
  eapply quarantined_to_weight; [unfold scale_ok; by rewrite Hc| |exact Ht].
  eapply (observe_all_ind (quarantined_to _ _)); [|exact Hs1| |exact E].
  - intros ? ? ? _. apply quarantined_to_observe.
  - exists (author_after o b). rewrite Hm1, lookup_insert_eq. split; [done|].
    rewrite author_after_quarantine, Hq. lia.
Qed.

Lemma f64_div_self s m e : f64_div (S754_finite s m e) (S754_finite s m e) = f64_one.
Proof.
  unfold f64_div, SFdiv, SFdiv_core_binary. rewrite xorb_nilpotent, !Z.sub_diag.
  change (Z.min (fexp 53 1024 0) 0) with (-53). cbv zeta. change (0 - -53) with 53.
  cbv iota beta. assert (Z.div_eucl (Z.shiftl (Z.pos m) 53) (Z.pos m) = (2 ^ 53, 0)) as ->.
  { rewrite (surjective_pairing (Z.div_eucl _ _)).
    change (fst (Z.div_eucl ?a ?b)) with (a / b). change (snd (Z.div_eucl ?a ?b)) with (a mod b).
    rewrite Z.shiftl_mul_pow2 by lia.
    rewrite (Z.mul_comm (Z.pos m)), Z.div_mul, Z.mod_mul by lia. done. }
  assert (new_location (Z.pos m) 0 = loc_Exact) as -> by (unfold new_location; by destruct (Z.even _)).
  vm_compute. done.
Qed.

(** A penalty as large as the scale leaves no weight, even where the division
    is not a number. *)
Lemma full_penalty_weight o tick a st :
  scale_ok o -> authors_map o !! a = Some st -> slashed_weight st = fixed_point_scale (cfg o) ->
  author_weight_fp o tick a = Some 0.
Proof.
  intros Hs E Es. rewrite author_weight_fp_clamp by done. unfold author_weight. rewrite E, Es.
  assert (forall z, round_to_i64 z = 0 ->
    Some (Z.max 0 (Z.min (round_to_i64 z) (fixed_point_scale (cfg o)))) = Some 0) as Hz.
  { intros z ->. destruct Hs. f_equal. lia. }
  apply Hz. destruct (tick <? quarantined_until st); [apply round_mul_zero_l|].
  set (x := f64_of (fixed_point_scale (cfg o))). set (w := clamp01 (author_warmup o tick st)).
  assert (f64_sub f64_one (clamp01 (f64_div x x)) = f64_zero \/
          f64_sub f64_one (clamp01 (f64_div x x)) = S754_nan) as [-> | ->].
  { destruct x as [s|s| |s m e]; [by right..|]. left. rewrite f64_div_self. vm_compute. done. }
  - destruct w as [s|[]| |s m e]; try apply round_mul_nan_l; apply round_mul_zero_l.
  - destruct w as [s|[]| |s m e]; apply round_mul_nan_l.
Qed.

Definition slashed_of (o : SybilOverlay) (a : PublicKey) : Z :=
  default 0 (slashed_weight <$> authors_map o !! a).

(** How many of the observations are equivocations of [a]. *)
Fixpoint equivocations (o : SybilOverlay) (a : PublicKey) (bs : list Observation) : Z :=
  match bs with
  | [] => 0
  | b :: rest =>
      (if bool_decide (ev_author (ob_event b) = a) && equivocates o b then 1 else 0)
      + match observe o b with Some o' => equivocations o' a rest | None => 0 end
  end.

Lemma equivocations_nonneg o a bs : 0 <= equivocations o a bs.
Proof.
  revert o. induction bs as [|b bs IH]; intros o; cbn [equivocations]; [lia|].
  destruct (observe o b) as [o'|]; [specialize (IH o')|]; destruct (_ && _); lia.
Qed.

Lemma slashed_before o b : slashed_weight (author_before o b) = slashed_of o (ev_author (ob_event b)).
Proof. unfold author_before, slashed_of. by destruct (authors_map o !! _). Qed.

Lemma slashed_observe o b o' a :
  scale_ok o -> 0 <= slashed_of o a <= fixed_point_scale (cfg o) -> observe o b = Some o' ->
  slashed_of o' a
  = Z.min (fixed_point_scale (cfg o)) (slashed_of o a
      + (if bool_decide (ev_author (ob_event b) = a) && equivocates o b then 1 else 0)
        * slash_amount (cfg o)).
Proof.
  intros Hs Hr E. destruct (observe_inv _ _ _ Hs E) as [_ Hm]. unfold slashed_of at 1. rewrite Hm.
  destruct (decide (ev_author (ob_event b) = a)) as [<-|Hne].
  - rewrite lookup_insert_eq, bool_decide_true by done.
    change (default 0 (slashed_weight <$> Some ?x)) with (slashed_weight x).
    rewrite author_after_slashed by (by rewrite ?slashed_before). rewrite slashed_before.
    destruct (equivocates o b); cbn [andb]; lia.
  - rewrite lookup_insert_ne, bool_decide_false by done. fold (slashed_of o a). cbn [andb]. lia.
Qed.

(** The economic penalty is cumulative and capped: after a run the
    author's penalty is its old one plus the slash amount of the
    configuration for each of its equivocations, at most the scale; and when
    the cap is reached the author's weight is zero at every tick, for ever. *)
Theorem slashing_is_cumulative o a bs :
  scale_ok o -> 0 <= slashed_of o a <= fixed_point_scale (cfg o) ->
  exists o', observe_all o bs = Some o' /\
    slashed_of o' a = Z.min (fixed_point_scale (cfg o))
                        (slashed_of o a + equivocations o a bs * slash_amount (cfg o)) /\
    (is_Some (authors_map o' !! a) ->
     fixed_point_scale (cfg o) <= slashed_of o a + equivocations o a bs * slash_amount (cfg o) ->
     forall tick, author_weight_fp o' tick a = Some 0).
Proof.
  intros Hs Hr. destruct (observe_all_total o bs Hs) as (o' & E & Hc). exists o'. split; [done|].
  assert (slashed_of o' a = Z.min (fixed_point_scale (cfg o))
    (slashed_of o a + equivocations o a bs * slash_amount (cfg o))) as Heq.
  - clear Hc. pose proof (slash_amount_range (cfg o)) as [Hamt _]. revert o Hs Hr E Hamt.
    induction bs as [|b bs IH]; intros o Hs Hr E Hamt; cbn [observe_all equivocations] in *.
    + injection E as <-. lia.
    + destruct (observe_total o b Hs) as (o1 & E1 & Hc1 & _). rewrite E1 in *.
      pose proof (slashed_observe o b o1 a Hs Hr E1) as H1.
      pose proof (equivocations_nonneg o1 a bs).
      rewrite (IH o1); rewrite ?Hc1; try done.
      * rewrite H1. destruct (_ && _); nia.
      * unfold scale_ok. by rewrite Hc1.
      * rewrite H1. destruct (_ && _); nia.
  - split; [done|]. intros [st Est] Hge tick. apply (full_penalty_weight _ _ _ st); try done.
    + unfold scale_ok. by rewrite Hc.
    + unfold slashed_of in Heq at 1. rewrite Est in Heq. simpl in Heq. rewrite Hc. lia.
Qed.

(** ** Tracing *)

(** Rows and overlays along a run. *)
Inductive recorded : SybilOverlay -> list Observation -> list TraceRow -> SybilOverlay -> Prop :=
| recorded_nil o : recorded o [] [] o
| recorded_cons o b o1 row bs new o2 :
    observe o b = Some o1 -> row_of o o1 b row -> recorded o1 bs new o2 ->
    recorded o (b :: bs) (row :: new) o2.

Lemma observe_recorded o bs rec :
  scale_ok o -> trace_recorder o = Some rec ->
  exists o' new, observe_all o bs = Some o' /\ recorded o bs new o' /\
    trace_recorder o' = Some (mkTraceRecorder (rows rec ++ new)).
Proof.
  revert o rec. induction bs as [|b bs IH]; intros o rec Hs Hr; cbn [observe_all].
  - exists o, []. rewrite app_nil_r. destruct rec. split_and!; [done|constructor|done].
  - destruct (observe_total o b Hs) as (o1 & E & Hc & Hm & Ht). rewrite Hr in Ht. rewrite E.
    destruct (trace_recorder o1) as [rec1|] eqn:Er1; [|done]. destruct Ht as (row & Erow & Hrow).
    destruct (IH o1 rec1) as (o2 & new & E2 & Hn & Er2); [unfold scale_ok; by rewrite Hc|done|].
    exists o2, (row :: new). split_and!; [done|by econstructor|]. by rewrite Er2, Erow, <- app_assoc.
Qed.

Lemma observe_same_authors o1 o2 b o1' o2' :
  scale_ok o1 -> cfg o1 = cfg o2 -> authors_map o1 = authors_map o2 ->
  observe o1 b = Some o1' -> observe o2 b = Some o2' ->
  cfg o1' = cfg o2' /\ authors_map o1' = authors_map o2'.
Proof.
  intros Hs Hc Hm E1 E2. assert (scale_ok o2) as Hs2 by (unfold scale_ok; by rewrite <- Hc).
  destruct (observe_inv _ _ _ Hs E1) as [-> ->]. destruct (observe_inv _ _ _ Hs2 E2) as [-> ->].
  split; [done|]. unfold author_after, observe_author, author_before. by rewrite Hc, Hm.
Qed.

(** C34: recording is transparent: with a recorder attached a run of
    observations ends in the same author states as without one, and the
    recorder gains exactly one row per observation, in order, each describing
    its event, the ledger's root, the preferred tip, the author's weight and
    the quarantine before and after. *)
Theorem tracing_transparent o bs rec :
  scale_ok o ->
  exists o1 o2 new,
    observe_all (attach_trace_recorder o None) bs = Some o1 /\
    observe_all (attach_trace_recorder o (Some rec)) bs = Some o2 /\
    authors_map o1 = authors_map o2 /\ cfg o1 = cfg o2 /\
    trace_recorder o2 = Some (mkTraceRecorder (rows rec ++ new)) /\
    length new = length bs /\
    recorded (attach_trace_recorder o (Some rec)) bs new o2.
Proof.
  intros Hs. destruct (observe_recorded (attach_trace_recorder o (Some rec)) bs rec Hs eq_refl)
    as (o2 & new & E2 & Hn & Er).
  destruct (observe_all_total (attach_trace_recorder o None) bs Hs) as (o1 & E1 & _).
  exists o1, o2, new. enough (cfg o1 = cfg o2 /\ authors_map o1 = authors_map o2) as [Hc Hm].
  { split_and!; try done. clear -Hn. induction Hn; simpl; congruence. }
  clear Er Hn. assert (cfg (attach_trace_recorder o None) = cfg (attach_trace_recorder o (Some rec)) /\
    authors_map (attach_trace_recorder o None) = authors_map (attach_trace_recorder o (Some rec)))
    as [Hc Hm] by done. revert Hs E1 E2 Hc Hm.
  change (scale_ok o) with (scale_ok (attach_trace_recorder o None)).
  generalize (attach_trace_recorder o None) as p1, (attach_trace_recorder o (Some rec)) as p2.
  induction bs as [|b bs IH]; intros p1 p2 Hs; cbn [observe_all]; [by intros [= <-] [= <-]|].
  intros E1 E2 Hc Hm. destruct (observe p1 b) as [q1|] eqn:F1; [|done].
  destruct (observe p2 b) as [q2|] eqn:F2; [|done].
  destruct (observe_same_authors _ _ _ _ _ Hs Hc Hm F1 F2) as [Hc' Hm'].
  apply (IH q1 q2); try done. destruct (observe_inv _ _ _ Hs F1) as [Hq _]. unfold scale_ok. by rewrite Hq.
Qed.

(** A scale beyond [i64] makes every weight, and every recorded observation,
    panic; no other scale does. *)
Theorem weight_panics_iff o tick a :
  is_u64 (fixed_point_scale (cfg o)) ->
  author_weight_fp o tick a = None <-> i64_max < fixed_point_scale (cfg o).
Proof.
  intros Hu. destruct (Z.leb_spec (fixed_point_scale (cfg o)) i64_max) as [Hle|Hgt].
  - destruct Hu. rewrite author_weight_fp_clamp by done. split; [done|lia].
  - split; [done|]. intros _. unfold author_weight_fp, u64_as_i64, i64_clamp.
    rewrite (proj2 (Z.leb_gt _ _) Hgt), (proj2 (Z.ltb_lt _ _)); [done|].
    unfold is_u64, u64_max in Hu. lia.
Qed.

End overlay.

(** The preferred tip under the overlay's weights does not depend on the
    iteration order either. *)
Theorem sybil_tip_deterministic `{Sha256} (I1 I2 : HashIter) ln_1p o tick ledger n :
  scale_ok o ->
  select_preferred_tip_score_sybil (H0 := I1) ln_1p ledger o tick n
  = select_preferred_tip_score_sybil (H0 := I2) ln_1p ledger o tick n.
Proof.
  intros Hs. rewrite !select_sybil_tip by done. by rewrite (select_tip_order I1 I2).
Qed.

(** ** Witnesses *)

Section witness.
Import Toy.

#[local] Instance elements_iter : HashIter :=
  {| set_iter := elements; set_iter_perm := fun X => reflexivity _ |}.

Definition demo_ln : f64 -> f64 := fun x => x.

Definition demo_fork : Event :=
  Event_new (hash_event demo_genesis) demo_author 3 (replicate 32 x03) (replicate 64 x00).

Definition demo_ledger3 : Ledger := fst (add_event demo_ledger2 demo_fork).

Definition demo_config : SybilConfig := mkSybilConfig 8 16 Slash 1000 64 60.

Definition see_child : Observation :=
  mkObservation demo_ledger3 5 1 demo_child (hash_event demo_child).
Definition see_fork : Observation :=
  mkObservation demo_ledger3 6 2 demo_fork (hash_event demo_fork).

(** The overlay that has seen the first child. *)
Definition demo_overlay : SybilOverlay :=
  mkSybilOverlay demo_config
    {[demo_author := mkAuthorState 5 {[1]} (Some (hash_event demo_child)) 0 0]} None.

Lemma demo_overlay_seen : observe demo_ln (SybilOverlay_new demo_config) see_child = Some demo_overlay.
Proof. vm_compute. reflexivity. Qed.

Lemma overlay_well_typed_witness :
  exists o, observe_all demo_ln (SybilOverlay_new demo_config) [see_child; see_fork] = Some o /\
    OverlayInv o.
Proof.
  destruct (overlay_well_typed demo_ln demo_config [see_child; see_fork]) as (o & E & _ & Hi & _).
  - unfold u64_config, is_u64, u64_max. simpl. lia.
  - unfold i64_max. simpl. lia.
  - repeat constructor; unfold u64_max; simpl; lia.
  - by exists o.
Defined.

Lemma equivocation_quarantines_witness :
  exists o', observe_all demo_ln demo_overlay [see_fork; see_child] = Some o' /\
    author_weight_fp demo_ln o' 21 demo_author = Some 0.
Proof.
  destruct (equivocation_quarantines demo_ln demo_overlay see_fork [see_child]) as (o' & E & Hw).
  - unfold scale_ok, i64_max. simpl. lia.
  - vm_compute. reflexivity.
  - exists o'. split; [done|]. apply Hw. vm_compute. reflexivity.
Defined.

(** Two equivocations at 60 % each use up the whole weight. *)
Lemma slashing_is_cumulative_witness :
  exists o', observe_all demo_ln demo_overlay [see_fork; see_child] = Some o' /\
    slashed_of o' demo_author = 1000.
Proof.
  destruct (slashing_is_cumulative demo_ln demo_overlay demo_author [see_fork; see_child])
    as (o' & E & Hs & _).
  - unfold scale_ok, i64_max. simpl. lia.
  - vm_compute. split; discriminate.
  - exists o'. split; [done|]. rewrite Hs. vm_compute. reflexivity.
Defined.

Lemma tracing_transparent_witness :
  exists o1 o2,
    observe_all demo_ln (attach_trace_recorder demo_overlay None) [see_fork] = Some o1 /\
    observe_all demo_ln (attach_trace_recorder demo_overlay (Some TraceRecorder_new)) [see_fork]
      = Some o2 /\ authors_map o1 = authors_map o2.
Proof.
  destruct (tracing_transparent demo_ln demo_overlay [see_fork] TraceRecorder_new)
    as (o1 & o2 & new & E1 & E2 & Hm & _).
  - unfold scale_ok, i64_max. simpl. lia.
  - exact (ex_intro _ o1 (ex_intro _ o2 (conj E1 (conj E2 Hm)))).
Defined.

End witness.
