(* ===== verification/TraceCheck.v ===== *)
(** * The trace checker (src/rust-core/src/trace_check.rs)

    Replaying a merged trace: every row's event is parsed, validated and linked
    into a fresh ledger and observed by a fresh overlay, and the row's claims
    are compared with the replay.  The document is the value [serde] builds
    from the JSON text.  The struct literal of the configuration does not give
    [slash_percent] (the module does not compile with the crate's
    [SybilConfig]); it is an argument here, and no result depends on it. *)

From Stdlib Require Import ZArith Lia Strings.Byte.
From stdpp Require Import base gmap list.
From S2P Require Import Prelude Crypto Event Merkle Ledger Validation Scoring Overlay.

(** ** The document *)

Record SybilConfigSerde := mkSybilConfigSerde {
  scs_warmup_ticks : Z;
  scs_quarantine_ticks : Z;
  scs_fixed_point_scale : Z;
  scs_max_link_walk : nat;
}.

Definition SybilConfig_from (slash_percent : Z) (s : SybilConfigSerde) : SybilConfig :=
  mkSybilConfig (scs_warmup_ticks s) (scs_quarantine_ticks s) Quarantine
    (scs_fixed_point_scale s) (scs_max_link_walk s) slash_percent.

Record TraceHeader := mkTraceHeader {
  th_protocol_version : byte;
  th_max_backward_skew : Z;
  th_max_pending_total : Z;
  th_max_drain_steps : Z;
  th_sybil_config : SybilConfigSerde;
  th_final_merkle_root : option Str;
  th_sources : list Str;
}.

Record TraceRowSerde := mkTraceRowSerde {
  rs_node_id : Z;
  rs_row_index : nat;
  rs_prev_hash : Str;
  rs_author : Str;
  rs_timestamp : Z;
  rs_payload_hash : Str;
  rs_signature : Str;
  rs_parent_present : bool;
  rs_ancestor_check : bool;
  rs_quarantined_until_before : Z;
  rs_quarantined_until_after : Z;
  rs_merkle_root : option Str;
  rs_merkle_root_has : bool;
  rs_preferred_tip : option Str;
  rs_preferred_tip_has : bool;
  rs_author_weight_fp : Z;
}.

Record TraceDoc := mkTraceDoc { td_header : TraceHeader; td_rows : list TraceRowSerde }.

(** ** Hexadecimal text *)

(** A digit of [char::to_digit(16)], on the bytes of the text. *)
Definition digit16 (b : byte) : option Z :=
  let z := byte_to_Z b in
  if (48 <=? z) && (z <=? 57) then Some (z - 48)
  else if (97 <=? z) && (z <=? 102) then Some (z - 87)
  else if (65 <=? z) && (z <=? 70) then Some (z - 55)
  else None.

(** [u8::from_str_radix(_, 16)] on a text of two bytes: a leading plus sign is
    skipped. *)
Definition from_str_radix16 (a b : byte) : option byte :=
  if decide (a = x2b) then byte_of_Z <$> digit16 b
  else match digit16 a, digit16 b with
       | Some x, Some y => Some (byte_of_Z (16 * x + y))
       | _, _ => None
       end.

(** A byte that continues a UTF-8 sequence: no character starts there. *)
Definition is_continuation (b : byte) : bool := (128 <=? byte_to_Z b) && (byte_to_Z b <=? 191).

(** The three ways a function of this file ends. *)
Inductive parsed (A : Type) := Parsed (a : A) | Malformed | SlicePanic.
Arguments Parsed {A} a.
Arguments Malformed {A}.
Arguments SlicePanic {A}.

(** The loop of [hex32] and [hex64] over the byte pairs; slicing inside a
    character panics. *)
Fixpoint hex_pairs (s : Str) : parsed (list byte) :=
  match s with
  | [] | [_] => Parsed []
  | a :: b :: rest =>
      if is_continuation a || match rest with c :: _ => is_continuation c | [] => false end
      then SlicePanic
      else
        match from_str_radix16 a b with
        | None => Malformed
        | Some x =>
            match hex_pairs rest with
            | Parsed l => Parsed (x :: l)
            | Malformed => Malformed
            | SlicePanic => SlicePanic
            end
        end
  end.

Definition hex32 (s : Str) : parsed Hash :=
  if decide (length s <> 64%nat) then Malformed else hex_pairs s.

Definition hex64 (s : Str) : parsed Signature :=
  if decide (length s <> 128%nat) then Malformed else hex_pairs s.

Definition parsed_bind {A B} (m : parsed A) (k : A -> parsed B) : parsed B :=
  match m with Parsed a => k a | Malformed => Malformed | SlicePanic => SlicePanic end.

Definition parse_row (row : TraceRowSerde) : parsed Event :=
  parsed_bind (hex32 (rs_prev_hash row)) (fun prev_hash =>
  parsed_bind (hex32 (rs_author row)) (fun author =>
  parsed_bind (hex32 (rs_payload_hash row)) (fun payload_hash =>
  parsed_bind (hex64 (rs_signature row)) (fun signature =>
  Parsed (Event_from_raw PROTOCOL_VERSION prev_hash author (rs_timestamp row) payload_hash
            signature))))).

(** ** The checker *)

Inductive TraceError :=
| RowParse (idx : nat)
| ParentUnknown (idx : nat)
| ParentKnown (idx : nat)
| RowValidate (idx : nat) (e : ValidationError)
| RowLink (idx : nat) (e : LedgerLinkError)
| QuarantineTooSmall (idx : nat) (before after : Z)
| WeightOutOfBounds (idx : nat)
| WeightInQuarantine (idx : nat)
| MerkleMismatch (idx : nat)
| FinalMismatch.

(** The outcome of a step: a value, the message of an [Err], or a panic. *)
Inductive checked (A : Type) := Pass (a : A) | Reject (e : TraceError) | Panic.
Arguments Pass {A} a.
Arguments Reject {A} e.
Arguments Panic {A}.

Definition checked_bind {A B} (m : checked A) (k : A -> checked B) : checked B :=
  match m with Pass a => k a | Reject e => Reject e | Panic => Panic end.

Declare Scope trace_scope.
Open Scope trace_scope.
Notation "'let!' x := m 'in' k" := (checked_bind m (fun x => k))
  (at level 200, x pattern, m at level 100, k at level 200) : trace_scope.
Notation "m ';;!' k" := (checked_bind m (fun _ => k)) (at level 199, right associativity) : trace_scope.

(** The variables of the loop. *)
Record Replay := mkReplay {
  rp_overlay : SybilOverlay;
  rp_ledger : Ledger;
  rp_vctxs : gmap PublicKey ValidationContext;
  rp_last_root : option Hash;
}.

Section check.
Context `{Sha256} `{Ed25519} `{HashIter} (ln_1p : f64 -> f64) (skew slash_percent : Z).

Definition check_parent (idx : nat) (r : TraceRowSerde) (ledger : Ledger) (ev : Event) : checked unit :=
  let parent_is_zero := bool_decide (ev_prev_hash ev = ZERO_HASH) in
  let parent_known := bool_decide (is_Some (get_event ledger (ev_prev_hash ev))) in
  if negb parent_is_zero && negb parent_known && rs_parent_present r then Reject (ParentUnknown idx)
  else if negb parent_is_zero && parent_known && negb (rs_parent_present r)
  then Reject (ParentKnown idx)
  else Pass tt.

(** The checks that read only the row and the configuration. *)
Definition check_claims (idx : nat) (r : TraceRowSerde) (c : SybilConfig) : checked unit :=
  if negb (rs_ancestor_check r) &&
     (rs_quarantined_until_after r
        <? wrap64 (rs_quarantined_until_before r + quarantine_ticks c))
  then Reject (QuarantineTooSmall idx (rs_quarantined_until_before r) (rs_quarantined_until_after r))
  else if fixed_point_scale c <? rs_author_weight_fp r then Reject (WeightOutOfBounds idx)
  else if (rs_timestamp r <? rs_quarantined_until_after r) && negb (rs_author_weight_fp r =? 0)
  then Reject (WeightInQuarantine idx)
  else Pass tt.

(** The row's root against the root of the ledger; an unreadable root is not
    an error. *)
Definition check_root (idx : nat) (r : TraceRowSerde) (root : Hash) : checked unit :=
  match rs_merkle_root r with
  | None => Pass tt
  | Some mr_str =>
      match hex32 mr_str with
      | Parsed mr_row => if decide (mr_row <> root) then Reject (MerkleMismatch idx) else Pass tt
      | Malformed => Pass tt
      | SlicePanic => Panic
      end
  end.

(** One turn of the loop. *)
Definition check_row (c : SybilConfig) (idx : nat) (r : TraceRowSerde) (s : Replay) : checked Replay :=
  let! ev := match parse_row r with
             | Parsed ev => Pass ev
             | Malformed => Reject (RowParse idx)
             | SlicePanic => Panic
             end in
  check_parent idx r (rp_ledger s) ev ;;!
  let ctx := default ValidationContext_new (rp_vctxs s !! ev_author ev) in
  let! ctx := match validate_event skew ev ctx with
              | Ok ctx => Pass ctx
              | Err e => Reject (RowValidate idx e)
              end in
  let h := hash_event ev in
  let! ledger := match try_add_event (rp_ledger s) ev with
                 | Ok (ledger, _) => Pass ledger
                 | Err e => Reject (RowLink idx e)
                 end in
  let! overlay := match observe_event ln_1p (rp_overlay s) ledger (rs_timestamp r) (rs_node_id r)
                          ev h with
                  | Some overlay => Pass overlay
                  | None => Panic
                  end in
  check_claims idx r c ;;!
  let vctxs := <[ev_author ev := ctx]> (rp_vctxs s) in
  match merkle_root ledger with
  | Some root => check_root idx r root ;;! Pass (mkReplay overlay ledger vctxs (Some root))
  | None => Pass (mkReplay overlay ledger vctxs (rp_last_root s))
  end.

Fixpoint check_rows (c : SybilConfig) (idx : nat) (rs : list TraceRowSerde) (s : Replay)
    : checked Replay :=
  match rs with
  | [] => Pass s
  | r :: rest => let! s := check_row c idx r s in check_rows c (S idx) rest s
  end.

Definition replay_start (c : SybilConfig) : Replay :=
  mkReplay (SybilOverlay_new c) Ledger_new ∅ None.

Definition check_final (hdr : TraceHeader) (last_root : option Hash) : checked unit :=
  match th_final_merkle_root hdr, last_root with
  | Some hdr_root, Some last =>
      match hex32 hdr_root with
      | Parsed expected => if decide (expected <> last) then Reject FinalMismatch else Pass tt
      | Malformed => Pass tt
      | SlicePanic => Panic
      end
  | _, _ => Pass tt
  end.

Definition check_trace (doc : TraceDoc) : checked unit :=
  let c := SybilConfig_from slash_percent (th_sybil_config (td_header doc)) in
  let! s := check_rows c 0 (td_rows doc) (replay_start c) in
  check_final (td_header doc) (rp_last_root s).

(** ** What a passed check establishes *)

Lemma checked_bind_pass {A B} (m : checked A) (k : A -> checked B) b :
  checked_bind m k = Pass b -> exists a, m = Pass a /\ k a = Pass b.
Proof. destruct m; simpl; [|done..]. by eexists. Qed.

Lemma hex_pairs_length s l : hex_pairs s = Parsed l -> length l = Nat.div2 (length s).
Proof.
  revert l. induction s as [s IH] using (induction_ltof1 _ length). intros l.
  destruct s as [|a [|b rest]]; simpl; [by intros [= <-]..|].
  destruct (_ || _); [done|]. destruct (from_str_radix16 a b); [|done].
  destruct (hex_pairs rest) as [l'| |] eqn:E; [|done..]. intros [= <-]. simpl. f_equal.
  apply IH; [unfold ltof; simpl; lia|done].
Qed.

Lemma hex32_length s l : hex32 s = Parsed l -> length l = 32%nat.
Proof. unfold hex32. case_decide as D; [done|]. intros ->%hex_pairs_length. by rewrite D. Qed.

Lemma hex64_length s l : hex64 s = Parsed l -> length l = 64%nat.
Proof. unfold hex64. case_decide as D; [done|]. intros ->%hex_pairs_length. by rewrite D. Qed.

Lemma parsed_bind_inv {A B} (m : parsed A) (k : A -> parsed B) b :
  parsed_bind m k = Parsed b -> exists a, m = Parsed a /\ k a = Parsed b.
Proof. destruct m; simpl; [|done..]. by eexists. Qed.

Lemma parse_row_wf r ev : is_u64 (rs_timestamp r) -> parse_row r = Parsed ev -> wf_event ev.
Proof.
  intros Ht (p & ?%hex32_length & (a & ?%hex32_length & (pl & ?%hex32_length &
    (sg & ?%hex64_length & [= <-])%parsed_bind_inv)%parsed_bind_inv)%parsed_bind_inv)%parsed_bind_inv.
  unfold wf_event, Event_from_raw. simpl. by split_and!.
Qed.

(** What the check has established of a row when it goes on to the next: [l] and
    [l'] are the ledgers before and after. *)
Record row_verified (c : SybilConfig) (l l' : Ledger) (r : TraceRowSerde) (ev : Event) : Prop := {
  rv_parse : parse_row r = Parsed ev;
  rv_signed : signature_ok ev = true;
  rv_link : try_add_event l ev = Ok (l', hash_event ev);
  rv_parent : ev_prev_hash ev = ZERO_HASH \/ rs_parent_present r = true;
  rv_scale : rs_author_weight_fp r <= fixed_point_scale c;
  rv_quarantine : rs_timestamp r < rs_quarantined_until_after r -> rs_author_weight_fp r = 0;
  rv_root : forall s root, rs_merkle_root r = Some s -> hex32 s = Parsed root ->
    merkle_root l' = Some root;
}.

Inductive rows_verified (c : SybilConfig) : Ledger -> list TraceRowSerde -> list Event -> Ledger -> Prop :=
| rows_verified_nil l : rows_verified c l [] [] l
| rows_verified_cons l r ev l1 rs evs l2 :
    row_verified c l l1 r ev -> rows_verified c l1 rs evs l2 ->
    rows_verified c l (r :: rs) (ev :: evs) l2.

Lemma try_add_root l ev l' h : try_add_event l ev = Ok (l', h) -> is_Some (merkle_root l').
Proof.
  intros (-> & -> & _ & _)%try_add_event_ok. destruct (merkle_root _) eqn:E; [done|].
  rewrite merkle_root_fold, merkle_fold_none, merkle_leaves_nil in E.
  unfold hashes_set, add_event in E. simpl in E. rewrite dom_insert_L in E. set_solver.
Qed.

Lemma check_claims_pass idx r c :
  check_claims idx r c = Pass tt ->
  rs_author_weight_fp r <= fixed_point_scale c /\
  (rs_timestamp r < rs_quarantined_until_after r -> rs_author_weight_fp r = 0).
Proof.
  unfold check_claims. destruct (_ && _); [done|].
  destruct (Z.ltb_spec (fixed_point_scale c) (rs_author_weight_fp r)); [done|].
  destruct (Z.ltb_spec (rs_timestamp r) (rs_quarantined_until_after r)); simpl.
  - destruct (Z.eqb_spec (rs_author_weight_fp r) 0); simpl; [|done]. by intros _.
  - intros _. split; [done|lia].
Qed.

Lemma check_row_pass c idx r s s' :
  check_row c idx r s = Pass s' ->
  exists ev, row_verified c (rp_ledger s) (rp_ledger s') r ev /\
    rp_last_root s' = merkle_root (rp_ledger s') /\ is_Some (rp_last_root s').
Proof.
  unfold check_row. intros (ev & Ep & Hk)%checked_bind_pass. exists ev.
  apply checked_bind_pass in Hk as ([] & Epar & (ctx & Ev & (l' & El & Hk)%checked_bind_pass)%checked_bind_pass).
  destruct (parse_row r) as [ev'| |] eqn:Epr; simplify_eq.
  destruct (validate_event skew ev _) as [ctx'|] eqn:Eva; simplify_eq.
  apply validate_event_ok in Eva as (_ & Hsig & _).
  destruct (try_add_event (rp_ledger s) ev) as [[l1 h]|] eqn:Etr; simplify_eq.
  destruct (try_add_event_ok _ _ _ _ Etr) as (-> & _ & _ & Hlink).
  destruct (try_add_root _ _ _ _ Etr) as [root Hroot].
  apply checked_bind_pass in Hk as (o' & Eo & ([] & Ecl & Hk)%checked_bind_pass).
  apply check_claims_pass in Ecl as [Hw Hz]. rewrite Hroot in Hk.
  apply checked_bind_pass in Hk as ([] & Ero & [= <-]). simpl. split; [|by rewrite Hroot; eauto].
  constructor; try done.
  - destruct Hlink as [|Hs]; [by left|].
    destruct (decide (ev_prev_hash ev = ZERO_HASH)) as [|Hnz]; [by left|right]. revert Epar.
    unfold check_parent. rewrite (bool_decide_false _ Hnz), (bool_decide_true _ Hs). simpl.
    by destruct (rs_parent_present r).
  - intros st mr Est Eh. unfold check_root in Ero. rewrite Est, Eh in Ero.
    case_decide as D; [done|]. by rewrite Hroot, D.
Qed.

Lemma check_rows_pass c idx rs s s' :
  check_rows c idx rs s = Pass s' ->
  exists evs, rows_verified c (rp_ledger s) rs evs (rp_ledger s') /\
    (rs <> [] -> rp_last_root s' = merkle_root (rp_ledger s') /\ is_Some (rp_last_root s')).
Proof.
  revert idx s. induction rs as [|r rs IH]; intros idx s; simpl.
  - intros [= <-]. exists []. split; [constructor|done].
  - intros (s1 & (ev & Hrow & Hroot)%check_row_pass & Hk)%checked_bind_pass.
    destruct (IH _ _ Hk) as (evs & Hrows & Hl). exists (ev :: evs). split; [by econstructor|].
    intros _. destruct rs as [|r' rs']; [|by apply Hl]. simpl in Hk. by injection Hk as <-.
Qed.
Lemma rows_verified_ledger c l rs evs l' :
  rows_verified c l rs evs l' -> reachable l ->
  reachable l' /\ length evs = length rs /\ NoDup (map hash_event evs) /\
  (forall h, h ∈ map hash_event evs -> events l !! h = None) /\
  hashes_set l' = hashes_set l ∪ list_to_set (map hash_event evs).
Proof.
  induction 1 as [l|l r ev l1 rs evs l2 Hrow Hrows IH]; intros Hre.
  - split_and!; [done|done|constructor|set_solver|set_solver].
  - pose proof (rv_link _ _ _ _ _ Hrow) as Hl.
    destruct IH as (Hre2 & Hlen & Hnd & Hfresh & Hset); [by eapply reachable_add|].
    apply try_add_event_ok in Hl as (_ & -> & Hf & _). simpl in *. split_and!.
    + done.
    + by rewrite Hlen.
    + constructor; [|done]. intros Hin%Hfresh. by rewrite lookup_insert_eq in Hin.
    + intros h [->|Hin]%elem_of_cons; [done|]. apply Hfresh in Hin.
      by apply lookup_insert_None in Hin as [? _].
    + rewrite Hset. unfold hashes_set. simpl. rewrite dom_insert_L. set_solver.
Qed.

Lemma check_trace_pass doc :
  check_trace doc = Pass tt ->
  let c := SybilConfig_from slash_percent (th_sybil_config (td_header doc)) in
  exists evs l, rows_verified c Ledger_new (td_rows doc) evs l /\
    forall s root, th_final_merkle_root (td_header doc) = Some s -> hex32 s = Parsed root ->
      td_rows doc <> [] -> merkle_root l = Some root.
Proof.
  intros Hp c. apply checked_bind_pass in Hp as (st & Hrows & Hfin).
  destruct (check_rows_pass _ _ _ _ _ Hrows) as (evs & Hv & Hlast). exists evs, (rp_ledger st).
  split; [done|]. intros s root Es Eh Hne. destruct (Hlast Hne) as [<- [last El]].
  unfold check_final in Hfin. rewrite Es, El, Eh in Hfin. case_decide as D; [done|]. by rewrite D.
Qed.

(** C17: what a passed check means: every row parses to an event with a valid
    signature, and the events, in order, link into one ledger without a
    duplicate or a missing parent, so the ledger holds exactly the rows'
    events; each row tells the truth about its parent, reports a weight within
    the scale and zero inside its quarantine, and, where its root is readable,
    the root of the ledger at that point; the header's root, where readable,
    is the root of the final ledger. *)
Theorem trace_check_sound doc :
  check_trace doc = Pass tt ->
  let c := SybilConfig_from slash_percent (th_sybil_config (td_header doc)) in
  exists evs l, rows_verified c Ledger_new (td_rows doc) evs l /\ reachable l /\
    NoDup (map hash_event evs) /\ hashes_set l = list_to_set (map hash_event evs) /\
    forall s root, th_final_merkle_root (td_header doc) = Some s -> hex32 s = Parsed root ->
      td_rows doc <> [] -> merkle_root l = Some root.
Proof.
  intros Hp c. destruct (check_trace_pass doc Hp) as (evs & l & Hv & Hroot). exists evs, l.
  destruct (rows_verified_ledger _ _ _ _ _ Hv) as (? & _ & ? & _ & Hset); [constructor|].
  split_and!; try done. rewrite Hset. unfold hashes_set. simpl. set_solver.
Qed.

Lemma rows_verified_wf c l rs evs l' :
  rows_verified c l rs evs l' -> Forall (fun r => is_u64 (rs_timestamp r)) rs -> Forall wf_event evs.
Proof.
  induction 1 as [|l r ev l1 rs evs l2 Hrow Hrows IH]; [constructor|].
  intros [Ht Hts]%Forall_cons. constructor; [|by apply IH].
  eapply parse_row_wf; [exact Ht|]. by eapply rv_parse.
Qed.

(** Events with the same hashes are the same events, up to a collision. *)
Lemma same_hashes_subset evs1 evs2 :
  Forall wf_event evs1 -> Forall wf_event evs2 ->
  map hash_event evs1 ⊆ map hash_event evs2 ->
  evs1 ⊆ evs2 \/ collision_among (map hash_material (evs1 ++ evs2)).
Proof.
  intros W1 W2 Hs. rewrite Forall_forall in W1, W2.
  destruct (Forall_Exists_dec (fun e => e ∈ evs2) (fun e => e ∉ evs2)
    (fun e => decide_rel elem_of e evs2) evs1) as [Hall|Hex].
  - left. by rewrite Forall_forall in Hall.
  - right. apply Exists_exists in Hex as (e & He & Hn).
    assert (hash_event e ∈ map hash_event evs2) as (e2 & Eh & He2)%list_elem_of_fmap
      by (apply Hs, list_elem_of_fmap; by exists e).
    destruct (hash_event_binding e e2 (W1 _ He) (W2 _ He2) Eh) as [->|Hc]; [done|].
    exists (hash_material e), (hash_material e2). split_and!; [| |done];
      apply list_elem_of_fmap; [exists e|exists e2]; rewrite elem_of_app; auto.
Qed.

(** The messages hashed for a document's events and final root. *)
Definition trace_messages (evs : list Event) (l : Ledger) : list (list byte) :=
  merkle_messages (merkle_leaves l) ++ map hash_material evs.

(** C27: the header's root pins down a trace: two documents of the same length
    that pass with the same readable root contain the same events, unless two
    of the messages hashed for the events and the roots collide. *)
Theorem trace_root_pins_events doc1 doc2 s root :
  check_trace doc1 = Pass tt -> check_trace doc2 = Pass tt ->
  Forall (fun r => is_u64 (rs_timestamp r)) (td_rows doc1) ->
  Forall (fun r => is_u64 (rs_timestamp r)) (td_rows doc2) ->
  th_final_merkle_root (td_header doc1) = Some s ->
  th_final_merkle_root (td_header doc2) = Some s -> hex32 s = Parsed root ->
  td_rows doc1 <> [] -> length (td_rows doc1) = length (td_rows doc2) ->
  let cfg_of doc := SybilConfig_from slash_percent (th_sybil_config (td_header doc)) in
  exists evs1 l1 evs2 l2,
    rows_verified (cfg_of doc1) Ledger_new (td_rows doc1) evs1 l1 /\
    rows_verified (cfg_of doc2) Ledger_new (td_rows doc2) evs2 l2 /\
    (evs1 ≡ₚ evs2 \/ collision_among (trace_messages evs1 l1 ++ trace_messages evs2 l2)).
Proof.
  intros P1 P2 T1 T2 R1 R2 Es Hne Hlen cfg_of.
  destruct (check_trace_pass doc1 P1) as (evs1 & l1 & V1 & F1).
  destruct (check_trace_pass doc2 P2) as (evs2 & l2 & V2 & F2).
  exists evs1, l1, evs2, l2.
  split_and!; [done..|].
  pose proof (rows_verified_wf _ _ _ _ _ V1 T1) as W1.
  pose proof (rows_verified_wf _ _ _ _ _ V2 T2) as W2.
  destruct (rows_verified_ledger _ _ _ _ _ V1 reachable_new) as (Re1 & L1 & N1 & _ & S1).
  destruct (rows_verified_ledger _ _ _ _ _ V2 reachable_new) as (Re2 & L2 & N2 & _ & S2).
  assert (merkle_root l1 = merkle_root l2) as Hroot.
  { rewrite (F1 _ _ R1 Es Hne). symmetry. apply (F2 _ _ R2 Es). intros E. rewrite E in Hlen.
    by destruct (td_rows doc1). }
  assert (forall l evs, hashes_set l = hashes_set Ledger_new ∪ list_to_set (map hash_event evs) ->
    hashes_set l = list_to_set (map hash_event evs)) as Hnew
    by (intros l evs ->; unfold hashes_set; simpl; set_solver).
  apply Hnew in S1, S2.
  destruct (merkle_root_same_hashes l1 l2) as [Hh|Hc]; auto using reachable_inv.
  { rewrite S1, S2, !size_list_to_set, !length_map by done. lia. }
  2: { right. eapply collision_among_mono; [|exact Hc]. unfold trace_messages. set_solver. }
  assert (map hash_event evs1 ⊆ map hash_event evs2 /\ map hash_event evs2 ⊆ map hash_event evs1)
    as [I12 I21] by (rewrite S1, S2 in Hh; set_solver).
  destruct (same_hashes_subset evs1 evs2 W1 W2 I12) as [E12|Hc].
  2: { right. eapply collision_among_mono; [|exact Hc]. unfold trace_messages.
       rewrite map_app. set_solver. }
  destruct (same_hashes_subset evs2 evs1 W2 W1 I21) as [E21|Hc].
  2: { right. eapply collision_among_mono; [|exact Hc]. unfold trace_messages.
       rewrite map_app. set_solver. }
  left. apply NoDup_Permutation; [by eapply NoDup_fmap_1..|]. intros x. split; [apply E12|apply E21].
Qed.
(** ** Traces of correct nodes *)

(** A node that validates, links and observes events one by one, each at its
    own timestamp; the last index is the ledger it ends with. *)
Inductive ingested : Ledger -> gmap PublicKey ValidationContext -> list Observation -> Ledger -> Prop :=
| ingested_nil l v : ingested l v [] l
| ingested_cons l v b ctx bs l' :
    validate_event skew (ob_event b)
      (default ValidationContext_new (v !! ev_author (ob_event b))) = Ok ctx ->
    try_add_event l (ob_event b) = Ok (ob_ledger b, ob_hash b) ->
    ob_tick b = ev_timestamp (ob_event b) ->
    ingested (ob_ledger b) (<[ev_author (ob_event b) := ctx]> v) bs l' ->
    ingested l v (b :: bs) l'.

(** The text of a recorded row. *)
Record row_text (r : TraceRowSerde) (b : Observation) (t : TraceRow) : Prop := {
  rt_prev : hex32 (rs_prev_hash r) = Parsed (tr_prev_hash t);
  rt_author : hex32 (rs_author r) = Parsed (tr_author t);
  rt_payload : hex32 (rs_payload_hash r) = Parsed (tr_payload_hash t);
  rt_signature : hex64 (rs_signature r) = Parsed (tr_signature t);
  rt_timestamp : rs_timestamp r = tr_timestamp t;
  rt_node : rs_node_id r = ob_node b;
  rt_parent : rs_parent_present r = tr_parent_present t;
  rt_check : rs_ancestor_check r = tr_ancestor_check t;
  rt_before : rs_quarantined_until_before r = tr_quarantined_until_before t;
  rt_after : rs_quarantined_until_after r = tr_quarantined_until_after t;
  rt_weight : rs_author_weight_fp r = tr_author_weight_fp t;
  rt_root : forall s, rs_merkle_root r = Some s ->
    exists root, hex32 s = Parsed root /\ tr_merkle_root t = Some root;
}.

Inductive trace_text : list TraceRowSerde -> list Observation -> list TraceRow -> Prop :=
| trace_text_nil : trace_text [] [] []
| trace_text_cons r b t rs bs ts :
    row_text r b t -> trace_text rs bs ts -> trace_text (r :: rs) (b :: bs) (t :: ts).

(** The recorded equivocation happened outside a running quarantine, and its
    quarantine does not saturate. *)
Definition fresh_quarantine (q : Z) (t : TraceRow) : Prop :=
  is_u64 (tr_quarantined_until_before t) /\
  (tr_ancestor_check t = false ->
   tr_quarantined_until_before t <= tr_timestamp t /\ tr_timestamp t + q <= u64_max).

Lemma observe_event_untraced o l tick node ev h :
  trace_recorder o = None ->
  exists o', observe_event ln_1p o l tick node ev h = Some o' /\ trace_recorder o' = None.
Proof. intros E. unfold observe_event. rewrite E. by eexists. Qed.

Lemma recorded_claims_pass o o' b t r c idx :
  scale_ok o -> observe ln_1p o b = Some o' -> row_of ln_1p o o' b t -> row_text r b t ->
  ob_tick b = ev_timestamp (ob_event b) ->
  quarantine_ticks c = quarantine_ticks (cfg o) -> fixed_point_scale c = fixed_point_scale (cfg o) ->
  0 <= quarantine_ticks c -> fresh_quarantine (quarantine_ticks c) t ->
  check_claims idx r c = Pass tt.
Proof.
  intros Hs Ho Hrow Htext Htick Hq Hsc Hq0 [Hb Hfresh]. destruct (observe_inv _ _ _ _ Hs Ho) as [Hc Hm].
  assert (scale_ok o') as Hs' by (unfold scale_ok; by rewrite Hc).
  assert (rs_timestamp r = ob_tick b) as Ht.
  { rewrite (rt_timestamp _ _ _ Htext), Htick. by rewrite <- (row_event _ _ _ _ _ Hrow). }
  assert (tr_timestamp t = ob_tick b) as Htt by (by rewrite <- Ht, (rt_timestamp _ _ _ Htext)).
  assert (rs_quarantined_until_after r = quarantined_until (author_after o b)) as Hafter
    by (by rewrite (rt_after _ _ _ Htext), (row_after _ _ _ _ _ Hrow)).
  assert (rs_author_weight_fp r = weight_of ln_1p o' (ob_tick b) (ev_author (ob_event b))) as Hw
    by (by rewrite (rt_weight _ _ _ Htext), (row_weight _ _ _ _ _ Hrow)).
  unfold check_claims. rewrite (proj2 (andb_false_iff _ _)).
  - rewrite Hsc, <- Hc, (proj2 (Z.ltb_ge _ _)) by (rewrite Hw; by apply weight_of_range).
    destruct (Z.ltb_spec (rs_timestamp r) (rs_quarantined_until_after r)) as [Hlt|]; [|done].
    assert (author_weight_fp ln_1p o' (ob_tick b) (ev_author (ob_event b)) = Some 0) as Hz.
    { eapply quarantined_to_weight; [done| |rewrite <- Ht; exact Hlt].
      exists (author_after o b). by rewrite Hm, lookup_insert_eq, Hafter. }
    rewrite Hw. unfold weight_of. by rewrite Hz.
  - rewrite (rt_check _ _ _ Htext). destruct (tr_ancestor_check t) eqn:Ec; [by left|right].
    apply Z.ltb_ge. destruct (Hfresh eq_refl) as [Hle Hno]. unfold is_u64 in *.
    rewrite (rt_before _ _ _ Htext), wrap64_small by (unfold is_u64; lia).
    rewrite Hafter, author_after_quarantine.
    pose proof (row_check _ _ _ _ _ Hrow) as Hck. rewrite Ec in Hck.
    destruct (equivocates o b); [|done]. rewrite <- (row_before _ _ _ _ _ Hrow), <- Hq.
    unfold saturating_add. lia.
Qed.

Lemma recorded_row_parses o o' b t r :
  row_of ln_1p o o' b t -> row_text r b t -> ev_version (ob_event b) = PROTOCOL_VERSION ->
  parse_row r = Parsed (ob_event b).
Proof.
  intros Hrow [? ? ? ? ? _ _ _ _ _ _ _] Hv. unfold parse_row.
  repeat match goal with E : _ = Parsed _ |- _ => rewrite E; clear E; simpl end.
  pose proof (row_event _ _ _ _ _ Hrow) as Hev. rewrite Hv in Hev. rewrite <- Hev. by f_equal; congruence.
Qed.

Lemma check_row_honest c idx o o' b t r s ctx :
  scale_ok o -> observe ln_1p o b = Some o' -> row_of ln_1p o o' b t -> row_text r b t ->
  ob_tick b = ev_timestamp (ob_event b) ->
  quarantine_ticks c = quarantine_ticks (cfg o) -> fixed_point_scale c = fixed_point_scale (cfg o) ->
  0 <= quarantine_ticks c -> fresh_quarantine (quarantine_ticks c) t ->
  validate_event skew (ob_event b)
    (default ValidationContext_new (rp_vctxs s !! ev_author (ob_event b))) = Ok ctx ->
  try_add_event (rp_ledger s) (ob_event b) = Ok (ob_ledger b, ob_hash b) ->
  trace_recorder (rp_overlay s) = None ->
  exists s', check_row c idx r s = Pass s' /\ rp_ledger s' = ob_ledger b /\
    rp_vctxs s' = <[ev_author (ob_event b) := ctx]> (rp_vctxs s) /\
    trace_recorder (rp_overlay s') = None /\ rp_last_root s' = merkle_root (ob_ledger b).
Proof.
  intros Hs Ho Hrow Htext Htick Hq Hsc Hq0 Hfresh Hval Hadd Hrec.
  unfold check_row. rewrite (recorded_row_parses _ _ _ _ _ Hrow Htext)
    by (by apply validate_event_ok in Hval as [? _]). cbn [checked_bind].
  assert (check_parent idx r (rp_ledger s) (ob_event b) = Pass tt) as ->.
  { unfold check_parent. destruct (try_add_event_ok _ _ _ _ Hadd) as (_ & El & _ & Hlink).
    destruct (decide (ev_prev_hash (ob_event b) = ZERO_HASH)) as [Ez|Hz].
    - by rewrite (bool_decide_true _ Ez).
    - destruct Hlink as [|Hp]; [done|].
      rewrite (bool_decide_true (is_Some (get_event _ _)) Hp), (bool_decide_false _ Hz). simpl.
      rewrite (rt_parent _ _ _ Htext), (row_parent _ _ _ _ _ Hrow), (bool_decide_false _ Hz), El.
      rewrite bool_decide_true; [done|]. unfold get_event, add_event. simpl.
      apply lookup_insert_is_Some'. by right. }
  cbn [checked_bind]. rewrite Hval, Hadd. cbn [checked_bind].
  destruct (observe_event_untraced (rp_overlay s) (ob_ledger b) (rs_timestamp r) (rs_node_id r)
    (ob_event b) (hash_event (ob_event b)) Hrec) as (o1 & -> & Hrec1). cbn [checked_bind].
  rewrite (recorded_claims_pass o o' b t r c idx) by done. cbn [checked_bind].
  destruct (try_add_root _ _ _ _ Hadd) as [root Hroot]. rewrite Hroot.
  assert (check_root idx r root = Pass tt) as ->.
  { unfold check_root. destruct (rs_merkle_root r) as [st|] eqn:Est; [|done].
    destruct (rt_root _ _ _ Htext _ Est) as (root' & -> & Et).
    rewrite (row_root _ _ _ _ _ Hrow), Hroot in Et. injection Et as ->. by case_decide. }
  eexists. by split_and!.
Qed.

Lemma check_rows_honest c idx o bs ts o' rs s v l' :
  recorded ln_1p o bs ts o' -> ingested (rp_ledger s) v bs l' -> trace_text rs bs ts ->
  Forall (fresh_quarantine (quarantine_ticks c)) ts ->
  scale_ok o -> quarantine_ticks c = quarantine_ticks (cfg o) ->
  fixed_point_scale c = fixed_point_scale (cfg o) -> 0 <= quarantine_ticks c ->
  rp_vctxs s = v -> trace_recorder (rp_overlay s) = None ->
  exists s', check_rows c idx rs s = Pass s' /\
    (rs = [] /\ s' = s \/ rp_last_root s' = merkle_root l').
Proof.
  intros Hr. revert idx rs s v. induction Hr as [o|o b o1 t bs ts o2 Ho Hrow Hr IH];
    intros idx rs s v Hin Htext Hfr Hs Hq Hsc Hq0 Hv Hrec.
  - inversion Htext; subst. exists s. split; [done|by left].
  - inversion Htext as [|r b' t' rs' bs' ts' Ht Hts]; subst.
    inversion Hin as [|l v b' ctx bs' l'' Hval Hadd Htick Hin']; subst.
    apply Forall_cons in Hfr as [Hf Hfr]. destruct (observe_inv _ _ _ _ Hs Ho) as [Hc _].
    destruct (check_row_honest c idx o o1 b t r s ctx) as (s1 & E1 & Hl1 & Hv1 & Hr1 & Hroot1); try done.
    cbn [check_rows]. rewrite E1. cbn [checked_bind].
    destruct (IH (S idx) rs' s1 (rp_vctxs s1)) as (s2 & E2 & Hend); try done;
      rewrite ?Hc, ?Hl1, ?Hv1; try done; [unfold scale_ok; by rewrite Hc|].
    exists s2. split; [done|]. right. destruct Hend as [[-> ->]|Hend]; [|done].
    inversion Hts; subst. inversion Hin'; subst. done.
Qed.

(** C28: the trace of a correct node passes.  Take any run in which a node with
    an attached recorder validates, links and observes its events at their
    timestamps: the text of the recorded rows, under a header with the node's
    configuration and the root of its final ledger, passes the check, as long
    as no author equivocated again while its quarantine was running. *)
Theorem correct_trace_passes c rec bs ts o' l' hdr rs :
  recorded ln_1p (attach_trace_recorder (SybilOverlay_new c) (Some rec)) bs ts o' ->
  ingested Ledger_new ∅ bs l' -> trace_text rs bs ts ->
  Forall (fresh_quarantine (quarantine_ticks c)) ts ->
  0 <= fixed_point_scale c <= i64_max -> 0 <= quarantine_ticks c ->
  th_sybil_config hdr = mkSybilConfigSerde (warmup_ticks c) (quarantine_ticks c)
                          (fixed_point_scale c) (max_link_walk c) ->
  (forall s, th_final_merkle_root hdr = Some s ->
     exists root, hex32 s = Parsed root /\ merkle_root l' = Some root) ->
  check_trace (mkTraceDoc hdr rs) = Pass tt.
Proof.
  intros Hr Hin Htext Hfr Hs Hq0 Hcfg Hfin. unfold check_trace. cbn [td_header td_rows]. rewrite Hcfg.
  set (c' := SybilConfig_from _ _).
  destruct (check_rows_honest c' 0 _ _ _ _ rs (replay_start c') ∅ l' Hr Hin) as (s' & -> & Hend);
    try done. cbn [checked_bind]. unfold check_final.
  destruct (th_final_merkle_root hdr) as [str|] eqn:Es; [|done].
  destruct (Hfin _ eq_refl) as (root & Eh & Eroot).
  destruct Hend as [[_ ->]| ->]; [done|]. rewrite Eroot, Eh. by case_decide.
Qed.

(** The quarantine check is stricter than the overlay: the row a recorder
    writes for an equivocation inside a running quarantine is rejected by the
    check, for every positive quarantine whose end does not overflow. *)
Theorem repeated_equivocation_rejected o o' b t r c idx :
  row_of ln_1p o o' b t -> row_text r b t -> equivocates o b = true ->
  quarantine_ticks c = quarantine_ticks (cfg o) -> 0 < quarantine_ticks c ->
  0 <= ob_tick b < tr_quarantined_until_before t ->
  tr_quarantined_until_before t + quarantine_ticks c <= u64_max ->
  check_claims idx r c
  = Reject (QuarantineTooSmall idx (rs_quarantined_until_before r) (rs_quarantined_until_after r)).
Proof.
  intros Hrow Htext He Hq Hq0 Hin Hno. unfold check_claims.
  rewrite (rt_check _ _ _ Htext), (row_check _ _ _ _ _ Hrow), He. simpl.
  rewrite (rt_before _ _ _ Htext), (rt_after _ _ _ Htext), (row_after _ _ _ _ _ Hrow).
  rewrite author_after_quarantine, He, <- (row_before _ _ _ _ _ Hrow), wrap64_small
    by (unfold is_u64; lia).
  rewrite (proj2 (Z.ltb_lt _ _)); [done|]. unfold saturating_add, u64_max in *. lia.
Qed.

(** A row that reports no weight at all and no preferred tip. *)
Definition blank_weight (r : TraceRowSerde) : TraceRowSerde :=
  mkTraceRowSerde (rs_node_id r) (rs_row_index r) (rs_prev_hash r) (rs_author r) (rs_timestamp r)
    (rs_payload_hash r) (rs_signature r) (rs_parent_present r) (rs_ancestor_check r)
    (rs_quarantined_until_before r) (rs_quarantined_until_after r) (rs_merkle_root r)
    (rs_merkle_root_has r) None (rs_preferred_tip_has r) 0.

Lemma check_claims_blank idx r c :
  0 <= fixed_point_scale c -> check_claims idx r c = Pass tt ->
  check_claims idx (blank_weight r) c = Pass tt.
Proof.
  intros Hs. unfold check_claims. simpl. destruct (_ && _); [done|]. intros _.
  rewrite (proj2 (Z.ltb_ge _ _)) by done. by rewrite andb_false_r.
Qed.

Lemma check_row_blank c idx r s s' :
  0 <= fixed_point_scale c -> check_row c idx r s = Pass s' ->
  check_row c idx (blank_weight r) s = Pass s'.
Proof.
  intros Hs. unfold check_row. change (parse_row (blank_weight r)) with (parse_row r).
  destruct (match parse_row r with Parsed _ => _ | _ => _ end) as [ev| |]; cbn [checked_bind]; try done.
  change (check_parent idx (blank_weight r) (rp_ledger s) ev) with (check_parent idx r (rp_ledger s) ev).
  destruct (check_parent _ _ _ _); cbn [checked_bind]; try done.
  destruct (match validate_event _ _ _ with Ok _ => _ | _ => _ end); cbn [checked_bind]; try done.
  destruct (match try_add_event _ _ with Ok _ => _ | _ => _ end) as [l| |]; cbn [checked_bind]; try done.
  change (rs_timestamp (blank_weight r)) with (rs_timestamp r).
  change (rs_node_id (blank_weight r)) with (rs_node_id r).
  destruct (match observe_event _ _ _ _ _ _ _ with Some _ => _ | _ => _ end); cbn [checked_bind]; try done.
  destruct (check_claims idx r c) as [[]| |] eqn:Ec; cbn [checked_bind]; try done.
  by rewrite check_claims_blank.
Qed.

(** The replayed overlay is never compared with the rows: a document that
    passes still passes when every reported weight is replaced by zero and
    every preferred tip is dropped. *)
Theorem weights_not_checked doc :
  0 <= scs_fixed_point_scale (th_sybil_config (td_header doc)) ->
  check_trace doc = Pass tt ->
  check_trace (mkTraceDoc (td_header doc) (map blank_weight (td_rows doc))) = Pass tt.
Proof.
  intros Hs. unfold check_trace. cbn [td_header td_rows]. set (c := SybilConfig_from _ _).
  intros (s & Hrows & Hfin)%checked_bind_pass. enough (forall idx rs s0 s1,
    check_rows c idx rs s0 = Pass s1 -> check_rows c idx (map blank_weight rs) s0 = Pass s1) as Hb.
  { rewrite (Hb _ _ _ _ Hrows). exact Hfin. }
  intros idx rs. revert idx. induction rs as [|r rs IH]; intros idx s0 s1; cbn [check_rows map]; [done|].
  intros (s2 & E & Hk)%checked_bind_pass. rewrite (check_row_blank _ _ _ _ s2) by done.
  by apply IH.
Qed.
End check.

(** ** Concrete traces *)

Section examples.
Import Toy.

#[local] Instance demo_iter : HashIter :=
  {| set_iter := elements; set_iter_perm := fun X => reflexivity _ |}.

(** Two lower-case digits per byte, as the simulator writes them. *)
Lemma hex_pairs_encode l : hex_pairs (toy_hex_encode l) = Parsed l.
Proof.
  assert (forall z, 0 <= z < 16 -> digit16 (hex_digit z) = Some z /\
    is_continuation (hex_digit z) = false /\ hex_digit z <> x2b) as Hd.
  { intros z Hz. split; [exact (proj1 (hex_digit_spec z Hz))|].
    assert (z < 10 \/ 10 <= z) as [Hlt|Hge] by lia; unfold hex_digit, is_continuation;
    [rewrite (proj2 (Z.ltb_lt _ _) Hlt)|rewrite (proj2 (Z.ltb_ge _ _) Hge)];
    (split; [rewrite byte_to_of_Z by lia; apply andb_false_iff; left; apply Z.leb_gt; lia|]);
    intros E%(f_equal byte_to_Z); rewrite byte_to_of_Z in E by lia;
    change (byte_to_Z x2b) with 43 in E; lia. }
  induction l as [|b l IH]; [done|]. cbn [toy_hex_encode hex_pairs].
  destruct (nibbles_range b) as [H1 H2]. destruct (Hd _ H1) as (E1 & C1 & P1), (Hd _ H2) as (E2 & _ & _).
  rewrite C1, IH. assert (match toy_hex_encode l with c :: _ => is_continuation c | [] => false end = false)
    as ->. { destruct l as [|b' l']; [done|]. by destruct (Hd _ (proj1 (nibbles_range b'))) as (_ & ? & _). }
  cbn [orb]. unfold from_str_radix16. rewrite decide_False, E1, E2 by done.
  rewrite <- Z.div_mod by lia. by rewrite byte_of_to_Z.
Qed.

Lemma hex32_encode l : length l = 32%nat -> hex32 (toy_hex_encode l) = Parsed l.
Proof.
  intros Hl. unfold hex32. rewrite decide_False by (rewrite toy_hex_length; lia). apply hex_pairs_encode.
Qed.

Lemma hex64_encode l : length l = 64%nat -> hex64 (toy_hex_encode l) = Parsed l.
Proof.
  intros Hl. unfold hex64. rewrite decide_False by (rewrite toy_hex_length; lia). apply hex_pairs_encode.
Qed.

Definition encode_row (b : Observation) (t : TraceRow) : TraceRowSerde :=
  mkTraceRowSerde (ob_node b) 0 (toy_hex_encode (tr_prev_hash t)) (toy_hex_encode (tr_author t))
    (tr_timestamp t) (toy_hex_encode (tr_payload_hash t)) (toy_hex_encode (tr_signature t))
    (tr_parent_present t) (tr_ancestor_check t) (tr_quarantined_until_before t)
    (tr_quarantined_until_after t) (toy_hex_encode <$> tr_merkle_root t)
    (bool_decide (is_Some (tr_merkle_root t))) (toy_hex_encode <$> tr_preferred_tip t)
    (bool_decide (is_Some (tr_preferred_tip t))) (tr_author_weight_fp t).

(** The array lengths of the struct. *)
Definition wf_trace_row (t : TraceRow) : bool :=
  bool_decide (length (tr_prev_hash t) = 32%nat) && bool_decide (length (tr_author t) = 32%nat)
  && bool_decide (length (tr_payload_hash t) = 32%nat)
  && bool_decide (length (tr_signature t) = 64%nat)
  && match tr_merkle_root t with Some h => bool_decide (length h = 32%nat) | None => true end.

Lemma encode_row_text b t : wf_trace_row t = true -> row_text (encode_row b t) b t.
Proof.
  unfold wf_trace_row. rewrite !andb_true_iff, !bool_decide_eq_true. intros ((((? & ?) & ?) & ?) & Hroot).
  constructor; simpl; auto using hex32_encode, hex64_encode.
  intros s. destruct (tr_merkle_root t) as [h|]; [|done]. intros [= <-]. exists h.
  apply bool_decide_eq_true in Hroot. auto using hex32_encode.
Qed.

Lemma encode_trace_text bs ts :
  length bs = length ts -> forallb wf_trace_row ts = true -> trace_text (zip_with encode_row bs ts) bs ts.
Proof.
  revert ts. induction bs as [|b bs IH]; intros [|t ts]; try done; [constructor|].
  simpl. intros [= Hl] [Ht Hts]%andb_true_iff. constructor; [by apply encode_row_text|by apply IH].
Qed.

(** One author with a key: a genesis event and three children of it, all at
    node 1, each observed at its timestamp. *)
Definition demo_secret : list byte := replicate 32 x05.
Definition demo_signer : PublicKey := public_key_to_bytes (public_of_secret demo_secret).

Definition signed (prev : Hash) (ts : Z) (payload : byte) : Event :=
  let e := Event_new prev demo_signer ts (replicate 32 payload) (replicate 64 x00) in
  Event_new prev demo_signer ts (replicate 32 payload) (compute_signature_with_secret e demo_secret).

Definition event0 : Event := signed ZERO_HASH 1 x01.
Definition event1 : Event := signed (hash_event event0) 2 x02.
Definition event2 : Event := signed (hash_event event0) 3 x03.
Definition event3 : Event := signed (hash_event event0) 4 x04.

Definition ledger0 : Ledger := fst (add_event Ledger_new event0).
Definition ledger1 : Ledger := fst (add_event ledger0 event1).
Definition ledger2 : Ledger := fst (add_event ledger1 event2).
Definition ledger3 : Ledger := fst (add_event ledger2 event3).

Definition see (l : Ledger) (e : Event) : Observation :=
  mkObservation l (ev_timestamp e) 1 e (hash_event e).

Definition demo_run : list Observation := [see ledger0 event0; see ledger1 event1; see ledger2 event2].

Definition trace_config : SybilConfig := mkSybilConfig 8 16 Quarantine 1000 64 5.

Definition recording : SybilOverlay :=
  attach_trace_recorder (SybilOverlay_new trace_config) (Some TraceRecorder_new).

(** The rows a run leaves in the recorder. *)
Definition rows_of (bs : list Observation) : list TraceRow :=
  match observe_all demo_ln recording bs with
  | Some o => default [] (rows <$> trace_recorder o)
  | None => []
  end.

Lemma rows_of_recorded bs : exists o', recorded demo_ln recording bs (rows_of bs) o'.
Proof.
  destruct (observe_recorded demo_ln recording bs TraceRecorder_new) as (o' & new & E & Hr & Er).
  - unfold scale_ok, i64_max. simpl. lia.
  - done.
  - exists o'. unfold rows_of. by rewrite E, Er.
Qed.

Definition demo_header (root : option Hash) : TraceHeader :=
  mkTraceHeader x01 4 100 100 (mkSybilConfigSerde 8 16 1000 64) (toy_hex_encode <$> root) [].

Definition demo_doc (bs : list Observation) (l : Ledger) : TraceDoc :=
  mkTraceDoc (demo_header (merkle_root l)) (zip_with encode_row bs (rows_of bs)).

Lemma demo_ingested : ingested 4 Ledger_new ∅ demo_run ledger2.
Proof.
  do 3 (eapply ingested_cons; [vm_compute; reflexivity|vm_compute; reflexivity|reflexivity|]).
  constructor.
Qed.

Lemma demo_doc_passes : check_trace demo_ln 4 5 (demo_doc demo_run ledger2) = Pass tt.
Proof. vm_compute. reflexivity. Qed.

Lemma trace_check_sound_witness :
  exists evs l,
    rows_verified (SybilConfig_from 5 (mkSybilConfigSerde 8 16 1000 64)) Ledger_new
      (td_rows (demo_doc demo_run ledger2)) evs l /\ reachable l.
Proof.
  destruct (trace_check_sound demo_ln 4 5 (demo_doc demo_run ledger2) demo_doc_passes)
    as (evs & l & Hv & Hr & _).
  exact (ex_intro _ evs (ex_intro _ l (conj Hv Hr))).
Defined.

Lemma demo_times :
  Forall (fun r => is_u64 (rs_timestamp r)) (td_rows (demo_doc demo_run ledger2)).
Proof.
  refine (bool_decide_unpack _ _). vm_compute. exact I.
Qed.

Lemma trace_root_pins_events_witness :
  exists evs1 l1 evs2 l2,
    evs1 ≡ₚ evs2 \/ collision_among (trace_messages evs1 l1 ++ trace_messages evs2 l2).
Proof.
  destruct (trace_root_pins_events demo_ln 4 5 (demo_doc demo_run ledger2) (demo_doc demo_run ledger2)
    (toy_hex_encode (default [] (merkle_root ledger2))) (default [] (merkle_root ledger2))
    demo_doc_passes demo_doc_passes demo_times demo_times) as (evs1 & l1 & evs2 & l2 & _ & _ & Hp).
  - vm_compute. reflexivity.
  - vm_compute. reflexivity.
  - vm_compute. reflexivity.
  - vm_compute. discriminate.
  - reflexivity.
  - exact (ex_intro _ evs1 (ex_intro _ l1 (ex_intro _ evs2 (ex_intro _ l2 Hp)))).
Defined.

Definition fresh_test (q : Z) (t : TraceRow) : bool :=
  bool_decide (is_u64 (tr_quarantined_until_before t))
  && (tr_ancestor_check t
      || bool_decide (tr_quarantined_until_before t <= tr_timestamp t)
         && bool_decide (tr_timestamp t + q <= u64_max)).

Lemma fresh_test_ok q ts : forallb (fresh_test q) ts = true -> Forall (fresh_quarantine q) ts.
Proof.
  intros Ht. apply Forall_forall. intros t Hin. rewrite forallb_forall in Ht.
  apply list_elem_of_In, Ht, andb_true_iff in Hin as [Hu Hc].
  split; [by apply bool_decide_eq_true in Hu|]. intros E. rewrite E in Hc.
  apply andb_true_iff in Hc as [?%bool_decide_eq_true ?%bool_decide_eq_true]. done.
Qed.

Lemma correct_trace_passes_witness :
  check_trace demo_ln 4 5 (demo_doc demo_run ledger2) = Pass tt.
Proof.
  destruct (rows_of_recorded demo_run) as [o' Hr].
  apply (correct_trace_passes demo_ln 4 5 trace_config TraceRecorder_new demo_run (rows_of demo_run) o'
    ledger2 (demo_header (merkle_root ledger2)) (zip_with encode_row demo_run (rows_of demo_run)) Hr
    demo_ingested).
  - apply encode_trace_text; vm_compute; reflexivity.
  - apply fresh_test_ok. vm_compute. reflexivity.
  - unfold i64_max. simpl. lia.
  - simpl. lia.
  - reflexivity.
  - intros s. cbn [demo_header th_final_merkle_root]. destruct (merkle_root ledger2) as [h|] eqn:E.
    + intros [= <-]. exists h. split; [|reflexivity]. apply hex32_encode.
      apply (f_equal (fmap length)) in E. vm_compute in E. by injection E.
    + discriminate.
Defined.

(** The fourth event is a third child of the genesis event, inside the
    quarantine that the second child started. *)
Definition repeat_run : list Observation := demo_run ++ [see ledger3 event3].

Definition before_repeat : SybilOverlay :=
  default recording (observe_all demo_ln recording demo_run).
Definition after_repeat : SybilOverlay :=
  default recording (observe demo_ln before_repeat (see ledger3 event3)).
Definition repeat_row : TraceRow :=
  default (mkTraceRow [] [] 0 [] [] false false 0 0 None None 0) (last (rows_of repeat_run)).

Lemma repeat_row_recorded : row_of demo_ln before_repeat after_repeat (see ledger3 event3) repeat_row.
Proof. constructor; vm_compute; reflexivity. Qed.

Lemma repeated_equivocation_rejected_witness :
  check_claims 3 (encode_row (see ledger3 event3) repeat_row) trace_config
  = Reject (QuarantineTooSmall 3 19 20).
Proof.
  exact (repeated_equivocation_rejected demo_ln before_repeat after_repeat (see ledger3 event3)
    repeat_row (encode_row (see ledger3 event3) repeat_row) trace_config 3 repeat_row_recorded
    (encode_row_text (see ledger3 event3) repeat_row ltac:(vm_compute; reflexivity))
    ltac:(vm_compute; reflexivity) ltac:(vm_compute; reflexivity) ltac:(vm_compute; reflexivity)
    ltac:(vm_compute; split; [discriminate|reflexivity]) ltac:(vm_compute; discriminate)).
Defined.

(** The whole trace of that correct node is rejected. *)
Lemma correct_trace_rejected :
  check_trace demo_ln 4 5 (demo_doc repeat_run ledger3) = Reject (QuarantineTooSmall 3 19 20).
Proof. vm_compute. reflexivity. Qed.

(** Merging the traces of two nodes that saw the same event is rejected at the
    second copy. *)
Lemma merged_trace_rejected :
  check_trace demo_ln 4 5
    (mkTraceDoc (demo_header None)
       (td_rows (demo_doc [see ledger0 event0] ledger0) ++ td_rows (demo_doc [see ledger0 event0] ledger0)))
  = Reject (RowLink 1 Duplicate).
Proof. vm_compute. reflexivity. Qed.

End examples.
