(* ===== verification/FileStorage.v ===== *)
(** * Chunked files and their manifests (src/rust-core/src/storage.rs)

    Splitting a file into hashed chunks, the manifest with its text format and
    signature, verification and reassembly.  A file system maps a directory and
    an entry name to the bytes of a file; creating directories and writing
    files succeed, reading a missing file is an I/O error.  How many bytes one
    [read] of the input returns is an argument, as the operating system may
    return fewer than asked, and so is whether there is memory for a buffer of
    the size the caller chose; a size beyond [isize::MAX] is a panic. *)

From Stdlib Require Import ZArith Lia Strings.Byte.
From stdpp Require Import base gmap list strings.
From S2P Require Import Prelude Crypto Text Merkle.

Inductive ManifestProblem :=
| ChunkSizeZero | InvalidFileName | BadHex | LengthMismatch | UnknownLine
| MissingFileName | MissingTotalSize | MissingChunkSize | ChunkCountMismatch | TotalSizeMismatch.

Inductive StorageError :=
| Io
| InvalidManifest (msg : ManifestProblem)
| SignatureMissing
| SignatureInvalid
| HashMismatch (index : nat).

(** A file: a directory and the name of an entry in it. *)
Abbreviation Path := (Str * Str)%type.
Abbreviation FileSystem := (gmap Path (list byte)).

(** The operating system: how many bytes a read at a position is willing to
    return, and whether there is memory for a buffer of some size. *)
Record Os := mkOs { os_reads : nat -> nat; os_alloc : Z -> bool }.

(** How a computation that allocates a buffer ends: with a value, with the
    panic of [vec!] for a capacity beyond [isize::MAX], with the abort for
    refused memory, or, in the model only, out of fuel. *)
Inductive process (A : Type) := Finished (a : A) | CapacityPanic | MemoryAbort | OutOfSteps.
Arguments Finished {A} a.
Arguments CapacityPanic {A}.
Arguments MemoryAbort {A}.
Arguments OutOfSteps {A}.

#[global] Instance process_bind : MBind process := fun A B f m =>
  match m with
  | Finished a => f a
  | CapacityPanic => CapacityPanic
  | MemoryAbort => MemoryAbort
  | OutOfSteps => OutOfSteps
  end.

Definition finished {A} (m : process A) : option A :=
  match m with Finished a => Some a | _ => None end.

Definition isize_max : Z := 9223372036854775807.

(** [vec![0u8; size]]. *)
Definition zeroed (os : Os) (size : Z) : process unit :=
  if isize_max <? size then CapacityPanic
  else if os_alloc os size then Finished tt
  else MemoryAbort.

Record Manifest := mkManifest {
  mf_version : Z;
  mf_file_name : Str;
  mf_total_size : Z;
  mf_chunk_size : Z;
  mf_chunks : list Hash;
  mf_signer : option PublicKey;
  mf_signature : option Signature;
}.

Definition MANIFEST_MAGIC : Str := str "dvel-manifest-v1".

Section storage.
Context `{Sha256} `{Hex}.

(** ** Text *)

Definition canonical_string (m : Manifest) : Str :=
  MANIFEST_MAGIC ++ [newline]
  ++ str "file_name:" ++ mf_file_name m ++ [newline]
  ++ str "total_size:" ++ decimal (mf_total_size m) ++ [newline]
  ++ str "chunk_size:" ++ decimal (mf_chunk_size m) ++ [newline]
  ++ str "chunks:" ++ decimal (Z.of_nat (length (mf_chunks m))) ++ [newline]
  ++ concat (map (fun h => str "h:" ++ hex_encode h ++ [newline]) (mf_chunks m)).

Definition manifest_hash (m : Manifest) : Hash := sha256 (canonical_string m).

Definition storage_merkle_root (leaves : list Hash) : option Hash :=
  match leaves with
  | [] => None
  | _ :: _ => merkle_fold (sort_bytes leaves)
  end.

Definition chunk_merkle_root (m : Manifest) : option Hash := storage_merkle_root (mf_chunks m).

Definition to_string_with_signature (m : Manifest) : Str :=
  canonical_string m
  ++ match mf_signer m with
     | Some signer => str "signer:" ++ hex_encode signer ++ [newline]
     | None => []
     end
  ++ match mf_signature m with
     | Some sig => str "signature:" ++ hex_encode sig ++ [newline]
     | None => []
     end.

Definition hex_to_array (n : nat) (hex_str : Str) : result (list byte) StorageError :=
  match hex_decode hex_str with
  | None => Err (InvalidManifest BadHex)
  | Some bytes =>
      if decide (length bytes <> n) then Err (InvalidManifest LengthMismatch) else Ok bytes
  end.

(** The variables of [read_manifest]. *)
Record ManifestParse := mkManifestParse {
  mp_file_name : option Str;
  mp_total_size : option Z;
  mp_chunk_size : option Z;
  mp_chunks : list Hash;
  mp_signer : option PublicKey;
  mp_signature : option Signature;
  mp_declared : option Z;
}.

Definition parse_start : ManifestParse := mkManifestParse None None None [] None None None.

(** One turn of the loop over the lines. *)
Definition parse_line (p : ManifestParse) (line : Str) : result ManifestParse StorageError :=
  let '(mkManifestParse fname ts cs chunks signer sig declared) := p in
  if decide (line = []) then Ok p
  else if decide (line = MANIFEST_MAGIC) then Ok p
  else match strip_prefix (str "file_name:") line with
  | Some rest => Ok (mkManifestParse (Some rest) ts cs chunks signer sig declared)
  | None => match strip_prefix (str "total_size:") line with
  | Some rest => Ok (mkManifestParse fname (parse_u64 rest) cs chunks signer sig declared)
  | None => match strip_prefix (str "chunk_size:") line with
  | Some rest => Ok (mkManifestParse fname ts (parse_u64 rest) chunks signer sig declared)
  | None => match strip_prefix (str "chunks:") line with
  | Some rest => Ok (mkManifestParse fname ts cs chunks signer sig (parse_u64 rest))
  | None => match strip_prefix (str "h:") line with
  | Some rest =>
      let? hash := hex_to_array 32 rest in
      Ok (mkManifestParse fname ts cs (chunks ++ [hash]) signer sig declared)
  | None => match strip_prefix (str "signer:") line with
  | Some rest =>
      let? key := hex_to_array 32 rest in
      Ok (mkManifestParse fname ts cs chunks (Some key) sig declared)
  | None => match strip_prefix (str "signature:") line with
  | Some rest =>
      let? s := hex_to_array 64 rest in
      Ok (mkManifestParse fname ts cs chunks signer (Some s) declared)
  | None => Err (InvalidManifest UnknownLine)
  end end end end end end end.

Fixpoint parse_lines (p : ManifestParse) (ls : list Str) : result ManifestParse StorageError :=
  match ls with
  | [] => Ok p
  | l :: ls' => let? p := parse_line p l in parse_lines p ls'
  end.

(** [read_manifest] after the text is read. *)
Definition parse_manifest (text : Str) : result Manifest StorageError :=
  let? p := parse_lines parse_start (lines text) in
  let? fname := ok_or (mp_file_name p) (InvalidManifest MissingFileName) in
  let? ts := ok_or (mp_total_size p) (InvalidManifest MissingTotalSize) in
  let? cs := ok_or (mp_chunk_size p) (InvalidManifest MissingChunkSize) in
  if match mp_declared p with
     | Some n => negb (n =? Z.of_nat (length (mp_chunks p)))
     | None => false
     end
  then Err (InvalidManifest ChunkCountMismatch)
  else Ok (mkManifest 1 fname ts cs (mp_chunks p) (mp_signer p) (mp_signature p)).

Definition write_manifest (m : Manifest) (path : Path) (fs : FileSystem) : FileSystem :=
  <[path := to_string_with_signature m]> fs.

Definition read_manifest (path : Path) (fs : FileSystem) : result Manifest StorageError :=
  match fs !! path with
  | None => Err Io
  | Some text => if utf8_ok text then parse_manifest text else Err Io
  end.

Definition manifest_hash_from_file (path : Path) (fs : FileSystem) : result Hash StorageError :=
  let? m := read_manifest path fs in Ok (manifest_hash m).

Definition chunk_merkle_root_from_file (path : Path) (fs : FileSystem)
    : result (option Hash) StorageError :=
  let? m := read_manifest path fs in Ok (chunk_merkle_root m).

(** ** The manifest round trip *)

(** A manifest the code can have built: the array lengths and integer widths of
    the struct, and a name that is one line of UTF-8 text. *)
Definition wf_manifest (m : Manifest) : Prop :=
  mf_version m = 1 /\ utf8_ok (mf_file_name m) = true /\ plain_line (mf_file_name m) /\
  is_u64 (mf_total_size m) /\ is_u64 (mf_chunk_size m) /\
  is_u64 (Z.of_nat (length (mf_chunks m))) /\
  Forall (fun h => length h = 32%nat) (mf_chunks m) /\
  (forall k, mf_signer m = Some k -> length k = 32%nat) /\
  (forall s, mf_signature m = Some s -> length s = 64%nat).

(** The lines of the text form. *)
Definition manifest_lines (m : Manifest) : list Str :=
  [MANIFEST_MAGIC; str "file_name:" ++ mf_file_name m;
   str "total_size:" ++ decimal (mf_total_size m);
   str "chunk_size:" ++ decimal (mf_chunk_size m);
   str "chunks:" ++ decimal (Z.of_nat (length (mf_chunks m)))]
  ++ map (fun h => str "h:" ++ hex_encode h) (mf_chunks m)
  ++ match mf_signer m with Some k => [str "signer:" ++ hex_encode k] | None => [] end
  ++ match mf_signature m with Some s => [str "signature:" ++ hex_encode s] | None => [] end.

Definition join_lines (ls : list Str) : Str := concat (map (fun l => l ++ [newline]) ls).

Lemma join_lines_app l1 l2 : join_lines (l1 ++ l2) = join_lines l1 ++ join_lines l2.
Proof. unfold join_lines. by rewrite map_app, concat_app. Qed.

Lemma manifest_text_lines m : to_string_with_signature m = join_lines (manifest_lines m).
Proof.
  unfold to_string_with_signature, manifest_lines, canonical_string. rewrite !join_lines_app.
  generalize MANIFEST_MAGIC (str "file_name:") (str "total_size:") (str "chunk_size:")
    (str "chunks:") (str "h:") (str "signer:") (str "signature:").
  intros magic p1 p2 p3 p4 ph p5 p6. unfold join_lines. rewrite map_map.
  assert (forall hs, concat (map (fun h => ph ++ hex_encode h ++ [newline]) hs)
    = concat (map (fun h => (ph ++ hex_encode h) ++ [newline]) hs)) as Hh.
  { intros hs. f_equal. apply map_ext. intros h. by rewrite app_assoc. }
  rewrite Hh. destruct (mf_signer m), (mf_signature m); simpl;
    repeat (progress (rewrite <- ?app_assoc; simpl)); by rewrite ?app_nil_r.
Qed.

(** Each line is recognised by its prefix. *)
Ltac field_line :=
  destruct_all_parse; unfold parse_line;
  rewrite decide_False by discriminate; rewrite decide_False by discriminate; reflexivity
with destruct_all_parse := match goal with p : ManifestParse |- _ => destruct p end.

Lemma parse_magic p : parse_line p MANIFEST_MAGIC = Ok p.
Proof. by destruct p. Qed.

Lemma parse_file_name p x :
  parse_line p (str "file_name:" ++ x)
  = Ok (mkManifestParse (Some x) (mp_total_size p) (mp_chunk_size p) (mp_chunks p)
      (mp_signer p) (mp_signature p) (mp_declared p)).
Proof. field_line. Qed.

Lemma parse_total_size p x :
  parse_line p (str "total_size:" ++ x)
  = Ok (mkManifestParse (mp_file_name p) (parse_u64 x) (mp_chunk_size p) (mp_chunks p)
      (mp_signer p) (mp_signature p) (mp_declared p)).
Proof. field_line. Qed.

Lemma parse_chunk_size p x :
  parse_line p (str "chunk_size:" ++ x)
  = Ok (mkManifestParse (mp_file_name p) (mp_total_size p) (parse_u64 x) (mp_chunks p)
      (mp_signer p) (mp_signature p) (mp_declared p)).
Proof. field_line. Qed.

Lemma parse_declared p x :
  parse_line p (str "chunks:" ++ x)
  = Ok (mkManifestParse (mp_file_name p) (mp_total_size p) (mp_chunk_size p) (mp_chunks p)
      (mp_signer p) (mp_signature p) (parse_u64 x)).
Proof. field_line. Qed.

Lemma hex_to_array_encode n x : length x = n -> hex_to_array n (hex_encode x) = Ok x.
Proof.
  intros Hx. unfold hex_to_array. rewrite hex_decode_encode.
  by rewrite decide_False by (intros Hn; by apply Hn).
Qed.

Lemma parse_hash_line p h :
  length h = 32%nat ->
  parse_line p (str "h:" ++ hex_encode h)
  = Ok (mkManifestParse (mp_file_name p) (mp_total_size p) (mp_chunk_size p) (mp_chunks p ++ [h])
      (mp_signer p) (mp_signature p) (mp_declared p)).
Proof.
  intros Hh. transitivity (result_bind (hex_to_array 32 (hex_encode h)) (fun hash =>
    Ok (E := StorageError) (mkManifestParse (mp_file_name p) (mp_total_size p) (mp_chunk_size p)
      (mp_chunks p ++ [hash]) (mp_signer p) (mp_signature p) (mp_declared p)))).
  - field_line.
  - by rewrite hex_to_array_encode.
Qed.

Lemma parse_signer_line p k :
  length k = 32%nat ->
  parse_line p (str "signer:" ++ hex_encode k)
  = Ok (mkManifestParse (mp_file_name p) (mp_total_size p) (mp_chunk_size p) (mp_chunks p)
      (Some k) (mp_signature p) (mp_declared p)).
Proof.
  intros Hk. transitivity (result_bind (hex_to_array 32 (hex_encode k)) (fun key =>
    Ok (E := StorageError) (mkManifestParse (mp_file_name p) (mp_total_size p) (mp_chunk_size p)
      (mp_chunks p) (Some key) (mp_signature p) (mp_declared p)))).
  - field_line.
  - by rewrite hex_to_array_encode.
Qed.

Lemma parse_signature_line p x :
  length x = 64%nat ->
  parse_line p (str "signature:" ++ hex_encode x)
  = Ok (mkManifestParse (mp_file_name p) (mp_total_size p) (mp_chunk_size p) (mp_chunks p)
      (mp_signer p) (Some x) (mp_declared p)).
Proof.
  intros Hx. transitivity (result_bind (hex_to_array 64 (hex_encode x)) (fun sig =>
    Ok (E := StorageError) (mkManifestParse (mp_file_name p) (mp_total_size p) (mp_chunk_size p)
      (mp_chunks p) (mp_signer p) (Some sig) (mp_declared p)))).
  - field_line.
  - by rewrite hex_to_array_encode.
Qed.

Lemma parse_lines_app p l1 l2 :
  parse_lines p (l1 ++ l2) = result_bind (parse_lines p l1) (fun p => parse_lines p l2).
Proof.
  revert p. induction l1 as [|l l1 IH]; intros p; simpl; [done|].
  destruct (parse_line p l); simpl; [apply IH|done].
Qed.

Lemma parse_hash_lines p hs :
  Forall (fun h => length h = 32%nat) hs ->
  parse_lines p (map (fun h => str "h:" ++ hex_encode h) hs)
  = Ok (mkManifestParse (mp_file_name p) (mp_total_size p) (mp_chunk_size p) (mp_chunks p ++ hs)
      (mp_signer p) (mp_signature p) (mp_declared p)).
Proof.
  intros Hf. revert p. induction Hf as [|h hs Hh _ IH]; intros p.
  - rewrite app_nil_r. by destruct p.
  - cbn [map parse_lines]. rewrite parse_hash_line by done. cbn [result_bind]. rewrite IH.
    simpl. by rewrite <- app_assoc.
Qed.

(** *** The lines are plain text *)

Lemma plain_app_ascii prefix x :
  Forall (fun b => byte_in 0 127 b = true /\ b <> newline /\ b <> carriage_return) x ->
  newline ∉ prefix -> last prefix <> Some carriage_return -> utf8_ok prefix = true ->
  plain_line (prefix ++ x) /\ utf8_ok (prefix ++ x) = true.
Proof.
  intros Hx Hp Hl Hu. rewrite Forall_forall in Hx. split; [split|].
  - rewrite elem_of_app. intros [?|(_ & ? & _)%Hx]; done.
  - intros [El|[_ ?]]%last_app_Some; [|done].
    apply last_Some in El as [x' ->].
    destruct (Hx carriage_return) as (_ & _ & Hn); [set_solver|done].
  - apply utf8_app; [done|]. apply utf8_ascii, Forall_forall. intros b Hb. by apply Hx.
Qed.

Lemma plain_hex prefix x :
  newline ∉ prefix -> last prefix <> Some carriage_return -> utf8_ok prefix = true ->
  plain_line (prefix ++ hex_encode x) /\ utf8_ok (prefix ++ hex_encode x) = true.
Proof.
  apply plain_app_ascii. eapply Forall_impl; [apply hex_encode_digits|]. apply is_hex_digit_ascii.
Qed.

Lemma plain_decimal prefix z :
  0 <= z -> newline ∉ prefix -> last prefix <> Some carriage_return -> utf8_ok prefix = true ->
  plain_line (prefix ++ decimal z) /\ utf8_ok (prefix ++ decimal z) = true.
Proof.
  intros Hz. apply plain_app_ascii. eapply Forall_impl; [by apply decimal_digits|]. apply is_digit_ascii.
Qed.

(** Every line of a well-formed manifest is plain text. *)
Lemma manifest_lines_plain m :
  wf_manifest m -> Forall (fun l => plain_line l /\ utf8_ok l = true) (manifest_lines m).
Proof.
  intros (_ & Hu & [Hn Hcr] & Hts & Hcs & Hlen & Hhs & _ & _). unfold is_u64 in *.
  assert (forall p : Str, bool_decide (newline ∉ p) && bool_decide (last p <> Some carriage_return)
    && utf8_ok p = true -> newline ∉ p /\ last p <> Some carriage_return /\ utf8_ok p = true) as Hp.
  { intros p [[?%bool_decide_eq_true ?%bool_decide_eq_true]%andb_true_iff ?]%andb_true_iff. done. }
  assert (forall p x, bool_decide (newline ∉ p) && bool_decide (last p <> Some carriage_return)
    && utf8_ok p = true -> plain_line (p ++ hex_encode x) /\ utf8_ok (p ++ hex_encode x) = true) as Hhex
    by (intros p x (? & ? & ?)%Hp; by apply plain_hex).
  assert (forall p z, 0 <= z -> bool_decide (newline ∉ p) && bool_decide (last p <> Some carriage_return)
    && utf8_ok p = true -> plain_line (p ++ decimal z) /\ utf8_ok (p ++ decimal z) = true) as Hdec
    by (intros p z ? (? & ? & ?)%Hp; by apply plain_decimal).
  unfold manifest_lines. repeat apply Forall_cons_2.
  - destruct (Hp MANIFEST_MAGIC eq_refl) as (? & ? & ?). done.
  - destruct (Hp (str "file_name:") eq_refl) as (Hp1 & Hp2 & Hp3). split; [split|].
    + set_solver.
    + intros [?|[_ ?]]%last_app_Some; done.
    + by apply utf8_app.
  - apply Hdec; [lia|done].
  - apply Hdec; [lia|done].
  - apply Hdec; [lia|done].
  - apply Forall_app. split; [|apply Forall_app; split].
    + apply Forall_forall. intros l (h & -> & _)%list_elem_of_fmap. by apply Hhex.
    + destruct (mf_signer m); repeat constructor; by apply Hhex.
    + destruct (mf_signature m); repeat constructor; by apply Hhex.
Qed.

Lemma utf8_join_lines ls :
  Forall (fun l => plain_line l /\ utf8_ok l = true) ls -> utf8_ok (join_lines ls) = true.
Proof.
  induction 1 as [|l ls [_ Hl] _ IH]; [done|]. unfold join_lines in *. simpl.
  apply utf8_app; [|done]. by apply utf8_app.
Qed.

Lemma parse_manifest_lines m :
  wf_manifest m -> parse_lines parse_start (manifest_lines m)
  = Ok (mkManifestParse (Some (mf_file_name m)) (Some (mf_total_size m)) (Some (mf_chunk_size m))
      (mf_chunks m) (mf_signer m) (mf_signature m) (Some (Z.of_nat (length (mf_chunks m))))).
Proof.
  intros (_ & _ & _ & Hts & Hcs & Hlen & Hhs & Hsk & Hsg). unfold manifest_lines.
  cbn [app parse_lines]. rewrite parse_magic. cbn [result_bind].
  rewrite parse_file_name. cbn [result_bind]. rewrite parse_total_size. cbn [result_bind].
  rewrite parse_chunk_size. cbn [result_bind]. rewrite parse_declared. cbn [result_bind].
  rewrite !parse_decimal by done. rewrite parse_lines_app, parse_hash_lines by done.
  cbn [result_bind]. rewrite parse_lines_app. simpl mp_chunks.
  destruct (mf_signer m) as [k|]; cbn [parse_lines];
    [rewrite parse_signer_line by auto|]; cbn [result_bind];
    (destruct (mf_signature m) as [x|]; cbn [parse_lines];
      [rewrite parse_signature_line by auto|]); done.
Qed.

Lemma parse_manifest_text m :
  wf_manifest m -> parse_manifest (to_string_with_signature m) = Ok m.
Proof.
  intros Hwf. pose proof (manifest_lines_plain _ Hwf) as Hpl.
  unfold parse_manifest. rewrite manifest_text_lines. unfold join_lines.
  rewrite lines_terminated by (eapply Forall_impl; [exact Hpl|]; by intros ? []).
  rewrite parse_manifest_lines by done. simpl. rewrite Z.eqb_refl. simpl.
  destruct Hwf as (Hv & _). by destruct m; simpl in *; subst.
Qed.

Lemma read_written m path fs :
  wf_manifest m -> read_manifest path (write_manifest m path fs) = Ok m.
Proof.
  intros Hwf. unfold read_manifest, write_manifest. rewrite lookup_insert_eq.
  rewrite parse_manifest_text by done. rewrite manifest_text_lines.
  by rewrite utf8_join_lines by (by apply manifest_lines_plain).
Qed.

(** Manifests round trip: a well-formed manifest that is written to a
    file is read back as it was, signed or not, and the file's manifest hash
    and chunk root are those of the manifest. *)
Theorem manifest_roundtrip m path fs :
  wf_manifest m ->
  read_manifest path (write_manifest m path fs) = Ok m /\
  manifest_hash_from_file path (write_manifest m path fs) = Ok (manifest_hash m) /\
  chunk_merkle_root_from_file path (write_manifest m path fs) = Ok (chunk_merkle_root m).
Proof.
  intros Hwf. unfold manifest_hash_from_file, chunk_merkle_root_from_file. by rewrite read_written.
Qed.

(** ** Chunks *)

(** The components of a path between its slashes. *)
Fixpoint split_slash (cur s : Str) : list Str :=
  match s with
  | [] => [cur]
  | b :: s' => if decide (b = x2f) then cur :: split_slash [] s' else split_slash (cur ++ [b]) s'
  end.

(** [Path::file_name] as a [str]: the last component that is not empty or a
    dot, unless it is the parent directory or not text. *)
Definition input_file_name (input : Path) : option Str :=
  let components := split_slash [] (fst input) ++ [snd input] in
  match last (filter (fun c => c <> [] /\ c <> str ".") components) with
  | Some name => if decide (name = str ".." \/ utf8_ok name = false) then None else Some name
  | None => None
  end.

Lemma input_file_name_utf8 input name : input_file_name input = Some name -> utf8_ok name = true.
Proof.
  unfold input_file_name. destruct (last _) as [c|]; [|done]. case_decide as D; [done|]. intros [= <-].
  destruct (utf8_ok c) eqn:E; [done|]. exfalso. apply D. auto.
Qed.

Definition chunk_filename (file_name : Str) (index : nat) : Str :=
  file_name ++ str ".chunk." ++ decimal08 (Z.of_nat index).

Definition manifest_path (dir file_name : Str) : Path := (dir, file_name ++ str ".manifest").

Definition chunk_path (dir file_name : Str) (index : nat) : Path :=
  (dir, chunk_filename file_name index).

(** One [read] at [pos] with a buffer of [size] bytes: nothing at the end of
    the file, else between one byte and as many as fit; [wish] is the
    operating system's choice. *)
Definition read_at (fs : FileSystem) (input : Path) (pos : nat) (size : Z) (wish : nat) : list byte :=
  let rest := drop pos (default [] (fs !! input)) in
  take (Nat.max 1 (Z.to_nat (Z.min size (Z.of_nat wish)))) rest.

(** The loop of [chunk_file_to_dir]. *)
Fixpoint chunk_loop (fuel : nat) (os : Os) (input : Path) (out_dir file_name : Str)
    (chunk_size : Z) (fs : FileSystem) (pos idx : nat) (total : Z) (chunks : list Hash)
    : process (FileSystem * Z * list Hash) :=
  match fuel with
  | O => OutOfSteps
  | S fuel' =>
      match read_at fs input pos chunk_size (os_reads os pos) with
      | [] => Finished (fs, total, chunks)
      | (_ :: _) as data =>
          let total := saturating_add total (Z.of_nat (length data)) in
          let fs := <[chunk_path out_dir file_name idx := data]> fs in
          chunk_loop fuel' os input out_dir file_name chunk_size fs (pos + length data)
            (S idx) total (chunks ++ [sha256 data])
      end
  end.

(** [chunk_file_to_dir]: the buffer is allocated once the input is open; every
    read advances, so the size of the input bounds the loop
    ([chunk_loop_ok]). *)
Definition chunk_file_to_dir (os : Os) (input : Path) (out_dir : Str)
    (chunk_size : Z) (fs : FileSystem) : process (FileSystem * result Manifest StorageError) :=
  if chunk_size =? 0 then Finished (fs, Err (InvalidManifest ChunkSizeZero))
  else
    match input_file_name input with
    | None => Finished (fs, Err (InvalidManifest InvalidFileName))
    | Some file_name =>
        match fs !! input with
        | None => Finished (fs, Err Io)
        | Some content =>
            _ ← zeroed os chunk_size;
            '(fs, total, chunks) ← chunk_loop (S (length content)) os input out_dir file_name
                                     chunk_size fs 0 0 0 [];
            Finished (fs, Ok (mkManifest 1 file_name total chunk_size chunks None None))
        end
    end.

(** The loop of [verify_chunks]. *)
Fixpoint verify_loop (fs : FileSystem) (dir file_name : Str) (idx : nat) (total : Z)
    (chunks : list Hash) : result Z StorageError :=
  match chunks with
  | [] => Ok total
  | h :: rest =>
      match fs !! chunk_path dir file_name idx with
      | None => Err Io
      | Some data =>
          let total := saturating_add total (Z.of_nat (length data)) in
          if decide (sha256 data <> h) then Err (HashMismatch idx)
          else verify_loop fs dir file_name (S idx) total rest
      end
  end.

Definition verify_chunks (m : Manifest) (dir : Str) (fs : FileSystem) : result unit StorageError :=
  let? total := verify_loop fs dir (mf_file_name m) 0 0 (mf_chunks m) in
  if negb (total =? mf_total_size m) then Err (InvalidManifest TotalSizeMismatch) else Ok tt.

(** The loop of [reassemble]: the output grows in the file system, so a failed
    run leaves what it wrote. *)
Fixpoint reassemble_loop (dir file_name : Str) (output : Path) (idx : nat) (chunks : list Hash)
    (fs : FileSystem) : FileSystem * result unit StorageError :=
  match chunks with
  | [] => (fs, Ok tt)
  | h :: rest =>
      match fs !! chunk_path dir file_name idx with
      | None => (fs, Err Io)
      | Some buf =>
          if decide (sha256 buf <> h) then (fs, Err (HashMismatch idx))
          else
            reassemble_loop dir file_name output (S idx) rest
              (<[output := default [] (fs !! output) ++ buf]> fs)
      end
  end.

Definition reassemble (m : Manifest) (dir : Str) (output : Path) (fs : FileSystem)
    : FileSystem * result unit StorageError :=
  reassemble_loop dir (mf_file_name m) output 0 (mf_chunks m) (<[output := []]> fs).

(** *** Chunk paths *)

Lemma chunk_path_inj dir name i j :
  is_u64 (Z.of_nat i) -> is_u64 (Z.of_nat j) -> chunk_path dir name i = chunk_path dir name j -> i = j.
Proof.
  intros Hi Hj [= E]. unfold chunk_filename in E.
  do 2 apply (inj (app _)) in E. apply decimal08_inj in E; [lia|done..].
Qed.

(** A chunk is never stored over its input. *)
Lemma chunk_path_not_input input dir i : chunk_path dir (snd input) i <> input.
Proof.
  destruct input as [d name]. simpl. intros [= _ E]. apply (f_equal length) in E.
  unfold chunk_filename in E. rewrite !length_app in E. simpl in E. lia.
Qed.

(** The files the loop writes. *)
Fixpoint write_pieces (dir name : Str) (idx : nat) (pieces : list (list byte)) (fs : FileSystem)
    : FileSystem :=
  match pieces with
  | [] => fs
  | p :: rest => write_pieces dir name (S idx) rest (<[chunk_path dir name idx := p]> fs)
  end.

Lemma write_pieces_other dir name idx pieces fs path :
  (forall i, path <> chunk_path dir name i) ->
  write_pieces dir name idx pieces fs !! path = fs !! path.
Proof.
  intros Hne. revert idx fs. induction pieces as [|p pieces IH]; intros idx fs; simpl; [done|].
  rewrite IH. by rewrite lookup_insert_ne by (intros E; by apply (Hne idx)).
Qed.

Lemma write_pieces_before dir name idx pieces fs j :
  (j < idx)%nat -> is_u64 (Z.of_nat (idx + length pieces)) ->
  write_pieces dir name idx pieces fs !! chunk_path dir name j = fs !! chunk_path dir name j.
Proof.
  unfold is_u64. revert idx fs. induction pieces as [|p pieces IH]; intros idx fs Hj Hu; simpl in *; [done|].
  rewrite IH by lia. rewrite lookup_insert_ne; [done|].
  intros E%chunk_path_inj; unfold is_u64; lia.
Qed.

Lemma write_pieces_lookup dir name idx pieces fs i p :
  is_u64 (Z.of_nat (idx + length pieces)) -> pieces !! i = Some p ->
  write_pieces dir name idx pieces fs !! chunk_path dir name (idx + i) = Some p.
Proof.
  revert idx fs i. induction pieces as [|q pieces IH]; intros idx fs i Hu; [done|].
  destruct i as [|i]; simpl in *.
  - intros [= ->]. rewrite Nat.add_0_r, write_pieces_before; [apply lookup_insert_eq|lia|].
    unfold is_u64 in *. lia.
  - intros Hi. replace (idx + S i)%nat with (S idx + i)%nat by lia. apply IH; [|done].
    unfold is_u64 in *. lia.
Qed.

Lemma chunk_loop_ok fuel os input out_dir chunk_size fs data pos idx total chunks :
  fs !! input = Some data -> (length data - pos < fuel)%nat -> (pos <= length data)%nat ->
  0 <= total -> total + Z.of_nat (length data - pos) <= u64_max ->
  exists pieces,
    chunk_loop fuel os input out_dir (snd input) chunk_size fs pos idx total chunks
    = Finished (write_pieces out_dir (snd input) idx pieces fs,
                total + Z.of_nat (length data - pos), chunks ++ map sha256 pieces) /\
    concat pieces = drop pos data /\ (length pieces <= length data - pos)%nat /\
    Forall (fun p => p <> []) pieces.
Proof.
  revert fs pos idx total chunks. induction fuel as [|fuel IH];
    intros fs pos idx total chunks Hin Hf Hpos Ht Hmax; [lia|]. cbn [chunk_loop].
  unfold read_at. rewrite Hin. cbn [default from_option id]. set (k := Nat.max 1 _).
  destruct (take k (drop pos data)) as [|b l] eqn:E.
  - assert (drop pos data = []) as Ed.
    { destruct (drop pos data) as [|x r]; [done|]. destruct k eqn:Ek; [|done]. unfold k in Ek. lia. }
    apply (f_equal length) in Ed as El. rewrite length_drop in El. simpl in El.
    exists []. rewrite El, app_nil_r, Z.add_0_r, Ed. simpl. done.
  - rewrite <- E. set (piece := take k (drop pos data)) in *.
    assert (1 <= length piece <= length data - pos)%nat as Hlen.
    { split; [rewrite E; simpl; lia|]. unfold piece. rewrite length_take, length_drop. lia. }
    assert (<[chunk_path out_dir (snd input) idx := piece]> fs !! input = Some data) as Hin'.
    { rewrite lookup_insert_ne; [done|]. apply chunk_path_not_input. }
    destruct (IH _ (pos + length piece)%nat (S idx) (saturating_add total (Z.of_nat (length piece)))
      (chunks ++ [sha256 piece]) Hin') as (pieces & Hl & Hc & Hle & Hne);
      [lia|lia|unfold saturating_add; lia|unfold saturating_add; lia|].
    exists (piece :: pieces). rewrite Hl. split_and!; [| |simpl; lia|by constructor; [rewrite E|]].
    + simpl. rewrite <- app_assoc. simpl. do 3 f_equal. unfold saturating_add. lia.
    + simpl. rewrite Hc, <- drop_drop. unfold piece. rewrite length_take.
      destruct (Nat.le_ge_cases k (length (drop pos data))).
      * rewrite Nat.min_l by done. apply take_drop.
      * rewrite Nat.min_r, take_ge, drop_all by done. apply app_nil_r.
Qed.

(** The chunk files of a manifest hold the pieces. *)
Definition holds_pieces (fs : FileSystem) (dir name : Str) (idx : nat) (pieces : list (list byte))
    : Prop :=
  forall i p, pieces !! i = Some p -> fs !! chunk_path dir name (idx + i) = Some p.

Lemma holds_pieces_cons fs dir name idx p pieces :
  holds_pieces fs dir name idx (p :: pieces) <->
  fs !! chunk_path dir name idx = Some p /\ holds_pieces fs dir name (S idx) pieces.
Proof.
  split.
  - intros Hh. split; [rewrite <- (Nat.add_0_r idx); by apply (Hh 0%nat)|].
    intros i q Hq. replace (S idx + i)%nat with (idx + S i)%nat by lia. by apply (Hh (S i)).
  - intros [Hp Hh] [|i] q; simpl; [intros [= <-]; by rewrite Nat.add_0_r|].
    intros Hq. replace (idx + S i)%nat with (S idx + i)%nat by lia. by apply Hh.
Qed.

Definition bytes_total (pieces : list (list byte)) : Z := Z.of_nat (length (concat pieces)).

Lemma verify_loop_ok fs dir name idx total pieces :
  holds_pieces fs dir name idx pieces -> 0 <= total -> total + bytes_total pieces <= u64_max ->
  verify_loop fs dir name idx total (map sha256 pieces) = Ok (total + bytes_total pieces).
Proof.
  unfold bytes_total. revert idx total.
  induction pieces as [|p pieces IH]; intros idx total; simpl; [intros; f_equal; lia|].
  intros [-> Hh]%holds_pieces_cons Ht Hmax. rewrite length_app in *.
  rewrite decide_False by (intros Hn; by apply Hn).
  rewrite IH; [f_equal|done|..]; unfold saturating_add; lia.
Qed.

Lemma reassemble_loop_ok dir name output idx pieces fs acc :
  (forall i, output <> chunk_path dir name i) ->
  holds_pieces fs dir name idx pieces -> fs !! output = Some acc ->
  exists fs', reassemble_loop dir name output idx (map sha256 pieces) fs = (fs', Ok tt) /\
    fs' !! output = Some (acc ++ concat pieces).
Proof.
  intros Hne. revert idx fs acc. induction pieces as [|p pieces IH]; intros idx fs acc; simpl.
  - intros _ Ho. exists fs. by rewrite app_nil_r.
  - intros [-> Hh]%holds_pieces_cons ->. simpl.
    rewrite decide_False by (intros Hn; by apply Hn).
    destruct (IH (S idx) (<[output := acc ++ p]> fs) (acc ++ p)) as (fs' & E & Ho).
    + intros i q Hq. rewrite lookup_insert_ne by (intros Eq; by apply (Hne (S idx + i)%nat)). by apply Hh.
    + apply lookup_insert_eq.
    + exists fs'. by rewrite <- app_assoc in Ho.
Qed.

Lemma reassemble_pieces m dir output fs pieces :
  holds_pieces fs dir (mf_file_name m) 0 pieces -> map sha256 pieces = mf_chunks m ->
  (forall i, output <> chunk_path dir (mf_file_name m) i) ->
  exists fs', reassemble m dir output fs = (fs', Ok tt) /\ fs' !! output = Some (concat pieces).
Proof.
  intros Hh Hc Hout. unfold reassemble. rewrite <- Hc.
  destruct (reassemble_loop_ok dir (mf_file_name m) output 0 pieces (<[output := []]> fs) [])
    as (fs' & E & Ho); auto.
  - intros i p Hp. rewrite lookup_insert_ne by (intros Eq; by apply (Hout i)). by apply Hh.
  - apply lookup_insert_eq.
  - exists fs'. by rewrite E, Ho.
Qed.

Lemma verify_pieces m dir fs pieces :
  holds_pieces fs dir (mf_file_name m) 0 pieces -> map sha256 pieces = mf_chunks m ->
  mf_total_size m = bytes_total pieces -> bytes_total pieces <= u64_max ->
  verify_chunks m dir fs = Ok tt.
Proof.
  intros Hh Hc Ht Hu. unfold verify_chunks. rewrite <- Hc, verify_loop_ok by (done || lia). simpl.
  by rewrite Ht, Z.eqb_refl.
Qed.

(** What chunking leaves: the chunk files and the manifest that describes
    them. *)
Lemma chunk_file_ok os input out_dir chunk_size fs data :
  fs !! input = Some data -> input_file_name input = Some (snd input) ->
  0 < chunk_size <= isize_max -> os_alloc os chunk_size = true ->
  is_u64 (Z.of_nat (length data)) ->
  exists pieces,
    chunk_file_to_dir os input out_dir chunk_size fs
    = Finished (write_pieces out_dir (snd input) 0 pieces fs,
                Ok (mkManifest 1 (snd input) (Z.of_nat (length data)) chunk_size
                      (map sha256 pieces) None None)) /\
    concat pieces = data /\ (length pieces <= length data)%nat /\ Forall (fun p => p <> []) pieces /\
    holds_pieces (write_pieces out_dir (snd input) 0 pieces fs) out_dir (snd input) 0 pieces.
Proof.
  intros Hin Hname Hcs Hal Hu. unfold chunk_file_to_dir, zeroed, is_u64 in *.
  rewrite (proj2 (Z.eqb_neq _ _)), Hname, Hin by lia.
  rewrite (proj2 (Z.ltb_ge _ _)), Hal by lia. cbn [mbind process_bind].
  destruct (chunk_loop_ok (S (length data)) os input out_dir chunk_size fs data 0 0 0 [] Hin)
    as (pieces & -> & Hc & Hle & Hne); [lia..|]. rewrite drop_0, Nat.sub_0_r in *.
  exists pieces. do 4 (split; [done|]).
  intros i p Hp. apply write_pieces_lookup; [unfold is_u64; simpl; lia|done].
Qed.

(** Whatever the file, chunking it ends. *)
Lemma chunk_path_not_named input name dir i :
  input_file_name input = Some name -> chunk_path dir name i <> input.
Proof.
  unfold input_file_name. rewrite filter_app, filter_cons, filter_nil.
  case_decide as Hd.
  - rewrite last_snoc. case_decide; [done|]. intros [= <-]. apply chunk_path_not_input.
  - intros _ <-. apply Hd. unfold chunk_path, chunk_filename. simpl.
    split; intros E; apply (f_equal length) in E; rewrite !length_app in E; simpl in E; lia.
Qed.

Lemma chunk_loop_total fuel os input out_dir name chunk_size fs pos idx total chunks :
  input_file_name input = Some name -> (length (default [] (fs !! input)) - pos < fuel)%nat ->
  exists r, chunk_loop fuel os input out_dir name chunk_size fs pos idx total chunks = Finished r.
Proof.
  intros Hn. revert fs pos idx total chunks. induction fuel as [|fuel IH];
    intros fs pos idx total chunks Hf; [lia|]. cbn [chunk_loop].
  destruct (read_at fs input pos chunk_size _) as [|b l] eqn:E; [by eexists|]. rewrite <- E.
  apply IH. rewrite lookup_insert_ne by (by apply chunk_path_not_named).
  assert (length (read_at fs input pos chunk_size (os_reads os pos))
    <= length (default [] (fs !! input)) - pos)%nat as Hl.
  { unfold read_at. rewrite length_take, length_drop. lia. }
  rewrite E in *. simpl in *. lia.
Qed.

Lemma chunk_file_total os input out_dir chunk_size fs :
  0 <= chunk_size <= isize_max -> os_alloc os chunk_size = true ->
  exists r, chunk_file_to_dir os input out_dir chunk_size fs = Finished r.
Proof.
  intros Hs Hal. unfold chunk_file_to_dir, zeroed. destruct (chunk_size =? 0); [by eexists|].
  destruct (input_file_name input) as [name|] eqn:En; [|by eexists].
  destruct (fs !! input) as [data|] eqn:Ed; [|by eexists].
  rewrite (proj2 (Z.ltb_ge _ _)), Hal by lia. cbn [mbind process_bind].
  destruct (chunk_loop_total (S (length data)) os input out_dir name chunk_size fs 0 0 0 [] En)
    as [[[fs' total] chunks] ->]; [rewrite Ed; simpl; lia|]. by eexists.
Qed.

(** A chunk size beyond [isize::MAX] panics once the input is open, before
    anything is written. *)
Lemma chunk_file_oversized os input out_dir chunk_size fs :
  is_Some (fs !! input) -> is_Some (input_file_name input) -> isize_max < chunk_size ->
  chunk_file_to_dir os input out_dir chunk_size fs = CapacityPanic.
Proof.
  intros [data Hin] [name Hname] Hcs. unfold chunk_file_to_dir, zeroed.
  rewrite (proj2 (Z.eqb_neq _ _)), Hname, Hin by (unfold isize_max in *; lia).
  by rewrite (proj2 (Z.ltb_lt _ _)).
Qed.

(** A chunked file can be put together again: chunking a readable file with a
    positive chunk size for which there is memory ends with a manifest of the
    file's size, whatever lengths the reads return; the chunks verify against
    it, the input is unchanged, and reassembling to any path that is not one of
    the chunk files writes exactly the input's bytes. *)
Theorem chunk_reassemble_roundtrip os input out_dir chunk_size fs data output :
  fs !! input = Some data -> input_file_name input = Some (snd input) ->
  0 < chunk_size <= isize_max -> os_alloc os chunk_size = true ->
  is_u64 (Z.of_nat (length data)) ->
  (forall i, output <> chunk_path out_dir (snd input) i) ->
  exists fs' m,
    chunk_file_to_dir os input out_dir chunk_size fs = Finished (fs', Ok m) /\
    mf_total_size m = Z.of_nat (length data) /\ fs' !! input = Some data /\
    verify_chunks m out_dir fs' = Ok tt /\
    exists fs'', reassemble m out_dir output fs' = (fs'', Ok tt) /\ fs'' !! output = Some data.
Proof.
  intros Hin Hname Hcs Hal Hu Hout.
  destruct (chunk_file_ok os input out_dir chunk_size fs data Hin Hname Hcs Hal Hu)
    as (pieces & E & Hc & _ & _ & Hh). unfold is_u64 in Hu.
  eexists _, _. split; [exact E|]. split; [done|]. split; [|split].
  - rewrite write_pieces_other; [done|]. intros i Ei. by apply (chunk_path_not_input input out_dir i).
  - eapply verify_pieces; [exact Hh|done|unfold bytes_total; by rewrite Hc|].
    unfold bytes_total. rewrite Hc. lia.
  - rewrite <- Hc. by apply reassemble_pieces.
Qed.

(** *** Integrity *)

Lemma verify_loop_inv fs dir name idx total total' chunks :
  verify_loop fs dir name idx total chunks = Ok total' ->
  exists pieces, holds_pieces fs dir name idx pieces /\ map sha256 pieces = chunks.
Proof.
  revert idx total. induction chunks as [|h chunks IH]; intros idx total; simpl.
  - intros _. exists []. by split.
  - destruct (fs !! chunk_path dir name idx) as [data|] eqn:Ed; [|done]. case_decide as Hd; [done|].
    intros (pieces & Hh & <-)%IH. exists (data :: pieces). split; [by apply holds_pieces_cons|].
    simpl. f_equal. destruct (decide (sha256 data = h)); naive_solver.
Qed.

Lemma map_sha_inj l1 l2 :
  map sha256 l1 = map sha256 l2 -> l1 = l2 \/ collision_among (l1 ++ l2).
Proof.
  revert l2. induction l1 as [|x l1 IH]; intros [|y l2]; simpl; try done; [by left|].
  intros [= E E'].
  apply (sha256_inj_among [x; y]) in E as [->|]; [|collide|set_solver..].
  destruct (IH _ E') as [->|]; [by left|collide].
Qed.

(** A manifest pins down the contents: two directories that both verify
    against the same manifest hold the same chunk files, unless two of the
    chunk files collide under SHA-256; and reassembling a verified directory
    succeeds and writes the concatenation of its chunk files. *)
Theorem verified_chunks_agree m dir1 dir2 fs1 fs2 :
  verify_chunks m dir1 fs1 = Ok tt -> verify_chunks m dir2 fs2 = Ok tt ->
  exists pieces1 pieces2,
    holds_pieces fs1 dir1 (mf_file_name m) 0 pieces1 /\
    holds_pieces fs2 dir2 (mf_file_name m) 0 pieces2 /\
    length pieces1 = length (mf_chunks m) /\
    (pieces1 = pieces2 \/ collision_among (pieces1 ++ pieces2)) /\
    forall output, (forall i, output <> chunk_path dir1 (mf_file_name m) i) ->
      exists fs', reassemble m dir1 output fs1 = (fs', Ok tt) /\ fs' !! output = Some (concat pieces1).
Proof.
  unfold verify_chunks.
  intros (t1 & (p1 & H1 & E1)%verify_loop_inv & _)%result_bind_ok
    (t2 & (p2 & H2 & E2)%verify_loop_inv & _)%result_bind_ok.
  exists p1, p2. split; [done|]. split; [done|]. split; [by rewrite <- E1, length_map|].
  split; [apply map_sha_inj; congruence|]. intros output Hout. by apply reassemble_pieces.
Qed.

(** ** Signatures *)

Section signing.
Context `{Ed25519}.

(** [sign_manifest_inplace]: a secret key of 32 bytes is always accepted. *)
Definition sign_manifest_inplace (m : Manifest) (secret_key : list byte)
    : result Manifest StorageError :=
  let sig := sign secret_key (canonical_string m) in
  Ok (mkManifest (mf_version m) (mf_file_name m) (mf_total_size m) (mf_chunk_size m) (mf_chunks m)
        (Some (public_key_to_bytes (public_of_secret secret_key)))
        (Some (signature_to_bytes sig))).

Definition verify_manifest_signature (m : Manifest) : result unit StorageError :=
  let? signer := ok_or (mf_signer m) SignatureMissing in
  let? sig_bytes := ok_or (mf_signature m) SignatureMissing in
  let? pk := ok_or (public_key_from_bytes signer) SignatureInvalid in
  let? sig := ok_or (signature_from_bytes sig_bytes) SignatureInvalid in
  if verify_strict pk (canonical_string m) sig then Ok tt else Err SignatureInvalid.

Lemma sign_manifest_ok `{!Ed25519Laws} m secret_key :
  wf_manifest m ->
  exists m', sign_manifest_inplace m secret_key = Ok m' /\ wf_manifest m' /\
    verify_manifest_signature m' = Ok tt /\ is_Some (mf_signature m') /\
    mf_signer m' = Some (public_key_to_bytes (public_of_secret secret_key)) /\
    mf_file_name m' = mf_file_name m /\ mf_total_size m' = mf_total_size m /\
    mf_chunks m' = mf_chunks m /\ canonical_string m' = canonical_string m.
Proof.
  intros Hwf. eexists. split; [reflexivity|]. set (m' := mkManifest _ _ _ _ _ _ _). split; [|split].
  - destruct Hwf as (? & ? & ? & ? & ? & ? & ? & _ & _). repeat (split; [done|]).
    split; intros ? [= <-]; [apply derived_key_length|apply signed_length].
  - unfold verify_manifest_signature. simpl.
    rewrite derived_key_from_bytes, signed_from_bytes. simpl. by rewrite sign_verify_strict.
  - by split_and!; [eexists|..].
Qed.

(** A signed manifest survives the file: signing a well-formed manifest
    gives one that verifies, that is well-formed, and that still verifies after
    it is written to a file and read back. *)
Theorem signed_manifest_verifies `{!Ed25519Laws} m secret_key path fs :
  wf_manifest m ->
  exists m', sign_manifest_inplace m secret_key = Ok m' /\
    verify_manifest_signature m' = Ok tt /\
    canonical_string m' = canonical_string m /\
    result_bind (read_manifest path (write_manifest m' path fs)) verify_manifest_signature = Ok tt.
Proof.
  intros Hwf. destruct (sign_manifest_ok m secret_key Hwf) as (m' & E & Hwf' & Hv & _ & _ & _ & _ & _ & Hcs).
  exists m'. split_and!; try done. by rewrite read_written.
Qed.

End signing.

End storage.

(** ** Witnesses *)

Section witness.
Import Toy.

Definition demo_input : Path := (str "in", str "a.txt").
Definition demo_data : list byte := str "hello world".
Definition demo_files : FileSystem := {[demo_input := demo_data]}.

Definition demo_manifest : Manifest :=
  mkManifest 1 (str "a.txt") 11 4
    [sha256 (str "hell"); sha256 (str "o wo"); sha256 (str "rld")] None None.

Definition demo_chunks : FileSystem :=
  list_to_map [(chunk_path (str "out") (str "a.txt") 0, str "hell");
               (chunk_path (str "out") (str "a.txt") 1, str "o wo");
               (chunk_path (str "out") (str "a.txt") 2, str "rld")].

Lemma demo_manifest_wf : wf_manifest demo_manifest.
Proof.
  split; [done|]. split; [vm_compute; reflexivity|]. split.
  { split; [refine (bool_decide_unpack (newline ∉ str "a.txt") _); vm_compute; exact I|].
    vm_compute. discriminate. }
  unfold is_u64, u64_max. split; [simpl; lia|]. split; [simpl; lia|]. split; [simpl; lia|].
  split; [repeat constructor; apply sha256_length|]. by split.
Qed.

Lemma manifest_roundtrip_witness :
  read_manifest demo_input (write_manifest demo_manifest demo_input ∅) = Ok demo_manifest.
Proof. exact (proj1 (manifest_roundtrip demo_manifest demo_input ∅ demo_manifest_wf)). Defined.

(** Short reads, and room for anything. *)
Definition demo_os : Os := mkOs (fun _ => 3%nat) (fun _ => true).

Lemma chunk_reassemble_roundtrip_witness :
  exists fs' m fs'',
    chunk_file_to_dir demo_os demo_input (str "out") 4 demo_files = Finished (fs', Ok m) /\
    reassemble m (str "out") (str "back", str "b.txt") fs' = (fs'', Ok tt) /\
    fs'' !! (str "back", str "b.txt") = Some demo_data.
Proof.
  destruct (chunk_reassemble_roundtrip demo_os demo_input (str "out") 4 demo_files demo_data
    (str "back", str "b.txt")) as (fs' & m & E & _ & _ & _ & fs'' & E' & Ho).
  - apply lookup_insert_eq.
  - vm_compute. reflexivity.
  - unfold isize_max. lia.
  - reflexivity.
  - vm_compute. split; discriminate.
  - intros i E. discriminate (f_equal fst E).
  - exact (ex_intro _ fs' (ex_intro _ m (ex_intro _ fs'' (conj E (conj E' Ho))))).
Defined.

Lemma verified_chunks_agree_witness :
  exists pieces1 pieces2,
    holds_pieces demo_chunks (str "out") (str "a.txt") 0 pieces1 /\
    holds_pieces demo_chunks (str "out") (str "a.txt") 0 pieces2.
Proof.
  destruct (verified_chunks_agree demo_manifest (str "out") (str "out") demo_chunks demo_chunks)
    as (p1 & p2 & H1 & H2 & _).
  - vm_compute. reflexivity.
  - vm_compute. reflexivity.
  - exact (ex_intro _ p1 (ex_intro _ p2 (conj H1 H2))).
Defined.

Lemma signed_manifest_verifies_witness :
  exists m', sign_manifest_inplace demo_manifest (replicate 32 x05) = Ok m' /\
    verify_manifest_signature m' = Ok tt.
Proof.
  destruct (signed_manifest_verifies demo_manifest (replicate 32 x05) demo_input ∅ demo_manifest_wf)
    as (m' & E & Hv & _).
  exact (ex_intro _ m' (conj E Hv)).
Defined.

(** A file whose name ends its line early is chunked without an error, but the
    manifest that is written for it cannot be read back. *)
Definition odd_manifest : Manifest :=
  mkManifest 1 (str "a" ++ [newline] ++ str "b") 4 4 [sha256 (str "hell")] None None.

Theorem newline_name_unreadable :
  input_file_name (str "in", mf_file_name odd_manifest) = Some (mf_file_name odd_manifest) /\
  read_manifest demo_input (write_manifest odd_manifest demo_input ∅)
  = Err (InvalidManifest UnknownLine).
Proof. split; vm_compute; reflexivity. Qed.

(** The first line of the format is not required. *)
Theorem magic_not_required :
  is_ok (parse_manifest (str "file_name:x" ++ [newline] ++ str "total_size:0" ++ [newline]
                         ++ str "chunk_size:1")) = true.
Proof. vm_compute. reflexivity. Qed.

End witness.
