(* ===== verification/FileTool.v ===== *)
(** * The file tool (src/rust-core/src/bin/dvel-file.rs)

    The command line over the chunk storage: argument parsing, upload
    (chunk, sign, write the manifest) and download (read the manifest, check
    the signer, the signature and the chunks, reassemble).  Printed text is not
    modelled; an error is its kind, and the exit code is that of the process:
    a panic exits with 101, an abort has no exit code. *)

From Stdlib Require Import ZArith Lia Strings.Byte.
From stdpp Require Import base gmap list strings.
From S2P Require Import Prelude Crypto Text Merkle FileStorage.

Inductive CliError :=
| BadHexValue
| WrongKeyLength
| MissingArguments
| BadChunkSize
| MissingValue
| UnknownArgument (arg : Str)
| SignerMismatch
| Storage (e : StorageError)
| UnknownCommand.

(** A path argument: the directory before the last slash, and the name after
    it. *)
Fixpoint path_loop (dir : option Str) (cur : Str) (s : Str) : Path :=
  match s with
  | [] => (default [] dir, cur)
  | b :: s' =>
      if decide (b = x2f)
      then path_loop (Some (match dir with Some d => d ++ [x2f] ++ cur | None => cur end)) [] s'
      else path_loop dir (cur ++ [b]) s'
  end.

Definition path_of (s : Str) : Path :=
  match path_loop None [] s with
  | ([], name) => if decide (head s = Some x2f) then ([x2f], name) else ([], name)
  | p => p
  end.

Section tool.
Context `{Sha256} `{Hex} `{Ed25519}.

Definition parse_hex_array (n : nat) (s : Str) : result (list byte) CliError :=
  match hex_decode s with
  | None => Err BadHexValue
  | Some bytes => if decide (length bytes <> n) then Err WrongKeyLength else Ok bytes
  end.

(** The option loops of the two commands: one option with a key. *)
Fixpoint parse_options (option_name : Str) (key : option (list byte)) (args : list Str)
    : result (option (list byte)) CliError :=
  match args with
  | [] => Ok key
  | arg :: rest =>
      if decide (arg = option_name) then
        match rest with
        | [] => Err MissingValue
        | value :: rest' =>
            let? k := parse_hex_array 32 value in parse_options option_name (Some k) rest'
        end
      else Err (UnknownArgument arg)
  end.

Definition handle_upload (os : Os) (args : list Str) (fs : FileSystem)
    : process (FileSystem * result unit CliError) :=
  match args with
  | input :: out_dir :: size :: options =>
      match parse_u64 size with
      | None => Finished (fs, Err BadChunkSize)
      | Some chunk_size =>
          match parse_options (str "--sign") None options with
          | Err e => Finished (fs, Err e)
          | Ok sign_key =>
              '(fs, chunked) ← chunk_file_to_dir os (path_of input) out_dir chunk_size fs;
              match chunked with
              | Err e => Finished (fs, Err (Storage e))
              | Ok manifest =>
                  match match sign_key with
                        | Some sk => sign_manifest_inplace manifest sk
                        | None => Ok manifest
                        end with
                  | Err e => Finished (fs, Err (Storage e))
                  | Ok manifest =>
                      let mpath := manifest_path out_dir (mf_file_name manifest) in
                      Finished (write_manifest manifest mpath fs, Ok tt)
                  end
              end
          end
      end
  | _ => Finished (fs, Err MissingArguments)
  end.

Definition handle_download (args : list Str) (fs : FileSystem) : FileSystem * result unit CliError :=
  match args with
  | manifest_path :: chunk_dir :: output :: options =>
      match parse_options (str "--expect-signer") None options with
      | Err e => (fs, Err e)
      | Ok expect_signer =>
          match read_manifest (path_of manifest_path) fs with
          | Err e => (fs, Err (Storage e))
          | Ok manifest =>
              if match expect_signer with
                 | Some exp => bool_decide (mf_signer manifest <> Some exp)
                 | None => false
                 end
              then (fs, Err SignerMismatch)
              else
                match match mf_signature manifest with
                      | Some _ => verify_manifest_signature manifest
                      | None => Ok tt
                      end with
                | Err e => (fs, Err (Storage e))
                | Ok _ =>
                    match verify_chunks manifest chunk_dir fs with
                    | Err e => (fs, Err (Storage e))
                    | Ok _ =>
                        let '(fs, res) := reassemble manifest chunk_dir (path_of output) fs in
                        (fs, map_err Storage res)
                    end
                end
          end
      end
  | _ => (fs, Err MissingArguments)
  end.

(** [main]: the arguments after the program name, and the exit code.  The
    panic of the upload happens before it has written anything. *)
Definition file_tool_main (os : Os) (args : list Str) (fs : FileSystem) : process (FileSystem * Z) :=
  let exit_code (res : result unit CliError) : Z := if is_ok res then 0 else 1 in
  match args with
  | [] => Finished (fs, 1)
  | cmd :: rest =>
      if decide (cmd = str "upload") then
        match handle_upload os rest fs with
        | Finished (fs, res) => Finished (fs, exit_code res)
        | CapacityPanic => Finished (fs, 101)
        | MemoryAbort => MemoryAbort
        | OutOfSteps => OutOfSteps
        end
      else if decide (cmd = str "download") then
        let '(fs, res) := handle_download rest fs in Finished (fs, exit_code res)
      else Finished (fs, 1)
  end.

(** ** Paths *)

Lemma path_loop_name dir cur s : x2f ∉ s -> path_loop dir cur s = (default [] dir, cur ++ s).
Proof.
  revert cur. induction s as [|b s IH]; intros cur Hn; cbn [path_loop]; [by rewrite app_nil_r|].
  rewrite decide_False by set_solver. rewrite IH by set_solver. by rewrite <- app_assoc.
Qed.

Lemma path_loop_dir dir cur d name :
  x2f ∉ name ->
  path_loop dir cur (d ++ x2f :: name)
  = (match dir with Some p => p ++ [x2f] ++ cur ++ d | None => cur ++ d end, name).
Proof.
  intros Hn. revert dir cur. induction d as [|b d IH]; intros dir cur; cbn [app path_loop].
  - rewrite decide_True, path_loop_name, !app_nil_r by done. by destruct dir.
  - case_decide as Hb.
    + subst b. rewrite IH. destruct dir; simpl; f_equal; by rewrite <- !app_assoc.
    + rewrite IH. by rewrite <- app_assoc.
Qed.

Lemma path_of_join dir name :
  dir <> [] -> x2f ∉ name -> path_of (dir ++ [x2f] ++ name) = (dir, name).
Proof.
  intros Hd Hn. unfold path_of. cbn [app]. rewrite path_loop_dir by done. simpl. by destruct dir.
Qed.

Lemma path_of_name s : x2f ∉ snd (path_of s).
Proof.
  assert (forall s dir cur, x2f ∉ cur -> x2f ∉ snd (path_loop dir cur s)) as Hl.
  { induction s0 as [|b s0 IH]; intros dir cur Hc; cbn [path_loop]; [done|].
    case_decide; apply IH; set_solver. }
  specialize (Hl s None [] ltac:(set_solver)). unfold path_of.
  destruct (path_loop None [] s) as [[|x d] name]; [|done]. by case_decide.
Qed.

(** ** Upload and download *)

Lemma parse_one_option name sk :
  length sk = 32%nat -> parse_options name None [name; hex_encode sk] = Ok (Some sk).
Proof.
  intros Hl. cbn [parse_options]. rewrite decide_True by done. unfold parse_hex_array.
  rewrite hex_decode_encode, decide_False by lia. done.
Qed.

Lemma manifest_not_chunk dir name i : manifest_path dir name <> chunk_path dir name i.
Proof.
  unfold manifest_path, chunk_path, chunk_filename. intros [= E].
  apply (inj (app name)) in E. discriminate E.
Qed.

(** A verified manifest on disk is downloaded. *)
Lemma download_ok mpath dir output options expect fs m pieces :
  parse_options (str "--expect-signer") None options = Ok expect ->
  read_manifest (path_of mpath) fs = Ok m ->
  (forall k, expect = Some k -> mf_signer m = Some k) ->
  (is_Some (mf_signature m) -> verify_manifest_signature m = Ok tt) ->
  holds_pieces fs dir (mf_file_name m) 0 pieces -> map sha256 pieces = mf_chunks m ->
  mf_total_size m = bytes_total pieces -> bytes_total pieces <= u64_max ->
  (forall i, path_of output <> chunk_path dir (mf_file_name m) i) ->
  exists fs', handle_download ([mpath; dir; output] ++ options) fs = (fs', Ok tt) /\
    fs' !! path_of output = Some (concat pieces).
Proof.
  intros Ho Hr He Hs Hh Hc Ht Hu Hout. cbn [app handle_download]. rewrite Ho, Hr.
  assert (match expect with Some exp => bool_decide (mf_signer m <> Some exp) | None => false end = false)
    as ->. { destruct expect as [k|]; [|done]. rewrite (He k) by done.
    apply bool_decide_eq_false_2. intros Hn. by apply Hn. }
  assert (match mf_signature m with Some _ => verify_manifest_signature m | None => Ok tt end = Ok tt)
    as ->. { destruct (mf_signature m); [by apply Hs|done]. }
  rewrite (verify_pieces m dir fs pieces) by done.
  destruct (reassemble_pieces m dir (path_of output) fs pieces Hh Hc Hout) as (fs' & -> & Ho').
  by exists fs'.
Qed.

Lemma chunked_manifest_wf input total cs pieces :
  input_file_name input = Some (snd input) -> plain_line (snd input) -> is_u64 total -> is_u64 cs ->
  Z.of_nat (length pieces) <= total ->
  wf_manifest (mkManifest 1 (snd input) total cs (map sha256 pieces) None None).
Proof.
  intros Hname Hplain Ht Hc Hle. unfold wf_manifest, is_u64 in *. simpl. rewrite length_map.
  split; [done|]. split.
  { by apply input_file_name_utf8 in Hname. }
  repeat (split; [done || lia|]). split; [|by split]. apply Forall_map, Forall_forall.
  intros p _. apply sha256_length.
Qed.

(** C20: upload and download are inverse: after [dvel-file upload] of a readable
    file with a signing key and a positive chunk size that does not exceed
    [isize::MAX] and for which there is memory, [dvel-file download] of the
    manifest it wrote, expecting that key's signer, succeeds and writes exactly
    the uploaded bytes, for any output path that is not one of the chunk
    files. *)
Theorem file_tool_roundtrip `{!Ed25519Laws} os input out size fs data cs sk output :
  let name := snd (path_of input) in
  fs !! path_of input = Some data -> input_file_name (path_of input) = Some name ->
  plain_line name -> out <> [] -> parse_u64 size = Some cs ->
  0 < cs <= isize_max -> os_alloc os cs = true ->
  is_u64 (Z.of_nat (length data)) -> length sk = 32%nat ->
  (forall i, path_of output <> chunk_path out name i) ->
  exists fs' fs'',
    file_tool_main os [str "upload"; input; out; size; str "--sign"; hex_encode sk] fs
    = Finished (fs', 0) /\
    file_tool_main os
      [str "download"; out ++ [x2f] ++ name ++ str ".manifest"; out; output;
       str "--expect-signer"; hex_encode (public_key_to_bytes (public_of_secret sk))] fs'
    = Finished (fs'', 0) /\
    fs'' !! path_of output = Some data.
Proof.
  intros name Hin Hname Hplain Hout Hsize Hcs Hal Hu Hsk Hdis.
  destruct (chunk_file_ok os (path_of input) out cs fs data Hin Hname Hcs Hal Hu)
    as (pieces & Ec & Hcat & Hle & _ & Hh). set (m := mkManifest _ _ _ _ _ _ _) in Ec.
  pose proof (parse_u64_range _ _ Hsize) as Hcu. unfold is_u64 in Hu, Hcu.
  assert (wf_manifest m) as Hwf.
  { apply chunked_manifest_wf; [done..| |lia]. unfold is_u64. lia. }
  destruct (sign_manifest_ok m sk Hwf) as (m' & Esig & Hwf' & Hv & _ & Hsg & Hn & Hts & Hch & _).
  set (fs1 := write_pieces _ _ _ _ _) in *.
  assert (bytes_total pieces = Z.of_nat (length data)) as Hbt by (unfold bytes_total; by rewrite Hcat).
  set (fs' := write_manifest m' (manifest_path out (mf_file_name m')) fs1).
  destruct (download_ok (out ++ [x2f] ++ name ++ str ".manifest") out output
    [str "--expect-signer"; hex_encode (public_key_to_bytes (public_of_secret sk))]
    (Some (public_key_to_bytes (public_of_secret sk))) fs' m' pieces) as (fs'' & Ed & Ho).
  - apply parse_one_option. apply derived_key_length.
  - rewrite path_of_join; [|done|]. { unfold fs'. rewrite Hn. by apply read_written. }
    intros [Hi|Hi]%elem_of_app; [by apply (path_of_name input)|].
    revert Hi. refine (bool_decide_unpack (x2f ∉ str ".manifest") _). vm_compute. exact I.
  - by intros k [= <-].
  - done.
  - intros i p Hp. unfold fs', write_manifest. rewrite Hn.
    rewrite lookup_insert_ne by (intros E; by apply (manifest_not_chunk out (mf_file_name m) i)).
    by apply Hh.
  - by rewrite Hch.
  - by rewrite Hts, Hbt.
  - lia.
  - by rewrite Hn.
  - exists fs', fs''. split_and!; [| |by rewrite Ho, Hcat].
    + unfold file_tool_main. rewrite decide_True by done. cbn [handle_upload].
      rewrite Hsize, (parse_one_option (str "--sign")) by done. rewrite Ec. cbn [mbind process_bind]. by rewrite Esig.
    + unfold file_tool_main. rewrite decide_False, decide_True by done.
      match goal with |- context [handle_download ?a ?f] =>
        replace (handle_download a f) with (fs'', Ok tt : result unit CliError) by (symmetry; exact Ed) end.
      done.
Qed.

(** A chunk size beyond [isize::MAX] is not refused: the upload of a readable
    file panics, exits with 101 and leaves the files as they were. *)
Theorem oversized_chunk_panics os input out size fs cs sk :
  is_Some (fs !! path_of input) -> is_Some (input_file_name (path_of input)) ->
  parse_u64 size = Some cs -> isize_max < cs -> length sk = 32%nat ->
  file_tool_main os [str "upload"; input; out; size; str "--sign"; hex_encode sk] fs
  = Finished (fs, 101).
Proof.
  intros Hin Hname Hsize Hcs Hsk. unfold file_tool_main. rewrite decide_True by done.
  cbn [handle_upload]. rewrite Hsize, (parse_one_option (str "--sign")) by done.
  by rewrite chunk_file_oversized.
Qed.

(** C40: the expected signer is not authenticated: for every key, a manifest
    that merely names the key as its signer and carries no signature is
    accepted by [dvel-file download --expect-signer] with that key; whoever
    writes the manifest and the chunks needs no secret. *)
Theorem expected_signer_unauthenticated mpath dir output fs m key pieces :
  wf_manifest m -> mf_signer m = Some key -> mf_signature m = None ->
  holds_pieces fs dir (mf_file_name m) 0 pieces -> map sha256 pieces = mf_chunks m ->
  mf_total_size m = bytes_total pieces -> bytes_total pieces <= u64_max ->
  (forall i, path_of mpath <> chunk_path dir (mf_file_name m) i) ->
  (forall i, path_of output <> chunk_path dir (mf_file_name m) i) ->
  exists fs', handle_download [mpath; dir; output; str "--expect-signer"; hex_encode key]
                (write_manifest m (path_of mpath) fs) = (fs', Ok tt) /\
    fs' !! path_of output = Some (concat pieces).
Proof.
  intros Hwf Hk Hs Hh Hc Ht Hu Hm Hout.
  apply (download_ok mpath dir output [str "--expect-signer"; hex_encode key] (Some key)
    (write_manifest m (path_of mpath) fs) m); try done.
  - apply parse_one_option. by apply Hwf.
  - by apply read_written.
  - by intros k [= <-].
  - rewrite Hs. by intros [].
  - intros i p Hp. unfold write_manifest.
    rewrite lookup_insert_ne by (intros E; by apply (Hm i)). by apply Hh.
Qed.

End tool.

(** ** Witnesses *)

Section witness.
Import Toy.

Definition tool_input : Str := str "in/a.txt".

Lemma tool_files : demo_files !! path_of tool_input = Some demo_data.
Proof. vm_compute. reflexivity. Qed.

Lemma tool_output_free i : path_of (str "back/b.txt") <> chunk_path (str "out") (str "a.txt") i.
Proof. intros E. discriminate (f_equal fst E). Qed.

Lemma plain_name : plain_line (str "a.txt").
Proof. exact (proj1 (proj2 (proj2 demo_manifest_wf))). Qed.

Lemma file_tool_roundtrip_witness :
  exists fs' fs'' : FileSystem,
    file_tool_main demo_os
      [str "upload"; tool_input; str "out"; str "4"; str "--sign"; hex_encode (replicate 32 x05)]
      demo_files = Finished (fs', 0) /\ fs'' !! path_of (str "back/b.txt") = Some demo_data.
Proof.
  destruct (file_tool_roundtrip demo_os tool_input (str "out") (str "4") demo_files demo_data 4
    (replicate 32 x05) (str "back/b.txt")) as (fs' & fs'' & E & _ & Ho).
  - exact tool_files.
  - vm_compute. reflexivity.
  - exact plain_name.
  - discriminate.
  - vm_compute. reflexivity.
  - unfold isize_max. lia.
  - reflexivity.
  - vm_compute. split; discriminate.
  - reflexivity.
  - exact tool_output_free.
  - exact (ex_intro _ fs' (ex_intro _ fs'' (conj E Ho))).
Defined.

Definition forged_manifest : Manifest :=
  mkManifest 1 (str "a.txt") 11 4
    [sha256 (str "hell"); sha256 (str "o wo"); sha256 (str "rld")] (Some (replicate 32 x09)) None.

Lemma forged_manifest_wf : wf_manifest forged_manifest.
Proof.
  destruct demo_manifest_wf as (? & ? & ? & ? & ? & ? & ? & _ & _). repeat (split; [done|]).
  split; [by intros k [= <-]|done].
Qed.

Lemma expected_signer_unauthenticated_witness :
  exists fs', handle_download
    [str "evil/m"; str "out"; str "back/b.txt"; str "--expect-signer"; hex_encode (replicate 32 x09)]
    (write_manifest forged_manifest (path_of (str "evil/m")) demo_chunks) = (fs', Ok tt).
Proof.
  destruct (expected_signer_unauthenticated (str "evil/m") (str "out") (str "back/b.txt") demo_chunks
    forged_manifest (replicate 32 x09) [str "hell"; str "o wo"; str "rld"] forged_manifest_wf)
    as (fs' & E & _).
  - reflexivity.
  - reflexivity.
  - intros i p. destruct i as [|[|[|i]]]; [intros [= <-]; vm_compute; reflexivity..|done].
  - reflexivity.
  - reflexivity.
  - vm_compute. discriminate.
  - intros i E. discriminate (f_equal fst E).
  - exact tool_output_free.
  - exact (ex_intro _ fs' E).
Defined.

End witness.
