(* ===== verification/Ffi.v ===== *)
(** * The C interface (src/rust-core/src/ffi.rs)

    The handles the library gives out live in a heap; a null pointer is
    [None], and using a handle that was freed is undefined behaviour, a
    separate outcome.  A panic that would cross the C boundary aborts the
    process, and so does a failed allocation.  [Call] has one constructor for
    each of the 31 exported functions.  A pointer to a struct of the caller is the struct it points to,
    or [None]; an output parameter is its old contents and the function
    returns the new.  An overlay refers to its trace recorder by handle, so
    that two overlays can share one. *)

From Stdlib Require Import ZArith Lia Strings.Byte.
From stdpp Require Import base gmap list strings.
From S2P Require Import Prelude Crypto Text Event Merkle Ledger Validation Scoring Overlay FileStorage FileTool.

(** ** C structs *)

Abbreviation dvel_hash_t := Hash.
Abbreviation dvel_pubkey_t := PublicKey.
Abbreviation dvel_sig_t := Signature.

Record dvel_event_t := mk_dvel_event {
  ce_version : byte;
  ce_prev_hash : dvel_hash_t;
  ce_author : dvel_pubkey_t;
  ce_timestamp : Z;
  ce_payload_hash : dvel_hash_t;
  ce_signature : dvel_sig_t;
}.

Record dvel_validation_ctx_t := mk_dvel_ctx { cc_last_timestamp : Z }.

Inductive dvel_validation_result_t :=
| DVEL_OK
| DVEL_ERR_INVALID_VERSION
| DVEL_ERR_INVALID_SIGNATURE
| DVEL_ERR_TIMESTAMP_NON_MONOTONIC.

Inductive dvel_link_result_t :=
| DVEL_LINK_OK
| DVEL_LINK_ERR_DUPLICATE
| DVEL_LINK_ERR_MISSING_PARENT.

Inductive dvel_weight_policy_t := DVEL_WEIGHT_UNIT | DVEL_WEIGHT_LATEST_PER_AUTHOR_UNIT.

Record dvel_preferred_tip_t := mk_dvel_tip { ct_tip : dvel_hash_t; ct_score : Z; ct_has_value : bool }.
Record dvel_merkle_root_t := mk_dvel_root { cr_root : dvel_hash_t; cr_has_value : bool }.

Record dvel_sybil_config_t := mk_dvel_config {
  cs_warmup_ticks : Z;
  cs_quarantine_ticks : Z;
  cs_fixed_point_scale : Z;
  cs_max_link_walk : nat;
}.

Record dvel_trace_row_t := mk_dvel_row {
  cw_prev_hash : dvel_hash_t;
  cw_author : dvel_pubkey_t;
  cw_timestamp : Z;
  cw_payload_hash : dvel_hash_t;
  cw_signature : dvel_sig_t;
  cw_parent_present : bool;
  cw_ancestor_check : bool;
  cw_quarantined_until_before : Z;
  cw_quarantined_until_after : Z;
  cw_merkle_root : dvel_hash_t;
  cw_merkle_root_has : bool;
  cw_preferred_tip : dvel_hash_t;
  cw_preferred_tip_has : bool;
  cw_author_weight_fp : Z;
}.

Definition zero_hash : dvel_hash_t := replicate 32 x00.

Definition to_event (e : dvel_event_t) : Event :=
  mkEvent (ce_version e) (ce_prev_hash e) (ce_author e) (ce_timestamp e) (ce_payload_hash e)
    (ce_signature e).

Definition from_event (e : Event) : dvel_event_t :=
  mk_dvel_event (ev_version e) (ev_prev_hash e) (ev_author e) (ev_timestamp e) (ev_payload_hash e)
    (ev_signature e).

Definition from_trace_row (row : TraceRow) : dvel_trace_row_t :=
  mk_dvel_row (tr_prev_hash row) (tr_author row) (tr_timestamp row) (tr_payload_hash row)
    (tr_signature row) (tr_parent_present row) (tr_ancestor_check row)
    (tr_quarantined_until_before row) (tr_quarantined_until_after row)
    (default zero_hash (tr_merkle_root row)) (bool_decide (is_Some (tr_merkle_root row)))
    (default zero_hash (tr_preferred_tip row)) (bool_decide (is_Some (tr_preferred_tip row)))
    (tr_author_weight_fp row).

Definition map_validation_error (err : ValidationError) : dvel_validation_result_t :=
  match err with
  | InvalidVersion => DVEL_ERR_INVALID_VERSION
  | InvalidSignature => DVEL_ERR_INVALID_SIGNATURE
  | TimestampNonMonotonic => DVEL_ERR_TIMESTAMP_NON_MONOTONIC
  end.

Definition map_link_error (err : LedgerLinkError) : dvel_link_result_t :=
  match err with
  | Duplicate => DVEL_LINK_ERR_DUPLICATE
  | MissingParent => DVEL_LINK_ERR_MISSING_PARENT
  end.

(** ** Storage *)

(** The files, and the thread's last error message. *)
Record StorageWorld := mkStorageWorld { sw_files : FileSystem; sw_error : Str }.

Definition set_last_error (msg : Str) (w : StorageWorld) : StorageWorld := mkStorageWorld (sw_files w) msg.

(** [dvel_storage_last_error]: the message length, and the caller's buffer
    after the copy; [None] if the copy runs past the end of the buffer. *)
Definition dvel_storage_last_error (buf : option (list byte)) (buf_len : nat) (w : StorageWorld)
    : option (nat * option (list byte)) :=
  let bytes := sw_error w in
  let copy_len := Nat.min (length bytes) (buf_len - 1) in
  match buf with
  | Some old =>
      if bool_decide (buf_len = 0%nat) then Some (length bytes, buf)
      else if bool_decide (length old <= copy_len)%nat then None
      else Some (length bytes, Some (take copy_len bytes ++ [x00] ++ drop (S copy_len) old))
  | None => Some (length bytes, None)
  end.

(** A C string is its bytes before the terminator. *)
Definition cstr_to_str (ptr : option Str) : result Str Str :=
  match ptr with
  | None => Err (str "null pointer")
  | Some s => if utf8_ok s then Ok s else Err (str "invalid utf-8")
  end.

Definition problem_text (p : ManifestProblem) : Str :=
  match p with
  | ChunkSizeZero => str "chunk_size must be > 0"
  | InvalidFileName => str "invalid file name"
  | BadHex => str "bad hex"
  | LengthMismatch => str "length mismatch"
  | UnknownLine => str "unknown line"
  | MissingFileName => str "missing file_name"
  | MissingTotalSize => str "missing total_size"
  | MissingChunkSize => str "missing chunk_size"
  | ChunkCountMismatch => str "chunk count mismatch"
  | TotalSizeMismatch => str "total_size mismatch"
  end.

Section storage_calls.
Context `{Sha256} `{Hex} `{Ed25519} (io_text : Str).

(** [Display] of an error; the text of an I/O error is the system's. *)
Definition display (e : StorageError) : Str :=
  match e with
  | Io => str "io error: " ++ io_text
  | InvalidManifest msg => str "invalid manifest: " ++ problem_text msg
  | SignatureMissing => str "signature missing"
  | SignatureInvalid => str "signature invalid"
  | HashMismatch index => str "chunk " ++ decimal (Z.of_nat index) ++ str " hash mismatch"
  end.

(** A call that fails records its message. *)
Definition fail (msg : Str) (w : StorageWorld) : StorageWorld * bool := (set_last_error msg w, false).

Definition with_path (what : Str) (ptr : option Str) (w : StorageWorld)
    (k : Str -> process (StorageWorld * bool)) : process (StorageWorld * bool) :=
  match cstr_to_str ptr with
  | Ok s => k s
  | Err e => Finished (fail (what ++ str ": " ++ e) w)
  end.

(** [dvel_storage_chunk_file]; a panic in it would unwind into C and aborts the
    process instead. *)
Definition dvel_storage_chunk_file (os : Os) (input_path out_dir : option Str)
    (chunk_size : Z) (secret_key : option (list byte)) (sign : bool) (w : StorageWorld)
    : process (StorageWorld * bool) :=
  let w := set_last_error [] w in
  with_path (str "input_path") input_path w (fun input =>
  with_path (str "out_dir") out_dir w (fun out_dir =>
  '(fs, chunked) ← chunk_file_to_dir os (path_of input) out_dir chunk_size (sw_files w);
  match chunked with
  | Err e => Finished (fail (display e) (mkStorageWorld fs (sw_error w)))
  | Ok manifest =>
      let w := mkStorageWorld fs (sw_error w) in
      let write (manifest : Manifest) :=
        Finished (mkStorageWorld
                    (write_manifest manifest (manifest_path out_dir (mf_file_name manifest)) fs)
                    (sw_error w), true) in
      if sign then
        match secret_key with
        | None => Finished (fail (str "secret_key is null") w)
        | Some sk =>
            match sign_manifest_inplace manifest sk with
            | Err e => Finished (fail (display e) w)
            | Ok manifest => write manifest
            end
        end
      else write manifest
  end)).

Definition dvel_storage_download (manifest_path chunk_dir output_path : option Str)
    (expect_signer : option (list byte)) (w : StorageWorld) : process (StorageWorld * bool) :=
  let w := set_last_error [] w in
  with_path (str "manifest_path") manifest_path w (fun mpath =>
  with_path (str "chunk_dir") chunk_dir w (fun cdir =>
  with_path (str "output_path") output_path w (fun out =>
  match read_manifest (path_of mpath) (sw_files w) with
  | Err e => Finished (fail (display e) w)
  | Ok manifest =>
      if match expect_signer with
         | Some expected => bool_decide (mf_signer manifest <> Some expected)
         | None => false
         end
      then Finished (fail (str "signer mismatch") w)
      else
        match match mf_signature manifest with
              | Some _ => verify_manifest_signature manifest
              | None => Ok tt
              end with
        | Err e => Finished (fail (display e) w)
        | Ok _ =>
            match verify_chunks manifest cdir (sw_files w) with
            | Err e => Finished (fail (display e) w)
            | Ok _ =>
                let '(fs, res) := reassemble manifest cdir (path_of out) (sw_files w) in
                let w := mkStorageWorld fs (sw_error w) in
                match res with
                | Err e => Finished (fail (display e) w)
                | Ok _ => Finished (w, true)
                end
            end
        end
  end))).

Definition dvel_storage_manifest_hash (manifest_path : option Str) (out_hash : option dvel_hash_t)
    (w : StorageWorld) : StorageWorld * bool * option dvel_hash_t :=
  let w := set_last_error [] w in
  match out_hash with
  | None => (fail (str "out_hash is null") w, None)
  | Some _ =>
      match cstr_to_str manifest_path with
      | Err e => (fail (str "manifest_path: " ++ e) w, out_hash)
      | Ok mpath =>
          match manifest_hash_from_file (path_of mpath) (sw_files w) with
          | Ok h => (w, true, Some h)
          | Err e => (fail (display e) w, out_hash)
          end
      end
  end.

Definition dvel_storage_chunk_merkle_root (manifest_path : option Str) (out_hash : option dvel_hash_t)
    (w : StorageWorld) : StorageWorld * bool * option dvel_hash_t :=
  let w := set_last_error [] w in
  match out_hash with
  | None => (fail (str "out_hash is null") w, None)
  | Some _ =>
      match cstr_to_str manifest_path with
      | Err e => (fail (str "manifest_path: " ++ e) w, out_hash)
      | Ok mpath =>
          match chunk_merkle_root_from_file (path_of mpath) (sw_files w) with
          | Ok (Some h) => (w, true, Some h)
          | Ok None => (fail (str "no chunks") w, out_hash)
          | Err e => (fail (display e) w, out_hash)
          end
      end
  end.

(** The error message is copied inside the buffer: for a buffer of [buf_len]
    bytes the copy keeps the length, is NUL-terminated, and holds as much of
    the message as fits. *)
Theorem last_error_in_bounds buf buf_len w :
  length buf = buf_len -> buf_len <> 0%nat ->
  exists new k, dvel_storage_last_error (Some buf) buf_len w = Some (length (sw_error w), Some new) /\
    length new = buf_len /\ k = Nat.min (length (sw_error w)) (buf_len - 1) /\
    take k new = take k (sw_error w) /\ new !! k = Some x00 /\ drop (S k) new = drop (S k) buf.
Proof.
  intros Hl Hne. unfold dvel_storage_last_error. rewrite bool_decide_false by done.
  set (k := Nat.min (length (sw_error w)) (buf_len - 1)). rewrite bool_decide_false by lia.
  exists (take k (sw_error w) ++ [x00] ++ drop (S k) buf), k.
  assert (length (take k (sw_error w)) = k) as Hk by (rewrite length_take; lia).
  split; [done|]. split_and!.
  - rewrite !length_app, Hk, length_drop. simpl. lia.
  - done.
  - rewrite take_app_le by lia. rewrite take_take. by rewrite Nat.min_id.
  - rewrite lookup_app_r by lia. by rewrite Hk, Nat.sub_diag.
  - rewrite drop_app_ge by lia. rewrite Hk. by replace (S k - k)%nat with 1%nat by lia.
Qed.

Definition signer_option (name : Str) (key : option (list byte)) : list Str :=
  match key with Some k => [name; hex_encode k] | None => [] end.

Lemma parse_signer_option name key :
  (forall k, key = Some k -> length k = 32%nat) ->
  parse_options name None (signer_option name key) = Ok key.
Proof. intros Hk. destruct key as [k|]; [|done]. apply parse_one_option. by apply Hk. Qed.

(** The C storage calls and the command-line tool do the same: on the same
    files and arguments, [dvel_storage_chunk_file] and [dvel_storage_download]
    leave the same files as [dvel-file upload] and [download], and return true
    exactly when the command succeeds; they panic and abort together; and the
    last error is empty exactly after a success of the download. *)
Theorem storage_calls_agree os input out_dir size cs key mpath cdir output expect w :
  utf8_ok input = true -> utf8_ok out_dir = true -> parse_u64 size = Some cs ->
  utf8_ok mpath = true -> utf8_ok cdir = true -> utf8_ok output = true ->
  (forall k, key = Some k -> length k = 32%nat) ->
  (forall k, expect = Some k -> length k = 32%nat) ->
  (dvel_storage_chunk_file os (Some input) (Some out_dir) cs key
     (bool_decide (is_Some key)) w ≫= fun '(w', ok) => Finished (sw_files w', ok))
  = (handle_upload os ([input; out_dir; size] ++ signer_option (str "--sign") key) (sw_files w)
     ≫= fun '(fs, res) => Finished (fs, is_ok res)) /\
  exists w' ok,
    dvel_storage_download (Some mpath) (Some cdir) (Some output) expect w = Finished (w', ok) /\
    (sw_files w', ok)
    = (let '(fs, res) := handle_download
         ([mpath; cdir; output] ++ signer_option (str "--expect-signer") expect) (sw_files w) in
       (fs, is_ok res)) /\
    (ok = true <-> sw_error w' = []).
Proof.
  intros U1 U2 Hsz U3 U4 U5 Hk He. split.
  - unfold dvel_storage_chunk_file, with_path, cstr_to_str. rewrite U1, U2.
    cbn [app handle_upload]. rewrite Hsz, parse_signer_option by done. cbn [set_last_error sw_files].
    destruct (chunk_file_to_dir _ _ _ _ _) as [[fs [m|e]]| | |]; try done.
    destruct key as [sk|]; [|done]. rewrite bool_decide_true by done.
    cbn [mbind process_bind]. by destruct (sign_manifest_inplace m sk).
  - unfold dvel_storage_download, with_path, cstr_to_str. rewrite U3, U4, U5.
    cbn [app handle_download]. rewrite parse_signer_option by done. cbn [set_last_error sw_files].
    assert (forall e, display e <> []) as Hd by (intros []; discriminate).
    destruct (read_manifest _ _) as [m|e]; [|eexists _, _; split; [done|]; naive_solver].
    destruct (match expect with Some _ => _ | None => _ end).
    { eexists _, _. split; [done|]. split; [done|]. split; [done|]. intros E. discriminate E. }
    destruct (match mf_signature m with Some _ => _ | None => _ end) as [|e];
      [|eexists _, _; split; [done|]; naive_solver].
    destruct (verify_chunks m cdir _) as [|e]; [|eexists _, _; split; [done|]; naive_solver].
    destruct (reassemble m cdir _ _) as [fs [|e]]; eexists _, _; (split; [done|]); naive_solver.
Qed.

End storage_calls.

(** ** The heap *)

Abbreviation handle := Z.

(** A boxed overlay; the recorder is a raw pointer. *)
Record OverlayCell := mkOverlayCell {
  oc_cfg : SybilConfig;
  oc_authors : gmap PublicKey AuthorState;
  oc_recorder : option handle;
}.

Record Heap := mkHeap {
  hp_ledgers : gmap handle Ledger;
  hp_overlays : gmap handle OverlayCell;
  hp_recorders : gmap handle TraceRecorder;
  hp_next : handle;
  hp_skew : Z;
  hp_storage : StorageWorld;
}.

(** How a call ends; [OutOfFuel] is the model's only. *)
Inductive ffi (A : Type) := Ret (h : Heap) (a : A) | ProcessAbort | Undefined | OutOfFuel.
Arguments Ret {A} h a.
Arguments ProcessAbort {A}.
Arguments Undefined {A}.
Arguments OutOfFuel {A}.

Definition set_ledgers (f : gmap handle Ledger -> gmap handle Ledger) (h : Heap) : Heap :=
  mkHeap (f (hp_ledgers h)) (hp_overlays h) (hp_recorders h) (hp_next h) (hp_skew h) (hp_storage h).
Definition set_overlays (f : gmap handle OverlayCell -> gmap handle OverlayCell) (h : Heap) : Heap :=
  mkHeap (hp_ledgers h) (f (hp_overlays h)) (hp_recorders h) (hp_next h) (hp_skew h) (hp_storage h).
Definition set_recorders (f : gmap handle TraceRecorder -> gmap handle TraceRecorder) (h : Heap) : Heap :=
  mkHeap (hp_ledgers h) (hp_overlays h) (f (hp_recorders h)) (hp_next h) (hp_skew h) (hp_storage h).
Definition set_skew (s : Z) (h : Heap) : Heap :=
  mkHeap (hp_ledgers h) (hp_overlays h) (hp_recorders h) (hp_next h) s (hp_storage h).
Definition set_storage (w : StorageWorld) (h : Heap) : Heap :=
  mkHeap (hp_ledgers h) (hp_overlays h) (hp_recorders h) (hp_next h) (hp_skew h) w.

(** [Box::into_raw(Box::new(_))]: a handle that was never given out. *)
Definition fresh_handle (h : Heap) : Heap :=
  mkHeap (hp_ledgers h) (hp_overlays h) (hp_recorders h) (hp_next h + 1) (hp_skew h) (hp_storage h).

(** Dereferencing. *)
Definition deref {V A} (m : gmap handle V) (p : handle) (k : V -> ffi A) : ffi A :=
  match m !! p with Some v => k v | None => Undefined end.

Section calls.
Context `{Sha256} `{Hex} `{Ed25519} `{HashIter} (ln_1p : f64 -> f64) (io_text : Str).

(** ** Ledger *)

Definition dvel_hash_event_struct (ev : option dvel_event_t) : dvel_hash_t :=
  match ev with
  | None => zero_hash
  | Some ev => hash_event (to_event ev)
  end.

Definition dvel_ledger_new (h : Heap) : ffi handle :=
  Ret (set_ledgers <[hp_next h := Ledger_new]> (fresh_handle h)) (hp_next h).

Definition dvel_ledger_free (ledger : option handle) (h : Heap) : ffi unit :=
  match ledger with
  | None => Ret h tt
  | Some p => deref (hp_ledgers h) p (fun _ => Ret (set_ledgers (delete p) h) tt)
  end.

Definition dvel_ledger_add_event (ledger : option handle) (event : option dvel_event_t) (h : Heap)
    : ffi dvel_hash_t :=
  match ledger, event with
  | Some p, Some event =>
      deref (hp_ledgers h) p (fun l =>
        let '(l, hash) := add_event l (to_event event) in Ret (set_ledgers <[p := l]> h) hash)
  | _, _ => Ret h zero_hash
  end.

Definition dvel_ledger_link_event (ledger : option handle) (event : option dvel_event_t)
    (out_hash : option dvel_hash_t) (h : Heap) : ffi (dvel_link_result_t * option dvel_hash_t) :=
  match ledger, event with
  | Some p, Some event =>
      deref (hp_ledgers h) p (fun l =>
        match try_add_event l (to_event event) with
        | Ok (l, hash) =>
            Ret (set_ledgers <[p := l]> h)
              (DVEL_LINK_OK, match out_hash with Some _ => Some hash | None => None end)
        | Err err => Ret h (map_link_error err, out_hash)
        end)
  | _, _ => Ret h (DVEL_LINK_ERR_MISSING_PARENT, out_hash)
  end.

Definition dvel_ledger_get_event (ledger : option handle) (hash : option dvel_hash_t)
    (out_event : option dvel_event_t) (h : Heap) : ffi (bool * option dvel_event_t) :=
  match ledger, hash, out_event with
  | Some p, Some hash, Some _ =>
      deref (hp_ledgers h) p (fun l =>
        match get_event l hash with
        | Some ev => Ret h (true, Some (from_event ev))
        | None => Ret h (false, out_event)
        end)
  | _, _, _ => Ret h (false, out_event)
  end.

(** The hashes written to the output array; [out] is how many it has room
    for, and writing past its end is undefined. *)
Definition dvel_ledger_get_tips (ledger : option handle) (out : option nat) (max : nat) (h : Heap)
    : ffi (list dvel_hash_t) :=
  match ledger, out with
  | Some p, Some room =>
      if bool_decide (max = 0%nat) then Ret h []
      else
        deref (hp_ledgers h) p (fun l =>
          let written := take max (set_iter (get_tips l)) in
          if bool_decide (length written <= room)%nat then Ret h written else Undefined)
  | _, _ => Ret h []
  end.

Definition dvel_ledger_merkle_root (ledger : option handle) (out_root : option dvel_merkle_root_t)
    (h : Heap) : ffi (bool * option dvel_merkle_root_t) :=
  match ledger, out_root with
  | Some p, Some _ =>
      deref (hp_ledgers h) p (fun l =>
        match merkle_root l with
        | Some root => Ret h (true, Some (mk_dvel_root root true))
        | None => Ret h (false, Some (mk_dvel_root zero_hash false))
        end)
  | _, _ => Ret h (false, out_root)
  end.

Definition no_tip : dvel_preferred_tip_t := mk_dvel_tip zero_hash 0 false.

Definition tip_result (r : option (Hash * Z)) : dvel_preferred_tip_t :=
  match r with Some (tip, score) => mk_dvel_tip tip score true | None => no_tip end.

Definition dvel_select_preferred_tip (ledger : option handle) (policy : dvel_weight_policy_t)
    (max_steps : nat) (h : Heap) : ffi dvel_preferred_tip_t :=
  match ledger with
  | None => Ret h no_tip
  | Some p =>
      deref (hp_ledgers h) p (fun l =>
        let kind := match policy with
                    | DVEL_WEIGHT_UNIT => Unit_
                    | DVEL_WEIGHT_LATEST_PER_AUTHOR_UNIT => LatestPerAuthorUnit
                    end in
        Ret h (tip_result (select_preferred_tip_score l kind max_steps)))
  end.

(** ** Validation and keys *)

Definition dvel_validation_ctx_init (ctx : option dvel_validation_ctx_t) : option dvel_validation_ctx_t :=
  match ctx with None => None | Some _ => Some (mk_dvel_ctx 0) end.

Definition dvel_set_max_backward_skew (skew : Z) (h : Heap) : ffi unit :=
  Ret (set_skew (set_max_backward_skew skew) h) tt.

Definition dvel_validate_event (event : option dvel_event_t) (ctx : option dvel_validation_ctx_t)
    (h : Heap) : dvel_validation_result_t * option dvel_validation_ctx_t :=
  match event, ctx with
  | Some event, Some c =>
      match validate_event (hp_skew h) (to_event event) (mkValidationContext (cc_last_timestamp c)) with
      | Ok vctx => (DVEL_OK, Some (mk_dvel_ctx (last_timestamp vctx)))
      | Err err => (map_validation_error err, ctx)
      end
  | _, _ => (DVEL_ERR_INVALID_VERSION, ctx)
  end.

Definition dvel_sign_event (event : option dvel_event_t) (secret_key : option dvel_hash_t)
    (out_sig : option dvel_sig_t) : option dvel_sig_t :=
  match event, secret_key, out_sig with
  | Some event, Some sk, Some _ => Some (compute_signature_with_secret (to_event event) sk)
  | _, _, _ => out_sig
  end.

(** A secret of 32 bytes is always accepted. *)
Definition dvel_derive_pubkey_from_secret (secret_key : option dvel_hash_t)
    (out_pub : option dvel_pubkey_t) : bool * option dvel_pubkey_t :=
  match secret_key, out_pub with
  | Some sk, Some _ => (true, Some (public_key_to_bytes (public_of_secret sk)))
  | _, _ => (false, out_pub)
  end.

(** ** Trace recorders *)

Definition dvel_trace_recorder_new (h : Heap) : ffi handle :=
  Ret (set_recorders <[hp_next h := TraceRecorder_new]> (fresh_handle h)) (hp_next h).

Definition dvel_trace_recorder_free (ptr : option handle) (h : Heap) : ffi unit :=
  match ptr with
  | None => Ret h tt
  | Some p => deref (hp_recorders h) p (fun _ => Ret (set_recorders (delete p) h) tt)
  end.

Definition dvel_trace_recorder_clear (ptr : option handle) (h : Heap) : ffi unit :=
  match ptr with
  | None => Ret h tt
  | Some p => deref (hp_recorders h) p (fun r => Ret (set_recorders <[p := trace_clear r]> h) tt)
  end.

Definition dvel_trace_recorder_len (ptr : option handle) (h : Heap) : ffi nat :=
  match ptr with
  | None => Ret h 0%nat
  | Some p => deref (hp_recorders h) p (fun r => Ret h (trace_len r))
  end.

Definition dvel_trace_recorder_get (ptr : option handle) (idx : nat)
    (out_row : option dvel_trace_row_t) (h : Heap) : ffi (bool * option dvel_trace_row_t) :=
  match ptr, out_row with
  | Some p, Some _ =>
      deref (hp_recorders h) p (fun r =>
        match rows r !! idx with
        | Some row => Ret h (true, Some (from_trace_row row))
        | None => Ret h (false, out_row)
        end)
  | _, _ => Ret h (false, out_row)
  end.

(** ** The overlay *)

Definition dvel_sybil_overlay_new (h : Heap) : ffi handle :=
  Ret (set_overlays <[hp_next h := mkOverlayCell SybilConfig_default ∅ None]> (fresh_handle h))
    (hp_next h).

Definition dvel_sybil_overlay_free (ptr : option handle) (h : Heap) : ffi unit :=
  match ptr with
  | None => Ret h tt
  | Some p => deref (hp_overlays h) p (fun _ => Ret (set_overlays (delete p) h) tt)
  end.

Definition dvel_sybil_overlay_set_config (overlay : option handle) (c : option dvel_sybil_config_t)
    (h : Heap) : ffi unit :=
  match overlay, c with
  | Some p, Some c =>
      deref (hp_overlays h) p (fun o =>
        let config := mkSybilConfig (cs_warmup_ticks c) (cs_quarantine_ticks c) Quarantine
                        (cs_fixed_point_scale c) (cs_max_link_walk c) 5 in
        Ret (set_overlays <[p := mkOverlayCell config (oc_authors o) (oc_recorder o)]> h) tt)
  | _, _ => Ret h tt
  end.

Definition dvel_sybil_overlay_attach_trace_recorder (overlay recorder : option handle) (h : Heap)
    : ffi unit :=
  match overlay with
  | None => Ret h tt
  | Some p =>
      deref (hp_overlays h) p (fun o =>
        Ret (set_overlays <[p := mkOverlayCell (oc_cfg o) (oc_authors o) recorder]> h) tt)
  end.

(** [SybilOverlay::observe_event] on a boxed overlay: the recorder is
    dereferenced last, after the weight and the preferred tip are computed. *)
Definition observe_cell (p : handle) (o : OverlayCell) (l : Ledger) (tick observer_node : Z)
    (ev : Event) (hash : Hash) (h : Heap) : ffi unit :=
  let store (o' : SybilOverlay) :=
    set_overlays <[p := mkOverlayCell (cfg o') (authors_map o') (oc_recorder o)]> in
  match oc_recorder o with
  | None =>
      match observe_event ln_1p (mkSybilOverlay (oc_cfg o) (oc_authors o) None) l tick observer_node
              ev hash with
      | Some o' => Ret (store o' h) tt
      | None => ProcessAbort
      end
  | Some r =>
      let rec := default TraceRecorder_new (hp_recorders h !! r) in
      match observe_event ln_1p (mkSybilOverlay (oc_cfg o) (oc_authors o) (Some rec)) l tick
              observer_node ev hash with
      | Some o' =>
          deref (hp_recorders h) r (fun _ =>
            Ret (set_recorders <[r := default rec (trace_recorder o')]> (store o' h)) tt)
      | None => ProcessAbort
      end
  end.

Definition dvel_sybil_overlay_observe_event (overlay ledger : option handle) (tick observer_node : Z)
    (event_hash : option dvel_hash_t) (h : Heap) : ffi unit :=
  match overlay, ledger, event_hash with
  | Some p, Some q, Some hash =>
      deref (hp_ledgers h) q (fun l =>
        match get_event l hash with
        | Some ev =>
            deref (hp_overlays h) p (fun o => observe_cell p o l tick observer_node ev hash h)
        | None => Ret h tt
        end)
  | _, _, _ => Ret h tt
  end.

Definition dvel_sybil_overlay_author_weight_fp (overlay : option handle) (tick : Z)
    (author : dvel_pubkey_t) (h : Heap) : ffi Z :=
  match overlay with
  | None => Ret h 0
  | Some p =>
      deref (hp_overlays h) p (fun o =>
        match author_weight_fp ln_1p (mkSybilOverlay (oc_cfg o) (oc_authors o) None) tick author with
        | Some w => Ret h w
        | None => ProcessAbort
        end)
  end.

Definition dvel_select_preferred_tip_sybil (ledger overlay : option handle) (tick : Z)
    (max_steps : nat) (h : Heap) : ffi dvel_preferred_tip_t :=
  match ledger, overlay with
  | Some q, Some p =>
      deref (hp_ledgers h) q (fun l =>
        deref (hp_overlays h) p (fun o =>
          match select_preferred_tip_score_sybil ln_1p l
                  (mkSybilOverlay (oc_cfg o) (oc_authors o) None) tick max_steps with
          | Some r => Ret h (tip_result r)
          | None => ProcessAbort
          end))
  | _, _ => Ret h no_tip
  end.

(** ** Sequences of calls *)

(** Every exported function, with its arguments. *)
Inductive Call :=
| CLastError (buf : option (list byte)) (buf_len : nat)
| CHashEvent (ev : option dvel_event_t)
| CDerivePubkey (sk : option dvel_hash_t) (out : option dvel_pubkey_t)
| CChunkFile (os : Os) (input out_dir : option Str) (chunk_size : Z) (sk : option (list byte))
    (sign : bool)
| CDownload (mpath cdir output : option Str) (expect : option (list byte))
| CManifestHash (mpath : option Str) (out : option dvel_hash_t)
| CChunkRoot (mpath : option Str) (out : option dvel_hash_t)
| CCtxInit (ctx : option dvel_validation_ctx_t)
| CValidate (ev : option dvel_event_t) (ctx : option dvel_validation_ctx_t)
| CSign (ev : option dvel_event_t) (sk : option dvel_hash_t) (out : option dvel_sig_t)
| CLedgerNew
| CLedgerFree (l : option handle)
| CAddEvent (l : option handle) (ev : option dvel_event_t)
| CLinkEvent (l : option handle) (ev : option dvel_event_t) (out : option dvel_hash_t)
| CGetEvent (l : option handle) (hash : option dvel_hash_t) (out : option dvel_event_t)
| CGetTips (l : option handle) (out : option nat) (max : nat)
| CMerkleRoot (l : option handle) (out : option dvel_merkle_root_t)
| CSelectTip (l : option handle) (policy : dvel_weight_policy_t) (max_steps : nat)
| CSetSkew (skew : Z)
| CRecorderNew
| CRecorderFree (r : option handle)
| CRecorderClear (r : option handle)
| CRecorderLen (r : option handle)
| CRecorderGet (r : option handle) (idx : nat) (out : option dvel_trace_row_t)
| COverlayNew
| COverlayFree (o : option handle)
| CSetConfig (o : option handle) (c : option dvel_sybil_config_t)
| CAttach (o r : option handle)
| CObserve (o l : option handle) (tick node : Z) (hash : option dvel_hash_t)
| CWeight (o : option handle) (tick : Z) (author : dvel_pubkey_t)
| CSelectSybil (l o : option handle) (tick : Z) (max_steps : nat).

Definition forget {A} (r : ffi A) : ffi unit :=
  match r with
  | Ret h _ => Ret h tt
  | ProcessAbort => ProcessAbort
  | Undefined => Undefined
  | OutOfFuel => OutOfFuel
  end.

(** A call that computes from its arguments and the process alone. *)
Definition pure_call {A} (a : A) (h : Heap) : ffi unit := forget (Ret h a).

(** A storage call; neither a panic nor an abort returns to the caller. *)
Definition storage_call (m : process (StorageWorld * bool)) (h : Heap) : ffi unit :=
  match m with
  | Finished (w, _) => Ret (set_storage w h) tt
  | CapacityPanic | MemoryAbort => ProcessAbort
  | OutOfSteps => OutOfFuel
  end.

Definition exec (c : Call) (h : Heap) : ffi unit :=
  match c with
  | CLastError buf buf_len =>
      match dvel_storage_last_error buf buf_len (hp_storage h) with
      | Some r => pure_call r h
      | None => Undefined
      end
  | CHashEvent ev => pure_call (dvel_hash_event_struct ev) h
  | CDerivePubkey sk out => pure_call (dvel_derive_pubkey_from_secret sk out) h
  | CChunkFile os input out_dir chunk_size sk sign =>
      storage_call
        (dvel_storage_chunk_file io_text os input out_dir chunk_size sk sign (hp_storage h)) h
  | CDownload mpath cdir output expect =>
      storage_call (dvel_storage_download io_text mpath cdir output expect (hp_storage h)) h
  | CManifestHash mpath out =>
      storage_call (Finished (fst (dvel_storage_manifest_hash io_text mpath out (hp_storage h)))) h
  | CChunkRoot mpath out =>
      storage_call (Finished (fst (dvel_storage_chunk_merkle_root io_text mpath out (hp_storage h)))) h
  | CCtxInit ctx => pure_call (dvel_validation_ctx_init ctx) h
  | CValidate ev ctx => pure_call (dvel_validate_event ev ctx h) h
  | CSign ev sk out => pure_call (dvel_sign_event ev sk out) h
  | CLedgerNew => forget (dvel_ledger_new h)
  | CLedgerFree l => dvel_ledger_free l h
  | CAddEvent l ev => forget (dvel_ledger_add_event l ev h)
  | CLinkEvent l ev out => forget (dvel_ledger_link_event l ev out h)
  | CGetEvent l hash out => forget (dvel_ledger_get_event l hash out h)
  | CGetTips l out max => forget (dvel_ledger_get_tips l out max h)
  | CMerkleRoot l out => forget (dvel_ledger_merkle_root l out h)
  | CSelectTip l policy n => forget (dvel_select_preferred_tip l policy n h)
  | CSetSkew skew => dvel_set_max_backward_skew skew h
  | CRecorderNew => forget (dvel_trace_recorder_new h)
  | CRecorderFree r => dvel_trace_recorder_free r h
  | CRecorderClear r => dvel_trace_recorder_clear r h
  | CRecorderLen r => forget (dvel_trace_recorder_len r h)
  | CRecorderGet r idx out => forget (dvel_trace_recorder_get r idx out h)
  | COverlayNew => forget (dvel_sybil_overlay_new h)
  | COverlayFree o => dvel_sybil_overlay_free o h
  | CSetConfig o c => dvel_sybil_overlay_set_config o c h
  | CAttach o r => dvel_sybil_overlay_attach_trace_recorder o r h
  | CObserve o l tick node hash => dvel_sybil_overlay_observe_event o l tick node hash h
  | CWeight o tick author => forget (dvel_sybil_overlay_author_weight_fp o tick author h)
  | CSelectSybil l o tick n => forget (dvel_select_preferred_tip_sybil l o tick n h)
  end.

Fixpoint exec_all (cs : list Call) (h : Heap) : ffi unit :=
  match cs with
  | [] => Ret h tt
  | c :: rest =>
      match exec c h with
      | Ret h' _ => exec_all rest h'
      | ProcessAbort => ProcessAbort
      | Undefined => Undefined
      | OutOfFuel => OutOfFuel
      end
  end.

(** A process that has loaded the library, over some files. *)
Definition heap_new (files : FileSystem) : Heap :=
  mkHeap ∅ ∅ ∅ 1 default_max_backward_skew (mkStorageWorld files []).

(** A pointer the caller may pass: null, or a handle that is not freed. *)
Definition usable {V} (m : gmap handle V) (p : option handle) : Prop :=
  forall x, p = Some x -> is_Some (m !! x).

(** The rules a caller follows: only usable handles, output buffers as long as
    announced, no recorder is freed while an overlay points to it, scales fit
    [i64], and there is memory for a chunk. *)
Definition safe_call (c : Call) (h : Heap) : Prop :=
  match c with
  | CHashEvent _ | CDerivePubkey _ _ | CDownload _ _ _ _ | CManifestHash _ _ | CChunkRoot _ _
  | CCtxInit _ | CValidate _ _ | CSign _ _ _
  | CLedgerNew | CSetSkew _ | CRecorderNew | COverlayNew => True
  | CLastError buf buf_len => forall b, buf = Some b -> (buf_len <= length b)%nat
  | CChunkFile os _ _ chunk_size _ _ =>
      0 <= chunk_size <= isize_max /\ os_alloc os chunk_size = true
  | CGetTips l out max => usable (hp_ledgers h) l /\ forall room, out = Some room -> (max <= room)%nat
  | CLedgerFree l | CAddEvent l _ | CLinkEvent l _ _ | CGetEvent l _ _
  | CMerkleRoot l _ | CSelectTip l _ _ => usable (hp_ledgers h) l
  | CRecorderFree r => usable (hp_recorders h) r /\
      forall p o x, hp_overlays h !! p = Some o -> oc_recorder o = Some x -> r <> Some x
  | CRecorderClear r | CRecorderLen r | CRecorderGet r _ _ => usable (hp_recorders h) r
  | COverlayFree o | CWeight o _ _ => usable (hp_overlays h) o
  | CSetConfig o c => usable (hp_overlays h) o /\
      forall x, c = Some x -> 0 <= cs_fixed_point_scale x <= i64_max
  | CAttach o r => usable (hp_overlays h) o /\ usable (hp_recorders h) r
  | CObserve o l _ _ _ | CSelectSybil l o _ _ => usable (hp_overlays h) o /\ usable (hp_ledgers h) l
  end.

Fixpoint safe_calls (cs : list Call) (h : Heap) : Prop :=
  match cs with
  | [] => True
  | c :: rest => safe_call c h /\ forall h', exec c h = Ret h' tt -> safe_calls rest h'
  end.

Record HeapInv (h : Heap) : Prop := {
  heap_attached : forall p o r,
    hp_overlays h !! p = Some o -> oc_recorder o = Some r -> is_Some (hp_recorders h !! r);
  heap_scale : forall p o,
    hp_overlays h !! p = Some o -> 0 <= fixed_point_scale (oc_cfg o) <= i64_max;
}.

(** Every ledger was built by linking only. *)
Definition all_linked (h : Heap) : Prop :=
  forall p l, hp_ledgers h !! p = Some l -> reachable l.

Definition unchecked (c : Call) : bool := match c with CAddEvent _ _ => true | _ => false end.

(** The call returns, and keeps the invariant. *)
Definition returns_well (h : Heap) (linked : bool) (r : ffi unit) : Prop :=
  exists h', r = Ret h' tt /\ HeapInv h' /\ (linked = true -> all_linked h -> all_linked h').

Lemma returns_same {A} h linked (a : A) : HeapInv h -> returns_well h linked (forget (Ret h a)).
Proof. intros Hi. by exists h. Qed.

Lemma deref_usable {V A} (m : gmap handle V) p x (k : V -> ffi A) (P : ffi A -> Prop) :
  usable m p -> p = Some x -> (forall v, m !! x = Some v -> P (k v)) -> P (deref m x k).
Proof. intros Hu Hp Hk. destruct (Hu x Hp) as [v Hv]. unfold deref. rewrite Hv. by apply Hk. Qed.

Lemma HeapInv_ledgers f h : HeapInv h -> HeapInv (set_ledgers f h).
Proof. by intros [? ?]. Qed.

Lemma HeapInv_overlay p o h :
  HeapInv h -> (forall r, oc_recorder o = Some r -> is_Some (hp_recorders h !! r)) ->
  0 <= fixed_point_scale (oc_cfg o) <= i64_max -> HeapInv (set_overlays <[p := o]> h).
Proof.
  intros [Ha Hs] Hr Hsc. split; simpl.
  - intros q o' r [[_ <-]|[_ E]]%lookup_insert_Some; eauto.
  - intros q o' [[_ <-]|[_ E]]%lookup_insert_Some; eauto.
Qed.

Lemma HeapInv_recorder r rec h : HeapInv h -> HeapInv (set_recorders <[r := rec]> h).
Proof.
  intros [Ha Hs]. split; simpl; [|done]. intros q o x E Ex. apply lookup_insert_is_Some'. right. eauto.
Qed.

Lemma returns_overlay p o h linked :
  HeapInv h -> (forall r, oc_recorder o = Some r -> is_Some (hp_recorders h !! r)) ->
  0 <= fixed_point_scale (oc_cfg o) <= i64_max ->
  returns_well h linked (Ret (set_overlays <[p := o]> h) tt).
Proof. intros Hi Hr Hs. eexists. split; [done|]. split; [by apply HeapInv_overlay|done]. Qed.

Lemma observe_cell_returns p o l tick node ev hash h linked :
  HeapInv h -> hp_overlays h !! p = Some o ->
  returns_well h linked (observe_cell p o l tick node ev hash h).
Proof.
  intros Hi Ho. pose proof (heap_scale _ Hi _ _ Ho) as Hsc.
  assert (forall rec, exists o', observe_event ln_1p (mkSybilOverlay (oc_cfg o) (oc_authors o) rec)
    l tick node ev hash = Some o' /\ cfg o' = oc_cfg o) as Ht.
  { intros rec. destruct (observe_total ln_1p (mkSybilOverlay (oc_cfg o) (oc_authors o) rec)
      (mkObservation l tick node ev hash) Hsc) as (o' & E & Hc & _). by exists o'. }
  unfold observe_cell. destruct (oc_recorder o) as [r|] eqn:Er.
  - destruct (Ht (Some (default TraceRecorder_new (hp_recorders h !! r)))) as (o' & -> & Hc).
    destruct (heap_attached _ Hi _ _ _ Ho Er) as [rec Hrec]. unfold deref. rewrite Hrec.
    eexists. split; [done|]. split; [|done]. apply HeapInv_recorder, HeapInv_overlay; simpl.
    + done.
    + intros x [= <-]. by rewrite Hrec.
    + by rewrite Hc.
  - destruct (Ht None) as (o' & -> & Hc). apply returns_overlay; simpl; [done|done|by rewrite Hc].
Qed.

(** A null argument makes the call return at once; a handle is dereferenced. *)
Ltac null_case x := destruct x as [x|]; [|by eexists].

Ltac ffi_deref Hu :=
  match type of Hu with usable ?m (Some ?p) =>
    match goal with
    | |- returns_well ?h ?b (forget _) =>
        apply (deref_usable m (Some p) p _ (fun r => returns_well h b (forget r)) Hu eq_refl)
    | |- returns_well ?h ?b _ => apply (deref_usable m (Some p) p _ (returns_well h b) Hu eq_refl)
    end end.

(** The calls that only read. *)
Definition read_only (c : Call) : bool :=
  match c with
  | CLastError _ _ | CHashEvent _ | CDerivePubkey _ _ | CCtxInit _ | CValidate _ _ | CSign _ _ _
  | CGetEvent _ _ _ | CGetTips _ _ _ | CMerkleRoot _ _ | CSelectTip _ _ _ | CRecorderLen _
  | CRecorderGet _ _ _ | CWeight _ _ _ | CSelectSybil _ _ _ _ => true
  | _ => false
  end.

Lemma read_only_returns c h :
  read_only c = true -> HeapInv h -> safe_call c h -> returns_well h true (exec c h).
Proof.
  intros Hro Hi Hs. destruct c; try done; cbn [exec safe_call] in *; try by apply returns_same.
  - unfold dvel_storage_last_error. null_case buf. case_bool_decide; [by apply returns_same|].
    specialize (Hs buf eq_refl). rewrite bool_decide_false by lia. by apply returns_same.
  - null_case l. null_case hash. null_case out. cbn. ffi_deref Hs. intros l' _.
    destruct (get_event l' hash); by apply returns_same.
  - destruct Hs as [Hu Hr]. null_case l. null_case out. cbn. case_bool_decide; [by exists h|].
    ffi_deref Hu. intros l' _. specialize (Hr out eq_refl).
    rewrite bool_decide_true by (rewrite length_take; lia). by apply returns_same.
  - null_case l. null_case out. cbn. ffi_deref Hs. intros l' _. destruct (merkle_root l'); by apply returns_same.
  - null_case l. cbn. ffi_deref Hs. intros l' _. by apply returns_same.
  - null_case r. cbn. ffi_deref Hs. intros r' _. by apply returns_same.
  - null_case r. null_case out. cbn. ffi_deref Hs. intros r' _. destruct (rows r' !! idx); by apply returns_same.
  - null_case o. cbn. ffi_deref Hs. intros o' Eo.
    rewrite author_weight_fp_some by exact (heap_scale _ Hi _ _ Eo). by apply returns_same.
  - destruct Hs as [Ho Hl]. null_case l. null_case o. cbn. ffi_deref Hl. intros l' _.
    ffi_deref Ho. intros o' Eo. rewrite select_sybil_tip by exact (heap_scale _ Hi _ _ Eo).
    by apply returns_same.
Qed.

Lemma ledger_call_returns c h :
  match c with CLedgerNew | CLedgerFree _ | CAddEvent _ _ | CLinkEvent _ _ _ => True | _ => False end ->
  HeapInv h -> safe_call c h -> returns_well h (negb (unchecked c)) (exec c h).
Proof.
  intros Hk Hi Hs. destruct c; try done; cbn [exec safe_call unchecked negb] in *.
  - eexists. split; [done|]. split; [by destruct Hi|]. intros _ Hl q x. simpl.
    intros [[_ <-]|[_ E]]%lookup_insert_Some; [constructor|by eapply Hl].
  - null_case l. cbn. ffi_deref Hs. intros l' _. eexists. split; [done|].
    split; [by apply HeapInv_ledgers|]. intros _ Hl q x. simpl.
    intros [_ E]%lookup_delete_Some. by eapply Hl.
  - null_case l. null_case ev. cbn. ffi_deref Hs. intros l' _.
    eexists. split; [done|]. split; [by apply HeapInv_ledgers|done].
  - null_case l. null_case ev. cbn. ffi_deref Hs. intros l' El.
    destruct (try_add_event l' (to_event ev)) as [[l2 hash]|err] eqn:E; [|by exists h].
    eexists. split; [done|]. split; [by apply HeapInv_ledgers|]. intros _ Hl q x. simpl.
    intros [[_ <-]|[_ Eq]]%lookup_insert_Some; [|by eapply Hl].
    eapply reachable_add; [by eapply Hl|exact E].
Qed.

(** The storage calls touch nothing but the files and the last error. *)
Lemma storage_call_returns m h linked :
  is_Some (finished m) -> HeapInv h -> returns_well h linked (storage_call m h).
Proof.
  intros [[w ok] Hm] [Ha Hs]. destruct m as [[w' ok']| | |]; try done. eexists. split; [done|]. by split.
Qed.

Lemma with_path_finishes what ptr w k :
  (forall p, is_Some (finished (k p))) -> is_Some (finished (with_path what ptr w k)).
Proof. intros Hk. unfold with_path. destruct (cstr_to_str ptr); [apply Hk|by eexists]. Qed.

Lemma chunk_file_finishes os input out_dir size sk sign w :
  0 <= size <= isize_max -> os_alloc os size = true ->
  is_Some (finished (dvel_storage_chunk_file io_text os input out_dir size sk sign w)).
Proof.
  intros Hsz Hal. unfold dvel_storage_chunk_file.
  apply with_path_finishes. intros input'. apply with_path_finishes. intros out'.
  destruct (chunk_file_total os (path_of input') out' size (sw_files (set_last_error [] w)) Hsz Hal)
    as ([fs [m|e]] & ->); cbn [mbind process_bind]; [|by eexists].
  destruct sign; [|by eexists]. destruct sk as [sk|]; [|by eexists].
  destruct (sign_manifest_inplace m sk); by eexists.
Qed.

Lemma download_finishes mpath cdir output expect w :
  is_Some (finished (dvel_storage_download io_text mpath cdir output expect w)).
Proof.
  unfold dvel_storage_download. do 3 (apply with_path_finishes; intros ?).
  destruct (read_manifest _ _) as [m|]; [|by eexists].
  destruct (match expect with Some _ => _ | None => _ end); [by eexists|].
  destruct (match mf_signature m with Some _ => _ | None => _ end); [|by eexists].
  destruct (verify_chunks _ _ _); [|by eexists]. destruct (reassemble _ _ _ _) as [fs [|]]; by eexists.
Qed.

Lemma exec_returns c h : HeapInv h -> safe_call c h -> returns_well h (negb (unchecked c)) (exec c h).
Proof.
  intros Hi Hs. destruct c; try (by apply ledger_call_returns); try (by apply read_only_returns);
    cbn [exec safe_call unchecked negb] in *.
  - destruct Hs as [Hsz Hal]. apply storage_call_returns; [|done]. by apply chunk_file_finishes.
  - apply storage_call_returns; [|done]. apply download_finishes.
  - apply storage_call_returns; [by eexists|done].
  - apply storage_call_returns; [by eexists|done].
  - eexists. split; [done|]. split; [by destruct Hi|done].
  - eexists. split; [done|]. split; [|done]. destruct Hi as [Ha Hsc]. split; simpl; [|done].
    intros q o x E Ex. apply lookup_insert_is_Some'. right. by eapply Ha.
  - destruct Hs as [Hu Hfree]. null_case r. cbn. ffi_deref Hu. intros r' _. eexists. split; [done|].
    split; [|done]. destruct Hi as [Ha Hsc]. split; simpl; [|done]. intros q o x E Ex.
    rewrite lookup_delete_ne; [by eapply Ha|]. intros ->. by apply (Hfree q o x E Ex).
  - null_case r. cbn. ffi_deref Hs. intros r' _. eexists. split; [done|].
    split; [by apply HeapInv_recorder|done].
  - eexists. split; [done|]. split; [|done]. destruct Hi as [Ha Hsc].
    split; simpl; intros q o; intros; rewrite lookup_insert_Some in *; naive_solver (unfold i64_max; lia).
  - null_case o. cbn. ffi_deref Hs. intros o' _. eexists. split; [done|]. split; [|done].
    destruct Hi as [Ha Hsc].
    split; simpl; intros q o''; intros; rewrite lookup_delete_Some in *; naive_solver.
  - destruct Hs as [Hu Hsc]. null_case o. null_case c. cbn. ffi_deref Hu. intros o' Eo.
    apply returns_overlay; simpl; [done| |by apply Hsc]. intros r. by apply (heap_attached _ Hi _ _ _ Eo).
  - destruct Hs as [Hu Hr]. null_case o. cbn. ffi_deref Hu. intros o' Eo.
    apply returns_overlay; simpl; [done|exact Hr|by apply (heap_scale _ Hi _ _ Eo)].
  - destruct Hs as [Ho Hl]. null_case o. null_case l. null_case hash. cbn. ffi_deref Hl.
    intros l' _. destruct (get_event l' hash); [|by exists h]. ffi_deref Ho. intros o' Eo.
    by apply observe_cell_returns.
Qed.

Lemma exec_all_inv cs h :
  HeapInv h -> safe_calls cs h -> exists h', exec_all cs h = Ret h' tt /\ HeapInv h'.
Proof.
  revert h. induction cs as [|c cs IH]; intros h Hi Hs; [by exists h|].
  destruct Hs as [Hc Hrest]. destruct (exec_returns c h Hi Hc) as (h1 & E & Hi1 & _).
  cbn [exec_all]. rewrite E. by apply IH; [|apply Hrest].
Qed.

(** C19: the C interface is memory safe for a caller that follows the rules:
    any sequence of calls of the exported functions, over any files, in which
    every handle that is passed is null or live, every output buffer is as long
    as announced, no recorder is freed while an overlay points to it, every
    configured scale fits [i64], and every chunk size is at most [isize::MAX]
    with memory for one chunk, runs to its end without undefined behaviour and
    without aborting the process; and as long as the unchecked
    [dvel_ledger_add_event] is not used, every ledger stays one that linking
    alone can build. *)
Theorem ffi_memory_safe cs files :
  safe_calls cs (heap_new files) ->
  exists h, exec_all cs (heap_new files) = Ret h tt /\ HeapInv h /\
    (forallb (fun c => negb (unchecked c)) cs = true -> all_linked h).
Proof.
  assert (HeapInv (heap_new files) /\ all_linked (heap_new files)) as [Hi Hl].
  { split; [split|]; intros ? ?; intros; simpl in *; by rewrite lookup_empty in *. }
  generalize dependent (heap_new files). induction cs as [|c cs IH]; intros h Hi Hl Hs; [by exists h|].
  destruct Hs as [Hc Hrest]. destruct (exec_returns c h Hi Hc) as (h1 & E & Hi1 & Hl1).
  cbn [exec_all]. rewrite E. destruct (unchecked c) eqn:Hu; cbn [negb] in Hl1.
  - destruct (exec_all_inv cs h1 Hi1 (Hrest h1 E)) as (h2 & E2 & Hi2). exists h2.
    split_and!; try done. simpl. by rewrite Hu.
  - destruct (IH h1 Hi1 (Hl1 eq_refl Hl) (Hrest h1 E)) as (h2 & E2 & Hi2 & Hl2). exists h2.
    split_and!; try done. simpl. rewrite Hu. done.
Qed.

End calls.

(** ** Examples *)

Section examples.
Import Toy.

#[local] Instance ffi_iter : HashIter :=
  {| set_iter := elements; set_iter_perm := fun X => reflexivity _ |}.

Definition demo_event : dvel_event_t := from_event demo_genesis.

(** A ledger, an overlay with a recorder, one event linked and observed, and
    everything freed in the right order; then a file is chunked, and the
    download of a missing manifest leaves an error to read. *)
Definition demo_calls : list Call :=
  [CLedgerNew; COverlayNew; CRecorderNew; CAttach (Some 2) (Some 3);
   CLinkEvent (Some 1) (Some demo_event) None;
   CObserve (Some 2) (Some 1) 5 0 (Some (hash_event demo_genesis));
   CRecorderLen (Some 3); CAttach (Some 2) None; CRecorderFree (Some 3);
   COverlayFree (Some 2); CLedgerFree (Some 1);
   CChunkFile demo_os (Some (str "in/a.txt")) (Some (str "out")) 4 None false;
   CDownload (Some (str "none")) (Some (str "out")) (Some (str "back")) None;
   CLastError (Some (repeat x00 8)) 8].

(** The rules, as a test. *)
Definition usable_test {V} (m : gmap handle V) (p : option handle) : bool :=
  match p with None => true | Some x => bool_decide (is_Some (m !! x)) end.

Lemma usable_test_ok {V} (m : gmap handle V) p : usable_test m p = true -> usable m p.
Proof. intros Ht x ->. by apply bool_decide_eq_true in Ht. Qed.

Definition room_test (room : option nat) (n : nat) : bool :=
  match room with None => true | Some k => bool_decide (n <= k)%nat end.

Lemma room_test_ok room n k : room_test room n = true -> room = Some k -> (n <= k)%nat.
Proof. intros Ht ->. by apply bool_decide_eq_true in Ht. Qed.

Definition safe_call_test (c : Call) (h : Heap) : bool :=
  match c with
  | CHashEvent _ | CDerivePubkey _ _ | CDownload _ _ _ _ | CManifestHash _ _ | CChunkRoot _ _
  | CCtxInit _ | CValidate _ _ | CSign _ _ _
  | CLedgerNew | CSetSkew _ | CRecorderNew | COverlayNew => true
  | CLastError buf n => room_test (length <$> buf) n
  | CChunkFile os _ _ chunk_size _ _ =>
      bool_decide (0 <= chunk_size <= isize_max) && os_alloc os chunk_size
  | CGetTips l out max => usable_test (hp_ledgers h) l && room_test out max
  | CLedgerFree l | CAddEvent l _ | CLinkEvent l _ _ | CGetEvent l _ _
  | CMerkleRoot l _ | CSelectTip l _ _ => usable_test (hp_ledgers h) l
  | CRecorderFree r => usable_test (hp_recorders h) r &&
      match r with
      | Some x => bool_decide (map_Forall (fun _ o => oc_recorder o <> Some x) (hp_overlays h))
      | None => true
      end
  | CRecorderClear r | CRecorderLen r | CRecorderGet r _ _ => usable_test (hp_recorders h) r
  | COverlayFree o | CWeight o _ _ => usable_test (hp_overlays h) o
  | CSetConfig o c => usable_test (hp_overlays h) o &&
      match c with Some x => bool_decide (0 <= cs_fixed_point_scale x <= i64_max) | None => true end
  | CAttach o r => usable_test (hp_overlays h) o && usable_test (hp_recorders h) r
  | CObserve o l _ _ _ | CSelectSybil l o _ _ =>
      usable_test (hp_overlays h) o && usable_test (hp_ledgers h) l
  end.

Lemma safe_call_test_ok c h : safe_call_test c h = true -> safe_call c h.
Proof.
  destruct c; cbn [safe_call_test safe_call]; auto using usable_test_ok;
    try (intros [Hu Ht]%andb_true_iff; split; auto using usable_test_ok).
  - intros Ht b ->. by apply (room_test_ok _ _ _ Ht).
  - by apply bool_decide_eq_true in Hu.
  - intros room. by apply room_test_ok.
  - intros p o x Eo Ex ->. apply bool_decide_eq_true in Ht. by apply (Ht _ _ Eo).
  - intros x ->. by apply bool_decide_eq_true in Ht.
Qed.

Fixpoint safe_calls_test (cs : list Call) (h : Heap) : bool :=
  match cs with
  | [] => true
  | c :: rest =>
      safe_call_test c h &&
      match exec demo_ln [] c h with Ret h' _ => safe_calls_test rest h' | _ => false end
  end.

Lemma safe_calls_test_ok cs h : safe_calls_test cs h = true -> safe_calls demo_ln [] cs h.
Proof.
  revert h. induction cs as [|c cs IH]; intros h; cbn [safe_calls_test safe_calls]; [done|].
  intros [Hc Hr]%andb_true_iff. split; [by apply safe_call_test_ok|].
  intros h' E. rewrite E in Hr. by apply IH.
Qed.

Lemma ffi_memory_safe_witness :
  exists h, exec_all demo_ln [] demo_calls (heap_new demo_files) = Ret h tt /\ HeapInv h.
Proof.
  destruct (ffi_memory_safe demo_ln [] demo_calls demo_files) as (h & E & Hi & _).
  - apply safe_calls_test_ok. vm_compute. reflexivity.
  - exact (ex_intro _ h (conj E Hi)).
Defined.

(** Freeing a recorder that is still attached leaves a dangling pointer: the
    next observation is undefined behaviour. *)
Theorem dangling_recorder_undefined :
  exec_all demo_ln []
    [CLedgerNew; COverlayNew; CRecorderNew; CAttach (Some 2) (Some 3);
     CLinkEvent (Some 1) (Some demo_event) None; CRecorderFree (Some 3);
     CObserve (Some 2) (Some 1) 5 0 (Some (hash_event demo_genesis))] (heap_new ∅) = Undefined.
Proof. vm_compute. reflexivity. Qed.

(** A scale beyond [i64], which the interface accepts, aborts the process at
    the next weight. *)
Theorem large_scale_aborts :
  exec_all demo_ln []
    [COverlayNew; CSetConfig (Some 1) (Some (mk_dvel_config 8 16 (2 ^ 63) 64));
     CWeight (Some 1) 5 demo_author] (heap_new ∅) = ProcessAbort.
Proof. vm_compute. reflexivity. Qed.

(** A chunk size beyond [isize::MAX] aborts the process: the panic of the
    buffer's allocation cannot cross the C boundary. *)
Theorem oversized_chunk_aborts :
  exec_all demo_ln []
    [CChunkFile demo_os (Some (str "in/a.txt")) (Some (str "out")) (2 ^ 64 - 1) None false]
    (heap_new demo_files) = ProcessAbort.
Proof. vm_compute. reflexivity. Qed.

Lemma storage_calls_agree_witness :
  exists w' ok,
    dvel_storage_download [] (Some (str "in/a.txt")) (Some (str "out")) (Some (str "back/b.txt")) None
      (mkStorageWorld demo_files []) = Finished (w', ok) /\ (ok = true <-> sw_error w' = []).
Proof.
  destruct (storage_calls_agree [] demo_os (str "in/a.txt") (str "out") (str "4") 4 None
    (str "in/a.txt") (str "out") (str "back/b.txt") None (mkStorageWorld demo_files []))
    as (_ & w' & ok & E & _ & Hok); try (vm_compute; reflexivity); try discriminate.
  exact (ex_intro _ w' (ex_intro _ ok (conj E Hok))).
Defined.

End examples.
