(* ===== verification/UnitTests.v ===== *)
(** * The repository's unit tests

    The [#[test]] functions inside src/rust-core/src (bft/slashing.rs,
    scoring.rs, storage.rs) on the model: each test is a function that is [true]
    if every assertion of the test holds and every [expect], [unwrap] and [?]
    succeeds.  They check that the definitions compute what the authors of the
    code expect of the functions.  The tests of slashing are evaluated; that of
    scoring is evaluated with the instances of [Crypto.Toy]; those of storage
    are proved to pass for every file size and chunk size and every hash and
    signature implementation, and so at their own sizes. *)

From Stdlib Require Import ZArith Lia Strings.Byte.
From stdpp Require Import base gmap list strings.
From S2P Require Import Prelude Crypto Text Event Merkle Ledger Validation BftTypes BftConfig Slashing.
From S2P Require Import Scoring Overlay FileStorage FileTool.

(** [expect], [unwrap] and [?]: the value, or a failed test. *)
Definition expect {A E} (r : result A E) : option A :=
  match r with Ok a => Some a | Err _ => None end.

(** A test whose assertions were reached holds if they hold. *)
Definition passes (t : option bool) : bool := default false t.

(** ** bft/slashing.rs *)

Module SlashingTests.

Definition test_config : SlashingConfig := mkSlashingConfig true 5 1 100.

Definition make_vote (validator_id : NodeId) (height round : Z) (block_hash : Hash) : SignedVote :=
  mkSignedVote (mkVote height round Prevote block_hash validator_id) (str "test").

Definition validator_id : NodeId := replicate 32 x01.

Definition test_state : SlashingState := SlashingState_new {[validator_id := 1000000]}.

Definition test_evidence : SlashingEvidence :=
  DoubleSign validator_id 10 0 (make_vote validator_id 10 0 (replicate 32 xaa))
    (make_vote validator_id 10 0 (replicate 32 xbb)).

Definition detect_double_sign : bool :=
  let vote1 := make_vote validator_id 10 0 (replicate 32 xaa) in
  let vote2 := make_vote validator_id 10 0 (replicate 32 xbb) in
  let '(state, first) := record_vote test_state vote1 test_config in
  let '(state, evidence) := record_vote state vote2 test_config in
  bool_decide (first = None) && bool_decide (is_Some evidence).

Definition slash_reduces_stake (now_ms : Z) : bool :=
  match slash now_ms test_state test_evidence test_config 10 with
  | Err _ => false
  | Ok (state, record) =>
      (sr_slashed_amount record =? 50000)
      && bool_decide (stakes state !! validator_id = Some 950000)
      && is_jailed state validator_id 10
      && negb (is_jailed state validator_id 111)
  end.

Definition effective_stake_zero_when_jailed (now_ms : Z) : bool :=
  match slash now_ms test_state test_evidence test_config 10 with
  | Err _ => false
  | Ok (state, _) =>
      (effective_stake state validator_id 10 =? 0)
      && (effective_stake state validator_id 111 =? 950000)
  end.

Lemma slashing_tests_pass now_ms :
  detect_double_sign = true /\ slash_reduces_stake now_ms = true /\
  effective_stake_zero_when_jailed now_ms = true.
Proof. split_and!; vm_compute; reflexivity. Qed.

End SlashingTests.

(** ** scoring.rs *)

Module ScoringTests.

Section tests.
Context `{Sha256} `{Ed25519} `{HashIter} (ln_1p : f64 -> f64) (skew : Z).

Definition secret : list byte := replicate 32 x42.

(** The event of a test, signed after it is built. *)
Definition signed_event (timestamp : Z) (payload : byte) : Event :=
  let author := public_key_to_bytes (public_of_secret secret) in
  let e := Event_new ZERO_HASH author timestamp (replicate 32 payload) (replicate 64 x00) in
  mkEvent (ev_version e) (ev_prev_hash e) (ev_author e) (ev_timestamp e) (ev_payload_hash e)
    (compute_signature_with_secret e secret).

Definition sybil_overlay_detects_equivocation_and_zeroes_weight : bool :=
  let author := public_key_to_bytes (public_of_secret secret) in
  let ev1 := signed_event 1 x01 in
  let ev2 := signed_event 2 x02 in
  passes (
    vctx ← expect (validate_event skew ev1 ValidationContext_new);
    '(ledger, h1) ← expect (try_add_event Ledger_new ev1);
    overlay ← observe_event ln_1p (SybilOverlay_new SybilConfig_default) ledger 10 0 ev1 h1;
    _ ← expect (validate_event skew ev2 vctx);
    '(ledger, h2) ← expect (try_add_event ledger ev2);
    overlay ← observe_event ln_1p overlay ledger 10 0 ev2 h2;
    pref ← select_preferred_tip_score_sybil ln_1p ledger overlay 11 8;
    '(tip, score) ← pref;
    Some (bool_decide (h1 <> h2)
          && bool_decide (author_weight_fp ln_1p overlay 11 author = Some 0)
          && (score =? 0) && (bool_decide (tip = h1) || bool_decide (tip = h2)))).

End tests.

Section run.
Import Toy.

#[local] Instance any_order : HashIter :=
  {| set_iter := elements; set_iter_perm := fun X => reflexivity _ |}.

Lemma scoring_tests_pass :
  sybil_overlay_detects_equivocation_and_zeroes_weight demo_ln default_max_backward_skew = true.
Proof. vm_compute. reflexivity. Qed.

End run.

End ScoringTests.

(** ** storage.rs *)

Module StorageTests.

Section tests.
Context `{Sha256} `{Hex} `{Ed25519} (os : Os).

Definition sample_bytes (len : nat) : list byte :=
  map (fun i => byte_of_Z (Z.of_nat i mod 251)) (seq 0 len).

Definition dir : Str := str "/tmp/test".
Definition input_path : Path := (dir, str "sample.bin").

Definition chunk_sign_verify_round_trip (len : nat) (chunk_size : Z) : bool :=
  let data := sample_bytes len in
  let fs : FileSystem := {[input_path := data]} in
  passes (
    '(fs, r) ← finished (chunk_file_to_dir os input_path dir chunk_size fs);
    manifest ← expect r;
    manifest ← expect (sign_manifest_inplace manifest (replicate 32 x07));
    let mpath := manifest_path dir (mf_file_name manifest) in
    let fs := write_manifest manifest mpath fs in
    loaded ← expect (read_manifest mpath fs);
    _ ← expect (verify_manifest_signature loaded);
    _ ← expect (verify_chunks loaded dir fs);
    let out_path := (dir, str "rebuilt.bin") in
    let '(fs, done) := reassemble loaded dir out_path fs in
    _ ← expect done;
    rebuilt ← fs !! out_path;
    Some (bool_decide (rebuilt = data))).

Definition manifest_and_chunk_roots_match_helpers (len : nat) (chunk_size : Z) : bool :=
  let fs : FileSystem := {[input_path := sample_bytes len]} in
  passes (
    '(fs, r) ← finished (chunk_file_to_dir os input_path dir chunk_size fs);
    manifest ← expect r;
    let mpath := manifest_path dir (mf_file_name manifest) in
    let fs := write_manifest manifest mpath fs in
    h_file ← expect (manifest_hash_from_file mpath fs);
    c_struct ← chunk_merkle_root manifest;
    c_read ← expect (chunk_merkle_root_from_file mpath fs);
    c_file ← c_read;
    let fs := <[mpath := str "corrupt"]> fs in
    Some (bool_decide (manifest_hash manifest = h_file) && bool_decide (c_struct = c_file)
          && match manifest_hash_from_file mpath fs with
             | Err (InvalidManifest _) => true
             | _ => false
             end)).

(** [c0[0] ^= 0xFF]. *)
Definition flip_first (c : list byte) : option (list byte) :=
  b ← head c; Some (byte_of_Z (Z.lxor (byte_to_Z b) 255) :: tail c).

Definition detect_corrupt_chunk (len : nat) (chunk_size : Z) : bool :=
  let fs : FileSystem := {[input_path := sample_bytes len]} in
  passes (
    '(fs, r) ← finished (chunk_file_to_dir os input_path dir chunk_size fs);
    manifest ← expect r;
    let first_chunk := chunk_path dir (mf_file_name manifest) 0 in
    c0 ← fs !! first_chunk;
    c0 ← flip_first c0;
    let fs := <[first_chunk := c0]> fs in
    Some match verify_chunks manifest dir fs with
         | Err (HashMismatch index) => bool_decide (index = 0%nat)
         | _ => false
         end).

(** *** The tests hold for every size *)

Lemma sample_length len : length (sample_bytes len) = len.
Proof. unfold sample_bytes. by rewrite length_map, length_seq. Qed.

Lemma sample_plain : plain_line (snd input_path).
Proof.
  split; [refine (bool_decide_unpack (newline ∉ snd input_path) _); vm_compute; exact I|].
  vm_compute. discriminate.
Qed.

Lemma sample_chunked len chunk_size :
  0 < chunk_size <= isize_max -> os_alloc os chunk_size = true -> is_u64 (Z.of_nat len) ->
  exists fs m pieces,
    chunk_file_to_dir os input_path dir chunk_size {[input_path := sample_bytes len]}
    = Finished (fs, Ok m) /\
    wf_manifest m /\ mf_file_name m = str "sample.bin" /\ mf_total_size m = bytes_total pieces /\
    bytes_total pieces <= u64_max /\ map sha256 pieces = mf_chunks m /\ concat pieces = sample_bytes len /\
    Forall (fun p => p <> []) pieces /\
    holds_pieces fs dir (str "sample.bin") 0 pieces.
Proof.
  intros Hc Hal Hl.
  destruct (chunk_file_ok os input_path dir chunk_size {[input_path := sample_bytes len]}
    (sample_bytes len)) as (pieces & E & Hcat & Hle & Hne & Hh); [|vm_compute; reflexivity|done|done|..].
  { apply lookup_singleton_eq. }
  { by rewrite sample_length. }
  assert (bytes_total pieces = Z.of_nat len) as Hb by (unfold bytes_total; by rewrite Hcat, sample_length).
  rewrite sample_length in *. eexists _, _, pieces. split; [exact E|]. unfold is_u64, isize_max, u64_max in *.
  split_and!; try done; [|lia].
  apply (chunked_manifest_wf input_path); [vm_compute; reflexivity|apply sample_plain|unfold is_u64, u64_max; lia..].
Qed.

Lemma round_trip_passes `{!Ed25519Laws} len chunk_size :
  0 < chunk_size <= isize_max -> os_alloc os chunk_size = true -> is_u64 (Z.of_nat len) ->
  chunk_sign_verify_round_trip len chunk_size = true.
Proof.
  intros Hc Hal Hl. destruct (sample_chunked len chunk_size Hc Hal Hl)
    as (fs & m & pieces & E & Hwf & Hn & Ht & Hu & Hch & Hcat & _ & Hh).
  destruct (sign_manifest_ok m (replicate 32 x07) Hwf)
    as (m' & Esig & Hwf' & Hv & _ & _ & Hn' & Hts & Hch' & _). rewrite <- Hn in Hh.
  assert (holds_pieces (write_manifest m' (manifest_path dir (mf_file_name m)) fs) dir (mf_file_name m) 0 pieces)
    as Hh'.
  { intros i p Hp. unfold write_manifest.
    rewrite lookup_insert_ne by (intros Ep; by apply (manifest_not_chunk dir (mf_file_name m) i)).
    by apply Hh. }
  unfold chunk_sign_verify_round_trip, passes. rewrite E. cbn [mbind option_bind finished expect]. rewrite Esig. cbn [mbind option_bind expect].
  rewrite read_written by done. cbn [mbind option_bind expect]. rewrite Hv. cbn [mbind option_bind expect].
  rewrite Hn', (verify_pieces m' _ _ pieces) by (rewrite ?Hn', ?Hch', ?Hts; done). cbn [mbind option_bind expect].
  destruct (reassemble_pieces m' dir (dir, str "rebuilt.bin")
    (write_manifest m' (manifest_path dir (mf_file_name m)) fs) pieces)
    as (fs' & -> & Ho); [by rewrite Hn'|by rewrite Hch'| |].
  - intros i. rewrite Hn', Hn. discriminate.
  - cbn [mbind option_bind expect]. rewrite Ho. cbn [mbind option_bind default]. rewrite Hcat. by apply bool_decide_eq_true_2.
Qed.

Lemma sample_pieces len pieces :
  (0 < len)%nat -> concat pieces = sample_bytes len -> exists p rest, pieces = p :: rest.
Proof.
  intros Hl Hc. destruct pieces as [|p rest]; [|by eauto].
  apply (f_equal length) in Hc. rewrite sample_length in Hc. simpl in Hc. lia.
Qed.

Lemma roots_pass len chunk_size :
  0 < chunk_size <= isize_max -> os_alloc os chunk_size = true -> is_u64 (Z.of_nat len) -> (0 < len)%nat ->
  manifest_and_chunk_roots_match_helpers len chunk_size = true.
Proof.
  intros Hc Hal Hl Hlen. destruct (sample_chunked len chunk_size Hc Hal Hl)
    as (fs & m & pieces & E & Hwf & _ & _ & _ & Hch & Hcat & _).
  assert (exists r, chunk_merkle_root m = Some r) as [r Hr].
  { destruct (sample_pieces len pieces Hlen Hcat) as (p & rest & ->).
    unfold chunk_merkle_root, storage_merkle_root. rewrite <- Hch. cbn [map].
    apply merkle_fold_total. intros En. apply (f_equal length) in En.
    by rewrite sort_bytes_perm in En. }
  unfold manifest_and_chunk_roots_match_helpers, passes. rewrite E. cbn [mbind option_bind finished expect].
  unfold manifest_hash_from_file, chunk_merkle_root_from_file. rewrite read_written by done.
  cbn [mbind option_bind expect result_bind]. rewrite Hr. cbn [mbind option_bind default].
  rewrite !bool_decide_eq_true_2 by done. unfold read_manifest. rewrite lookup_insert_eq.
  vm_compute. reflexivity.
Qed.

Lemma flip_differs c c' : flip_first c = Some c' -> c' <> c.
Proof.
  destruct c as [|b c]; [done|]. cbn. intros [= <-] [= E]. by destruct b.
Qed.

Lemma corrupt_chunk_passes len chunk_size :
  0 < chunk_size <= isize_max -> os_alloc os chunk_size = true -> is_u64 (Z.of_nat len) -> (0 < len)%nat ->
  detect_corrupt_chunk len chunk_size = true \/ exists c c', flip_first c = Some c' /\ collision c' c.
Proof.
  intros Hc Hal Hl Hlen. destruct (sample_chunked len chunk_size Hc Hal Hl)
    as (fs & m & pieces & E & _ & Hn & _ & _ & Hch & Hcat & Hne & Hh).
  destruct (sample_pieces len pieces Hlen Hcat) as (p & rest & ->).
  apply holds_pieces_cons in Hh as [Hp _]. apply Forall_cons in Hne as [Hne _].
  assert (exists p', flip_first p = Some p') as [p' Hp'] by (destruct p; [done|by eexists]).
  destruct (decide (sha256 p' = sha256 p)) as [Es|Es].
  { right. exists p, p'. split; [done|]. split; [by apply flip_differs|done]. }
  left. unfold detect_corrupt_chunk, passes. rewrite E. cbn [mbind option_bind finished expect].
  rewrite Hn, Hp. cbn [mbind option_bind]. rewrite Hp'. cbn [mbind option_bind default].
  unfold verify_chunks. rewrite <- Hch, Hn. cbn [map verify_loop]. rewrite lookup_insert_eq.
  by rewrite decide_True.
Qed.

(** The tests as they are run: with their sizes, and memory for a chunk. *)
Lemma storage_tests_pass `{!Ed25519Laws} :
  (forall size, size <= 2048 -> os_alloc os size = true) ->
  chunk_sign_verify_round_trip (32 * 1024 + 123) 1024 = true /\
  manifest_and_chunk_roots_match_helpers (10 * 1000) 2048 = true /\
  (detect_corrupt_chunk 4096 512 = true \/ exists c c', flip_first c = Some c' /\ collision c' c).
Proof.
  intros Hal. split_and!; [apply round_trip_passes|apply roots_pass|apply corrupt_chunk_passes];
    try apply Hal; unfold is_u64, u64_max, isize_max; lia.
Qed.

End tests.

End StorageTests.
